(* ===== verification/_CoqProject ===== *)
-Q . S2P
Prelude.v
Effects.v
Interleave.v
Netip.v
NetipFacts.v
NetipText.v
AddressRange.v
AllocationRanges.v
Kube.v
AllocationTypes.v
PodNetwork.v
ElasticIPUse.v
AllocationAPI.v
AllocationClaimReconciler.v
ElasticIPReconciler.v
AllocationPick.v
AllocationCluster.v
AllocationSafety.v
AllocationServerModel.v
AllocationLeaseReconciler.v
AllocationTheorems.v
Protocol.v
PolicyRules.v
PolicyEval.v
PolicyACL.v
PolicySG.v
PolicyStores.v
PolicyPublish.v
PolicyTheorems.v
PolicyMembership.v
IPNet.v
NetworkInterfaceReconciler.v
ElasticIPCluster.v
ElasticIPSafety.v
ElasticIPWitness.v
ElasticIPTheorems.v
AddressPlan.v
AddressPlanInv.v
AddressPlanTheorems.v
RouteTypes.v
RouteTable.v
RouteTableWebhook.v
MapSweep.v
MapSweepPure.v
MapSweepSpec.v
MapSweepSafety.v
Conntrack.v
ConntrackFlows.v
ConntrackTheorems.v
OwnedAddr.v
Fib.v
OwnedKey.v
FibTables.v
FibPublish.v
RoutingTheorems.v
TransitGateway.v
TransitTheorems.v
LinkTheorems.v
RoutingWitness.v
OwnedAddrTheorems.v
ExternalAddr.v
NodeTables.v
Neighbors.v
NeighborTheorems.v
NeighborWitness.v
PolicyReconcilers.v
PolicyReconcilerTheorems.v
ServiceTypes.v
ServiceReconciler.v
ServiceDataplane.v
ServiceMaps.v
ServiceBackends.v
ServiceTheorems.v
ServiceWitness.v
VpcEndpoint.v
VpcEndpointTheorems.v
VpcEndpointWitness.v
UnallocatedTables.v
TransitWitness.v
ExternalAddrTheorems.v
