(* ===== verification/Prelude.v ===== *)
(** * Juneau: a verification library

    Juneau is a VPC network for Kubernetes.  A controller (Go, [controller/])
    keeps the API objects and hands out identifiers and addresses from pools;
    a daemon on every node (Go, [daemon/]) turns the objects into BPF maps;
    BPF programs (C, [daemon/bpf/]) forward and filter the packets.  This
    library models the parts that carry the system's own logic, one file per
    part, and proves what makes them correct.

    ** Allocation (controller)

    Every number (VNIs, VPC ids, group ids) and every address comes out of
    one framework: an [AllocationPool] describes a range, an [AllocationClaim]
    asks for a value, an [AllocationLease] keeps the value reserved, also after
    its claim is gone.
    - [Netip], [NetipFacts], [NetipText]: the part of Go's [net/netip] the code
      uses (addresses, prefixes, parsing and printing, byte order);
    - [AddressRange]: [controller/internal/addressrange];
    - [AllocationRanges]: [controller/internal/controller/allocation_ranges.go],
      the candidate space of a pool and the first-fit scan;
    - [AllocationTypes]: the API types and [allocation_helpers.go];
    - [AllocationAPI]: the API events and the admission webhooks of the three
      kinds;
    - [AllocationClaimReconciler]: [allocationclaim_controller.go];
    - [AllocationLeaseReconciler]: [allocationlease_controller.go] and
      [allocationpool_controller.go];
    - [AllocationPick]: what the scans for a free value return;
    - [AllocationCluster]: the stored objects, the contract of the API server
      ([api_effect]) and of the other actors ([env_step]), the invariant [Inv];
    - [AllocationSafety]: every run of the reconciler keeps [Inv], call by call;
    - [AllocationServerModel]: an executable server that meets the contract;
    - [AllocationTheorems]: the properties.

    ** Policy (controller webhooks, daemon, data plane)

    SecurityGroups and NetworkACLs are admitted by webhooks, expanded by the
    daemon into fixed-size rule arrays and evaluated per packet.  Admitted
    flows are remembered under a generation number, so a rule change must move
    the generation.
    - [Protocol]: [controller/api/v1alpha1/protocol.go], [policy_capacity.go];
    - [PolicyRules]: [daemon/.../dataplane/policy/rule.go], [expand.go],
      [capacity.go], and the NetworkACL and SecurityGroup webhooks;
    - [PolicyEval]: [daemon/bpf/policy_match.h], [acl.h], [sg.h], which give
      the installed rules their meaning, and the encodings of the stores;
    - [PolicyACL], [PolicySG]: the expansion and the scan against the
      documented semantics of the specs ([acl_decides], [sg_verdict]);
    - [PolicyStores]: [epoch.go], [invalidator.go], [rotator.go],
      [aclstore.go], [sgstore.go], [membership.go];
    - [PolicyPublish]: the contract of the BPF maps and the specification of
      the stores on every path;
    - [PolicyReconcilers]: [daemon/.../dataplane/reconciler]:
      [networkacl.go], [securitygroup.go], [sg_membership.go], which feed the
      stores from the API objects;
    - [PolicyTheorems], [PolicyMembership], [PolicyReconcilerTheorems]: the
      properties.

    ** The address plan (controller webhooks)

    Subnets, L2Networks, Vpcs, VpcPeerings and TransitGatewayAttachments are
    admitted by webhooks that keep the prefixes an address could be routed to
    apart.
    - [IPNet]: the part of Go's [net] the webhooks use;
    - [AddressPlan]: [vpcprefix.go] and the webhooks of the five kinds in
      [controller/internal/webhook/v1alpha1], with the specs they read;
    - [AddressPlanInv]: the stored objects, the invariant [plan_ok], and that the
      maps of linked Vpcs the validators build are complete;
    - [AddressPlanTheorems]: admissions and deletions as steps, the invariant of
      every reachable cluster.

    ** Connection tracking (daemon and data plane)

    An admitted flow is a pair of entries, one per direction; the daemon sweeps
    four tables for entries that are stale or idle while packets keep arriving.
    - [MapSweep]: [dataplane/internal/mapsweep]: batched snapshot, recheck and
      removal;
    - [MapSweepPure], [MapSweepSpec], [MapSweepSafety]: a hash map that changes
      under the reader, what a sweep does to entries nobody touches, and what it
      never does to the others;
    - [Conntrack]: [ctstate], [policyct], [reconciler/conntrack.go],
      [l2/fdb_gc.go], [service/affinity_gc.go], and the state machine and pair
      keys of [daemon/bpf/ct.h], [policy_ct.h], [policy.h];
    - [ConntrackFlows], [ConntrackTheorems]: the life of a pair, the properties.

    ** External addresses (daemon)

    Four reconcilers claim the prefixes the node answers for through one store,
    and each programs a map of its own.
    - [OwnedAddr]: [reconciler/ownedaddr] and [internal/convert];
    - [OwnedKey]: prefixes as text and as keys;
    - [OwnedAddrTheorems]: the contract of the store, proved for any map that
      meets the class [PoolServer];
    - [ExternalAddr]: [elastic_ip_direct.go], [external_arp.go], [napt.go],
      [bgp_pool.go], [endpoint_network.go];
    - [ExternalAddrTheorems]: the properties, on kernel maps that are an instance
      of [PoolServer].

    ** Elastic IPs (controller)

    An ElasticIP is an external address that at most one interface carries, or
    one NAT attachment uses; two controllers decide and carry it out from
    caches that lag.
    - [PodNetwork]: [controller/internal/podnetwork/network.go];
    - [ElasticIPUse]: [elasticip_use.go], who uses an ElasticIP;
    - [ElasticIPReconciler]: [elasticip_controller.go] and
      [advertisement_helpers.go];
    - [NetworkInterfaceReconciler]: [networkinterface_controller.go] and
      [networkinterface_elasticip.go];
    - [Interleave]: programs whose calls alternate with those of others;
    - [ElasticIPCluster], [ElasticIPSafety]: the stored objects and their past
      versions, the invariant, and that every call of both controllers keeps it;
    - [ElasticIPTheorems], [ElasticIPWitness]: the properties.

    ** Routing (controller, daemon and data plane)

    The RouteTable controller resolves a table into its status, the daemon of
    every node turns the status into a longest-prefix-match trie and publishes
    it under the table id, the Subnet names the id, and the packet program looks
    the destination up and finds the neighbour of the next hop.
    - [RouteTypes]: the objects and the calls of the controllers;
    - [RouteTable]: [routetable_controller.go], [routetable_endpoint.go];
    - [RouteTableWebhook]: [routetable_webhook.go], [routetable_validation.go];
    - [Fib]: [reconciler/fib.go], [tgw_fib.go], and the lookups of
      [handle_l3] and [handle_transit] in [daemon/bpf/pod_egress.c];
    - [FibTables]: tries against the longest match over a list of routes;
    - [FibPublish]: the contract of the maps ([fib_server]) and the invariant of
      the published tables at every call;
    - [RoutingTheorems], [RoutingWitness]: the properties, from the spec of a
      table to a packet;
    - [NodeTables]: [reconciler/subnet.go], [arp.go], [fdb.go];
    - [Neighbors], [NeighborTheorems], [NeighborWitness]: tables with one entry
      per endpoint, and that they follow the endpoints;
    - [UnallocatedTables]: controller, daemon and packet program together on
      tables without an id;
    - [TransitGateway]: the controllers of TransitGateways, their attachments
      and route tables, and of VpcPeerings;
    - [TransitTheorems], [LinkTheorems], [TransitWitness]: what they publish, and
      where a packet that crosses a transit gateway may end.

    ** Services and VpcEndpoints (daemon, controller and data plane)

    The daemon turns a Kubernetes Service with its EndpointSlices into entries
    of three maps; the packet program of a Pod looks the destination up, admits
    the caller by Vpc, sharing and allow list, and picks a backend.  A
    VpcEndpoint gives a Service an address in another Vpc; the controller
    decides whether it may, and the daemon writes the entry that lets callers
    past the isolation.
    - [ServiceTypes]: the objects and [daemon/internal/daemon/svcpolicy];
    - [ServiceReconciler]: [reconciler/service]: [resolve.go], [filter.go],
      [program.go], [reconciler.go];
    - [ServiceDataplane]: [handle_service] and [select_backend_index] of
      [daemon/bpf/pod_egress.c];
    - [ServiceMaps]: the contract of the maps and what the loops write;
    - [ServiceBackends]: the backends the objects define, and that the
      reconciler computes them;
    - [ServiceTheorems], [ServiceWitness]: the properties;
    - [VpcEndpoint]: [vpcendpoint_controller.go], [vpcendpoint_webhook.go] and
      [reconciler/vpcendpoint.go];
    - [VpcEndpointTheorems], [VpcEndpointWitness]: what the controller accepts,
      that an entry needs an acceptance, at every moment, and the way of a
      packet through a VpcEndpoint to a backend of its Service.

    ** How code is modelled

    Pure functions are Rocq functions.  Fixed-width integers are [Z] with the
    wrap of their Go type written out ([wrapU], [wrapS]).  Errors are values
    ([result]); the texts of messages are dropped, what the code tells apart
    is kept.  Code that talks to the API server or to BPF maps is a [prog]
    ([Effects]): a finite tree of calls.  What a call may answer is a relation
    between states of the outside world, and the theorems hold for every
    behaviour the relation allows: any call may fail, a write that times out
    may have happened, and other actors may act between two calls.  Kubernetes
    library functions are fields of a class with their documented laws
    ([Kube.KubeLib], with an instance), and the API server is the class
    [AllocationCluster.AllocationServer], with [AllocationServerModel] as an
    instance.

    ** What the theorems show

    - Values are unique: no two leases of a pool reserve the same one, and no
      two live claims that name one and the same pool hold the same one,
      wherever a reconcile stops ([unique_allocation]); the choice of a
      value is correct and complete ([pickNumber_correct], [pickIP_correct],
      [pickIP_first_fit]); leases are inherited, released, kept and removed as
      they should ([reuse_inherits_value], [deletion_settles_lease],
      [lease_deletion_justified], [released_requeue_bounds]); an admitted pool
      works ([admitted_pool_usable]).
    - Policies mean what they say: from the admitted spec to the verdict on a
      packet, for NetworkACLs ([acl_enforced]) and SecurityGroups
      ([sg_enforced]), and two passes of the reconciler over the groups install
      every reference between them, whatever went wrong before
      ([sg_two_passes_enforce]); a direction over budget denies
      ([over_capacity_denies]); memberships follow their owners, over
      operations that are retried until they succeed
      ([membership_tracks_owners]).
    - Publishing is sound: rule changes invalidate admitted flows
      ([rule_change_invalidates]) and no inner map is leaked ([no_handle_leak]).
    - The address plan is unambiguous in every cluster the webhooks let come
      about ([address_plan_disjoint]); the overlap test is exact
      ([cidrsOverlap_exact]).
    - Sweeps are exact and safe: entries nobody touches go exactly when they
      should ([policy_sweep_exact]), a flow in use loses neither half
      ([live_flow_spared]), a snapshot of a live map ends and is complete
      ([Snapshot_total_correct]), timeouts do not wrap ([ShouldEvict_spec]), and
      the two entries of a flow stand and fall together
      ([pair_closes_whole], from [pair_lifecycle]).
    - External addresses: the map is the union of the claims
      ([owned_map_is_union]), the gate never opens before its entry
      ([gate_opens_after_entry]), BGP claims are exact ([bgp_claims_exact]), keys
      and their text correspond ([owned_key_roundtrip]).
    - An ElasticIP has one carrier under every interleaving of the two
      controllers and any lag of their caches ([exclusive_carrier]); the decision
      is right on every branch ([decide_use_correct]) and the address is kept as
      long as an interface names it ([address_kept_while_named]).
    - Routing: at every moment a packet takes the longest match over the
      entries of one table as it was read, and which routes have no entry is
      said exactly ([packets_meet_whole_tables]); traffic steered to a firewall
      reaches it, in its segment and with its MAC, or is dropped or takes a
      route at least as specific ([firewall_routes_fail_closed]); the neighbour
      tables follow the endpoints ([neighbors_follow_endpoints]).
    - Links between Vpcs: transit tables and attachments are published whole
      ([transit_table_published], [attachment_published]), a packet crosses a
      transit gateway only into the segment of a Subnet an attachment brought in
      ([transit_delivery_admitted]), a Ready peering joins Vpcs without a common
      address ([peering_ready_apart]).
    - Services: after a run a packet for a Service reaches one of exactly the
      backends the objects define ([is_backend]) when its caller is entitled to,
      and is dropped when the Service is not shared with the caller
      ([service_decides]); at no moment does it reach a backend of another
      Service ([service_moments]).
    - VpcEndpoints: the address stands for the Service ([endpoint_decides]),
      and callers pass the isolation of a Service only after the controller
      accepted that ([endpoint_grant_accepted]).
    - Address ranges are what they print and contain ([PrefixRange_Contains],
      [Intersect_spec], [ParseIPv4Range_correct], [FirstAddr_spec]).
    - Where the code falls short of its intent, a run shows it: a lagging cache
      breaks uniqueness ([stale_cache_double_allocation]), a failed meta write
      leaves an ACL unenforced ([meta_failure_fails_open]), one pass leaves out
      the reference of a group to itself ([self_reference_not_installed]), a late
      delete drops the new owner's groups ([membership_takeover_passes]) or neighbour entry
      ([neighbor_takeover_lost]), a removal that fails is forgotten
      ([failed_removal_forgotten]), interfaces of the same second or the same name
      share an ElasticIP ([orderly_needed]), a change of conditions is not
      published ([condition_change_lost]), a route that is not ready lets traffic
      around a firewall ([not_ready_route_bypasses_firewall]), tables without an
      id are shared between Vpcs ([unallocated_tables_share_id]), an IPv6
      destination stops the daemon ([ipv6_destination_panics]), one FIN from each
      side leaves a flow in FIN_WAIT ([graceful_close_stays]), a Vpc that does
      not consume calls shared Services ([consume_not_enforced]), affinity
      follows the order of the endpoints ([affinity_follows_the_index]), an
      acceptance is used for another Service ([retarget_before_acceptance]) and
      outlives the provider ([revoked_provider_keeps_grant]).

    ** Bounds and assumptions

    Loops of the code that are not structural run on fuel that is proved to
    suffice: the scans for a free number or address get one step more than
    there are used values, the IPv6 parser the eight groups of an address, the
    batched read one call per bucket and growth of its buffer and one more
    ([Snapshot_total_correct]).  Conflict retries are a bounded counter.
    [unique_allocation] assumes that every read of the claim reconciler, of the
    cached client too, is answered from the current state
    ([stale_cache_double_allocation] is a run with a lagging cache) and that
    claim reconciles follow one another, as the controller runs them; other
    actors may do anything [env_step] lists between any two calls.  The policy
    theorems assume that operations of one store do not overlap; [acl_enforced]
    and [over_capacity_denies] that the meta write of the operation goes
    through, [sg_enforced], [sg_two_passes_enforce] and
    [rule_change_invalidates] that no meta write of their histories fails
    ([meta_failure_fails_open] is a run in which one does, which the stores do
    not report).  [membership_tracks_owners] assumes that the deletes inside an
    [Apply], whose errors are only logged, go through.  Specs obey the
    numeric bounds of their CRD schemas ([port_schema], [acl_schema]).  The
    address plan takes admissions one after the other, each validator reading
    the stored objects (two concurrent admissions do not see each other), and
    objects of a kind have distinct, non-empty names; Vpcs of which one has a
    transit table as its association only are not compared
    ([attachment_order_matters]).  In the sweeps packets may add, refresh and
    remove entries between any two calls; [policy_sweep_exact] takes a pass
    without failing calls and without a new generation, [live_flow_spared] any.
    Operations on the
    owned-address store follow one another, which its lock ensures; a
    reconciler's operation is taken as a whole with respect to the others.
    [exclusive_carrier] assumes that interfaces have fresh names and that later
    ones order after earlier ones, and nothing about how old a read is
    ([orderly_needed] shows both are needed).  The FIB theorems take the
    operations of the two FIB reconcilers one after the other, a map call that
    fails as one without effect, and the trie as the kernel documents it; every
    read of an object may fail or be old.  [firewall_routes_fail_closed] is about
    tables the controller wrote as Ready.  [neighbors_follow_endpoints] assumes
    that no endpoint is given a key another one still has.  [service_decides]
    and [endpoint_decides] take histories in which map calls do not fail and no
    two recorded objects have a common address (reads may fail); the ports of a
    Service are distinct, as Kubernetes ensures, the fingerprint of a backend
    set ([crypto/sha256]) is a parameter.  [service_decides] says nothing of
    callers of a Vpc that does not consume Services and calls a shared one
    ([consume_not_enforced]).  [service_moments] and [endpoint_grant_accepted]
    hold whichever calls fail, the latter also over restarts, for objects whose
    status only the controller writes.  A daemon that starts removes the pins of
    its predecessor ([Manager.Start]), so histories begin with empty maps.

    ** Not modelled

    Manager wiring, logging and message texts have no behaviour of their own.
    Of the packet programs in C, the policy evaluators, the policy conntrack,
    the route lookups and the choice of a backend are modelled; NAT rewriting,
    encapsulation and tracing are not.  The CNI and probe services of
    the daemon, the BGP speaker and the kubectl plugin are mostly I/O around
    libraries outside the repository.  The virtual DNS, the remaining
    controllers and webhooks (NAT gateways, DNS, load balancers, L2 networks)
    and the writers of the remaining maps are left out for size.  Generated code (deep copies, bindings) is the identity
    in the model. *)

From stdpp Require Import base gmap strings list sorting fin_maps.
From Stdlib Require Import ZArith Lia.

(** ** Notation scope and proof automation *)

Declare Scope go_scope.
Delimit Scope go_scope with go.

Create HintDb juneau.

(** Case analysis on every [match]/[if] the goal or a hypothesis is stuck
    on, keeping the equations and closing the contradictory branches. *)
Ltac split_match :=
  repeat (case_match; simplify_eq/=; try done).

Ltac split_match_in H :=
  repeat match type of H with
    | context [match ?x with _ => _ end] => destruct x eqn:?; simplify_eq/=; try done
    end.

(** Turn boolean tests of the code into propositions. *)
Ltac to_prop :=
  repeat match goal with
    | H : (_ && _)%bool = true |- _ => apply andb_true_iff in H as [? ?]
    | H : (_ || _)%bool = false |- _ => apply orb_false_iff in H as [? ?]
    | H : (_ && _)%bool = false |- _ => apply andb_false_iff in H
    | H : (_ || _)%bool = true |- _ => apply orb_true_iff in H
    | H : negb _ = true |- _ => apply negb_true_iff in H
    | H : negb _ = false |- _ => apply negb_false_iff in H
    | H : (_ =? _)%Z = true |- _ => apply Z.eqb_eq in H
    | H : (_ =? _)%Z = false |- _ => apply Z.eqb_neq in H
    | H : (_ <=? _)%Z = true |- _ => apply Z.leb_le in H
    | H : (_ <=? _)%Z = false |- _ => apply Z.leb_gt in H
    | H : (_ <? _)%Z = true |- _ => apply Z.ltb_lt in H
    | H : (_ <? _)%Z = false |- _ => apply Z.ltb_ge in H
    | H : bool_decide _ = true |- _ => apply bool_decide_eq_true in H
    | H : bool_decide _ = false |- _ => apply bool_decide_eq_false in H
    end.

(** ** Go's fixed-width integers

    An integer of width [w] is a [Z]; every arithmetic operation of the code
    that may leave the range is followed by the wrap its Go type performs. *)

Definition wrapU (w z : Z) : Z := z mod 2 ^ w.
Definition wrapS (w z : Z) : Z := (z + 2 ^ (w - 1)) mod 2 ^ w - 2 ^ (w - 1).

Abbreviation u8 := (wrapU 8).
Abbreviation u16 := (wrapU 16).
Abbreviation u32 := (wrapU 32).
Abbreviation u64 := (wrapU 64).
Abbreviation i32 := (wrapS 32).
Abbreviation i64 := (wrapS 64).

Definition fitsU (w z : Z) : Prop := (0 <= z < 2 ^ w)%Z.

Lemma wrapU_range w z : (0 <= w)%Z -> fitsU w (wrapU w z).
Proof. intros ?. apply Z.mod_pos_bound, Z.pow_pos_nonneg; lia. Qed.

Lemma wrapU_id w z : fitsU w z -> wrapU w z = z.
Proof. apply Z.mod_small. Qed.

Lemma wrapU_idemp w z : (0 <= w)%Z -> wrapU w (wrapU w z) = wrapU w z.
Proof. intros ?. by apply wrapU_id, wrapU_range. Qed.

Lemma wrapU_succ w z :
  (0 <= w)%Z -> fitsU w z ->
  wrapU w (z + 1) = if decide (z = 2 ^ w - 1)%Z then 0%Z else (z + 1)%Z.
Proof.
  unfold wrapU, fitsU. intros Hw Hz. case_decide as Heq.
  - subst z. replace (2 ^ w - 1 + 1)%Z with (2 ^ w)%Z by lia.
    apply Z.mod_same. lia.
  - apply Z.mod_small. lia.
Qed.

#[export] Hint Resolve wrapU_range wrapU_id : juneau.

(** ** Results

    A Go function that returns [(A, error)] is a function to [result E A];
    [E] enumerates the errors the code builds, sentinel or formatted. *)

Inductive result (E A : Type) : Type :=
| Ok (a : A)
| Err (e : E).
Arguments Ok {E A} a.
Arguments Err {E A} e.

#[global] Instance result_eq_dec {E A} `{EqDecision E, EqDecision A} :
  EqDecision (result E A).
Proof. solve_decision. Defined.

Definition res_bind {E A B} (m : result E A) (f : A -> result E B) : result E B :=
  match m with Ok a => f a | Err e => Err e end.

Definition res_map {E A B} (f : A -> B) (m : result E A) : result E B :=
  match m with Ok a => Ok (f a) | Err e => Err e end.

Definition res_map_err {E F A} (f : E -> F) (m : result E A) : result F A :=
  match m with Ok a => Ok a | Err e => Err (f e) end.

Notation "'let?' x ':=' m 'in' k" := (res_bind m (fun x => k))
  (at level 10, x pattern, m at level 100, k at level 200) : go_scope.

(** A loop that appends one result per input and stops at the first error. *)
Fixpoint res_traverse {E A B} (f : A -> result E B) (l : list A) : result E (list B) :=
  match l with
  | [] => Ok []
  | x :: l' => res_bind (f x) (fun y => res_map (cons y) (res_traverse f l'))
  end.

Lemma res_traverse_Ok {E A B} (f : A -> result E B) l out :
  res_traverse f l = Ok out <-> Forall2 (fun x y => f x = Ok y) l out.
Proof.
  revert out. induction l as [|x l IH]; intros out; simpl.
  - split; [by intros [= <-] | inversion 1; done].
  - split.
    + unfold res_bind, res_map. intros H. split_match_in H.
      constructor; [done|]. by apply IH.
    + inversion 1 as [|? y ? out' Hx Hl]; subst. rewrite Hx. simpl.
      apply IH in Hl. by rewrite Hl.
Qed.

Lemma res_traverse_Err {E A B} (f : A -> result E B) l e :
  res_traverse f l = Err e ->
  exists pre x post, l = pre ++ x :: post /\ f x = Err e /\
    Forall (fun y => exists b, f y = Ok b) pre.
Proof.
  induction l as [|x l IH]; simpl; [done|].
  unfold res_bind, res_map. intros H. split_match_in H.
  - destruct IH as (pre & y & post & -> & Hy & Hpre); [done|].
    exists (x :: pre), y, post. split_and!; [done|done|]. constructor; eauto.
  - by exists [], x, l.
Qed.

(** ** Generic list and map lemmas *)

Lemma Forall2_elem_of_r {A B} (P : A -> B -> Prop) l k y :
  Forall2 P l k -> y ∈ k -> exists x, x ∈ l /\ P x y.
Proof.
  induction 1 as [|x y' l k HP _ IH]; intros Hy; [by apply elem_of_nil in Hy|].
  apply elem_of_cons in Hy as [->|Hy].
  - exists x. split; [constructor|done].
  - destruct (IH Hy) as (x' & ? & ?). exists x'. split; [by constructor|done].
Qed.

Lemma Forall2_elem_of_l {A B} (P : A -> B -> Prop) l k x :
  Forall2 P l k -> x ∈ l -> exists y, y ∈ k /\ P x y.
Proof.
  intros Hf Hx. apply list_elem_of_lookup_1 in Hx as [i Hi].
  destruct (Forall2_lookup_l _ _ _ _ _ Hf Hi) as (y & Hy & HP). exists y.
  split; [by eapply list_elem_of_lookup_2|done].
Qed.

Lemma existsb_elem_of {A} (f : A -> bool) l :
  existsb f l = true <-> exists x, x ∈ l /\ f x = true.
Proof.
  rewrite existsb_exists. split; intros (x & Hx & Hf); exists x;
    (split; [|done]); by apply list_elem_of_In.
Qed.

(** Check a decidable fact on every integer of an interval by evaluation. *)
Lemma bounded_forallb (f : Z -> bool) lo n x :
  forallb f (seqZ lo n) = true -> (lo <= x < lo + n)%Z -> f x = true.
Proof.
  rewrite forallb_forall. intros H Hx. apply H, list_elem_of_In, elem_of_seqZ. lia.
Qed.

(** [fold_left] with an invariant that knows which elements were consumed. *)
Lemma fold_left_ind {A B} (f : A -> B -> A) (P : list B -> A -> Prop) l a :
  P [] a ->
  (forall pre x acc, P pre acc -> (exists post, l = pre ++ x :: post) -> P (pre ++ [x]) (f acc x)) ->
  P l (fold_left f l a).
Proof.
  intros H0 Hstep.
  enough (Hgen : forall post pre acc, l = pre ++ post -> P pre acc ->
            P l (fold_left f post acc)) by (by apply (Hgen l [] a)).
  induction post as [|x post IH]; intros pre acc Hl HP; simpl.
  - by rewrite Hl, app_nil_r.
  - apply (IH (pre ++ [x])).
    + by rewrite <- app_assoc.
    + apply Hstep; [done|]. by exists post.
Qed.
