(* ===== verification/Effects.v ===== *)
(** * Effects: Go code that calls the outside world

    Reconcilers and stores of the program are written against interfaces the
    repository does not implement: the Kubernetes API server, BPF maps of the
    kernel, the clock.  Code that uses one is modelled as a [prog]: a finite
    tree of calls, each call an event of the interface carrying the type of
    its answer.  What an answer may be is not part of the model of the code.
    It is the parameter [srv] of [wp] and [exec]: a relation that says which
    answers an event may get in a state of the outside world, and which state
    that leaves.  Every theorem about an effectful operation quantifies over
    [srv] and assumes only the documented behaviour of the interface, stated
    as a type class next to the events.

    A [prog] is an inductive tree, so every operation terminates; the loops of
    the code are structural recursions over lists or bounded retry counters. *)

From stdpp Require Import base tactics list.
From S2P Require Import Prelude.

Inductive prog (E : Type -> Type) (A : Type) : Type :=
| Ret (a : A)
| Vis {R : Type} (e : E R) (k : R -> prog E A).
Arguments Ret {E A} a.
Arguments Vis {E A R} e k.

Fixpoint bind {E A B} (p : prog E A) (f : A -> prog E B) : prog E B :=
  match p with
  | Ret a => f a
  | Vis e k => Vis e (fun r => bind (k r) f)
  end.

(** Perform one call and return its answer. *)
Definition call {E R} (e : E R) : prog E R := Vis e Ret.

Notation "x <- p ;; k" := (bind p (fun x => k))
  (at level 100, p at next level, right associativity) : go_scope.

Open Scope go_scope.

(** A call whose error the code returns at once. *)
Definition tryP {E X A B} (p : prog E (result X A)) (k : A -> prog E (result X B))
  : prog E (result X B) :=
  r <- p ;; match r with Ok a => k a | Err e => Ret (Err e) end.

Notation "x <-? p ;; k" := (tryP p (fun x => k))
  (at level 100, p at next level, right associativity) : go_scope.

(** [for _, x := range l] over a loop state. *)
Fixpoint forP {E S X} (l : list X) (s : S) (body : X -> S -> prog E S) : prog E S :=
  match l with
  | [] => Ret s
  | x :: l' => s' <- body x s ;; forP l' s' body
  end.

(** The same, when the body may return from the function with an error. *)
Fixpoint forTryP {E S X Er} (l : list X) (s : S) (body : X -> S -> prog E (result Er S))
  : prog E (result Er S) :=
  match l with
  | [] => Ret (Ok s)
  | x :: l' => s' <-? body x s ;; forTryP l' s' body
  end.

(** A server: the answers an event may get in a state, and the state after. *)
Definition server (E : Type -> Type) (S : Type) : Type :=
  forall R, E R -> S -> R -> S -> Prop.

Section Semantics.
Context {E : Type -> Type} {S : Type} (srv : server E S).

(** [exec s p a s']: some run of [p] from [s] returns [a] in state [s']. *)
Inductive exec {A} : S -> prog E A -> A -> S -> Prop :=
| exec_ret s a : exec s (Ret a) a s
| exec_vis s s1 s2 R (e : E R) (k : R -> prog E A) r a :
    srv R e s r s1 -> exec s1 (k r) a s2 -> exec s (Vis e k) a s2.

(** [wp p Q s]: every run of [p] from [s] ends in a state and with a result
    that satisfy [Q]. *)
Fixpoint wp {A} (p : prog E A) (Q : A -> S -> Prop) (s : S) : Prop :=
  match p with
  | Ret a => Q a s
  | Vis e k => forall r s', srv _ e s r s' -> wp (k r) Q s'
  end.

Lemma wp_bind {A B} (p : prog E A) (f : A -> prog E B) Q s :
  wp (bind p f) Q s <-> wp p (fun a s' => wp (f a) Q s') s.
Proof.
  revert s. induction p as [a|R e k IH]; intros s; simpl; [done|].
  split; intros H r s' Hs; apply IH; auto.
Qed.

Lemma wp_mono {A} (p : prog E A) (Q Q' : A -> S -> Prop) s :
  wp p Q s -> (forall a s', Q a s' -> Q' a s') -> wp p Q' s.
Proof.
  intros Hwp HQ. revert s Hwp.
  induction p as [a|R e k IH]; intros s; simpl; eauto.
Qed.

Lemma wp_and {A} (p : prog E A) (Q Q' : A -> S -> Prop) s :
  wp p Q s -> wp p Q' s -> wp p (fun a s' => Q a s' /\ Q' a s') s.
Proof. revert s. induction p as [a|R e k IH]; intros s; simpl; eauto. Qed.

Lemma wp_tryP {X A B} (p : prog E (result X A)) (k : A -> prog E (result X B)) Q s :
  wp p (fun r s' => match r with Ok a => wp (k a) Q s' | Err e => Q (Err e) s' end) s ->
  wp (tryP p k) Q s.
Proof.
  intros H. unfold tryP. apply wp_bind. eapply wp_mono; [exact H|].
  by intros [a|e] s'.
Qed.

(** A loop keeps an invariant that each iteration keeps. *)
Lemma wp_forP {St X} (l : list X) (st : St) body (I : St -> S -> Prop) s :
  I st s ->
  (forall x st' s', x ∈ l -> I st' s' -> wp (body x st') I s') ->
  wp (forP l st body) I s.
Proof.
  revert st s. induction l as [|x l IH]; intros st s HI Hb; simpl; [done|].
  apply wp_bind. eapply wp_mono; [apply Hb; [constructor|done]|].
  intros st' s' HI'. apply IH; [done|]. intros y st'' s'' Hy. apply Hb. by constructor.
Qed.

(** A loop invariant that knows which elements the loop has consumed. *)
Lemma wp_forP_prefix {St X} (l : list X) (st : St) body (I : list X -> St -> S -> Prop) s :
  I [] st s ->
  (forall pre x post st' s', l = pre ++ x :: post -> I pre st' s' ->
    wp (body x st') (I (pre ++ [x])) s') ->
  wp (forP l st body) (I l) s.
Proof.
  intros H0 Hb.
  enough (Hgen : forall post pre st' s', l = pre ++ post -> I pre st' s' ->
    wp (forP post st' body) (I l) s') by (by apply (Hgen l [])).
  induction post as [|x post IH]; intros pre st' s' Hl HI; simpl.
  { by rewrite Hl, app_nil_r. }
  apply wp_bind. eapply wp_mono; [by eapply Hb|]. intros st'' s'' HI'.
  apply (IH (pre ++ [x])); [|done]. by rewrite <- app_assoc.
Qed.

Lemma wp_forTryP {St X Er} (l : list X) (st : St)
  (body : X -> St -> prog E (result Er St)) (I : list X -> St -> S -> Prop)
  (Q : result Er St -> S -> Prop) s :
  I [] st s ->
  (forall pre x post st' s', l = pre ++ x :: post -> I pre st' s' ->
    wp (body x st') (fun r s'' => match r with
    | Ok st'' => I (pre ++ [x]) st'' s''
    | Err e => Q (Err e) s''
    end) s') ->
  (forall st' s', I l st' s' -> Q (Ok st') s') ->
  wp (forTryP l st body) Q s.
Proof.
  intros H0 Hb HQ.
  enough (Hgen : forall post pre st' s', l = pre ++ post -> I pre st' s' ->
    wp (forTryP post st' body) Q s') by (by apply (Hgen l [])).
  induction post as [|x post IH]; intros pre st' s' Hl HI; simpl.
  { rewrite app_nil_r in Hl. subst. by apply HQ. }
  apply wp_tryP. eapply wp_mono; [by eapply Hb|]. intros [st''|e] s'' HI'; [|done].
  apply (IH (pre ++ [x])); [|done]. by rewrite <- app_assoc.
Qed.

Lemma wp_exec {A} (p : prog E A) (Q : A -> S -> Prop) s a s' :
  wp p Q s -> exec s p a s' -> Q a s'.
Proof. intros Hwp Hex. revert Hwp. induction Hex; simpl; eauto. Qed.

Lemma wp_iff_exec {A} (p : prog E A) (Q : A -> S -> Prop) s :
  wp p Q s <-> forall a s', exec s p a s' -> Q a s'.
Proof.
  split; [intros; by eapply wp_exec|].
  revert s. induction p as [a|R e k IH]; intros s H; simpl.
  - apply H. constructor.
  - intros r s' Hs. apply IH. intros a s'' Hex. apply H. by econstructor.
Qed.

(** A server that always answers lets every operation finish. *)
Lemma exec_total {A} (p : prog E A) s :
  (forall R (e : E R) s, exists r s', srv R e s r s') -> exists a s', exec s p a s'.
Proof.
  intros Ht. revert s. induction p as [a|R e k IH]; intros s; [by repeat econstructor|].
  destruct (Ht R e s) as (r & s1 & Hs). destruct (IH r s1) as (a & s2 & Hex). by repeat econstructor.
Qed.

(** [passes s p s']: some run of [p] from [s] is in state [s'] before a
    call or at its end.  It is where a process that dies leaves the world. *)
Inductive passes {A} : S -> prog E A -> S -> Prop :=
| passes_here s p : passes s p s
| passes_later s s1 s2 R (e : E R) (k : R -> prog E A) r :
    srv R e s r s1 -> passes s1 (k r) s2 -> passes s (Vis e k) s2.

(** [wpi I p Q s]: as [wp], and [I] holds in every state the run passes. *)
Fixpoint wpi {A} (I : S -> Prop) (p : prog E A) (Q : A -> S -> Prop) (s : S) : Prop :=
  I s /\
  match p with
  | Ret a => Q a s
  | Vis e k => forall r s', srv _ e s r s' -> wpi I (k r) Q s'
  end.

Lemma wpi_now {A} I (p : prog E A) Q s : wpi I p Q s -> I s.
Proof. destruct p; simpl; tauto. Qed.

Lemma wpi_mono {A} I (p : prog E A) (Q Q' : A -> S -> Prop) s :
  wpi I p Q s -> (forall a s', I s' -> Q a s' -> Q' a s') -> wpi I p Q' s.
Proof.
  intros Hwp HQ. revert s Hwp.
  induction p as [a|R e k IH]; intros s [HI Hwp]; simpl; split; eauto.
Qed.

Lemma wpi_bind {A B} I (p : prog E A) (f : A -> prog E B) Q s :
  wpi I p (fun a s' => wpi I (f a) Q s') s -> wpi I (bind p f) Q s.
Proof.
  revert s. induction p as [a|R e k IH]; intros s; simpl; [by intros [_ H]|].
  intros [HI H]. split; eauto.
Qed.

Lemma wpi_tryP {X A B} I (p : prog E (result X A)) (k : A -> prog E (result X B)) Q s :
  wpi I p (fun r s' => match r with Ok a => wpi I (k a) Q s' | Err e => Q (Err e) s' end) s ->
  wpi I (tryP p k) Q s.
Proof.
  intros H. unfold tryP. apply wpi_bind. eapply wpi_mono; [exact H|].
  by intros [a|e] s' HI.
Qed.

(** Weaker invariants hold too. *)
Lemma wpi_impl {A} (I I' : S -> Prop) (p : prog E A) Q s :
  wpi I p Q s -> (forall s', I s' -> I' s') -> wpi I' p Q s.
Proof. intros Hwp HI. revert s Hwp. induction p as [a|R e k IH]; intros s [H1 H2]; simpl; split; eauto. Qed.

Lemma wpi_forP_prefix {St X} I (l : list X) (st : St) body (J : list X -> St -> S -> Prop) s :
  J [] st s -> (forall pre st' s', J pre st' s' -> I s') ->
  (forall pre x post st' s', l = pre ++ x :: post -> J pre st' s' ->
    wpi I (body x st') (J (pre ++ [x])) s') ->
  wpi I (forP l st body) (J l) s.
Proof.
  intros H0 HI Hb.
  enough (Hgen : forall post pre st' s', l = pre ++ post -> J pre st' s' ->
    wpi I (forP post st' body) (J l) s') by (by apply (Hgen l [])).
  induction post as [|x post IH]; intros pre st' s' Hl HJ; simpl.
  { rewrite app_nil_r in Hl. subst. eauto. }
  apply wpi_bind. eapply wpi_mono; [by eapply Hb|]. intros st'' s'' _ HJ'.
  apply (IH (pre ++ [x])); [|done]. by rewrite <- app_assoc.
Qed.

Lemma wpi_forTryP {St X Er} I (l : list X) (st : St) (body : X -> St -> prog E (result Er St))
  (J : list X -> St -> S -> Prop) (Q : result Er St -> S -> Prop) s :
  J [] st s -> (forall pre st' s', J pre st' s' -> I s') ->
  (forall pre x post st' s', l = pre ++ x :: post -> J pre st' s' ->
    wpi I (body x st') (fun r s'' => match r with
    | Ok st'' => J (pre ++ [x]) st'' s''
    | Err e => Q (Err e) s''
    end) s') ->
  (forall st' s', J l st' s' -> Q (Ok st') s') ->
  wpi I (forTryP l st body) Q s.
Proof.
  intros H0 HI Hb HQ.
  enough (Hgen : forall post pre st' s', l = pre ++ post -> J pre st' s' ->
    wpi I (forTryP post st' body) Q s') by (by apply (Hgen l [])).
  induction post as [|x post IH]; intros pre st' s' Hl HJ; simpl.
  { rewrite app_nil_r in Hl. subst. eauto. }
  apply wpi_tryP. eapply wpi_mono; [by eapply Hb|]. intros [st''|e] s'' _ HJ'; [|done].
  apply (IH (pre ++ [x])); [|done]. by rewrite <- app_assoc.
Qed.

Lemma wpi_wp {A} I (p : prog E A) Q s : wpi I p Q s -> wp p Q s.
Proof. revert s. induction p as [a|R e k IH]; intros s [_ H]; simpl; eauto. Qed.

Lemma wpi_exec {A} I (p : prog E A) (Q : A -> S -> Prop) s a s' :
  wpi I p Q s -> exec s p a s' -> I s' /\ Q a s'.
Proof.
  intros Hwp Hex. revert Hwp.
  induction Hex as [s a|s s1 s2 R e k r a Hs Hex IH]; intros [HI Hwp]; [done|]. apply IH. by apply Hwp.
Qed.

Lemma wpi_passes {A} I (p : prog E A) (Q : A -> S -> Prop) s s' :
  wpi I p Q s -> passes s p s' -> I s'.
Proof.
  intros Hwp Hex. revert Hwp. induction Hex as [s p|s s1 s2 R e k r Hs Hex IH]; intros Hwp.
  - by eapply wpi_now.
  - destruct Hwp as [_ Hwp]. eauto.
Qed.

Lemma exec_passes {A} (p : prog E A) s a s' : exec s p a s' -> passes s p s'.
Proof. induction 1; econstructor; eauto. Qed.

(** A state invariant: if every event keeps [I], every operation does. *)
Lemma wp_invariant {A} (p : prog E A) (I : S -> Prop) s :
  (forall R (e : E R) s r s', srv R e s r s' -> I s -> I s') ->
  I s -> wp p (fun _ s' => I s') s.
Proof. intros He. revert s. induction p as [a|R e k IH]; simpl; eauto. Qed.
End Semantics.

(** ** Deterministic servers

    A function from state and event to answer and state is a server; [run]
    evaluates an operation against it, which is what the witnesses do. *)

Definition handler (E : Type -> Type) (S : Type) : Type :=
  forall R, E R -> S -> R * S.

Definition server_of {E S} (h : handler E S) : server E S :=
  fun R e s r s' => h R e s = (r, s').

Fixpoint run {E S A} (h : handler E S) (p : prog E A) (s : S) : A * S :=
  match p with
  | Ret a => (a, s)
  | Vis e k => let '(r, s') := h _ e s in run h (k r) s'
  end.

Lemma run_exec {E S A} (h : handler E S) (p : prog E A) s :
  exec (server_of h) s p (run h p s).1 (run h p s).2.
Proof.
  revert s. induction p as [a|R e k IH]; intros s; simpl; [constructor|].
  destruct (h R e s) as [r s'] eqn:Hh. econstructor; [exact Hh|]. apply IH.
Qed.

Lemma wp_run {E S A} (h : handler E S) (p : prog E A) (Q : A -> S -> Prop) s :
  wp (server_of h) p Q s -> Q (run h p s).1 (run h p s).2.
Proof. intros H. eapply wp_exec; [exact H|]. apply run_exec. Qed.

(** A run against a server is a run against any server that allows more. *)
Lemma exec_mono {E S A} (srv srv' : server E S) (p : prog E A) s a s' :
  (forall R e s r s', srv R e s r s' -> srv' R e s r s') ->
  exec srv s p a s' -> exec srv' s p a s'.
Proof. intros Hsub. induction 1; econstructor; eauto. Qed.

(** What holds against a server holds against one that allows less. *)
Lemma wpi_server {E S A} (srv srv' : server E S) I (p : prog E A) Q s :
  (forall R e s r s', srv' R e s r s' -> srv R e s r s') -> wpi srv I p Q s -> wpi srv' I p Q s.
Proof.
  intros Hsub. revert s. induction p as [a|R e k IH]; intros s [HI Hw]; simpl; split; eauto.
Qed.

(** ** Histories

    [recorder] is the server that may give any answer and writes down every
    call with its answer.  What holds of all states [recorder] passes holds
    of the calls of the operation whatever the outside world does. *)

Inductive entry (E : Type -> Type) : Type :=
| Entry {R : Type} (e : E R) (r : R).
Arguments Entry {E R} e r.

Definition recorder {E} : server E (list (entry E)) :=
  fun R e h r h' => h' = h ++ [Entry e r].

Fixpoint replay {E S A} (hd : handler E S) (p : prog E A) (s : S) (h : list (entry E)) : list (entry E) :=
  match p with
  | Ret _ => h
  | Vis e k => let '(r, s') := hd _ e s in replay hd (k r) s' (h ++ [Entry e r])
  end.

Lemma replay_passes {E S A} (hd : handler E S) (p : prog E A) s h :
  passes recorder h p (replay hd p s h).
Proof.
  revert s h. induction p as [a|R e k IH]; intros s h; simpl; [constructor|].
  destruct (hd R e s) as [r s']. eapply passes_later; [reflexivity|]. apply IH.
Qed.

(** [only P p]: every call [p] may make satisfies [P]. *)
Fixpoint only {E A} (P : forall R, E R -> Prop) (p : prog E A) : Prop :=
  match p with
  | Ret _ => True
  | Vis e k => P _ e /\ forall r, only P (k r)
  end.

Lemma only_bind {E A B} P (p : prog E A) (f : A -> prog E B) :
  only P p -> (forall a, only P (f a)) -> only P (bind p f).
Proof.
  intros Hp Hf. induction p as [a|R e k IH]; simpl; [done|].
  destruct Hp as [He Hk]. split; [done|]. auto.
Qed.

Lemma only_forTryP {E S X Er} P (l : list X) (s : S) (body : X -> S -> prog E (result Er S)) :
  (forall x s', only P (body x s')) -> only P (forTryP l s body).
Proof.
  intros Hb. revert s. induction l as [|x l IH]; intros s; simpl; [done|].
  apply only_bind; [done|]. intros [s'|e]; [apply IH|done].
Qed.

Lemma only_forP {E S X} P (l : list X) (s : S) (body : X -> S -> prog E S) :
  (forall x s', only P (body x s')) -> only P (forP l s body).
Proof.
  intros Hb. revert s. induction l as [|x l IH]; intros s; simpl; [done|]. by apply only_bind.
Qed.

Lemma only_tryP {E X A B} P (p : prog E (result X A)) (k : A -> prog E (result X B)) :
  only P p -> (forall a, only P (k a)) -> only P (tryP p k).
Proof. intros Hp Hk. unfold tryP. apply only_bind; [done|]. by intros [a|e]. Qed.

Lemma only_impl {E A} (P P' : forall R, E R -> Prop) (p : prog E A) :
  (forall R e, P R e -> P' R e) -> only P p -> only P' p.
Proof. intros Hi. induction p as [a|R e k IH]; cbn; [done|]. intros [He Hk]. split; [by apply Hi|]. intros r. by apply IH. Qed.

(** A history that only grows by calls that satisfy [P]. *)
Definition grown {E} (P : forall R, E R -> Prop) (h h' : list (entry E)) : Prop :=
  exists new, h' = h ++ new /\
    forall x : entry E, x ∈ new -> match x with @Entry _ R e _ => P R e end.

Lemma wpi_only {E A} P (I : list (entry E) -> Prop) (p : prog E A) h :
  (forall h', grown P h h' -> I h') -> only P p -> wpi recorder I p (fun _ h' => grown P h h') h.
Proof.
  intros HI Hp.
  enough (Hgen : forall h1, grown P h h1 -> wpi recorder I p (fun _ h' => grown P h h') h1).
  { apply Hgen. exists []. rewrite app_nil_r. split; [done|]. intros x Hx. by apply elem_of_nil in Hx. }
  induction p as [a|R e k IH]; intros h1 Hg; (split; [by apply HI|]); [done|].
  intros r h2 ->. destruct Hp as [He Hk]. apply IH; [by apply Hk|].
  destruct Hg as (new & -> & Hnew). exists (new ++ [Entry e r]). rewrite app_assoc. split; [done|].
  intros x Hx. apply elem_of_app in Hx as [Hx|Hx]; [by apply Hnew|].
  by apply list_elem_of_singleton in Hx as ->.
Qed.

(** ** Programs of one interface as programs of a larger one *)

Fixpoint embed {E E' A} (f : forall R, E R -> E' R) (p : prog E A) : prog E' A :=
  match p with
  | Ret a => Ret a
  | Vis e k => Vis (f _ e) (fun r => embed f (k r))
  end.

(** When the larger server acts on a part of its state. *)
Lemma wp_embed {E E' S S' A} (srv : server E S) (srv' : server E' S') (f : forall R, E R -> E' R)
  (get : S' -> S) (put : S' -> S -> S') (p : prog E A) Q s :
  (forall s, put s (get s) = s) -> (forall s x y, put (put s x) y = put s y) -> (forall s x, get (put s x) = x) ->
  (forall R (e : E R) s r s', srv' R (f R e) s r s' -> exists x, srv R e (get s) r x /\ s' = put s x) ->
  wp srv p (fun a x => Q a (put s x)) (get s) -> wp srv' (embed f p) Q s.
Proof.
  intros Hpg Hpp Hgp Hstep. revert s. induction p as [a|R e k IH]; intros s Hp; cbn in *; [by rewrite Hpg in Hp|].
  intros r s' Hs. destruct (Hstep R e s r s' Hs) as (x & Hx & ->). apply IH. rewrite Hgp.
  eapply wp_mono; [by apply Hp|]. intros a y Hq. by rewrite Hpp.
Qed.

(** ** Results under some answers *)

(** [possible p a]: [p] returns [a] for some answers to its calls. *)
Fixpoint possible {E A} (p : prog E A) (a : A) : Prop :=
  match p with
  | Ret b => a = b
  | Vis e k => exists r, possible (k r) a
  end.

Lemma possible_bind {E A B} (p : prog E A) (f : A -> prog E B) b :
  possible (bind p f) b <-> exists a, possible p a /\ possible (f a) b.
Proof.
  induction p as [a|R e k IH]; simpl.
  - split; [intros ?; by exists a|]. by intros (? & -> & ?).
  - split.
    + intros (r & (a & ? & ?)%IH). by exists a; split; [exists r|].
    + intros (a & (r & Hr) & Hb). exists r. apply IH. by exists a.
Qed.

(** An invariant the calls keep holds in every state a run passes. *)
Lemma wpi_of_wp {E S A} (srv : server E S) P (I : S -> Prop) (p : prog E A) Q s :
  only P p -> (forall R (e : E R) s r s', P R e -> srv R e s r s' -> I s -> I s') -> I s -> wp srv p Q s -> wpi srv I p Q s.
Proof.
  intros Hp Hstep. revert s. induction p as [a|R e k IH]; intros s HI Hw; (split; [done|]); [done|].
  destruct Hp as [He Hk]. intros r s' Hs. apply IH; [apply Hk|by eapply Hstep|by apply Hw].
Qed.

(** A program whose calls all keep [I] and step by [R0], with what it may
    return. *)
Lemma wpi_possible {E S A} (srv : server E S) P (I : S -> Prop) (R0 : S -> S -> Prop) (p : prog E A) s :
  only P p -> Transitive R0 -> R0 s s ->
  (forall R (e : E R) s r s', P R e -> srv R e s r s' -> R0 s s') ->
  (forall s', R0 s s' -> I s') ->
  wpi srv I p (fun a s' => possible p a /\ R0 s s') s.
Proof.
  intros Hp Ht Hr Hstep HI.
  enough (Hgen : forall q s1, only P q -> R0 s s1 -> wpi srv I q (fun a s' => possible q a /\ R0 s s') s1)
    by (by apply Hgen).
  intros q. induction q as [a|R e k IH]; intros s1 Hq H1; (split; [by apply HI|]); [done|].
  intros r s2 Hs. destruct Hq as [He Hk]. eapply wpi_mono; [apply IH; [apply Hk|]|].
  - transitivity s1; [done|]. by eapply Hstep.
  - intros a s3 _ [Hpos ?]. split; [by exists r|done].
Qed.

(** [answered h p a]: [p] returns [a] when its calls are answered as they are
    on the record [h]. *)
Fixpoint answered {E A} (h : list (entry E)) (p : prog E A) (a : A) : Prop :=
  match p with
  | Ret b => a = b
  | Vis e k => exists r, Entry e r ∈ h /\ answered h (k r) a
  end.

Lemma answered_mono {E A} (h h' : list (entry E)) (p : prog E A) a : h ⊆ h' -> answered h p a -> answered h' p a.
Proof.
  intros Hh. induction p as [b|R e k IH]; simpl; [done|]. intros (r & Hr & Ha). exists r. split; [by apply Hh|by apply IH].
Qed.

Lemma answered_possible {E A} (h : list (entry E)) (p : prog E A) a : answered h p a -> possible p a.
Proof. induction p as [b|R e k IH]; simpl; [done|]. intros (r & _ & Ha). exists r. by apply IH. Qed.

Lemma answered_bind {E A B} (h : list (entry E)) (p : prog E A) (f : A -> prog E B) b :
  answered h (bind p f) b <-> exists a, answered h p a /\ answered h (f a) b.
Proof.
  induction p as [a|R e k IH]; simpl.
  - split; [intros ?; by exists a|]. by intros (? & -> & ?).
  - split.
    + intros (r & Hin & (a & ? & ?)%IH). by exists a; split; [exists r|].
    + intros (a & (r & Hin & Hr) & Hb). exists r. split; [done|]. apply IH. by exists a.
Qed.

Lemma answered_tryP {E X A B} (h : list (entry E)) (p : prog E (result X A)) (k : A -> prog E (result X B)) b :
  answered h (tryP p k) (Ok b) <-> exists a, answered h p (Ok a) /\ answered h (k a) (Ok b).
Proof.
  unfold tryP. rewrite answered_bind. split.
  - intros ([a|e] & Hp & Hk); [by exists a|]. by cbn in Hk.
  - intros (a & Hp & Hk). by exists (Ok a).
Qed.

(** On a server that keeps a record of the calls, a program returns what the
    record says. *)
Lemma wpi_answered {E S A} (srv : server E S) P (I : S -> Prop) (R0 : S -> S -> Prop)
    (log : S -> list (entry E)) (p : prog E A) s :
  only P p -> Reflexive R0 -> Transitive R0 ->
  (forall R (e : E R) s r s', P R e -> srv R e s r s' -> R0 s s' /\ Entry e r ∈ log s') ->
  (forall s s', R0 s s' -> log s ⊆ log s') -> (forall s', R0 s s' -> I s') ->
  wpi srv I p (fun a s' => answered (log s') p a /\ R0 s s') s.
Proof.
  intros Hp Hr Ht Hstep Hlog. revert s. induction p as [a|R e k IH]; intros s HI; (split; [by apply HI|]); [done|].
  intros r s1 Hs. destruct Hp as [He Hk]. destruct (Hstep _ _ _ _ _ He Hs) as [H1 Hin].
  eapply wpi_mono; [apply IH; [apply Hk|]|].
  - intros s' ?. apply HI. by transitivity s1.
  - intros a s2 _ [Ha H2]. split; [exists r; split; [by eapply Hlog|done]|by transitivity s1].
Qed.

Lemma answered_forTryP {E S X Er} (h : list (entry E)) (J : S -> Prop) (l : list X) (s s' : S)
    (body : X -> S -> prog E (result Er S)) :
  J s -> (forall x s1 s2, x ∈ l -> J s1 -> answered h (body x s1) (Ok s2) -> J s2) ->
  answered h (forTryP l s body) (Ok s') -> J s'.
Proof.
  intros Hs Hb. revert s Hs. induction l as [|x l IH]; intros s Hs; simpl; [by intros [= ->]|].
  intros (s1 & H1 & H2)%answered_tryP. apply (IH (fun y s2 s3 Hy => Hb y s2 s3 (list_elem_of_further _ _ _ Hy)) s1); [|done].
  eapply Hb; [by left|done|done].
Qed.

Lemma only_bind_possible {E A B} P (p : prog E A) (f : A -> prog E B) :
  only P p -> (forall a, possible p a -> only P (f a)) -> only P (bind p f).
Proof.
  induction p as [a|R e k IH]; simpl; [auto|]. intros [He Hk] Hf. split; [done|].
  intros r. apply IH; [apply Hk|]. intros a Ha. apply Hf. by exists r.
Qed.

(** Every call on the record of a run satisfies [P]. *)
Lemma only_recorded {E A} P (p : prog E A) h R (e : E R) r :
  only P p -> passes recorder [] p h -> Entry e r ∈ h -> P R e.
Proof.
  intros Hp Hh He.
  assert (Hg : grown P [] h) by (eapply wpi_passes; [by apply (wpi_only P (fun h' => grown P [] h'))|exact Hh]).
  destruct Hg as (new & -> & Hnew). apply (Hnew (Entry e r)). by rewrite app_nil_l in He.
Qed.

(** *** Records that account for what they hold

    [P h x] says of an entry [x] that the rest of the record [h] justifies
    it. *)
Section Accounts.
Context {E : Type -> Type} (P : list (entry E) -> entry E -> Prop).
Hypothesis P_mono : forall h h' x, h ⊆ h' -> P h x -> P h' x.

Definition accounts (h : list (entry E)) : Prop := forall x, x ∈ h -> P h x.

Lemma accounts_snoc h R (e : E R) r : accounts h -> P (h ++ [Entry e r]) (Entry e r) -> accounts (h ++ [Entry e r]).
Proof.
  intros Hh He x [Hx|Hx]%elem_of_app; [eapply P_mono; [|by apply Hh]; intros y Hy; apply elem_of_app; by left|].
  by apply list_elem_of_singleton in Hx as ->.
Qed.

(** The rest of a run, once the record justifies every call it may make. *)
Lemma wpi_accounts {A} (p : prog E A) h :
  accounts h -> only (fun R e => forall r h', h ⊆ h' -> P h' (Entry e r)) p -> wpi recorder accounts p (fun _ _ => True) h.
Proof.
  intros Hh Hp. eapply wpi_mono; [apply (wpi_only (fun R e => forall r h', h ⊆ h' -> P h' (Entry e r))); [|done]|done].
  intros h' (new & -> & Hnew) x [Hx|Hx]%elem_of_app; [eapply P_mono; [|by apply Hh]; intros y Hy; apply elem_of_app; by left|].
  specialize (Hnew x Hx). destruct x as [R e r]. apply Hnew. intros y Hy. apply elem_of_app. by left.
Qed.
(** A run whose calls need no account, with what it returns. *)
Lemma wpi_accounted {A} (p : prog E A) h :
  accounts h -> only (fun R e => forall h r, P h (Entry e r)) p ->
  wpi recorder accounts p (fun a h' => answered h' p a /\ h ⊆ h') h.
Proof.
  intros Hh Hp. eapply wpi_mono.
  - apply (wpi_answered recorder (fun R e => forall h r, P h (Entry e r)) accounts
      (fun h h' => h ⊆ h' /\ (accounts h -> accounts h')) (fun h => h)); [done|by intros ?|..].
    + intros h1 h2 h3 [? ?] [? ?]. split; [by etrans|auto].
    + intros R e h1 r h2 He ->. split; [split|].
      * intros x Hx. apply elem_of_app. by left.
      * intros H1. apply accounts_snoc; [done|apply He].
      * apply elem_of_app. right. by constructor.
    + by intros h1 h2 [? _].
    + intros h' [_ Ha]. by apply Ha.
  - intros a h' _ (Ha & Hs & _). by split.
Qed.
End Accounts.

(** [ensures Q p]: whatever the answers, [p] returns a result in [Q]. *)
Fixpoint ensures {E A} (Q : A -> Prop) (p : prog E A) : Prop :=
  match p with
  | Ret a => Q a
  | Vis e k => forall r, ensures Q (k r)
  end.

Lemma ensures_possible {E A} (Q : A -> Prop) (p : prog E A) a : ensures Q p -> possible p a -> Q a.
Proof. induction p as [b|R e k IH]; simpl; [by intros ? ->|]. intros H (r & Hr). by eapply IH. Qed.

Lemma ensures_bind {E A B} (Q : B -> Prop) (p : prog E A) (f : A -> prog E B) :
  ensures (fun a => ensures Q (f a)) p -> ensures Q (bind p f).
Proof. induction p as [a|R e k IH]; simpl; auto. Qed.

Lemma ensures_mono {E A} (Q Q' : A -> Prop) (p : prog E A) :
  ensures Q p -> (forall a, Q a -> Q' a) -> ensures Q' p.
Proof. intros H HQ. induction p as [a|R e k IH]; simpl in *; auto. Qed.

Lemma ensures_tryP {E X A B} (Q : result X B -> Prop) (p : prog E (result X A)) (k : A -> prog E (result X B)) :
  ensures (fun r => match r with Ok a => ensures Q (k a) | Err e => Q (Err e) end) p -> ensures Q (tryP p k).
Proof. intros H. unfold tryP. apply ensures_bind. eapply ensures_mono; [exact H|]. by intros [a|e]. Qed.

Lemma ensures_forTryP {E S X Er} (J : S -> Prop) (l : list X) (s : S) (body : X -> S -> prog E (result Er S)) :
  J s -> (forall x s', J s' -> ensures (fun r => match r with Ok s'' => J s'' | Err _ => True end) (body x s')) ->
  ensures (fun r => match r with Ok s'' => J s'' | Err _ => True end) (forTryP l s body).
Proof.
  intros Hs Hb. revert s Hs. induction l as [|x l IH]; intros s Hs; simpl; [done|].
  apply ensures_tryP. eapply ensures_mono; [by apply Hb|]. intros [s'|e]; [apply IH|done].
Qed.
