(* ===== verification/Interleave.v ===== *)
(** * Interleave: operations that run at the same time

    The controllers of the program run side by side, and one controller runs
    an operation per object.  [sys_step] is that execution: a list of
    operations, each stopped before its next call, and one step performs one
    call of any of them, or is taken by somebody else ([env]), or starts a new
    operation, or loses one (its process dies).

    [rg] is the proof method: an operation keeps its promise when every one
    of its calls is a step the others may rely on, whatever steps the others
    took in between.  [interleave_invariant] composes the promises of any
    number of operations into an invariant of the whole system. *)

From stdpp Require Import base tactics list relations.
From S2P Require Import Prelude Effects.

Section Interleave.
Context {E : Type -> Type} {S : Type}.
(** One call, without interference. *)
Context (srv : server E S).
(** A step the operations may rely on, and have to keep to themselves. *)
Context (rely : S -> S -> Prop).

(** [rg p Q s]: started in [s], every call of [p] is a step of [rely], and
    [Q] holds of the result in the state it ends in and in every later one. *)
Fixpoint rg {A} (p : prog E A) (Q : A -> S -> Prop) (s : S) : Prop :=
  match p with
  | Ret a => forall s1, rtc rely s s1 -> Q a s1
  | Vis e k => forall s1, rtc rely s s1 -> forall r s2, srv _ e s1 r s2 ->
      rtc rely s1 s2 /\ rg (k r) Q s2
  end.

Lemma rg_stable {A} (p : prog E A) Q s s' : rg p Q s -> rtc rely s s' -> rg p Q s'.
Proof.
  destruct p as [a|R e k]; simpl; intros H Hs s1 Hs1; apply H; by transitivity s'.
Qed.

Lemma rg_mono {A} (p : prog E A) (Q Q' : A -> S -> Prop) s :
  rg p Q s -> (forall a s', rtc rely s s' -> Q a s' -> Q' a s') -> rg p Q' s.
Proof.
  revert s. induction p as [a|R e k IH]; intros s; simpl; [eauto|].
  intros H HQ s1 Hs1 r s2 Hs2. destruct (H s1 Hs1 r s2 Hs2) as [Hr Hk]. split; [done|].
  apply IH; [done|]. intros a s' Hs'. apply HQ. transitivity s1; [done|]. by transitivity s2.
Qed.

Lemma rg_bind {A B} (p : prog E A) (f : A -> prog E B) Q s :
  rg p (fun a s' => rg (f a) Q s') s -> rg (bind p f) Q s.
Proof.
  revert s. induction p as [a|R e k IH]; intros s; simpl.
  - intros H. apply H. done.
  - intros H s1 Hs1 r s2 Hs2. destruct (H s1 Hs1 r s2 Hs2). split; [done|]. by apply IH.
Qed.

Lemma rg_call {R} (e : E R) (Q : R -> S -> Prop) s :
  (forall s1 r s2, rtc rely s s1 -> srv R e s1 r s2 ->
    rtc rely s1 s2 /\ forall s3, rtc rely s2 s3 -> Q r s3) ->
  rg (call e) Q s.
Proof. intros H s1 Hs1 r s2 Hs2. destruct (H s1 r s2 Hs1 Hs2) as [? ?]. by split. Qed.

Lemma rg_tryP {X A B} (p : prog E (result X A)) (k : A -> prog E (result X B)) Q s :
  rg p (fun r s' => match r with Ok a => rg (k a) Q s' | Err e => Q (Err e) s' end) s ->
  (forall e s s', rtc rely s s' -> Q (Err e) s -> Q (Err e) s') ->
  rg (tryP p k) Q s.
Proof.
  intros H HQ. unfold tryP. apply rg_bind. eapply rg_mono; [exact H|].
  intros [a|e] s' _; [done|]. simpl. eauto.
Qed.

(** An operation whose calls change nothing. *)
Lemma rg_inert {A} (p : prog E A) s :
  only (fun R e => forall s r s', srv R e s r s' -> s' = s) p -> rg p (fun _ _ => True) s.
Proof.
  revert s. induction p as [a|R e k IH]; intros s; simpl; [done|].
  intros [He Hk] s1 _ r s2 Hs. apply He in Hs as ->. split; [done|]. by apply IH.
Qed.

(** ** The system *)

Context (env : S -> S -> Prop) (spawn : prog E unit -> Prop).

Inductive sys_step : list (prog E unit) * S -> list (prog E unit) * S -> Prop :=
| sys_call ts1 ts2 R (e : E R) (k : R -> prog E unit) s r s' :
    srv R e s r s' -> sys_step (ts1 ++ Vis e k :: ts2, s) (ts1 ++ k r :: ts2, s')
| sys_env ts s s' : env s s' -> sys_step (ts, s) (ts, s')
| sys_spawn ts p s : spawn p -> sys_step (ts, s) (p :: ts, s)
| sys_crash ts1 ts2 p s : sys_step (ts1 ++ p :: ts2, s) (ts1 ++ ts2, s).

(** An operation that runs without interference is a run of the system. *)
Lemma exec_sys (p : prog E unit) ts s a s' :
  exec srv s p a s' -> rtc sys_step (p :: ts, s) (Ret a :: ts, s').
Proof.
  induction 1 as [s a|s s1 s2 R e k r a Hs _ IH]; [done|].
  eapply rtc_l; [|exact IH]. by apply (sys_call []).
Qed.

(** The first [n] calls of an operation against a deterministic server: what
    is left of it, and the state. *)
Fixpoint advance (h : handler E S) (n : nat) (p : prog E unit) (s : S) : prog E unit * S :=
  match n, p with
  | Datatypes.S n', Vis e k => let '(r, s') := h _ e s in advance h n' (k r) s'
  | _, _ => (p, s)
  end.

Lemma advance_sys (h : handler E S) n p ts s :
  (forall R e s r s', h R e s = (r, s') -> srv R e s r s') ->
  rtc sys_step (p :: ts, s) ((advance h n p s).1 :: ts, (advance h n p s).2).
Proof.
  intros Hh. revert p s. induction n as [|n IH]; intros [a|R e k] s; simpl; try done.
  destruct (h R e s) as [r s'] eqn:Hr. eapply rtc_l; [|apply IH]. apply (sys_call []). by apply Hh.
Qed.

(** Start an operation, run it to its end and forget it. *)
Lemma run_sys (h : handler E S) p ts s :
  (forall R e s r s', h R e s = (r, s') -> srv R e s r s') -> spawn p ->
  rtc sys_step (ts, s) (ts, (run h p s).2).
Proof.
  intros Hh Hp. eapply rtc_l; [by apply sys_spawn|].
  eapply rtc_r; [|apply (sys_crash [])]. eapply exec_sys.
  eapply exec_mono; [|apply run_exec]. intros R e s1 r s2 Hr. by apply Hh.
Qed.

Context (Inv : S -> Prop).
Hypothesis env_rely : forall s s', Inv s -> env s s' -> rely s s'.
Hypothesis rely_inv : forall s s', rely s s' -> Inv s -> Inv s'.
Hypothesis spawn_rg : forall p s, spawn p -> Inv s -> rg p (fun _ _ => True) s.

Definition sys_ok (c : list (prog E unit) * S) : Prop :=
  Inv c.2 /\ Forall (fun p => rg p (fun _ _ => True) c.2) c.1.

Lemma rtc_rely_inv s s' : rtc rely s s' -> Inv s -> Inv s'.
Proof. induction 1; eauto. Qed.

Lemma sys_step_ok c c' : sys_step c c' -> sys_ok c -> sys_ok c'.
Proof.
  unfold sys_ok. intros Hstep [HI Ht].
  destruct Hstep as [ts1 ts2 R e k s r s' Hs|ts s s' Hs|ts p s Hp|ts1 ts2 p s]; simpl in *.
  - apply Forall_app in Ht as [Ht1 Ht2]. apply Forall_cons in Ht2 as [Hp Ht2].
    destruct (Hp s ltac:(done) r s' Hs) as [Hr Hk]. split; [by eapply rtc_rely_inv|].
    assert (Hst : forall p : prog E unit, rg p (fun _ _ => True) s -> rg p (fun _ _ => True) s')
      by (intros; by eapply rg_stable).
    apply Forall_app. split; [by eapply Forall_impl|]. apply Forall_cons. split; [exact Hk|by eapply Forall_impl].
  - split; [eauto|]. eapply Forall_impl; [exact Ht|]. cbn beta. intros p Hp. eapply rg_stable; [exact Hp|].
    apply rtc_once. eauto.
  - split; [done|]. constructor; [by apply spawn_rg|done].
  - split; [done|]. apply Forall_app in Ht as [? [_ ?]%Forall_cons]. by apply Forall_app.
Qed.

(** Whatever operations run, and however their calls interleave, the
    invariant holds in every state the system reaches. *)
Lemma interleave_invariant ts s s' : Inv s -> rtc sys_step ([], s) (ts, s') -> Inv s'.
Proof.
  intros HI Hr.
  assert (Hok : sys_ok (ts, s')); [|by destruct Hok].
  assert (H0 : sys_ok ([], s)) by (split; [done|constructor]).
  revert H0. induction Hr as [|c c' c'' Hs _ IH]; intros H0; [done|]. apply IH.
  by eapply sys_step_ok.
Qed.
End Interleave.
