(* ===== verification/Netip.v ===== *)
(** * Netip: the part of Go's [net/netip] and [strings] the program uses

    [Addr] has the three forms of [netip.Addr]: the zero (invalid) address, a
    4-byte address and a 16-byte address with an optional zone.  Addresses are
    compared the way [Addr.Compare] does (family first) and are equal in Go's
    [==] exactly when they are equal here.  Parsing and printing follow the
    standard library's functions character by character, because the
    allocator stores addresses as text and reads them back. *)

From stdpp Require Import base gmap strings list.
From Stdlib Require Import ZArith Lia Ascii.
From S2P Require Import Prelude.

Open Scope Z_scope.

(** ** Text *)

Definition code (c : ascii) : Z := Z.of_N (N_of_ascii c).
Definition chr (z : Z) : ascii := ascii_of_N (Z.to_N z).

Definition is_digit (c : ascii) : bool := (48 <=? code c) && (code c <=? 57).

(** [strings.TrimSpace] on ASCII text. *)
Definition is_go_space (c : ascii) : bool :=
  ((9 <=? code c) && (code c <=? 13)) || (code c =? 32).

Fixpoint trim_left (s : string) : string :=
  match s with
  | String c s' => if is_go_space c then trim_left s' else s
  | EmptyString => EmptyString
  end.

Fixpoint trim_right (s : string) : string :=
  match s with
  | EmptyString => EmptyString
  | String c s' =>
      match trim_right s' with
      | EmptyString => if is_go_space c then EmptyString else String c EmptyString
      | t => String c t
      end
  end.

Definition TrimSpace (s : string) : string := trim_right (trim_left s).

(** [strings.Split] for a one-character separator: always at least one part. *)
Fixpoint split_on (sep : ascii) (s : string) : list string :=
  match s with
  | EmptyString => [EmptyString]
  | String c s' =>
      if Ascii.eqb c sep then EmptyString :: split_on sep s'
      else match split_on sep s' with
           | [] => [String c EmptyString]
           | p :: ps => String c p :: ps
           end
  end.

(** Split at the last occurrence of [sep]; [None] when it does not occur. *)
Fixpoint cut_last (sep : ascii) (s : string) : option (string * string) :=
  match s with
  | EmptyString => None
  | String c s' =>
      match cut_last sep s' with
      | Some (a, b) => Some (String c a, b)
      | None => if Ascii.eqb c sep then Some (EmptyString, s') else None
      end
  end.

(** Split at the first occurrence of [sep]. *)
Fixpoint cut_first (sep : ascii) (s : string) : option (string * string) :=
  match s with
  | EmptyString => None
  | String c s' =>
      if Ascii.eqb c sep then Some (EmptyString, s')
      else match cut_first sep s' with
           | Some (a, b) => Some (String c a, b)
           | None => None
           end
  end.

(** ** Addresses *)

Inductive Addr : Type :=
| AddrZero
| Addr4 (v : Z)
| Addr6 (v : Z) (zone : string).

#[global] Instance Addr_eq_dec : EqDecision Addr.
Proof. solve_decision. Defined.

#[global] Instance Addr_countable : Countable Addr.
Proof.
  refine (inj_countable'
    (fun a => match a with
              | AddrZero => inl (inl tt)
              | Addr4 v => inl (inr v)
              | Addr6 v z => inr (v, z)
              end)
    (fun x => match x with
              | inl (inl _) => AddrZero
              | inl (inr v) => Addr4 v
              | inr (v, z) => Addr6 v z
              end) _).
  by intros [].
Defined.

(** The values an address holds fit its family. *)
Definition Addr_wf (a : Addr) : Prop :=
  match a with
  | AddrZero => True
  | Addr4 v => 0 <= v < 2 ^ 32
  | Addr6 v _ => 0 <= v < 2 ^ 128
  end.

Definition BitLen (a : Addr) : Z :=
  match a with AddrZero => 0 | Addr4 _ => 32 | Addr6 _ _ => 128 end.

Definition IsValid (a : Addr) : bool :=
  match a with AddrZero => false | _ => true end.

Definition Is4 (a : Addr) : bool := match a with Addr4 _ => true | _ => false end.
Definition Is6 (a : Addr) : bool := match a with Addr6 _ _ => true | _ => false end.

Definition Is4In6 (a : Addr) : bool :=
  match a with Addr6 v _ => Z.shiftr v 32 =? 65535 | _ => false end.

Definition Unmap (a : Addr) : Addr :=
  match a with
  | Addr6 v _ => if Is4In6 a then Addr4 (v mod 2 ^ 32) else a
  | _ => a
  end.

(** The integer an address holds, and its zone. *)
Definition addr_val (a : Addr) : Z :=
  match a with AddrZero => 0 | Addr4 v => v | Addr6 v _ => v end.
Definition addr_zone (a : Addr) : string :=
  match a with Addr6 _ z => z | _ => EmptyString end.

(** [Addr.Compare]: family, then value, then zone. *)
Definition Compare (a b : Addr) : comparison :=
  match Z.compare (BitLen a) (BitLen b) with
  | Eq =>
      match Z.compare (addr_val a) (addr_val b) with
      | Eq => String.compare (addr_zone a) (addr_zone b)
      | c => c
      end
  | c => c
  end.

(** [a.Compare(b) <= 0], [> 0], [< 0] as the code tests them. *)
Definition addr_le (a b : Addr) : bool :=
  match Compare a b with Gt => false | _ => true end.
Definition addr_gt (a b : Addr) : bool :=
  match Compare a b with Gt => true | _ => false end.
Definition addr_lt (a b : Addr) : bool :=
  match Compare a b with Lt => true | _ => false end.

(** [Addr.Next] and [Addr.Prev]: the zero address past either end. *)
Definition Next (a : Addr) : Addr :=
  match a with
  | AddrZero => AddrZero
  | Addr4 v => if v =? 2 ^ 32 - 1 then AddrZero else Addr4 (v + 1)
  | Addr6 v z => if v =? 2 ^ 128 - 1 then AddrZero else Addr6 (v + 1) z
  end.

Definition Prev (a : Addr) : Addr :=
  match a with
  | AddrZero => AddrZero
  | Addr4 v => if v =? 0 then AddrZero else Addr4 (v - 1)
  | Addr6 v z => if v =? 0 then AddrZero else Addr6 (v - 1) z
  end.

(** ** Prefixes *)

(** [bits] is -1 in an invalid prefix, as [Prefix.Bits] reports it. *)
Record Prefix := MkPrefix { pfx_addr : Addr; pfx_bits : Z }.

#[global] Instance Prefix_eq_dec : EqDecision Prefix.
Proof. solve_decision. Defined.

Definition without_zone (a : Addr) : Addr :=
  match a with Addr6 v _ => Addr6 v EmptyString | _ => a end.

Definition PrefixFrom (a : Addr) (bits : Z) : Prefix :=
  MkPrefix (without_zone a)
    (if IsValid a && (0 <=? bits) && (bits <=? BitLen a) then bits else -1).

(** Clear the bits below the prefix length. *)
Definition mask_val (width bits v : Z) : Z :=
  Z.shiftl (Z.shiftr v (width - bits)) (width - bits).

Definition Masked (p : Prefix) : Prefix :=
  match pfx_addr p with
  | AddrZero => MkPrefix AddrZero (-1)
  | Addr4 v =>
      if (0 <=? pfx_bits p) && (pfx_bits p <=? 32)
      then MkPrefix (Addr4 (mask_val 32 (pfx_bits p) v)) (pfx_bits p)
      else MkPrefix AddrZero (-1)
  | Addr6 v z =>
      if (0 <=? pfx_bits p) && (pfx_bits p <=? 128)
      then MkPrefix (Addr6 (mask_val 128 (pfx_bits p) v) EmptyString) (pfx_bits p)
      else MkPrefix AddrZero (-1)
  end.

Definition Contains (p : Prefix) (a : Addr) : bool :=
  (0 <=? pfx_bits p) && bool_decide (addr_zone a = EmptyString) &&
  (BitLen (pfx_addr p) =? BitLen a) && IsValid a &&
  (mask_val (BitLen a) (pfx_bits p) (addr_val a) =?
   mask_val (BitLen a) (pfx_bits p) (addr_val (pfx_addr p))).

(** A prefix as [ParsePrefix] and [PrefixFrom] build it. *)
Definition Prefix_wf (p : Prefix) : Prop :=
  Addr_wf (pfx_addr p) /\ IsValid (pfx_addr p) = true /\
  addr_zone (pfx_addr p) = EmptyString /\
  0 <= pfx_bits p <= BitLen (pfx_addr p).

(** ** Bytes *)

(** Big- and little-endian readings of a byte slice ([encoding/binary]). *)
Definition be_combine (bs : list Z) : Z := fold_left (fun acc b => acc * 256 + b) bs 0.
Definition le_combine (bs : list Z) : Z := be_combine (reverse bs).

(** [Addr.As4] of a 4-byte address. *)
Definition As4 (v : Z) : list Z :=
  [Z.shiftr v 24 mod 256; Z.shiftr v 16 mod 256; Z.shiftr v 8 mod 256; v mod 256].

(** ** Parsing *)

Inductive parse_error : Type :=
| ParseAddrError (input : string)
| ParsePrefixError (input : string).

#[global] Instance parse_error_eq_dec : EqDecision parse_error.
Proof. solve_decision. Defined.

(** [parseIPv4Fields]: [fields] are the octets read so far, [val] and [digLen]
    the octet being read. *)
Fixpoint parseIPv4Fields (s : string) (fields : list Z) (val : Z) (digLen : nat)
  : option (list Z) :=
  match s with
  | EmptyString =>
      if decide (length fields < 3)%nat then None else Some (fields ++ [val])
  | String c s' =>
      if is_digit c then
        if (digLen =? 1)%nat && (val =? 0) then None else
        let val' := val * 10 + (code c - 48) in
        if 255 <? val' then None else parseIPv4Fields s' fields val' (S digLen)
      else if Ascii.eqb c "." then
        if (digLen =? 0)%nat || String.eqb s' EmptyString then None else
        if decide (length fields = 3)%nat then None else
        parseIPv4Fields s' (fields ++ [val]) 0 0
      else None
  end.

Definition hex_val (c : ascii) : option Z :=
  if is_digit c then Some (code c - 48)
  else if (97 <=? code c) && (code c <=? 102) then Some (code c - 87)
  else if (65 <=? code c) && (code c <=? 70) then Some (code c - 55)
  else None.

(** The hex digits at the front of [s]: value, how many, and the rest.  More
    than four digits is an error. *)
Fixpoint hex_group (s : string) (acc : Z) (off : nat) : option (Z * nat * string) :=
  match s with
  | EmptyString => Some (acc, off, EmptyString)
  | String c s' =>
      match hex_val c with
      | None => Some (acc, off, s)
      | Some d => if (3 <? off)%nat then None else hex_group s' (acc * 16 + d) (S off)
      end
  end.

(** The loop of [parseIPv6]: [groups] are the 16-bit groups read so far and
    [ellipsis] the number of groups before the [::].  The result also says
    what is left of the text, which must be nothing. *)
Fixpoint parseIPv6_loop (fuel : nat) (s : string) (groups : list Z) (ellipsis : option nat)
  : option (list Z * option nat * string) :=
  match fuel with
  | O => Some (groups, ellipsis, s)
  | S fuel' =>
      match hex_group s 0 0 with
      | None => None
      | Some (acc, off, rest) =>
          if (off =? 0)%nat then None else
          match rest with
          | String "." _ =>
              if bool_decide (ellipsis = None) && negb (length groups =? 6)%nat then None else
              if (6 <? length groups)%nat then None else
              match parseIPv4Fields s [] 0 0 with
              | Some [a; b; c; d] =>
                  Some (groups ++ [a * 256 + b; c * 256 + d], ellipsis, EmptyString)
              | _ => None
              end
          | EmptyString => Some (groups ++ [acc], ellipsis, EmptyString)
          | String c s1 =>
              if negb (Ascii.eqb c ":") then None else
              match s1 with
              | EmptyString => None
              | String c1 s2 =>
                  if Ascii.eqb c1 ":" then
                    match ellipsis with
                    | Some _ => None
                    | None =>
                        let groups' := groups ++ [acc] in
                        if String.eqb s2 EmptyString
                        then Some (groups', Some (length groups'), EmptyString)
                        else parseIPv6_loop fuel' s2 groups' (Some (length groups'))
                    end
                  else parseIPv6_loop fuel' s1 (groups ++ [acc]) ellipsis
              end
          end
      end
  end.

Definition groups_val (gs : list Z) : Z := fold_left (fun acc g => acc * 65536 + g) gs 0.

(** Insert the zeros the [::] stands for. *)
Definition expand_groups (groups : list Z) (ellipsis : option nat) : option (list Z) :=
  if decide (length groups < 8)%nat then
    match ellipsis with
    | None => None
    | Some n => Some (take n groups ++ replicate (8 - length groups) 0 ++ drop n groups)
    end
  else match ellipsis with Some _ => None | None => Some groups end.

Definition parseIPv6_body (s zone : string) : option Addr :=
  let fin s ell :=
    match parseIPv6_loop 8 s [] ell with
    | Some (groups, ell', rest) =>
        if String.eqb rest EmptyString
        then (fun gs => Addr6 (groups_val gs) zone) <$> expand_groups groups ell'
        else None
    | None => None
    end in
  match s with
  | String ":" (String ":" s') =>
      if String.eqb s' EmptyString then Some (Addr6 0 zone) else fin s' (Some 0%nat)
  | _ => fin s None
  end.

Definition parseIPv6 (s : string) : option Addr :=
  match cut_first "%" s with
  | Some (body, zone) => if String.eqb zone EmptyString then None else parseIPv6_body body zone
  | None => parseIPv6_body s EmptyString
  end.

Definition parseIPv4 (s : string) : option Addr :=
  (fun fs => Addr4 (be_combine fs)) <$> parseIPv4Fields s [] 0 0.

(** The first of ['.'], [':'], ['%'] decides the family. *)
Fixpoint addr_family (s : string) : option ascii :=
  match s with
  | EmptyString => None
  | String c s' =>
      if Ascii.eqb c "." || Ascii.eqb c ":" || Ascii.eqb c "%" then Some c
      else addr_family s'
  end.

Definition ParseAddr (s : string) : result parse_error Addr :=
  match match addr_family s with
        | Some "."%char => parseIPv4 s
        | Some ":"%char => parseIPv6 s
        | _ => None
        end with
  | Some a => Ok a
  | None => Err (ParseAddrError s)
  end.

(** Decimal digits only, at least one. *)
Fixpoint parse_digits (s : string) (acc : Z) : option Z :=
  match s with
  | EmptyString => Some acc
  | String c s' => if is_digit c then parse_digits s' (acc * 10 + (code c - 48)) else None
  end.

(** The text after the slash: no sign and no leading zero. *)
Definition parse_bits (s : string) : option Z :=
  match s with
  | EmptyString => None
  | String c EmptyString => if is_digit c then Some (code c - 48) else None
  | String c _ => if (49 <=? code c) && (code c <=? 57) then parse_digits s 0 else None
  end.

Definition ParsePrefix (s : string) : result parse_error Prefix :=
  match cut_last "/" s with
  | None => Err (ParsePrefixError s)
  | Some (ip_text, bits_text) =>
      match ParseAddr ip_text with
      | Err e => Err e
      | Ok ip =>
          if Is6 ip && negb (bool_decide (addr_zone ip = EmptyString))
          then Err (ParsePrefixError s) else
          match parse_bits bits_text with
          | None => Err (ParsePrefixError s)
          | Some bits =>
              if bits <=? BitLen ip then Ok (PrefixFrom ip bits) else Err (ParsePrefixError s)
          end
      end
  end.

(** ** Printing *)

Definition digit (d : Z) : ascii := chr (48 + d).

Definition dec_byte (x : Z) : string :=
  if 100 <=? x then
    String (digit (x / 100)) (String (digit (x / 10 mod 10)) (String (digit (x mod 10)) ""))
  else if 10 <=? x then String (digit (x / 10)) (String (digit (x mod 10)) "")
  else String (digit x) "".

Definition hex_digit (d : Z) : ascii := if d <? 10 then chr (48 + d) else chr (87 + d).

(** [appendHex]: a 16-bit number without leading zeros. *)
Definition hex_group_str (x : Z) : string :=
  let d3 := x / 4096 in let d2 := x / 256 mod 16 in
  let d1 := x / 16 mod 16 in let d0 := x mod 16 in
  if 4096 <=? x then
    String (hex_digit d3) (String (hex_digit d2) (String (hex_digit d1) (String (hex_digit d0) "")))
  else if 256 <=? x then
    String (hex_digit d2) (String (hex_digit d1) (String (hex_digit d0) ""))
  else if 16 <=? x then String (hex_digit d1) (String (hex_digit d0) "")
  else String (hex_digit d0) "".

Definition v6_groups (v : Z) : list Z :=
  map (fun i => Z.shiftr v (112 - 16 * Z.of_nat i) mod 65536) (seq 0 8).

(** How many zero groups a list starts with. *)
Fixpoint zero_run (gs : list Z) : nat :=
  match gs with g :: gs' => if g =? 0 then S (zero_run gs') else 0%nat | [] => 0%nat end.

(** The first longest run of at least two zero groups: start and length. *)
Definition longest_zero_run (gs : list Z) : nat * nat :=
  fold_left (fun best i =>
      let l := zero_run (drop i gs) in
      if (2 <=? l)%nat && (best.2 <? l)%nat then (i, l) else best)
    (seq 0 (length gs)) (0%nat, 0%nat).

Definition join_groups (gs : list Z) : string := String.concat ":" (map hex_group_str gs).

Definition string6 (v : Z) : string :=
  let gs := v6_groups v in
  let '(start, len) := longest_zero_run gs in
  if (len =? 0)%nat then join_groups gs
  else (join_groups (take start gs) ++ "::" ++ join_groups (drop (start + len) gs))%string.

Definition string4 (v : Z) : string :=
  String.concat "." (map dec_byte (As4 v)).

Definition zone_suffix (z : string) : string :=
  if String.eqb z EmptyString then EmptyString else ("%" ++ z)%string.

Definition Addr_String (a : Addr) : string :=
  match a with
  | AddrZero => "invalid IP"
  | Addr4 v => string4 v
  | Addr6 v z =>
      if Is4In6 a then ("::ffff:" ++ string4 (v mod 2 ^ 32) ++ zone_suffix z)%string
      else (string6 v ++ zone_suffix z)%string
  end.

#[global] Arguments string4 : simpl never.
#[global] Arguments string6 : simpl never.
#[global] Arguments dec_byte : simpl never.
#[global] Arguments parseIPv6_loop : simpl never.
#[global] Arguments ParseAddr : simpl never.
#[global] Arguments ParsePrefix : simpl never.

(** Spot checks of the text formats against the documentation of the standard
    library. *)
Example parse_v4_ok : ParseAddr "192.0.2.5" = Ok (Addr4 3221225989).
Proof. vm_compute. reflexivity. Qed.
Example parse_v4_leading_zero : ParseAddr "192.0.02.5" = Err (ParseAddrError "192.0.02.5").
Proof. vm_compute. reflexivity. Qed.
Example parse_v6_ok : ParseAddr "2001:db8::1" = Ok (Addr6 (0x20010db8 * 2 ^ 96 + 1) "").
Proof. vm_compute. reflexivity. Qed.
Example parse_v6_embedded : ParseAddr "::ffff:1.2.3.4" = Ok (Addr6 0xffff01020304 "").
Proof. vm_compute. reflexivity. Qed.
Example print_v6 : Addr_String (Addr6 (0x20010db8 * 2 ^ 96 + 1) "eth0") = "2001:db8::1%eth0".
Proof. vm_compute. reflexivity. Qed.
Example print_mapped : Addr_String (Addr6 0xffff01020304 "") = "::ffff:1.2.3.4".
Proof. vm_compute. reflexivity. Qed.
Example prefix_ok : ParsePrefix "10.1.2.3/24" = Ok (MkPrefix (Addr4 167838211) 24).
Proof. vm_compute. reflexivity. Qed.
Example prefix_bad_bits : ParsePrefix "10.1.2.3/024" = Err (ParsePrefixError "10.1.2.3/024").
Proof. vm_compute. reflexivity. Qed.
