(* ===== verification/NetipFacts.v ===== *)
(** * NetipFacts: lemmas about [Netip] the components share

    The order of addresses of one family is the order of their values; masking
    rounds down to a multiple of the block size; parsing yields well-formed
    addresses; and a 4-byte address survives being printed and parsed. *)

From stdpp Require Import base gmap strings list.
From Stdlib Require Import ZArith Lia Ascii.
From S2P Require Import Prelude Netip.

Open Scope Z_scope.

(** ** Order *)

Lemma string_compare_refl s : String.compare s s = Eq.
Proof.
  induction s as [|c s IH]; simpl; [done|].
  unfold Ascii.compare. by rewrite N.compare_refl.
Qed.

Lemma Compare_refl a : Compare a a = Eq.
Proof. unfold Compare. by rewrite !Z.compare_refl, string_compare_refl. Qed.

Lemma addr_le_refl a : addr_le a a = true.
Proof. unfold addr_le. by rewrite Compare_refl. Qed.

Lemma Compare_4 a b : Compare (Addr4 a) (Addr4 b) = Z.compare a b.
Proof. unfold Compare; simpl. by destruct (Z.compare a b). Qed.

Lemma addr_le_4 a b : addr_le (Addr4 a) (Addr4 b) = (a <=? b).
Proof. unfold addr_le. rewrite Compare_4. unfold Z.leb. by destruct (Z.compare a b). Qed.

Lemma addr_gt_4 a b : addr_gt (Addr4 a) (Addr4 b) = (b <? a).
Proof.
  unfold addr_gt. rewrite Compare_4. unfold Z.ltb. rewrite Z.compare_antisym.
  by destruct (Z.compare b a).
Qed.

Lemma addr_gt_negb a b : addr_gt a b = negb (addr_le a b).
Proof. unfold addr_gt, addr_le. by destruct (Compare a b). Qed.

(** Addresses without a zone: one family, ordered by value. *)
Definition zoneless (a : Addr) : Prop := addr_zone a = EmptyString.

Lemma addr_le_spec a b :
  zoneless a -> zoneless b ->
  addr_le a b = true <->
  BitLen a < BitLen b \/ BitLen a = BitLen b /\ addr_val a <= addr_val b.
Proof.
  unfold zoneless, addr_le, Compare. intros Ha Hb. rewrite Ha, Hb, string_compare_refl.
  destruct (Z.compare_spec (BitLen a) (BitLen b)) as [?|?|?];
    [|split; [lia|done]|split; [done|lia]].
  destruct (Z.compare_spec (addr_val a) (addr_val b)); split; (lia || done).
Qed.

(** The bounds of a range fix the family of what lies between. *)
Lemma addr_between_family a b x :
  zoneless a -> zoneless b -> zoneless x -> BitLen a = BitLen b ->
  addr_le a x = true -> addr_le x b = true ->
  BitLen x = BitLen a /\ addr_val a <= addr_val x <= addr_val b.
Proof.
  intros Ha Hb Hx Hf H1 H2.
  apply addr_le_spec in H1; [|done|done]. apply addr_le_spec in H2; [|done|done]. lia.
Qed.

Lemma addr_eq_val a b :
  zoneless a -> zoneless b -> BitLen a = BitLen b -> addr_val a = addr_val b -> a = b.
Proof. unfold zoneless. destruct a, b; simpl; intros; subst; (done || lia). Qed.

Lemma Next_val a :
  IsValid (Next a) = true ->
  BitLen (Next a) = BitLen a /\ addr_zone (Next a) = addr_zone a /\
  addr_val (Next a) = addr_val a + 1 /\ IsValid a = true.
Proof. destruct a; simpl; [done| |]; case_match; simpl; by auto. Qed.

Lemma Next_lt a b :
  Addr_wf b -> zoneless a -> zoneless b -> IsValid a = true ->
  BitLen a = BitLen b -> addr_val a < addr_val b ->
  Addr_wf a -> IsValid (Next a) = true /\ Addr_wf (Next a).
Proof.
  destruct a, b; simpl; unfold zoneless; simpl; intros; try lia; try done;
    case_match; to_prop; simpl; (lia || (split; [done|lia])).
Qed.

(** ** Masking *)

Lemma mask_val_spec w b v :
  0 <= b <= w -> mask_val w b v = v - v mod 2 ^ (w - b).
Proof.
  intros Hb. unfold mask_val.
  rewrite Z.shiftl_mul_pow2, Z.shiftr_div_pow2 by lia.
  pose proof (Z.div_mod v (2 ^ (w - b)) ltac:(lia)). lia.
Qed.

Lemma mask_val_le w b v : 0 <= b <= w -> mask_val w b v <= v.
Proof.
  intros Hb. rewrite mask_val_spec by done.
  pose proof (Z.mod_pos_bound v (2 ^ (w - b)) ltac:(lia)). lia.
Qed.

Lemma mask_val_range w b v :
  0 <= b <= w -> 0 <= v < 2 ^ w ->
  0 <= mask_val w b v /\ mask_val w b v + 2 ^ (w - b) <= 2 ^ w.
Proof.
  intros Hb Hv. unfold mask_val.
  rewrite Z.shiftl_mul_pow2, Z.shiftr_div_pow2 by lia.
  pose proof (Z.pow_pos_nonneg 2 (w - b) ltac:(lia) ltac:(lia)) as Hp.
  assert (Hw : 2 ^ w = 2 ^ b * 2 ^ (w - b)).
  { rewrite <- Z.pow_add_r by lia. f_equal. lia. }
  assert (0 <= v / 2 ^ (w - b) < 2 ^ b) as Hq.
  { split; [apply Z.div_pos; lia|]. apply Z.div_lt_upper_bound; lia. }
  nia.
Qed.

Lemma mask_val_mod w b v : 0 <= b <= w -> mask_val w b v mod 2 ^ (w - b) = 0.
Proof.
  intros Hb. unfold mask_val. rewrite Z.shiftl_mul_pow2 by lia.
  apply Z.mod_mul. lia.
Qed.

Lemma mask_val_idemp w b v : 0 <= b <= w -> mask_val w b (mask_val w b v) = mask_val w b v.
Proof.
  intros Hb. rewrite (mask_val_spec w b (mask_val w b v)) by done.
  rewrite mask_val_mod by done. lia.
Qed.

(** Two values have the same masked form iff they lie in the same block. *)
Lemma mask_val_eq w b v x :
  0 <= b <= w ->
  mask_val w b x = mask_val w b v <-> mask_val w b v <= x < mask_val w b v + 2 ^ (w - b).
Proof.
  intros Hb. unfold mask_val.
  rewrite !Z.shiftl_mul_pow2, !Z.shiftr_div_pow2 by lia.
  set (n := 2 ^ (w - b)). assert (0 < n) by (apply Z.pow_pos_nonneg; lia).
  pose proof (Z.div_mod x n ltac:(lia)). pose proof (Z.mod_pos_bound x n ltac:(lia)).
  split; intros.
  - assert (x / n = v / n) by nia. nia.
  - assert (x / n = v / n) as ->; [|done]. symmetry. apply (Z.div_unique x n _ (x - n * (v / n))); nia.
Qed.

Lemma Masked_wf p :
  Prefix_wf p ->
  exists v, Masked p = MkPrefix v (pfx_bits p) /\ BitLen v = BitLen (pfx_addr p) /\
    zoneless v /\ IsValid v = true /\ Addr_wf v /\
    addr_val v = mask_val (BitLen (pfx_addr p)) (pfx_bits p) (addr_val (pfx_addr p)).
Proof.
  destruct p as [a b]. unfold Prefix_wf, Masked; simpl. intros (Hw & Hv & Hz & Hb).
  destruct a as [|v|v z]; simpl in *; [done| |].
  - replace ((0 <=? b) && (b <=? 32)) with true by (symmetry; apply andb_true_iff; lia).
    pose proof (mask_val_range 32 b v ltac:(lia) ltac:(lia)).
    pose proof (Z.pow_pos_nonneg 2 (32 - b) ltac:(lia) ltac:(lia)).
    eexists. split; [reflexivity|]. simpl. split_and!; try done; lia.
  - replace ((0 <=? b) && (b <=? 128)) with true by (symmetry; apply andb_true_iff; lia).
    pose proof (mask_val_range 128 b v ltac:(lia) ltac:(lia)).
    pose proof (Z.pow_pos_nonneg 2 (128 - b) ltac:(lia) ltac:(lia)).
    eexists. split; [reflexivity|]. simpl. split_and!; try done; lia.
Qed.

Lemma Masked_Prefix_wf p : Prefix_wf p -> Prefix_wf (Masked p).
Proof.
  intros Hp. destruct (Masked_wf p Hp) as (v & -> & Hl & Hz & Hv & Hw & _).
  unfold Prefix_wf; simpl. rewrite Hl. by destruct Hp as (_ & _ & _ & ?).
Qed.

Lemma Masked_idemp p : Prefix_wf p -> Masked (Masked p) = Masked p.
Proof.
  intros Hp. pose proof (Masked_Prefix_wf p Hp) as Hm.
  destruct (Masked_wf p Hp) as (v & Hpv & Hl & Hz & Hv & Hw & Hval).
  destruct (Masked_wf _ Hm) as (v' & Hpv' & Hl' & Hz' & _ & _ & Hval').
  rewrite Hpv', Hpv. simpl. f_equal. rewrite Hpv in *. simpl in *.
  apply addr_eq_val; [done..|]. rewrite Hval', Hval, Hl.
  destruct Hp as (_ & _ & _ & ?). by apply mask_val_idemp.
Qed.

(** ** Parsed addresses are well formed *)

Definition octet (x : Z) : Prop := 0 <= x <= 255.

Lemma is_digit_range c : is_digit c = true -> 0 <= code c - 48 <= 9.
Proof. unfold is_digit. intros H. to_prop. lia. Qed.

Lemma parseIPv4Fields_wf s fields val n out :
  parseIPv4Fields s fields val n = Some out ->
  Forall octet fields -> octet val -> (length fields <= 3)%nat ->
  Forall octet out /\ length out = 4%nat.
Proof.
  revert fields val n. induction s as [|c s IH]; intros fields val n H Hf Hv Hl; simpl in H.
  - case_decide; simplify_eq. split; [by apply Forall_app_2; [|constructor]|].
    rewrite length_app; simpl; lia.
  - destruct (is_digit c) eqn:Hc.
    + apply is_digit_range in Hc. case_match; [done|]. case_match eqn:Hle; [done|].
      to_prop. unfold octet in *. eapply IH; [done|done| |done]. unfold octet. lia.
    + case_match; [|done]. case_match; [done|]. case_decide; [done|].
      eapply IH; [done| | |].
      * by apply Forall_app_2; [|constructor].
      * unfold octet; lia.
      * rewrite length_app; simpl; lia.
Qed.

Lemma be_combine_4 a b c d : be_combine [a; b; c; d] = ((a * 256 + b) * 256 + c) * 256 + d.
Proof. unfold be_combine. simpl. lia. Qed.

Lemma parseIPv4_wf s a : parseIPv4 s = Some a -> Addr_wf a /\ IsValid a = true /\ Is4 a = true.
Proof.
  unfold parseIPv4. intros H. destruct (parseIPv4Fields s [] 0 0) as [fs|] eqn:Hp; [|done].
  simplify_eq/=. apply parseIPv4Fields_wf in Hp; [|constructor|unfold octet; lia|simpl; lia].
  destruct Hp as [Hf Hl]. destruct fs as [|x [|y [|z [|w [|]]]]]; try done.
  rewrite be_combine_4. repeat match goal with H : Forall _ (_ :: _) |- _ => inversion H; clear H end.
  subst. unfold octet in *. split; [|done]. lia.
Qed.

Definition group16 (x : Z) : Prop := 0 <= x < 65536.

Lemma hex_val_range c d : hex_val c = Some d -> 0 <= d < 16.
Proof.
  unfold hex_val. intros H. repeat case_match; simplify_eq; to_prop; [|lia|lia].
  match goal with H : is_digit _ = true |- _ => apply is_digit_range in H end. lia.
Qed.

Lemma hex_group_wf s acc off v n rest :
  hex_group s acc off = Some (v, n, rest) ->
  (off <= 4)%nat -> 0 <= acc < 16 ^ Z.of_nat off -> 0 <= v < 65536.
Proof.
  revert acc off. induction s as [|c s IH]; intros acc off H Ho Ha; simpl in H.
  - simplify_eq. destruct n as [|[|[|[|[|]]]]]; simpl in Ha; lia.
  - destruct (hex_val c) as [d|] eqn:Hd.
    + apply hex_val_range in Hd. case_match eqn:Hlt; [done|].
      apply Nat.ltb_ge in Hlt. eapply IH; [exact H|lia|].
      rewrite Nat2Z.inj_succ, Z.pow_succ_r by lia. lia.
    + simplify_eq. destruct n as [|[|[|[|[|]]]]]; simpl in Ha; lia.
Qed.

Lemma parseIPv6_loop_wf fuel s gs ell out ell' rest :
  parseIPv6_loop fuel s gs ell = Some (out, ell', rest) ->
  Forall group16 gs -> (length gs + fuel <= 8)%nat ->
  Forall group16 out /\ (length out <= 8)%nat.
Proof.
  revert s gs ell. induction fuel as [|fuel IH]; intros s gs ell H Hg Hl; unfold parseIPv6_loop in H; fold parseIPv6_loop in H.
  { simplify_eq. split; [done|lia]. }
  destruct (hex_group s 0 0) as [[[acc off] rest']|] eqn:Hh; [|done].
  assert (Hacc : group16 acc).
  { unfold group16. eapply hex_group_wf; [exact Hh|lia|simpl; lia]. }
  assert (Happ : Forall group16 (gs ++ [acc]) /\ (length (gs ++ [acc]) + fuel <= 8)%nat).
  { split; [apply Forall_app_2; [done|by constructor]|rewrite length_app; simpl; lia]. }
  destruct Happ as [Hga Hla].
  destruct (off =? 0)%nat; [done|].
  destruct rest' as [|c s1].
  { simplify_eq. split; [done|]. rewrite length_app in *; simpl in *; lia. }
  destruct (Ascii.ascii_dec c ".") as [->|Hdot].
  { case_match; [done|]. case_match eqn:H6; [done|]. apply Nat.ltb_ge in H6.
    destruct (parseIPv4Fields s [] 0 0) as [fs|] eqn:Hp; [|done].
    apply parseIPv4Fields_wf in Hp as [Hf4 Hl4]; [|constructor|unfold octet; lia|simpl; lia].
    destruct fs as [|a [|b [|c [|d [|]]]]]; try done. simplify_eq.
    repeat match goal with H : Forall octet (_ :: _) |- _ => inversion H; clear H end.
    subst. unfold octet in *. split.
    - apply Forall_app_2; [done|]. repeat constructor; unfold group16; lia.
    - rewrite length_app; simpl; lia. }
  assert (Hrest :
    (if negb (Ascii.eqb c ":") then None else
       match s1 with
       | EmptyString => None
       | String c1 s2 =>
           if Ascii.eqb c1 ":" then
             match ell with
             | Some _ => None
             | None =>
                 if String.eqb s2 EmptyString
                 then Some (gs ++ [acc], Some (length (gs ++ [acc])), EmptyString)
                 else parseIPv6_loop fuel s2 (gs ++ [acc]) (Some (length (gs ++ [acc])))
             end
           else parseIPv6_loop fuel s1 (gs ++ [acc]) ell
       end) = Some (out, ell', rest)).
  { clear -H Hdot. destruct c as [[] [] [] [] [] [] [] []]; done. }
  clear H. case_match; [done|]. destruct s1 as [|c1 s2]; [done|].
  case_match; [|by eapply IH]. destruct ell; [done|].
  case_match; [|by eapply IH]. simplify_eq. split; [done|]. lia.
Qed.

Lemma groups_val_range gs :
  Forall group16 gs -> 0 <= groups_val gs < 65536 ^ Z.of_nat (length gs).
Proof.
  unfold groups_val. induction gs as [|g gs IH] using rev_ind; intros H.
  - simpl. lia.
  - apply Forall_app in H as [Hgs Hg]. inversion Hg; subst. specialize (IH Hgs).
    rewrite fold_left_app. simpl. rewrite length_app, Nat2Z.inj_add. simpl.
    rewrite Z.pow_add_r by lia. unfold group16 in *. change (65536 ^ 1) with 65536. nia.
Qed.

Lemma expand_groups_wf gs ell out :
  expand_groups gs ell = Some out -> Forall group16 gs -> (length gs <= 8)%nat ->
  Forall group16 out /\ length out = 8%nat.
Proof.
  unfold expand_groups. intros H Hg Hl. case_decide.
  - destruct ell as [n|]; simplify_eq. split.
    + apply Forall_app_2; [by apply Forall_take|]. apply Forall_app_2; [|by apply Forall_drop].
      apply Forall_replicate. unfold group16; lia.
    + rewrite !length_app, length_take, length_drop, length_replicate. lia.
  - destruct ell; simplify_eq. split; [done|]. lia.
Qed.

Lemma parseIPv6_body_wf s z a :
  parseIPv6_body s z = Some a -> Addr_wf a /\ IsValid a = true /\ Is6 a = true.
Proof.
  assert (Hfin : forall s ell a,
    match parseIPv6_loop 8 s [] ell with
    | Some (groups, ell', rest) =>
        if String.eqb rest EmptyString
        then (fun gs => Addr6 (groups_val gs) z) <$> expand_groups groups ell'
        else None
    | None => None
    end = Some a -> Addr_wf a /\ IsValid a = true /\ Is6 a = true).
  { clear. intros s ell a H.
    destruct (parseIPv6_loop 8 s [] ell) as [[[gs ell'] rest]|] eqn:Hp; [|done].
    apply parseIPv6_loop_wf in Hp as [Hg Hl]; [|constructor|simpl; lia].
    case_match; [|done]. destruct (expand_groups gs ell') as [out|] eqn:He; [|done].
    injection H as <-.
    apply expand_groups_wf in He as [Ho Hlo]; [|done|done].
    apply groups_val_range in Ho. rewrite Hlo in Ho. split; [|done].
    replace (65536 ^ Z.of_nat 8) with (2 ^ 128) in Ho by reflexivity. exact Ho. }
  unfold parseIPv6_body. intros H.
  destruct s as [|c s]; [by eapply Hfin|].
  destruct (Ascii.ascii_dec c ":") as [->|Hc].
  2: { eapply Hfin. destruct c as [[] [] [] [] [] [] [] []]; done. }
  destruct s as [|c s]; [by eapply Hfin|].
  destruct (Ascii.ascii_dec c ":") as [->|Hc].
  2: { eapply Hfin. destruct c as [[] [] [] [] [] [] [] []]; done. }
  case_match; [simplify_eq; simpl; split; [lia|done]|by eapply Hfin].
Qed.

Lemma ParseAddr_wf s a : ParseAddr s = Ok a -> Addr_wf a /\ IsValid a = true.
Proof.
  unfold ParseAddr. intros H.
  destruct (addr_family s) as [c|]; [|done].
  destruct (Ascii.ascii_dec c ".") as [->|Hd].
  { destruct (parseIPv4 s) eqn:Hp; simplify_eq. by apply parseIPv4_wf in Hp as (? & ? & _). }
  destruct (Ascii.ascii_dec c ":") as [->|Hc].
  - destruct (parseIPv6 s) eqn:Hp; simplify_eq. unfold parseIPv6 in Hp.
    repeat case_match; simplify_eq; apply parseIPv6_body_wf in Hp as (? & ? & _); done.
  - destruct c as [[] [] [] [] [] [] [] []]; simpl in H; done.
Qed.

Lemma parse_digits_nonneg s acc v : parse_digits s acc = Some v -> 0 <= acc -> 0 <= v.
Proof.
  revert acc. induction s as [|c s IH]; intros acc H Ha; simpl in H; [by simplify_eq|].
  case_match eqn:Hd; [|done]. apply is_digit_range in Hd. eapply IH; [done|lia].
Qed.

Lemma parse_bits_nonneg s v : parse_bits s = Some v -> 0 <= v.
Proof.
  destruct s as [|c [|c' s]]; [done| |].
  - unfold parse_bits. intros H. case_match eqn:Hd; [|done].
    apply is_digit_range in Hd. simplify_eq. lia.
  - intros H. change (parse_bits (String c (String c' s))) with
      (if (49 <=? code c) && (code c <=? 57) then parse_digits (String c (String c' s)) 0
       else None) in H.
    case_match; [|done]. by eapply parse_digits_nonneg.
Qed.

Lemma ParsePrefix_wf s p : ParsePrefix s = Ok p -> Prefix_wf p.
Proof.
  unfold ParsePrefix. intros H.
  destruct (cut_last "/" s) as [[ip_text bits_text]|]; [|done].
  destruct (ParseAddr ip_text) as [ip|] eqn:Hip; [|done].
  apply ParseAddr_wf in Hip as [Hw Hv].
  case_match eqn:Hz; [done|]. destruct (parse_bits bits_text) as [bits|] eqn:Hb; [|done].
  apply parse_bits_nonneg in Hb. case_match eqn:Hle; [|done]. to_prop. simplify_eq.
  unfold Prefix_wf, PrefixFrom; simpl. rewrite Hv; simpl.
  replace (0 <=? bits) with true by lia. replace (bits <=? BitLen ip) with true by lia. simpl.
  destruct ip; simpl in *; split_and!; try done; lia.
Qed.

(** ** Printing and parsing a 4-byte address *)

Lemma parseIPv4Fields_dec b fields rest :
  octet b ->
  exists n, parseIPv4Fields (dec_byte b ++ rest)%string fields 0 0 =
            parseIPv4Fields rest fields b (S n).
Proof.
  intros Hb.
  assert (Hin : b ∈ seqZ 0 256) by (apply elem_of_seqZ; unfold octet in Hb; lia).
  clear Hb. revert b Hin. apply Forall_forall.
  vm_compute seqZ. repeat constructor; eexists; reflexivity.
Qed.

Lemma dec_byte_family b rest :
  octet b -> addr_family (dec_byte b ++ String "." rest)%string = Some "."%char.
Proof.
  intros Hb.
  assert (Hin : b ∈ seqZ 0 256) by (apply elem_of_seqZ; unfold octet in Hb; lia).
  clear Hb. revert b Hin. apply Forall_forall.
  vm_compute seqZ. repeat constructor; reflexivity.
Qed.

Lemma dec_byte_nonempty b rest : (dec_byte b ++ rest =? "")%string = false.
Proof. unfold dec_byte. repeat case_match; done. Qed.

Lemma As4_octets v : 0 <= v -> Forall octet (As4 v).
Proof.
  intros Hv. assert (Hm : forall x, octet (x mod 256)).
  { intros x. unfold octet. pose proof (Z.mod_pos_bound x 256 ltac:(lia)). lia. }
  unfold As4. repeat (apply Forall_cons_2; [apply Hm|]). apply Forall_nil_2.
Qed.

Lemma be_combine_As4 v : 0 <= v < 2 ^ 32 -> be_combine (As4 v) = v.
Proof.
  intros Hv. unfold As4. rewrite be_combine_4, !Z.shiftr_div_pow2 by lia.
  change (2 ^ 24) with (256 * (256 * 256)). change (2 ^ 16) with (256 * 256).
  change (2 ^ 8) with 256. change (2 ^ 32) with (256 * (256 * (256 * 256))) in Hv.
  rewrite <- !Zdiv.Zdiv_Zdiv by lia.
  pose proof (Z.div_mod v 256 ltac:(lia)). pose proof (Z.div_mod (v / 256) 256 ltac:(lia)).
  pose proof (Z.div_mod (v / 256 / 256) 256 ltac:(lia)).
  assert (v / 256 / 256 / 256 < 256).
  { rewrite !Zdiv.Zdiv_Zdiv by lia. apply Z.div_lt_upper_bound; lia. }
  assert (0 <= v / 256 / 256 / 256) by (repeat apply Z.div_pos; lia).
  rewrite (Z.mod_small (v / 256 / 256 / 256) 256) by lia. lia.
Qed.

Lemma string4_unfold v :
  string4 v = (dec_byte (Z.shiftr v 24 mod 256) ++ String "."
    (dec_byte (Z.shiftr v 16 mod 256) ++ String "."
      (dec_byte (Z.shiftr v 8 mod 256) ++ String "." (dec_byte (v mod 256) ++ ""))))%string.
Proof.
  assert (Hnil : forall s, (s ++ "")%string = s).
  { clear. induction s as [|c s IH]; [done|].
    change ((String c s ++ "")%string) with (String c (s ++ "")%string). by rewrite IH. }
  rewrite Hnil. reflexivity.
Qed.

(** A 4-byte address is read back from its text. *)
Lemma ParseAddr_String4 v :
  0 <= v < 2 ^ 32 -> ParseAddr (Addr_String (Addr4 v)) = Ok (Addr4 v).
Proof.
  intros Hv. simpl. pose proof (be_combine_As4 v Hv) as Hbe.
  pose proof (As4_octets v ltac:(lia)) as Ho. unfold As4 in Hbe, Ho.
  rewrite string4_unfold.
  generalize dependent (Z.shiftr v 24 mod 256). generalize dependent (Z.shiftr v 16 mod 256).
  generalize dependent (Z.shiftr v 8 mod 256). generalize dependent (v mod 256).
  intros d c b a Hbe Ho.
  repeat match goal with H : Forall octet (_ :: _) |- _ => inversion H; clear H end. subst.
  unfold ParseAddr. rewrite dec_byte_family by done. unfold parseIPv4.
  destruct (parseIPv4Fields_dec a [] (String "." (dec_byte b ++ String "." (dec_byte c ++
    String "." (dec_byte d ++ ""))))%string) as [n1 ->]; [done|].
  simpl. rewrite dec_byte_nonempty; simpl.
  destruct (parseIPv4Fields_dec b [a] (String "." (dec_byte c ++
    String "." (dec_byte d ++ "")))%string) as [n2 ->]; [done|].
  simpl. rewrite dec_byte_nonempty; simpl.
  destruct (parseIPv4Fields_dec c [a; b] (String "." (dec_byte d ++ ""))%string) as [n3 ->]; [done|].
  simpl. rewrite dec_byte_nonempty; simpl.
  destruct (parseIPv4Fields_dec d [a; b; c] "") as [n4 ->]; [done|].
  simpl. done.
Qed.

(** Different 4-byte addresses have different texts. *)
Lemma Addr_String4_inj v w :
  0 <= v < 2 ^ 32 -> 0 <= w < 2 ^ 32 ->
  Addr_String (Addr4 v) = Addr_String (Addr4 w) -> v = w.
Proof.
  intros Hv Hw H. pose proof (ParseAddr_String4 v Hv) as Hpv.
  rewrite H, ParseAddr_String4 in Hpv by done. by simplify_eq.
Qed.

(** ** Text predicates *)

Fixpoint str_forall (f : ascii -> bool) (s : string) : bool :=
  match s with EmptyString => true | String c s' => f c && str_forall f s' end.

Lemma str_forall_app f s t : str_forall f (s ++ t) = str_forall f s && str_forall f t.
Proof.
  induction s as [|c s IH]; [done|].
  change ((String c s ++ t)%string) with (String c (s ++ t)%string). simpl.
  by rewrite IH, andb_assoc.
Qed.

Lemma str_forall_impl (f g : ascii -> bool) s :
  (forall c, f c = true -> g c = true) -> str_forall f s = true -> str_forall g s = true.
Proof.
  intros Hfg. induction s as [|c s IH]; simpl; [done|]. intros H. to_prop.
  rewrite (Hfg c) by done. by rewrite IH.
Qed.

Lemma TrimSpace_id s : str_forall (fun c => negb (is_go_space c)) s = true -> TrimSpace s = s.
Proof.
  intros H. unfold TrimSpace.
  assert (Hl : trim_left s = s).
  { destruct s as [|c s]; simpl in *; [done|]. to_prop. case_match; [congruence|done]. }
  rewrite Hl. clear Hl. induction s as [|c s IH]; simpl in *; [done|]. to_prop.
  rewrite IH by done. destruct s; [|done]. case_match; [congruence|done].
Qed.

Lemma split_on_none sep s :
  str_forall (fun c => negb (Ascii.eqb c sep)) s = true -> split_on sep s = [s].
Proof.
  induction s as [|c s IH]; simpl; [done|]. intros H. to_prop.
  rewrite IH by done. case_match; [congruence|done].
Qed.

Lemma split_on_app sep s t :
  str_forall (fun c => negb (Ascii.eqb c sep)) s = true ->
  split_on sep (s ++ String sep t)%string = s :: split_on sep t.
Proof.
  induction s as [|c s IH]; intros H.
  - change (("" ++ String sep t)%string) with (String sep t). simpl.
    by rewrite Ascii.eqb_refl.
  - change ((String c s ++ String sep t)%string) with (String c (s ++ String sep t)%string).
    simpl in *. to_prop. rewrite IH by done. case_match; [congruence|done].
Qed.

(** The text of a 4-byte address: digits and dots. *)
Definition v4_char (c : ascii) : bool := is_digit c || Ascii.eqb c ".".

Lemma dec_byte_chars b : octet b -> str_forall v4_char (dec_byte b) = true.
Proof.
  intros Hb. apply (bounded_forallb (fun b => str_forall v4_char (dec_byte b)) 0 256).
  - vm_compute. reflexivity.
  - unfold octet in Hb. lia.
Qed.

Lemma string4_chars v : 0 <= v -> str_forall v4_char (string4 v) = true.
Proof.
  intros Hv. pose proof (As4_octets v Hv) as Ho. unfold As4 in Ho. rewrite string4_unfold.
  generalize dependent (Z.shiftr v 24 mod 256). generalize dependent (Z.shiftr v 16 mod 256).
  generalize dependent (Z.shiftr v 8 mod 256). generalize dependent (v mod 256).
  intros d c b a Ho.
  repeat match goal with H : Forall octet (_ :: _) |- _ => inversion H; clear H end. subst.
  rewrite !str_forall_app, dec_byte_chars by done. cbn [str_forall andb].
  rewrite !str_forall_app, dec_byte_chars by done. cbn [str_forall andb].
  rewrite !str_forall_app, dec_byte_chars by done. cbn [str_forall andb].
  by rewrite !str_forall_app, dec_byte_chars.
Qed.

Lemma v4_char_not_space c : v4_char c = true -> negb (is_go_space c) = true.
Proof. by destruct c as [[] [] [] [] [] [] [] []]. Qed.

Lemma v4_char_not_dash c : v4_char c = true -> negb (Ascii.eqb c "-") = true.
Proof. by destruct c as [[] [] [] [] [] [] [] []]. Qed.

#[export] Hint Resolve ParseAddr_wf ParsePrefix_wf Masked_Prefix_wf addr_le_refl : juneau.
