(* ===== verification/NetipText.v ===== *)
(** * NetipText: every valid address is read back from its text

    [Addr.String] followed by [ParseAddr] is the identity, for both families,
    for every placement of the [::] and for zoned addresses.  The allocator
    depends on it: it stores the address it hands out as text and later reads
    the text back to learn which addresses are taken. *)

From stdpp Require Import base gmap strings list.
From Stdlib Require Import ZArith Lia Ascii.
From S2P Require Import Prelude Netip NetipFacts.

Open Scope Z_scope.

(** ** Groups of hex digits *)

Lemma string_app_assoc (s t u : string) : ((s ++ t) ++ u)%string = (s ++ (t ++ u))%string.
Proof.
  induction s as [|c s IH]; [done|].
  change (String c ((s ++ t) ++ u) = String c (s ++ (t ++ u)))%string. by rewrite IH.
Qed.

Lemma string_app_nil_r (s : string) : (s ++ "")%string = s.
Proof.
  induction s as [|c s IH]; [done|].
  change (String c (s ++ "") = String c s)%string. by rewrite IH.
Qed.

Lemma hex_val_digit d : 0 <= d < 16 -> hex_val (hex_digit d) = Some d.
Proof.
  intros Hd.
  assert (H : (match hex_val (hex_digit d) with Some e => e =? d | None => false end) = true).
  { apply (bounded_forallb (fun d =>
      match hex_val (hex_digit d) with Some e => e =? d | None => false end) 0 16); [|lia].
    vm_compute. reflexivity. }
  destruct (hex_val (hex_digit d)); [|done]. to_prop. by subst.
Qed.

(** Text that does not continue a hex number. *)
Definition hex_stop (s : string) : Prop :=
  match s with EmptyString => True | String c _ => hex_val c = None end.

Lemma hex_group_stop s acc off : hex_stop s -> hex_group s acc off = Some (acc, off, s).
Proof. destruct s as [|c s]; simpl; [done|]. by intros ->. Qed.

Lemma hex_group_digit d s acc off :
  0 <= d < 16 -> (off <= 3)%nat ->
  hex_group (String (hex_digit d) s) acc off = hex_group s (acc * 16 + d) (S off).
Proof.
  intros Hd Ho. simpl. rewrite hex_val_digit by done.
  by replace (3 <? off)%nat with false by (symmetry; apply Nat.ltb_ge; lia).
Qed.

Lemma hex_group_str_parse g rest :
  group16 g -> hex_stop rest ->
  exists n, hex_group (hex_group_str g ++ rest)%string 0 0 = Some (g, S n, rest).
Proof.
  unfold group16. intros Hg Hr. unfold hex_group_str.
  pose proof (Z.mod_pos_bound g 16 ltac:(lia)) as H0.
  pose proof (Z.mod_pos_bound (g / 16) 16 ltac:(lia)) as H1.
  pose proof (Z.mod_pos_bound (g / 256) 16 ltac:(lia)) as H2.
  pose proof (Z.div_mod g 16 ltac:(lia)) as E0.
  pose proof (Z.div_mod (g / 16) 16 ltac:(lia)) as E1.
  pose proof (Z.div_mod (g / 256) 16 ltac:(lia)) as E2.
  replace (g / 16 / 16) with (g / 256) in E1 by (rewrite Z.div_div by lia; done).
  replace (g / 256 / 16) with (g / 4096) in E2 by (rewrite Z.div_div by lia; done).
  assert (H3 : 0 <= g / 4096 < 16).
  { split; [apply Z.div_pos; lia|]. apply Z.div_lt_upper_bound; lia. }
  destruct (4096 <=? g) eqn:C3; [|destruct (256 <=? g) eqn:C2; [|destruct (16 <=? g) eqn:C1]];
    to_prop; repeat change ((String ?c ?s ++ rest)%string) with (String c (s ++ rest)%string);
    change (("" ++ rest)%string) with rest.
  - exists 3%nat. rewrite !hex_group_digit by lia. rewrite hex_group_stop by done.
    do 3 f_equal. lia.
  - exists 2%nat. assert (g / 4096 = 0) by (apply Z.div_small; lia).
    rewrite !hex_group_digit by lia. rewrite hex_group_stop by done. do 3 f_equal. lia.
  - exists 1%nat. assert (g / 4096 = 0) by (apply Z.div_small; lia).
    assert (g / 256 = 0) by (apply Z.div_small; lia).
    rewrite !hex_group_digit by lia. rewrite hex_group_stop by done. do 3 f_equal. lia.
  - exists 0%nat. assert (g / 4096 = 0) by (apply Z.div_small; lia).
    assert (g / 256 = 0) by (apply Z.div_small; lia).
    assert (g / 16 = 0) by (apply Z.div_small; lia).
    rewrite hex_group_digit by lia. rewrite hex_group_stop by done. do 3 f_equal. lia.
Qed.

Definition hex_char (c : ascii) : bool :=
  match hex_val c with Some _ => true | None => false end.

Lemma hex_group_str_chars g : group16 g -> str_forall hex_char (hex_group_str g) = true.
Proof.
  intros Hg. unfold group16 in Hg.
  assert (Hd : forall d, 0 <= d < 16 -> hex_char (hex_digit d) = true).
  { intros d Hd. unfold hex_char. by rewrite hex_val_digit. }
  assert (H3 : 0 <= g / 4096 < 16).
  { split; [apply Z.div_pos; lia|]. apply Z.div_lt_upper_bound; lia. }
  unfold hex_group_str. repeat case_match; cbn [str_forall];
    rewrite !Hd by (assumption || (apply Z.mod_pos_bound; lia)); done.
Qed.

Lemma hex_group_str_nonempty g : exists c s, hex_group_str g = String c s.
Proof. unfold hex_group_str. repeat case_match; eauto. Qed.

(** The first character of a group is a hex digit, so not a colon. *)
Lemma hex_group_str_head g s : group16 g ->
  exists c t, (hex_group_str g ++ s)%string = String c t /\ Ascii.eqb c ":" = false.
Proof.
  intros Hg. destruct (hex_group_str_nonempty g) as (c & t & Hs).
  pose proof (hex_group_str_chars g Hg) as Hc. rewrite Hs in *. simpl in Hc. to_prop.
  exists c, (t ++ s)%string. split; [done|].
  destruct c as [[] [] [] [] [] [] [] []]; done.
Qed.

(** ** The loop of [parseIPv6] *)

Lemma join_groups_cons g gs :
  gs <> [] -> join_groups (g :: gs) = (hex_group_str g ++ String ":" (join_groups gs))%string.
Proof. destruct gs as [|g' gs]; [done|]. intros _. reflexivity. Qed.

Lemma join_groups_one g : join_groups [g] = hex_group_str g.
Proof. reflexivity. Qed.

Lemma join_groups_head gs s : gs <> [] -> Forall group16 gs ->
  exists c t, (join_groups gs ++ s)%string = String c t /\ Ascii.eqb c ":" = false.
Proof.
  intros Hne Hg. destruct gs as [|g gs]; [done|]. inversion Hg; subst.
  destruct gs as [|g' gs]; [rewrite join_groups_one; by apply hex_group_str_head|].
  rewrite join_groups_cons by done. rewrite string_app_assoc. by apply hex_group_str_head.
Qed.

(** One iteration: a group followed by a single colon and another group. *)
Lemma parseIPv6_loop_group fuel g s acc ell c t :
  group16 g -> s = String c t -> Ascii.eqb c ":" = false ->
  parseIPv6_loop (S fuel) (hex_group_str g ++ String ":" s)%string acc ell =
  parseIPv6_loop fuel s (acc ++ [g]) ell.
Proof.
  intros Hg -> Hc. unfold parseIPv6_loop at 1; fold parseIPv6_loop.
  destruct (hex_group_str_parse g (String ":" (String c t)) Hg) as [n ->]; [done|].
  simpl. by rewrite Hc.
Qed.

(** The last group. *)
Lemma parseIPv6_loop_last fuel g acc ell :
  group16 g ->
  parseIPv6_loop (S fuel) (hex_group_str g) acc ell = Some (acc ++ [g], ell, EmptyString).
Proof.
  intros Hg. unfold parseIPv6_loop at 1; fold parseIPv6_loop.
  destruct (hex_group_str_parse g "" Hg) as [n Hn]; [done|].
  rewrite string_app_nil_r in Hn. by rewrite Hn.
Qed.

(** A run of groups up to the end of the text. *)
Lemma parseIPv6_loop_join gs fuel acc ell :
  gs <> [] -> Forall group16 gs -> (length gs <= fuel)%nat ->
  parseIPv6_loop fuel (join_groups gs) acc ell = Some (acc ++ gs, ell, EmptyString).
Proof.
  revert fuel acc. induction gs as [|g gs IH]; intros fuel acc Hne Hg Hf; [done|].
  inversion Hg; subst. destruct fuel as [|fuel]; [simpl in Hf; lia|].
  destruct gs as [|g' gs'].
  { rewrite join_groups_one. by apply parseIPv6_loop_last. }
  rewrite join_groups_cons by done.
  destruct (join_groups_head (g' :: gs') "") as (c & t & Hs & Hc); [done|done|].
  rewrite string_app_nil_r in Hs. rewrite (parseIPv6_loop_group _ _ _ _ _ c t) by done.
  rewrite IH by (done || (simpl in *; lia)). by rewrite <- app_assoc.
Qed.

(** A run of groups up to a [::] that is the first one. *)
Lemma parseIPv6_loop_ellipsis gs rest fuel acc :
  gs <> [] -> Forall group16 gs -> (length gs <= fuel)%nat ->
  parseIPv6_loop fuel (join_groups gs ++ String ":" (String ":" rest))%string acc None =
  let groups := acc ++ gs in
  if String.eqb rest EmptyString then Some (groups, Some (length groups), EmptyString)
  else parseIPv6_loop (fuel - length gs) rest groups (Some (length groups)).
Proof.
  revert fuel acc. induction gs as [|g gs IH]; intros fuel acc Hne Hg Hf; [done|].
  inversion Hg; subst. destruct fuel as [|fuel]; [simpl in Hf; lia|].
  destruct gs as [|g' gs'].
  - rewrite join_groups_one. unfold parseIPv6_loop at 1; fold parseIPv6_loop.
    destruct (hex_group_str_parse g (String ":" (String ":" rest))) as [n ->]; [done|done|].
    simpl. by rewrite Nat.sub_0_r.
  - rewrite join_groups_cons, string_app_assoc by done.
    change ((String ":" (join_groups (g' :: gs')) ++ String ":" (String ":" rest))%string)
      with (String ":" (join_groups (g' :: gs') ++ String ":" (String ":" rest))%string).
    destruct (join_groups_head (g' :: gs') (String ":" (String ":" rest)))
      as (c & t & Hs & Hc); [done|done|].
    rewrite (parseIPv6_loop_group _ _ _ _ _ c t) by done.
    rewrite IH by (done || (simpl in *; lia)). rewrite <- app_assoc. simpl.
    done.
Qed.

(** ** The run of zeros the printer compresses *)

Lemma zero_run_split gs : exists rest, gs = replicate (zero_run gs) 0 ++ rest.
Proof.
  induction gs as [|g gs [rest IH]]; simpl; [by exists []|].
  destruct (g =? 0) eqn:Hg; to_prop; simpl.
  - subst g. exists rest. by rewrite <- IH.
  - by exists (g :: gs).
Qed.

Lemma longest_zero_run_spec gs i l :
  longest_zero_run gs = (i, l) ->
  l = 0%nat \/ (2 <= l)%nat /\ exists post, gs = take i gs ++ replicate l 0 ++ post /\
               drop (i + l) gs = post /\ (i <= length gs)%nat.
Proof.
  unfold longest_zero_run.
  apply (fold_left_ind _ (fun _ best => best = (i, l) -> l = 0%nat \/ (2 <= l)%nat /\
    exists post, gs = take i gs ++ replicate l 0 ++ post /\ drop (i + l) gs = post /\
                 (i <= length gs)%nat)).
  { intros [= <- <-]. by left. }
  intros pre j best IH (post & Hj).
  case_match eqn:Hc; [|done].
  intros [= <- <-]. apply andb_true_iff in Hc as [H2 _]. apply Nat.leb_le in H2.
  assert (Hjl : (j < length gs)%nat).
  { assert (Hin : j ∈ seq 0 (length gs)) by (rewrite Hj; set_solver). apply elem_of_seq in Hin. lia. }
  right. split; [done|]. destruct (zero_run_split (drop j gs)) as [rest Hr].
  exists rest. split; [rewrite <- Hr; by rewrite take_drop|]. split; [|lia].
  set (z := zero_run (drop j gs)) in *. clearbody z. rewrite <- drop_drop, Hr.
  rewrite drop_app_length'; [done|]. by rewrite length_replicate.
Qed.

Lemma v6_groups_wf v : Forall group16 (v6_groups v) /\ length (v6_groups v) = 8%nat.
Proof.
  split; [|done]. apply Forall_forall. intros x Hx. unfold v6_groups in Hx.
  apply list_elem_of_fmap in Hx as (i & -> & _). apply Z.mod_pos_bound. lia.
Qed.

Lemma groups_val_v6_groups v : 0 <= v < 2 ^ 128 -> groups_val (v6_groups v) = v.
Proof.
  intros Hv. unfold groups_val, v6_groups. cbn [map seq fold_left].
  rewrite !Z.shiftr_div_pow2 by lia.
  repeat match goal with |- context [2 ^ (112 - 16 * Z.of_nat ?n)] =>
    let m := eval vm_compute in (112 - 16 * Z.of_nat n) in
    change (112 - 16 * Z.of_nat n) with m end.
  change (2 ^ 128) with (2 ^ 16 * 2 ^ 112) in Hv.
  assert (Hq : forall k k', 0 <= k -> k' = k + 16 ->
    v / 2 ^ k = (v / 2 ^ k') * 65536 + (v / 2 ^ k) mod 65536).
  { intros k k' Hk ->. rewrite Z.pow_add_r, <- Z.div_div by lia. change (2 ^ 16) with 65536.
    pose proof (Z.div_mod (v / 2 ^ k) 65536 ltac:(lia)). lia. }
  pose proof (Hq 0 16 ltac:(lia) eq_refl) as Q0. pose proof (Hq 16 32 ltac:(lia) eq_refl) as Q1.
  pose proof (Hq 32 48 ltac:(lia) eq_refl) as Q2. pose proof (Hq 48 64 ltac:(lia) eq_refl) as Q3.
  pose proof (Hq 64 80 ltac:(lia) eq_refl) as Q4. pose proof (Hq 80 96 ltac:(lia) eq_refl) as Q5.
  pose proof (Hq 96 112 ltac:(lia) eq_refl) as Q6. rewrite Z.pow_0_r, Z.div_1_r in *.
  assert (H7 : (v / 2 ^ 112) mod 65536 = v / 2 ^ 112).
  { apply Z.mod_small. split; [apply Z.div_pos; lia|]. apply Z.div_lt_upper_bound; lia. }
  clear Hq Hv. rewrite H7. clear H7.
  set (a0 := v mod 65536) in *. set (a1 := v / 2 ^ 16 mod 65536) in *.
  set (a2 := v / 2 ^ 32 mod 65536) in *. set (a3 := v / 2 ^ 48 mod 65536) in *.
  set (a4 := v / 2 ^ 64 mod 65536) in *. set (a5 := v / 2 ^ 80 mod 65536) in *.
  set (a6 := v / 2 ^ 96 mod 65536) in *. clearbody a0 a1 a2 a3 a4 a5 a6. lia.
Qed.

(** ** The body of an IPv6 text *)

(** What [parseIPv6] does after the leading [::], if any. *)
Definition parseIPv6_fin (s z : string) (ell : option nat) : option Addr :=
  match parseIPv6_loop 8 s [] ell with
  | Some (groups, ell', rest) =>
      if String.eqb rest EmptyString
      then (fun gs => Addr6 (groups_val gs) z) <$> expand_groups groups ell'
      else None
  | None => None
  end.

Lemma parseIPv6_body_plain s z c t :
  s = String c t -> Ascii.eqb c ":" = false -> parseIPv6_body s z = parseIPv6_fin s z None.
Proof.
  intros -> Hc. unfold parseIPv6_body, parseIPv6_fin. generalize (parseIPv6_loop 8) as loop.
  intros loop. destruct c as [[] [] [] [] [] [] [] []]; first [discriminate Hc | reflexivity].
Qed.

Lemma parseIPv6_body_colons s z :
  parseIPv6_body (String ":" (String ":" s)) z =
  if String.eqb s EmptyString then Some (Addr6 0 z) else parseIPv6_fin s z (Some 0%nat).
Proof. unfold parseIPv6_body, parseIPv6_fin. generalize (parseIPv6_loop 8). reflexivity. Qed.

Lemma expand_groups_at pre post :
  (length pre + length post < 8)%nat ->
  expand_groups (pre ++ post) (Some (length pre)) =
  Some (pre ++ replicate (8 - length pre - length post) 0 ++ post).
Proof.
  intros Hl. unfold expand_groups. rewrite decide_True by (rewrite length_app; lia).
  rewrite take_app_length, drop_app_length, length_app. do 4 f_equal. lia.
Qed.

Lemma string_eqb_String c t : String.eqb (String c t) EmptyString = false.
Proof. reflexivity. Qed.

Lemma join_groups_not_empty gs : gs <> [] -> Forall group16 gs ->
  String.eqb (join_groups gs) EmptyString = false.
Proof.
  intros Hne Hg. destruct (join_groups_head gs "" Hne Hg) as (c & t & Hs & _).
  rewrite string_app_nil_r in Hs. by rewrite Hs.
Qed.

(** The text around a [::]. *)
Lemma parseIPv6_body_ellipsis pre post z :
  Forall group16 pre -> Forall group16 post -> (length pre + length post < 8)%nat ->
  parseIPv6_body (join_groups pre ++ "::" ++ join_groups post)%string z =
  Some (Addr6 (groups_val (pre ++ replicate (8 - length pre - length post) 0 ++ post)) z).
Proof.
  intros Hpre Hpost Hlen.
  change (("::" ++ join_groups post)%string) with (String ":" (String ":" (join_groups post))).
  destruct (decide (pre = [])) as [->|Hne].
  - change (parseIPv6_body (String ":" (String ":" (join_groups post))) z =
      Some (Addr6 (groups_val (replicate (8 - length post) 0 ++ post)) z)).
    rewrite parseIPv6_body_colons. destruct (decide (post = [])) as [->|Hp]; [reflexivity|].
    rewrite join_groups_not_empty by done. unfold parseIPv6_fin.
    rewrite parseIPv6_loop_join by (done || lia).
    change (Some 0%nat) with (Some (length (@nil Z))). rewrite expand_groups_at by done.
    change (String.eqb "" "") with true. cbn iota. rewrite Nat.sub_0_r. reflexivity.
  - destruct (join_groups_head pre (String ":" (String ":" (join_groups post))))
      as (c & t & Hs & Hc); [done|done|].
    rewrite (parseIPv6_body_plain _ z c t) by done. unfold parseIPv6_fin.
    rewrite parseIPv6_loop_ellipsis by (done || lia). cbv zeta. rewrite app_nil_l.
    destruct (decide (post = [])) as [->|Hp].
    + rewrite <- (app_nil_r pre) at 1. cbn [String.eqb].
      change (String.eqb (join_groups []) "") with true. cbn iota beta.
      rewrite expand_groups_at by done. reflexivity.
    + rewrite join_groups_not_empty by done.
      rewrite parseIPv6_loop_join by (done || lia). cbn [String.eqb].
      rewrite expand_groups_at by done. reflexivity.
Qed.

Lemma parseIPv6_body_string6 v z :
  0 <= v < 2 ^ 128 -> parseIPv6_body (string6 v) z = Some (Addr6 v z).
Proof.
  intros Hv. destruct (v6_groups_wf v) as [Hg Hl].
  pose proof (groups_val_v6_groups v Hv) as Hval.
  unfold string6. set (gs := v6_groups v) in *. clearbody gs.
  destruct (longest_zero_run gs) as [i l] eqn:Hrun.
  apply longest_zero_run_spec in Hrun as [->|(Hl2 & post & Hgs & Hdrop & Hi)].
  - assert (Hne : gs <> []) by (intros ->; done).
    destruct (join_groups_head gs "" Hne Hg) as (c & t & Hs & Hc).
    rewrite string_app_nil_r in Hs. cbn [Nat.eqb].
    rewrite (parseIPv6_body_plain _ z c t) by done. unfold parseIPv6_fin.
    rewrite parseIPv6_loop_join by (done || lia). cbn [String.eqb app].
    unfold expand_groups. rewrite decide_False by lia. cbn. by rewrite Hval.
  - destruct (Nat.eqb_spec l 0) as [->|_]; [lia|]. rewrite Hdrop.
    assert (Hlens : (length (take i gs) + l + length post = 8)%nat).
    { rewrite Hgs in Hl. rewrite !length_app, length_replicate in Hl. lia. }
    rewrite parseIPv6_body_ellipsis.
    + replace (8 - length (take i gs) - length post)%nat with l by lia.
      by rewrite <- Hgs, Hval.
    + by apply Forall_take.
    + rewrite <- Hdrop. by apply Forall_drop.
    + lia.
Qed.

Lemma hex_group_dec b rest :
  octet b -> exists acc n, hex_group (dec_byte b ++ String "." rest)%string 0 0 =
                           Some (acc, S n, String "." rest).
Proof.
  intros Hb.
  assert (Hin : b ∈ seqZ 0 256) by (apply elem_of_seqZ; unfold octet in Hb; lia).
  clear Hb. revert b Hin. apply Forall_forall.
  vm_compute seqZ. repeat constructor; do 2 eexists; reflexivity.
Qed.

Lemma parseIPv4Fields_string4 w :
  0 <= w < 2 ^ 32 -> parseIPv4Fields (string4 w) [] 0 0 = Some (As4 w).
Proof.
  intros Hw. pose proof (As4_octets w ltac:(lia)) as Ho. rewrite string4_unfold. unfold As4 in *.
  generalize dependent (Z.shiftr w 24 mod 256). generalize dependent (Z.shiftr w 16 mod 256).
  generalize dependent (Z.shiftr w 8 mod 256). generalize dependent (w mod 256).
  intros d c b a Ho.
  repeat match goal with H : Forall octet (_ :: _) |- _ => inversion H; clear H end. subst.
  do 3 (match goal with |- parseIPv4Fields (dec_byte ?x ++ ?r)%string ?fs 0 0 = _ =>
    destruct (parseIPv4Fields_dec x fs r) as [? ->]; [done|] end;
    simpl; rewrite dec_byte_nonempty; simpl).
  match goal with |- parseIPv4Fields (dec_byte ?x ++ ?r)%string ?fs 0 0 = _ =>
    destruct (parseIPv4Fields_dec x fs r) as [? ->]; [done|] end.
  done.
Qed.

Lemma string4_head w : 0 <= w < 2 ^ 32 ->
  exists c t acc n rest, string4 w = String c t /\ Ascii.eqb c ":" = false /\
    hex_group (string4 w) 0 0 = Some (acc, S n, String "." rest).
Proof.
  intros Hw. pose proof (string4_chars w ltac:(lia)) as Hc.
  pose proof (As4_octets w ltac:(lia)) as Ho. unfold As4 in Ho. inversion Ho; subst.
  rewrite string4_unfold in *.
  match goal with |- context [(dec_byte ?x ++ String "." ?r)%string] =>
    destruct (hex_group_dec x r) as (acc & n & Hh); [done|];
    destruct (dec_byte x ++ String "." r)%string as [|c t] eqn:Hs end; [done|].
  simpl in Hc. to_prop. eexists c, t, acc, n, _. split_and!; [done| |exact Hh].
  destruct c as [[] [] [] [] [] [] [] []]; done.
Qed.

Lemma parseIPv6_loop_v4 fuel s groups k acc n rest a b c d :
  hex_group s 0 0 = Some (acc, S n, String "." rest) ->
  (6 <? length groups)%nat = false ->
  parseIPv4Fields s [] 0 0 = Some [a; b; c; d] ->
  parseIPv6_loop (S fuel) s groups (Some k) =
  Some (groups ++ [a * 256 + b; c * 256 + d], Some k, EmptyString).
Proof.
  intros Hh Hl Hf. unfold parseIPv6_loop; fold parseIPv6_loop. rewrite Hh. cbn [Nat.eqb].
  rewrite bool_decide_eq_false_2 by done. cbn [andb]. by rewrite Hl, Hf.
Qed.

Lemma parseIPv6_body_mapped w z :
  0 <= w < 2 ^ 32 ->
  parseIPv6_body ("::ffff:" ++ string4 w)%string z = Some (Addr6 (65535 * 2 ^ 32 + w) z).
Proof.
  intros Hw.
  change (("::ffff:" ++ string4 w)%string) with
    (String ":" (String ":" (hex_group_str 65535 ++ String ":" (string4 w))%string)).
  rewrite parseIPv6_body_colons.
  change (String.eqb (hex_group_str 65535 ++ String ":" (string4 w))%string "") with false.
  cbn iota. unfold parseIPv6_fin.
  destruct (string4_head w Hw) as (c & t & acc & n & rest & Hs & Hc & Hh).
  rewrite (parseIPv6_loop_group _ _ _ _ _ c t) by (done || (unfold group16; lia)).
  change ([] ++ [65535]) with [65535].
  rewrite (parseIPv6_loop_v4 _ _ [65535] _ _ _ _ _ _ _ _ Hh eq_refl (parseIPv4Fields_string4 w Hw)).
  pose proof (be_combine_As4 w Hw) as Hbe. unfold As4 in Hbe. rewrite be_combine_4 in Hbe.
  change (String.eqb "" "") with true. cbn iota.
  unfold expand_groups. cbn [length app]. rewrite decide_True by lia.
  cbn [fmap option_fmap option_map take drop app length replicate Nat.sub].
  f_equal. f_equal. unfold groups_val. cbn [fold_left]. lia.
Qed.

(** ** The whole text *)

Lemma cut_first_none sep s :
  str_forall (fun c => negb (Ascii.eqb c sep)) s = true -> cut_first sep s = None.
Proof.
  induction s as [|c s IH]; simpl; [done|]. intros H. to_prop.
  rewrite IH by done. case_match; [congruence|done].
Qed.

Lemma cut_first_app sep s t :
  str_forall (fun c => negb (Ascii.eqb c sep)) s = true ->
  cut_first sep (s ++ String sep t)%string = Some (s, t).
Proof.
  induction s as [|c s IH]; intros H.
  - change (("" ++ String sep t)%string) with (String sep t). simpl. by rewrite Ascii.eqb_refl.
  - change ((String c s ++ String sep t)%string) with (String c (s ++ String sep t)%string).
    simpl in *. to_prop. rewrite IH by done. case_match; [congruence|done].
Qed.

(** The characters of an IPv6 text before the zone. *)
Definition v6_char (c : ascii) : bool := hex_char c || Ascii.eqb c ":" || Ascii.eqb c ".".

Lemma v6_char_not_percent c : v6_char c = true -> negb (Ascii.eqb c "%") = true.
Proof. by destruct c as [[] [] [] [] [] [] [] []]. Qed.

Lemma hex_v6_char c : hex_char c = true -> v6_char c = true.
Proof. unfold v6_char. by intros ->. Qed.

Lemma join_groups_chars gs : Forall group16 gs -> str_forall v6_char (join_groups gs) = true.
Proof.
  induction 1 as [|g gs Hg Hgs IH]; [done|].
  pose proof (str_forall_impl _ _ _ hex_v6_char (hex_group_str_chars g Hg)) as Hh.
  destruct gs as [|g' gs]; [done|]. rewrite join_groups_cons by done.
  rewrite str_forall_app, Hh. cbn [str_forall andb]. by rewrite IH.
Qed.

Lemma string6_chars v : str_forall v6_char (string6 v) = true.
Proof.
  destruct (v6_groups_wf v) as [Hg _]. unfold string6.
  destruct (longest_zero_run (v6_groups v)) as [i l]. case_match; [by apply join_groups_chars|].
  rewrite !str_forall_app, !join_groups_chars; [done|by apply Forall_drop|by apply Forall_take].
Qed.

(** A colon comes before any dot or percent sign. *)
Lemma addr_family_colon s t :
  str_forall hex_char s = true -> addr_family (s ++ String ":" t)%string = Some ":"%char.
Proof.
  induction s as [|c s IH]; intros H; [done|].
  change ((String c s ++ String ":" t)%string) with (String c (s ++ String ":" t)%string).
  simpl in *. to_prop.
  assert (Ascii.eqb c "." || Ascii.eqb c ":" || Ascii.eqb c "%" = false) as ->.
  { destruct c as [[] [] [] [] [] [] [] []]; done. }
  by apply IH.
Qed.

Lemma addr_family_string6 v s : addr_family (string6 v ++ s)%string = Some ":"%char.
Proof.
  destruct (v6_groups_wf v) as [Hg Hl]. unfold string6.
  destruct (longest_zero_run (v6_groups v)) as [i l].
  assert (Hhead : forall gs u, Forall group16 gs -> gs <> [] ->
    exists a b, (join_groups gs ++ String ":" u)%string = (a ++ String ":" b)%string /\
                str_forall hex_char a = true).
  { intros gs u Hgs Hne. destruct gs as [|g gs]; [done|]. inversion Hgs; subst.
    destruct gs as [|g' gs].
    - exists (hex_group_str g), u. split; [done|by apply hex_group_str_chars].
    - rewrite join_groups_cons, string_app_assoc by done. eexists _, _.
      split; [reflexivity|by apply hex_group_str_chars]. }
  case_match.
  - destruct (v6_groups v) as [|g [|g' gs]]; [done|done|]. inversion Hg; subst.
    rewrite join_groups_cons, string_app_assoc by done. apply addr_family_colon.
    by apply hex_group_str_chars.
  - rewrite !string_app_assoc.
    destruct (decide (take i (v6_groups v) = [])) as [->|Hne]; [done|].
    destruct (Hhead (take i (v6_groups v)) (String ":" (join_groups (drop (i + l) (v6_groups v)) ++ s)%string))
      as (a & b & Hab & Ha); [by apply Forall_take|done|].
    etrans; [|apply (addr_family_colon a b Ha)]. f_equal. exact Hab.
Qed.

Lemma parseIPv6_zone body z a :
  str_forall v6_char body = true -> parseIPv6_body body z = Some a ->
  parseIPv6 (body ++ zone_suffix z)%string = Some a.
Proof.
  intros Hc Hb. unfold parseIPv6, zone_suffix.
  pose proof (str_forall_impl _ _ _ v6_char_not_percent Hc) as Hn.
  destruct (String.eqb z "") eqn:Hz.
  - apply String.eqb_eq in Hz. subst z. rewrite string_app_nil_r.
    by rewrite cut_first_none.
  - change (("%" ++ z)%string) with (String "%" z). rewrite cut_first_app by done.
    by rewrite Hz.
Qed.

Lemma v4_char_v6_char c : v4_char c = true -> v6_char c = true.
Proof. by destruct c as [[] [] [] [] [] [] [] []]. Qed.

(** [ParseAddr (a.String()) = a] for every valid address. *)
Lemma ParseAddr_String a :
  Addr_wf a -> IsValid a = true -> ParseAddr (Addr_String a) = Ok a.
Proof.
  destruct a as [|v|v z]; intros Hw Hv; [discriminate Hv|by apply ParseAddr_String4|].
  unfold Addr_String. destruct (Is4In6 (Addr6 v z)) eqn:H46.
  - unfold Is4In6 in H46. to_prop. unfold Addr_wf in Hw.
    assert (Hval : v = 65535 * 2 ^ 32 + v mod 2 ^ 32).
    { rewrite Z.shiftr_div_pow2 in H46 by lia. pose proof (Z.div_mod v (2 ^ 32) ltac:(lia)). lia. }
    pose proof (Z.mod_pos_bound v (2 ^ 32) ltac:(lia)) as Hr.
    rewrite <- string_app_assoc.
    assert (Hp : parseIPv6 (("::ffff:" ++ string4 (v mod 2 ^ 32)) ++ zone_suffix z)%string
                 = Some (Addr6 v z)).
    { apply parseIPv6_zone.
      - rewrite str_forall_app. cbn.
        eapply str_forall_impl; [apply v4_char_v6_char|]. apply string4_chars. lia.
      - rewrite parseIPv6_body_mapped by done. by rewrite <- Hval. }
    unfold ParseAddr. rewrite Hp. reflexivity.
  - assert (Hp : parseIPv6 (string6 v ++ zone_suffix z)%string = Some (Addr6 v z)).
    { apply parseIPv6_zone; [apply string6_chars|by apply parseIPv6_body_string6]. }
    unfold ParseAddr. by rewrite addr_family_string6, Hp.
Qed.

#[export] Hint Resolve ParseAddr_String : juneau.
