(* ===== verification/AddressRange.v ===== *)
(** * AddressRange: [controller/internal/addressrange]

    Inclusive address intervals, the last and first addresses of a prefix and
    the "start-end" text form of ARP-mode AddressPool entries. *)

From stdpp Require Import base gmap strings list.
From Stdlib Require Import ZArith Lia Ascii.
From S2P Require Import Prelude Netip NetipFacts.

Open Scope Z_scope.

(** ** prefix.go *)

(** [Addr.As16]: sixteen bytes, most significant first; a 4-byte address is
    written in its IPv4-mapped form. *)
Definition bytes_of (n : nat) (v : Z) : list Z :=
  map (fun i => Z.shiftr v (8 * Z.of_nat (n - 1 - i)) mod 256) (seq 0 n).

Definition As16 (a : Addr) : list Z :=
  match a with
  | AddrZero => replicate 16 0
  | Addr4 v => bytes_of 16 (65535 * 2 ^ 32 + v)
  | Addr6 v _ => bytes_of 16 v
  end.

(** The loop of [LastAddr]: [for i := 15; hostBits > 0 && i >= 0; i--]. *)
Fixpoint set_host_bits (n : nat) (bs : list Z) (hostBits : Z) : list Z :=
  match n with
  | O => bs
  | S i =>
      if 0 <? hostBits then
        let flip := if 8 <? hostBits then 8 else hostBits in
        set_host_bits i (<[i := Z.lor (bs !!! i) (u8 (Z.shiftl 1 flip - 1))]> bs) (hostBits - flip)
      else bs
  end.

Definition LastAddr (p : Prefix) : Addr :=
  let addr := pfx_addr (Masked p) in
  let bits := pfx_bits p in
  let bs := As16 addr in
  let totalBits := BitLen addr in
  let bs' := set_host_bits 16 bs (totalBits - bits) in
  if Is4 addr then Addr4 (be_combine (drop 12 bs')) else Addr6 (be_combine bs') EmptyString.

Definition FirstAddr (p : Prefix) : option Addr :=
  let masked := Masked p in
  let addr := Next (pfx_addr masked) in
  if negb (IsValid addr) || negb (Contains masked addr) then None else Some addr.

(** ** range.go *)

Record Range := MkRange { Start : Addr; End : Addr }.

#[global] Instance Range_eq_dec : EqDecision Range.
Proof. solve_decision. Defined.

Definition PrefixRange (p : Prefix) : Range :=
  let p := Masked p in MkRange (pfx_addr p) (LastAddr p).

Definition Intersect (r other : Range) : option Range :=
  let start := if addr_gt (Start other) (Start r) then Start other else Start r in
  let last := if addr_lt (End other) (End r) then End other else End r in
  if addr_gt start last then None else Some (MkRange start last).

Definition Range_String (r : Range) : string :=
  if decide (Start r = End r) then Addr_String (Start r)
  else (Addr_String (Start r) ++ String "-" (Addr_String (End r)))%string.

(** ** parse.go *)

Inductive range_error : Type := ErrMalformed | ErrNotIPv4 | ErrReversed.

Definition parseIPv4Addr (raw : string) : result range_error Addr :=
  match ParseAddr (TrimSpace raw) with
  | Err _ => Err ErrNotIPv4
  | Ok addr => let addr := Unmap addr in if Is4 addr then Ok addr else Err ErrNotIPv4
  end.

Definition ParseIPv4Range (raw : string) : result range_error (Addr * Addr) :=
  match split_on "-" raw with
  | [a; b] =>
      res_bind (parseIPv4Addr a) (fun start =>
      res_bind (parseIPv4Addr b) (fun last =>
      if addr_gt start last then Err ErrReversed else Ok (start, last)))
  | _ => Err ErrMalformed
  end.

(** ** What the ranges mean *)

(** [a] lies in [r], in the order [Addr.Compare] defines. *)
Definition in_range (r : Range) (a : Addr) : bool := addr_le (Start r) a && addr_le a (End r).

(** ** Byte-level lemmas for [LastAddr] *)

(** The same loop on the bytes least significant first. *)
Fixpoint fill_low (hostBits : Z) (bs : list Z) : list Z :=
  match bs with
  | [] => []
  | b :: bs' =>
      if 0 <? hostBits then
        let flip := if 8 <? hostBits then 8 else hostBits in
        Z.lor b (u8 (Z.shiftl 1 flip - 1)) :: fill_low (hostBits - flip) bs'
      else b :: bs'
  end.

Lemma set_host_bits_fill n bs h :
  (n <= length bs)%nat ->
  set_host_bits n bs h = reverse (fill_low h (reverse (take n bs))) ++ drop n bs.
Proof.
  revert bs h. induction n as [|n IH]; intros bs h Hn; simpl.
  { rewrite drop_0. done. }
  destruct (lookup_lt_is_Some_2 bs n) as [b Hb]; [lia|].
  rewrite (take_S_r bs n b Hb), reverse_app. simpl.
  destruct (0 <? h) eqn:Hh.
  - rewrite IH by (rewrite length_insert; lia).
    rewrite take_insert_ge by lia. rewrite reverse_cons, <- app_assoc. f_equal. simpl.
    rewrite drop_insert_ge by lia. rewrite (drop_S _ b _ Hb), Nat.sub_diag. simpl.
    by rewrite (list_lookup_total_correct bs n b Hb).
  - rewrite reverse_cons, reverse_involutive, <- app_assoc. simpl.
    rewrite <- (drop_S _ b _ Hb). by rewrite take_drop.
Qed.

Lemma be_combine_snoc bs b : be_combine (bs ++ [b]) = be_combine bs * 256 + b.
Proof. unfold be_combine. by rewrite fold_left_app. Qed.

Lemma be_combine_rev_cons b bs : be_combine (reverse (b :: bs)) = be_combine (reverse bs) * 256 + b.
Proof. by rewrite reverse_cons, be_combine_snoc. Qed.

Lemma be_combine_nonneg bs : Forall octet bs -> 0 <= be_combine (reverse bs).
Proof.
  induction 1 as [|b bs Hb _ IH]; [done|]. rewrite be_combine_rev_cons. unfold octet in Hb. lia.
Qed.

Lemma lor_low b h :
  octet b -> 0 < h <= 8 -> b mod 2 ^ h = 0 -> Z.lor b (u8 (Z.shiftl 1 h - 1)) = b + 2 ^ h - 1.
Proof.
  intros Hb Hh Hm.
  assert (Hd : forallb (fun b => forallb (fun h =>
    implb (b mod 2 ^ h =? 0) (Z.lor b (u8 (Z.shiftl 1 h - 1)) =? b + 2 ^ h - 1))
    (seqZ 1 8)) (seqZ 0 256) = true) by (vm_compute; reflexivity).
  apply (bounded_forallb _ _ _ b) in Hd; [|unfold octet in Hb; lia].
  apply (bounded_forallb _ _ _ h) in Hd; [|lia].
  cbv beta in Hd. rewrite Hm in Hd. by apply Z.eqb_eq in Hd.
Qed.

Lemma fill_low_val bs h :
  Forall octet bs -> 0 <= h <= 8 * Z.of_nat (length bs) ->
  be_combine (reverse bs) mod 2 ^ h = 0 ->
  be_combine (reverse (fill_low h bs)) = be_combine (reverse bs) + 2 ^ h - 1.
Proof.
  intros Hbs. revert h. induction Hbs as [|b bs Hb Hbs IH]; intros h Hh Hm.
  { simpl in Hh. replace h with 0 by lia. done. }
  cbn [fill_low length] in *. rewrite be_combine_rev_cons in Hm.
  destruct (0 <? h) eqn:H0; to_prop.
  2: { replace h with 0 by lia. rewrite Z.pow_0_r. lia. }
  rewrite !be_combine_rev_cons. set (q := be_combine (reverse bs)) in *.
  assert (Hmb : forall k, 0 < k <= 8 -> k <= h -> b mod 2 ^ k = 0).
  { intros k Hk Hkh. assert (H256 : 256 = 2 ^ (8 - k) * 2 ^ k).
    { rewrite <- Z.pow_add_r by lia. by replace (8 - k + k) with 8 by lia. }
    assert (Hd : (q * 256 + b) mod 2 ^ k = 0).
    { apply Z.mod_divide; [lia|]. apply Z.mod_divide in Hm; [|lia].
      eapply Z.divide_trans; [|exact Hm]. exists (2 ^ (h - k)).
      rewrite <- Z.pow_add_r by lia. f_equal. lia. }
    rewrite H256, Z.mul_assoc, Z.add_comm, Z.mod_add in Hd by lia. done. }
  destruct (8 <? h) eqn:H8; to_prop.
  - rewrite (lor_low b 8) by (done || lia || (apply Hmb; lia)).
    rewrite IH; [|lia|].
    + replace (2 ^ h) with (2 ^ (h - 8) * 256); [|].
      * pose proof (Hmb 8 ltac:(lia) ltac:(lia)) as Hb8. change (2 ^ 8) with 256 in *.
        rewrite Z.mod_small in Hb8 by (unfold octet in Hb; lia). lia.
      * change 256 with (2 ^ 8). rewrite <- Z.pow_add_r by lia. f_equal. lia.
    + pose proof (Hmb 8 ltac:(lia) ltac:(lia)) as Hb8. change (2 ^ 8) with 256 in *.
      rewrite Z.mod_small in Hb8 by (unfold octet in Hb; lia). subst b.
      apply Z.mod_divide in Hm; [|lia]. apply Z.mod_divide; [lia|].
      destruct Hm as [c Hc]. exists c.
      replace (2 ^ h) with (2 ^ (h - 8) * 256) in Hc; [lia|].
      change 256 with (2 ^ 8). rewrite <- Z.pow_add_r by lia. f_equal. lia.
  - rewrite (lor_low b h) by (done || lia || (apply Hmb; lia)).
    replace (fill_low (h - h) bs) with bs; [lia|].
    destruct bs; [done|]. simpl. by rewrite Z.sub_diag.
Qed.

Lemma fill_low_take n h bs : take n (fill_low h bs) = fill_low h (take n bs).
Proof.
  revert h bs. induction n as [|n IH]; intros h [|b bs]; simpl; try done.
  destruct (0 <? h); simpl; [by rewrite IH|done].
Qed.

Lemma length_fill_low h bs : length (fill_low h bs) = length bs.
Proof. revert h. induction bs as [|b bs IH]; intros h; simpl; [done|]. case_match; simpl; auto. Qed.

Lemma bytes_of_S n v : bytes_of (S n) v = bytes_of n (Z.shiftr v 8) ++ [v mod 256].
Proof.
  unfold bytes_of. rewrite seq_S, map_app. simpl. f_equal.
  - apply map_ext_in. intros i Hi. apply in_seq in Hi.
    rewrite Z.shiftr_shiftr by lia. do 2 f_equal. lia.
  - rewrite Nat.sub_0_r, Nat.sub_diag. done.
Qed.

Lemma bytes_of_octets n v : Forall octet (bytes_of n v).
Proof.
  unfold bytes_of. apply Forall_forall. intros x Hx.
  apply list_elem_of_In, in_map_iff in Hx as (i & <- & _).
  pose proof (Z.mod_pos_bound (Z.shiftr v (8 * Z.of_nat (n - 1 - i))) 256 ltac:(lia)).
  unfold octet. lia.
Qed.

Lemma be_combine_bytes_of n v : 0 <= v -> be_combine (bytes_of n v) = v mod 256 ^ Z.of_nat n.
Proof.
  revert v. induction n as [|n IH]; intros v Hv.
  { by rewrite Z.mod_1_r. }
  rewrite bytes_of_S, be_combine_snoc, IH by (apply Z.shiftr_nonneg; lia).
  rewrite Z.shiftr_div_pow2 by lia. change (2 ^ 8) with 256.
  rewrite Nat2Z.inj_succ, Z.pow_succ_r by lia.
  rewrite Z.rem_mul_r by lia. lia.
Qed.

Lemma drop_bytes_of k n v :
  (k <= n)%nat -> drop (n - k) (bytes_of n v) = bytes_of k v.
Proof.
  revert n v. induction k as [|k IH]; intros n v Hk.
  - rewrite Nat.sub_0_r. apply drop_ge. unfold bytes_of. by rewrite length_map, length_seq.
  - destruct n as [|n]; [lia|]. rewrite !bytes_of_S, Nat.sub_succ.
    rewrite drop_app_le; [by rewrite IH by lia|].
    unfold bytes_of. rewrite length_map, length_seq. lia.
Qed.

(** The host-bit loop on the last [k] of [n] bytes. *)
Lemma set_host_bits_low k n v h :
  (k <= n)%nat -> 0 <= v -> 0 <= h <= 8 * Z.of_nat k ->
  (v mod 256 ^ Z.of_nat k) mod 2 ^ h = 0 ->
  be_combine (drop (n - k) (set_host_bits n (bytes_of n v) h)) = v mod 256 ^ Z.of_nat k + 2 ^ h - 1.
Proof.
  intros Hk Hv Hh Hm.
  assert (Hlen : length (bytes_of n v) = n) by (unfold bytes_of; by rewrite length_map, length_seq).
  rewrite set_host_bits_fill by lia. rewrite (take_ge (bytes_of n v)), (drop_ge (bytes_of n v) n), app_nil_r by lia.
  assert (Hdr : forall (l : list Z), length l = n -> drop (n - k) (reverse l) = reverse (take k l)).
  { intros l Hl. rewrite <- (take_drop k l) at 1. rewrite reverse_app.
    rewrite drop_app_length'; [done|]. rewrite length_reverse, length_drop. lia. }
  rewrite Hdr by (by rewrite length_fill_low, length_reverse).
  rewrite fill_low_take.
  assert (Ht : take k (reverse (bytes_of n v)) = reverse (bytes_of k v)).
  { rewrite <- (reverse_involutive (take k _)). f_equal.
    rewrite <- Hdr by (by rewrite length_reverse). rewrite reverse_involutive.
    by apply drop_bytes_of. }
  rewrite Ht. rewrite fill_low_val.
  - by rewrite reverse_involutive, be_combine_bytes_of.
  - apply Forall_reverse, bytes_of_octets.
  - rewrite length_reverse. unfold bytes_of. rewrite length_map, length_seq. lia.
  - by rewrite reverse_involutive, be_combine_bytes_of.
Qed.

#[global] Arguments set_host_bits : simpl never.
#[global] Arguments bytes_of : simpl never.
#[global] Arguments be_combine : simpl never.
#[global] Arguments LastAddr : simpl never.

(** The value of the last address of a well-formed prefix. *)
Lemma LastAddr_val p :
  Prefix_wf p ->
  BitLen (LastAddr p) = BitLen (pfx_addr p) /\ zoneless (LastAddr p) /\
  IsValid (LastAddr p) = true /\ Addr_wf (LastAddr p) /\
  addr_val (LastAddr p) =
    addr_val (pfx_addr (Masked p)) + 2 ^ (BitLen (pfx_addr p) - pfx_bits p) - 1.
Proof.
  intros Hp. destruct (Masked_wf p Hp) as (v & Hm & Hl & Hz & Hv & Hw & Hval).
  destruct Hp as (Hpw & Hpv & Hpz & Hb). unfold LastAddr. rewrite Hm. simpl pfx_addr.
  rewrite Hl. destruct v as [|x|x z]; [done| |].
  - simpl in Hl. rewrite <- Hl in *. simpl in *.
    pose proof (mask_val_range 32 (pfx_bits p) (addr_val (pfx_addr p)) ltac:(lia)) as Hr.
    destruct (pfx_addr p) as [|y|y z]; simpl in *; try lia.
    specialize (Hr Hpw). pose proof (mask_val_mod 32 (pfx_bits p) y ltac:(lia)) as Hmod.
    assert (Hx : (65535 * 2 ^ 32 + x) mod 256 ^ Z.of_nat 4 = x).
    { change (256 ^ Z.of_nat 4) with (2 ^ 32). rewrite Z.add_comm, Z.mod_add by lia.
      by apply Z.mod_small. }
    pose proof (set_host_bits_low 4 16 (65535 * 2 ^ 32 + x) (32 - pfx_bits p)
      ltac:(lia) ltac:(lia) ltac:(lia)) as Hs.
    rewrite Hx in Hs. change (16 - 4)%nat with 12%nat in Hs.
    rewrite Hval in Hs |- *. specialize (Hs Hmod). rewrite Hs.
    pose proof (Z.pow_pos_nonneg 2 (32 - pfx_bits p) ltac:(lia) ltac:(lia)).
    split_and!; try done; lia.
  - simpl in Hl. rewrite <- Hl in *. cbn [Is4 BitLen addr_val As16] in *.
    pose proof (mask_val_range 128 (pfx_bits p) (addr_val (pfx_addr p)) ltac:(lia)) as Hr.
    destruct (pfx_addr p) as [|y|y z']; simpl in *; try lia.
    specialize (Hr Hpw). pose proof (mask_val_mod 128 (pfx_bits p) y ltac:(lia)) as Hmod.
    assert (Hx : x mod 256 ^ Z.of_nat 16 = x).
    { replace (256 ^ Z.of_nat 16) with (2 ^ 128) by reflexivity. by apply Z.mod_small. }
    pose proof (set_host_bits_low 16 16 x (128 - pfx_bits p)
      ltac:(lia) ltac:(lia) ltac:(lia)) as Hs.
    rewrite Hx in Hs. change (16 - 16)%nat with 0%nat in Hs. rewrite drop_0 in Hs.
    rewrite Hval in Hs |- *. specialize (Hs Hmod). rewrite Hs.
    pose proof (Z.pow_pos_nonneg 2 (128 - pfx_bits p) ltac:(lia) ltac:(lia)).
    split_and!; try done; lia.
Qed.

(** ** Order lemmas for ranges *)

Lemma addr_le_trans a b c :
  zoneless a -> zoneless b -> zoneless c ->
  addr_le a b = true -> addr_le b c = true -> addr_le a c = true.
Proof.
  intros Ha Hb Hc H1 H2. apply addr_le_spec in H1; [|done|done].
  apply addr_le_spec in H2; [|done|done]. apply addr_le_spec; [done|done|]. lia.
Qed.

Lemma addr_le_total a b :
  zoneless a -> zoneless b -> addr_le a b = false -> addr_le b a = true.
Proof.
  intros Ha Hb H. destruct (addr_le b a) eqn:H'; [done|].
  exfalso. apply not_true_iff_false in H, H'. rewrite addr_le_spec in H, H' by done. lia.
Qed.

Lemma addr_lt_gt a b : zoneless a -> zoneless b -> addr_lt a b = addr_gt b a.
Proof.
  unfold addr_lt, addr_gt, Compare, zoneless. intros Ha Hb. rewrite Ha, Hb, string_compare_refl.
  rewrite (Z.compare_antisym (BitLen a) (BitLen b)), (Z.compare_antisym (addr_val a) (addr_val b)).
  destruct (Z.compare (BitLen a) (BitLen b)); simpl; [|done|done].
  by destruct (Z.compare (addr_val a) (addr_val b)).
Qed.

(** [a] is at or above the later of two bounds iff it is at or above both. *)
Lemma later_bound x y a :
  zoneless x -> zoneless y -> zoneless a ->
  addr_le (if addr_gt y x then y else x) a = addr_le x a && addr_le y a.
Proof.
  intros Hx Hy Ha. rewrite addr_gt_negb. destruct (addr_le y x) eqn:H; simpl.
  - destruct (addr_le x a) eqn:H'; [|done]. by rewrite (addr_le_trans y x a).
  - apply addr_le_total in H; [|done|done].
    destruct (addr_le y a) eqn:H'; [|by rewrite andb_false_r].
    by rewrite (addr_le_trans x y a).
Qed.

Lemma earlier_bound x y a :
  zoneless x -> zoneless y -> zoneless a ->
  addr_le a (if addr_lt y x then y else x) = addr_le a x && addr_le a y.
Proof.
  intros Hx Hy Ha. rewrite addr_lt_gt, addr_gt_negb by done.
  destruct (addr_le x y) eqn:H; simpl.
  - destruct (addr_le a x) eqn:H'; [|done]. by rewrite (addr_le_trans a x y).
  - apply addr_le_total in H; [|done|done].
    destruct (addr_le a y) eqn:H'; [|by rewrite andb_false_r].
    by rewrite (addr_le_trans a y x).
Qed.

(** Membership in a prefix, as an interval of values. *)
Lemma Contains_spec p a :
  Prefix_wf p -> zoneless a ->
  Contains p a = true <->
  BitLen a = BitLen (pfx_addr p) /\
  addr_val (pfx_addr (Masked p)) <= addr_val a <= addr_val (LastAddr p).
Proof.
  intros Hp Ha. destruct (LastAddr_val p Hp) as (_ & _ & _ & _ & Hlast).
  destruct (Masked_wf p Hp) as (v & Hm & Hl & Hz & Hv & Hw & Hval).
  rewrite Hlast, Hm. simpl pfx_addr. rewrite Hval. destruct Hp as (_ & Hpv & _ & Hb).
  unfold Contains. rewrite bool_decide_eq_true_2 by done.
  replace (0 <=? pfx_bits p) with true by lia. cbn [andb].
  destruct (BitLen (pfx_addr p) =? BitLen a) eqn:Hf; to_prop; cbn [andb].
  2: { split; [done|]. intros [Hc _]. congruence. }
  replace (IsValid a) with true.
  2: { destruct a; simpl in *; [|done|done]. destruct (pfx_addr p); simpl in *; done. }
  cbn [andb]. rewrite Z.eqb_eq, <- Hf. rewrite mask_val_eq by lia.
  split; intros; [|lia]. split; [done|]. lia.
Qed.
(** ** Properties *)

(** The range [PrefixRange] builds holds exactly the addresses of
    the prefix, for every prefix length of both families: the byte loop of
    [LastAddr] and the mask agree with [Prefix.Contains]. *)
Theorem PrefixRange_Contains (p : Prefix) (a : Addr) (Hp : Prefix_wf p) (Ha : zoneless a) :
  in_range (PrefixRange p) a = true <-> Contains p a = true.
Proof.
  pose proof (Masked_Prefix_wf p Hp) as Hmp.
  destruct (Masked_wf p Hp) as (v & Hm & Hl & Hz & Hv & Hw & Hval).
  destruct (LastAddr_val p Hp) as (Hlf & Hlz & _ & _ & Hlv).
  rewrite Contains_spec by done.
  assert (HL : LastAddr (Masked p) = LastAddr p).
  { unfold LastAddr. rewrite Masked_idemp by done. by rewrite Hm. }
  unfold in_range, PrefixRange; simpl. rewrite HL, Hm. simpl.
  rewrite andb_true_iff, !addr_le_spec by done.
  rewrite Hlf, Hl, Hlv, Hm. simpl. lia.
Qed.

Definition ex_prefix : Prefix := MkPrefix (Addr4 (192 * 2 ^ 24 + 2 * 2 ^ 8 + 5)) 24.

(** Claim C39: [Intersect] is set intersection: its result holds exactly the
    addresses both ranges hold, and it reports no result exactly when there is
    none, also across address families. *)
Theorem Intersect_spec (r other : Range)
    (Hs : zoneless (Start r)) (He : zoneless (End r))
    (Hs' : zoneless (Start other)) (He' : zoneless (End other)) :
  (forall r', Intersect r other = Some r' ->
     forall a, zoneless a -> in_range r' a = in_range r a && in_range other a) /\
  (Intersect r other = None <->
     forall a, zoneless a -> in_range r a && in_range other a = false).
Proof.
  assert (Hgen : forall a, zoneless a ->
    in_range (MkRange (if addr_gt (Start other) (Start r) then Start other else Start r)
                      (if addr_lt (End other) (End r) then End other else End r)) a =
    in_range r a && in_range other a).
  { intros a Ha. unfold in_range; simpl. rewrite later_bound, earlier_bound by done.
    by destruct (addr_le (Start r) a), (addr_le (Start other) a), (addr_le a (End r)). }
  unfold Intersect.
  set (s := if addr_gt (Start other) (Start r) then Start other else Start r) in *.
  set (e := if addr_lt (End other) (End r) then End other else End r) in *.
  assert (Hzs : zoneless s) by (unfold s; by case_match).
  assert (Hze : zoneless e) by (unfold e; by case_match).
  rewrite addr_gt_negb. destruct (addr_le s e) eqn:Hse; simpl.
  - split; [by intros r' [= <-]|]. split; [done|]. intros Hnone.
    specialize (Hnone s Hzs). rewrite <- Hgen in Hnone by done.
    unfold in_range in Hnone; simpl in Hnone. by rewrite addr_le_refl, Hse in Hnone.
  - split; [done|]. split; [|done]. intros _ a Ha. rewrite <- Hgen by done.
    unfold in_range; simpl. destruct (addr_le s a) eqn:H1; [|done].
    destruct (addr_le a e) eqn:H2; [|done]. by rewrite (addr_le_trans s a e) in Hse.
Qed.

(** 10.0.0.0-10.0.0.9 and 10.0.0.5-10.0.0.20 meet in 10.0.0.5-10.0.0.9. *)
Lemma Intersect_spec_witness :
  let r := MkRange (Addr4 167772160) (Addr4 167772169) in
  let other := MkRange (Addr4 167772165) (Addr4 167772180) in
  Intersect r other = Some (MkRange (Addr4 167772165) (Addr4 167772169)) /\
  forall a, zoneless a -> in_range (MkRange (Addr4 167772165) (Addr4 167772169)) a = in_range r a && in_range other a.
Proof.
  split; [vm_compute; reflexivity|]. apply (Intersect_spec (MkRange (Addr4 167772160) (Addr4 167772169)) (MkRange (Addr4 167772165) (Addr4 167772180)));
    vm_compute; reflexivity.
Defined.

Lemma parseIPv4Addr_sound raw a :
  parseIPv4Addr raw = Ok a -> exists v, a = Addr4 v /\ 0 <= v < 2 ^ 32.
Proof.
  unfold parseIPv4Addr. destruct (ParseAddr (TrimSpace raw)) as [x|] eqn:Hp; [|done].
  apply ParseAddr_wf in Hp as [Hw Hv]. destruct x as [|v|v z]; [discriminate Hv| |].
  - intros [= <-]. by exists v.
  - unfold Unmap. destruct (Is4In6 (Addr6 v z)); [|discriminate]. intros [= <-].
    exists (v mod 2 ^ 32). split; [reflexivity|]. apply Z.mod_pos_bound. lia.
Qed.

Lemma parseIPv4Addr_String v :
  0 <= v < 2 ^ 32 -> parseIPv4Addr (Addr_String (Addr4 v)) = Ok (Addr4 v).
Proof.
  intros Hv. unfold parseIPv4Addr. rewrite TrimSpace_id.
  - by rewrite ParseAddr_String4.
  - change (Addr_String (Addr4 v)) with (string4 v).
    eapply str_forall_impl; [apply v4_char_not_space|]. apply string4_chars. lia.
Qed.

(** [ParseIPv4Range] accepts only ordered pairs of 4-byte addresses,
    and reads back the text [Range.String] writes for a range of more than one
    address. *)
Theorem ParseIPv4Range_correct :
  (forall raw a b, ParseIPv4Range raw = Ok (a, b) ->
     exists v w, a = Addr4 v /\ b = Addr4 w /\ 0 <= v <= w /\ w < 2 ^ 32) /\
  (forall v w, 0 <= v < w -> w < 2 ^ 32 ->
     ParseIPv4Range (Range_String (MkRange (Addr4 v) (Addr4 w))) = Ok (Addr4 v, Addr4 w)).
Proof.
  split.
  - intros raw a b. unfold ParseIPv4Range, res_bind. intros H. split_match_in H.
    repeat match goal with H : parseIPv4Addr _ = Ok _ |- _ =>
      apply parseIPv4Addr_sound in H as (? & -> & ?) end.
    match goal with H : addr_gt _ _ = false |- _ => rewrite addr_gt_4 in H end.
    to_prop. eexists _, _. split_and!; (done || lia).
  - intros v w Hv Hw. unfold ParseIPv4Range, Range_String; simpl.
    rewrite decide_False by (intros [= ->]; lia).
    change (string4 v) with (Addr_String (Addr4 v)). change (string4 w) with (Addr_String (Addr4 w)).
    assert (Hnd : forall x, 0 <= x -> str_forall (fun c => negb (Ascii.eqb c "-"))
              (Addr_String (Addr4 x)) = true).
    { intros x Hx. change (Addr_String (Addr4 x)) with (string4 x).
      eapply str_forall_impl; [apply v4_char_not_dash|].
      by apply string4_chars. }
    rewrite split_on_app, split_on_none by (apply Hnd; lia).
    rewrite !parseIPv4Addr_String by lia. simpl. rewrite addr_gt_4.
    by replace (w <? v) with false by lia.
Qed.

(** [FirstAddr] returns the address after the network address for
    every prefix that has more than one address.  That includes a /31 (and an
    IPv6 /127), which the comment on the function says has no such address. *)
Theorem FirstAddr_spec (p : Prefix) (Hp : Prefix_wf p) :
  match FirstAddr p with
  | Some a => pfx_bits p < BitLen (pfx_addr p) /\ Contains p a = true /\
              addr_val a = addr_val (pfx_addr (Masked p)) + 1
  | None => pfx_bits p = BitLen (pfx_addr p)
  end.
Proof.
  pose proof (Masked_Prefix_wf p Hp) as Hmp.
  destruct (Masked_wf p Hp) as (v & Hm & Hl & Hz & Hv & Hw & Hval).
  assert (HL : LastAddr (Masked p) = LastAddr p).
  { unfold LastAddr. rewrite Masked_idemp by done. by rewrite Hm. }
  destruct (LastAddr_val p Hp) as (Hlf & Hlz & Hlv & Hlw & Hlast).
  assert (Hb : 0 <= pfx_bits p <= BitLen (pfx_addr p)) by apply Hp.
  unfold FirstAddr. rewrite Hm in *. simpl pfx_addr in *.
  set (h := BitLen (pfx_addr p) - pfx_bits p) in *.
  assert (Hh : h = 0 \/ 2 <= 2 ^ h).
  { destruct (Z.eq_dec h 0); [by left|right]. change 2 with (2 ^ 1) at 1.
    apply Z.pow_le_mono_r; lia. }
  destruct (IsValid (Next v)) eqn:Hn; simpl.
  - apply Next_val in Hn as (Hf & Hzn & Hnv & _).
    assert (Hzn' : zoneless (Next v)) by (unfold zoneless; by rewrite Hzn).
    destruct (Contains _ (Next v)) eqn:Hc; simpl.
    + apply Contains_spec in Hc; [|done|done]. rewrite HL in Hc.
      assert (addr_val (pfx_addr (Masked (MkPrefix v (pfx_bits p)))) = addr_val v) as Hmv.
      { rewrite <- Hm, Masked_idemp by done. by rewrite Hm. }
      rewrite Hmv in Hc. simpl in Hc.
      destruct Hh as [Hh|Hh]; [rewrite Hh, Z.pow_0_r in Hlast; lia|].
      split; [unfold h in Hh; destruct (Z.eq_dec h 0) as [E|]; [rewrite E in *; simpl in *; lia|lia]|].
      split; [|done]. apply Contains_spec; [done|done|]. rewrite Hm. simpl. lia.
    + destruct Hh as [Hh|Hh]; [lia|]. exfalso. apply not_true_iff_false in Hc. apply Hc.
      apply Contains_spec; [done|done|]. rewrite HL.
      assert (addr_val (pfx_addr (Masked (MkPrefix v (pfx_bits p)))) = addr_val v) as ->.
      { rewrite <- Hm, Masked_idemp by done. by rewrite Hm. }
      simpl. lia.
  - destruct Hh as [Hh|Hh]; [lia|]. exfalso.
    destruct (Next_lt v (LastAddr p)) as [Hc _]; [done..| | |done|congruence].
    + by rewrite Hlf, Hl.
    + lia.
Qed.
