(* ===== verification/AllocationRanges.v ===== *)
(** * AllocationRanges: [controller/internal/controller/allocation_ranges.go]

    The candidate address space of an AllocationPool and first-fit over it. *)

From stdpp Require Import base gmap strings list.
From Stdlib Require Import ZArith Lia.
From S2P Require Import Prelude Netip NetipFacts AddressRange.

Open Scope Z_scope.

(** ** Data *)

Record ipRange := MkIpRange { lo : Addr; hi : Addr }.

#[global] Instance ipRange_eq_dec : EqDecision ipRange.
Proof. solve_decision. Defined.

Definition ipRange_contains (r : ipRange) (addr : Addr) : bool :=
  addr_le (lo r) addr && addr_le addr (hi r).

Definition ipRange_covers (r other : ipRange) : bool :=
  ipRange_contains r (lo other) && ipRange_contains r (hi other).

Record candidateRange := MkCandidate { span : ipRange; allocatable : ipRange }.

#[global] Instance candidateRange_eq_dec : EqDecision candidateRange.
Proof. solve_decision. Defined.

(** [AllocationPoolIPRange] and [AllocationPoolIPSpec] of the API. *)
Record AllocationPoolIPRange := MkIPRange { rangeStart : string; rangeEnd : string }.

Record AllocationPoolIPSpec := MkIPSpec {
  CIDRs : list string;
  Ranges : list AllocationPoolIPRange;
  Excluded : list string;
}.

Inductive candidate_error : Type :=
| InvalidCIDR (raw : string)
| InvalidRangeStart (raw : string)
| InvalidRangeEnd (raw : string)
| RangeInvalidBound (start last : Addr)
| RangeMixedFamilies (start last : Addr)
| RangeReversed (start last : Addr).

(** ** Construction *)

Definition prefixReservesEdges (p : Prefix) : bool :=
  if BitLen (pfx_addr p) =? 32 then pfx_bits p <? 31
  else if BitLen (pfx_addr p) =? 128 then pfx_bits p <? 127
  else false.

Definition candidateRangeFromPrefix (p : Prefix) : candidateRange :=
  let p := Masked p in
  let sp := MkIpRange (pfx_addr p) (LastAddr p) in
  if negb (prefixReservesEdges p) then MkCandidate sp sp
  else MkCandidate sp (MkIpRange (Next (lo sp)) (Prev (hi sp))).

Definition candidateRangeFromBounds (start last : Addr) : result candidate_error candidateRange :=
  if negb (IsValid start) || negb (IsValid last) then Err (RangeInvalidBound start last) else
  let start := Unmap start in
  let last := Unmap last in
  if negb (BitLen start =? BitLen last) then Err (RangeMixedFamilies start last) else
  if addr_gt start last then Err (RangeReversed start last) else
  let sp := MkIpRange start last in Ok (MkCandidate sp sp).

Definition parsePrefixCandidates (raws : list string) : result candidate_error (list candidateRange) :=
  res_traverse (fun raw => match ParsePrefix raw with
                           | Err _ => Err (InvalidCIDR raw)
                           | Ok p => Ok (candidateRangeFromPrefix p)
                           end) raws.

Definition parseRangeCandidates (raws : list AllocationPoolIPRange)
  : result candidate_error (list candidateRange) :=
  res_traverse (fun raw =>
    match ParseAddr (rangeStart raw) with
    | Err _ => Err (InvalidRangeStart (rangeStart raw))
    | Ok start =>
        match ParseAddr (rangeEnd raw) with
        | Err _ => Err (InvalidRangeEnd (rangeEnd raw))
        | Ok last => candidateRangeFromBounds start last
        end
    end) raws.

Definition parsePoolCandidates (spec : AllocationPoolIPSpec)
  : result candidate_error (list candidateRange) :=
  res_bind (parsePrefixCandidates (CIDRs spec)) (fun prefixes =>
  res_bind (parseRangeCandidates (Ranges spec)) (fun ranges =>
  Ok (prefixes ++ ranges))).

(** ** Queries *)

Definition intersectCandidates (candidates filter : list candidateRange) : list candidateRange :=
  List.filter (fun f => existsb (fun c => ipRange_covers (span c) (span f)) candidates) filter.

Definition candidatesContain (candidates : list candidateRange) (addr : Addr) : bool :=
  existsb (fun c => ipRange_contains (span c) addr) candidates.

(** The inner loop of [firstFitCandidate].  [fuel] bounds the iterations; the
    loop stops by itself at a free address or at [last], and it visits a
    different address each time, so one more iteration than there are used
    addresses always suffices. *)
Inductive scan_result := Found (a : Addr) | RangeFull | OutOfFuel.

Fixpoint scanRange (fuel : nat) (used : gmap Addr string) (addr last : Addr) : scan_result :=
  match fuel with
  | O => OutOfFuel
  | S fuel' =>
      match used !! addr with
      | None => Found addr
      | Some _ => if decide (addr = last) then RangeFull
                  else scanRange fuel' used (Next addr) last
      end
  end.

Fixpoint firstFitCandidate (candidates : list candidateRange) (used : gmap Addr string) : option Addr :=
  match candidates with
  | [] => None
  | c :: rest =>
      match scanRange (S (size used)) used (lo (allocatable c)) (hi (allocatable c)) with
      | Found a => Some a
      | RangeFull | OutOfFuel => firstFitCandidate rest used
      end
  end.

(** ** Well-formed candidates *)

(** Both bounds valid, of one family, without zone, in order. *)
Definition ipRange_wf (r : ipRange) : Prop :=
  Addr_wf (lo r) /\ Addr_wf (hi r) /\ zoneless (lo r) /\ zoneless (hi r) /\
  IsValid (lo r) = true /\ BitLen (lo r) = BitLen (hi r) /\ addr_val (lo r) <= addr_val (hi r).

Definition candidate_wf (c : candidateRange) : Prop :=
  ipRange_wf (span c) /\ ipRange_wf (allocatable c) /\
  ipRange_covers (span c) (allocatable c) = true.

Lemma ipRange_contains_spec r a :
  ipRange_wf r -> zoneless a ->
  ipRange_contains r a = true <->
  BitLen a = BitLen (lo r) /\ addr_val (lo r) <= addr_val a <= addr_val (hi r).
Proof.
  intros (Hwl & Hwh & Hzl & Hzh & Hv & Hf & Hle) Ha. unfold ipRange_contains.
  rewrite andb_true_iff, !addr_le_spec by done. lia.
Qed.

Lemma ipRange_covers_trans r other a :
  ipRange_wf r -> ipRange_wf other -> zoneless a ->
  ipRange_covers r other = true -> ipRange_contains other a = true -> ipRange_contains r a = true.
Proof.
  intros Hr Ho Ha Hc Hin. unfold ipRange_covers in Hc. to_prop.
  rewrite ipRange_contains_spec in * by (done || apply Ho). lia.
Qed.

Lemma candidateRangeFromPrefix_wf p : Prefix_wf p -> candidate_wf (candidateRangeFromPrefix p).
Proof.
  intros Hp. pose proof (Masked_Prefix_wf p Hp) as Hmp.
  destruct (Masked_wf p Hp) as (v & Hm & Hl & Hz & Hv & Hw & Hval).
  destruct (LastAddr_val _ Hmp) as (Hlf & Hlz & Hlv & Hlw & Hlast).
  rewrite Masked_idemp, Hm in Hlast by done. rewrite Hm in Hlf, Hlz, Hlv, Hlw. simpl in *.
  assert (Hb : 0 <= pfx_bits p <= BitLen (pfx_addr p)) by apply Hp.
  pose proof (Z.pow_pos_nonneg 2 (BitLen v - pfx_bits p) ltac:(lia) ltac:(lia)) as Hpos.
  set (last := LastAddr (MkPrefix v (pfx_bits p))) in *.
  assert (Hspan : ipRange_wf (MkIpRange v last)).
  { unfold ipRange_wf; simpl. split_and!; try done; lia. }
  unfold candidateRangeFromPrefix. rewrite Hm. fold last. clearbody last. cbn [lo hi span allocatable].
  destruct (prefixReservesEdges _) eqn:He; cbn [negb].
  2: { unfold candidate_wf; cbn [span allocatable]. split_and!; [done..|].
       unfold ipRange_covers. rewrite !andb_true_iff.
       split; apply ipRange_contains_spec; simpl; (done || lia). }
  assert (H4 : 4 <= 2 ^ (BitLen v - pfx_bits p)).
  { change 4 with (2 ^ 2). apply Z.pow_le_mono_r; [lia|].
    unfold prefixReservesEdges in He; simpl in He.
    destruct v; simpl in *; [done| |]; to_prop; lia. }
  assert (Hn : IsValid (Next v) = true /\ Addr_wf (Next v)).
  { apply (Next_lt v last); (done || lia). }
  destruct Hn as [Hnv Hnw]. apply Next_val in Hnv as (Hnf & Hnz & Hnval & _).
  assert (Hp' : BitLen (Prev last) = BitLen last /\ zoneless (Prev last) /\
                addr_val (Prev last) = addr_val last - 1 /\ Addr_wf (Prev last)).
  { destruct v as [|x|x z], last as [|y|y z']; simpl in *; try lia;
      (destruct (y =? 0) eqn:Hy; to_prop; [lia|]; simpl; unfold zoneless in *; simpl in *;
       split_and!; (done || lia)). }
  destruct Hp' as (Hpf & Hpz & Hpv & Hpw).
  assert (Halloc : ipRange_wf (MkIpRange (Next v) (Prev last))).
  { unfold ipRange_wf, zoneless in *; simpl. split_and!; try done; try lia; try congruence.
    destruct (Next v); [simpl in Hnf; destruct v; simpl in *; done|done|done]. }
  unfold candidate_wf; cbn [span allocatable]. split_and!; [done..|].
  unfold ipRange_covers. rewrite andb_true_iff; cbn [lo hi].
  split; (apply ipRange_contains_spec; [done| |simpl; lia]); [|done].
  unfold zoneless in *. cbn [pfx_addr]. congruence.
Qed.

Lemma candidateRangeFromBounds_wf start last c :
  candidateRangeFromBounds start last = Ok c ->
  Addr_wf start -> Addr_wf last -> zoneless (Unmap start) -> zoneless (Unmap last) ->
  candidate_wf c /\ span c = allocatable c.
Proof.
  unfold candidateRangeFromBounds. intros H Hs Hl Hzs Hzl. split_match_in H.
  assert (Hu : forall a, Addr_wf a -> IsValid a = true -> Addr_wf (Unmap a) /\ IsValid (Unmap a) = true).
  { intros [|v|v z] Ha Hv; [done|done|]. unfold Unmap. case_match; [|done].
    split; [|done]. apply Z.mod_pos_bound. lia. }
  to_prop. repeat match goal with H : _ = false |- _ => apply negb_false_iff in H end.
  destruct (Hu start) as [Hsw Hsv]; [done|done|]. destruct (Hu last) as [Hlw _]; [done|done|].
  match goal with H : addr_gt _ _ = false |- _ => rewrite addr_gt_negb in H end.
  to_prop. match goal with H : addr_le _ _ = true |- _ => rename H into Hle end.
  apply addr_le_spec in Hle; [|done|done].
  assert (Hwf : ipRange_wf (MkIpRange (Unmap start) (Unmap last))).
  { unfold ipRange_wf; simpl. split_and!; (done || lia). }
  split; [|done]. unfold candidate_wf; simpl. split_and!; [done..|].
  unfold ipRange_covers. rewrite andb_true_iff.
  split; apply ipRange_contains_spec; simpl; (done || lia).
Qed.

Lemma parsePrefixCandidates_wf raws cs :
  parsePrefixCandidates raws = Ok cs -> Forall candidate_wf cs.
Proof.
  intros H%res_traverse_Ok. apply Forall_forall. intros c Hc.
  eapply Forall2_elem_of_r in H as (raw & _ & Hp); [|done]. simpl in Hp.
  destruct (ParsePrefix raw) eqn:Hparse; simplify_eq.
  by eapply candidateRangeFromPrefix_wf, ParsePrefix_wf.
Qed.

(** A range entry whose bounds carry no zone, which the AllocationPool webhook
    guarantees by accepting only IPv4 bounds. *)
Definition range_zoneless (r : AllocationPoolIPRange) : Prop :=
  forall a, ParseAddr (rangeStart r) = Ok a \/ ParseAddr (rangeEnd r) = Ok a -> zoneless (Unmap a).

Lemma parseRangeCandidates_wf raws cs :
  parseRangeCandidates raws = Ok cs -> Forall range_zoneless raws -> Forall candidate_wf cs.
Proof.
  intros H%res_traverse_Ok Hz. apply Forall_forall. intros c Hc.
  eapply Forall2_elem_of_r in H as (raw & Hraw & Hp); [|done].
  rewrite Forall_forall in Hz. specialize (Hz raw Hraw). simpl in Hp.
  destruct (ParseAddr (rangeStart raw)) eqn:Hs; [|done].
  destruct (ParseAddr (rangeEnd raw)) eqn:He; [|done].
  eapply candidateRangeFromBounds_wf in Hp as [? _]; [done|..].
  - by apply ParseAddr_wf in Hs as [? _].
  - by apply ParseAddr_wf in He as [? _].
  - apply Hz. by left.
  - apply Hz. by right.
Qed.

Lemma parsePoolCandidates_wf spec cs :
  parsePoolCandidates spec = Ok cs -> Forall range_zoneless (Ranges spec) -> Forall candidate_wf cs.
Proof.
  unfold parsePoolCandidates, res_bind. intros H Hz. split_match_in H.
  apply Forall_app_2; [by eapply parsePrefixCandidates_wf|by eapply parseRangeCandidates_wf].
Qed.

(** ** First fit *)

(** The scan, with the addresses [visited] so far: they are consecutive, used
    and different from each other. *)
Lemma scanRange_spec fuel used addr r :
  ipRange_wf r -> zoneless addr -> Addr_wf addr ->
  BitLen addr = BitLen (lo r) -> addr_val (lo r) <= addr_val addr <= addr_val (hi r) ->
  (forall b, ipRange_contains r b = true -> zoneless b -> addr_val b < addr_val addr -> is_Some (used !! b)) ->
  match scanRange fuel used addr (hi r) with
  | Found a => ipRange_contains r a = true /\ zoneless a /\ used !! a = None /\
      (forall b, ipRange_contains r b = true -> zoneless b -> addr_val b < addr_val a -> is_Some (used !! b))
  | RangeFull => forall b, ipRange_contains r b = true -> zoneless b -> is_Some (used !! b)
  | OutOfFuel => forall b, BitLen b = BitLen addr -> zoneless b ->
      addr_val addr <= addr_val b < addr_val addr + Z.of_nat fuel -> is_Some (used !! b)
  end.
Proof.
  intros Hr. revert addr.
  induction fuel as [|fuel IH]; intros addr Hz Hw Hf Hv Hprev; simpl; [lia|].
  destruct (used !! addr) as [h|] eqn:Hu.
  2: { split_and!; [|done|done|done]. by apply ipRange_contains_spec. }
  destruct (decide (addr = hi r)) as [->|Hne].
  { intros b Hb Hzb. destruct (decide (addr_val b = addr_val (hi r))) as [Heq|].
    - apply ipRange_contains_spec in Hb as [Hfb _]; [|done|done].
      replace b with (hi r); [by rewrite Hu|]. apply addr_eq_val; try done.
      by rewrite Hfb, Hf.
    - apply Hprev; [done|done|]. apply ipRange_contains_spec in Hb as [_ ?]; [lia|done|done]. }
  assert (Hlt : addr_val addr < addr_val (hi r)).
  { destruct (decide (addr_val addr = addr_val (hi r))); [|lia]. exfalso. apply Hne.
    destruct Hr as (?&?&?&?&?&?&?). apply addr_eq_val; (done || congruence). }
  assert (Hnx : IsValid (Next addr) = true /\ Addr_wf (Next addr)).
  { destruct Hr as (?&?&?&?&Hvl&?&?). apply (Next_lt addr (hi r)); try (done || congruence).
    destruct addr; [|done|done]. by destruct (lo r). }
  destruct Hnx as [Hnv Hnw]. apply Next_val in Hnv as (Hnf & Hnz & Hnval & _).
  assert (Hznx : zoneless (Next addr)) by (unfold zoneless; by rewrite Hnz).
  assert (Hpre' : forall b, ipRange_contains r b = true -> zoneless b ->
            addr_val b < addr_val (Next addr) -> is_Some (used !! b)).
  { intros b Hb Hzb Hlb. destruct (decide (addr_val b = addr_val addr)) as [Heq|].
    - apply ipRange_contains_spec in Hb as [Hfb _]; [|done|done].
      replace b with addr; [by rewrite Hu|]. apply addr_eq_val; (done || congruence).
    - apply Hprev; (done || lia). }
  specialize (IH (Next addr) Hznx Hnw ltac:(congruence) ltac:(lia) Hpre').
  destruct (scanRange fuel used (Next addr) (hi r)); [done|done|].
  intros b Hbf Hbz Hbv. destruct (decide (addr_val b = addr_val addr)) as [Heq|].
  - replace b with addr; [by rewrite Hu|]. apply addr_eq_val; (done || congruence).
  - apply IH; [congruence|done|lia].
Qed.

(** A block of [n] consecutive addresses, as a list without duplicates. *)
Definition addr_at (a : Addr) (v : Z) : Addr :=
  match a with AddrZero => AddrZero | Addr4 _ => Addr4 v | Addr6 _ z => Addr6 v z end.

(** The scan never runs out of the fuel [firstFitCandidate] gives it. *)
Lemma scanRange_enough used addr r :
  ipRange_wf r -> zoneless addr -> Addr_wf addr -> IsValid addr = true ->
  BitLen addr = BitLen (lo r) -> addr_val (lo r) <= addr_val addr <= addr_val (hi r) ->
  (forall b, ipRange_contains r b = true -> zoneless b -> addr_val b < addr_val addr -> is_Some (used !! b)) ->
  scanRange (S (size used)) used addr (hi r) <> OutOfFuel.
Proof.
  intros Hr Hz Hw Hva Hf Hv Hprev Hout.
  pose proof (scanRange_spec (S (size used)) used addr r Hr Hz Hw Hf Hv Hprev) as H.
  rewrite Hout in H.
  set (block := map (fun i => addr_at addr (addr_val addr + Z.of_nat i)) (seq 0 (S (size used)))).
  assert (Hnd : NoDup block).
  { unfold block. apply NoDup_fmap_2_strong; [|apply NoDup_seq].
    intros x y _ _ Heq. destruct addr; simpl in *; [done|injection Heq; lia|injection Heq; lia]. }
  assert (Hsub : list_to_set block ⊆ dom used).
  { intros a Ha. apply elem_of_list_to_set in Ha. unfold block in Ha.
    apply list_elem_of_fmap in Ha as (i & -> & Hi). apply elem_of_seq in Hi.
    apply elem_of_dom, H.
    - by destruct addr.
    - by destruct addr.
    - destruct addr; simpl in *; [done|lia|lia]. }
  apply subseteq_size in Hsub. rewrite size_list_to_set, size_dom in Hsub by done.
  unfold block in Hsub. rewrite length_map, length_seq in Hsub. lia.
Qed.

(** The first-fit specification: [a] is free, and every allocatable address
    before it, in candidate order and then in address order, is used. *)
Definition first_fit (candidates : list candidateRange) (used : gmap Addr string) (a : Addr) : Prop :=
  exists pre c post, candidates = pre ++ c :: post /\
    ipRange_contains (allocatable c) a = true /\ zoneless a /\ used !! a = None /\
    (forall b, ipRange_contains (allocatable c) b = true -> zoneless b ->
       addr_val b < addr_val a -> is_Some (used !! b)) /\
    (forall c' b, c' ∈ pre -> ipRange_contains (allocatable c') b = true -> zoneless b ->
       is_Some (used !! b)).

Definition all_used (candidates : list candidateRange) (used : gmap Addr string) : Prop :=
  forall c b, c ∈ candidates -> ipRange_contains (allocatable c) b = true -> zoneless b ->
    is_Some (used !! b).

Lemma firstFitCandidate_spec candidates used :
  Forall candidate_wf candidates ->
  match firstFitCandidate candidates used with
  | Some a => first_fit candidates used a
  | None => all_used candidates used
  end.
Proof.
  intros Hwf. induction Hwf as [|c cs Hc Hcs IH]; cbn [firstFitCandidate].
  { intros c b Hc. by apply elem_of_nil in Hc. }
  destruct Hc as (_ & Hal & _).
  assert (Hlo : Addr_wf (lo (allocatable c)) /\ zoneless (lo (allocatable c)) /\
                IsValid (lo (allocatable c)) = true /\
                addr_val (lo (allocatable c)) <= addr_val (hi (allocatable c))) by (unfold ipRange_wf in Hal; tauto).
  destruct Hlo as (Hlw & Hlz & Hlv & Hle).
  assert (Hprev : forall b, ipRange_contains (allocatable c) b = true -> zoneless b ->
            addr_val b < addr_val (lo (allocatable c)) -> is_Some (used !! b)).
  { intros b Hb Hzb Hlt. apply ipRange_contains_spec in Hb; [lia|done|done]. }
  pose proof (scanRange_spec (S (size used)) used _ _ Hal Hlz Hlw eq_refl ltac:(lia) Hprev) as Hs.
  pose proof (scanRange_enough used _ _ Hal Hlz Hlw Hlv eq_refl ltac:(lia) Hprev) as Hfuel.
  destruct (scanRange _ used _ _) as [a| |]; [| |done].
  - destruct Hs as (H1 & H2 & H3 & H4). exists [], c, cs. split_and!; try done.
    intros c' b Hc'. by apply elem_of_nil in Hc'.
  - destruct (firstFitCandidate cs used) as [a|].
    + destruct IH as (pre & c' & post & -> & H1 & H2 & H3 & H4 & H5).
      exists (c :: pre), c', post. split_and!; try done.
      intros c'' b [->|Hin]%elem_of_cons; [apply Hs|by apply H5].
    + intros c' b [->|Hin]%elem_of_cons; [apply Hs|by apply IH].
Qed.

Lemma candidatesContain_spec candidates a :
  candidatesContain candidates a = true <->
  exists c, c ∈ candidates /\ ipRange_contains (span c) a = true.
Proof. unfold candidatesContain. apply existsb_elem_of. Qed.

Lemma intersectCandidates_spec candidates filter f :
  f ∈ intersectCandidates candidates filter <->
  f ∈ filter /\ exists c, c ∈ candidates /\ ipRange_covers (span c) (span f) = true.
Proof.
  unfold intersectCandidates. rewrite list_elem_of_In, filter_In, existsb_elem_of.
  by rewrite list_elem_of_In.
Qed.

Lemma first_fit_in_span candidates used a :
  Forall candidate_wf candidates -> first_fit candidates used a ->
  zoneless a /\ candidatesContain candidates a = true /\ used !! a = None.
Proof.
  intros Hwf (pre & c & post & -> & Hin & Hz & Hu & _). split_and!; [done| |done].
  apply candidatesContain_spec. exists c. split; [set_solver|].
  apply Forall_app in Hwf as [_ Hwf]. inversion Hwf as [|? ? (Hs & Ha & Hc) _]; subst.
  by eapply ipRange_covers_trans.
Qed.

#[export] Hint Resolve parsePoolCandidates_wf parsePrefixCandidates_wf : juneau.

(** ** Edges of a prefix *)

Lemma addr_val_eq a b :
  zoneless a -> zoneless b -> BitLen a = BitLen b -> addr_val a = addr_val b -> a = b.
Proof. destruct a, b; unfold zoneless; simpl; intros; subst; done || congruence. Qed.

Lemma LastAddr_Masked p : Prefix_wf p -> LastAddr (Masked p) = LastAddr p.
Proof.
  intros Hp. destruct (Masked_wf p Hp) as (v & Hm & _). unfold LastAddr. rewrite Masked_idemp by done. by rewrite Hm.
Qed.

Lemma prefixReservesEdges_Masked p : Prefix_wf p -> prefixReservesEdges (Masked p) = prefixReservesEdges p.
Proof.
  intros Hp. destruct (Masked_wf p Hp) as (v & Hm & Hl & _). unfold prefixReservesEdges. rewrite Hm. cbn. by rewrite Hl.
Qed.

(** The bounds of the allocatable part. *)
Lemma allocatable_bounds p :
  Prefix_wf p ->
  let c := allocatable (candidateRangeFromPrefix p) in
  let edge := if prefixReservesEdges p then 1 else 0 in
  BitLen (lo c) = BitLen (pfx_addr p) /\ addr_val (lo c) = addr_val (pfx_addr (Masked p)) + edge /\
  addr_val (hi c) = addr_val (LastAddr p) - edge.
Proof.
  intros Hp. destruct (Masked_wf p Hp) as (v & Hm & Hl & Hzv & Hv & Hw & Hval).
  destruct (LastAddr_val p Hp) as (Hlf & Hlz & Hlv & Hlw & Hlast).
  assert (Hb : 0 <= pfx_bits p <= BitLen (pfx_addr p)) by apply Hp.
  unfold candidateRangeFromPrefix. rewrite prefixReservesEdges_Masked, LastAddr_Masked by done. rewrite Hm in *.
  cbn [pfx_addr lo hi] in *. destruct (prefixReservesEdges p) eqn:He; cbn [negb allocatable lo hi]; [|split_and!; done || lia].
  assert (H4 : 4 <= 2 ^ (BitLen (pfx_addr p) - pfx_bits p)).
  { change 4 with (2 ^ 2). apply Z.pow_le_mono_r; [lia|]. unfold prefixReservesEdges in He.
    destruct (pfx_addr p); simpl in *; [done| |]; to_prop; lia. }
  destruct (Next_lt v (LastAddr p)) as [Hnv _]; [done|done|done|done|congruence|lia|done|].
  apply Next_val in Hnv as (Hnf & _ & Hnval & _). split_and!; [congruence|done|].
  destruct (LastAddr p) as [|y|y z]; [done| |]; unfold Prev; simpl in *;
    (destruct (y =? 0) eqn:Hy; to_prop; [destruct v; simpl in *; lia|]; simpl; lia).
Qed.

(** From a CIDR of a pool exactly the addresses of the prefix may be
    handed out, less the network address and the last address when the prefix
    is larger than a point-to-point link (/31 in IPv4, /127 in IPv6), for
    every prefix length of both families. *)
Theorem prefix_allocatable (p : Prefix) (a : Addr) (Hp : Prefix_wf p) (Hz : zoneless a) :
  ipRange_contains (allocatable (candidateRangeFromPrefix p)) a = true <->
  Contains p a = true /\
  (prefixReservesEdges p = true -> a <> pfx_addr (Masked p) /\ a <> LastAddr p).
Proof.
  pose proof (candidateRangeFromPrefix_wf p Hp) as (_ & Hal & _).
  rewrite ipRange_contains_spec, Contains_spec by done.
  destruct (allocatable_bounds p Hp) as (-> & -> & ->).
  destruct (Masked_wf p Hp) as (v & Hm & Hl & Hzv & _). rewrite Hm. cbn [pfx_addr].
  destruct (LastAddr_val p Hp) as (Hlf & Hlz & _).
  destruct (prefixReservesEdges p); [|split; intros; split; done || lia].
  split.
  - intros [Hf Hr]. split; [split; [done|lia]|]. intros _. split; intros ->; lia.
  - intros [[Hf Hr] Hne]. destruct (Hne eq_refl) as [H1 H2]. split; [done|].
    assert (addr_val a <> addr_val v) by (intros Heq; apply H1; apply addr_val_eq; done || congruence).
    assert (addr_val a <> addr_val (LastAddr p)) by (intros Heq; apply H2; apply addr_val_eq; done || congruence).
    lia.
Qed.
