(* ===== verification/Kube.v ===== *)
(** * Kube: what the reconcilers use of Kubernetes

    The object metadata and conditions of the API, the errors of the client
    the code tells apart, and the library functions the reconcilers call.
    Those functions ([k8s.io/apimachinery], [k8s.io/client-go],
    [sigs.k8s.io/controller-runtime]) are not part of the repository: they
    are fields of the class [KubeLib], whose laws state their documented
    behaviour.  [kube_lib] is an instance, used to evaluate the model. *)

From stdpp Require Import base gmap strings list.
From Stdlib Require Import ZArith Lia SpecFloat.
From S2P Require Import Prelude Effects.

Open Scope Z_scope.

(** ** Metadata *)

(** An instant, in nanoseconds since the Unix epoch. *)
Definition Time := Z.
Definition Second : Z := 1000000000.
Definition Minute : Z := 60 * Second.

(** The zero [time.Time], 1 January of the year 1. *)
Definition zeroTime : Time := -62135596800 * Second.

(** [IsZero] of a [metav1.Time] pointer. *)
Definition Time_IsZero (t : option Time) : bool :=
  match t with None => true | Some t => bool_decide (t = zeroTime) end.

(** [metav1.Time] is written with a resolution of one second. *)
Definition Time_wire (t : Time) : Time := t / Second * Second.

(** [time.Time.Sub] saturates at the range of a [Duration]. *)
Definition Time_Sub (t u : Time) : Z :=
  Z.max (- 2 ^ 63) (Z.min (2 ^ 63 - 1) (t - u)).

Record ObjectMeta := MkMeta {
  Name : string;
  Namespace : string;
  UID : string;
  ResourceVersion : string;
  Generation : Z;
  Finalizers : list string;
  DeletionTimestamp : option Time;
  OwnerReferences : list string;
}.

Inductive ConditionStatus := ConditionTrue | ConditionFalse | ConditionUnknown.

Record Condition := MkCondition {
  Type_ : string;
  Status_ : ConditionStatus;
  Reason : string;
  Message : string;
  CondObservedGeneration : Z;
  LastTransitionTime : Time;
}.

#[global] Instance ObjectMeta_eq_dec : EqDecision ObjectMeta.
Proof. solve_decision. Defined.
#[global] Instance ConditionStatus_eq_dec : EqDecision ConditionStatus.
Proof. solve_decision. Defined.
#[global] Instance Condition_eq_dec : EqDecision Condition.
Proof. solve_decision. Defined.

Definition IsDeleting (m : ObjectMeta) : bool := negb (Time_IsZero (DeletionTimestamp m)).

Definition set_finalizers (m : ObjectMeta) (fs : list string) : ObjectMeta :=
  MkMeta (Name m) (Namespace m) (UID m) (ResourceVersion m) (Generation m) fs
         (DeletionTimestamp m) (OwnerReferences m).

Definition set_rv (m : ObjectMeta) (rv : string) : ObjectMeta :=
  MkMeta (Name m) (Namespace m) (UID m) rv (Generation m) (Finalizers m)
         (DeletionTimestamp m) (OwnerReferences m).

(** An object to create carries its name and nothing else. *)
Definition NewMeta (name : string) : ObjectMeta := MkMeta name "" "" "" 0 [] None [].

(** ** Errors of the API client *)

Inductive api_error :=
| NotFound                       (** [apierrors.IsNotFound] *)
| AlreadyExists                  (** [apierrors.IsAlreadyExists] *)
| Conflict                       (** [apierrors.IsConflict] *)
| Invalid                        (** refused by the schema or an admission webhook *)
| NoMatch                        (** [meta.IsNoMatchError] *)
| NotRegistered                  (** [runtime.IsNotRegisteredError] *)
| OtherError (text : string).    (** anything else, a timeout for example *)

#[global] Instance api_error_eq_dec : EqDecision api_error.
Proof. solve_decision. Defined.

Definition IgnoreNotFound {A} (a : A) (e : api_error) : result api_error A :=
  match e with NotFound => Ok a | _ => Err e end.

(** An error that is guaranteed to have changed nothing. *)
Definition rejected (e : api_error) : bool :=
  match e with OtherError _ => false | _ => true end.

(** ** Errors of the admission webhooks ([field.ErrorList]) *)

Inductive field_error :=
| FieldRequired (path : string)
| FieldInvalid (path : string) (detail : string)
| FieldInternal (path : string)
| FieldForbidden (path : string) (detail : string)
| FieldDuplicate (path : string).

#[global] Instance field_error_eq_dec : EqDecision field_error.
Proof. solve_decision. Defined.

Definition when (b : bool) (e : field_error) : list field_error := if b then [e] else [].

Lemma when_nil b e : when b e = [] <-> b = false.
Proof. by destruct b. Qed.

(** ** Retrying on conflict *)

(** Run [f], and again while it answers [Conflict] and attempts are left. *)
Fixpoint retry_steps {E A} (n : nat) (f : prog E (result api_error A))
  : prog E (result api_error A) :=
  match n with
  | O => f
  | S n' => r <- f ;; match r with Err Conflict => retry_steps n' f | r => Ret r end
  end.

Lemma wp_retry_steps {E S A} (srv : server E S) n (f : prog E (result api_error A))
    (I : S -> Prop) (Q : result api_error A -> S -> Prop) s :
  I s ->
  (forall s, I s -> wp srv f (fun r s' => Q r s' /\ (r = Err Conflict -> I s')) s) ->
  wp srv (retry_steps n f) Q s.
Proof.
  intros HI Hf. revert s HI. induction n as [|n IH]; intros s HI; simpl.
  - eapply wp_mono; [by apply Hf|]. by intros r s' [? _].
  - apply wp_bind. eapply wp_mono; [by apply Hf|]. intros [a|e] s' [HQ Hc]; [done|].
    destruct e; simpl; auto.
Qed.

Lemma wpi_retry_steps {E S A} (srv : server E S) J n (f : prog E (result api_error A))
    (I : S -> Prop) (Q : result api_error A -> S -> Prop) s :
  I s ->
  (forall s, I s -> wpi srv J f (fun r s' => Q r s' /\ (r = Err Conflict -> I s')) s) ->
  wpi srv J (retry_steps n f) Q s.
Proof.
  intros HI Hf. revert s HI. induction n as [|n IH]; intros s HI; simpl.
  - eapply wpi_mono; [by apply Hf|]. by intros r s' ? [? _].
  - apply wpi_bind. eapply wpi_mono; [by apply Hf|]. intros [a|e] s' HJ [HQ Hc]; [done|].
    destruct e; simpl; auto.
Qed.

Lemma only_retry_steps {E A} P n (f : prog E (result api_error A)) :
  only P f -> only P (retry_steps n f).
Proof.
  intros Hf. induction n as [|n IH]; simpl; [done|]. apply only_bind; [done|].
  intros [a|e]; [done|]. by destruct e.
Qed.

(** ** Library functions *)

Class KubeLib := {
  (** [controllerutil.ContainsFinalizer], [AddFinalizer], [RemoveFinalizer]. *)
  ContainsFinalizer : list string -> string -> bool;
  AddFinalizer : list string -> string -> list string;
  RemoveFinalizer : list string -> string -> list string;
  ContainsFinalizer_spec fs f : ContainsFinalizer fs f = true <-> f ∈ fs;
  AddFinalizer_spec fs f g : g ∈ AddFinalizer fs f <-> g = f \/ g ∈ fs;
  RemoveFinalizer_spec fs f g : g ∈ RemoveFinalizer fs f <-> g <> f /\ g ∈ fs;

  (** [meta.FindStatusCondition], and [meta.SetStatusCondition] at a time. *)
  FindStatusCondition : list Condition -> string -> option Condition;
  SetStatusCondition : Time -> list Condition -> Condition -> list Condition;
  FindStatusCondition_Set now cs c :
    exists c', FindStatusCondition (SetStatusCondition now cs c) (Type_ c) = Some c' /\
      Type_ c' = Type_ c /\ Status_ c' = Status_ c /\ Reason c' = Reason c /\
      Message c' = Message c /\ CondObservedGeneration c' = CondObservedGeneration c;
  FindStatusCondition_Set_ne now cs c t :
    t <> Type_ c ->
    FindStatusCondition (SetStatusCondition now cs c) t = FindStatusCondition cs t;
  (** A condition of the list is rewritten in its place, a new one is
      appended. *)
  SetStatusCondition_length now cs c :
    length (SetStatusCondition now cs c) =
    match FindStatusCondition cs (Type_ c) with Some _ => length cs | None => S (length cs) end;

  (** [retry.RetryOnConflict(retry.DefaultRetry, f)]: some number of
      attempts, each after a conflict. *)
  RetryOnConflict {E A} (f : prog E (result api_error A)) : prog E (result api_error A);
  RetryOnConflict_spec {E A} (f : prog E (result api_error A)) :
    exists n, RetryOnConflict f = retry_steps n f;

  (** [controllerutil.SetControllerReference(owner, object, scheme)]: the
      metadata of the object with the owner recorded, or an error. *)
  SetControllerReference : ObjectMeta -> ObjectMeta -> result api_error ObjectMeta;
  SetControllerReference_spec owner m m' :
    SetControllerReference owner m = Ok m' ->
    exists refs, m' = MkMeta (Name m) (Namespace m) (UID m) (ResourceVersion m) (Generation m)
                             (Finalizers m) (DeletionTimestamp m) refs;

  (** [Scheme.New] on a group, version and kind: whether the type is
      registered, and whether it implements [client.Object]. *)
  SchemeNew : string -> string -> result api_error bool;

  (** [validation.IsDNS1123Subdomain], [validation.IsDNS1123Label]: messages. *)
  IsDNS1123Subdomain : string -> list string;
  IsDNS1123Label : string -> list string;

  (** The text of an API error. *)
  error_text : api_error -> string;
}.

Section Retry.
Context `{KubeLib}.

Lemma wp_RetryOnConflict {E S A} (srv : server E S) (f : prog E (result api_error A))
  (I : S -> Prop) (Q : result api_error A -> S -> Prop) s :
  I s ->
  (forall s, I s -> wp srv f (fun r s' => Q r s' /\ (r = Err Conflict -> I s')) s) ->
  wp srv (RetryOnConflict f) Q s.
Proof. destruct (RetryOnConflict_spec f) as [n ->]. apply wp_retry_steps. Qed.

Lemma wpi_RetryOnConflict {E S A} (srv : server E S) J (f : prog E (result api_error A))
  (I : S -> Prop) (Q : result api_error A -> S -> Prop) s :
  I s ->
  (forall s, I s -> wpi srv J f (fun r s' => Q r s' /\ (r = Err Conflict -> I s')) s) ->
  wpi srv J (RetryOnConflict f) Q s.
Proof. destruct (RetryOnConflict_spec f) as [n ->]. apply wpi_retry_steps. Qed.

Lemma only_RetryOnConflict {E A} P (f : prog E (result api_error A)) :
  only P f -> only P (RetryOnConflict f).
Proof. destruct (RetryOnConflict_spec f) as [n ->]. apply only_retry_steps. Qed.

(** What holds of every attempt holds of the retried call. *)
Lemma wp_RetryOnConflict_inv {E S A} (srv : server E S) (f : prog E (result api_error A))
  (I : S -> Prop) (Q : result api_error A -> S -> Prop) s :
  I s ->
  (forall s, I s -> wp srv f (fun r s' => Q r s' /\ I s') s) ->
  wp srv (RetryOnConflict f) Q s.
Proof.
  intros HI Hf. eapply wp_RetryOnConflict; [exact HI|]. intros s' HI'.
  eapply wp_mono; [by apply Hf|]. intros r s'' [? ?]; split; auto.
Qed.
End Retry.

(** ** An instance *)

Fixpoint set_condition (now : Time) (cs : list Condition) (c : Condition) : list Condition :=
  match cs with
  | [] => [MkCondition (Type_ c) (Status_ c) (Reason c) (Message c) (CondObservedGeneration c) now]
  | c0 :: cs' =>
      if decide (Type_ c0 = Type_ c)
      then MkCondition (Type_ c) (Status_ c) (Reason c) (Message c) (CondObservedGeneration c)
             (if decide (Status_ c0 = Status_ c) then LastTransitionTime c0 else now) :: cs'
      else c0 :: set_condition now cs' c
  end.

Fixpoint find_condition (cs : list Condition) (t : string) : option Condition :=
  match cs with
  | [] => None
  | c :: cs' => if decide (Type_ c = t) then Some c else find_condition cs' t
  end.

#[global, program] Instance kube_lib : KubeLib := {
  ContainsFinalizer fs f := bool_decide (f ∈ fs);
  AddFinalizer fs f := if decide (f ∈ fs) then fs else fs ++ [f];
  RemoveFinalizer fs f := filter (fun g => g <> f) fs;
  FindStatusCondition := find_condition;
  SetStatusCondition := set_condition;
  RetryOnConflict E A f := retry_steps 4 f;
  SetControllerReference owner m :=
    Ok (MkMeta (Name m) (Namespace m) (UID m) (ResourceVersion m) (Generation m)
               (Finalizers m) (DeletionTimestamp m) (OwnerReferences m ++ [UID owner]));
  SchemeNew _ _ := Ok true;
  IsDNS1123Subdomain s := if String.eqb s "" then ["must not be empty"] else [];
  IsDNS1123Label s := if String.eqb s "" then ["must not be empty"] else [];
  error_text _ := "error";
}.
Next Obligation. intros. by rewrite bool_decide_eq_true. Qed.
Next Obligation. intros. simpl. case_decide; set_solver. Qed.
Next Obligation. intros. simpl. by rewrite list_elem_of_filter. Qed.
Next Obligation.
  intros now cs c. simpl. induction cs as [|c0 cs IH]; simpl.
  - rewrite decide_True by done. by eexists.
  - case_decide as Heq; simpl; [rewrite decide_True by done; by eexists|].
    by rewrite decide_False by done.
Qed.
Next Obligation.
  intros now cs c t Ht. simpl. induction cs as [|c0 cs IH]; simpl.
  - by rewrite decide_False by done.
  - case_decide as Heq; simpl; [|by rewrite IH].
    rewrite decide_False by done. by rewrite decide_False by congruence.
Qed.
Next Obligation.
  intros now cs c. simpl. induction cs as [|c0 cs IH]; simpl; [done|].
  case_decide as Heq; simpl; [done|]. rewrite IH. by destruct (find_condition cs (Type_ c)).
Qed.
Next Obligation. intros. by exists 4%nat. Qed.
Next Obligation. intros owner m m' [= <-]. by eexists. Qed.

(** ** Durations as seconds

    [int32(d.Seconds())]: [Seconds] adds the whole seconds and the fraction
    as [float64]s, and the conversion truncates toward zero.  The double
    arithmetic is IEEE 754 with a 53-bit significand.  A value that does not
    fit is wrapped, as the conversion on amd64 does. *)

Definition float64_of_int (z : Z) : spec_float := binary_normalize 53 1024 z 0 false.

Definition Duration_Seconds (d : Z) : spec_float :=
  SFadd 53 1024 (float64_of_int (Z.quot d Second))
    (SFdiv 53 1024 (float64_of_int (Z.rem d Second)) (float64_of_int Second)).

Definition float64_trunc (f : spec_float) : Z :=
  match f with
  | S754_finite s m e =>
      let v := if 0 <=? e then Z.pos m * 2 ^ e else Z.pos m / 2 ^ (- e) in
      if s then - v else v
  | _ => 0
  end.

Definition int32_of_seconds (d : Z) : Z := i32 (float64_trunc (Duration_Seconds d)).
