(* ===== verification/AllocationTypes.v ===== *)
(** * AllocationTypes: the allocation API and its helpers

    The three kinds of the allocation framework
    ([controller/api/v1alpha1/allocation{pool,claim,lease}_types.go]) and
    the helpers the reconcilers share
    ([controller/internal/controller/allocation_helpers.go]). *)

From stdpp Require Import base gmap strings list.
From Stdlib Require Import ZArith Lia Ascii.
From S2P Require Import Prelude Netip AllocationRanges Kube.

Open Scope Z_scope.

(** ** References *)

Record AllocationResourceReference := MkResourceRef {
  rr_APIVersion : string; rr_Kind : string; rr_Namespace : string; rr_Name : string }.

Record RetainReference := MkRetain {
  ret_APIVersion : string; ret_Kind : string; ret_Namespace : string; ret_Name : string }.

Record NetworkInterfaceIdentity := MkNIIdentity {
  ni_Namespace : string; AllocationIdentity : string; Interface : string }.

Record AllocationLeaseClaimReference := MkClaimRef { cr_Name : string; cr_UID : string }.

(** ** Values *)

Record AllocationValue := MkValue { Number : Z; IP : string }.

Definition no_value : AllocationValue := MkValue 0 "".

(** ** AllocationPool *)

Inductive AllocationType := AllocationTypeNumber | AllocationTypeIP | AllocationTypeOther (t : string).

(** The constants of the type are ["number"] and ["ip"]. *)
Definition AllocationType_of (s : string) : AllocationType :=
  if String.eqb s "number" then AllocationTypeNumber
  else if String.eqb s "ip" then AllocationTypeIP else AllocationTypeOther s.

Record AllocationPoolNumberSpec := MkNumberSpec { Min : Z; Max : Z }.

Record AllocationPoolSpec := MkPoolSpec {
  pool_Type : AllocationType;
  Strategy : string;
  pool_Number : option AllocationPoolNumberSpec;
  pool_IP : option AllocationPoolIPSpec;
}.

Record AllocationPoolStatus := MkPoolStatus {
  ps_ObservedGeneration : Z;
  AllocationVersion : Z;
  LastAllocatedNumber : Z;
  LastAllocatedIP : string;
  ps_Conditions : list Condition;
}.

Record AllocationPool := MkPool {
  pool_meta : ObjectMeta; pool_spec : AllocationPoolSpec; pool_status : AllocationPoolStatus }.

(** ** AllocationClaim *)

Record AllocationClaimSpec := MkClaimSpec {
  PoolRefs : list string;
  ResourceRef : AllocationResourceReference;
  Attribute : string;
  RequestedNumber : option Z;
  RequestedIP : option string;
  AllocationFilter : option (list string);
  ReleaseAfter : option Z;
  ReuseKey : string;
  RetainWhile : option RetainReference;
  NetworkInterface : option NetworkInterfaceIdentity;
}.

Inductive AllocationClaimPhase := ClaimPhaseNone | ClaimPhasePending | ClaimPhaseAllocated.

Record AllocationClaimStatus := MkClaimStatus {
  cs_ObservedGeneration : Z;
  cs_Conditions : list Condition;
  cs_Phase : AllocationClaimPhase;
  cs_Value : AllocationValue;
}.

Record AllocationClaim := MkClaim {
  claim_meta : ObjectMeta; claim_spec : AllocationClaimSpec; claim_status : AllocationClaimStatus }.

(** ** AllocationLease *)

Record AllocationLeaseSpec := MkLeaseSpec {
  PoolRef : string;
  Value : AllocationValue;
  ClaimRef : AllocationLeaseClaimReference;
  OwnerDeletionTimestamp : option Time;
  TTLSeconds : option Z;
  ls_RetainWhile : option RetainReference;
  ls_NetworkInterface : option NetworkInterfaceIdentity;
}.

Inductive AllocationLeasePhase :=
| LeasePhaseNone | LeasePhaseActive | LeasePhaseRetained | LeasePhaseReleased | LeasePhaseExpired.

Record AllocationLeaseStatus := MkLeaseStatus {
  lst_ObservedGeneration : Z;
  lst_Phase : AllocationLeasePhase;
  ExpiresAt : option Time;
  RetainReleasedAt : option Time;
  lst_Conditions : list Condition;
}.

Record AllocationLease := MkLease {
  lease_meta : ObjectMeta; lease_spec : AllocationLeaseSpec; lease_status : AllocationLeaseStatus }.

(** [reflect.DeepEqual] and [==] on these types. *)
#[global] Instance AllocationResourceReference_eq_dec : EqDecision AllocationResourceReference.
Proof. solve_decision. Defined.
#[global] Instance RetainReference_eq_dec : EqDecision RetainReference.
Proof. solve_decision. Defined.
#[global] Instance NetworkInterfaceIdentity_eq_dec : EqDecision NetworkInterfaceIdentity.
Proof. solve_decision. Defined.
#[global] Instance AllocationLeaseClaimReference_eq_dec : EqDecision AllocationLeaseClaimReference.
Proof. solve_decision. Defined.
#[global] Instance AllocationValue_eq_dec : EqDecision AllocationValue.
Proof. solve_decision. Defined.
#[global] Instance AllocationType_eq_dec : EqDecision AllocationType.
Proof. solve_decision. Defined.
#[global] Instance AllocationClaimPhase_eq_dec : EqDecision AllocationClaimPhase.
Proof. solve_decision. Defined.
#[global] Instance AllocationClaimStatus_eq_dec : EqDecision AllocationClaimStatus.
Proof. solve_decision. Defined.
#[global] Instance AllocationLeaseSpec_eq_dec : EqDecision AllocationLeaseSpec.
Proof. solve_decision. Defined.
#[global] Instance AllocationLeasePhase_eq_dec : EqDecision AllocationLeasePhase.
Proof. solve_decision. Defined.
#[global] Instance AllocationLeaseStatus_eq_dec : EqDecision AllocationLeaseStatus.
Proof. solve_decision. Defined.
#[global] Instance AllocationPoolStatus_eq_dec : EqDecision AllocationPoolStatus.
Proof. solve_decision. Defined.

(** ** Short names *)

Definition claim_name (c : AllocationClaim) : string := Name (claim_meta c).
Definition lease_name (l : AllocationLease) : string := Name (lease_meta l).
Definition pool_name (p : AllocationPool) : string := Name (pool_meta p).

Definition with_claim_status (c : AllocationClaim) (st : AllocationClaimStatus) : AllocationClaim :=
  MkClaim (claim_meta c) (claim_spec c) st.
Definition with_claim_finalizers (c : AllocationClaim) (fs : list string) : AllocationClaim :=
  MkClaim (set_finalizers (claim_meta c) fs) (claim_spec c) (claim_status c).
Definition with_lease_spec (l : AllocationLease) (sp : AllocationLeaseSpec) : AllocationLease :=
  MkLease (lease_meta l) sp (lease_status l).
Definition with_lease_status (l : AllocationLease) (st : AllocationLeaseStatus) : AllocationLease :=
  MkLease (lease_meta l) (lease_spec l) st.
Definition with_pool_status (p : AllocationPool) (st : AllocationPoolStatus) : AllocationPool :=
  MkPool (pool_meta p) (pool_spec p) st.

(** ** [allocation_helpers.go] *)

Definition lower (c : Ascii.ascii) : Ascii.ascii :=
  let n := Ascii.nat_of_ascii c in
  if ((65 <=? n) && (n <=? 90))%nat then Ascii.ascii_of_nat (n + 32) else c.

(** A character [allocationNameSanitizer] keeps: [a-z], [0-9], [.] and [-]. *)
Definition name_char (c : Ascii.ascii) : bool :=
  let n := Ascii.nat_of_ascii c in
  ((97 <=? n) && (n <=? 122) || (48 <=? n) && (n <=? 57) || (n =? 46) || (n =? 45))%nat.

Fixpoint string_map (f : Ascii.ascii -> Ascii.ascii) (s : string) : string :=
  match s with EmptyString => EmptyString | String c s' => String (f c) (string_map f s') end.

(** [ReplaceAllString(s, "-")]: one [-] for each run of other characters. *)
Fixpoint sanitize (in_run : bool) (s : string) : string :=
  match s with
  | EmptyString => EmptyString
  | String c s' =>
      if name_char c then String c (sanitize false s')
      else if in_run then sanitize true s' else String "-"%char (sanitize true s')
  end.

Definition is_trim (c : Ascii.ascii) : bool := (Ascii.eqb c "-"%char || Ascii.eqb c "."%char)%bool.

Fixpoint trim_left (s : string) : string :=
  match s with
  | String c s' => if is_trim c then trim_left s' else s
  | EmptyString => EmptyString
  end.

Fixpoint trim_right (s : string) : string :=
  match s with
  | EmptyString => EmptyString
  | String c s' =>
      match trim_right s' with
      | EmptyString => if is_trim c then EmptyString else String c EmptyString
      | t => String c t
      end
  end.

(** The four rewrites applied to each part of the name, on ASCII text. *)
Definition sanitizePart (s : string) : string :=
  let s := string_map lower s in
  let s := string_map (fun c => if Ascii.eqb c "."%char then "-"%char else c) s in
  let s := sanitize false s in
  trim_right (trim_left s).

Definition allocationClaimName (poolName kind namespace resourceName attribute : string) : string :=
  let ns := sanitizePart namespace in
  (sanitizePart poolName ++ "--" ++ sanitizePart kind ++ "--" ++
   (if String.eqb ns "" then "" else ns ++ "--") ++
   sanitizePart resourceName ++ "--" ++ sanitizePart attribute)%string.

Definition newAllocationClaim (poolName apiVersion kind namespace resourceName attribute : string)
  : AllocationClaim :=
  MkClaim (NewMeta (allocationClaimName poolName kind namespace resourceName attribute))
    (MkClaimSpec [poolName] (MkResourceRef apiVersion kind namespace resourceName) attribute
       None None None None "" None None)
    (MkClaimStatus 0 [] ClaimPhaseNone no_value).

Definition leaseNameFor (claim : AllocationClaim) : string :=
  if String.eqb (ReuseKey (claim_spec claim)) "" then claim_name claim
  else ReuseKey (claim_spec claim).

Definition leaseOwnedByClaim (lease : AllocationLease) (claim : AllocationClaim) : bool :=
  String.eqb (cr_Name (ClaimRef (lease_spec lease))) (claim_name claim).

Definition leaseHeldByOtherClaim (lease : AllocationLease) (claim : AllocationClaim) : bool :=
  negb (leaseOwnedByClaim lease claim) &&
  Time_IsZero (OwnerDeletionTimestamp (lease_spec lease)).

Definition retainReferenceKey (ref : RetainReference) : string :=
  (ret_APIVersion ref ++ "/" ++ ret_Kind ref ++ "/" ++ ret_Namespace ref ++ "/" ++ ret_Name ref)%string.

Definition claimReferencesPool (claim : AllocationClaim) (poolName : string) : bool :=
  existsb (String.eqb poolName) (PoolRefs (claim_spec claim)).

Definition adoptNetworkInterfaceIdentity (spec : AllocationLeaseSpec) (claim : AllocationClaim)
  : AllocationLeaseSpec :=
  match ls_NetworkInterface spec with
  | Some _ => spec
  | None => MkLeaseSpec (PoolRef spec) (Value spec) (ClaimRef spec) (OwnerDeletionTimestamp spec)
              (TTLSeconds spec) (ls_RetainWhile spec) (NetworkInterface (claim_spec claim))
  end.

Lemma claimReferencesPool_spec c p :
  claimReferencesPool c p = true <-> p ∈ PoolRefs (claim_spec c).
Proof.
  unfold claimReferencesPool. rewrite existsb_elem_of. split.
  - intros (x & Hx & He). apply String.eqb_eq in He. by subst.
  - intros Hp. exists p. by rewrite String.eqb_refl.
Qed.

Lemma leaseOwnedByClaim_spec l c :
  leaseOwnedByClaim l c = true <-> cr_Name (ClaimRef (lease_spec l)) = claim_name c.
Proof. apply String.eqb_eq. Qed.

(** A lease the claim may take: its own, or one whose holder is gone. *)
Lemma leaseHeldByOtherClaim_false l c :
  leaseHeldByOtherClaim l c = false ->
  cr_Name (ClaimRef (lease_spec l)) = claim_name c \/
  Time_IsZero (OwnerDeletionTimestamp (lease_spec l)) = false.
Proof.
  unfold leaseHeldByOtherClaim. rewrite andb_false_iff, negb_false_iff, leaseOwnedByClaim_spec.
  tauto.
Qed.
