(* ===== verification/PodNetwork.v ===== *)
(** * PodNetwork: elastic IPs, pod interfaces and the network an interface joins

    The API types of [controller/api/v1alpha1] that the ElasticIP and the
    NetworkInterface controllers share, the calls both make to the API
    server, and package [controller/internal/podnetwork], which resolves what
    a pod interface joins (a Subnet, an L2Network or an ElasticIP) to one
    view. *)

From stdpp Require Import base gmap strings list.
From Stdlib Require Import ZArith Lia Ascii.
From S2P Require Import Prelude Effects Netip Kube AllocationTypes.

Open Scope Z_scope.
Open Scope go_scope.

(** ** Text of messages *)

(** [%q] of a name that needs no escape, as the names of objects. *)
Definition quoted (s : string) : string :=
  (String "034"%char EmptyString ++ s ++ String "034"%char EmptyString)%string.

Definition empty (s : string) : bool := String.eqb s "".

(** ** Errors of the controllers *)

Inductive goerr :=
| EApi (e : api_error)                       (** an error of the client *)
| EWrap (text : string) (e : goerr)          (** [fmt.Errorf("text: %w", e)] *)
| EText (text : string)                      (** [fmt.Errorf] of a text *)
| EReconcile (reason message : string).      (** [*elasticIPReconcileError] *)

(** [apierrors.IsNotFound] looks through wrapped errors. *)
Fixpoint IsNotFound (e : goerr) : bool :=
  match e with
  | EApi NotFound => true
  | EWrap _ e => IsNotFound e
  | _ => false
  end.

Section ErrorText.
Context `{KubeLib}.

Fixpoint goerr_text (e : goerr) : string :=
  match e with
  | EApi e => error_text e
  | EWrap text e => (text ++ ": " ++ goerr_text e)%string
  | EText text => text
  | EReconcile _ message => message
  end.
End ErrorText.

(** [ctrl.Result]. *)
Record CtrlResult := MkCtrlResult { Requeue : bool; RequeueAfter : Z }.
Definition no_requeue : CtrlResult := MkCtrlResult false 0.

(** ** ElasticIP *)

Record ElasticIPSpec := MkEIPSpec { eip_ExternalNetwork : string; eip_RequestedIP : string }.

Inductive ElasticIPPhase :=
| ElasticIPPhaseNone | ElasticIPPhasePending | ElasticIPPhaseAvailable
| ElasticIPPhaseAttached | ElasticIPPhaseError.

Inductive ElasticIPStatusAttachmentKind := KindElasticIPAttachment | KindNetworkInterface.

Record ElasticIPStatusAttachment := MkStatusAttachment {
  att_Kind : ElasticIPStatusAttachmentKind; att_Name : string }.

Record ElasticIPStatus := MkEIPStatus {
  eip_ObservedGeneration : Z;
  eip_Phase : ElasticIPPhase;
  eip_Conditions : list Condition;
  eip_Address : string;
  eip_Attachment : option ElasticIPStatusAttachment;
}.

Record ElasticIP := MkElasticIP {
  eip_meta : ObjectMeta; eip_spec : ElasticIPSpec; eip_status : ElasticIPStatus }.

(** [ElasticIPAttachment]: the NAT use of an ElasticIP. *)
Record ElasticIPAttachment := MkEIPAttachment {
  eipa_meta : ObjectMeta; ElasticIPRef : string; NetworkInterfaceName : string; eipa_NodeName : string }.

(** ** NetworkInterface *)

Record NetworkInterfacePodReference := MkPodRef {
  pod_UID : string; pod_Name : string; pod_Interface : string }.

Record NetworkInterfaceSpec := MkNICSpec {
  PodRef : NetworkInterfacePodReference;
  nic_NodeName : string;
  nic_Subnet : string;
  nic_L2Network : string;
  nic_ElasticIP : string;
  nic_RequestedAddress : string;
  nic_SecurityGroups : list string;
  nic_AllocationIdentity : string;
  nic_RetainWhile : option RetainReference;
}.

Inductive NetworkInterfacePhase :=
| NetworkInterfacePhaseNone | NetworkInterfacePhasePending | NetworkInterfacePhaseAllocated
| NetworkInterfacePhaseReady | NetworkInterfacePhaseFailed.

Record NetworkRoute := MkRoute { Dst : string; GW : string; OnLink : bool; route_Table : Z }.
Record NetworkRoutingRule := MkRule { From_ : string; rule_Table : Z; Priority : Z }.
Record NetworkInterfaceEffectiveSG := MkEffectiveSG { esg_Name : string; esg_GroupID : Z }.

(** A nil slice and an empty one differ for [reflect.DeepEqual]; the controller
    builds both for the security groups, where nil is [None]. *)
Record NetworkInterfaceStatus := MkNICStatus {
  nic_Conditions : list Condition;
  nic_ObservedGeneration : Z;
  nic_Phase : NetworkInterfacePhase;
  nic_AllocationClaim : string;
  nic_Address : string;
  nic_Routes : list NetworkRoute;
  nic_Rules : list NetworkRoutingRule;
  nic_EffectiveSecurityGroups : option (list NetworkInterfaceEffectiveSG);
}.

(** [CreationTimestamp] is the field of the metadata the choice of a holder
    reads; it is set by the API server and never changes. *)
Record NetworkInterface := MkNIC {
  nic_meta : ObjectMeta;
  CreationTimestamp : Time;
  nic_spec : NetworkInterfaceSpec;
  nic_status : NetworkInterfaceStatus;
}.

Definition eip_name (e : ElasticIP) : string := Name (eip_meta e).
Definition nic_name (n : NetworkInterface) : string := Name (nic_meta n).
Definition eipa_name (a : ElasticIPAttachment) : string := Name (eipa_meta a).

(** The parts of the other objects the two controllers read; [l2_HasGateway]
    says that [spec.gateway] is set. *)
Record ExternalNetwork := MkExternalNetwork {
  xn_Name : string; xn_Type : string; xn_AddressPools : list string; xn_NetworkID : Z }.
Record AddressPool := MkAddressPool { pool_Name : string; pool_AdvertiseMode : string }.
Record Subnet := MkSubnet { subnet_Vpc : string; subnet_CIDR : string; subnet_Gateway : string }.
Record L2Network := MkL2Network {
  l2_Vpc : string; l2_CIDR : string; l2_HasGateway : bool; l2_StatusGateway : string }.
Record SecurityGroup := MkSecurityGroup { sg_Name : string; sg_Vpc : string; sg_GroupID : Z }.
Record ARPAdvertisement := MkARPAdvertisement {
  arp_meta : ObjectMeta; arp_ExternalNetwork : string; arp_Address : string; arp_NodeName : string }.
Record Pod := MkPod { k8s_pod_UID : string; k8s_pod_Deletion : option Time }.

#[global] Instance ElasticIPStatusAttachmentKind_eq_dec : EqDecision ElasticIPStatusAttachmentKind.
Proof. solve_decision. Defined.
#[global] Instance ElasticIPStatusAttachment_eq_dec : EqDecision ElasticIPStatusAttachment.
Proof. solve_decision. Defined.
#[global] Instance ElasticIPPhase_eq_dec : EqDecision ElasticIPPhase.
Proof. solve_decision. Defined.
#[global] Instance ElasticIPStatus_eq_dec : EqDecision ElasticIPStatus.
Proof. solve_decision. Defined.
#[global] Instance NetworkInterfacePhase_eq_dec : EqDecision NetworkInterfacePhase.
Proof. solve_decision. Defined.
#[global] Instance NetworkRoute_eq_dec : EqDecision NetworkRoute.
Proof. solve_decision. Defined.
#[global] Instance NetworkRoutingRule_eq_dec : EqDecision NetworkRoutingRule.
Proof. solve_decision. Defined.
#[global] Instance NetworkInterfaceEffectiveSG_eq_dec : EqDecision NetworkInterfaceEffectiveSG.
Proof. solve_decision. Defined.
#[global] Instance NetworkInterfaceStatus_eq_dec : EqDecision NetworkInterfaceStatus.
Proof. solve_decision. Defined.

Definition with_eip_status (e : ElasticIP) (st : ElasticIPStatus) : ElasticIP :=
  MkElasticIP (eip_meta e) (eip_spec e) st.
Definition with_eip_finalizers (e : ElasticIP) (fs : list string) : ElasticIP :=
  MkElasticIP (set_finalizers (eip_meta e) fs) (eip_spec e) (eip_status e).
Definition with_nic_status (n : NetworkInterface) (st : NetworkInterfaceStatus) : NetworkInterface :=
  MkNIC (nic_meta n) (CreationTimestamp n) (nic_spec n) st.
Definition with_nic_finalizers (n : NetworkInterface) (fs : list string) : NetworkInterface :=
  MkNIC (set_finalizers (nic_meta n) fs) (CreationTimestamp n) (nic_spec n) (nic_status n).

(** ** Calls

    A namespaced object is named by its namespace and its name.  The list by
    the field index [spec.elasticIP] is [listInterfacesNaming]: the interfaces
    of a namespace that name an ElasticIP ([indexNetworkInterfaceByElasticIP]).
    [createOrUpdateARP] is [controllerutil.CreateOrUpdate] with the function
    that fills the object in. *)

Inductive eip_call : Type -> Type :=
| getElasticIP (ns name : string) : eip_call (result api_error ElasticIP)
| updateElasticIP (e : ElasticIP) : eip_call (result api_error ElasticIP)
| updateElasticIPStatus (e : ElasticIP) : eip_call (result api_error ElasticIP)
| getInterface (ns name : string) : eip_call (result api_error NetworkInterface)
| updateInterface (n : NetworkInterface) : eip_call (result api_error NetworkInterface)
| updateInterfaceStatus (n : NetworkInterface) : eip_call (result api_error NetworkInterface)
| listInterfacesNaming (ns eip : string) : eip_call (result api_error (list NetworkInterface))
| listInterfaces (ns : string) : eip_call (result api_error (list NetworkInterface))
| listAllInterfaces : eip_call (result api_error (list NetworkInterface))
| listAttachments (ns : string) : eip_call (result api_error (list ElasticIPAttachment))
| listEndpointPods (ns : string) : eip_call (result api_error (list (option NetworkInterfacePodReference)))
| getClaim (name : string) : eip_call (result api_error AllocationClaim)
| createClaim (c : AllocationClaim) : eip_call (result api_error AllocationClaim)
| updateClaim (c : AllocationClaim) : eip_call (result api_error AllocationClaim)
| deleteClaim_ (c : AllocationClaim) : eip_call (result api_error unit)
| createOrUpdateARP (name : string) (mutate : ARPAdvertisement -> result goerr ARPAdvertisement)
  : eip_call (result goerr ARPAdvertisement)
| deleteARP (name : string) : eip_call (result api_error unit)
| getExternalNetwork (name : string) : eip_call (result api_error ExternalNetwork)
| getAddressPool (name : string) : eip_call (result api_error AddressPool)
| getSubnet (name : string) : eip_call (result api_error Subnet)
| getL2Network (name : string) : eip_call (result api_error L2Network)
| getSecurityGroup (name : string) : eip_call (result api_error SecurityGroup)
| getPod (ns name : string) : eip_call (result api_error Pod)
| now : eip_call Time.

(** The key the field index stores for an interface. *)
Definition elasticIPIndexKeys (n : NetworkInterface) : list string :=
  if empty (nic_ElasticIP (nic_spec n)) then [] else [nic_ElasticIP (nic_spec n)].

(** A call of the client, its error as a [goerr]. *)
Definition apiCall {A} (e : eip_call (result api_error A)) : prog eip_call (result goerr A) :=
  r <- call e ;; Ret (res_map_err EApi r).

(** ** [podnetwork/network.go] *)

Definition subnetIPAllocationPoolPrefix : string := "subnet-ip-".
Definition l2NetworkIPAllocationPoolPrefix : string := "l2network-ip-".

Inductive Kind := KindSubnet | KindL2Network | KindElasticIP.

Definition Kind_text (k : Kind) : string :=
  match k with KindSubnet => "Subnet" | KindL2Network => "L2Network" | KindElasticIP => "ElasticIP" end.

Definition SubnetAllocationPoolName (name : string) : string := (subnetIPAllocationPoolPrefix ++ name)%string.
Definition L2NetworkAllocationPoolName (name : string) : string := (l2NetworkIPAllocationPoolPrefix ++ name)%string.

Record Reference := MkReference {
  ref_Subnet : string; ref_L2Network : string; ref_ElasticIP : string; ref_Namespace : string }.

Definition InterfaceReference (n : NetworkInterface) : Reference :=
  MkReference (nic_Subnet (nic_spec n)) (nic_L2Network (nic_spec n)) (nic_ElasticIP (nic_spec n))
    (Namespace (nic_meta n)).

Definition Reference_Kind (r : Reference) : Kind :=
  if negb (empty (ref_ElasticIP r)) then KindElasticIP
  else if negb (empty (ref_L2Network r)) then KindL2Network
  else KindSubnet.

Definition Reference_Name (r : Reference) : string :=
  match Reference_Kind r with
  | KindElasticIP => ref_ElasticIP r
  | KindL2Network => ref_L2Network r
  | KindSubnet => ref_Subnet r
  end.

Definition Reference_String (r : Reference) : string :=
  (Kind_text (Reference_Kind r) ++ " " ++
   quoted (match Reference_Kind r with
           | KindElasticIP => ref_Namespace r ++ "/" ++ ref_ElasticIP r
           | _ => Reference_Name r
           end))%string.

Definition HasAllocationPool (r : Reference) : bool :=
  match Reference_Kind r with KindElasticIP => false | _ => true end.

Definition Reference_AllocationPoolName (r : Reference) : string :=
  match Reference_Kind r with
  | KindElasticIP => ""
  | KindL2Network => L2NetworkAllocationPoolName (ref_L2Network r)
  | KindSubnet => SubnetAllocationPoolName (ref_Subnet r)
  end.

Definition Reference_Validate (r : Reference) : result goerr unit :=
  let named := length (List.filter (fun name => negb (empty name)) [ref_Subnet r; ref_L2Network r; ref_ElasticIP r]) in
  if (named =? 0)%nat then Err (EText "none of a Subnet, an L2Network and an ElasticIP is named")
  else if (1 <? named)%nat then
    Err (EText ("more than one network is named: Subnet " ++ quoted (ref_Subnet r) ++ ", L2Network " ++
                quoted (ref_L2Network r) ++ ", ElasticIP " ++ quoted (ref_ElasticIP r)))
  else if negb (empty (ref_ElasticIP r)) && empty (ref_Namespace r) then
    Err (EText ("ElasticIP " ++ quoted (ref_ElasticIP r) ++ " is named without the namespace to look it up in"))
  else Ok tt.

Record ElasticIPBinding := MkBinding {
  b_Address : string;
  b_Attachment : option ElasticIPStatusAttachment;
  b_ExternalNetwork : string;
  b_NetworkID : Z;
}.

Record Network := MkNetwork {
  net_Reference : Reference;
  net_Vpc : string;
  net_CIDR : string;
  net_Gateway : string;
  net_HasGateway : bool;
  net_ElasticIP : option ElasticIPBinding;
}.

Definition HeldBy (b : ElasticIPBinding) (networkInterface : string) : bool :=
  match b_Attachment b with
  | Some a => bool_decide (att_Kind a = KindNetworkInterface) && String.eqb (att_Name a) networkInterface
  | None => false
  end.

Definition AllocatesAddresses (n : Network) : bool := negb (empty (net_CIDR n)).

Definition Network_AllocationPoolName (n : Network) : string :=
  Reference_AllocationPoolName (net_Reference n).

Definition WaitingFor (n : Network) : string :=
  match net_ElasticIP n with
  | None => ""
  | Some b =>
      if empty (b_Address b) then (Reference_String (net_Reference n) ++ " has no address yet")%string
      else if b_NetworkID b =? 0 then
        ("ExternalNetwork " ++ quoted (b_ExternalNetwork b) ++ " of " ++
         Reference_String (net_Reference n) ++ " has no network ID yet")%string
      else ""
  end.

Definition fromSubnet (ref : Reference) (s : Subnet) : Network :=
  MkNetwork ref (subnet_Vpc s) (subnet_CIDR s) (subnet_Gateway s) true None.

Definition fromL2Network (ref : Reference) (l2 : L2Network) : Network :=
  MkNetwork ref (l2_Vpc l2) (l2_CIDR l2) (l2_StatusGateway l2) (l2_HasGateway l2) None.

Definition resolveElasticIP (ref : Reference) : prog eip_call (result goerr Network) :=
  elasticIP <-? apiCall (getElasticIP (ref_Namespace ref) (ref_ElasticIP ref)) ;;
  r <- apiCall (getExternalNetwork (eip_ExternalNetwork (eip_spec elasticIP))) ;;
  match r with
  | Err e => Ret (Err (EWrap ("read the ExternalNetwork of " ++ Reference_String ref) e))
  | Ok xn =>
      Ret (Ok (MkNetwork ref "" "" "" false
        (Some (MkBinding (eip_Address (eip_status elasticIP)) (eip_Attachment (eip_status elasticIP))
                 (xn_Name xn) (xn_NetworkID xn)))))
  end.

Definition Resolve (ref : Reference) : prog eip_call (result goerr Network) :=
  match Reference_Validate ref with
  | Err e => Ret (Err e)
  | Ok _ =>
      match Reference_Kind ref with
      | KindElasticIP => resolveElasticIP ref
      | KindL2Network => l2 <-? apiCall (getL2Network (ref_L2Network ref)) ;; Ret (Ok (fromL2Network ref l2))
      | KindSubnet => s <-? apiCall (getSubnet (ref_Subnet ref)) ;; Ret (Ok (fromSubnet ref s))
      end
  end.

(** A missing network is no error. *)
Definition ResolveOptional (ref : Reference) : prog eip_call (result goerr (option Network)) :=
  r <- Resolve ref ;;
  match r with
  | Err e => if IsNotFound e then Ret (Ok None) else Ret (Err e)
  | Ok n => Ret (Ok (Some n))
  end.
