(* ===== verification/ElasticIPUse.v ===== *)
(** * ElasticIPUse: which object uses an ElasticIP

    [controller/internal/controller/elasticip_use.go]: the decision the
    ElasticIP controller takes from every object that names an ElasticIP, and
    what it guarantees: which interface is chosen, and that the two kinds of
    use exclude each other. *)

From stdpp Require Import base gmap strings list sorting.
From Stdlib Require Import ZArith Lia.
From S2P Require Import Prelude Effects Netip NetipFacts Kube AllocationTypes PodNetwork.

Open Scope Z_scope.
Open Scope go_scope.

Record elasticIPUse := MkUse {
  use_attachment : option ElasticIPStatusAttachment;
  use_nodeName : string;
  use_conflict : string;
  use_waitingFor : string;
}.

Definition string_le (a b : string) : Prop := String.leb a b = true.
#[global] Instance string_le_dec : RelDecision string_le.
Proof. intros a b. unfold string_le. apply _. Defined.

(** Quoted names, sorted and joined by commas. *)
Definition joinedNames (names : list string) : string :=
  String.concat ", " (merge_sort string_le (map quoted names)).

Definition networkInterfaceNames (interfaces : list NetworkInterface) : string :=
  joinedNames (map nic_name interfaces).

Definition elasticIPAttachmentNames (attachments : list ElasticIPAttachment) : string :=
  joinedNames (map eipa_name attachments).

(** [CreationTimestamp] first, the name within one instant. *)
Definition olderInterface (a b : NetworkInterface) : bool :=
  (CreationTimestamp a <? CreationTimestamp b) ||
  ((CreationTimestamp a =? CreationTimestamp b) && String.ltb (nic_name a) (nic_name b)).

(** The loop over a list that is not empty, as its caller ensures. *)
Definition oldestNetworkInterface (first : NetworkInterface) (rest : list NetworkInterface) : NetworkInterface :=
  fold_left (fun oldest candidate => if olderInterface candidate oldest then candidate else oldest) rest first.

Definition retainedElasticIPHolder (previous : option ElasticIPStatusAttachment)
  (interfaces : list NetworkInterface) : option NetworkInterface :=
  match previous with
  | None => None
  | Some p =>
      match att_Kind p with
      | KindElasticIPAttachment => None
      | KindNetworkInterface => List.find (fun n => String.eqb (nic_name n) (att_Name p)) interfaces
      end
  end.

Definition retainedElasticIPAttachment (previous : option ElasticIPStatusAttachment)
  (interfaces : list NetworkInterface) : option ElasticIPStatusAttachment :=
  match retainedElasticIPHolder previous interfaces with
  | None => None
  | Some _ => previous
  end.

Definition deletingInterfaces (interfaces : list NetworkInterface) : list NetworkInterface :=
  List.filter (fun n => IsDeleting (nic_meta n)) interfaces.

Definition selectElasticIPHolder (previous : option ElasticIPStatusAttachment)
  (interfaces : list NetworkInterface) : option NetworkInterface * string :=
  match retainedElasticIPHolder previous interfaces with
  | Some holder => (Some holder, ""%string)
  | None =>
      match deletingInterfaces interfaces with
      | d :: ds =>
          (None, ("waiting for NetworkInterface " ++ networkInterfaceNames (d :: ds) ++
                  ", which is being deleted, to be gone before another NetworkInterface carries the address")%string)
      | [] =>
          match interfaces with
          | first :: rest => (Some (oldestNetworkInterface first rest), ""%string)
          | [] => (None, ""%string)
          end
      end
  end.

Definition decideElasticIPUse (previous : option ElasticIPStatusAttachment)
  (attachments : list ElasticIPAttachment) (interfaces : list NetworkInterface) : elasticIPUse :=
  match attachments, interfaces with
  | _ :: _ :: _, _ => MkUse None "" "multiple ElasticIPAttachments reference this ElasticIP" ""
  | [a], _ :: _ =>
      MkUse None "" ("ElasticIPAttachment " ++ quoted (eipa_name a) ++ " and NetworkInterface " ++
        networkInterfaceNames interfaces ++
        " both use this ElasticIP; an ElasticIP is used either for NAT or directly, not both") ""
  | [a], [] => MkUse (Some (MkStatusAttachment KindElasticIPAttachment (eipa_name a))) (eipa_NodeName a) "" ""
  | [], [] => MkUse None "" "" ""
  | [], _ :: _ =>
      match selectElasticIPHolder previous interfaces with
      | (None, waitingFor) => MkUse None "" "" waitingFor
      | (Some holder, _) =>
          MkUse (Some (MkStatusAttachment KindNetworkInterface (nic_name holder)))
                (nic_NodeName (nic_spec holder)) "" ""
      end
  end.

Definition activeAttachment (elasticIP : string) (a : ElasticIPAttachment) : bool :=
  String.eqb (ElasticIPRef a) elasticIP && negb (IsDeleting (eipa_meta a)).

Definition listActiveElasticIPAttachments (ns elasticIP : string)
  : prog eip_call (result goerr (list ElasticIPAttachment)) :=
  r <- apiCall (listAttachments ns) ;;
  match r with
  | Err e => Ret (Err (EWrap ("list the ElasticIPAttachments that use ElasticIP " ++ ns ++ "/" ++ elasticIP) e))
  | Ok items => Ret (Ok (List.filter (activeAttachment elasticIP) items))
  end.

(** The requests of a watched NetworkInterface. *)
Definition mapNetworkInterfaceToElasticIP (n : NetworkInterface) : list (string * string) :=
  if empty (nic_ElasticIP (nic_spec n)) then []
  else [(Namespace (nic_meta n), nic_ElasticIP (nic_spec n))].

(** ** The order of interfaces *)

Lemma string_ltb_spec a b : String.ltb a b = true <-> String.compare a b = Lt.
Proof. unfold String.ltb. by destruct (String.compare a b). Qed.

Lemma string_ltb_irrefl a : String.ltb a a = false.
Proof. unfold String.ltb. by rewrite string_compare_refl. Qed.

Lemma string_ltb_total a b : a <> b -> String.ltb a b = true \/ String.ltb b a = true.
Proof.
  intros Hne. unfold String.ltb. rewrite (String.compare_antisym b a).
  destruct (String.compare a b) eqn:Hc; simpl; auto. by apply String.compare_eq_iff in Hc.
Qed.

Lemma string_ltb_trans a b c : String.ltb a b = true -> String.ltb b c = true -> String.ltb a c = true.
Proof.
  rewrite !string_ltb_spec. revert b c. induction a as [|x a IH]; intros [|y b] [|z c]; simpl; try done.
  unfold Ascii.compare in *.
  destruct (N.compare_spec (Ascii.N_of_ascii x) (Ascii.N_of_ascii y)) as [Hxy|Hxy|Hxy],
    (N.compare_spec (Ascii.N_of_ascii y) (Ascii.N_of_ascii z)) as [Hyz|Hyz|Hyz]; try done; intros H1 H2.
  - rewrite Hxy, Hyz, N.compare_refl. by eapply IH.
  - rewrite Hxy. by rewrite (proj2 (N.compare_lt_iff _ _) Hyz).
  - rewrite <- Hyz. by rewrite (proj2 (N.compare_lt_iff _ _) Hxy).
  - by rewrite (proj2 (N.compare_lt_iff _ _) (N.lt_trans _ _ _ Hxy Hyz)).
Qed.

Lemma olderInterface_spec a b :
  olderInterface a b = true <->
  CreationTimestamp a < CreationTimestamp b \/
  CreationTimestamp a = CreationTimestamp b /\ String.ltb (nic_name a) (nic_name b) = true.
Proof. unfold olderInterface. rewrite orb_true_iff, andb_true_iff, Z.ltb_lt, Z.eqb_eq. done. Qed.

Lemma olderInterface_irrefl a b : nic_name a = nic_name b -> CreationTimestamp a = CreationTimestamp b ->
  olderInterface a b = false.
Proof.
  intros Hn Ht. apply not_true_is_false. rewrite olderInterface_spec, Hn, Ht, string_ltb_irrefl. intros [?|[_ ?]]; [lia|done].
Qed.

Lemma olderInterface_trans a b c :
  olderInterface a b = true -> olderInterface b c = true -> olderInterface a c = true.
Proof.
  rewrite !olderInterface_spec. intros [?|[? Hn1]] [?|[? Hn2]]; [left; lia|left; lia|left; lia|].
  right. split; [lia|]. by eapply string_ltb_trans.
Qed.

Lemma olderInterface_asym a b : olderInterface a b = true -> olderInterface b a = true -> False.
Proof.
  intros Hab Hba. pose proof (olderInterface_trans _ _ _ Hab Hba) as H.
  by rewrite olderInterface_irrefl in H.
Qed.

Lemma olderInterface_total a b :
  nic_name a <> nic_name b -> olderInterface a b = true \/ olderInterface b a = true.
Proof.
  intros Hne. rewrite !olderInterface_spec.
  destruct (Z.lt_trichotomy (CreationTimestamp a) (CreationTimestamp b)) as [?|[?|?]]; [by left; left| |by right; left].
  destruct (string_ltb_total _ _ Hne); [left|right]; by right.
Qed.

(** The loop returns an element of the list that no other is older than. *)
Lemma oldestNetworkInterface_spec first rest :
  oldestNetworkInterface first rest ∈ first :: rest /\
  forall n, n ∈ first :: rest -> olderInterface n (oldestNetworkInterface first rest) = false.
Proof.
  unfold oldestNetworkInterface.
  apply (fold_left_ind _ (fun pre acc => acc ∈ first :: pre /\ forall n, n ∈ first :: pre -> olderInterface n acc = false)).
  - split; [constructor|]. intros n [->|Hn]%elem_of_cons; [by apply olderInterface_irrefl|by apply elem_of_nil in Hn].
  - intros pre x acc [Hin Hle] _. destruct (olderInterface x acc) eqn:Hx.
    + split; [set_solver|]. intros n Hn.
      assert (Hc : n = x \/ n ∈ first :: pre) by set_solver. destruct Hc as [->|Hn']; [by apply olderInterface_irrefl|].
      apply not_true_is_false. intros Hnx. specialize (Hle n Hn').
      by rewrite (olderInterface_trans _ _ _ Hnx Hx) in Hle.
    + split; [set_solver|]. intros n Hn.
      assert (Hc : n = x \/ n ∈ first :: pre) by set_solver. destruct Hc as [->|Hn']; [done|by apply Hle].
Qed.

(** ** What the decision guarantees *)

(** The status names the interface as the one that carries the address. *)
Definition named (n : NetworkInterface) : ElasticIPStatusAttachment :=
  MkStatusAttachment KindNetworkInterface (nic_name n).

(** Rule 1: the interface the status names, as long as it exists. *)
Definition retained (previous : option ElasticIPStatusAttachment) (interfaces : list NetworkInterface)
  (n : NetworkInterface) : Prop := n ∈ interfaces /\ previous = Some (named n).

(** Rules 2 and 3: nothing is retained, no interface is being deleted, and no
    other interface is older. *)
Definition elected (previous : option ElasticIPStatusAttachment) (interfaces : list NetworkInterface)
  (n : NetworkInterface) : Prop :=
  n ∈ interfaces /\ (forall m, ~ retained previous interfaces m) /\
  forall m, m ∈ interfaces -> IsDeleting (nic_meta m) = false /\ olderInterface m n = false.

Lemma retainedElasticIPHolder_Some previous l n :
  retainedElasticIPHolder previous l = Some n -> retained previous l n.
Proof.
  unfold retainedElasticIPHolder, retained, named. destruct previous as [[[] p]|]; simpl; try done.
  intros Hf. apply find_some in Hf as [Hin He]. apply String.eqb_eq in He. subst p.
  by apply list_elem_of_In in Hin.
Qed.

Lemma retainedElasticIPHolder_None previous l m :
  retainedElasticIPHolder previous l = None -> ~ retained previous l m.
Proof.
  unfold retainedElasticIPHolder, retained, named. intros Hf [Hin ->]. simpl in Hf.
  apply list_elem_of_In in Hin. pose proof (find_none _ _ Hf m Hin) as He. simpl in He.
  by rewrite String.eqb_refl in He.
Qed.

Lemma deletingInterfaces_spec l n :
  n ∈ deletingInterfaces l <-> n ∈ l /\ IsDeleting (nic_meta n) = true.
Proof. unfold deletingInterfaces. rewrite !list_elem_of_In, filter_In. done. Qed.

Lemma selectElasticIPHolder_Some previous l n w :
  selectElasticIPHolder previous l = (Some n, w) -> retained previous l n \/ elected previous l n.
Proof.
  unfold selectElasticIPHolder. destruct (retainedElasticIPHolder previous l) as [h|] eqn:Hr.
  { intros [= <- _]. left. by apply retainedElasticIPHolder_Some. }
  destruct (deletingInterfaces l) as [|d ds] eqn:Hd; [|done].
  destruct l as [|first rest]; [done|]. intros [= <- _]. right.
  destruct (oldestNetworkInterface_spec first rest) as [Hin Hold]. split_and!; [done| |].
  - intros m. by apply retainedElasticIPHolder_None.
  - intros m Hm. split; [|by apply Hold]. destruct (IsDeleting (nic_meta m)) eqn:Hdel; [|done].
    assert (Hmd : m ∈ deletingInterfaces (first :: rest)) by (by apply deletingInterfaces_spec).
    rewrite Hd in Hmd. by apply elem_of_nil in Hmd.
Qed.

(** Nothing is chosen only while an interface that names the ElasticIP is on
    its way out. *)
Lemma selectElasticIPHolder_None previous l w :
  selectElasticIPHolder previous l = (None, w) ->
  l = [] \/ w <> ""%string /\ (forall m, ~ retained previous l m) /\
  exists d, d ∈ l /\ IsDeleting (nic_meta d) = true.
Proof.
  unfold selectElasticIPHolder. destruct (retainedElasticIPHolder previous l) as [h|] eqn:Hr; [done|].
  destruct (deletingInterfaces l) as [|d ds] eqn:Hd.
  { destruct l; [by left|done]. }
  intros [= <-]. right. split_and!; [done|intros m; by apply retainedElasticIPHolder_None|].
  exists d. apply deletingInterfaces_spec. rewrite Hd. constructor.
Qed.

Lemma selectElasticIPHolder_waiting previous l n w :
  selectElasticIPHolder previous l = (Some n, w) -> w = ""%string.
Proof.
  unfold selectElasticIPHolder. destruct (retainedElasticIPHolder previous l); [by intros [= _ <-]|].
  destruct (deletingInterfaces l); [|done]. destruct l; [done|]. by intros [= _ <-].
Qed.

(** An interface is named only by one of the three rules. *)
Lemma decideElasticIPUse_interface previous attachments l name :
  use_attachment (decideElasticIPUse previous attachments l) = Some (MkStatusAttachment KindNetworkInterface name) ->
  attachments = [] /\ exists n, nic_name n = name /\ (retained previous l n \/ elected previous l n).
Proof.
  unfold decideElasticIPUse. destruct attachments as [|a [|b rest]], l as [|n l]; try done.
  destruct (selectElasticIPHolder previous (n :: l)) as [[h|] w] eqn:Hs; [|done].
  intros [= <-]. split; [done|]. exists h. split; [done|]. by eapply selectElasticIPHolder_Some.
Qed.

(** The rules are exclusive: whoever is chosen by one of them is the one. *)
Lemma selectElasticIPHolder_complete previous l n :
  retained previous l n \/ elected previous l n ->
  exists h, selectElasticIPHolder previous l = (Some h, ""%string) /\ nic_name h = nic_name n.
Proof.
  unfold selectElasticIPHolder. destruct (retainedElasticIPHolder previous l) as [h|] eqn:Hr.
  - apply retainedElasticIPHolder_Some in Hr as Hh. intros Hn. exists h. split; [done|].
    destruct Hn as [[_ Hp]|(_ & Hno & _)]; [|by destruct (Hno h)]. destruct Hh as [_ Hp']. rewrite Hp in Hp'.
    unfold named in Hp'. congruence.
  - intros [Hn|(Hin & _ & Hall)]; [by apply retainedElasticIPHolder_None with (m := n) in Hr|].
    destruct (deletingInterfaces l) as [|d ds] eqn:Hd.
    + destruct l as [|first rest]; [by apply elem_of_nil in Hin|]. eexists. split; [done|].
      destruct (oldestNetworkInterface_spec first rest) as [Hin' Hold].
      destruct (decide (nic_name (oldestNetworkInterface first rest) = nic_name n)) as [|Hne]; [done|].
      destruct (olderInterface_total _ _ Hne) as [Ho|Ho].
      * destruct (Hall _ Hin') as [_ Hf]. congruence.
      * specialize (Hold n Hin). congruence.
    + assert (Hdin : d ∈ deletingInterfaces l) by (rewrite Hd; constructor). apply deletingInterfaces_spec in Hdin as [? Hdel].
      destruct (Hall d) as [Hf _]; [done|]. congruence.
Qed.

Lemma selectElasticIPHolder_waits previous l :
  (selectElasticIPHolder previous l).2 <> ""%string <->
  (forall m, ~ retained previous l m) /\ exists d, d ∈ l /\ IsDeleting (nic_meta d) = true.
Proof.
  destruct (selectElasticIPHolder previous l) as [[h|] w] eqn:Hs; cbn.
  - rewrite (selectElasticIPHolder_waiting _ _ _ _ Hs). split; [done|]. intros (Hno & d & Hd & Hdel).
    destruct (selectElasticIPHolder_Some _ _ _ _ Hs) as [Hr|(_ & _ & Hall)]; [by destruct (Hno h)|].
    destruct (Hall d Hd). congruence.
  - split.
    + intros Hw. destruct (selectElasticIPHolder_None _ _ _ Hs) as [->|(_ & ? & ?)]; [|done].
      unfold selectElasticIPHolder in Hs. destruct (retainedElasticIPHolder previous []); by simplify_eq/=.
    + intros (_ & d & Hd & _). destruct (selectElasticIPHolder_None _ _ _ Hs) as [->|(? & _)]; [by apply elem_of_nil in Hd|done].
Qed.

(** The branches of the decision that report a conflict. *)
Ltac conflict_case :=
  split_and!; try done;
  [ split; [intros _; first [left; lia|by right]|done]
  | intros name; split; [done|]; by intros (? & ? & ? & _)
  | intros name; split; [done|]; by intros (? & _ & ? & _)
  | split; [done|]; by intros (? & _)
  | split; [by left|done] ].

(** Claim C28: the decision on the use of an ElasticIP, on every branch, as
    equivalences.  It reports a conflict exactly when more than one
    attachment, or an attachment and an interface, name the ElasticIP.  NAT use
    is published, on the node of the attachment, exactly when one attachment
    and no interface do.  Direct use by an interface is published exactly when
    no attachment names the ElasticIP and the interface is the one the status
    names already, whatever happens to the others, or, when the status names
    none of them, it is the oldest while none is being deleted; and it is
    published on the node of an interface so chosen.  It waits exactly when no
    attachment names the ElasticIP, the status names none of the interfaces and
    one of them is being deleted.  Nothing is published only in a conflict,
    while waiting, or when nothing names the ElasticIP. *)
Theorem decide_use_correct previous attachments interfaces :
  let use := decideElasticIPUse previous attachments interfaces in
  let chosen n := attachments = [] /\ (retained previous interfaces n \/ elected previous interfaces n) in
  (use_conflict use <> ""%string <->
    (2 <= length attachments)%nat \/ attachments <> [] /\ interfaces <> []) /\
  (forall name, use_attachment use = Some (MkStatusAttachment KindElasticIPAttachment name) <->
    exists a, attachments = [a] /\ interfaces = [] /\ eipa_name a = name /\ use_nodeName use = eipa_NodeName a) /\
  (forall name, use_attachment use = Some (MkStatusAttachment KindNetworkInterface name) <->
    exists n, nic_name n = name /\ chosen n) /\
  (forall name, use_attachment use = Some (MkStatusAttachment KindNetworkInterface name) ->
    exists n, nic_name n = name /\ chosen n /\ use_nodeName use = nic_NodeName (nic_spec n)) /\
  (use_waitingFor use <> ""%string <->
    attachments = [] /\ (forall m, ~ retained previous interfaces m) /\
    exists d, d ∈ interfaces /\ IsDeleting (nic_meta d) = true) /\
  (use_attachment use = None <->
    use_conflict use <> ""%string \/ use_waitingFor use <> ""%string \/ attachments = [] /\ interfaces = []).
Proof.
  intros use chosen. pose proof (selectElasticIPHolder_waits previous interfaces) as Hwait.
  pose proof (selectElasticIPHolder_complete previous interfaces) as Hcomp.
  unfold use, chosen, decideElasticIPUse.
  destruct attachments as [|a [|b rest]], interfaces as [|i l]; cbn [use_conflict use_attachment use_waitingFor use_nodeName length].
  - split_and!; try done.
    + split; [done|]. intros [?|[? ?]]; [lia|done].
    + intros name. split; [done|]. by intros (a & ? & _).
    + intros name. split; [done|]. intros (n & _ & _ & [[Hn _]|[Hn _]]); by apply elem_of_nil in Hn.
    + split; [done|]. intros (_ & _ & d & Hd & _). by apply elem_of_nil in Hd.
    + split; [auto|done].
  - destruct (selectElasticIPHolder previous (i :: l)) as [[h|] w] eqn:Hs; cbn in *.
    + pose proof (selectElasticIPHolder_Some _ _ _ _ Hs) as Hh. rewrite (selectElasticIPHolder_waiting _ _ _ _ Hs) in *.
      split_and!; try done.
      * split; [done|]. intros [?|[? ?]]; [lia|done].
      * intros name. split; [done|]. by intros (a & ? & _).
      * intros name. split; [intros [= <-]; eauto|]. intros (n & <- & _ & Hn). destruct (Hcomp n Hn) as (h' & [= <-] & ->). done.
      * intros name [= <-]. eauto.
      * rewrite Hwait. naive_solver.
      * split; [done|]. naive_solver.
    + split_and!; try done.
      * split; [done|]. intros [?|[? ?]]; [lia|done].
      * intros name. split; [done|]. by intros (a & ? & _).
      * intros name. split; [done|]. intros (n & _ & _ & Hn). by destruct (Hcomp n Hn) as (h' & ? & _).
      * rewrite Hwait. naive_solver.
      * split; [|done]. intros _. right. left. by destruct (selectElasticIPHolder_None _ _ _ Hs) as [|(? & _)].
  - split_and!; try done.
    + split; [done|]. intros [?|[? ?]]; [lia|done].
    + intros name. split; [intros [= <-]; by exists a|]. by intros (a' & [= <-] & _ & <- & _).
    + intros name. split; [done|]. by intros (n & _ & ? & _).
    + split; [done|]. by intros (? & _).
    + split; [done|]. intros [?|[?|[? _]]]; done.
  - conflict_case.
  - conflict_case.
  - conflict_case.
Qed.
