(* ===== verification/AllocationAPI.v ===== *)
(** * AllocationAPI: the calls of the allocation controllers, and admission

    [api] lists the calls the allocation reconcilers and webhooks make on
    the Kubernetes client, on the clock and on the uncached reader.  The
    admission webhooks of the three kinds follow
    ([controller/internal/webhook/v1alpha1/allocation{pool,claim,lease}_webhook.go],
    [retainreference.go], [networkinterfaceidentity.go]). *)

From stdpp Require Import base gmap strings list pretty.
From Stdlib Require Import ZArith Lia.
From S2P Require Import Prelude Effects Netip NetipFacts AddressRange AllocationRanges Kube.
From S2P Require Import AllocationTypes.

Open Scope Z_scope.

(** ** Calls

    [live] tells the uncached reader ([APIReader]) from the cached client.
    [Get] calls return the object they decode into; [Create] and [Update]
    calls return the object as the server stored it, which is what the
    client writes back into its argument. *)

Inductive api : Type -> Type :=
| GetClaim (live : bool) (name : string) : api (result api_error AllocationClaim)
| ListClaims (live : bool) : api (result api_error (list AllocationClaim))
| ListClaimsByPool (pool : string) : api (result api_error (list AllocationClaim))
| UpdateClaim (c : AllocationClaim) : api (result api_error AllocationClaim)
| UpdateClaimStatus (c : AllocationClaim) : api (result api_error AllocationClaim)
| GetLease (live : bool) (name : string) : api (result api_error AllocationLease)
| ListLeases (live : bool) : api (result api_error (list AllocationLease))
| ListLeasesByRetain (key : string) : api (result api_error (list AllocationLease))
| CreateLease (l : AllocationLease) : api (result api_error AllocationLease)
| UpdateLease (l : AllocationLease) : api (result api_error AllocationLease)
| UpdateLeaseStatus (l : AllocationLease) : api (result api_error AllocationLease)
| DeleteLease (name : string) (uid : option string) : api (result api_error unit)
| GetPool (live : bool) (name : string) : api (result api_error AllocationPool)
| UpdatePoolStatus (p : AllocationPool) : api (result api_error AllocationPool)
| GetOwner (live : bool) (ref : AllocationResourceReference) : api (result api_error unit)
| GetRetained (ref : RetainReference) : api (result api_error unit)
| Now : api Time.

(** ** [retainreference.go], [networkinterfaceidentity.go] *)

Section Webhooks.
Context `{KubeLib}.

Definition is_empty (s : string) : bool := String.eqb s "".

Definition validateRetainReference (ref : option RetainReference) (path : string) : list field_error :=
  match ref with
  | None => []
  | Some ref =>
      when (is_empty (ret_APIVersion ref)) (FieldRequired (path ++ ".apiVersion")) ++
      when (is_empty (ret_Kind ref)) (FieldRequired (path ++ ".kind")) ++
      (if is_empty (ret_Name ref) then [FieldRequired (path ++ ".name")]
        else map (FieldInvalid (path ++ ".name")) (IsDNS1123Subdomain (ret_Name ref))) ++
      (if is_empty (ret_Namespace ref) then []
        else map (FieldInvalid (path ++ ".namespace")) (IsDNS1123Label (ret_Namespace ref)))
  end.

Definition retainReferenceEqual (a b : option RetainReference) : bool :=
  match a, b with
  | Some a, Some b => bool_decide (a = b)
  | None, None => true
  | _, _ => false
  end.

Definition ValidateAllocationIdentity (identity path : string) : list field_error :=
  if is_empty identity then [] else map (FieldInvalid path) (IsDNS1123Subdomain identity).

Definition validateNetworkInterfaceIdentity (identity : option NetworkInterfaceIdentity)
  (path : string) : list field_error :=
  match identity with
  | None => []
  | Some id =>
      (if is_empty (ni_Namespace id) then [FieldRequired (path ++ ".namespace")]
        else map (FieldInvalid (path ++ ".namespace")) (IsDNS1123Label (ni_Namespace id))) ++
      (if is_empty (AllocationIdentity id) then [FieldRequired (path ++ ".allocationIdentity")]
        else ValidateAllocationIdentity (AllocationIdentity id) (path ++ ".allocationIdentity")) ++
      when (is_empty (Interface id)) (FieldRequired (path ++ ".interface"))
  end.

Definition validateNetworkInterfaceIdentityUpdate (oldIdentity newIdentity : option NetworkInterfaceIdentity)
  (path : string) : list field_error :=
  match oldIdentity, newIdentity with
  | None, _ => []
  | Some o, Some n => if decide (o = n) then [] else [FieldInvalid path "is immutable once set"]
  | Some _, None => [FieldInvalid path "is immutable once set"]
  end.

(** ** AllocationClaim *)

Definition validateAllocationClaimSpec (claim : AllocationClaim) : list field_error :=
  (if is_empty (ReuseKey (claim_spec claim)) then []
    else map (FieldInvalid "spec.reuseKey") (IsDNS1123Subdomain (ReuseKey (claim_spec claim)))) ++
  validateRetainReference (RetainWhile (claim_spec claim)) "spec.retainWhile" ++
  validateNetworkInterfaceIdentity (NetworkInterface (claim_spec claim)) "spec.networkInterface".

Definition claim_ValidateCreate (claim : AllocationClaim) : list field_error :=
  validateAllocationClaimSpec claim.

Definition claim_ValidateUpdate (oldClaim claim : AllocationClaim) : list field_error :=
  let n := claim_spec claim in
  let o := claim_spec oldClaim in
  let immutable path := FieldInvalid path "is immutable" in
  when (bool_decide (PoolRefs n <> PoolRefs o)) (immutable "spec.poolRefs") ++
  when (bool_decide (ResourceRef n <> ResourceRef o)) (immutable "spec.resourceRef") ++
  when (bool_decide (Attribute n <> Attribute o)) (immutable "spec.attribute") ++
  when (bool_decide (RequestedNumber n <> RequestedNumber o)) (immutable "spec.requestedNumber") ++
  when (bool_decide (RequestedIP n <> RequestedIP o)) (immutable "spec.requestedIP") ++
  when (bool_decide (AllocationFilter n <> AllocationFilter o)) (immutable "spec.allocationFilter") ++
  when (bool_decide (ReuseKey n <> ReuseKey o)) (immutable "spec.reuseKey") ++
  when (negb (retainReferenceEqual (RetainWhile n) (RetainWhile o))) (immutable "spec.retainWhile") ++
  validateNetworkInterfaceIdentityUpdate (NetworkInterface o) (NetworkInterface n) "spec.networkInterface" ++
  validateAllocationClaimSpec claim.

(** ** AllocationLease *)

Definition validateAllocationLeaseSpec (lease : AllocationLease) : list field_error :=
  let s := lease_spec lease in
  when (is_empty (PoolRef s)) (FieldRequired "spec.poolRef.name") ++
  when ((Number (Value s) =? 0) && is_empty (IP (Value s))) (FieldRequired "spec.value") ++
  when (negb (Number (Value s) =? 0) && negb (is_empty (IP (Value s))))
  (FieldInvalid "spec.value" "number and ip are mutually exclusive") ++
  when (is_empty (cr_Name (ClaimRef s))) (FieldRequired "spec.claimRef.name") ++
  when (is_empty (cr_UID (ClaimRef s))) (FieldRequired "spec.claimRef.uid") ++
  validateRetainReference (ls_RetainWhile s) "spec.retainWhile" ++
  validateNetworkInterfaceIdentity (ls_NetworkInterface s) "spec.networkInterface".

Definition lease_ValidateCreate (lease : AllocationLease) : list field_error :=
  validateAllocationLeaseSpec lease.

Definition lease_ValidateUpdate (old lease : AllocationLease) : list field_error :=
  when (bool_decide (PoolRef (lease_spec lease) <> PoolRef (lease_spec old)))
  (FieldInvalid "spec.poolRef.name" "is immutable") ++
  when (bool_decide (Value (lease_spec lease) <> Value (lease_spec old)))
  (FieldInvalid "spec.value" "is immutable") ++
  validateNetworkInterfaceIdentityUpdate (ls_NetworkInterface (lease_spec old))
  (ls_NetworkInterface (lease_spec lease)) "spec.networkInterface" ++
  validateAllocationLeaseSpec lease.

(** ** AllocationPool *)

(** [AllocationPoolCustomDefaulter.Default] on the two defaulted fields. *)
Definition pool_Default (t strategy : string) : string * string :=
  (if is_empty t then "number"%string else t,
    if is_empty strategy then "firstFit"%string else strategy).

Definition parseAllocationPoolIPBound (raw : string) : result string Addr :=
  match ParseAddr raw with
  | Err _ => Err "invalid IP"%string
  | Ok addr =>
      let addr := Unmap addr in
      if negb (Is4 addr) then Err "only IPv4 is supported"%string else Ok addr
  end.

Definition validateAllocationPoolIPRange (path : string) (entry : AllocationPoolIPRange)
  : list field_error :=
  match parseAllocationPoolIPBound (rangeStart entry), parseAllocationPoolIPBound (rangeEnd entry) with
  | Ok start, Ok last =>
      when (addr_gt start last) (FieldInvalid path "range start must be less than or equal to range end")
  | rs, re =>
      match rs with Err m => [FieldInvalid (path ++ ".start") m] | Ok _ => [] end ++
      match re with Err m => [FieldInvalid (path ++ ".end") m] | Ok _ => [] end
  end.

Definition index_path (path : string) (i : nat) : string :=
  (path ++ "[" ++ pretty i ++ "]")%string.

Definition validateAllocationPoolFields (pool : AllocationPoolSpec) : list field_error :=
  match pool_Type pool with
  | AllocationTypeNumber =>
      match pool_Number pool with
      | None => [FieldRequired "spec.number"]
      | Some n =>
          when (Max n <? Min n) (FieldInvalid "spec.number.min" "must be less than or equal to spec.number.max") ++
          match pool_IP pool with
          | Some _ => [FieldInvalid "spec.ip" "is not supported for type=number"] | None => [] end
      end
  | AllocationTypeIP =>
      match pool_IP pool with
      | None => [FieldRequired "spec.ip"]
      | Some ip =>
          when (bool_decide (CIDRs ip = []) && Nat.eqb (length (Ranges ip)) 0) (FieldRequired "spec.ip") ++
          concat (imap (fun i raw => match ParsePrefix raw with
          | Err _ => [FieldInvalid (index_path "spec.ip.cidrs" i) "invalid CIDR"]
          | Ok _ => [] end) (CIDRs ip)) ++
          concat (imap (fun i e => validateAllocationPoolIPRange (index_path "spec.ip.ranges" i) e)
            (Ranges ip)) ++
          concat (imap (fun i raw => match ParseAddr raw with
          | Err _ => [FieldInvalid (index_path "spec.ip.excluded" i) "invalid IP"]
          | Ok _ => [] end) (Excluded ip)) ++
          match pool_Number pool with
          | Some _ => [FieldInvalid "spec.number" "is not supported for type=ip"] | None => [] end
      end
  | AllocationTypeOther _ =>
      match pool_Number pool with
      | Some _ => [FieldInvalid "spec.number" "is not supported for this type"] | None => [] end ++
      match pool_IP pool with
      | Some _ => [FieldInvalid "spec.ip" "is not supported for this type"] | None => [] end
  end.

Definition pool_ValidateCreate (pool : AllocationPool) : list field_error :=
  validateAllocationPoolFields (pool_spec pool).

Definition pool_ValidateUpdate (oldPool pool : AllocationPool) : list field_error :=
  let n := pool_spec pool in
  let o := pool_spec oldPool in
  let immutable path := FieldInvalid path "is immutable" in
  when (bool_decide (pool_Type n <> pool_Type o)) (immutable "spec.type") ++
  when (bool_decide (Strategy n <> Strategy o)) (immutable "spec.strategy") ++
  match pool_Number n, pool_Number o with
  | Some nn, Some no =>
      when (negb (Min nn =? Min no)) (immutable "spec.number.min") ++
      when (negb (Max nn =? Max no)) (immutable "spec.number.max")
  | None, None => []
  | _, _ => [immutable "spec.number"]
  end ++
  validateAllocationPoolFields n.

(** A pool that a live claim names cannot be deleted. *)
Definition pool_ValidateDelete (pool : AllocationPool) : prog api (result api_error (option string)) :=
  claims <-? call (ListClaims true) ;;
  Ret (Ok (claim_name <$>
    List.find (fun c => bool_decide (DeletionTimestamp (claim_meta c) = None) &&
      existsb (String.eqb (pool_name pool)) (PoolRefs (claim_spec c))) claims)).
End Webhooks.

(** ** What admission guarantees *)

Section Admission.
Context `{KubeLib}.

Lemma lease_ValidateUpdate_nil old l :
  lease_ValidateUpdate old l = [] ->
  PoolRef (lease_spec l) = PoolRef (lease_spec old) /\
  Value (lease_spec l) = Value (lease_spec old) /\
  validateAllocationLeaseSpec l = [].
Proof.
  unfold lease_ValidateUpdate. intros Hn.
  apply app_eq_nil in Hn as [H1 Hn]. apply app_eq_nil in Hn as [H2 Hn].
  apply app_eq_nil in Hn as [_ H3].
  apply when_nil, bool_decide_eq_false, dec_stable in H1.
  apply when_nil, bool_decide_eq_false, dec_stable in H2. done.
Qed.

Lemma validateAllocationLeaseSpec_holder l :
  validateAllocationLeaseSpec l = [] -> cr_Name (ClaimRef (lease_spec l)) <> ""%string.
Proof.
  unfold validateAllocationLeaseSpec. intros Hn.
  do 3 apply app_eq_nil in Hn as [_ Hn]. apply app_eq_nil in Hn as [Hn _].
  apply when_nil in Hn. unfold is_empty in Hn. by apply String.eqb_neq in Hn.
Qed.

Lemma claim_ValidateUpdate_nil old c :
  claim_ValidateUpdate old c = [] ->
  PoolRefs (claim_spec c) = PoolRefs (claim_spec old) /\
  ReuseKey (claim_spec c) = ReuseKey (claim_spec old).
Proof.
  unfold claim_ValidateUpdate. intros Hn. apply app_eq_nil in Hn as [H1 Hn].
  do 5 apply app_eq_nil in Hn as [_ Hn]. apply app_eq_nil in Hn as [H2 _].
  apply when_nil, bool_decide_eq_false, dec_stable in H1.
  apply when_nil, bool_decide_eq_false, dec_stable in H2. done.
Qed.

Lemma concat_imap_nil {A B} (f : nat -> A -> list B) l x :
  concat (imap f l) = [] -> x ∈ l -> exists i, f i x = [].
Proof.
  revert f. induction l as [|y l IH]; intros f Hc Hx; [by apply elem_of_nil in Hx|].
  simpl in Hc. apply app_eq_nil in Hc as [Hy Hc].
  apply elem_of_cons in Hx as [->|Hx]; [by exists 0%nat|].
  destruct (IH (f ∘ S) Hc Hx) as [i Hi]. by exists (S i).
Qed.

Lemma parseAllocationPoolIPBound_Ok raw a :
  parseAllocationPoolIPBound raw = Ok a ->
  exists b, ParseAddr raw = Ok b /\ a = Unmap b /\ exists v, a = Addr4 v.
Proof.
  unfold parseAllocationPoolIPBound. intros Hp. destruct (ParseAddr raw) as [b|]; [|done].
  destruct (Unmap b) as [|v|] eqn:Hu; simpl in Hp; [done| |done].
  injection Hp as <-. exists b. rewrite Hu. eauto.
Qed.

Lemma validateAllocationPoolIPRange_nil path e :
  validateAllocationPoolIPRange path e = [] ->
  range_zoneless e /\
  exists start last c, ParseAddr (rangeStart e) = Ok start /\ ParseAddr (rangeEnd e) = Ok last /\
  candidateRangeFromBounds start last = Ok c.
Proof.
  unfold validateAllocationPoolIPRange. intros Hn.
  destruct (parseAllocationPoolIPBound (rangeStart e)) as [a|] eqn:Ha;
    [|by destruct (parseAllocationPoolIPBound (rangeEnd e))].
  destruct (parseAllocationPoolIPBound (rangeEnd e)) as [b|] eqn:Hb; [|done].
  apply parseAllocationPoolIPBound_Ok in Ha as (a0 & Ha & -> & v & Hv).
  apply parseAllocationPoolIPBound_Ok in Hb as (b0 & Hb & -> & w & Hw).
  apply when_nil in Hn. split.
  - intros x [Hx|Hx]; [rewrite Ha in Hx|rewrite Hb in Hx]; injection Hx as <-;
    [by rewrite Hv|by rewrite Hw].
  - exists a0, b0. unfold candidateRangeFromBounds. rewrite Hn.
    destruct (ParseAddr_wf _ _ Ha) as [_ ->], (ParseAddr_wf _ _ Hb) as [_ ->].
    rewrite Hv, Hw. simpl. eauto.
Qed.

(** An admitted pool has a candidate space, whatever field of it is set. *)
Lemma validateAllocationPoolFields_candidates pool ip :
  validateAllocationPoolFields pool = [] -> pool_IP pool = Some ip ->
  exists cs, parsePoolCandidates ip = Ok cs /\ cs <> [] /\ Forall candidate_wf cs.
Proof.
  unfold validateAllocationPoolFields. intros Hn Hip. rewrite Hip in Hn.
  destruct (pool_Type pool); [| |by destruct (pool_Number pool)].
  { destruct (pool_Number pool); [|done]. by apply app_eq_nil in Hn as [_ ?]. }
  apply app_eq_nil in Hn as [Hne Hn]. apply app_eq_nil in Hn as [Hc Hn].
  apply app_eq_nil in Hn as [Hr _]. apply when_nil in Hne.
  assert (Hz : Forall range_zoneless (Ranges ip)).
  { apply Forall_forall. intros e He. destruct (concat_imap_nil _ _ _ Hr He) as [i Hi].
    by apply validateAllocationPoolIPRange_nil in Hi as [? _]. }
  assert (Hp : exists ps, parsePrefixCandidates (CIDRs ip) = Ok ps).
  { destruct (parsePrefixCandidates (CIDRs ip)) as [ps|e] eqn:He; [by exists ps|].
    apply res_traverse_Err in He as (pre & raw & post & Heq & He & _).
    destruct (concat_imap_nil _ _ raw Hc ltac:(rewrite Heq; set_solver)) as [i Hi].
    simpl in He. by destruct (ParsePrefix raw). }
  assert (Hq : exists qs, parseRangeCandidates (Ranges ip) = Ok qs).
  { destruct (parseRangeCandidates (Ranges ip)) as [qs|e] eqn:He; [by exists qs|].
    apply res_traverse_Err in He as (pre & raw & post & Heq & He & _).
    destruct (concat_imap_nil _ _ raw Hr ltac:(rewrite Heq; set_solver)) as [i Hi].
    apply validateAllocationPoolIPRange_nil in Hi as (_ & a & b & c & Ha & Hb & Hcc).
    simpl in He. rewrite Ha, Hb, Hcc in He. done. }
  destruct Hp as [ps Hps], Hq as [qs Hqs].
  assert (Hok : parsePoolCandidates ip = Ok (ps ++ qs)).
  { unfold parsePoolCandidates. by rewrite Hps, Hqs. }
  exists (ps ++ qs). split_and!; [done| |by eapply parsePoolCandidates_wf].
  intros [-> ->]%app_eq_nil. apply res_traverse_Ok in Hps. apply res_traverse_Ok in Hqs.
  apply Forall2_length in Hps. apply Forall2_length in Hqs.
  destruct (CIDRs ip); [|done]. by destruct (Ranges ip).
Qed.
End Admission.
