(* ===== verification/AllocationClaimReconciler.v ===== *)
(** * AllocationClaimReconciler

    [controller/internal/controller/allocationclaim_controller.go]: every
    function of the reconciler, as programs over the calls of
    [AllocationAPI].  Messages of conditions are built by [fmt] from the
    error; their wording is the parameter [claim_error_text]. *)

From stdpp Require Import base gmap strings list.
From Stdlib Require Import ZArith Lia.
From S2P Require Import Prelude Effects Netip NetipFacts NetipText AddressRange AllocationRanges.
From S2P Require Import Kube AllocationTypes AllocationAPI.

Open Scope Z_scope.

Definition allocationClaimFinalizer : string := "allocationclaim.juneau.loutres.me/lease".
Definition allocationClaimReasonAllocated : string := "Allocated".
Definition allocationClaimReasonPending : string := "Pending".
Definition allocationClaimReasonFailed : string := "AllocationFailed".
Definition ReadyCondition : string := "Ready".

Record allocationResult := MkResult { res_pool : string; res_number : Z; res_ip : string }.

Definition result_value (r : allocationResult) : AllocationValue := MkValue (res_number r) (res_ip r).

(** The errors of [allocate] and [ensureOwnerExists]. *)
Inductive claim_error :=
| EAPI (e : api_error)
| EAllPoolsExhausted
| EPoolNotFound (pool : string)
| EUnsupportedType (pool : string) (t : AllocationType)
| ENumberSpecNil (pool : string)
| EIPSpecNil (pool : string)
| ENumberOutside (n : Z) (pool : string)
| ENumberTaken (n : Z) (holder : string)
| ECandidates (pool : string) (e : candidate_error)
| EFilter (claim : string) (e : candidate_error)
| EIPInvalid (ip : string)
| EIPOutside (ip pool : string)
| EIPTaken (ip holder : string)
| EListClaims (pool : string) (e : api_error)
| EListLeases (pool : string) (e : api_error)
| EOwnerType (kind name : string) (e : api_error)
| EOwnerNotObject (kind : string)
| EOwnerNotFound (kind name : string).

(** ** Used values *)

(** The claims and leases that reserve something in a pool, other than the
    claim and the lease that belong to the caller. *)
Definition claim_counts (poolName selfClaimName : string) (c : AllocationClaim) : bool :=
  negb (String.eqb (claim_name c) selfClaimName) && claimReferencesPool c poolName &&
  bool_decide (cs_Phase (claim_status c) = ClaimPhaseAllocated).

Definition lease_counts (poolName selfLeaseName : string) (l : AllocationLease) : bool :=
  String.eqb (PoolRef (lease_spec l)) poolName && negb (String.eqb (lease_name l) selfLeaseName).

Definition used_numbers_claims (poolName selfClaimName : string) (claims : list AllocationClaim)
  : gmap Z string :=
  fold_left (fun used c =>
    if claim_counts poolName selfClaimName c && negb (Number (cs_Value (claim_status c)) =? 0)
    then <[Number (cs_Value (claim_status c)) := claim_name c]> used else used) claims ∅.

Definition used_numbers_leases (poolName selfLeaseName : string) (used : gmap Z string)
    (leases : list AllocationLease) : gmap Z string :=
  fold_left (fun used l =>
    if lease_counts poolName selfLeaseName l && negb (Number (Value (lease_spec l)) =? 0)
    then match used !! Number (Value (lease_spec l)) with
         | Some _ => used
         | None => <[Number (Value (lease_spec l)) := ("lease/" ++ lease_name l)%string]> used
         end
    else used) leases used.

Definition usedPoolIPs (poolName selfClaimName selfLeaseName : string)
    (claims : list AllocationClaim) (leases : list AllocationLease) : gmap Addr string :=
  let used := fold_left (fun used c =>
    if claim_counts poolName selfClaimName c && negb (is_empty (IP (cs_Value (claim_status c))))
    then match ParseAddr (IP (cs_Value (claim_status c))) with
         | Err _ => used
         | Ok addr => <[addr := claim_name c]> used
         end
    else used) claims ∅ in
  fold_left (fun used l =>
    if lease_counts poolName selfLeaseName l && negb (is_empty (IP (Value (lease_spec l))))
    then match ParseAddr (IP (Value (lease_spec l))) with
         | Err _ => used
         | Ok addr => match used !! addr with
                      | Some _ => used
                      | None => <[addr := ("lease/" ++ lease_name l)%string]> used
                      end
         end
    else used) leases used.

(** The [for candidate := Min; candidate <= Max; candidate++] loop on
    [uint64]; [fuel] bounds the iterations. *)
Inductive number_scan := NumberFound (n : Z) | NumbersFull | NumbersOutOfFuel.

Fixpoint scanNumbers (fuel : nat) (used : gmap Z string) (candidate max : Z) : number_scan :=
  match fuel with
  | O => NumbersOutOfFuel
  | S fuel' =>
      if candidate <=? max then
        match used !! candidate with
        | None => NumberFound candidate
        | Some _ => scanNumbers fuel' used (u64 (candidate + 1)) max
        end
      else NumbersFull
  end.

Definition firstFreeNumber (used : gmap Z string) (n : AllocationPoolNumberSpec) : option Z :=
  match scanNumbers (S (size used)) used (Min n) (Max n) with
  | NumberFound c => Some c
  | _ => None
  end.

(** The decision of [allocateNumber] once the used numbers are known. *)
Definition pickNumber (poolName : string) (spec : AllocationPoolNumberSpec)
    (requested : option Z) (used : gmap Z string) : result claim_error Z :=
  match requested with
  | Some n =>
      if (n <? Min spec) || (Max spec <? n) then Err (ENumberOutside n poolName) else
      match used !! n with
      | Some holder => Err (ENumberTaken n holder)
      | None => Ok n
      end
  | None =>
      match firstFreeNumber used spec with
      | Some n => Ok n
      | None => Err EAllPoolsExhausted
      end
  end.

(** The candidate space of [allocateIP]. *)
Definition claimCandidates (poolName : string) (spec : AllocationPoolIPSpec) (claim : AllocationClaim)
  : result claim_error (list candidateRange) :=
  match parsePoolCandidates spec with
  | Err e => Err (ECandidates poolName e)
  | Ok candidates =>
      match AllocationFilter (claim_spec claim) with
      | Some (cidr :: cidrs) =>
          match parsePrefixCandidates (cidr :: cidrs) with
          | Err e => Err (EFilter (claim_name claim) e)
          | Ok filter =>
              match intersectCandidates candidates filter with
              | [] => Err EAllPoolsExhausted
              | cs => Ok cs
              end
          end
      | _ => Ok candidates
      end
  end.

Definition excludeIPs (excluded : list string) (used : gmap Addr string) : gmap Addr string :=
  fold_left (fun used raw => match ParseAddr raw with
                             | Ok addr => <[addr := "excluded"%string]> used
                             | Err _ => used
                             end) excluded used.

(** The decision of [allocateIP] once the used addresses are known. *)
Definition pickIP (poolName : string) (candidates : list candidateRange) (requested : option string)
    (used : gmap Addr string) : result claim_error string :=
  match requested with
  | Some raw =>
      match ParseAddr raw with
      | Err _ => Err (EIPInvalid raw)
      | Ok addr =>
          if negb (candidatesContain candidates addr) then Err (EIPOutside raw poolName) else
          match used !! addr with
          | Some holder => Err (EIPTaken raw holder)
          | None => Ok (Addr_String addr)
          end
      end
  | None =>
      match firstFitCandidate candidates used with
      | Some addr => Ok (Addr_String addr)
      | None => Err EAllPoolsExhausted
      end
  end.

(** ** The reconciler *)

Section Reconciler.
Context `{KubeLib}.

(** The text [err.Error()] puts into a condition. *)
Variable claim_error_text : claim_error -> string.

(** [AllocationClaimReconciler]: whether [APIReader] is set. *)
Variable APIReader : bool.

Definition reader : bool := APIReader.

Definition allocationClaimReady (c : AllocationClaim) : bool :=
  let st := claim_status c in
  if negb (bool_decide (cs_Phase st = ClaimPhaseAllocated)) then false else
  if (Number (cs_Value st) =? 0) && is_empty (IP (cs_Value st)) then false else
  match FindStatusCondition (cs_Conditions st) ReadyCondition with
  | None => false
  | Some ready =>
      bool_decide (Status_ ready = ConditionTrue) &&
      (CondObservedGeneration ready =? Generation (claim_meta c))
  end.

(** [getLease]. *)
Definition getLease (name : string) : prog api (result api_error (option AllocationLease)) :=
  r <- call (GetLease reader name) ;;
  Ret (match r with
  | Ok l => Ok (Some l)
  | Err NotFound => Ok None
  | Err e => Err e
  end).

(** [reconcileLease]. *)
Definition reconcileLease (claim : AllocationClaim) : prog api (result api_error unit) :=
  lease <-? getLease (leaseNameFor claim) ;;
  match lease with
  | None => Ret (Ok tt)
  | Some lease =>
      if negb (is_empty (cr_Name (ClaimRef (lease_spec lease)))) && negb (leaseOwnedByClaim lease claim)
      then Ret (Ok tt) else
      let sp := lease_spec lease in
      let desired := adoptNetworkInterfaceIdentity
      (MkLeaseSpec (PoolRef sp) (Value sp) (MkClaimRef (claim_name claim) (UID (claim_meta claim)))
        (OwnerDeletionTimestamp sp) (TTLSeconds sp) (ls_RetainWhile sp) (ls_NetworkInterface sp)) claim in
      if bool_decide (lease_spec lease = desired) then Ret (Ok tt) else
      _ <-? call (UpdateLease (with_lease_spec lease desired)) ;;
      Ret (Ok tt)
  end.

(** [reuseLease]. *)
Definition reuseLease (claim : AllocationClaim) (lease : AllocationLease)
  : prog api (result claim_error (option (allocationResult * AllocationPool))) :=
  if negb (claimReferencesPool claim (PoolRef (lease_spec lease))) then Ret (Ok None) else
  r <- call (GetPool reader (PoolRef (lease_spec lease))) ;;
  Ret (match r with
  | Err NotFound => Ok None
  | Err e => Err (EAPI e)
  | Ok pool =>
      Ok (Some (MkResult (pool_name pool) (Number (Value (lease_spec lease)))
        (IP (Value (lease_spec lease))), pool))
  end).

Definition collectUsedNumbers (poolName selfClaimName selfLeaseName : string)
  : prog api (result claim_error (gmap Z string)) :=
  r <- call (ListClaims reader) ;;
  match r with
  | Err e => Ret (Err (EListClaims poolName e))
  | Ok claims =>
      let used := used_numbers_claims poolName selfClaimName claims in
      r <- call (ListLeases reader) ;;
      match r with
      | Err e => Ret (Err (EListLeases poolName e))
      | Ok leases => Ret (Ok (used_numbers_leases poolName selfLeaseName used leases))
      end
  end.

Definition collectUsedIPs (poolName selfClaimName selfLeaseName : string)
  : prog api (result claim_error (gmap Addr string)) :=
  r <- call (ListClaims reader) ;;
  match r with
  | Err e => Ret (Err (EListClaims poolName e))
  | Ok claims =>
      r <- call (ListLeases reader) ;;
      match r with
      | Err e => Ret (Err (EListLeases poolName e))
      | Ok leases => Ret (Ok (usedPoolIPs poolName selfClaimName selfLeaseName claims leases))
      end
  end.

Definition allocateNumber (pool : AllocationPool) (claim : AllocationClaim) (selfLeaseName : string)
  : prog api (result claim_error Z) :=
  match pool_Number (pool_spec pool) with
  | None => Ret (Err (ENumberSpecNil (pool_name pool)))
  | Some spec =>
      used <-? collectUsedNumbers (pool_name pool) (claim_name claim) selfLeaseName ;;
      Ret (pickNumber (pool_name pool) spec (RequestedNumber (claim_spec claim)) used)
  end.

Definition allocateIP (pool : AllocationPool) (claim : AllocationClaim) (selfLeaseName : string)
  : prog api (result claim_error string) :=
  match pool_IP (pool_spec pool) with
  | None => Ret (Err (EIPSpecNil (pool_name pool)))
  | Some spec =>
      match claimCandidates (pool_name pool) spec claim with
      | Err e => Ret (Err e)
      | Ok candidates =>
          used <-? collectUsedIPs (pool_name pool) (claim_name claim) selfLeaseName ;;
          Ret (pickIP (pool_name pool) candidates (RequestedIP (claim_spec claim))
            (excludeIPs (Excluded spec) used))
      end
  end.

(** The loop of [allocate] over the pool references. *)
Fixpoint allocatePools (claim : AllocationClaim) (selfLeaseName : string) (refs : list string)
  (firstMissingPool : string) : prog api (result claim_error (allocationResult * AllocationPool)) :=
  match refs with
  | [] => Ret (if is_empty firstMissingPool then Err EAllPoolsExhausted
    else Err (EPoolNotFound firstMissingPool))
  | ref :: refs' =>
      r <- call (GetPool reader ref) ;;
      match r with
      | Err NotFound =>
          allocatePools claim selfLeaseName refs'
          (if is_empty firstMissingPool then ref else firstMissingPool)
      | Err e => Ret (Err (EAPI e))
      | Ok pool =>
          match pool_Type (pool_spec pool) with
          | AllocationTypeNumber =>
              n <- allocateNumber pool claim selfLeaseName ;;
              match n with
              | Err EAllPoolsExhausted => allocatePools claim selfLeaseName refs' firstMissingPool
              | Err e => Ret (Err e)
              | Ok n => Ret (Ok (MkResult (pool_name pool) n "", pool))
              end
          | AllocationTypeIP =>
              ip <- allocateIP pool claim selfLeaseName ;;
              match ip with
              | Err EAllPoolsExhausted => allocatePools claim selfLeaseName refs' firstMissingPool
              | Err e => Ret (Err e)
              | Ok ip => Ret (Ok (MkResult (pool_name pool) 0 ip, pool))
              end
          | t => Ret (Err (EUnsupportedType (pool_name pool) t))
          end
      end
  end.

Definition allocate (claim : AllocationClaim)
  : prog api (result claim_error (allocationResult * AllocationPool)) :=
  r <- getLease (leaseNameFor claim) ;;
  match r with
  | Err e => Ret (Err (EAPI e))
  | Ok held =>
      let held' := match held with
      | Some l => if leaseHeldByOtherClaim l claim then None else Some l
      | None => None
      end in
      let selfLeaseName := match held with
      | Some l => if leaseHeldByOtherClaim l claim then "" else leaseNameFor claim
      | None => leaseNameFor claim
      end%string in
      match held' with
      | Some l =>
          reused <-? reuseLease claim l ;;
          match reused with
          | Some rp => Ret (Ok rp)
          | None => allocatePools claim selfLeaseName (PoolRefs (claim_spec claim)) ""
          end
      | None => allocatePools claim selfLeaseName (PoolRefs (claim_spec claim)) ""
      end
  end.

(** [ensureLease]. *)
Definition ensureLease (claim : AllocationClaim) (pool : AllocationPool) (res : allocationResult)
  : prog api (result api_error unit) :=
  let leaseName := leaseNameFor claim in
  let claimRef := MkClaimRef (claim_name claim) (UID (claim_meta claim)) in
  r <- call (GetLease false leaseName) ;;
  match r with
  | Err NotFound =>
      let spec := MkLeaseSpec (pool_name pool) (result_value res) claimRef None None
      (RetainWhile (claim_spec claim)) (NetworkInterface (claim_spec claim)) in
      match SetControllerReference (pool_meta pool) (NewMeta leaseName) with
      | Err e => Ret (Err e)
      | Ok m =>
          r <- call (CreateLease (MkLease m spec (MkLeaseStatus 0 LeasePhaseNone None None []))) ;;
          Ret (match r with
          | Ok _ => Ok tt
          | Err AlreadyExists => Ok tt
          | Err e => Err e
          end)
      end
  | Err e => Ret (Err e)
  | Ok existing =>
      if leaseHeldByOtherClaim existing claim then Ret (Ok tt) else
      let desired := adoptNetworkInterfaceIdentity
      (MkLeaseSpec (pool_name pool) (result_value res) claimRef None None
        (RetainWhile (claim_spec claim)) (ls_NetworkInterface (lease_spec existing))) claim in
      if bool_decide (lease_spec existing = desired) then Ret (Ok tt) else
      _ <-? call (UpdateLease (with_lease_spec existing desired)) ;;
      Ret (Ok tt)
  end.

(** [handleDeletion]. *)
Definition handleDeletion (claim : AllocationClaim) : prog api (result api_error unit) :=
  if negb (ContainsFinalizer (Finalizers (claim_meta claim)) allocationClaimFinalizer)
  then Ret (Ok tt) else
  let finish :=
  _ <-? call (UpdateClaim (with_claim_finalizers claim
    (RemoveFinalizer (Finalizers (claim_meta claim)) allocationClaimFinalizer))) ;;
  Ret (Ok tt) in
  r <- call (GetLease false (leaseNameFor claim)) ;;
  match r with
  | Err NotFound => finish
  | Err e => Ret (Err e)
  | Ok lease =>
      if negb (leaseOwnedByClaim lease claim) then finish else
      match ReleaseAfter (claim_spec claim) with
      | Some d =>
          if 0 <? d then
          now <- call Now ;;
          let ttl := int32_of_seconds d in
          let sp := lease_spec lease in
          if bool_decide (OwnerDeletionTimestamp sp = None) || bool_decide (TTLSeconds sp <> Some ttl)
          then
          _ <-? call (UpdateLease (with_lease_spec lease
            (MkLeaseSpec (PoolRef sp) (Value sp) (ClaimRef sp) (Some now) (Some ttl)
              (ls_RetainWhile sp) (ls_NetworkInterface sp)))) ;;
          finish
          else finish
          else
          r <- call (DeleteLease (lease_name lease) None) ;;
          match r with
          | Ok _ | Err NotFound => finish
          | Err e => Ret (Err e)
          end
      | None =>
          r <- call (DeleteLease (lease_name lease) None) ;;
          match r with
          | Ok _ | Err NotFound => finish
          | Err e => Ret (Err e)
          end
      end
  end.

Definition ensureOwnerExists (claim : AllocationClaim) : prog api (result claim_error unit) :=
  let ref := ResourceRef (claim_spec claim) in
  match SchemeNew (rr_APIVersion ref) (rr_Kind ref) with
  | Err e => Ret (Err (EOwnerType (rr_Kind ref) (rr_Name ref) e))
  | Ok false => Ret (Err (EOwnerNotObject (rr_Kind ref)))
  | Ok true =>
      r <- call (GetOwner reader ref) ;;
      Ret (match r with
      | Ok _ => Ok tt
      | Err _ => Err (EOwnerNotFound (rr_Kind ref) (rr_Name ref))
      end)
  end.

(** The status [updateStatus] wants for the claim it has just read. *)
Definition desiredClaimStatus (now : Time) (fresh : AllocationClaim) (phase : AllocationClaimPhase)
  (res : allocationResult) (ready : ConditionStatus) (reason message : string)
  : AllocationClaimStatus :=
  let gen := Generation (claim_meta fresh) in
  MkClaimStatus gen
  (SetStatusCondition now (cs_Conditions (claim_status fresh))
    (MkCondition ReadyCondition ready reason message gen zeroTime))
  phase
  (if bool_decide (phase = ClaimPhaseAllocated) then result_value res else no_value).

Definition updateStatus (name : string) (phase : AllocationClaimPhase) (res : allocationResult)
  (ready : ConditionStatus) (reason message : string) : prog api (result api_error unit) :=
  RetryOnConflict (
    fresh <-? call (GetClaim false name) ;;
    if allocationClaimReady fresh && negb (bool_decide (phase = ClaimPhaseAllocated))
    then Ret (Ok tt) else
    now <- call Now ;;
    let st := desiredClaimStatus now fresh phase res ready reason message in
    if bool_decide (st = claim_status fresh) then Ret (Ok tt) else
    _ <-? call (UpdateClaimStatus (with_claim_status fresh st)) ;;
    Ret (Ok tt)).

Definition no_result : allocationResult := MkResult "" 0 "".

Definition updateStatusAllocated (name : string) (res : allocationResult) : prog api (result api_error unit) :=
  updateStatus name ClaimPhaseAllocated res ConditionTrue allocationClaimReasonAllocated "".

Definition updateStatusPending (name message : string) : prog api (result api_error unit) :=
  updateStatus name ClaimPhasePending no_result ConditionFalse allocationClaimReasonPending message.

Definition updateStatusFailed (name message : string) : prog api (result api_error unit) :=
  updateStatus name ClaimPhasePending no_result ConditionFalse allocationClaimReasonFailed message.

(** The pool status written after a successful allocation. *)
Definition recordAllocation (pool : AllocationPool) (res : allocationResult) : AllocationPool :=
  let st := pool_status pool in
  with_pool_status pool
  (MkPoolStatus (ps_ObservedGeneration st) (u64 (AllocationVersion st + 1)) (res_number res)
    (if is_empty (res_ip res) then LastAllocatedIP st else res_ip res) (ps_Conditions st)).

(** One attempt of the allocation loop of [Reconcile]. *)
Definition allocateOnce (name : string) : prog api (result api_error unit) :=
  fresh <-? call (GetClaim reader name) ;;
  if allocationClaimReady fresh then Ret (Ok tt) else
  r <- allocate fresh ;;
  match r with
  | Err ((EAllPoolsExhausted | EPoolNotFound _) as e) =>
      updateStatusPending (claim_name fresh) (claim_error_text e)
  | Err e => updateStatusFailed (claim_name fresh) (claim_error_text e)
  | Ok (res, freshPool) =>
      _ <-? ensureLease fresh freshPool res ;;
      _ <-? call (UpdatePoolStatus (recordAllocation freshPool res)) ;;
      updateStatusAllocated (claim_name fresh) res
  end.

(** Adding the finalizer, retried on conflict: the claim as it stands
    afterwards. *)
Definition addFinalizer (name : string) : prog api (result api_error AllocationClaim) :=
  RetryOnConflict (
    fresh <-? call (GetClaim false name) ;;
    if ContainsFinalizer (Finalizers (claim_meta fresh)) allocationClaimFinalizer
    then Ret (Ok fresh) else
    call (UpdateClaim (with_claim_finalizers fresh
      (AddFinalizer (Finalizers (claim_meta fresh)) allocationClaimFinalizer)))).

(** [Reconcile] after the finalizer is in place. *)
Definition reconcileLive (name : string) (resource : AllocationClaim) : prog api (result api_error unit) :=
  if allocationClaimReady resource then reconcileLease resource else
  if bool_decide (PoolRefs (claim_spec resource) = [])
  then updateStatusFailed (claim_name resource) "spec.poolRefs is empty" else
  owner <- ensureOwnerExists resource ;;
  match owner with
  | Err e => updateStatusFailed (claim_name resource) (claim_error_text e)
  | Ok _ => RetryOnConflict (allocateOnce name)
  end.

Definition Reconcile (name : string) : prog api (result api_error unit) :=
  r <- call (GetClaim false name) ;;
  match r with
  | Err e => Ret (IgnoreNotFound tt e)
  | Ok resource =>
      if IsDeleting (claim_meta resource) then handleDeletion resource else
      if ContainsFinalizer (Finalizers (claim_meta resource)) allocationClaimFinalizer
      then reconcileLive name resource else
      r <- addFinalizer name ;;
      match r with
      | Err e => Ret (IgnoreNotFound tt e)
      | Ok resource => reconcileLive name resource
      end
  end.

(** ** Event sources *)

Definition claimsReferencingPool (poolName : string) : prog api (list string) :=
  r <- call (ListClaimsByPool poolName) ;;
  Ret (match r with Ok claims => map claim_name claims | Err _ => [] end).

Definition mapPoolToClaims (pool : AllocationPool) : prog api (list string) :=
  claimsReferencingPool (pool_name pool).

Definition mapLeaseToClaims (lease : AllocationLease) : prog api (list string) :=
  if is_empty (PoolRef (lease_spec lease)) then Ret []
  else claimsReferencingPool (PoolRef (lease_spec lease)).

(** The keys of the field index [claimPoolRefIndex]. *)
Definition claimPoolRefKeys (claim : AllocationClaim) : list string :=
  List.filter (fun ref => negb (is_empty ref)) (PoolRefs (claim_spec claim)).
End Reconciler.
