(* ===== verification/ElasticIPReconciler.v ===== *)
(** * ElasticIPReconciler: the ElasticIP controller

    [controller/internal/controller/elasticip_controller.go] with the ARP
    advertisement helpers of [advertisement_helpers.go].  The reconciler
    resolves the address pools behind the external network, keeps one
    AllocationClaim per ElasticIP, decides what uses the address
    ([ElasticIPUse]), points the ARPAdvertisement at the node of that use and
    publishes the outcome in the status. *)

From stdpp Require Import base gmap strings list.
From Stdlib Require Import ZArith Lia.
From S2P Require Import Prelude Effects Netip Kube AllocationTypes AllocationAPI AllocationClaimReconciler.
From S2P Require Import PodNetwork ElasticIPUse.

Open Scope Z_scope.
Open Scope go_scope.

(** ** Constants *)

Definition elasticIPConditionAllocated : string := "Allocated".
Definition elasticIPConditionAttached : string := "Attached".
Definition elasticIPReasonReconcileSucceeded : string := "ReconcileSucceeded".
Definition elasticIPReasonAwaitingAttachment : string := "AwaitingAttachment".
Definition elasticIPReasonNoAddressAvailable : string := "NoAddressAvailable".
Definition elasticIPReasonMissingDependency : string := "MissingDependency".
Definition elasticIPReasonInvalidAddressPool : string := "InvalidAddressPool".
Definition elasticIPReasonAttached : string := "Attached".
Definition elasticIPReasonConflict : string := "Conflict".
Definition elasticIPReasonAllocating : string := "Allocating".
Definition elasticIPReasonWaitingForHandover : string := "WaitingForHandover".
Definition elasticIPReasonWaitingForNetworkInterfaces : string := "WaitingForNetworkInterfaces".
Definition elasticIPRequeueAfter : Z := 10 * Second.
Definition elasticIPFinalizer : string := "elasticip.juneau.loutres.me/allocation-claim".
Definition GroupVersion : string := "juneau.loutres.me/v1alpha1".
Definition addressPoolAllocationPoolPrefix : string := "addr-".
Definition AddressPoolAllocationPoolName (name : string) : string := (addressPoolAllocationPoolPrefix ++ name)%string.

Definition IsNotFoundApi (e : api_error) : bool := match e with NotFound => true | _ => false end.

(** ** [advertisement_helpers.go] *)

Definition ExternalNetworkTypeBGP : string := "bgp".
Definition ExternalNetworkTypeARP : string := "arp".
Definition AddressPoolAdvertiseModeBGP : string := "bgp".
Definition AddressPoolAdvertiseModeARP : string := "arp".

Definition externalNetworkAdvertiseMode (networkType : string) : result goerr string :=
  if String.eqb networkType ExternalNetworkTypeBGP then Ok AddressPoolAdvertiseModeBGP
  else if String.eqb networkType ExternalNetworkTypeARP then Ok AddressPoolAdvertiseModeARP
  else Err (EText ("unsupported ExternalNetwork type " ++ quoted networkType)).

Definition supportsExternalNetworkType (networkType : string) : bool :=
  match externalNetworkAdvertiseMode networkType with Ok _ => true | Err _ => false end.

Record arpAdvertisementSpec := MkARPSpec {
  arps_Name : string; arps_ExternalNetwork : string; arps_Address : string; arps_NodeName : string }.

Definition arpSpec_validate (s : arpAdvertisementSpec) : result goerr unit :=
  match List.find (fun f => empty f.2)
    [("name", arps_Name s); ("externalNetwork", arps_ExternalNetwork s);
     ("address", arps_Address s); ("nodeName", arps_NodeName s)]%string with
  | Some (name, _) => Err (EText ("ARPAdvertisement " ++ name ++ " is empty"))
  | None => Ok tt
  end.

(** [arpAdvertisementOwnership]: by a controller reference of an owner, or
    by nothing, when the consumer deletes the advertisement itself. *)
Inductive arpAdvertisementOwnership :=
| arpAdvertisementOwnedBy (owner : ObjectMeta)
| arpAdvertisementDeletedByFinalizer.

Section Reconciler.
Context `{KubeLib}.

Definition applyTo (o : arpAdvertisementOwnership) (adv : ARPAdvertisement) : result goerr ARPAdvertisement :=
  match o with
  | arpAdvertisementOwnedBy owner =>
      match SetControllerReference owner (arp_meta adv) with
      | Ok m => Ok (MkARPAdvertisement m (arp_ExternalNetwork adv) (arp_Address adv) (arp_NodeName adv))
      | Err e => Err (EApi e)
      end
  | arpAdvertisementDeletedByFinalizer => Ok adv
  end.

Definition ensureARPAdvertisement (desired : arpAdvertisementSpec) (ownership : arpAdvertisementOwnership)
  : prog eip_call (result goerr unit) :=
  match arpSpec_validate desired with
  | Err e => Ret (Err e)
  | Ok _ =>
      r <- call (createOrUpdateARP (arps_Name desired) (fun adv =>
        applyTo ownership (MkARPAdvertisement (arp_meta adv) (arps_ExternalNetwork desired)
          (arps_Address desired) (arps_NodeName desired)))) ;;
      match r with
      | Err e => Ret (Err (EWrap ("ensure ARPAdvertisement " ++ quoted (arps_Name desired)) e))
      | Ok _ => Ret (Ok tt)
      end
  end.

Definition deleteARPAdvertisement (name : string) : prog eip_call (result goerr unit) :=
  r <- call (deleteARP name) ;;
  match r with
  | Err e => if IsNotFoundApi e then Ret (Ok tt)
      else Ret (Err (EWrap ("delete advertisement " ++ quoted name) (EApi e)))
  | Ok _ => Ret (Ok tt)
  end.

(** ** Status *)

(** Set each condition, stamped with the generation. *)
Definition setConditions (generation : Z) (conditions cs : list Condition) : prog eip_call (list Condition) :=
  forP conditions cs (fun c cs =>
    t <- call now ;;
    Ret (SetStatusCondition t cs
      (MkCondition (Type_ c) (Status_ c) (Reason c) (Message c) generation (LastTransitionTime c)))).

(** The status the comparison sees under the old name.  [updated := resource.Status]
    copies the slice header of the conditions and not the conditions, so a
    condition that was there before is rewritten in both. *)
Definition aliasedStatus (st : ElasticIPStatus) (conds : list Condition) : ElasticIPStatus :=
  MkEIPStatus (eip_ObservedGeneration st) (eip_Phase st) (take (length (eip_Conditions st)) conds)
  (eip_Address st) (eip_Attachment st).

Definition eip_updateStatus (resource : ElasticIP) (phase : ElasticIPPhase) (address : string)
  (attachment : option ElasticIPStatusAttachment) (conditions : list Condition)
  : prog eip_call (result goerr unit) :=
  let generation := Generation (eip_meta resource) in
  conds <- setConditions generation conditions (eip_Conditions (eip_status resource)) ;;
  let updated := MkEIPStatus generation phase conds address attachment in
  if bool_decide (aliasedStatus (eip_status resource) conds = updated) then Ret (Ok tt) else
  _ <-? apiCall (updateElasticIPStatus (with_eip_status resource updated)) ;;
  Ret (Ok tt).

Definition condition (t : string) (s : ConditionStatus) (reason message : string) : Condition :=
  MkCondition t s reason message 0 zeroTime.

Definition eip_updateErrorStatus (resource : ElasticIP) (reason message : string)
  : prog eip_call (result goerr unit) :=
  eip_updateStatus resource ElasticIPPhaseError (eip_Address (eip_status resource)) None
  [condition elasticIPConditionAllocated ConditionFalse reason message;
    condition elasticIPConditionAttached ConditionFalse reason message].

Definition StatusAttachmentKind_text (k : ElasticIPStatusAttachmentKind) : string :=
  match k with KindElasticIPAttachment => "ElasticIPAttachment" | KindNetworkInterface => "NetworkInterface" end.

Definition updateUseStatus (resource : ElasticIP) (address : string) (use : elasticIPUse)
  : prog eip_call (result goerr unit) :=
  let allocated := condition elasticIPConditionAllocated ConditionTrue elasticIPReasonReconcileSucceeded
  "ElasticIP address allocated" in
  if negb (empty (use_conflict use))
  then eip_updateErrorStatus resource elasticIPReasonConflict (use_conflict use) else
  match use_attachment use with
  | Some att =>
      eip_updateStatus resource ElasticIPPhaseAttached address (Some att)
      [allocated; condition elasticIPConditionAttached ConditionTrue elasticIPReasonAttached
        ("ElasticIP is attached by " ++ StatusAttachmentKind_text (att_Kind att) ++ " " ++ quoted (att_Name att))]
  | None =>
      if negb (empty (use_waitingFor use)) then
      eip_updateStatus resource ElasticIPPhaseAvailable address None
      [allocated; condition elasticIPConditionAttached ConditionFalse elasticIPReasonWaitingForHandover
        (use_waitingFor use)]
      else
      eip_updateStatus resource ElasticIPPhaseAvailable address None
      [allocated; condition elasticIPConditionAttached ConditionFalse elasticIPReasonAwaitingAttachment
        "ElasticIP is not attached"]
  end.

(** ** The address pools *)

Record elasticIPPools := MkPools { ep_externalNetwork : ExternalNetwork; allocationPoolNames : list string }.

(** One address pool of the external network. *)
Definition resolvePoolRef (xn : ExternalNetwork) (advertiseMode raw : string) (names : list string)
  : prog eip_call (result goerr (list string)) :=
  let poolName := TrimSpace raw in
  if empty poolName then Ret (Ok names) else
  r <- call (getAddressPool poolName) ;;
  match r with
  | Err NotFound => Ret (Err (EReconcile elasticIPReasonMissingDependency
    ("AddressPool " ++ quoted poolName ++ " not found")))
  | Err e => Ret (Err (EApi e))
  | Ok pool =>
      if String.eqb (pool_AdvertiseMode pool) advertiseMode
      then Ret (Ok (names ++ [AddressPoolAllocationPoolName (pool_Name pool)]))
      else Ret (Err (EReconcile elasticIPReasonInvalidAddressPool
        ("AddressPool " ++ quoted (pool_Name pool) ++ " advertiseMode must be " ++ advertiseMode ++
          " to match ExternalNetwork " ++ quoted (xn_Name xn) ++ " of type " ++ xn_Type xn)))
  end.

Definition resolvePoolRefs (resource : ElasticIP) : prog eip_call (result goerr elasticIPPools) :=
  let externalNetwork := eip_ExternalNetwork (eip_spec resource) in
  if empty (TrimSpace externalNetwork)
  then Ret (Err (EReconcile elasticIPReasonMissingDependency "spec.externalNetwork is empty")) else
  r <- call (getExternalNetwork externalNetwork) ;;
  match r with
  | Err NotFound => Ret (Err (EReconcile elasticIPReasonMissingDependency
    ("ExternalNetwork " ++ quoted externalNetwork ++ " not found")))
  | Err e => Ret (Err (EApi e))
  | Ok xn =>
      match xn_AddressPools xn with
      | [] => Ret (Err (EReconcile elasticIPReasonMissingDependency
        ("ExternalNetwork " ++ quoted (xn_Name xn) ++ " has no AddressPools")))
      | pools =>
          match externalNetworkAdvertiseMode (xn_Type xn) with
          | Err e => Ret (Err (EReconcile elasticIPReasonInvalidAddressPool
            ("ExternalNetwork " ++ quoted (xn_Name xn) ++ ": " ++ goerr_text e)))
          | Ok advertiseMode =>
              names <-? forTryP pools [] (resolvePoolRef xn advertiseMode) ;;
              match names with
              | [] => Ret (Err (EReconcile elasticIPReasonMissingDependency
                ("ExternalNetwork " ++ quoted (xn_Name xn) ++ " resolves to no usable AddressPools")))
              | _ => Ret (Ok (MkPools xn names))
              end
          end
      end
  end.

(** ** The advertisement and the claim *)

Definition elasticIPAdvertisementName (ns name : string) : string := ("eip-" ++ ns ++ "-" ++ name)%string.

Definition reconcileAdvertisement (resource : ElasticIP) (pools : elasticIPPools) (address nodeName : string)
  : prog eip_call (result goerr unit) :=
  let name := elasticIPAdvertisementName (Namespace (eip_meta resource)) (eip_name resource) in
  let xn := ep_externalNetwork pools in
  if String.eqb (xn_Type xn) ExternalNetworkTypeBGP then deleteARPAdvertisement name
  else if String.eqb (xn_Type xn) ExternalNetworkTypeARP then
  if empty address || empty nodeName then deleteARPAdvertisement name
  else ensureARPAdvertisement (MkARPSpec name (xn_Name xn) address nodeName) arpAdvertisementDeletedByFinalizer
  else Ret (Err (EText ("ExternalNetwork " ++ quoted (xn_Name xn) ++ " has unsupported type " ++ quoted (xn_Type xn)))).

Definition elasticIPClaimName (resource : ElasticIP) : string :=
  allocationClaimName "elasticip" "ElasticIP" (Namespace (eip_meta resource)) (eip_name resource) "status.address".

Definition elasticIPClaimSpec (resource : ElasticIP) (poolNames : list string) : AllocationClaimSpec :=
  MkClaimSpec poolNames
  (MkResourceRef GroupVersion "ElasticIP" (Namespace (eip_meta resource)) (eip_name resource))
  "status.address" None
  (if empty (eip_RequestedIP (eip_spec resource)) then None else Some (eip_RequestedIP (eip_spec resource)))
  None None "" None None.

(** The address of the claim, and whether to try again later. *)
Definition eip_ensureClaim (resource : ElasticIP) (poolNames : list string)
  : prog eip_call (result goerr (string * bool)) :=
  let claimName := elasticIPClaimName resource in
  r <- call (getClaim claimName) ;;
  match r with
  | Err NotFound =>
      r <- call (createClaim (MkClaim (NewMeta claimName) (elasticIPClaimSpec resource poolNames)
        (MkClaimStatus 0 [] ClaimPhaseNone no_value))) ;;
      match r with
      | Ok _ | Err AlreadyExists => Ret (Ok (""%string, false))
      | Err e => Ret (Err (EWrap "create AllocationClaim" (EApi e)))
      end
  | Err e => Ret (Err (EApi e))
  | Ok existing =>
      let st := claim_status existing in
      match cs_Phase st with
      | ClaimPhasePending =>
          match FindStatusCondition (cs_Conditions st) ReadyCondition with
          | Some ready => Ret (Ok (""%string, String.eqb (Reason ready) allocationClaimReasonPending))
          | None => Ret (Ok (""%string, false))
          end
      | ClaimPhaseAllocated => Ret (Ok (IP (cs_Value st), false))
      | ClaimPhaseNone => Ret (Ok (""%string, false))
      end
  end.

Definition listNamingInterfaces (resource : ElasticIP) : prog eip_call (result goerr (list NetworkInterface)) :=
  r <- apiCall (listInterfacesNaming (Namespace (eip_meta resource)) (eip_name resource)) ;;
  match r with
  | Err e => Ret (Err (EWrap ("list the NetworkInterfaces that name ElasticIP " ++
    Namespace (eip_meta resource) ++ "/" ++ eip_name resource) e))
  | Ok l => Ret (Ok l)
  end.

(** ** Reconcile *)

Definition eip_handleDeletion (resource : ElasticIP) : prog eip_call (result goerr unit) :=
  if negb (ContainsFinalizer (Finalizers (eip_meta resource)) elasticIPFinalizer) then Ret (Ok tt) else
  interfaces <-? listNamingInterfaces resource ;;
  match interfaces with
  | _ :: _ =>
      let st := eip_status resource in
      eip_updateStatus resource (eip_Phase st) (eip_Address st)
      (retainedElasticIPAttachment (eip_Attachment st) interfaces)
      [condition elasticIPConditionAllocated (if empty (eip_Address st) then ConditionFalse else ConditionTrue)
        elasticIPReasonWaitingForNetworkInterfaces
        ("ElasticIP is being deleted; it keeps its AllocationClaim until NetworkInterface " ++
          networkInterfaceNames interfaces ++ " that names it is gone")]
  | [] =>
      _ <-? deleteARPAdvertisement
      (elasticIPAdvertisementName (Namespace (eip_meta resource)) (eip_name resource)) ;;
      r <- call (getClaim (elasticIPClaimName resource)) ;;
      _ <-? (match r with
      | Ok claim =>
          r <- call (deleteClaim_ claim) ;;
          match r with
          | Err e => if IsNotFoundApi e then Ret (Ok tt) else Ret (Err (EApi e))
          | Ok _ => Ret (Ok tt)
          end
      | Err e => if IsNotFoundApi e then Ret (Ok tt) else Ret (Err (EApi e))
      end) ;;
      _ <-? apiCall (updateElasticIP (with_eip_finalizers resource
        (RemoveFinalizer (Finalizers (eip_meta resource)) elasticIPFinalizer))) ;;
      Ret (Ok tt)
  end.

Definition eip_reconcileNormal (resource : ElasticIP) : prog eip_call (result goerr CtrlResult) :=
  r <- resolvePoolRefs resource ;;
  match r with
  | Err (EReconcile reason message) =>
      _ <-? eip_updateErrorStatus resource reason message ;; Ret (Ok no_requeue)
  | Err e => Ret (Err e)
  | Ok pools =>
      claim <-? eip_ensureClaim resource (allocationPoolNames pools) ;;
      let '(address, requeue) := claim in
      attachments <-? listActiveElasticIPAttachments (Namespace (eip_meta resource)) (eip_name resource) ;;
      interfaces <-? listNamingInterfaces resource ;;
      let use := decideElasticIPUse (eip_Attachment (eip_status resource)) attachments interfaces in
      _ <-? reconcileAdvertisement resource pools address (use_nodeName use) ;;
      if (requeue : bool) then
      _ <-? eip_updateStatus resource ElasticIPPhasePending "" None
      [condition elasticIPConditionAllocated ConditionFalse elasticIPReasonNoAddressAvailable
        "no available address in referenced AddressPools";
        condition elasticIPConditionAttached ConditionFalse elasticIPReasonAwaitingAttachment
        "ElasticIP is not attached"] ;;
      Ret (Ok (MkCtrlResult false elasticIPRequeueAfter))
      else if empty address then
      _ <-? eip_updateStatus resource ElasticIPPhasePending "" None
      [condition elasticIPConditionAllocated ConditionFalse elasticIPReasonAllocating
        "AllocationClaim is still allocating an address";
        condition elasticIPConditionAttached ConditionFalse elasticIPReasonAwaitingAttachment
        "ElasticIP is not attached"] ;;
      Ret (Ok no_requeue)
      else _ <-? updateUseStatus resource address use ;; Ret (Ok no_requeue)
  end.

Definition eip_Reconcile (ns name : string) : prog eip_call (result goerr CtrlResult) :=
  r <- call (getElasticIP ns name) ;;
  match r with
  | Err NotFound => Ret (Ok no_requeue)
  | Err e => Ret (Err (EApi e))
  | Ok resource =>
      if IsDeleting (eip_meta resource) then
      _ <-? eip_handleDeletion resource ;; Ret (Ok no_requeue)
      else if ContainsFinalizer (Finalizers (eip_meta resource)) elasticIPFinalizer
      then eip_reconcileNormal resource else
      _ <-? apiCall (updateElasticIP (with_eip_finalizers resource
        (AddFinalizer (Finalizers (eip_meta resource)) elasticIPFinalizer))) ;;
      r <- call (getElasticIP ns name) ;;
      match r with
      | Err NotFound => Ret (Ok no_requeue)
      | Err e => Ret (Err (EApi e))
      | Ok resource => eip_reconcileNormal resource
      end
  end.

(** ** Event sources *)

Definition mapAttachmentToElasticIP (a : ElasticIPAttachment) : list (string * string) :=
  let name := TrimSpace (ElasticIPRef a) in
  if empty name then [] else [(Namespace (eipa_meta a), name)].

Definition mapClaimToElasticIP (c : AllocationClaim) : list (string * string) :=
  let ref := ResourceRef (claim_spec c) in
  if negb (String.eqb (rr_Kind ref) "ElasticIP") || empty (rr_Name ref) then []
  else [(rr_Namespace ref, rr_Name ref)].
End Reconciler.
