(* ===== verification/AllocationPick.v ===== *)
(** * AllocationPick: the choice of a value

    What [pickNumber] and [pickIP] return, with the used values collected
    by [collectUsedNumbers] and [collectUsedIPs]. *)

From stdpp Require Import base gmap strings list.
From Stdlib Require Import ZArith Lia.
From S2P Require Import Prelude Effects Netip NetipFacts NetipText AddressRange AllocationRanges.
From S2P Require Import Kube AllocationTypes AllocationAPI AllocationClaimReconciler.

Open Scope Z_scope.

(** ** Maps filled by a loop *)

(** If each iteration keeps the keys there are and adds the key of its
    element, a key missing at the end was missing at the start and is the key
    of no element. *)
Lemma fold_used_None {A K} `{Countable K} (f : gmap K string -> A -> gmap K string)
    (key : A -> option K) l u k :
  (forall u x k, f u x !! k = None -> u !! k = None /\ key x <> Some k) ->
  fold_left f l u !! k = None -> u !! k = None /\ forall x, x ∈ l -> key x <> Some k.
Proof.
  intros Hf. revert u. induction l as [|x l IH]; intros u Hn; simpl in Hn.
  { split; [done|]. intros x Hx. by apply elem_of_nil in Hx. }
  destruct (IH _ Hn) as [Hu Hl]. destruct (Hf _ _ _ Hu) as [Hu' Hx]. split; [done|].
  intros y Hy. apply elem_of_cons in Hy as [->|Hy]; auto.
Qed.

Lemma insert_None {K} `{Countable K} (u : gmap K string) k k' v :
  <[k := v]> u !! k' = None -> u !! k' = None /\ Some k <> Some k'.
Proof. rewrite lookup_insert_None. intros [? ?]. split; congruence. Qed.

Ltac used_key :=
  repeat case_match; intros; to_prop;
  first [ by split | by eapply insert_None | split; congruence ].

(** The number or address an object makes unavailable in a pool. *)
Definition claim_number_key (p self : string) (c : AllocationClaim) : option Z :=
  if claim_counts p self c && negb (Number (cs_Value (claim_status c)) =? 0)
  then Some (Number (cs_Value (claim_status c))) else None.
Definition lease_number_key (p self : string) (l : AllocationLease) : option Z :=
  if lease_counts p self l && negb (Number (Value (lease_spec l)) =? 0)
  then Some (Number (Value (lease_spec l))) else None.

Definition parsed (s : string) : option Addr :=
  match ParseAddr s with Ok a => Some a | Err _ => None end.
Definition claim_ip_key (p self : string) (c : AllocationClaim) : option Addr :=
  if claim_counts p self c && negb (is_empty (IP (cs_Value (claim_status c))))
  then parsed (IP (cs_Value (claim_status c))) else None.
Definition lease_ip_key (p self : string) (l : AllocationLease) : option Addr :=
  if lease_counts p self l && negb (is_empty (IP (Value (lease_spec l))))
  then parsed (IP (Value (lease_spec l))) else None.

Lemma used_numbers_None p n L cs ls k :
  used_numbers_leases p L (used_numbers_claims p n cs) ls !! k = None ->
  (forall c, c ∈ cs -> claim_number_key p n c <> Some k) /\
  (forall l, l ∈ ls -> lease_number_key p L l <> Some k).
Proof.
  intros Hn. apply (fold_used_None _ (lease_number_key p L)) in Hn as [Hc Hl].
  - split; [|done]. apply (fold_used_None _ (claim_number_key p n)) in Hc as [_ Hc]; [done|].
    unfold claim_number_key. intros u x k0. used_key.
  - unfold lease_number_key. intros u x k'. used_key.
Qed.

(** If each iteration adds at most the key of its element under the name of
    its holder, every key at the end was there at the start or has a holder
    among the elements. *)
Lemma fold_used_Some {A K} `{Countable K} (f : gmap K string -> A -> gmap K string)
    (holder : A -> K -> string -> Prop) l u k h :
  (forall u x k h, f u x !! k = Some h -> u !! k = Some h \/ holder x k h) ->
  fold_left f l u !! k = Some h -> u !! k = Some h \/ exists x, x ∈ l /\ holder x k h.
Proof.
  intros Hf. revert u. induction l as [|x l IH]; intros u Hs; simpl in Hs; [by left|].
  destruct (IH _ Hs) as [Hu|(y & Hy & Hh)]; [|right; exists y; split; [by right|done]].
  destruct (Hf _ _ _ _ Hu) as [?|?]; [by left|right; exists x; split; [by left|done]].
Qed.

(** Who holds a number of a pool: an allocated claim that names the pool, other
    than the claim [n] being served, or a lease of the pool other than its own
    lease [L]. *)
Definition number_holder (p n L : string) (cs : list AllocationClaim) (ls : list AllocationLease)
    (k : Z) (h : string) : Prop :=
  k <> 0 /\
  ((exists c, c ∈ cs /\ claim_name c <> n /\ p ∈ PoolRefs (claim_spec c) /\
      cs_Phase (claim_status c) = ClaimPhaseAllocated /\ Number (cs_Value (claim_status c)) = k /\
      h = claim_name c) \/
   (exists l, l ∈ ls /\ PoolRef (lease_spec l) = p /\ lease_name l <> L /\
      Number (Value (lease_spec l)) = k /\ h = ("lease/" ++ lease_name l)%string)).

Lemma claim_counts_spec p n c :
  claim_counts p n c = true <->
  claim_name c <> n /\ p ∈ PoolRefs (claim_spec c) /\ cs_Phase (claim_status c) = ClaimPhaseAllocated.
Proof.
  unfold claim_counts, claimReferencesPool.
  rewrite !andb_true_iff, negb_true_iff, String.eqb_neq, bool_decide_eq_true, existsb_exists.
  setoid_rewrite String.eqb_eq. setoid_rewrite list_elem_of_In.
  split; [intros [[? (x & ? & ?)] ?]; subst; eauto | intros (? & ? & ?); eauto 6].
Qed.

Lemma used_numbers_Some p n L cs ls k h :
  used_numbers_leases p L (used_numbers_claims p n cs) ls !! k = Some h -> number_holder p n L cs ls k h.
Proof.
  intros Hs. apply (fold_used_Some _ (fun l k h => lease_number_key p L l = Some k /\
    h = ("lease/" ++ lease_name l)%string)) in Hs as [Hs|(l & Hl & Hk & ->)].
  - apply (fold_used_Some _ (fun c k h => claim_number_key p n c = Some k /\ h = claim_name c))
      in Hs as [Hs|(c & Hc & Hk & ->)]; [by rewrite lookup_empty in Hs| |].
    + revert Hk. unfold claim_number_key. case_match; [|done]. intros [= <-]. to_prop.
      apply claim_counts_spec in H as (? & ? & ?). split; [done|]. left. eauto 10.
    + unfold claim_number_key. intros u x k' h'. case_match; [|by left].
      rewrite lookup_insert_Some. intros [[<- <-]|[_ ?]]; [by right|by left].
  - revert Hk. unfold lease_number_key, lease_counts. case_match; [|done]. intros [= <-]. to_prop.
    apply String.eqb_eq in H. apply String.eqb_neq in H1. split; [done|]. right. eauto 10.
  - unfold lease_number_key. intros u x k' h'. case_match; [|by left]. case_match; [by left|].
    rewrite lookup_insert_Some. intros [[<- <-]|[_ ?]]; [by right|by left].
Qed.

Lemma used_numbers_free p n L cs ls k :
  used_numbers_leases p L (used_numbers_claims p n cs) ls !! k = None <->
  ~ exists h, number_holder p n L cs ls k h.
Proof.
  split.
  - intros Hn (h & Hk & Hh). apply used_numbers_None in Hn as [Hc Hl].
    destruct Hh as [(c & Hin & Hne & Hp & Hph & Hv & _)|(l & Hin & Hp & Hne & Hv & _)].
    + apply (Hc _ Hin). unfold claim_number_key. rewrite (proj2 (claim_counts_spec p n c)) by done.
      rewrite Hv. by rewrite (proj2 (Z.eqb_neq k 0)).
    + apply (Hl _ Hin). unfold lease_number_key, lease_counts. rewrite Hp, String.eqb_refl.
      rewrite (proj2 (String.eqb_neq _ _) Hne), Hv. by rewrite (proj2 (Z.eqb_neq k 0)).
  - intros Hno. destruct (_ !! k) as [h|] eqn:Hs; [|done]. destruct Hno. exists h. by apply used_numbers_Some.
Qed.

Lemma used_numbers_taken p n L cs ls k :
  is_Some (used_numbers_leases p L (used_numbers_claims p n cs) ls !! k) ->
  exists h, number_holder p n L cs ls k h.
Proof. intros [h Hh]. exists h. by apply used_numbers_Some. Qed.

Lemma usedPoolIPs_None p n L cs ls a :
  usedPoolIPs p n L cs ls !! a = None ->
  (forall c, c ∈ cs -> claim_ip_key p n c <> Some a) /\
  (forall l, l ∈ ls -> lease_ip_key p L l <> Some a).
Proof.
  intros Hn. apply (fold_used_None _ (lease_ip_key p L)) in Hn as [Hc Hl].
  - split; [|done]. apply (fold_used_None _ (claim_ip_key p n)) in Hc as [_ Hc]; [done|].
    unfold claim_ip_key, parsed. intros u x k0. used_key.
  - unfold lease_ip_key, parsed. intros u x k'. used_key.
Qed.

Lemma excludeIPs_None ex u a : excludeIPs ex u !! a = None -> u !! a = None /\ forall raw, raw ∈ ex -> ParseAddr raw <> Ok a.
Proof.
  intros Hn. apply (fold_used_None _ parsed) in Hn as [Hu Hr].
  - split; [done|]. intros raw Hraw Hp. specialize (Hr raw Hraw). unfold parsed in Hr. by rewrite Hp in Hr.
  - unfold parsed. intros u' x k'. used_key.
Qed.

(** ** Numbers *)

(** What the scan found out, when [max] is not the last [uint64]. *)
Lemma scanNumbers_spec fuel used c max :
  0 <= c -> max < 2 ^ 64 - 1 ->
  match scanNumbers fuel used c max with
  | NumberFound n => c <= n <= max /\ used !! n = None /\ forall b, c <= b < n -> is_Some (used !! b)
  | NumbersFull => forall b, c <= b <= max -> is_Some (used !! b)
  | NumbersOutOfFuel => forall b, c <= b < c + Z.of_nat fuel -> is_Some (used !! b)
  end.
Proof.
  intros Hc Hm. revert c Hc. induction fuel as [|fuel IH]; intros c Hc; cbn [scanNumbers]; [lia|].
  destruct (Z.leb_spec c max) as [Hle|Hgt]; [|lia].
  destruct (used !! c) as [h|] eqn:Hu; [|split_and!; [lia|lia|done|lia]].
  rewrite wrapU_id by (unfold fitsU; lia). specialize (IH (c + 1) ltac:(lia)).
  assert (Hstep : forall b, c <= b -> (c + 1 <= b -> is_Some (used !! b)) -> is_Some (used !! b)).
  { intros b Hb Hn. destruct (decide (b = c)) as [->|]; [by eexists|]. apply Hn. lia. }
  destruct (scanNumbers fuel used (c + 1) max) as [n| |].
  - destruct IH as (? & ? & Hb). split_and!; [lia|lia|done|]. intros b Hb'. apply Hstep; [lia|].
    intros. apply Hb. lia.
  - intros b Hb'. apply Hstep; [lia|]. intros. apply IH. lia.
  - intros b Hb'. apply Hstep; [lia|]. intros. apply IH. lia.
Qed.

(** [S (size used)] iterations are enough. *)
Lemma scanNumbers_enough used c max :
  0 <= c -> max < 2 ^ 64 - 1 -> scanNumbers (S (size used)) used c max <> NumbersOutOfFuel.
Proof.
  intros Hc Hm Hout. pose proof (scanNumbers_spec (S (size used)) used c max Hc Hm) as Hs.
  rewrite Hout in Hs.
  assert (Hsub : list_to_set (seqZ c (Z.of_nat (S (size used)))) ⊆ dom used).
  { intros b Hb. apply elem_of_list_to_set, elem_of_seqZ in Hb. apply elem_of_dom, Hs. lia. }
  apply subseteq_size in Hsub. rewrite size_list_to_set, size_dom in Hsub by apply NoDup_seqZ.
  rewrite length_seqZ in Hsub. lia.
Qed.

Lemma scanNumbers_found_free fuel used c max n :
  scanNumbers fuel used c max = NumberFound n -> used !! n = None.
Proof.
  revert c. induction fuel as [|fuel IH]; intros c Hs; cbn [scanNumbers] in Hs; [done|].
  case_match; [|done]. case_match; [by eapply IH|]. by simplify_eq.
Qed.

#[global] Arguments scanNumbers : simpl never.

Lemma pickNumber_free p spec req used n : pickNumber p spec req used = Ok n -> used !! n = None.
Proof.
  unfold pickNumber, firstFreeNumber. intros Hp. destruct req as [r|].
  - by split_match_in Hp.
  - destruct (scanNumbers (S (size used)) used (Min spec) (Max spec)) eqn:Hs; [|done..].
    injection Hp as <-. by eapply scanNumbers_found_free.
Qed.

(** ** Addresses *)

Lemma first_fit_wf candidates used a :
  Forall candidate_wf candidates -> first_fit candidates used a ->
  Addr_wf a /\ IsValid a = true /\ zoneless a /\ used !! a = None.
Proof.
  intros Hwf (pre & c & post & -> & Hin & Hz & Hu & _).
  apply Forall_app in Hwf as [_ Hwf]. inversion Hwf as [|? ? (_ & Ha & _) _]; subst.
  apply ipRange_contains_spec in Hin as [Hb Hv]; [|done..].
  destruct Ha as (Hwl & Hwh & _ & _ & Hval & Hbl & _).
  split_and!; [|by destruct a, (lo (allocatable c))|done|done].
  destruct a, (lo (allocatable c)), (hi (allocatable c)); simpl in *; (done || lia).
Qed.

(** What [pickIP] returns is the text of a free address of the candidates. *)
Lemma pickIP_free p candidates req used s :
  Forall candidate_wf candidates -> pickIP p candidates req used = Ok s ->
  exists a, s = Addr_String a /\ Addr_wf a /\ IsValid a = true /\ used !! a = None /\
    candidatesContain candidates a = true.
Proof.
  intros Hwf Hp. unfold pickIP in Hp. destruct req as [raw|].
  - destruct (ParseAddr raw) as [a|] eqn:Hraw; [|done]. apply ParseAddr_wf in Hraw as [? ?].
    split_match_in Hp. exists a. to_prop. done.
  - pose proof (firstFitCandidate_spec candidates used Hwf) as Hff.
    destruct (firstFitCandidate candidates used) as [a|]; [|done]. injection Hp as <-.
    destruct (first_fit_wf _ _ _ Hwf Hff) as (? & ? & ? & ?).
    destruct (first_fit_in_span _ _ _ Hwf Hff) as (? & ? & ?). by exists a.
Qed.

Lemma claimCandidates_wf pool spec c cs :
  (exists cs0, parsePoolCandidates spec = Ok cs0 /\ Forall candidate_wf cs0) ->
  claimCandidates pool spec c = Ok cs -> Forall candidate_wf cs.
Proof.
  intros (cs0 & Hcs0 & Hwf). unfold claimCandidates. rewrite Hcs0. intros Hc.
  destruct (AllocationFilter (claim_spec c)) as [[|f fs]|]; [by simplify_eq| |by simplify_eq].
  destruct (parsePrefixCandidates (f :: fs)) as [flt|] eqn:Hf; [|done].
  apply parsePrefixCandidates_wf in Hf. rewrite Forall_forall in Hf.
  assert (Hall : Forall candidate_wf (intersectCandidates cs0 flt)).
  { apply Forall_forall. intros x Hx. apply intersectCandidates_spec in Hx as [Hx _]. auto. }
  destruct (intersectCandidates cs0 flt); [done|]. by injection Hc as <-.
Qed.
