(* ===== verification/AllocationCluster.v ===== *)
(** * AllocationCluster: the API server the allocation controllers talk to

    The stored objects, the documented behaviour of each call on them
    ([api_effect]: optimistic locking on [resourceVersion], the status
    subresource, admission by the webhooks of [AllocationAPI], finalizers),
    and what others may do between two calls ([env_step]: users, the lease
    and pool controllers and the garbage collector).  [api_server] is one
    call followed by any interference; the theorems hold for every server
    whose behaviours it includes.

    The invariant [Inv] states that no value is handed out twice. *)

From stdpp Require Import base gmap strings list relations.
From Stdlib Require Import ZArith Lia.
From S2P Require Import Prelude Effects Netip NetipFacts NetipText AddressRange AllocationRanges.
From S2P Require Import Kube AllocationTypes AllocationAPI AllocationClaimReconciler.

Open Scope Z_scope.

(** ** State *)

Record cluster := MkCluster {
  claims : gmap string AllocationClaim;
  leases : gmap string AllocationLease;
  pools : gmap string AllocationPool;
}.

Definition set_claims (s : cluster) m := MkCluster m (leases s) (pools s).
Definition set_leases (s : cluster) m := MkCluster (claims s) m (pools s).
Definition set_pools (s : cluster) m := MkCluster (claims s) (leases s) m.

(** A lease spec as it is stored: times have a resolution of one second. *)
Definition wire_lease_spec (sp : AllocationLeaseSpec) : AllocationLeaseSpec :=
  MkLeaseSpec (PoolRef sp) (Value sp) (ClaimRef sp) (Time_wire <$> OwnerDeletionTimestamp sp)
    (TTLSeconds sp) (ls_RetainWhile sp) (ls_NetworkInterface sp).

(** ** Calls *)

Section Contract.
Context `{KubeLib}.

(** The answer to a read of one object. *)
Definition get_answer {A} (m : gmap string A) (n : string) (r : result api_error A) : Prop :=
  match r with
  | Ok a => m !! n = Some a
  | Err NotFound => m !! n = None
  | Err _ => True
  end.

Definition list_answer {A} (m : gmap string A) (r : result api_error (list A)) : Prop :=
  match r with
  | Ok l => forall a, a ∈ l <-> exists n, m !! n = Some a
  | Err _ => True
  end.

(** A write: applied and answered, refused, or failed with the outcome
    unknown. *)
Definition write_answer {A} (applied : A -> cluster -> Prop) (s : cluster)
  (r : result api_error A) (s' : cluster) : Prop :=
  match r with
  | Ok a => applied a s'
  | Err e => s' = s \/ rejected e = false /\ exists a, applied a s'
  end.

Definition UpdateClaim_applied (c : AllocationClaim) (s : cluster) (c' : AllocationClaim)
  (s' : cluster) : Prop :=
  exists cur, claims s !! claim_name c = Some cur /\
  ResourceVersion (claim_meta cur) = ResourceVersion (claim_meta c) /\
  claim_ValidateUpdate cur c = [] /\
  Name (claim_meta c') = Name (claim_meta cur) /\
  UID (claim_meta c') = UID (claim_meta cur) /\
  DeletionTimestamp (claim_meta c') = DeletionTimestamp (claim_meta cur) /\
  Finalizers (claim_meta c') = Finalizers (claim_meta c) /\
  claim_spec c' = claim_spec c /\ claim_status c' = claim_status cur /\
  s' = set_claims s
  (if IsDeleting (claim_meta cur) && bool_decide (Finalizers (claim_meta c) = [])
    then delete (claim_name c) (claims s) else <[claim_name c := c']> (claims s)).

Definition UpdateClaimStatus_applied (c : AllocationClaim) (s : cluster) (c' : AllocationClaim)
  (s' : cluster) : Prop :=
  exists cur rv, claims s !! claim_name c = Some cur /\
  ResourceVersion (claim_meta cur) = ResourceVersion (claim_meta c) /\
  claim_meta c' = set_rv (claim_meta cur) rv /\ claim_spec c' = claim_spec cur /\
  cs_Phase (claim_status c') = cs_Phase (claim_status c) /\
  cs_Value (claim_status c') = cs_Value (claim_status c) /\
  s' = set_claims s (<[claim_name c := c']> (claims s)).

Definition CreateLease_applied (l : AllocationLease) (s : cluster) (l' : AllocationLease)
  (s' : cluster) : Prop :=
  leases s !! lease_name l = None /\ lease_name l <> ""%string /\
  lease_ValidateCreate l = [] /\
  lease_name l' = lease_name l /\ lease_spec l' = wire_lease_spec (lease_spec l) /\
  s' = set_leases s (<[lease_name l := l']> (leases s)).

Definition UpdateLease_applied (l : AllocationLease) (s : cluster) (l' : AllocationLease)
  (s' : cluster) : Prop :=
  exists cur, leases s !! lease_name l = Some cur /\
  ResourceVersion (lease_meta cur) = ResourceVersion (lease_meta l) /\
  lease_ValidateUpdate cur l = [] /\
  lease_name l' = lease_name l /\ lease_spec l' = wire_lease_spec (lease_spec l) /\
  lease_status l' = lease_status cur /\
  s' = set_leases s (<[lease_name l := l']> (leases s)).

Definition UpdateLeaseStatus_applied (l : AllocationLease) (s : cluster) (l' : AllocationLease)
  (s' : cluster) : Prop :=
  exists cur, leases s !! lease_name l = Some cur /\
  ResourceVersion (lease_meta cur) = ResourceVersion (lease_meta l) /\
  lease_name l' = lease_name l /\ lease_spec l' = lease_spec cur /\
  s' = set_leases s (<[lease_name l := l']> (leases s)).

(** A lease is removed, or marked for deletion when it has finalizers. *)
Definition DeleteLease_applied (n : string) (uid : option string) (s : cluster) (_ : unit)
  (s' : cluster) : Prop :=
  exists cur, leases s !! n = Some cur /\
  (forall u, uid = Some u -> u = UID (lease_meta cur)) /\
  (s' = set_leases s (delete n (leases s)) \/
    Finalizers (lease_meta cur) <> [] /\
    exists l', lease_name l' = lease_name cur /\ lease_spec l' = lease_spec cur /\
    IsDeleting (lease_meta l') = true /\ s' = set_leases s (<[n := l']> (leases s))).

Definition UpdatePoolStatus_applied (p : AllocationPool) (s : cluster) (p' : AllocationPool)
  (s' : cluster) : Prop :=
  exists cur, pools s !! pool_name p = Some cur /\
  ResourceVersion (pool_meta cur) = ResourceVersion (pool_meta p) /\
  pool_name p' = pool_name p /\ pool_spec p' = pool_spec cur /\ pool_status p' = pool_status p /\
  s' = set_pools s (<[pool_name p := p']> (pools s)).

Definition api_effect R (e : api R) : cluster -> R -> cluster -> Prop :=
  match e in api R return cluster -> R -> cluster -> Prop with
  | GetClaim _ n => fun s r s' => s' = s /\ get_answer (claims s) n r
  | ListClaims _ => fun s r s' => s' = s /\ list_answer (claims s) r
  | ListClaimsByPool p => fun s r s' => s' = s /\
      match r with
      | Ok cs => forall c, c ∈ cs <-> exists n, claims s !! n = Some c /\ p ∈ claimPoolRefKeys c
      | Err _ => True
      end
  | UpdateClaim c => fun s r s' => write_answer (UpdateClaim_applied c s) s r s'
  | UpdateClaimStatus c => fun s r s' => write_answer (UpdateClaimStatus_applied c s) s r s'
  | GetLease _ n => fun s r s' => s' = s /\ get_answer (leases s) n r
  | ListLeases _ => fun s r s' => s' = s /\ list_answer (leases s) r
  | ListLeasesByRetain k => fun s r s' => s' = s /\
      match r with
      | Ok ls => forall l, l ∈ ls <-> exists n, leases s !! n = Some l /\
          retainReferenceKey <$> ls_RetainWhile (lease_spec l) = Some k
      | Err _ => True
      end
  | CreateLease l => fun s r s' => write_answer (CreateLease_applied l s) s r s' /\
      (r = Err AlreadyExists -> is_Some (leases s !! lease_name l))
  | UpdateLease l => fun s r s' => write_answer (UpdateLease_applied l s) s r s'
  | UpdateLeaseStatus l => fun s r s' => write_answer (UpdateLeaseStatus_applied l s) s r s'
  | DeleteLease n uid => fun s r s' => write_answer (DeleteLease_applied n uid s) s r s' /\
      (r = Err NotFound -> leases s !! n = None)
  | GetPool _ n => fun s r s' => s' = s /\ get_answer (pools s) n r
  | UpdatePoolStatus p => fun s r s' => write_answer (UpdatePoolStatus_applied p s) s r s'
  | GetOwner _ _ => fun s _ s' => s' = s
  | GetRetained _ => fun s _ s' => s' = s
  | Now => fun s _ s' => s' = s
  end.

(** A stored pool: under its name, and admitted by its webhook. *)
Definition pool_ok (n : string) (p : AllocationPool) : Prop :=
  pool_name p = n /\ pool_ValidateCreate p = [].

(** ** Interference *)

Inductive env_step (s : cluster) : cluster -> Prop :=
| env_claim_create n c :
    claims s !! n = None -> claim_name c = n -> n <> ""%string ->
    cs_Phase (claim_status c) = ClaimPhaseNone ->
    env_step s (set_claims s (<[n := c]> (claims s)))
| env_claim_update n c c' :
    claims s !! n = Some c -> claim_ValidateUpdate c c' = [] ->
    claim_name c' = claim_name c -> claim_status c' = claim_status c ->
    DeletionTimestamp (claim_meta c') = DeletionTimestamp (claim_meta c) ->
    (allocationClaimFinalizer ∈ Finalizers (claim_meta c) ->
      allocationClaimFinalizer ∈ Finalizers (claim_meta c')) ->
    env_step s (set_claims s (<[n := c']> (claims s)))
| env_claim_delete n c t :
    claims s !! n = Some c -> Finalizers (claim_meta c) <> [] -> t <> zeroTime ->
    env_step s (set_claims s (<[n := MkClaim
      (MkMeta (Name (claim_meta c)) (Namespace (claim_meta c)) (UID (claim_meta c))
        (ResourceVersion (claim_meta c)) (Generation (claim_meta c)) (Finalizers (claim_meta c))
        (Some t) (OwnerReferences (claim_meta c)))
      (claim_spec c) (claim_status c)]> (claims s)))
| env_claim_gone n c :
    claims s !! n = Some c -> Finalizers (claim_meta c) = [] ->
    env_step s (set_claims s (delete n (claims s)))
| env_lease_touch n l l' :
    leases s !! n = Some l -> lease_name l' = lease_name l -> lease_spec l' = lease_spec l ->
    env_step s (set_leases s (<[n := l']> (leases s)))
| env_lease_gone n :
    env_step s (set_leases s (delete n (leases s)))
| env_pools ps :
    (forall n p, ps !! n = Some p -> pool_ok n p) ->
    env_step s (set_pools s ps).

Definition api_server : server api cluster :=
  fun R e s r s' => exists s1, api_effect R e s r s1 /\ rtc env_step s1 s'.

(** A server whose behaviours the contract includes. *)
Class AllocationServer (srv : server api cluster) : Prop :=
  server_contract : forall R e s r s', srv R e s r s' -> api_server R e s r s'.

(** ** The invariant *)

(** Two values that cannot both be in use. *)
Definition conflicts (v w : AllocationValue) : Prop :=
  Number v <> 0 /\ Number v = Number w \/ IP v <> ""%string /\ IP v = IP w.

Lemma conflicts_sym v w : conflicts v w -> conflicts w v.
Proof. unfold conflicts. intros [[? ?]|[? ?]]; [left|right]; split; congruence. Qed.

(** A claim that holds a value: allocated, and not being deleted. *)
Definition holds (c : AllocationClaim) : Prop :=
  IsDeleting (claim_meta c) = false /\ cs_Phase (claim_status c) = ClaimPhaseAllocated.

(** The claim records itself as the holder of a lease that is not released. *)
Definition backs (l : AllocationLease) (n : string) : Prop :=
  cr_Name (ClaimRef (lease_spec l)) = n /\
  Time_IsZero (OwnerDeletionTimestamp (lease_spec l)) = true.

Record Inv (s : cluster) : Prop := {
  inv_claim_keys n c : claims s !! n = Some c -> claim_name c = n /\ n <> ""%string;
  inv_lease_keys n l : leases s !! n = Some l -> lease_name l = n /\ n <> ""%string;
  inv_pools n p : pools s !! n = Some p -> pool_ok n p;
  inv_lease_holder n l : leases s !! n = Some l -> cr_Name (ClaimRef (lease_spec l)) <> ""%string;
  (** No two leases of a pool reserve the same value. *)
  inv_leases n m l k :
  leases s !! n = Some l -> leases s !! m = Some k -> n <> m ->
  PoolRef (lease_spec l) = PoolRef (lease_spec k) ->
  ~ conflicts (Value (lease_spec l)) (Value (lease_spec k));
  (** The lease of a value that a claim holds is the claim's own. *)
  inv_claim_lease n c m l :
  claims s !! n = Some c -> holds c -> leases s !! m = Some l ->
  PoolRefs (claim_spec c) = [PoolRef (lease_spec l)] ->
  conflicts (Value (lease_spec l)) (cs_Value (claim_status c)) -> backs l n;
  (** No two claims of a pool hold the same value. *)
  inv_claims n m c d p :
  claims s !! n = Some c -> claims s !! m = Some d -> n <> m -> holds c -> holds d ->
  PoolRefs (claim_spec c) = [p] -> PoolRefs (claim_spec d) = [p] ->
  ~ conflicts (cs_Value (claim_status c)) (cs_Value (claim_status d));
}.
End Contract.
