(* ===== verification/AllocationSafety.v ===== *)
(** * AllocationSafety: no value is handed out twice

    Every run of [AllocationClaimReconciler.Reconcile], interrupted at any
    call and interleaved with any interference, keeps the invariant of
    [AllocationCluster]. *)

From stdpp Require Import base gmap strings list relations.
From Stdlib Require Import ZArith Lia.
From S2P Require Import Prelude Effects Netip NetipFacts NetipText AddressRange AllocationRanges.
From S2P Require Import Kube AllocationTypes AllocationAPI AllocationClaimReconciler AllocationPick.
From S2P Require Import AllocationCluster.

Open Scope Z_scope.

Section Safety.
Context `{KubeLib}.

(** ** How the world evolves on its own

    Leases only disappear, no claim starts to hold a value, and a claim
    with the controller's finalizer stays what it is. *)

Record evolves (s s' : cluster) : Prop := {
  ev_leases n l' : leases s' !! n = Some l' ->
  exists l, leases s !! n = Some l /\ lease_name l' = lease_name l /\ lease_spec l' = lease_spec l;
  ev_claims n c' : claims s' !! n = Some c' -> claim_name c' = n /\ n <> ""%string /\
  (holds c' -> exists c, claims s !! n = Some c /\ holds c /\
    PoolRefs (claim_spec c') = PoolRefs (claim_spec c) /\
    cs_Value (claim_status c') = cs_Value (claim_status c));
  ev_pools n p : pools s' !! n = Some p -> pool_ok n p;
  ev_kept n c : claims s !! n = Some c ->
  allocationClaimFinalizer ∈ Finalizers (claim_meta c) ->
  exists c', claims s' !! n = Some c' /\
  allocationClaimFinalizer ∈ Finalizers (claim_meta c') /\
  PoolRefs (claim_spec c') = PoolRefs (claim_spec c) /\
  (IsDeleting (claim_meta c) = true -> IsDeleting (claim_meta c') = true);
}.

Lemma evolves_refl s : Inv s -> evolves s s.
Proof.
  intros HI. split; [by eauto| |apply inv_pools; done|by eauto].
  intros n c Hc. destruct (inv_claim_keys _ HI _ _ Hc). eauto 10.
Qed.

Lemma evolves_trans s1 s2 s3 : evolves s1 s2 -> evolves s2 s3 -> evolves s1 s3.
Proof.
  intros [L1 C1 P1 K1] [L2 C2 P2 K2]. split.
  - intros n l3 (l2 & Hl2 & ? & ?)%L2. destruct (L1 _ _ Hl2) as (l1 & ? & ? & ?).
    exists l1. split_and!; [done|congruence..].
  - intros n c3 Hc3. destruct (C2 _ _ Hc3) as (? & ? & Hh). split_and!; [done..|].
    intros (c2 & Hc2 & Hh2 & ? & ?)%Hh. destruct (C1 _ _ Hc2) as (_ & _ & Hh1).
    destruct (Hh1 Hh2) as (c1 & ? & ? & ? & ?). exists c1. split_and!; [done|done|congruence..].
  - done.
  - intros n c Hc Hf. destruct (K1 _ _ Hc Hf) as (c2 & Hc2 & Hf2 & ? & ?).
    destruct (K2 _ _ Hc2 Hf2) as (c3 & ? & ? & ? & ?).
    exists c3. split_and!; [done|done|congruence|auto].
Qed.

Lemma Inv_evolves s s' : Inv s -> evolves s s' -> Inv s'.
Proof.
  intros HI [L C P K]. split.
  - intros n c Hc. by destruct (C _ _ Hc) as (? & ? & _).
  - intros n l Hl. destruct (L _ _ Hl) as (k & Hk & -> & _). by apply (inv_lease_keys s).
  - done.
  - intros n l Hl. destruct (L _ _ Hl) as (k & Hk & _ & ->). by eapply inv_lease_holder.
  - intros n m l k Hl Hk Hne. destruct (L _ _ Hl) as (l0 & Hl0 & _ & ->).
    destruct (L _ _ Hk) as (k0 & Hk0 & _ & ->). by eapply inv_leases.
  - intros n c m l Hc Hh Hl. destruct (C _ _ Hc) as (_ & _ & Hc').
    destruct (Hc' Hh) as (c0 & ? & ? & -> & ->).
    destruct (L _ _ Hl) as (l0 & Hl0 & _ & Hs). unfold backs. rewrite Hs.
    by eapply inv_claim_lease.
  - intros n m c d p Hc Hd Hne Hhc Hhd. destruct (C _ _ Hc) as (_ & _ & Hc').
    destruct (C _ _ Hd) as (_ & _ & Hd').
    destruct (Hc' Hhc) as (c0 & ? & ? & -> & ->). destruct (Hd' Hhd) as (d0 & ? & ? & -> & ->).
    by eapply inv_claims.
Qed.

(** Changes to the leases alone, and to the claims alone. *)
Lemma evolves_set_leases s m :
  Inv s ->
  (forall n l', m !! n = Some l' ->
    exists l, leases s !! n = Some l /\ lease_name l' = lease_name l /\ lease_spec l' = lease_spec l) ->
  evolves s (set_leases s m).
Proof. intros HI Hm. destruct (evolves_refl s HI). by split. Qed.

Lemma evolves_set_claim s n c' :
  Inv s -> claim_name c' = n -> n <> ""%string ->
  (holds c' -> exists c, claims s !! n = Some c /\ holds c /\
    PoolRefs (claim_spec c') = PoolRefs (claim_spec c) /\
    cs_Value (claim_status c') = cs_Value (claim_status c)) ->
  (forall c, claims s !! n = Some c -> allocationClaimFinalizer ∈ Finalizers (claim_meta c) ->
    allocationClaimFinalizer ∈ Finalizers (claim_meta c') /\
    PoolRefs (claim_spec c') = PoolRefs (claim_spec c) /\
    (IsDeleting (claim_meta c) = true -> IsDeleting (claim_meta c') = true)) ->
  evolves s (set_claims s (<[n := c']> (claims s))).
Proof.
  intros HI Hn Hne Hh Hk. destruct (evolves_refl s HI) as [L C P K]. split; simpl; [done| |done|].
  - intros m d Hd. apply lookup_insert_Some in Hd as [[<- <-]|[Hmn Hd]]; [done|]. by apply C.
  - intros m d Hd Hf. destruct (decide (n = m)) as [<-|Hmn].
    + exists c'. rewrite lookup_insert_eq. destruct (Hk d Hd Hf) as (? & ? & ?). done.
    + rewrite lookup_insert_ne by done. exists d. done.
Qed.

Lemma evolves_delete_claim s n :
  Inv s ->
  (forall c, claims s !! n = Some c -> allocationClaimFinalizer ∉ Finalizers (claim_meta c)) ->
  evolves s (set_claims s (delete n (claims s))).
Proof.
  intros HI Hk. destruct (evolves_refl s HI) as [L C P K]. split; simpl; [done| |done|].
  - intros m d Hd. apply lookup_delete_Some in Hd as [_ Hd]. by apply C.
  - intros m d Hd Hf. destruct (decide (n = m)) as [<-|Hmn]; [by apply Hk in Hd|].
    rewrite lookup_delete_ne by done. exists d. done.
Qed.

Lemma lease_touch_sub (m : gmap string AllocationLease) n l l' k x :
  m !! n = Some l -> lease_name l' = lease_name l -> lease_spec l' = lease_spec l ->
  <[n := l']> m !! k = Some x ->
  exists y, m !! k = Some y /\ lease_name x = lease_name y /\ lease_spec x = lease_spec y.
Proof. intros Hl ?? [[<- <-]|[? ?]]%lookup_insert_Some; eauto. Qed.

Lemma lease_delete_sub (m : gmap string AllocationLease) n k x :
  delete n m !! k = Some x ->
  exists y, m !! k = Some y /\ lease_name x = lease_name y /\ lease_spec x = lease_spec y.
Proof. intros [? ?]%lookup_delete_Some; eauto. Qed.

Lemma holds_same c c' :
  DeletionTimestamp (claim_meta c') = DeletionTimestamp (claim_meta c) ->
  claim_status c' = claim_status c -> holds c' -> holds c.
Proof. unfold holds, IsDeleting. by intros -> ->. Qed.

Lemma evolves_env s s' : Inv s -> env_step s s' -> evolves s s'.
Proof.
  intros HI Hs.
  destruct Hs as [n c Hn Hname Hne Hph|n c c' Hc Hv Hname Hst Hdt Hf|n c t Hc Hf Ht|n c Hc Hf
    |n l l' Hl Hname Hsp|n|ps Hps].
  - apply evolves_set_claim; [done..| |congruence]. intros [_ Hh]. congruence.
  - destruct (inv_claim_keys _ HI _ _ Hc). apply claim_ValidateUpdate_nil in Hv as [Hp _].
    apply evolves_set_claim; [done|congruence|done| |].
    + intros Hh. exists c. rewrite Hst. split_and!; [done| |done..]. by eapply holds_same.
    + intros d Hd Hfd. rewrite Hc in Hd. injection Hd as <-. unfold IsDeleting. rewrite Hdt. auto.
  - destruct (inv_claim_keys _ HI _ _ Hc) as [<- ?].
    assert (Hdel : forall c0, IsDeleting (MkMeta (Name (claim_meta c)) (Namespace (claim_meta c))
      (UID (claim_meta c)) (ResourceVersion (claim_meta c)) (Generation (claim_meta c)) c0
      (Some t) (OwnerReferences (claim_meta c))) = true).
    { intros c0. unfold IsDeleting. simpl. by rewrite bool_decide_eq_false_2. }
    apply evolves_set_claim; [done..| |].
    + intros [Hh _]. simpl in Hh. by rewrite Hdel in Hh.
    + intros d Hd Hfd. rewrite Hc in Hd. injection Hd as <-. simpl. by rewrite Hdel.
  - apply evolves_delete_claim; [done|]. intros d Hd. rewrite Hc in Hd. injection Hd as <-.
    rewrite Hf. by apply not_elem_of_nil.
  - apply evolves_set_leases; [done|]. intros k x. by apply lease_touch_sub with l.
  - apply evolves_set_leases; [done|]. intros k x. apply lease_delete_sub.
  - destruct (evolves_refl s HI). by split.
Qed.

Lemma evolves_env_rtc s s' : Inv s -> rtc env_step s s' -> evolves s s'.
Proof.
  intros HI Hs. induction Hs as [s|s s1 s2 H1 H2 IH]; [by apply evolves_refl|].
  pose proof (evolves_env _ _ HI H1) as Hev. eapply evolves_trans; [exact Hev|].
  apply IH. by eapply Inv_evolves.
Qed.

(** ** One call *)

Context (srv : server api cluster) `{!AllocationServer srv}.

Abbreviation WP := (wpi srv Inv).

Lemma WP_call {R A} (e : api R) (k : R -> prog api A) Q s :
  Inv s ->
  (forall r s1, api_effect R e s r s1 -> Inv s1 /\
    forall s', Inv s' -> evolves s1 s' -> WP (k r) Q s') ->
  WP (Vis e k) Q s.
Proof.
  intros HI He. split; [done|]. intros r s' Hr.
  apply server_contract in Hr as (s1 & Heff & Henv). destruct (He r s1 Heff) as [HI1 Hk].
  pose proof (evolves_env_rtc _ _ HI1 Henv) as Hev. apply Hk; [|done]. by eapply Inv_evolves.
Qed.

Lemma WP_bind_call {R A} (e : api R) (k : R -> prog api A) Q s :
  Inv s ->
  (forall r s1, api_effect R e s r s1 -> Inv s1 /\
    forall s', Inv s' -> evolves s1 s' -> WP (k r) Q s') ->
  WP (bind (call e) k) Q s.
Proof. apply WP_call. Qed.

Lemma WP_try_call {R A} (e : api (result api_error R)) (k : R -> prog api (result api_error A)) Q s :
  Inv s ->
  (forall r s1, api_effect _ e s r s1 -> Inv s1 /\
    forall s', Inv s' -> evolves s1 s' ->
    match r with Ok a => WP (k a) Q s' | Err er => Q (Err er) s' end) ->
  WP (tryP (call e) k) Q s.
Proof.
  intros HI He. apply WP_bind_call; [done|]. intros r s1 Hr. destruct (He r s1 Hr) as [HI1 Hk].
  split; [done|]. intros s' HI' Hev. specialize (Hk s' HI' Hev). by destruct r.
Qed.

(** A call that only reads. *)
Lemma WP_read {R A} (e : api R) (k : R -> prog api A) Q s :
  Inv s -> (forall r s1, api_effect R e s r s1 -> s1 = s) ->
  (forall r s', api_effect R e s r s -> Inv s' -> evolves s s' -> WP (k r) Q s') ->
  WP (bind (call e) k) Q s.
Proof.
  intros HI Hread Hk. apply WP_bind_call; [done|]. intros r s1 Hr.
  pose proof (Hread _ _ Hr). subst. split; [done|]. eauto.
Qed.

Lemma write_evolves {A} (applied : A -> cluster -> Prop) s r s' :
  Inv s -> (forall a s1, applied a s1 -> evolves s s1) -> write_answer applied s r s' -> evolves s s'.
Proof.
  intros HI Ha. destruct r as [a|e]; simpl; [apply Ha|].
  intros [->|(_ & a & Hap)]; [by apply evolves_refl|by eapply Ha].
Qed.

(** A write that keeps the invariant, whatever its answer. *)
Lemma write_Inv {A} (applied : A -> cluster -> Prop) s r s' :
  Inv s -> (forall a s1, applied a s1 -> Inv s1) -> write_answer applied s r s' -> Inv s'.
Proof. intros HI Ha. destruct r as [a|e]; simpl; [apply Ha|]. intros [->|(_ & a & ?)]; eauto. Qed.

(** ** Facts that survive interference *)

(** The claim [n] is there, finalized, with these pool references. *)
Definition claim_kept (n : string) (refs : list string) (s : cluster) : Prop :=
  exists c, claims s !! n = Some c /\ allocationClaimFinalizer ∈ Finalizers (claim_meta c) /\
  PoolRefs (claim_spec c) = refs.

(** The lease [n] is gone, or still has this spec. *)
Definition lease_was (n : string) (h : option AllocationLeaseSpec) (s : cluster) : Prop :=
  forall l, leases s !! n = Some l -> h = Some (lease_spec l).

(** No other claim of pool [p] holds [v]. *)
Definition claims_clear (n p : string) (v : AllocationValue) (s : cluster) : Prop :=
  forall m d, m <> n -> claims s !! m = Some d -> holds d -> PoolRefs (claim_spec d) = [p] ->
  ~ conflicts (cs_Value (claim_status d)) v.

(** Every lease of pool [p] for [v] satisfies [ok]. *)
Definition leases_clear (ok : string -> AllocationLeaseSpec -> Prop) (p : string)
  (v : AllocationValue) (s : cluster) : Prop :=
  forall m l, leases s !! m = Some l -> PoolRef (lease_spec l) = p ->
  conflicts (Value (lease_spec l)) v -> ok m (lease_spec l).

(** The claim [n] may take a lease with this spec. *)
Definition takeable (n : string) (sp : AllocationLeaseSpec) : Prop :=
  cr_Name (ClaimRef sp) = n \/ Time_IsZero (OwnerDeletionTimestamp sp) = false.

(** The lease is the claim's, and not released. *)
Definition owned (n : string) (sp : AllocationLeaseSpec) : Prop :=
  cr_Name (ClaimRef sp) = n /\ Time_IsZero (OwnerDeletionTimestamp sp) = true.

(** [v] was chosen for claim [n], whose lease is [L]. *)
Definition chosen (n L p : string) (v : AllocationValue) (s : cluster) : Prop :=
  claims_clear n p v s /\ leases_clear (fun m sp => m = L /\ takeable n sp) p v s.

(** [v] is recorded for claim [n]. *)
Definition recorded (n p : string) (v : AllocationValue) (s : cluster) : Prop :=
  claims_clear n p v s /\ leases_clear (fun _ sp => owned n sp) p v s.

Lemma claim_kept_ev n refs s s' : evolves s s' -> claim_kept n refs s -> claim_kept n refs s'.
Proof.
  intros Hev (c & Hc & Hf & <-). destruct (ev_kept _ _ Hev _ _ Hc Hf) as (c' & ? & ? & ? & _).
  by exists c'.
Qed.

Lemma lease_was_ev n h s s' : evolves s s' -> lease_was n h s -> lease_was n h s'.
Proof.
  intros Hev Hw l Hl. destruct (ev_leases _ _ Hev _ _ Hl) as (l0 & Hl0 & _ & ->). by apply Hw.
Qed.

Lemma claims_clear_ev n p v s s' : evolves s s' -> claims_clear n p v s -> claims_clear n p v s'.
Proof.
  intros Hev Hc m d Hne Hd Hh Hp. destruct (ev_claims _ _ Hev _ _ Hd) as (_ & _ & Hx).
  destruct (Hx Hh) as (d0 & ? & ? & Hr & ->). rewrite Hr in Hp. by eapply Hc.
Qed.

Lemma leases_clear_ev ok p v s s' : evolves s s' -> leases_clear ok p v s -> leases_clear ok p v s'.
Proof.
  intros Hev Hc m l Hl Hp Hv. destruct (ev_leases _ _ Hev _ _ Hl) as (l0 & ? & _ & Hs).
  rewrite Hs in *. by eapply Hc.
Qed.

Lemma chosen_ev n L p v s s' : evolves s s' -> chosen n L p v s -> chosen n L p v s'.
Proof. intros ? [? ?]. split; eauto using claims_clear_ev, leases_clear_ev. Qed.

Lemma recorded_ev n p v s s' : evolves s s' -> recorded n p v s -> recorded n p v s'.
Proof. intros ? [? ?]. split; eauto using claims_clear_ev, leases_clear_ev. Qed.

Hint Resolve claim_kept_ev lease_was_ev chosen_ev recorded_ev : juneau.

(** ** Writes *)

Lemma lease_insert_cases (m : gmap string AllocationLease) n l' k x :
  <[n := l']> m !! k = Some x -> k = n /\ x = l' \/ k <> n /\ m !! k = Some x.
Proof. intros [[<- <-]|[? ?]]%lookup_insert_Some; auto. Qed.

(** Storing a lease whose value is free, or is the one it already had. *)
Lemma Inv_insert_lease s n l' :
  Inv s -> n <> ""%string -> lease_name l' = n ->
  cr_Name (ClaimRef (lease_spec l')) <> ""%string ->
  (forall m k, m <> n -> leases s !! m = Some k -> PoolRef (lease_spec k) = PoolRef (lease_spec l') ->
    ~ conflicts (Value (lease_spec k)) (Value (lease_spec l'))) ->
  (forall m c, claims s !! m = Some c -> holds c -> PoolRefs (claim_spec c) = [PoolRef (lease_spec l')] ->
    conflicts (Value (lease_spec l')) (cs_Value (claim_status c)) -> backs l' m) ->
  Inv (set_leases s (<[n := l']> (leases s))).
Proof.
  intros HI Hne Hname Hholder Hfree Hclaims.
  split; simpl; try by destruct HI.
  - intros k x [[-> ->]|[? Hx]]%lease_insert_cases; [done|]. by apply (inv_lease_keys s).
  - intros k x [[-> ->]|[? Hx]]%lease_insert_cases; [done|]. by eapply inv_lease_holder.
  - intros k j x y [[-> ->]|[? Hx]]%lease_insert_cases [[-> ->]|[? Hy]]%lease_insert_cases ?; [done| | |].
    + intros Hp Hc. apply conflicts_sym in Hc. eapply Hfree; eauto.
    + by eapply Hfree.
    + by eapply inv_leases.
  - intros k c j x Hc Hh [[-> ->]|[? Hx]]%lease_insert_cases; [by apply Hclaims|].
    by eapply inv_claim_lease.
Qed.

(** An update of a lease that keeps its holder, or takes it over. *)
Lemma Inv_update_lease s l l' sp :
  Inv s -> UpdateLease_applied l s l' sp ->
  (forall cur, leases s !! lease_name l = Some cur ->
    (forall m c, claims s !! m = Some c -> holds c -> backs cur m -> backs l' m)) ->
  Inv sp.
Proof.
  intros HI (cur & Hcur & _ & Hval & Hname & Hspec & _ & ->) Hb.
  apply lease_ValidateUpdate_nil in Hval as (Hpool & Hvalue & Hwf).
  destruct (inv_lease_keys _ HI _ _ Hcur) as [_ Hne].
  assert (Hp' : PoolRef (lease_spec l') = PoolRef (lease_spec cur)) by (rewrite Hspec; done).
  assert (Hv' : Value (lease_spec l') = Value (lease_spec cur)) by (rewrite Hspec; done).
  apply Inv_insert_lease; [done..| | |].
  - rewrite Hspec. by apply validateAllocationLeaseSpec_holder.
  - intros m k Hmn Hk. rewrite Hp', Hv'. by eapply inv_leases.
  - intros m c Hc Hh. rewrite Hp', Hv'. intros Hr Hv. eapply Hb; [done..|].
    by eapply inv_claim_lease.
Qed.

(** A status write that does not make the claim hold a value. *)
Lemma status_evolves s c c' s' :
  Inv s -> cs_Phase (claim_status c) <> ClaimPhaseAllocated ->
  UpdateClaimStatus_applied c s c' s' -> evolves s s'.
Proof.
  intros HI Hph (cur & rv & Hcur & _ & Hm & Hs & Hp & Hv & ->).
  destruct (inv_claim_keys _ HI _ _ Hcur) as [Hn ?].
  apply evolves_set_claim; [done| |done| |].
  - unfold claim_name at 1. rewrite Hm. simpl. exact Hn.
  - intros [_ Hh]. rewrite Hp in Hh. done.
  - intros d Hd Hf. rewrite Hcur in Hd. injection Hd as <-. by rewrite Hm, Hs.
Qed.

(** The status write of a recorded value. *)
Lemma Inv_allocated s c c' s' p refs v :
  Inv s -> claim_kept (claim_name c) refs s -> p ∈ refs -> recorded (claim_name c) p v s ->
  cs_Value (claim_status c) = v -> UpdateClaimStatus_applied c s c' s' -> Inv s'.
Proof.
  intros HI (c0 & Hc0 & _ & Hrefs) Hp [Hcl Hle] Hval (cur & rv & Hcur & _ & Hm & Hs & Hph & Hv & ->).
  rewrite Hc0 in Hcur. injection Hcur as <-.
  destruct (inv_claim_keys _ HI _ _ Hc0) as [Hn ?]. set (n := claim_name c) in *.
  assert (Hv' : cs_Value (claim_status c') = v) by congruence.
  assert (Hone : forall q, PoolRefs (claim_spec c') = [q] -> q = p).
  { intros q Hq. rewrite Hs, Hrefs in Hq. rewrite Hq in Hp. by apply list_elem_of_singleton in Hp. }
  split; simpl; try by destruct HI.
  - intros k x [[<- <-]|[? Hx]]%lookup_insert_Some; [|by apply (inv_claim_keys s)].
    split; [|done]. unfold claim_name. rewrite Hm. exact Hn.
  - intros k x m l [[<- <-]|[? Hx]]%lookup_insert_Some Hh Hl Hr Hc.
    + rewrite Hv' in Hc. apply Hone in Hr. by eapply Hle.
    + by eapply (inv_claim_lease s).
  - intros k j x y q [[<- <-]|[? Hx]]%lookup_insert_Some [[<- <-]|[? Hy]]%lookup_insert_Some Hne Hhx Hhy Hpx Hpy;
    [done| | |by eapply (inv_claims s)].
    + rewrite Hv'. intros Hc. apply conflicts_sym in Hc. apply Hone in Hpx. subst q. by eapply Hcl.
    + rewrite Hv'. apply Hone in Hpy. subst q. by eapply Hcl.
Qed.

(** ** The choice of a value *)

(** The lease name [allocate] skips: none, or the claim's own lease, which
    it may take. *)
Definition self_ok (n L self : string) (h : option AllocationLeaseSpec) : Prop :=
  self = ""%string \/ self = L /\ forall sp, h = Some sp -> takeable n sp.

Lemma claim_counts_holds s n m p d :
  Inv s -> claims s !! m = Some d -> m <> n -> holds d -> PoolRefs (claim_spec d) = [p] ->
  claim_counts p n d = true.
Proof.
  intros HI Hd Hne [_ Hh] Hp. destruct (inv_claim_keys _ HI _ _ Hd) as [Hn _].
  unfold claim_counts. rewrite Hn. rewrite bool_decide_eq_true_2 by done.
  rewrite andb_true_r, andb_true_iff, negb_true_iff, String.eqb_neq, claimReferencesPool_spec, Hp.
  split; [done|]. by apply list_elem_of_singleton.
Qed.

Lemma leases_clear_self s n L self h p v :
  Inv s -> self_ok n L self h -> lease_was L h s ->
  (forall m l, leases s !! m = Some l -> lease_counts p self l = true -> ~ conflicts (Value (lease_spec l)) v) ->
  leases_clear (fun m sp => m = L /\ takeable n sp) p v s.
Proof.
  intros HI Hself Hwas Hl m l Hm Hp Hc. destruct (inv_lease_keys _ HI _ _ Hm) as [Hn Hne].
  destruct (decide (m = self)) as [->|Hms].
  - destruct Hself as [->|[-> Ht]]; [done|]. split; [done|]. by apply Ht, Hwas.
  - exfalso. eapply (Hl m l); [done| |done]. unfold lease_counts.
    rewrite Hp, String.eqb_refl, Hn. simpl. by apply negb_true_iff, String.eqb_neq.
Qed.

Lemma chosen_number s1 s2 n L self h p k cs ls :
  Inv s1 -> Inv s2 -> evolves s1 s2 -> self_ok n L self h -> lease_was L h s2 ->
  list_answer (claims s1) (Ok cs) -> list_answer (leases s2) (Ok ls) ->
  used_numbers_leases p self (used_numbers_claims p n cs) ls !! k = None ->
  chosen n L p (MkValue k "") s2.
Proof.
  intros HI1 HI2 Hev Hself Hwas Hcs Hls Hu. apply used_numbers_None in Hu as [Huc Hul].
  simpl in Hcs, Hls. split.
  - apply (claims_clear_ev _ _ _ _ _ Hev). intros m d Hne Hd Hh Hp [[Hn0 Hn]|[? ?]]; [|done].
    apply (Huc d); [apply Hcs; eauto|]. unfold claim_number_key.
    rewrite (claim_counts_holds s1 n m p d) by done. simpl in Hn. rewrite Hn in *.
    by rewrite (proj2 (Z.eqb_neq k 0)).
  - apply (leases_clear_self _ _ _ self h); [done..|]. intros m l Hm Hcnt [[Hn0 Hn]|[? ?]]; [|done].
    apply (Hul l); [apply Hls; eauto|]. unfold lease_number_key. rewrite Hcnt. simpl in Hn.
    rewrite Hn in *. by rewrite (proj2 (Z.eqb_neq k 0)).
Qed.

Lemma parsed_String a t :
  Addr_wf a -> IsValid a = true -> t = Addr_String a -> parsed t = Some a.
Proof. intros ? ? ->. unfold parsed. by rewrite ParseAddr_String. Qed.

Lemma chosen_ip s1 s2 s n L self h p a cs ls :
  Inv s1 -> Inv s2 -> Inv s -> evolves s1 s2 -> evolves s2 s ->
  self_ok n L self h -> lease_was L h s2 ->
  list_answer (claims s1) (Ok cs) -> list_answer (leases s2) (Ok ls) ->
  Addr_wf a -> IsValid a = true ->
  usedPoolIPs p n self cs ls !! a = None ->
  chosen n L p (MkValue 0 (Addr_String a)) s.
Proof.
  intros HI1 HI2 HI Hev Hev' Hself Hwas Hcs Hls Hwf Hval Hu. apply usedPoolIPs_None in Hu as [Huc Hul].
  simpl in Hcs, Hls. apply (chosen_ev _ _ _ _ _ _ Hev'). split.
  - apply (claims_clear_ev _ _ _ _ _ Hev). intros m d Hne Hd Hh Hp [[? ?]|[Hn0 Hn]]; [simpl in *; congruence|].
    apply (Huc d); [apply Hcs; eauto|]. unfold claim_ip_key, is_empty.
    rewrite (claim_counts_holds s1 n m p d) by done.
    rewrite (proj2 (String.eqb_neq _ _) Hn0). by apply parsed_String.
  - apply (leases_clear_self _ _ _ self h); [done..|].
    intros m l Hm Hcnt [[? ?]|[Hn0 Hn]]; [simpl in *; congruence|].
    apply (Hul l); [apply Hls; eauto|]. unfold lease_ip_key, is_empty. rewrite Hcnt.
    rewrite (proj2 (String.eqb_neq _ _) Hn0). by apply parsed_String.
Qed.

Variable APIReader : bool.

Lemma WP_getLease n s :
  Inv s ->
  WP (getLease APIReader n) (fun r s' => evolves s s' /\
    match r with Ok h => h = leases s !! n | Err _ => True end) s.
Proof.
  intros HI. unfold getLease. apply WP_read; [done|by intros ? ? [-> _]|].
  intros r s' [_ Hr] HI' Hev. split; [done|]. split; [done|].
  destruct r as [l|e]; simpl in Hr; [by rewrite Hr|]. destruct e; try done.
Qed.

Lemma WP_allocateNumber pool c self L h s :
  Inv s -> self_ok (claim_name c) L self h -> lease_was L h s ->
  WP (allocateNumber APIReader pool c self) (fun r s' => evolves s s' /\
    match r with
    | Ok k => chosen (claim_name c) L (pool_name pool) (MkValue k "") s'
    | Err _ => True
    end) s.
Proof.
  intros HI Hself Hwas. unfold allocateNumber.
  destruct (pool_Number (pool_spec pool)) as [spec|]; [|split; [done|]; split; [by apply evolves_refl|done]].
  apply wpi_tryP. unfold collectUsedNumbers.
  apply WP_read; [done|by intros ? ? [-> _]|]. intros r1 s1 [_ Hr1] HI1 Hev1.
  destruct r1 as [cs|e]; [|by split].
  apply WP_read; [done|by intros ? ? [-> _]|]. intros r2 s2 [_ Hr2] HI2 Hev2.
  destruct r2 as [ls|e]; [|split; [done|]; split; [by eapply evolves_trans|done]].
  split; [done|]. split; [done|].
  assert (Hev : evolves s s2) by (by eapply evolves_trans). split; [done|].
  destruct (pickNumber _ _ _ _) as [k|] eqn:Hpick; [|done]. apply pickNumber_free in Hpick.
  apply (chosen_ev _ _ _ _ _ _ Hev2).
  eapply (chosen_number s s1); eauto with juneau.
Qed.

Lemma WP_allocateIP pool c self L h s :
  Inv s -> pool_ValidateCreate pool = [] ->
  self_ok (claim_name c) L self h -> lease_was L h s ->
  WP (allocateIP APIReader pool c self) (fun r s' => evolves s s' /\
    match r with
    | Ok ip => chosen (claim_name c) L (pool_name pool) (MkValue 0 ip) s'
    | Err _ => True
    end) s.
Proof.
  intros HI Hadm Hself Hwas. unfold allocateIP.
  destruct (pool_IP (pool_spec pool)) as [spec|] eqn:Hip;
    [|split; [done|]; split; [by apply evolves_refl|done]].
  destruct (validateAllocationPoolFields_candidates _ _ Hadm Hip) as (cs0 & Hcs0 & _ & Hwf0).
  destruct (claimCandidates _ _ _) as [cands|] eqn:Hc; [|split; [done|]; split; [by apply evolves_refl|done]].
  apply claimCandidates_wf in Hc; [|by exists cs0].
  apply wpi_tryP. unfold collectUsedIPs.
  apply WP_read; [done|by intros ? ? [-> _]|]. intros r1 s1 [_ Hr1] HI1 Hev1.
  destruct r1 as [cs|e]; [|by split].
  apply WP_read; [done|by intros ? ? [-> _]|]. intros r2 s2 [_ Hr2] HI2 Hev2.
  destruct r2 as [ls|e]; [|split; [done|]; split; [by eapply evolves_trans|done]].
  split; [done|]. split; [done|].
  assert (Hev : evolves s s2) by (by eapply evolves_trans). split; [done|].
  destruct (pickIP _ _ _ _) as [ip|] eqn:Hpick; [|done].
  apply pickIP_free in Hpick as (a & -> & Hwf & Hval & Hu & _); [|done].
  apply excludeIPs_None in Hu as [Hu _].
  eapply (chosen_ip s s1 s2); eauto with juneau.
Qed.

(** What [allocate] and its loop return. *)
Definition allocated_post (c : AllocationClaim) (refs : list string) (s : cluster)
  (r : result claim_error (allocationResult * AllocationPool)) (s' : cluster) : Prop :=
  evolves s s' /\
  match r with
  | Ok (res, pool) => pool_name pool ∈ refs /\
      chosen (claim_name c) (leaseNameFor c) (pool_name pool) (result_value res) s'
  | Err _ => True
  end.

Lemma allocated_post_trans c refs refs' s s1 r s2 :
  evolves s s1 -> refs' ⊆ refs -> allocated_post c refs' s1 r s2 -> allocated_post c refs s r s2.
Proof.
  intros Hev Hsub [Hev' Hr]. split; [by eapply evolves_trans|]. destruct r as [[res pool]|]; [|done].
  destruct Hr. split; [by apply Hsub|done].
Qed.

Lemma allocated_post_err c refs s e : Inv s -> allocated_post c refs s (Err e) s.
Proof. intros HI. split; [by apply evolves_refl|done]. Qed.

Lemma WP_allocatePools c self h refs miss s :
  Inv s -> self_ok (claim_name c) (leaseNameFor c) self h -> lease_was (leaseNameFor c) h s ->
  WP (allocatePools APIReader c self refs miss) (allocated_post c refs s) s.
Proof.
  intros HI Hself. revert s miss HI. induction refs as [|ref refs IH]; intros s miss HI Hwas; simpl.
  { split; [done|]. case_match; by apply allocated_post_err. }
  assert (Hrest : forall s1 miss, Inv s1 -> evolves s s1 ->
    WP (allocatePools APIReader c self refs miss) (allocated_post c (ref :: refs) s) s1).
  { intros s1 miss' HI1 Hev1. eapply wpi_mono; [apply IH; [done|by eauto with juneau]|].
    intros r s' _ Hp. eapply allocated_post_trans; [done| |done]. set_solver. }
  assert (Herr : forall e s1, Inv s1 -> evolves s s1 ->
    WP (Ret (Err e)) (allocated_post c (ref :: refs) s) s1).
  { intros e s1 HI1 Hev1. split; [done|]. by split. }
  apply WP_read; [done|by intros ? ? [-> _]|]. intros r s1 [_ Hr] HI1 Hev1.
  destruct r as [pool|e]; [|destruct e; by auto].
  destruct (inv_pools _ HI _ _ Hr) as [Hpn Hadm].
  destruct (pool_Type (pool_spec pool)); [| |by auto].
  - apply wpi_bind. eapply wpi_mono; [apply (WP_allocateNumber _ _ _ (leaseNameFor c) h);
    eauto with juneau|].
    intros [k|e] s2 HI2 [Hev2 Hk]; pose proof (evolves_trans _ _ _ Hev1 Hev2);
      [|destruct e; by auto].
    split; [done|]. split; [done|]. split; [rewrite Hpn; set_solver|done].
  - apply wpi_bind. eapply wpi_mono; [apply (WP_allocateIP _ _ _ (leaseNameFor c) h);
    eauto with juneau|].
    intros [k|e] s2 HI2 [Hev2 Hk]; pose proof (evolves_trans _ _ _ Hev1 Hev2);
      [|destruct e; by auto].
    split; [done|]. split; [done|]. split; [rewrite Hpn; set_solver|done].
Qed.

(** The value of a lease the claim may take is free for it. *)
Lemma chosen_reuse s c l :
  Inv s -> leases s !! leaseNameFor c = Some l -> leaseHeldByOtherClaim l c = false ->
  chosen (claim_name c) (leaseNameFor c) (PoolRef (lease_spec l)) (Value (lease_spec l)) s.
Proof.
  intros HI Hl Ht. apply leaseHeldByOtherClaim_false in Ht. split.
  - intros m d Hne Hd Hh Hp Hc. apply conflicts_sym in Hc.
    destruct (inv_claim_lease _ HI _ _ _ _ Hd Hh Hl Hp Hc) as [Hb Hz].
    destruct Ht; congruence.
  - intros m k Hk Hp Hc. destruct (decide (m = leaseNameFor c)) as [->|Hne].
    + rewrite Hl in Hk. by injection Hk as <-.
    + exfalso. by eapply (inv_leases _ HI m (leaseNameFor c)).
Qed.

Lemma WP_allocate c s :
  Inv s ->
  WP (allocate APIReader c) (allocated_post c (PoolRefs (claim_spec c)) s) s.
Proof.
  intros HI. unfold allocate. apply wpi_bind. eapply wpi_mono; [by apply WP_getLease|].
  intros [h|e] s1 HI1 [Hev1 Hh]; [|by split].
  assert (Hpools : forall self s2, Inv s2 -> evolves s s2 ->
    self_ok (claim_name c) (leaseNameFor c) self (lease_spec <$> h) ->
    WP (allocatePools APIReader c self (PoolRefs (claim_spec c)) "")
    (allocated_post c (PoolRefs (claim_spec c)) s) s2).
  { intros self s2 HI2 Hev2 Hself. eapply wpi_mono; [eapply WP_allocatePools; [done|exact Hself|]|].
    - eapply lease_was_ev; [exact Hev2|]. intros l Hl. by rewrite Hh, Hl.
    - intros r s' _ Hp. by eapply allocated_post_trans. }
  destruct h as [l|].
  - destruct (leaseHeldByOtherClaim l c) eqn:Ht.
    + apply Hpools; [done|done|by left].
    + pose proof (chosen_reuse _ _ _ HI (eq_sym Hh) Ht) as Hch.
      apply leaseHeldByOtherClaim_false in Ht.
      assert (Hself : self_ok (claim_name c) (leaseNameFor c) (leaseNameFor c) (lease_spec <$> Some l)).
      { right. split; [done|]. by intros sp [= <-]. }
      apply wpi_tryP. unfold reuseLease.
      destruct (claimReferencesPool c (PoolRef (lease_spec l))) eqn:Hrefs; cbn [negb].
      * apply WP_read; [done|by intros ? ? [-> _]|]. intros r s2 [_ Hr] HI2 Hev2.
        pose proof (evolves_trans _ _ _ Hev1 Hev2) as Hev.
        destruct r as [pool|e]; [|destruct e; (split; [done|]); try (by split); by apply Hpools].
        destruct (inv_pools _ HI1 _ _ Hr) as [Hpn _].
        apply claimReferencesPool_spec in Hrefs. split; [done|]. split; [done|].
        split; [done|]. rewrite Hpn. split; [done|]. unfold result_value. simpl.
        destruct (Value (lease_spec l)). by eapply chosen_ev.
      * split; [done|]. by apply Hpools.
  - apply Hpools; [done|done|]. right. done.
Qed.

(** ** Recording the value *)

Lemma leaseNameFor_nonempty s n c : Inv s -> claims s !! n = Some c -> leaseNameFor c <> ""%string.
Proof.
  intros HI Hc. destruct (inv_claim_keys _ HI _ _ Hc) as [Hn ?]. unfold leaseNameFor.
  case_match eqn:He; [by rewrite Hn|]. by apply String.eqb_neq.
Qed.

(** The lease name and the name of the claim that [ensureLease] works for. *)
Definition creates (c : AllocationClaim) (pool : AllocationPool) (res : allocationResult)
  (l : AllocationLease) : Prop :=
  lease_name l = leaseNameFor c /\ PoolRef (lease_spec l) = pool_name pool /\
  Value (lease_spec l) = result_value res /\ owned (claim_name c) (lease_spec l).

Lemma Inv_create s c pool res l l' s' :
  Inv s -> creates c pool res l -> chosen (claim_name c) (leaseNameFor c) (pool_name pool) (result_value res) s ->
  CreateLease_applied l s l' s' ->
  Inv s' /\ recorded (claim_name c) (pool_name pool) (result_value res) s' /\ claims s' = claims s.
Proof.
  intros HI (Hn & Hp & Hv & Hcr & Hodt) [Hcl Hle] (Hnone & Hne & Hval & Hname & Hspec & ->).
  assert (Hp' : PoolRef (lease_spec l') = pool_name pool) by (by rewrite Hspec).
  assert (Hv' : Value (lease_spec l') = result_value res) by (by rewrite Hspec).
  assert (Hb : owned (claim_name c) (lease_spec l')).
  { unfold owned. rewrite Hspec. simpl. split; [done|].
    assert (Hw : forall o, Time_IsZero o = true -> Time_IsZero (Time_wire <$> o) = true).
    { intros [t|]; [|done]. simpl. rewrite !bool_decide_eq_true. by intros ->. }
    by apply Hw. }
  assert (Hfree : forall m k, m <> lease_name l -> leases s !! m = Some k ->
    PoolRef (lease_spec k) = PoolRef (lease_spec l') ->
    ~ conflicts (Value (lease_spec k)) (Value (lease_spec l'))).
  { intros m k Hmn Hk Hpk Hc. rewrite Hp' in Hpk. rewrite Hv' in Hc.
    destruct (Hle _ _ Hk Hpk Hc) as [-> _]. congruence. }
  split_and!; [|split|done].
  - apply Inv_insert_lease; [done..| |done|].
    + rewrite Hspec. by apply validateAllocationLeaseSpec_holder.
    + intros m d Hd Hh Hpd Hc. rewrite Hp' in Hpd. rewrite Hv' in Hc. apply conflicts_sym in Hc.
      destruct (decide (m = claim_name c)) as [->|Hmn]; [done|]. exfalso. by eapply Hcl.
  - done.
  - intros m k [[-> ->]|[Hmn Hk]]%lease_insert_cases Hpk Hc; [done|].
    destruct (Hle _ _ Hk Hpk Hc) as [-> _]. congruence.
Qed.

(** Taking over, or refreshing, the claim's own lease. *)
Lemma Inv_take s c pool res cur0 l l' s' :
  Inv s -> lease_was (leaseNameFor c) (Some (lease_spec cur0)) s ->
  leaseHeldByOtherClaim cur0 c = false -> creates c pool res l ->
  chosen (claim_name c) (leaseNameFor c) (pool_name pool) (result_value res) s ->
  UpdateLease_applied l s l' s' ->
  Inv s' /\ recorded (claim_name c) (pool_name pool) (result_value res) s' /\ claims s' = claims s.
Proof.
  intros HI Hwas Ht (Hn & Hp & Hv & Hcr & Hodt) [Hcl Hle] Happ.
  assert (Hb : owned (claim_name c) (lease_spec l')).
  { destruct Happ as (cur & _ & _ & _ & _ & Hspec & _). unfold owned. rewrite Hspec. simpl.
    split; [done|]. destruct (OwnerDeletionTimestamp (lease_spec l)) as [t|]; [|done].
    simpl in *. rewrite !bool_decide_eq_true in *. by subst. }
  split.
  - eapply Inv_update_lease; [done|exact Happ|]. intros cur Hcur m d Hd Hh [Hbn Hbz].
    rewrite Hn in Hcur. apply Hwas in Hcur. injection Hcur as Hsp.
    apply leaseHeldByOtherClaim_false in Ht. rewrite Hsp in Ht.
    destruct Ht as [Ht|Ht]; [|congruence]. rewrite Ht in Hbn. by subst m.
  - destruct Happ as (cur & Hcur & _ & _ & _ & _ & _ & ->). split_and!; [split|done]; [done|].
    intros m k [[-> ->]|[Hmn Hk]]%lease_insert_cases Hpk Hc; [done|].
    destruct (Hle _ _ Hk Hpk Hc) as [-> _]. congruence.
Qed.

Definition kept_recorded (c : AllocationClaim) (refs : list string) (p : string) (v : AllocationValue)
  (r : result api_error unit) (s : cluster) : Prop :=
  claim_kept (claim_name c) refs s /\ (r = Ok tt -> recorded (claim_name c) p v s).

Lemma claim_kept_same n refs s s' : claims s' = claims s -> claim_kept n refs s -> claim_kept n refs s'.
Proof. unfold claim_kept. by intros ->. Qed.

Lemma kept_recorded_err c refs p v e s :
  claim_kept (claim_name c) refs s -> kept_recorded c refs p v (Err e) s.
Proof. by split. Qed.

(** A write of the claim's lease, with what [ensureLease] makes of its
    answer. *)
Lemma WP_ensure_write {R A} (e : api (result api_error R)) (applied : R -> cluster -> Prop)
  (k : result api_error R -> prog api A) c refs p v s Q :
  Inv s -> claim_kept (claim_name c) refs s ->
  (forall r s1, api_effect _ e s r s1 -> write_answer applied s r s1) ->
  (forall a s1, applied a s1 -> Inv s1 /\ recorded (claim_name c) p v s1 /\ claims s1 = claims s) ->
  (forall r s1 s', api_effect _ e s r s1 -> Inv s' -> claim_kept (claim_name c) refs s' ->
    (forall a, r = Ok a -> recorded (claim_name c) p v s') -> WP (k r) Q s') ->
  WP (bind (call e) k) Q s.
Proof.
  intros HI Hkept Hw Happ Hk. apply WP_bind_call; [done|]. intros r s1 Hr. pose proof (Hw _ _ Hr) as Hwr.
  assert (HI1 : Inv s1).
  { eapply write_Inv; [done| |exact Hwr]. intros a s2 Ha. by destruct (Happ _ _ Ha). }
  split; [done|]. intros s' HI' Hev. eapply Hk; [done|done| |].
  - apply (claim_kept_ev _ _ _ _ Hev). destruct r as [a|er]; simpl in Hwr.
    + destruct (Happ _ _ Hwr) as (_ & _ & Hcl). by eapply claim_kept_same.
    + destruct Hwr as [->|(_ & a & Ha)]; [done|]. destruct (Happ _ _ Ha) as (_ & _ & Hcl).
      by eapply claim_kept_same.
  - intros a ->. simpl in Hwr. destruct (Happ _ _ Hwr) as (_ & Hrec & _). by eapply recorded_ev.
Qed.

Lemma WP_ensureLease c pool res refs s :
  Inv s -> claim_kept (claim_name c) refs s ->
  chosen (claim_name c) (leaseNameFor c) (pool_name pool) (result_value res) s ->
  WP (ensureLease c pool res) (kept_recorded c refs (pool_name pool) (result_value res)) s.
Proof.
  intros HI Hkept Hch. unfold ensureLease.
  apply WP_read; [done|by intros ? ? [-> _]|]. intros r s1 [_ Hr] HI1 Hev1.
  assert (Hkept1 : claim_kept (claim_name c) refs s1) by eauto with juneau.
  assert (Hch1 := chosen_ev _ _ _ _ _ _ Hev1 Hch).
  destruct r as [existing|e]; simpl in Hr.
  - assert (Hwas : lease_was (leaseNameFor c) (Some (lease_spec existing)) s1).
    { eapply lease_was_ev; [exact Hev1|]. intros l Hl. rewrite Hr in Hl. by injection Hl as <-. }
    destruct (inv_lease_keys _ HI _ _ Hr) as [Hname _].
    destruct (leaseHeldByOtherClaim existing c) eqn:Ht.
    { split; [done|]. split; [done|]. intros _. destruct Hch1 as [Hcl Hle]. split; [done|].
      intros m l Hm Hp Hc. destruct (Hle _ _ Hm Hp Hc) as [-> Htk]. exfalso.
      apply Hwas in Hm. injection Hm as Hsp. rewrite <- Hsp in Htk.
      unfold leaseHeldByOtherClaim, leaseOwnedByClaim in Ht. to_prop.
      apply String.eqb_neq in H0. destruct Htk; congruence. }
    set (desired := adoptNetworkInterfaceIdentity _ _).
    assert (Hcreates : creates c pool res (with_lease_spec existing desired)).
    { unfold creates, desired, adoptNetworkInterfaceIdentity, owned. case_match; simpl; done. }
    case_bool_decide as Heq.
    { split; [done|]. split; [done|]. intros _. destruct Hch1 as [Hcl Hle]. split; [done|].
      intros m l Hm Hp Hc. destruct (Hle _ _ Hm Hp Hc) as [-> _].
      apply Hwas in Hm. injection Hm as <-. rewrite Heq. by destruct Hcreates as (_ & _ & _ & ?). }
    eapply WP_ensure_write; [done|done|by intros; done| |].
    + intros a s2 Ha. by eapply (Inv_take s1 c pool res existing).
    + intros r s2 s' _ HI' Hk' Hrec. destruct r as [a|er]; (split; [done|]).
      * split; [done|]. intros _. by eapply Hrec.
      * by apply kept_recorded_err.
  - destruct e; try (by split; [done|]; apply kept_recorded_err).
    destruct (SetControllerReference _ _) as [m|e] eqn:Hm; [|by split; [done|]; apply kept_recorded_err].
    apply SetControllerReference_spec in Hm as [ors ->].
    eapply WP_ensure_write; [done|done|by intros ? ? [? _]| |].
    + intros a s2 Ha. eapply (Inv_create s1 c pool res); [done| |exact Hch1|exact Ha]. by repeat split.
    + intros r s2 s' [_ Hae] HI' Hk' Hrec. destruct r as [a|er]; (split; [done|]).
      * split; [done|]. intros _. by eapply Hrec.
      * destruct er; try (by apply kept_recorded_err). exfalso.
        destruct (Hae eq_refl) as [l Hl]. simpl in Hl.
        destruct (ev_leases _ _ Hev1 _ _ Hl) as (l0 & Hl0 & _). change (lease_name _) with (leaseNameFor c) in Hl0.
        congruence.
Qed.

(** ** Status writes *)

Lemma claim_name_with_status c st : claim_name (with_claim_status c st) = claim_name c.
Proof. done. Qed.

Lemma kept_status n refs s c c' s' :
  UpdateClaimStatus_applied c s c' s' -> claim_kept n refs s -> claim_kept n refs s'.
Proof.
  intros (cur & rv & Hcur & _ & Hm & Hs & _ & _ & ->) (d & Hd & Hf & Hr).
  destruct (decide (claim_name c = n)) as [<-|Hne].
  - rewrite Hcur in Hd. injection Hd as <-. exists c'. simpl. rewrite lookup_insert_eq, Hm, Hs. done.
  - exists d. simpl. by rewrite lookup_insert_ne.
Qed.

(** [K] is what the caller knows; [claim_kept] survives the write. *)
Lemma WP_updateStatus n refs phase res ready reason msg s (K : cluster -> Prop) :
  (forall s s', evolves s s' -> K s -> K s') ->
  (forall s fresh now c' s', Inv s -> K s -> claim_name fresh = n ->
    UpdateClaimStatus_applied
    (with_claim_status fresh (desiredClaimStatus now fresh phase res ready reason msg)) s c' s' ->
    Inv s') ->
  Inv s -> K s -> claim_kept n refs s ->
  WP (updateStatus n phase res ready reason msg) (fun _ s' => claim_kept n refs s') s.
Proof.
  intros HK Hw HI Hs Hk. unfold updateStatus.
  apply wpi_RetryOnConflict with (I := fun s => Inv s /\ K s /\ claim_kept n refs s); [done|].
  clear s HI Hs Hk. intros s (HI & Hs & Hk).
  assert (Hret : forall r s', Inv s' -> evolves s s' ->
    WP (Ret r) (fun (r : result api_error unit) s' => claim_kept n refs s' /\
      (r = Err Conflict -> Inv s' /\ K s' /\ claim_kept n refs s')) s').
  { intros r s' ? ?. split; [done|]. split; [by eauto with juneau|]. intros _. eauto with juneau. }
  apply WP_read; [done|by intros ? ? [-> _]|]. intros r s1 [_ Hr] HI1 Hev1.
  destruct r as [fresh|e]; [|by apply Hret].
  destruct (inv_claim_keys _ HI _ _ Hr) as [Hn _].
  case_match; [by apply Hret|].
  apply WP_read; [done|by intros ? ? ->|]. intros now s2 _ HI2 Hev2.
  pose proof (evolves_trans _ _ _ Hev1 Hev2) as Hev. cbv beta zeta. case_match; [by apply Hret|].
  assert (Hs2 : K s2) by eauto. assert (Hk2 : claim_kept n refs s2) by eauto with juneau.
  apply WP_try_call; [done|]. intros r s3 Hr3.
  assert (HI3 : Inv s3) by (eapply write_Inv; [done| |exact Hr3]; intros a s4 Ha; by eapply (Hw s2)).
  split; [done|]. intros s' HI' Hev'.
  assert (Hk' : claim_kept n refs s').
  { apply (claim_kept_ev _ _ _ _ Hev'). destruct r as [a|e]; simpl in Hr3; [by eapply kept_status|].
    destruct Hr3 as [->|(_ & a & Ha)]; [done|by eapply kept_status]. }
  destruct r as [a|e].
  - split; [done|]. split; [done|]. done.
  - split; [done|]. intros [= ->]. split; [done|]. destruct Hr3 as [->|[Hrej _]]; [by eauto|done].
Qed.

Lemma WP_updateStatus_other n refs phase res ready reason msg s :
  phase <> ClaimPhaseAllocated -> Inv s -> claim_kept n refs s ->
  WP (updateStatus n phase res ready reason msg) (fun _ s' => claim_kept n refs s') s.
Proof.
  intros Hph HI Hk. apply WP_updateStatus with (K := fun _ => True); [done| |done..].
  intros s1 fresh now c' s' HI1 _ _ Happ. eapply Inv_evolves; [exact HI1|].
  eapply status_evolves; [exact HI1| |exact Happ]. done.
Qed.

Lemma WP_updateStatusAllocated n p refs res s :
  Inv s -> claim_kept n refs s -> p ∈ refs -> recorded n p (result_value res) s ->
  WP (updateStatusAllocated n res) (fun _ s' => claim_kept n refs s') s.
Proof.
  intros HI Hk Hp Hrec.
  apply WP_updateStatus with (K := fun s => claim_kept n refs s /\
    recorded n p (result_value res) s); [| |done..].
  - intros s1 s2 Hev [? ?]. split; eauto with juneau.
  - intros s1 fresh now c' s' HI1 [Hk1 Hrec1] <- Happ.
    by apply (fun k r v => Inv_allocated s1 _ c' s' p refs (result_value res) HI1 k Hp r v Happ).
Qed.

(** ** The reconciler *)

Variable claim_error_text : claim_error -> string.

Lemma WP_UpdatePoolStatus pool (k : result api_error AllocationPool -> prog api (result api_error unit)) Q s :
  Inv s -> (forall r s', Inv s' -> evolves s s' -> WP (k r) Q s') ->
  WP (bind (call (UpdatePoolStatus pool)) k) Q s.
Proof.
  intros HI Hk. apply WP_bind_call; [done|]. intros r s1 Hr.
  assert (Hev1 : evolves s s1).
  { eapply write_evolves; [done| |exact Hr].
    intros p' s2 (cur & Hcur & _ & Hn & Hsp & _ & ->). destruct (evolves_refl s HI) as [? ? ? ?].
    split; simpl; [done|done| |done]. intros n q Hq.
    apply lookup_insert_Some in Hq as [[<- <-]|[? ?]]; [|by eauto].
    destruct (inv_pools _ HI _ _ Hcur) as [? ?]. split; [done|].
    unfold pool_ValidateCreate. by rewrite Hsp. }
  split; [by eapply Inv_evolves|]. intros s' HI' Hev'. apply Hk; [done|]. by eapply evolves_trans.
Qed.

Lemma WP_allocateOnce n refs s :
  Inv s -> claim_kept n refs s ->
  WP (allocateOnce claim_error_text APIReader n) (fun r s' => claim_kept n refs s') s.
Proof.
  intros HI Hk. unfold allocateOnce.
  apply WP_read; [done|by intros ? ? [-> _]|]. intros r s1 [_ Hr] HI1 Hev1.
  pose proof (claim_kept_ev _ _ _ _ Hev1 Hk) as Hk1.
  destruct r as [fresh|e]; [|by split]. simpl in Hr.
  destruct (inv_claim_keys _ HI _ _ Hr) as [Hn _].
  destruct Hk as (c0 & Hc0 & _ & Hrefs). rewrite Hr in Hc0. injection Hc0 as <-.
  case_match; [by split|]. apply wpi_bind. eapply wpi_mono; [by apply WP_allocate|].
  intros r s2 HI2 [Hev2 Hpost]. pose proof (claim_kept_ev _ _ _ _ Hev2 Hk1) as Hk2.
  rewrite Hn. destruct r as [[res pool]|e].
  - destruct Hpost as [Hin Hch]. apply wpi_tryP.
    rewrite Hrefs in Hin. eapply wpi_mono; [apply (WP_ensureLease fresh pool res refs); [done| |done]|].
    { by rewrite Hn. }
    intros [[]|e] s3 HI3 [Hk3 Hrec]; rewrite Hn in *; [|done].
    apply WP_UpdatePoolStatus; [done|]. intros [p'|e] s4 HI4 Hev4;
      [|split; [done|]; by eapply claim_kept_ev].
    eapply WP_updateStatusAllocated; eauto with juneau.
  - destruct e; by apply WP_updateStatus_other.
Qed.

Lemma WP_reconcileLease n c s :
  Inv s -> claim_name c = n -> WP (reconcileLease APIReader c) (fun _ _ => True) s.
Proof.
  intros HI Hn. unfold reconcileLease. apply wpi_tryP. eapply wpi_mono; [by apply WP_getLease|].
  intros [h|e] s1 HI1 [Hev1 Hh]; [|done]. destruct h as [l|]; [|by split].
  case_match eqn:Hown; [by split|].
  set (desired := adoptNetworkInterfaceIdentity _ _).
  assert (Hd : OwnerDeletionTimestamp desired = OwnerDeletionTimestamp (lease_spec l) /\
    cr_Name (ClaimRef desired) = claim_name c).
  { unfold desired, adoptNetworkInterfaceIdentity. by case_match. }
  destruct Hd as [Hodt Hcr]. clearbody desired.
  symmetry in Hh. destruct (inv_lease_keys _ HI _ _ Hh) as [Hname _].
  pose proof (inv_lease_holder _ HI _ _ Hh) as Hholder.
  assert (Howned : cr_Name (ClaimRef (lease_spec l)) = claim_name c).
  { apply andb_false_iff in Hown as [Hown|Hown]; apply negb_false_iff in Hown.
    - unfold is_empty in Hown. by apply String.eqb_eq in Hown.
    - by apply leaseOwnedByClaim_spec. }
  assert (Hwas : lease_was (leaseNameFor c) (Some (lease_spec l)) s1).
  { eapply lease_was_ev; [exact Hev1|]. intros k Hk. rewrite Hh in Hk. by injection Hk as <-. }
  case_match; [by split|].
  apply WP_try_call; [done|]. intros r s2 Hr. split; [|by intros s' HI' _; destruct r; split].
  eapply write_Inv; [done| |exact Hr]. intros l' s3 Happ.
  eapply Inv_update_lease; [exact HI1|exact Happ|]. intros cur Hcur m d Hd Hh' [Hbn Hbz].
  change (lease_name (with_lease_spec l desired)) with (lease_name l) in Hcur. rewrite Hname in Hcur.
  apply Hwas in Hcur. injection Hcur as Hsp.
  destruct Happ as (cur' & _ & _ & _ & _ & Hspec & _). unfold backs. rewrite Hspec. simpl.
  rewrite Hcr, Hodt, <- Howned, Hsp. split; [done|].
  destruct (OwnerDeletionTimestamp (lease_spec cur)) as [t|]; [|done]. simpl in *.
  rewrite bool_decide_eq_true in *. by subst t.
Qed.

(** The claim [n] is being deleted and waits for its finalizer. *)
Definition claim_leaving (n : string) (s : cluster) : Prop :=
  exists c, claims s !! n = Some c /\ allocationClaimFinalizer ∈ Finalizers (claim_meta c) /\
  IsDeleting (claim_meta c) = true.

Lemma claim_leaving_ev n s s' : evolves s s' -> claim_leaving n s -> claim_leaving n s'.
Proof.
  intros Hev (c & Hc & Hf & Hd). destruct (ev_kept _ _ Hev _ _ Hc Hf) as (c' & ? & ? & _ & Hd').
  exists c'. auto.
Qed.

(** Any update of a claim the webhook admits. *)
Lemma Inv_update_claim s c c' s' :
  Inv s -> UpdateClaim_applied c s c' s' -> Inv s'.
Proof.
  intros HI (cur & Hcur & _ & Hval & Hn & _ & Hdt & _ & Hsp & Hst & ->).
  apply claim_ValidateUpdate_nil in Hval as [Hrefs _]. rewrite <- Hsp in Hrefs.
  destruct (inv_claim_keys _ HI _ _ Hcur) as [Hcn Hne].
  assert (Hsub : forall k x, (if IsDeleting (claim_meta cur) && bool_decide (Finalizers (claim_meta c) = [])
    then delete (claim_name c) (claims s) else <[claim_name c := c']> (claims s)) !! k = Some x ->
    claim_name x = k /\ k <> ""%string /\ exists x0, claims s !! k = Some x0 /\
    (holds x -> holds x0) /\ PoolRefs (claim_spec x) = PoolRefs (claim_spec x0) /\
    cs_Value (claim_status x) = cs_Value (claim_status x0)).
  { intros k x. case_match; intros Hx.
    - apply lookup_delete_Some in Hx as [_ Hx]. destruct (inv_claim_keys _ HI _ _ Hx). eauto 10.
    - apply lookup_insert_Some in Hx as [[<- <-]|[_ Hx]].
      + split_and!; [unfold claim_name; rewrite Hn; exact Hcn|done|]. exists cur. rewrite Hst.
        split_and!; [done| |done|done]. by apply holds_same.
      + destruct (inv_claim_keys _ HI _ _ Hx). eauto 10. }
  split; simpl; try by destruct HI.
  - intros k x Hx. by destruct (Hsub _ _ Hx) as (? & ? & _).
  - intros k x m l Hx Hh Hl. destruct (Hsub _ _ Hx) as (_ & _ & x0 & Hx0 & Hh0 & -> & ->).
    eapply (inv_claim_lease _ HI _ _ _ _ Hx0); [by auto|exact Hl].
  - intros k j x y q Hx Hy Hkj Hhx Hhy.
    destruct (Hsub _ _ Hx) as (_ & _ & x0 & Hx0 & Hh0 & -> & ->).
    destruct (Hsub _ _ Hy) as (_ & _ & y0 & Hy0 & Hh1 & -> & ->).
    by eapply (inv_claims _ HI _ _ _ _ _ Hx0 Hy0); auto.
Qed.

Lemma WP_finish c' s :
  Inv s ->
  WP (_ <-? call (UpdateClaim c') ;; Ret (Ok tt)) (fun _ _ => True) s.
Proof.
  intros HI. apply WP_try_call; [done|]. intros r s1 Hr.
  split; [|by intros s' HI' _; destruct r; split].
  eapply write_Inv; [done| |exact Hr]. intros a s2. by apply Inv_update_claim.
Qed.

Lemma WP_DeleteLease {A} n uid (k : result api_error unit -> prog api A) Q s :
  Inv s -> (forall r s', Inv s' -> evolves s s' -> WP (k r) Q s') ->
  WP (bind (call (DeleteLease n uid)) k) Q s.
Proof.
  intros HI Hk. apply WP_bind_call; [done|]. intros r s1 Hr.
  assert (Hev1 : evolves s s1).
  { destruct Hr as [Hr _]. eapply write_evolves; [done| |exact Hr].
    intros [] s2 (cur & Hcur & _ & [->|(_ & l' & Hn & Hs & _ & ->)]); (apply evolves_set_leases; [done|]).
    - intros k0 x. apply lease_delete_sub.
    - intros k0 x. by apply lease_touch_sub with cur. }
  split; [by eapply Inv_evolves|]. intros s' HI' Hev'. apply Hk; [done|]. by eapply evolves_trans.
Qed.

Lemma WP_handleDeletion c s :
  Inv s -> (allocationClaimFinalizer ∈ Finalizers (claim_meta c) -> claim_leaving (claim_name c) s) ->
  WP (handleDeletion c) (fun _ _ => True) s.
Proof.
  intros HI Hlv. unfold handleDeletion.
  destruct (ContainsFinalizer _ _) eqn:Hfin; [|by split].
  apply ContainsFinalizer_spec in Hfin. specialize (Hlv Hfin). cbn [negb].
  set (c0 := with_claim_finalizers c _). clearbody c0.
  apply WP_read; [done|by intros ? ? [-> _]|]. intros r s1 [_ Hr] HI1 Hev1.
  destruct r as [l|e]; [|destruct e; try (by split); by apply WP_finish]. simpl in Hr.
  destruct (leaseOwnedByClaim l c) eqn:Hown; cbn [negb]; [|by apply WP_finish].
  apply leaseOwnedByClaim_spec in Hown.
  assert (Hdel : WP (r <- call (DeleteLease (lease_name l) None) ;;
    match r with Ok _ | Err NotFound => _ <-? call (UpdateClaim c0) ;; Ret (Ok tt)
    | Err e => Ret (Err e) end) (fun _ _ => True) s1).
  { apply WP_DeleteLease; [done|]. intros r s2 HI2 _.
    destruct r as [[]|e]; [by apply WP_finish|]. destruct e; try (by split); by apply WP_finish. }
  destruct (ReleaseAfter (claim_spec c)) as [d|]; [|exact Hdel].
  destruct (0 <? d); [|exact Hdel]. clear Hdel.
  apply WP_read; [done|by intros ? ? ->|]. intros now s2 _ HI2 Hev2. cbv beta zeta.
  case_match; [|by apply WP_finish].
  apply WP_try_call; [done|]. intros r s3 Hr3.
  split; [|intros s' HI' _; destruct r; [by apply WP_finish|done]].
  eapply write_Inv; [done| |exact Hr3]. intros l' s4 Happ.
  eapply Inv_update_lease; [exact HI2|exact Happ|]. intros cur Hcur m d' Hd' [Hh _] [Hbn _]. exfalso.
  pose proof (evolves_trans _ _ _ Hev1 Hev2) as Hev.
  destruct (inv_lease_keys _ HI _ _ Hr) as [Hname _].
  change (lease_name (with_lease_spec l _)) with (lease_name l) in Hcur.
  destruct (ev_leases _ _ Hev _ _ Hcur) as (l0 & Hl0 & _ & Hs).
  rewrite Hname, Hr in Hl0. injection Hl0 as <-. rewrite Hs, Hown in Hbn. subst m.
  destruct (claim_leaving_ev _ _ _ Hev Hlv) as (c1 & Hc1 & _ & Hdel). congruence.
Qed.

Lemma WP_addFinalizer n s :
  Inv s ->
  WP (addFinalizer n) (fun r s' => match r with
  | Ok c => claim_name c = n /\ claim_kept n (PoolRefs (claim_spec c)) s' | Err _ => True end) s.
Proof.
  intros HI. unfold addFinalizer. apply wpi_RetryOnConflict with (I := Inv); [done|].
  clear s HI. intros s HI.
  apply WP_read; [done|by intros ? ? [-> _]|]. intros r s1 [_ Hr] HI1 Hev1.
  destruct r as [c|e]; [|by split]. simpl in Hr. destruct (inv_claim_keys _ HI _ _ Hr) as [Hn _].
  destruct (ContainsFinalizer _ _) eqn:Hfin.
  - apply ContainsFinalizer_spec in Hfin. split; [done|]. split; [|done]. split; [done|].
    eapply claim_kept_ev; [exact Hev1|]. by exists c.
  - clear Hfin. set (c0 := with_claim_finalizers c _).
    assert (Hf0 : allocationClaimFinalizer ∈ Finalizers (claim_meta c0)).
    { simpl. apply AddFinalizer_spec. by left. }
    assert (Hn0 : claim_name c0 = n) by done. clearbody c0.
    apply WP_call; [done|]. intros r s2 Hr2.
    assert (HI2 : Inv s2).
    { eapply write_Inv; [done| |exact Hr2]. intros a s3. by apply Inv_update_claim. }
    split; [done|]. intros s' HI' Hev'. split; [done|]. split; [|done].
    destruct r as [c'|e]; [|done].
    destruct Hr2 as (cur & Hcur & _ & _ & Hnm & _ & _ & Hfz & Hsp & _ & ->).
    destruct (inv_claim_keys _ HI1 _ _ Hcur) as [Hcn _].
    split; [unfold claim_name; rewrite Hnm, <- Hn0; exact Hcn|].
    eapply claim_kept_ev; [exact Hev'|]. exists c'. simpl. rewrite Hfz.
    rewrite bool_decide_eq_false_2 by (intros Hnil; rewrite Hnil in Hf0; by apply elem_of_nil in Hf0).
    rewrite andb_false_r, Hn0, lookup_insert_eq. done.
Qed.

Lemma WP_reconcileLive n c s :
  Inv s -> claim_name c = n -> claim_kept n (PoolRefs (claim_spec c)) s ->
  WP (reconcileLive claim_error_text APIReader n c) (fun _ _ => True) s.
Proof.
  intros HI Hn Hk. unfold reconcileLive.
  assert (Hfail : forall m s', Inv s' -> claim_kept n (PoolRefs (claim_spec c)) s' ->
    WP (updateStatusFailed n m) (fun _ _ => True) s').
  { intros m s' ? ?. eapply wpi_mono; [by apply (WP_updateStatus_other n (PoolRefs (claim_spec c)))|done]. }
  rewrite Hn. case_match; [by eapply WP_reconcileLease|]. case_match; [by apply Hfail|].
  apply wpi_bind. unfold ensureOwnerExists.
  assert (Hrest : forall s', Inv s' -> evolves s s' ->
    WP (RetryOnConflict (allocateOnce claim_error_text APIReader n)) (fun _ _ => True) s').
  { intros s' HI' Hev'.
    apply wpi_RetryOnConflict with (I := fun s => Inv s /\ claim_kept n (PoolRefs (claim_spec c)) s);
      [by eauto with juneau|].
    intros s2 [HI2 Hk2]. eapply wpi_mono; [by eapply WP_allocateOnce|]. intros r s3 ? ?. split; auto. }
  destruct (SchemeNew _ _) as [[]|e]; [|split; [done|]; by apply Hfail..].
  apply WP_read; [done|by intros ? ? ->|]. intros [[]|e] s1 _ HI1 Hev1; (split; [done|]).
  - by apply Hrest.
  - apply Hfail; eauto with juneau.
Qed.

Lemma WP_Reconcile n s :
  Inv s -> WP (Reconcile claim_error_text APIReader n) (fun _ _ => True) s.
Proof.
  intros HI. unfold Reconcile.
  apply WP_read; [done|by intros ? ? [-> _]|]. intros r s1 [_ Hr] HI1 Hev1.
  destruct r as [c|e]; [|by split]. simpl in Hr. destruct (inv_claim_keys _ HI _ _ Hr) as [Hn _].
  destruct (IsDeleting (claim_meta c)) eqn:Hd.
  { apply WP_handleDeletion; [done|]. intros Hf. rewrite Hn. eapply claim_leaving_ev; [exact Hev1|].
    by exists c. }
  destruct (ContainsFinalizer _ _) eqn:Hfin.
  - apply ContainsFinalizer_spec in Hfin. apply WP_reconcileLive; [done|done|].
    eapply claim_kept_ev; [exact Hev1|]. by exists c.
  - apply wpi_bind. eapply wpi_mono; [by apply WP_addFinalizer|].
    intros [c'|e] s2 HI2 Hpost; [|by split]. destruct Hpost. by apply WP_reconcileLive.
Qed.

(** ** The whole system

    States reachable from a cluster with no leases and no allocated claims
    by interference and by runs of the claim reconciler, one after the
    other, each of which may stop at any call. *)

Inductive reachable : cluster -> Prop :=
| reach_init s :
    leases s = ∅ ->
    (forall n c, claims s !! n = Some c -> claim_name c = n /\ n <> ""%string /\
      cs_Phase (claim_status c) <> ClaimPhaseAllocated) ->
    (forall n p, pools s !! n = Some p -> pool_ok n p) ->
    reachable s
| reach_env s s' : reachable s -> env_step s s' -> reachable s'
| reach_reconcile s n s' :
    reachable s -> passes srv s (Reconcile claim_error_text APIReader n) s' -> reachable s'.

Lemma Inv_init s :
  leases s = ∅ ->
  (forall n c, claims s !! n = Some c -> claim_name c = n /\ n <> ""%string /\
    cs_Phase (claim_status c) <> ClaimPhaseAllocated) ->
  (forall n p, pools s !! n = Some p -> pool_ok n p) ->
  Inv s.
Proof.
  intros Hl Hc Hp. split; try (rewrite Hl; intros; simplify_map_eq; done); [|done|].
  - intros n c Hn. by destruct (Hc _ _ Hn) as (? & ? & _).
  - intros n m c d p Hn Hm _ [_ Hh]. by destruct (Hc _ _ Hn) as (_ & _ & ?).
Qed.

Lemma reachable_Inv s : reachable s -> Inv s.
Proof.
  induction 1 as [s Hl Hc Hp|s s' _ IH Hstep|s n s' _ IH Hrun].
  - by apply Inv_init.
  - eapply Inv_evolves; [exact IH|]. by apply evolves_env.
  - eapply wpi_passes; [by apply WP_Reconcile|exact Hrun].
Qed.
End Safety.
