(* ===== verification/AllocationServerModel.v ===== *)
(** * AllocationServerModel: an executable API server

    A deterministic server that meets the contract of [AllocationCluster]:
    it shows that the contract can be met, and it runs the reconcilers on
    concrete clusters.  [stale_server] is the same server behind a lease
    cache that lags, which the contract excludes. *)

From stdpp Require Import base gmap strings list relations.
From Stdlib Require Import ZArith Lia.
From S2P Require Import Prelude Effects Netip NetipFacts NetipText AddressRange AllocationRanges.
From S2P Require Import Kube AllocationTypes AllocationAPI AllocationClaimReconciler AllocationPick.
From S2P Require Import AllocationCluster AllocationSafety.

Open Scope Z_scope.

Definition values {A} (m : gmap string A) : list A := (map_to_list m).*2.

Lemma elem_of_values {A} (m : gmap string A) a : a ∈ values m <-> exists n, m !! n = Some a.
Proof.
  unfold values. rewrite list_elem_of_fmap. split.
  - intros ([n x] & -> & Hx). exists n. by apply elem_of_map_to_list in Hx.
  - intros [n Hn]. exists (n, a). split; [done|]. by apply elem_of_map_to_list.
Qed.

Definition bump (rv : string) : string := (rv ++ "+")%string.

Definition lookup_answer {A} (m : gmap string A) (n : string) : result api_error A :=
  match m !! n with Some a => Ok a | None => Err NotFound end.

(** Optimistic locking: the stored object, if the version matches. *)
Definition locked {A} (rv_of : A -> string) (m : gmap string A) (n rv : string) : result api_error A :=
  match m !! n with
  | None => Err NotFound
  | Some cur => if String.eqb (rv_of cur) rv then Ok cur else Err Conflict
  end.

Definition claim_rv (c : AllocationClaim) := ResourceVersion (claim_meta c).
Definition lease_rv (l : AllocationLease) := ResourceVersion (lease_meta l).
Definition pool_rv (p : AllocationPool) := ResourceVersion (pool_meta p).

Section Server.
Variable clock : Time.

(** [cached] is what the lease cache shows. *)
Definition answer (cached : gmap string AllocationLease) {R} (e : api R) (s : cluster) : R * cluster :=
  match e in api R return R * cluster with
  | GetClaim _ n => (lookup_answer (claims s) n, s)
  | ListClaims _ => (Ok (values (claims s)), s)
  | ListClaimsByPool p => (Ok (filter (fun c => p ∈ claimPoolRefKeys c) (values (claims s))), s)
  | UpdateClaim c =>
      match locked claim_rv (claims s) (claim_name c) (claim_rv c) with
      | Err e => (Err e, s)
      | Ok cur =>
          if bool_decide (claim_ValidateUpdate cur c = []) then
          let m := claim_meta cur in
          let c' := MkClaim (MkMeta (Name m) (Namespace m) (UID m) (bump (ResourceVersion m))
            (Generation m) (Finalizers (claim_meta c)) (DeletionTimestamp m) (OwnerReferences m))
          (claim_spec c) (claim_status cur) in
          (Ok c', set_claims s
            (if IsDeleting m && bool_decide (Finalizers (claim_meta c) = [])
              then delete (claim_name c) (claims s) else <[claim_name c := c']> (claims s)))
          else (Err Invalid, s)
      end
  | UpdateClaimStatus c =>
      match locked claim_rv (claims s) (claim_name c) (claim_rv c) with
      | Err e => (Err e, s)
      | Ok cur =>
          let c' := MkClaim (set_rv (claim_meta cur) (bump (claim_rv cur))) (claim_spec cur) (claim_status c) in
          (Ok c', set_claims s (<[claim_name c := c']> (claims s)))
      end
  | GetLease live n => (lookup_answer (if live then leases s else cached) n, s)
  | ListLeases _ => (Ok (values (leases s)), s)
  | ListLeasesByRetain k =>
      (Ok (filter (fun l => retainReferenceKey <$> ls_RetainWhile (lease_spec l) = Some k)
        (values (leases s))), s)
  | CreateLease l =>
      match leases s !! lease_name l with
      | Some _ => (Err AlreadyExists, s)
      | None =>
          if bool_decide (lease_ValidateCreate l = []) && negb (is_empty (lease_name l)) then
          let l' := MkLease (set_rv (lease_meta l) "1") (wire_lease_spec (lease_spec l)) (lease_status l) in
          (Ok l', set_leases s (<[lease_name l := l']> (leases s)))
          else (Err Invalid, s)
      end
  | UpdateLease l =>
      match locked lease_rv (leases s) (lease_name l) (lease_rv l) with
      | Err e => (Err e, s)
      | Ok cur =>
          if bool_decide (lease_ValidateUpdate cur l = []) then
          let l' := MkLease (set_rv (lease_meta cur) (bump (lease_rv cur)))
          (wire_lease_spec (lease_spec l)) (lease_status cur) in
          if decide (lease_name l' = lease_name l)
          then (Ok l', set_leases s (<[lease_name l := l']> (leases s)))
          else (Err Invalid, s)
          else (Err Invalid, s)
      end
  | UpdateLeaseStatus l =>
      match locked lease_rv (leases s) (lease_name l) (lease_rv l) with
      | Err e => (Err e, s)
      | Ok cur =>
          let l' := MkLease (set_rv (lease_meta l) (bump (lease_rv cur))) (lease_spec cur) (lease_status l) in
          (Ok l', set_leases s (<[lease_name l := l']> (leases s)))
      end
  | DeleteLease n uid =>
      match leases s !! n with
      | None => (Err NotFound, s)
      | Some cur =>
          if match uid with Some u => String.eqb u (UID (lease_meta cur)) | None => true end
          then (Ok tt, set_leases s (delete n (leases s))) else (Err Conflict, s)
      end
  | GetPool _ n => (lookup_answer (pools s) n, s)
  | UpdatePoolStatus p =>
      match locked pool_rv (pools s) (pool_name p) (pool_rv p) with
      | Err e => (Err e, s)
      | Ok cur =>
          let p' := MkPool (set_rv (pool_meta p) (bump (pool_rv cur))) (pool_spec cur) (pool_status p) in
          (Ok p', set_pools s (<[pool_name p := p']> (pools s)))
      end
  | GetOwner _ _ => (Ok tt, s)
  | GetRetained _ => (Err NotFound, s)
  | Now => (clock, s)
  end.

(** The server without cache lag. *)
Definition live_server : handler api cluster := fun R e s => answer (leases s) e s.

(** The server behind a lease cache that is not refreshed. *)
Definition stale_server : handler api (cluster * gmap string AllocationLease) :=
  fun R e w => let '(r, s') := answer w.2 e w.1 in (r, (s', w.2)).

Lemma locked_Ok {A} (rv_of : A -> string) m n rv cur :
  locked rv_of m n rv = Ok cur -> m !! n = Some cur /\ rv_of cur = rv.
Proof. unfold locked. intros Hl. split_match_in Hl. split; [done|]. by apply String.eqb_eq. Qed.

Lemma lookup_answer_ok {A} (m : gmap string A) n : get_answer m n (lookup_answer m n).
Proof. unfold lookup_answer, get_answer. by destruct (m !! n). Qed.

Lemma live_server_effect R (e : api R) s :
  api_effect R e s (answer (leases s) e s).1 (answer (leases s) e s).2.
Proof.
  destruct e as [? n|? |p|c|c|live n|?|k|l|l|l|n uid|? n|p|? ref|ref|]; cbn [answer api_effect fst snd].
  - split; [done|apply lookup_answer_ok].
  - split; [done|]. intros a. apply elem_of_values.
  - split; [done|]. intros c. rewrite list_elem_of_filter, elem_of_values. naive_solver.
  - destruct (locked _ _ _ _) as [cur|e] eqn:Hl; [|by left].
    apply locked_Ok in Hl as [Hc Hrv]. case_bool_decide as Hv; [|by left].
    exists cur. split_and!; done.
  - destruct (locked _ _ _ _) as [cur|e] eqn:Hl; [|by left].
    apply locked_Ok in Hl as [Hc Hrv]. by exists cur, (bump (claim_rv cur)).
  - split; [done|]. destruct live; apply lookup_answer_ok.
  - split; [done|]. intros a. apply elem_of_values.
  - split; [done|]. intros c. rewrite list_elem_of_filter, elem_of_values. naive_solver.
  - destruct (leases s !! lease_name l) as [cur|] eqn:Hl; cbn [fst snd].
    { split; [by left|]. by eexists. }
    destruct (bool_decide _ && _) eqn:Hv; cbn [fst snd]; [|by split; [left|]].
    to_prop. unfold is_empty in *. split; [|done]. unfold write_answer, CreateLease_applied.
    split_and!; [done|by apply String.eqb_neq|done..].
  - destruct (locked _ _ _ _) as [cur|e] eqn:Hl; [|by left].
    apply locked_Ok in Hl as [Hc Hrv]. case_bool_decide as Hv; [|by left].
    case_decide; [|by left]. exists cur. split_and!; done.
  - destruct (locked _ _ _ _) as [cur|e] eqn:Hl; [|by left].
    apply locked_Ok in Hl as [Hc Hrv]. exists cur. split_and!; done.
  - destruct (leases s !! n) as [cur|] eqn:Hl; [|by split; [left|]].
    case_match eqn:Hu; [|by split; [left|]]. split; [|done]. exists cur. split_and!; [done| |by left].
    intros u ->. by apply String.eqb_eq.
  - split; [done|apply lookup_answer_ok].
  - destruct (locked _ _ _ _) as [cur|e] eqn:Hl; [|by left].
    apply locked_Ok in Hl as [Hc Hrv]. exists cur. split_and!; done.
  - done.
  - done.
  - done.
Qed.

#[global] Instance live_server_ok : AllocationServer (server_of live_server).
Proof.
  intros R e s r s' Hr. unfold server_of, live_server in Hr.
  pose proof (live_server_effect R e s) as He. rewrite Hr in He. exists s'. split; [exact He|done].
Qed.
End Server.
