(* ===== verification/AllocationLeaseReconciler.v ===== *)
(** * AllocationLeaseReconciler and AllocationPoolReconciler

    [controller/internal/controller/allocationlease_controller.go] and
    [allocationpool_controller.go].  Both keep an observed status in step
    with the object; the lease reconciler also reaps leases. *)

From stdpp Require Import base gmap strings list.
From Stdlib Require Import ZArith Lia.
From S2P Require Import Prelude Effects Netip NetipFacts AddressRange AllocationRanges Kube.
From S2P Require Import AllocationTypes AllocationAPI AllocationClaimReconciler.

Open Scope Z_scope.

(** [ctrl.Result]: when to look again, if a time was asked for. *)
Definition Result := option Z.

Definition allocationLeaseRetainResyncInterval : Z := 5 * Minute.

(** [allocationLeaseStatus]. *)
Record allocationLeaseStatus := MkWanted {
  w_phase : AllocationLeasePhase;
  w_expiresAt : option Time;
  w_retainReleasedAt : option Time;
  w_ready : ConditionStatus;
  w_reason : string;
  w_message : string;
}.

Section LeaseReconciler.
Context `{KubeLib}.

(** The text of the condition for a retain reference and, when the read
    failed, its error. *)
Variable retain_message : RetainReference -> option api_error -> string.

Definition desiredLeaseStatus (now : Time) (fresh : AllocationLease) (d : allocationLeaseStatus)
  : AllocationLeaseStatus :=
  let gen := Generation (lease_meta fresh) in
  MkLeaseStatus gen (w_phase d) (w_expiresAt d) (w_retainReleasedAt d)
  (SetStatusCondition now (lst_Conditions (lease_status fresh))
    (MkCondition ReadyCondition (w_ready d) (w_reason d) (w_message d) gen zeroTime)).

(** [updateStatus]: the lease the caller holds afterwards, with the status
    and version that were written. *)
Definition lease_updateStatus (resource : AllocationLease) (desired : allocationLeaseStatus)
  : prog api (result api_error AllocationLease) :=
  RetryOnConflict (
    fresh <-? call (GetLease false (lease_name resource)) ;;
    now <- call Now ;;
    let st := desiredLeaseStatus now fresh desired in
    if bool_decide (lease_status fresh = st) then Ret (Ok (with_lease_status resource st)) else
    fresh' <-? call (UpdateLeaseStatus (with_lease_status fresh st)) ;;
    Ret (Ok (MkLease (set_rv (lease_meta resource) (ResourceVersion (lease_meta fresh')))
      (lease_spec resource) (lease_status fresh')))).

Definition retainedObjectExists (ref : RetainReference) : prog api (result api_error bool) :=
  r <- call (GetRetained ref) ;;
  Ret (match r with
  | Ok _ => Ok true
  | Err NotFound => Ok false
  | Err NoMatch => Ok false
  | Err NotRegistered => Ok false
  | Err e => Err e
  end).

Definition releasedRequeueAfter (resource : AllocationLease) (now expiresAt : Time) : Z :=
  let untilExpiry := i64 (Time_Sub expiresAt now + Second) in
  if bool_decide (is_Some (ls_RetainWhile (lease_spec resource))) &&
  (allocationLeaseRetainResyncInterval <? untilExpiry)
  then allocationLeaseRetainResyncInterval else untilExpiry.

(** [time.Duration(ttlSeconds) * time.Second]. *)
Definition ttlOf (sp : AllocationLeaseSpec) : Z :=
  match TTLSeconds sp with
  | Some t => if 0 <? t then i64 (t * Second) else 0
  | None => 0
  end.

(** [Reconcile] once the start of the TTL is known. *)
Definition reapOrWait (resource : AllocationLease) (now ttlStartsAt : Time)
  (retainReleasedAt : option Time) : prog api (result api_error Result) :=
  let expiresAt := ttlStartsAt + ttlOf (lease_spec resource) in
  if negb (now <? expiresAt) then
  _ <- lease_updateStatus resource (MkWanted LeasePhaseExpired (Some expiresAt) retainReleasedAt
    ConditionFalse "Expired" "TTL has elapsed") ;;
  r <- call (DeleteLease (lease_name resource) (Some (UID (lease_meta resource)))) ;;
  Ret (match r with
  | Ok _ | Err NotFound | Err Conflict => Ok None
  | Err e => Err e
  end)
  else
  _ <-? lease_updateStatus resource (MkWanted LeasePhaseReleased (Some expiresAt) retainReleasedAt
    ConditionFalse "Released" "claim has been deleted; awaiting TTL") ;;
  Ret (Ok (Some (releasedRequeueAfter resource now expiresAt))).

Definition lease_Reconcile (name : string) : prog api (result api_error Result) :=
  now <- call Now ;;
  r <- call (GetLease false name) ;;
  match r with
  | Err e => Ret (IgnoreNotFound None e)
  | Ok resource =>
      if IsDeleting (lease_meta resource) then Ret (Ok None) else
      let sp := lease_spec resource in
      if Time_IsZero (OwnerDeletionTimestamp sp) then
      _ <-? lease_updateStatus resource (MkWanted LeasePhaseActive None None ConditionTrue
        "Active" "lease backs an active claim") ;;
      Ret (Ok None)
      else
      let ownerDeleted := default zeroTime (OwnerDeletionTimestamp sp) in
      match ls_RetainWhile sp with
      | None => reapOrWait resource now ownerDeleted None
      | Some ref =>
          r <- retainedObjectExists ref ;;
          match r with
          | Err e =>
              _ <- lease_updateStatus resource (MkWanted LeasePhaseRetained
                (ExpiresAt (lease_status resource)) (RetainReleasedAt (lease_status resource))
                ConditionFalse "RetainCheckFailed" (retain_message ref (Some e))) ;;
              Ret (Err e)
          | Ok true =>
              _ <-? lease_updateStatus resource (MkWanted LeasePhaseRetained None None
                ConditionFalse "Retained" (retain_message ref None)) ;;
              Ret (Ok (Some allocationLeaseRetainResyncInterval))
          | Ok false =>
              let observed := match RetainReleasedAt (lease_status resource) with
              | Some t => t | None => now end in
              reapOrWait resource now observed (Some observed)
          end
      end
  end.

(** [mapRetainedObjectToLeases]: the leases to look at when an object of a
    watched kind changes. *)
Definition mapRetainedObjectToLeases (apiVersion kind ns name : string) : prog api (list string) :=
  r <- call (ListLeasesByRetain (retainReferenceKey (MkRetain apiVersion kind ns name))) ;;
  Ret (match r with Ok ls => map lease_name ls | Err _ => [] end).
End LeaseReconciler.

(** ** AllocationPoolReconciler *)

Section PoolReconciler.
Context `{KubeLib}.

(** [err.Error()] of a range that does not parse. *)
Variable candidate_error_text : candidate_error -> string.

Definition first_invalid {A} (ok : A -> bool) (l : list A) : option A :=
  List.find (fun x => negb (ok x)) l.

Definition is_ok {E A} (r : result E A) : bool := match r with Ok _ => true | Err _ => false end.

Definition validateAllocationPoolForStatus (pool : AllocationPoolSpec) : string :=
  match pool_Type pool with
  | AllocationTypeNumber =>
      match pool_Number pool with
      | None => "spec.number is required for type=number"
      | Some n => if (Max n <? Min n)%Z then "number.min must be less than or equal to number.max" else ""
      end
  | AllocationTypeIP =>
      match pool_IP pool with
      | None => "spec.ip is required for type=ip"
      | Some ip =>
          if bool_decide (CIDRs ip = []) && Nat.eqb (length (Ranges ip)) 0
          then "spec.ip.cidrs or spec.ip.ranges must contain at least one entry" else
          match first_invalid (fun raw => is_ok (ParsePrefix raw)) (CIDRs ip) with
          | Some raw => ("invalid CIDR: " ++ raw)%string
          | None =>
              match parseRangeCandidates (Ranges ip) with
              | Err e => candidate_error_text e
              | Ok _ =>
                  match first_invalid (fun raw => is_ok (ParseAddr raw)) (Excluded ip) with
                  | Some raw => ("invalid excluded IP: " ++ raw)%string
                  | None => ""
                  end
              end
          end
      end
  | AllocationTypeOther _ => ""
  end%string.

Definition desiredPoolStatus (now : Time) (fresh : AllocationPool) (ready : ConditionStatus)
  (reason message : string) : AllocationPoolStatus :=
  let st := pool_status fresh in
  let gen := Generation (pool_meta fresh) in
  MkPoolStatus gen (AllocationVersion st) (LastAllocatedNumber st) (LastAllocatedIP st)
  (SetStatusCondition now (ps_Conditions st)
    (MkCondition ReadyCondition ready reason message gen zeroTime)).

Definition pool_updateStatus (name : string) (ready : ConditionStatus) (reason message : string)
  : prog api (result api_error unit) :=
  RetryOnConflict (
    fresh <-? call (GetPool false name) ;;
    now <- call Now ;;
    let st := desiredPoolStatus now fresh ready reason message in
    if bool_decide (st = pool_status fresh) then Ret (Ok tt) else
    _ <-? call (UpdatePoolStatus (with_pool_status fresh st)) ;;
    Ret (Ok tt)).

Definition pool_Reconcile (name : string) : prog api (result api_error unit) :=
  r <- call (GetPool false name) ;;
  match r with
  | Err e => Ret (IgnoreNotFound tt e)
  | Ok resource =>
      let msg := validateAllocationPoolForStatus (pool_spec resource) in
      if negb (IsDeleting (pool_meta resource)) && negb (is_empty msg)
      then pool_updateStatus (pool_name resource) ConditionFalse "Invalid" msg
      else pool_updateStatus (pool_name resource) ConditionTrue "ReconcileSucceeded" ""
  end.
End PoolReconciler.

(** ** Lemmas *)

Section Facts.
Context `{KubeLib}.

Lemma int64_id z : - 2 ^ 63 <= z < 2 ^ 63 -> i64 z = z.
Proof.
  intros Hz. unfold wrapS. change (2 ^ (64 - 1)) with (2 ^ 63). rewrite Z.mod_small; lia.
Qed.

(** The TTL of a stored lease, whose seconds are an [int32]. *)
Lemma ttlOf_range sp :
  (forall t, TTLSeconds sp = Some t -> - 2 ^ 31 <= t < 2 ^ 31) ->
  0 <= ttlOf sp < 2 ^ 31 * Second /\
  (forall t, TTLSeconds sp = Some t -> 0 < t -> ttlOf sp = t * Second).
Proof.
  intros Ht. unfold ttlOf. destruct (TTLSeconds sp) as [t|]; [|split; [unfold Second; lia|done]].
  specialize (Ht t eq_refl). unfold Second in *. destruct (Z.ltb_spec 0 t).
  - rewrite int64_id by lia. split; [lia|]. by intros ? [= <-].
  - split; [lia|]. intros t' [= <-]. lia.
Qed.

Lemma find_negb_None {A} (f : A -> bool) l :
  first_invalid f l = None <-> forall x, x ∈ l -> f x = true.
Proof.
  unfold first_invalid. split.
  - intros Hn x Hx. apply list_elem_of_In in Hx. apply (find_none _ _ Hn) in Hx.
    by apply negb_false_iff in Hx.
  - intros Hall. destruct (find _ l) as [x|] eqn:Hf; [|done]. apply find_some in Hf as [Hx Hf].
    apply list_elem_of_In, Hall in Hx. by rewrite Hx in Hf.
Qed.
End Facts.
