(* ===== verification/AllocationTheorems.v ===== *)
(** * AllocationTheorems: what the allocation framework guarantees

    The properties of the claim, lease and pool reconcilers, with concrete
    clusters on which they apply. *)

From stdpp Require Import base gmap strings list relations.
From Stdlib Require Import ZArith Lia.
From S2P Require Import Prelude Effects Netip NetipFacts NetipText AddressRange AllocationRanges.
From S2P Require Import Kube AllocationTypes AllocationAPI AllocationClaimReconciler AllocationPick.
From S2P Require Import AllocationCluster AllocationSafety AllocationServerModel.
From S2P Require Import AllocationLeaseReconciler.

Open Scope Z_scope.

(** ** A small cluster *)

Definition vni_pool : AllocationPool :=
  MkPool (MkMeta "vni" "" "uid-vni" "1" 1 [] None [])
    (MkPoolSpec AllocationTypeNumber "firstFit" (Some (MkNumberSpec 10 20)) None)
    (MkPoolStatus 1 0 0 "" []).

Definition demo_claim (name key : string) (release : option Z) (deleted : option Time) : AllocationClaim :=
  MkClaim (MkMeta name "" ("uid-" ++ name) "1" 1 [allocationClaimFinalizer] deleted [])
    (MkClaimSpec ["vni"%string] (MkResourceRef "v1" "Subnet" "" "s") "status.vni" None None None release
       key None None)
    (MkClaimStatus 0 [] ClaimPhaseNone no_value).

Definition demo_text (_ : claim_error) : string := "message".

Definition two_claims : cluster :=
  MkCluster {[ "a" := demo_claim "a" "" None None; "b" := demo_claim "b" "" None None ]}%string
    ∅ {[ "vni"%string := vni_pool ]}.

Definition reconcile_on (s : cluster) (n : string) : cluster :=
  (run (live_server (100 * Second)) (Reconcile demo_text true n) s).2.

Definition both_allocated : cluster := reconcile_on (reconcile_on two_claims "a") "b".

Example both_allocated_values :
  (cs_Value ∘ claim_status) <$> claims both_allocated =
  {[ "a" := MkValue 10 ""; "b" := MkValue 11 "" ]}%string.
Proof. vm_compute. reflexivity. Qed.

(** Claim C1: unique allocation. In every state that user actions, the other
    controllers and runs of the claim reconciler can reach, when the runs
    follow one another and each of their reads, of a cached client too, is
    answered from the current state: no two leases of a pool reserve the same
    value; two claims that are allocated and not being deleted, and that both
    name just the one same pool, hold different values; and a lease of that
    pool with the value of such a claim belongs to that claim and is not
    released. Any run may stop at any call, and the server may fail any call.
    *)
Theorem unique_allocation `{KubeLib} (srv : server api cluster) (Hsrv : AllocationServer srv)
    (text : claim_error -> string) (APIReader : bool) (s : cluster) :
  reachable srv APIReader text s ->
  (forall n m c d p, claims s !! n = Some c -> claims s !! m = Some d -> n <> m ->
     holds c -> holds d -> PoolRefs (claim_spec c) = [p] -> PoolRefs (claim_spec d) = [p] ->
     ~ conflicts (cs_Value (claim_status c)) (cs_Value (claim_status d))) /\
  (forall n m l k, leases s !! n = Some l -> leases s !! m = Some k -> n <> m ->
     PoolRef (lease_spec l) = PoolRef (lease_spec k) ->
     ~ conflicts (Value (lease_spec l)) (Value (lease_spec k))) /\
  (forall n c m l, claims s !! n = Some c -> holds c -> leases s !! m = Some l ->
     PoolRefs (claim_spec c) = [PoolRef (lease_spec l)] ->
     conflicts (Value (lease_spec l)) (cs_Value (claim_status c)) -> backs l n).
Proof.
  intros Hr. apply reachable_Inv in Hr; [|done]. split_and!.
  - apply (inv_claims _ Hr).
  - apply (inv_leases _ Hr).
  - apply (inv_claim_lease _ Hr).
Qed.

Lemma unique_allocation_witness :
  exists c d, claims both_allocated !! "a"%string = Some c /\ claims both_allocated !! "b"%string = Some d /\
    holds c /\ holds d /\ ~ conflicts (cs_Value (claim_status c)) (cs_Value (claim_status d)).
Proof.
  assert (Hr : reachable (server_of (live_server (100 * Second))) true demo_text both_allocated).
  { eapply reach_reconcile; [|apply exec_passes with (a := (run (live_server (100 * Second))
      (Reconcile demo_text true "b") (reconcile_on two_claims "a")).1), run_exec].
    eapply reach_reconcile; [|apply exec_passes with (a := (run (live_server (100 * Second))
      (Reconcile demo_text true "a") two_claims).1), run_exec].
    apply reach_init; [reflexivity| |].
    - intros n c Hc. simpl in Hc. rewrite lookup_insert_Some, lookup_singleton_Some in Hc.
      destruct Hc as [[<- <-]|[_ [<- <-]]]; (split; [reflexivity|split; discriminate]).
    - intros n p Hp. simpl in Hp. apply lookup_singleton_Some in Hp as [<- <-]. split; reflexivity. }
  destruct (claims both_allocated !! "a"%string) as [c|] eqn:Ha; [|vm_compute in Ha; discriminate Ha].
  destruct (claims both_allocated !! "b"%string) as [d|] eqn:Hb; [|vm_compute in Hb; discriminate Hb].
  assert (Hc : holds c) by (revert Ha; vm_compute; intros [= <-]; split; reflexivity).
  assert (Hd : holds d) by (revert Hb; vm_compute; intros [= <-]; split; reflexivity).
  exists c, d. split; [reflexivity|]. split; [reflexivity|]. split; [exact Hc|]. split; [exact Hd|].
  refine (proj1 (unique_allocation _ _ demo_text true both_allocated Hr) "a"%string "b"%string c d
    "vni"%string Ha Hb _ Hc Hd _ _).
  - discriminate.
  - revert Ha. vm_compute. intros [= <-]. reflexivity.
  - revert Hb. vm_compute. intros [= <-]. reflexivity.
Defined.

(** ** A lease cache that lags *)

Definition world : Type := cluster * gmap string AllocationLease.

Definition sync_cache (w : world) : world := (w.1, leases w.1).

Definition reconcile_stale (n : string) (w : world) : world :=
  (run (stale_server (100 * Second)) (Reconcile demo_text true n) w).2.

(** A user deletes a claim that has finalizers. *)
Definition delete_claim (n : string) (w : world) : world :=
  (set_claims w.1 (alter (fun c => MkClaim
     (MkMeta (Name (claim_meta c)) (Namespace (claim_meta c)) (UID (claim_meta c))
        (ResourceVersion (claim_meta c)) (Generation (claim_meta c)) (Finalizers (claim_meta c))
        (Some (90 * Second)) (OwnerReferences (claim_meta c)))
     (claim_spec c) (claim_status c)) n (claims w.1)), w.2).

(** Three claims share the reuse key [k]; [a] is allocated and keeps its
    lease for an hour after its deletion. *)
Definition shared_key : world :=
  sync_cache (reconcile_stale "a" (MkCluster
    {[ "a" := demo_claim "a" "k" (Some (3600 * Second)) None;
       "b" := demo_claim "b" "k" None None; "c" := demo_claim "c" "k" None None ]}%string
    ∅ {[ "vni"%string := vni_pool ]}, ∅)).

(** [a] is deleted and its lease released; [b] is reconciled before the cache
    shows the release; [c] is reconciled after. *)
Definition lagging_run : world :=
  reconcile_stale "c" (sync_cache (reconcile_stale "b" (reconcile_stale "a" (delete_claim "a" shared_key)))).

(** With a lease cache that lags, two live claims of one pool end up
    with the same value.  [allocate] reads the lease through the uncached
    reader and reuses the value of a released lease, [ensureLease] reads it
    through the cache, still sees the old holder and returns without taking
    the lease, so the lease stays free for the next claim. *)
Theorem stale_cache_double_allocation :
  exists b c, claims lagging_run.1 !! "b"%string = Some b /\ claims lagging_run.1 !! "c"%string = Some c /\
    holds b /\ holds c /\ PoolRefs (claim_spec b) = PoolRefs (claim_spec c) /\
    conflicts (cs_Value (claim_status b)) (cs_Value (claim_status c)).
Proof.
  destruct (claims lagging_run.1 !! "b"%string) as [b|] eqn:Hb; [|vm_compute in Hb; discriminate Hb].
  destruct (claims lagging_run.1 !! "c"%string) as [c|] eqn:Hc; [|vm_compute in Hc; discriminate Hc].
  exists b, c. revert Hb Hc. vm_compute. intros [= <-] [= <-].
  do 5 (split; [first [reflexivity | split; reflexivity]|]). left. split; [discriminate|reflexivity].
Qed.

(** ** The allocator *)

(** Claim C19: [allocateNumber], for a pool of non-negative numbers below
    2^64 - 1 and with the numbers collected from the claims and leases of the
    cluster, hands out the smallest number of the pool that no
    other claim or lease holds, and reports exhaustion only when every number of
    the pool is held; its loop needs no more iterations than there are used
    numbers, plus one.  A request is answered on each of its branches: the
    number itself when it lies in the pool and is free, the error that it lies
    outside this pool when it does, and the error that names a claim or lease
    which holds it when it is taken. *)
Theorem pickNumber_correct (pool n L : string) (spec : AllocationPoolNumberSpec)
    (cs : list AllocationClaim) (ls : list AllocationLease) :
  0 <= Min spec -> Max spec < 2 ^ 64 - 1 ->
  let used := used_numbers_leases pool L (used_numbers_claims pool n cs) ls in
  let held k h := number_holder pool n L cs ls k h in
  scanNumbers (S (size used)) used (Min spec) (Max spec) <> NumbersOutOfFuel /\
  match pickNumber pool spec None used with
  | Ok k => Min spec <= k <= Max spec /\ (~ exists h, held k h) /\
            forall b, Min spec <= b < k -> exists h, held b h
  | Err e => e = EAllPoolsExhausted /\ forall b, Min spec <= b <= Max spec -> exists h, held b h
  end /\
  forall r, match pickNumber pool spec (Some r) used with
            | Ok k => k = r /\ Min spec <= r <= Max spec /\ ~ exists h, held r h
            | Err (ENumberOutside k p) => k = r /\ p = pool /\ ~ Min spec <= r <= Max spec
            | Err (ENumberTaken k h) => k = r /\ Min spec <= r <= Max spec /\ held r h
            | Err _ => False
            end.
Proof.
  intros Hmin Hmax used held. pose proof (scanNumbers_enough used _ _ Hmin Hmax) as Hfuel.
  split; [exact Hfuel|]. split.
  - pose proof (scanNumbers_spec (S (size used)) used _ _ Hmin Hmax) as Hs.
    unfold pickNumber, firstFreeNumber. destruct (scanNumbers _ _ _ _) as [k| |]; [|split; [done|]|done].
    + destruct Hs as (Hr & Hk & Hb). split; [done|]. split; [by apply used_numbers_free|].
      intros b Hlt. apply used_numbers_taken, Hb, Hlt.
    + intros b Hb. apply used_numbers_taken, Hs, Hb.
  - intros r. unfold pickNumber.
    destruct ((r <? Min spec) || (Max spec <? r)) eqn:Hb; to_prop.
    + split_and!; [done|done|]. destruct Hb; to_prop; lia.
    + destruct (used !! r) as [h|] eqn:Hu; split_and!; try done; try lia.
      * by apply used_numbers_Some.
      * by apply used_numbers_free.
Qed.

(** Claim [a] holds 10 and a lease keeps 12. *)
Definition number_claims : list AllocationClaim :=
  [MkClaim (claim_meta (demo_claim "a" "" None None)) (claim_spec (demo_claim "a" "" None None))
     (MkClaimStatus 1 [] ClaimPhaseAllocated (MkValue 10 ""))].

Definition number_leases : list AllocationLease :=
  [MkLease (MkMeta "gone" "" "uid-gone" "1" 1 [] None [])
     (MkLeaseSpec "vni" (MkValue 12 "") (MkClaimRef "old" "uid-old") (Some (90 * Second)) None None None)
     (MkLeaseStatus 1 LeasePhaseRetained None None [])].

Lemma pickNumber_correct_witness :
  let used := used_numbers_leases "vni" "" (used_numbers_claims "vni" "b" number_claims) number_leases in
  pickNumber "vni" (MkNumberSpec 10 20) None used = Ok 11 /\
  (exists h, number_holder "vni" "b" "" number_claims number_leases 10 h) /\
  pickNumber "vni" (MkNumberSpec 10 20) (Some 12) used = Err (ENumberTaken 12 "lease/gone") /\
  number_holder "vni" "b" "" number_claims number_leases 12 "lease/gone".
Proof.
  destruct (pickNumber_correct "vni" "b" "" (MkNumberSpec 10 20) number_claims number_leases
    ltac:(simpl; lia) ltac:(simpl; lia)) as (_ & Hp & Hr).
  specialize (Hr 12). cbn zeta in *.
  set (used := used_numbers_leases _ _ _ _) in *.
  assert (H11 : pickNumber "vni" (MkNumberSpec 10 20) None used = Ok 11) by (vm_compute; reflexivity).
  assert (H12 : pickNumber "vni" (MkNumberSpec 10 20) (Some 12) used = Err (ENumberTaken 12 "lease/gone"))
    by (vm_compute; reflexivity).
  rewrite H11 in Hp. rewrite H12 in Hr. cbn [Min Max] in *.
  split; [exact H11|]. split; [apply Hp; lia|]. split; [exact H12|]. apply Hr.
Defined.





(** Claim C21: without a requested address [allocateIP] takes the lowest free
    allocatable address of the first candidate that has one, and reports
    exhaustion only when every allocatable address of every candidate is
    used: the address loop always ends by itself, also at the last address of
    its family. *)
Theorem pickIP_first_fit (pool : AllocationPoolSpec) (ip : AllocationPoolIPSpec) (poolName : string)
    (claim : AllocationClaim) (candidates : list candidateRange) (used : gmap Addr string) `{KubeLib} :
  validateAllocationPoolFields pool = [] -> pool_IP pool = Some ip ->
  claimCandidates poolName ip claim = Ok candidates ->
  match pickIP poolName candidates None used with
  | Ok s => exists a, s = Addr_String a /\ first_fit candidates used a
  | Err e => e = EAllPoolsExhausted /\ all_used candidates used
  end.
Proof.
  intros Hadm Hip Hc.
  destruct (validateAllocationPoolFields_candidates _ _ Hadm Hip) as (cs0 & Hcs0 & _ & Hwf0).
  apply claimCandidates_wf in Hc; [|by exists cs0].
  pose proof (firstFitCandidate_spec candidates used Hc) as Hs. unfold pickIP.
  destruct (firstFitCandidate candidates used) as [a|]; [by exists a|done].
Qed.

(** The pool 255.255.255.252/30 has two allocatable addresses; with both in
    use it is exhausted. *)
Lemma pickIP_first_fit_witness :
  all_used [candidateRangeFromPrefix (MkPrefix (Addr4 4294967292) 30)]
    {[ Addr4 4294967293 := "a"%string; Addr4 4294967294 := "b"%string ]}.
Proof.
  pose proof (pickIP_first_fit
    (MkPoolSpec AllocationTypeIP "firstFit" None (Some (MkIPSpec ["255.255.255.252/30"%string] [] [])))
    (MkIPSpec ["255.255.255.252/30"%string] [] []) "ips" (demo_claim "a" "" None None)
    [candidateRangeFromPrefix (MkPrefix (Addr4 4294967292) 30)]
    {[ Addr4 4294967293 := "a"%string; Addr4 4294967294 := "b"%string ]}
    ltac:(vm_compute; reflexivity) eq_refl ltac:(vm_compute; reflexivity)) as Hp.
  change (pickIP "ips" _ None _) with (@Err claim_error string EAllPoolsExhausted) in Hp. exact (proj2 Hp).
Defined.

(** ** Reuse *)

(** A claim that may take the lease under its reuse key inherits the
    lease's value: when [allocate] succeeds, the result is the pool and the
    value of the lease, however full the pool is and whatever is free in it;
    no other pool is looked at. *)
Theorem reuse_inherits_value `{KubeLib} (APIReader : bool) (c : AllocationClaim) (l : AllocationLease)
    (pool : AllocationPool) (s : cluster) :
  leases s !! leaseNameFor c = Some l ->
  leaseHeldByOtherClaim l c = false ->
  PoolRef (lease_spec l) ∈ PoolRefs (claim_spec c) ->
  pools s !! PoolRef (lease_spec l) = Some pool ->
  wp api_effect (allocate APIReader c) (fun r s' => s' = s /\
    match r with
    | Ok (res, p) => p = pool /\ result_value res = Value (lease_spec l)
    | Err e => exists a, e = EAPI a
    end) s.
Proof.
  intros Hl Ht Href Hp. apply claimReferencesPool_spec in Href.
  unfold allocate, getLease. cbn [wp bind call]. intros r s1 [-> Hr].
  destruct r as [l'|e]; simpl in Hr; [|destruct e; cbn; eauto; congruence].
  rewrite Hl in Hr. injection Hr as <-. rewrite Ht. unfold reuseLease. rewrite Href.
  cbn [wp bind call tryP negb]. intros r s2 [-> Hr]. destruct r as [p|e]; simpl in Hr.
  - rewrite Hp in Hr. injection Hr as <-. cbn. split; [done|]. split; [done|].
    by destruct (Value (lease_spec l)).
  - destruct e; cbn; eauto; congruence.
Qed.

Definition released_lease : AllocationLease :=
  MkLease (MkMeta "k" "" "uid-k" "1" 1 [] None [])
    (MkLeaseSpec "vni" (MkValue 17 "") (MkClaimRef "old" "uid-old") (Some (5 * Second)) (Some 3600) None None)
    (MkLeaseStatus 0 LeasePhaseNone None None []).

Definition released_cluster : cluster :=
  MkCluster ∅ {[ "k"%string := released_lease ]} {[ "vni"%string := vni_pool ]}.

(** ** Deletion *)

(** Where the lease of a deleted claim ends up. *)
Definition lease_settled (c : AllocationClaim) (l : AllocationLease) (s' : cluster) : Prop :=
  if negb (leaseOwnedByClaim l c) then leases s' !! leaseNameFor c = Some l else
  match ReleaseAfter (claim_spec c) with
  | Some d =>
      if 0 <? d then
        exists l', leases s' !! leaseNameFor c = Some l' /\
          Value (lease_spec l') = Value (lease_spec l) /\ PoolRef (lease_spec l') = PoolRef (lease_spec l) /\
          ClaimRef (lease_spec l') = ClaimRef (lease_spec l) /\
          is_Some (OwnerDeletionTimestamp (lease_spec l')) /\
          TTLSeconds (lease_spec l') = Some (int32_of_seconds d)
      else leases s' !! leaseNameFor c = None
  | None => leases s' !! leaseNameFor c = None
  end.

Lemma wp_finish c (Q : result api_error unit -> cluster -> Prop) s `{KubeLib} :
  (forall e s', leases s' = leases s -> Q (Err e) s') ->
  (forall s', leases s' = leases s ->
     (forall c', claims s' !! claim_name c = Some c' ->
        Finalizers (claim_meta c') = Finalizers (claim_meta c)) -> Q (Ok tt) s') ->
  wp api_effect (_ <-? call (UpdateClaim c) ;; Ret (Ok tt)) Q s.
Proof.
  intros He Hok. apply wp_tryP. cbn [wp call]. intros [c'|e] s' Hr.
  - cbn. destruct Hr as (cur & Hcur & _ & _ & _ & _ & _ & Hf & _ & _ & ->). apply Hok; [done|].
    intros c2 Hc2. simpl in Hc2. case_match; [by rewrite lookup_delete_eq in Hc2|].
    rewrite lookup_insert_eq in Hc2. by injection Hc2 as <-.
  - destruct Hr as [->|(_ & a & cur & _ & _ & _ & _ & _ & _ & _ & _ & _ & ->)]; by apply He.
Qed.

(** What a successful [handleDeletion] has done. *)
Definition deletion_done (c : AllocationClaim) (l : AllocationLease) (r : result api_error unit)
    (s' : cluster) : Prop :=
  r = Ok tt ->
  (forall c', claims s' !! claim_name c = Some c' ->
     allocationClaimFinalizer ∉ Finalizers (claim_meta c')) /\
  lease_settled c l s'.

Section Deletion.
Context `{KubeLib} (c c0 : AllocationClaim) (l : AllocationLease) (s : cluster).
Context (Hname : claim_name c0 = claim_name c)
  (Hf0 : allocationClaimFinalizer ∉ Finalizers (claim_meta c0))
  (Hl : leases s !! leaseNameFor c = Some l) (Hn : lease_name l = leaseNameFor c)
  (Hlf : Finalizers (lease_meta l) = []).

Lemma wp_finish_done s1 :
  lease_settled c l s1 ->
  wp api_effect (_ <-? call (UpdateClaim c0) ;; Ret (Ok tt)) (deletion_done c l) s1.
Proof.
  intros Hs1. apply wp_finish; [by unfold deletion_done|]. intros s' Hls Hcl _. split.
  - intros c' Hc'. rewrite <- Hname in Hc'. by rewrite (Hcl c' Hc').
  - unfold lease_settled in *. by rewrite Hls.
Qed.

Lemma wp_delete_done :
  (forall s1, leases s1 !! leaseNameFor c = None -> lease_settled c l s1) ->
  wp api_effect (r <- call (DeleteLease (lease_name l) None) ;;
    match r with Ok _ | Err NotFound => _ <-? call (UpdateClaim c0) ;; Ret (Ok tt)
    | Err e => Ret (Err e) end) (deletion_done c l) s.
Proof.
  intros Hset. cbn [wp bind call]. rewrite Hn. intros r s1 [Hr Hnf].
  destruct r as [[]|e].
  - apply wp_finish_done, Hset. destruct Hr as (cur & Hcur & _ & [->|(Hne & _)]); [apply lookup_delete_eq|].
    rewrite Hl in Hcur. injection Hcur as <-. by rewrite Hlf in Hne.
  - destruct e; try (by intros ?). specialize (Hnf eq_refl). congruence.
Qed.

Lemma wp_release_done now ttl d :
  leaseOwnedByClaim l c = true -> ReleaseAfter (claim_spec c) = Some d -> 0 < d ->
  ttl = int32_of_seconds d ->
  wp api_effect (_ <-? call (UpdateLease (with_lease_spec l
    (MkLeaseSpec (PoolRef (lease_spec l)) (Value (lease_spec l)) (ClaimRef (lease_spec l)) (Some now)
      (Some ttl) (ls_RetainWhile (lease_spec l)) (ls_NetworkInterface (lease_spec l))))) ;;
    _ <-? call (UpdateClaim c0) ;; Ret (Ok tt)) (deletion_done c l) s.
Proof.
  intros Hown Hra Hd ->. apply wp_tryP. cbn [wp call]. intros [l'|e] s1 Hr; [|by intros ?].
  destruct Hr as (cur & Hcur & _ & _ & Hnm & Hsp & _ & ->).
  apply wp_finish_done. unfold lease_settled. rewrite Hown, Hra. cbn [negb].
  rewrite (proj2 (Z.ltb_lt 0 d) Hd). exists l'.
  change (lease_name (with_lease_spec l _)) with (lease_name l). simpl. rewrite Hn, lookup_insert_eq, Hsp.
  simpl. split_and!; try done.
Qed.
End Deletion.

(** When [handleDeletion] succeeds, the claim has lost the
    finalizer, so its deletion completes, and its own lease has been dealt
    with: kept with its value, marked released and given the TTL of
    [ReleaseAfter] when that is positive, removed otherwise.  A lease that
    records another claim is left as it is. *)
Theorem deletion_settles_lease `{KubeLib} (c : AllocationClaim) (l : AllocationLease) (s : cluster) :
  allocationClaimFinalizer ∈ Finalizers (claim_meta c) ->
  leases s !! leaseNameFor c = Some l -> lease_name l = leaseNameFor c -> Finalizers (lease_meta l) = [] ->
  wp api_effect (handleDeletion c) (deletion_done c l) s.
Proof.
  intros Hf Hl Hn Hlf. apply ContainsFinalizer_spec in Hf. unfold handleDeletion. rewrite Hf.
  cbn [negb]. set (c0 := with_claim_finalizers c _).
  assert (Hc0 : claim_name c0 = claim_name c) by done.
  assert (Hf0 : allocationClaimFinalizer ∉ Finalizers (claim_meta c0)).
  { simpl. rewrite RemoveFinalizer_spec. tauto. }
  clearbody c0. cbn [wp bind call]. intros r s1 [-> Hr].
  destruct r as [l0|e]; simpl in Hr; [|destruct e; (by intros ?) || congruence].
  rewrite Hl in Hr. injection Hr as <-.
  destruct (leaseOwnedByClaim l c) eqn:Hown; cbn [negb];
    [|apply wp_finish_done; [done|done|]; unfold lease_settled; by rewrite Hown].
  destruct (ReleaseAfter (claim_spec c)) as [d|] eqn:Hra;
    [destruct (Z.ltb_spec 0 d) as [Hd|Hd]|].
  - cbn [wp bind call]. intros now s1 ->. case_match eqn:Hneeds.
    + by eapply wp_release_done.
    + apply orb_false_iff in Hneeds as [H1 H2].
      apply bool_decide_eq_false in H1. apply bool_decide_eq_false, dec_stable in H2.
      apply wp_finish_done; [done|done|]. unfold lease_settled. rewrite Hown, Hra. cbn [negb].
      rewrite (proj2 (Z.ltb_lt 0 d) Hd). exists l. split_and!; try done. by apply not_eq_None_Some.
  - apply wp_delete_done; [done..|]. intros s1 Hs1. unfold lease_settled. rewrite Hown, Hra. cbn [negb].
    by rewrite (proj2 (Z.ltb_ge 0 d) Hd).
  - apply wp_delete_done; [done..|]. intros s1 Hs1. unfold lease_settled. by rewrite Hown, Hra.
Qed.

Definition deleting_claim : AllocationClaim := demo_claim "old" "k" (Some (60 * Second)) (Some (9 * Second)).

Definition deleting_cluster : cluster :=
  MkCluster {[ "old"%string := deleting_claim ]} {[ "k"%string := released_lease ]} ∅.

(** ** Reaping *)

(** The lease a call deletes, if it deletes one. *)
Definition deleted_by (x : entry api) : option (string * option string) :=
  match x with
  | @Entry _ R e _ => match e with DeleteLease n uid => Some (n, uid) | _ => None end
  end.

Definition not_delete R (e : api R) : Prop := match e with DeleteLease _ _ => False | _ => True end.

(** A read of the retained object that says it is gone. *)
Definition retained_gone (r : result api_error unit) : Prop :=
  r = Err NotFound \/ r = Err NoMatch \/ r = Err NotRegistered.

(** The history shows that the lease was released and its time is over. *)
Definition expired_in (name : string) (h : list (entry api)) (l : AllocationLease) (now : Time) : Prop :=
  Entry Now now ∈ h /\ Entry (GetLease false name) (Ok l) ∈ h /\
  IsDeleting (lease_meta l) = false /\
  exists t, OwnerDeletionTimestamp (lease_spec l) = Some t /\ t <> zeroTime /\
    match ls_RetainWhile (lease_spec l) with
    | None => t + ttlOf (lease_spec l) <= now
    | Some ref =>
        exists r, Entry (GetRetained ref) r ∈ h /\ retained_gone r /\
          default now (RetainReleasedAt (lease_status l)) + ttlOf (lease_spec l) <= now
    end.

Definition justified (name : string) (h : list (entry api)) : Prop :=
  forall x n uid, x ∈ h -> deleted_by x = Some (n, uid) ->
    exists l now, expired_in name h l now /\ n = lease_name l /\ uid = Some (UID (lease_meta l)).

Section Reaper.
Context `{KubeLib} (retain_message : RetainReference -> option api_error -> string) (name : string).

Lemma expired_in_grown P h h' l now : grown P h h' -> expired_in name h l now -> expired_in name h' l now.
Proof.
  intros (new & -> & _) (Hn & Hg & Hd & t & Ht & Hz & Hr).
  split_and!; [set_solver|set_solver|done|]. exists t. split_and!; [done|done|].
  destruct (ls_RetainWhile (lease_spec l)); [|done]. destruct Hr as (r0 & Hr & ? & ?).
  exists r0. split_and!; [set_solver|done|done].
Qed.

Lemma justified_grown h h' : grown not_delete h h' -> justified name h -> justified name h'.
Proof.
  intros Hg Hj x n uid Hx Hd. pose proof Hg as (new & -> & Hnew).
  apply elem_of_app in Hx as [Hx|Hx].
  - destruct (Hj _ _ _ Hx Hd) as (l & now & He & ? & ?). exists l, now.
    split; [by eapply expired_in_grown|done].
  - specialize (Hnew _ Hx). destruct x as [R e r]. by destruct e.
Qed.

Lemma only_lease_updateStatus l d : only not_delete (lease_updateStatus l d).
Proof.
  apply only_RetryOnConflict. unfold tryP. cbn. split; [done|]. intros [fresh|e]; cbn; [|done].
  split; [done|]. intros now. case_match; cbn; [done|]. split; [done|]. by intros [?|?].
Qed.

(** Programs that never delete keep a justified history justified. *)
Lemma wpi_quiet {A} (p : prog api A) h :
  justified name h -> only not_delete p -> wpi recorder (justified name) p (fun _ h' => grown not_delete h h') h.
Proof. intros Hj Hp. apply wpi_only; [|done]. intros h' Hg. by eapply justified_grown. Qed.

Lemma wpi_reapOrWait l now start rel h :
  justified name h -> (start + ttlOf (lease_spec l) <= now -> expired_in name h l now) ->
  wpi recorder (justified name) (reapOrWait l now start rel) (fun _ _ => True) h.
Proof.
  intros Hj Hexp. unfold reapOrWait. destruct (Z.ltb_spec now (start + ttlOf (lease_spec l))) as [Hlt|Hge].
  - eapply wpi_mono; [apply wpi_quiet; [done|]|done].
    unfold tryP. apply only_bind; [apply only_lease_updateStatus|]. by intros [?|?].
  - specialize (Hexp Hge). cbn [negb]. apply wpi_bind.
    eapply wpi_mono; [apply wpi_quiet; [done|apply only_lease_updateStatus]|].
    intros a0 h1 Hj1 Hg1. split; [done|]. intros r h2 ->.
    assert (Hj2 : justified name (h1 ++ [Entry (DeleteLease (lease_name l) (Some (UID (lease_meta l)))) r])).
    { intros x n uid Hx Hd.
      assert (Hx' : x ∈ h1 \/ n = lease_name l /\ uid = Some (UID (lease_meta l))).
      { apply elem_of_app in Hx as [Hx|Hx]; [by left|]. right.
        apply list_elem_of_singleton in Hx as ->. simpl in Hd. by injection Hd as <- <-. }
      assert (Hgrow : grown (fun _ _ => True) h1
        (h1 ++ [Entry (DeleteLease (lease_name l) (Some (UID (lease_meta l)))) r])).
      { eexists. split; [reflexivity|]. by intros [? ? ?]. }
      destruct Hx' as [Hx'|[-> ->]].
      - destruct (Hj1 _ _ _ Hx' Hd) as (l' & now' & He & ? & ?). exists l', now'.
        split; [eapply expired_in_grown; [exact Hgrow|exact He]|done].
      - exists l, now. split; [|done]. eapply expired_in_grown; [exact Hgrow|].
        eapply expired_in_grown; [exact Hg1|exact Hexp]. }
    split; done.
Qed.

Lemma justified_nil : justified name [].
Proof. intros x n uid Hx. by apply elem_of_nil in Hx. Qed.

Lemma justified_snoc h R (e : api R) r : justified name h -> not_delete R e -> justified name (h ++ [Entry e r]).
Proof.
  intros Hj He. eapply justified_grown; [|exact Hj]. exists [Entry e r]. split; [done|].
  intros x Hx. by apply list_elem_of_singleton in Hx as ->.
Qed.

Lemma wpi_lease_Reconcile :
  wpi recorder (justified name) (lease_Reconcile retain_message name) (fun _ _ => True) [].
Proof.
  unfold lease_Reconcile. split; [apply justified_nil|]. intros now h0 ->. cbn [app].
  assert (Hj0 : justified name [Entry Now now]) by (apply (justified_snoc []); [apply justified_nil|done]).
  split; [done|]. intros r h1 ->.
  assert (Hj1 := justified_snoc _ _ (GetLease false name) r Hj0 I).
  set (h1 := [Entry Now now] ++ _) in *.
  assert (Hquiet : forall p : prog api (result api_error Result), only not_delete p ->
    wpi recorder (justified name) p (fun _ _ => True) h1).
  { intros p Hp. eapply wpi_mono; [by apply wpi_quiet|done]. }
  destruct r as [l|e]; [|by apply Hquiet]. cbn [bind].
  destruct (IsDeleting (lease_meta l)) eqn:Hd; [by apply Hquiet|].
  destruct (Time_IsZero (OwnerDeletionTimestamp (lease_spec l))) eqn:Hz.
  { apply Hquiet. unfold tryP. apply only_bind; [apply only_lease_updateStatus|]. by intros [?|?]. }
  destruct (OwnerDeletionTimestamp (lease_spec l)) as [t|] eqn:Ht; [|done]. simpl in Hz.
  apply bool_decide_eq_false in Hz. cbn [default].
  destruct (ls_RetainWhile (lease_spec l)) as [ref|] eqn:Href.
  - split; [done|]. intros r h2 ->.
    assert (Hj2 := justified_snoc _ _ (GetRetained ref) r Hj1 I).
    set (h2 := h1 ++ _) in *.
    assert (Hquiet2 : forall p : prog api (result api_error Result), only not_delete p ->
      wpi recorder (justified name) p (fun _ _ => True) h2).
    { intros p Hp. eapply wpi_mono; [by apply wpi_quiet|done]. }
    assert (Hreap : retained_gone r -> wpi recorder (justified name)
      (reapOrWait l now (default now (RetainReleasedAt (lease_status l)))
        (Some (default now (RetainReleasedAt (lease_status l))))) (fun _ _ => True) h2).
    { intros Hg. apply wpi_reapOrWait; [done|]. intros Hle. split_and!; [set_solver|set_solver|done|].
      exists t. rewrite Href. split_and!; [done|done|]. exists r. split_and!; [set_solver|done|done]. }
    cbn [bind]. destruct r as [[]|e]; [apply Hquiet2; unfold tryP; apply only_bind;
      [apply only_lease_updateStatus|by intros [?|?]]|].
    destruct e; try (apply Hreap; unfold retained_gone; by auto);
      (apply Hquiet2, only_bind; [apply only_lease_updateStatus|by intros ?]).
  - apply wpi_reapOrWait; [done|]. intros Hle. split_and!; [set_solver|set_solver|done|].
    exists t. rewrite Href. done.
Qed.
End Reaper.

(** Claim C38: the lease reconciler asks for the deletion of a lease only when
    it has read, in the same pass, that the lease is not already being
    deleted, that its holder is gone, that the object it waits for (if it
    waits for one) does not exist, and that its grace period is over, counted
    from the holder's deletion or from the moment the object was first seen
    gone; and it names the very object it read.  This holds whatever the API
    server answers to any call, errors included. *)
Theorem lease_deletion_justified `{KubeLib} (retain_message : RetainReference -> option api_error -> string)
    (name : string) (h : list (entry api)) (x : entry api) (n : string) (uid : option string) :
  passes recorder [] (lease_Reconcile retain_message name) h ->
  x ∈ h -> deleted_by x = Some (n, uid) ->
  exists l now, expired_in name h l now /\ n = lease_name l /\ uid = Some (UID (lease_meta l)).
Proof.
  intros Hp Hx Hd. eapply wpi_passes in Hp; [|apply wpi_lease_Reconcile]. by eapply Hp.
Qed.

Definition reap_history : list (entry api) :=
  replay (live_server (4000 * Second)) (lease_Reconcile (fun _ _ => ""%string) "k") released_cluster [].

(** The lease of [released_cluster], released for an hour, 4,000 seconds on. *)
Lemma lease_deletion_justified_witness :
  exists l now, expired_in "k" reap_history l now /\ "k"%string = lease_name l /\
    Some "uid-k"%string = Some (UID (lease_meta l)).
Proof.
  apply (lease_deletion_justified (fun _ _ => ""%string) "k" reap_history
    (Entry (DeleteLease "k" (Some "uid-k"%string)) (Ok tt))).
  - apply replay_passes.
  - vm_compute. do 5 right. left.
  - reflexivity.
Defined.

(** A released lease is looked at again one second after it expires,
    and a lease with a retain reference no later than five minutes from now,
    so the return of its object is noticed; no overflow occurs for any TTL an
    [int32] can hold. *)
Theorem released_requeue_bounds (l : AllocationLease) (now expiresAt : Time) :
  now < expiresAt -> expiresAt - now <= 2 ^ 31 * Second ->
  match ls_RetainWhile (lease_spec l) with
  | None => releasedRequeueAfter l now expiresAt = expiresAt - now + Second
  | Some _ => releasedRequeueAfter l now expiresAt = Z.min (expiresAt - now + Second) (5 * Minute)
  end.
Proof.
  intros Hlt Hle. unfold releasedRequeueAfter, Time_Sub, allocationLeaseRetainResyncInterval, Minute, Second in *.
  rewrite Z.min_r, Z.max_r by lia. rewrite int64_id by lia.
  destruct (ls_RetainWhile (lease_spec l)).
  - rewrite bool_decide_eq_true_2 by (by eexists). cbn [andb]. case_match; to_prop; lia.
  - rewrite bool_decide_eq_false_2 by (by intros [? ?]). done.
Qed.

(** ** Admission *)

(** A pool that its webhook admits works in the controller: an ip
    pool has a non-empty candidate space in which every entry is a well-formed
    range of one family, and the status reconciler reports no error for it. *)
Theorem admitted_pool_usable `{KubeLib} (pool : AllocationPoolSpec) (text : candidate_error -> string) :
  validateAllocationPoolFields pool = [] ->
  validateAllocationPoolForStatus text pool = ""%string /\
  forall ip, pool_IP pool = Some ip ->
    exists cs, parsePoolCandidates ip = Ok cs /\ cs <> [] /\ Forall candidate_wf cs.
Proof.
  intros Hadm. split; [|intros ip; by apply validateAllocationPoolFields_candidates].
  pose proof (fun ip => validateAllocationPoolFields_candidates pool ip Hadm) as Hcand.
  unfold validateAllocationPoolFields in Hadm. unfold validateAllocationPoolForStatus.
  destruct (pool_Type pool); [| |done].
  - destruct (pool_Number pool) as [n|]; [|done]. apply app_eq_nil in Hadm as [Hm _].
    apply when_nil in Hm. by rewrite Hm.
  - destruct (pool_IP pool) as [ip|]; [|done]. destruct (Hcand ip eq_refl) as (cs & Hcs & _ & _).
    unfold parsePoolCandidates, res_bind in Hcs.
    apply app_eq_nil in Hadm as [Hne Hadm]. apply app_eq_nil in Hadm as [Hc Hadm].
    apply app_eq_nil in Hadm as [_ Hadm]. apply app_eq_nil in Hadm as [He _].
    apply when_nil in Hne. rewrite Hne.
    destruct (first_invalid (fun raw => is_ok (ParsePrefix raw)) (CIDRs ip)) as [raw|] eqn:Hf.
    { apply find_some in Hf as [Hin Hbad]. apply list_elem_of_In in Hin.
      destruct (concat_imap_nil _ _ _ Hc Hin) as [i Hi]. by destruct (ParsePrefix raw). }
    destruct (parsePrefixCandidates (CIDRs ip)); [|done].
    destruct (parseRangeCandidates (Ranges ip)); [|done].
    destruct (first_invalid (fun raw => is_ok (ParseAddr raw)) (Excluded ip)) as [raw|] eqn:Hf'; [|done].
    apply find_some in Hf' as [Hin Hbad]. apply list_elem_of_In in Hin.
    destruct (concat_imap_nil _ _ _ He Hin) as [i Hi]. by destruct (ParseAddr raw).
Qed.

(** Claim names are not unique per owner: two cluster-scoped owners
    whose names differ only in a dot and a dash share the name of their claim,
    and so do owners in different namespaces when a name contains two dashes. *)
Theorem allocationClaimName_collisions :
  allocationClaimName "security-group-id" "SecurityGroup" "" "a.b" "status.groupID" =
  allocationClaimName "security-group-id" "SecurityGroup" "" "a-b" "status.groupID" /\
  allocationClaimName "pool" "NetworkInterface" "ns" "x--y" "status.ip" =
  allocationClaimName "pool" "NetworkInterface" "ns--x" "y" "status.ip".
Proof. split; reflexivity. Qed.

(** A claim re-created with a different pool while the lease of its
    reuse key still exists cannot be recorded: [ensureLease] never succeeds
    for a pool other than the one on the lease, because it rewrites the pool
    reference and the lease webhook refuses that. *)
Theorem ensureLease_other_pool_fails `{KubeLib} (c : AllocationClaim) (l : AllocationLease)
    (pool : AllocationPool) (res : allocationResult) (s : cluster) :
  leases s !! leaseNameFor c = Some l -> lease_name l = leaseNameFor c ->
  leaseHeldByOtherClaim l c = false -> PoolRef (lease_spec l) <> pool_name pool ->
  wp api_effect (ensureLease c pool res) (fun r s' => r <> Ok tt) s.
Proof.
  intros Hl Hn Ht Hp. unfold ensureLease. cbn [wp bind call]. intros r s1 [-> Hr].
  destruct r as [l'|e]; simpl in Hr; [|destruct e; simpl; (done || congruence)].
  rewrite Hl in Hr. injection Hr as <-. rewrite Ht. set (desired := adoptNetworkInterfaceIdentity _ _).
  assert (Hd : PoolRef desired = pool_name pool).
  { unfold desired, adoptNetworkInterfaceIdentity. by case_match. }
  clearbody desired. rewrite bool_decide_eq_false_2 by congruence.
  apply wp_tryP. cbn [wp call]. intros [l'|e] s1 Hr; [|done].
  destruct Hr as (cur & Hcur & _ & Hv & _).
  change (lease_name (with_lease_spec l desired)) with (lease_name l) in Hcur.
  rewrite Hn, Hl in Hcur. injection Hcur as <-. apply lease_ValidateUpdate_nil in Hv as [Hv _].
  simpl in Hv. congruence.
Qed.
