(* ===== verification/Protocol.v ===== *)
(** * Protocol: IP protocols and policy capacity of the API package

    [controller/api/v1alpha1/protocol.go] and
    [controller/api/v1alpha1/policy_capacity.go]: what the webhook, the
    controller and the daemon share about policy rules. *)

From stdpp Require Import base gmap strings list pretty.
From Stdlib Require Import ZArith Lia.
From S2P Require Import Prelude.

Open Scope Z_scope.

(** ** Protocols *)

Definition IPProtocolAny : Z := 65535.
Definition IPProtocolTCP : Z := 6.
Definition IPProtocolUDP : Z := 17.
Definition ipProtocolMaxNumber : Z := 255.

Definition ipProtocolKeywords : list (string * Z) :=
  [("icmp", 1); ("tcp", IPProtocolTCP); ("udp", IPProtocolUDP); ("gre", 47); ("esp", 50);
   ("ah", 51); ("sctp", 132); ("all", IPProtocolAny)]%string.

(** [intstr.IntOrString]; the type tag may also hold another value. *)
Inductive IntOrString := IntVal (i : Z) | StrVal (s : string) | OtherVal (tag : Z).

#[global] Instance IntOrString_eq_dec : EqDecision IntOrString.
Proof. solve_decision. Defined.

(** The lookup tables built from the keyword list: later entries overwrite
    earlier ones. *)
Definition buildIPProtocolByKeyword : gmap string Z :=
  fold_left (fun m kv => <[kv.1 := kv.2]> m) ipProtocolKeywords ∅.
Definition buildIPProtocolNames : gmap Z string :=
  fold_left (fun m kv => <[kv.2 := kv.1]> m) ipProtocolKeywords ∅.

Inductive protocol_error := ProtocolNotSet | ProtocolOutOfRange (n : Z) | ProtocolUnknown (s : string)
                          | ProtocolBadType (tag : Z).

Definition ResolveIPProtocol (p : option IntOrString) : result protocol_error Z :=
  match p with
  | None => Err ProtocolNotSet
  | Some (IntVal n) =>
      if (n <? 0) || (ipProtocolMaxNumber <? n) then Err (ProtocolOutOfRange n) else Ok (u16 n)
  | Some (StrVal s) =>
      match buildIPProtocolByKeyword !! s with
      | Some proto => Ok proto
      | None => Err (ProtocolUnknown s)
      end
  | Some (OtherVal tag) => Err (ProtocolBadType tag)
  end.

Definition IPProtocolHasPorts (proto : Z) : bool :=
  (proto =? IPProtocolTCP) || (proto =? IPProtocolUDP).

Definition FormatIPProtocol (proto : Z) : string :=
  match buildIPProtocolNames !! proto with
  | Some name => name
  | None => pretty proto
  end.

(** Reading back what [FormatIPProtocol] printed: a keyword stays a keyword,
    anything else is a decimal number. *)
Definition protocol_of_format (proto : Z) : IntOrString :=
  match buildIPProtocolNames !! proto with
  | Some name => StrVal name
  | None => IntVal proto
  end.

(** ** Capacity *)

Definition NetworkACLMaxEntriesPerDirection : nat := 16.
Definition SecurityGroupMaxEntriesPerDirection : nat := 8.

Definition atLeastOne (n : nat) : nat := if (n <? 1)%nat then 1%nat else n.

Definition sumEntryCount {Rule} (rules : list Rule) (entryCount : Rule -> nat) : nat :=
  fold_left (fun total r => (total + entryCount r)%nat) rules 0%nat.

Definition securityGroupRuleEntryCount (peers ports : nat) : nat :=
  (atLeastOne peers * atLeastOne ports)%nat.

(** ** Lemmas *)

Lemma ResolveIPProtocol_range p n :
  ResolveIPProtocol p = Ok n -> 0 <= n <= 255 \/ n = IPProtocolAny.
Proof.
  unfold ResolveIPProtocol. intros Hr. destruct p as [[i|s|]|]; [| |done..].
  - case_match eqn:Hb; [done|]. injection Hr as <-. to_prop. unfold ipProtocolMaxNumber in *.
    rewrite wrapU_id by (unfold fitsU; lia). lia.
  - destruct (buildIPProtocolByKeyword !! s) as [q|] eqn:Hs; [|done]. injection Hr as ->.
    change buildIPProtocolByKeyword with
      (<["all" := 65535]> (<["sctp" := 132]> (<["ah" := 51]> (<["esp" := 50]> (<["gre" := 47]>
       (<["udp" := 17]> (<["tcp" := 6]> (<["icmp" := 1]> (∅ : gmap string Z)))))))))%string in Hs.
    unfold IPProtocolAny.
    repeat (apply lookup_insert_Some in Hs; destruct Hs as [[_ Hq]|[_ Hs]]; [cbn in Hq; lia|]).
    by rewrite lookup_empty in Hs.
Qed.

Lemma sumEntryCount_sum {Rule} (rules : list Rule) f :
  sumEntryCount rules f = sum_list (f <$> rules).
Proof.
  unfold sumEntryCount.
  enough (Hg : forall t, fold_left (fun total r => (total + f r)%nat) rules t = (t + sum_list (f <$> rules))%nat)
    by apply Hg.
  induction rules as [|r rules IH]; intros t; [simpl; lia|].
  rewrite fmap_cons. cbn [fold_left]. rewrite IH. cbn. lia.
Qed.

Lemma atLeastOne_spec n : atLeastOne n = Nat.max 1 n.
Proof. unfold atLeastOne. destruct (Nat.ltb_spec n 1); lia. Qed.
