(* ===== verification/PolicyRules.v ===== *)
(** * PolicyRules: from SecurityGroup and NetworkACL specs to data plane rules

    [daemon/internal/daemon/dataplane/policy/rule.go], [expand.go] and
    [capacity.go]; the structural checks of
    [controller/internal/webhook/v1alpha1/networkacl_webhook.go] and
    [securitygroup_webhook.go] on rules. *)

From stdpp Require Import base gmap strings list pretty sorting.
From Stdlib Require Import ZArith Lia.
From S2P Require Import Prelude Netip NetipFacts AddressRange Kube Protocol.

Open Scope Z_scope.

(** ** API types *)

Record PortRangeSpec := MkPortRange { pr_From : Z; pr_To : Z }.

(** [SecurityGroupPort] and [NetworkACLPort] have the same two fields. *)
Record PolicyPort := MkPort { Port : option Z; PortRange : option PortRangeSpec }.

Record SecurityGroupPeer := MkPeer { peer_CIDR : string; SecurityGroupRef : option string }.

(** [SecurityGroupIngressRule] and [SecurityGroupEgressRule]: [sg_Peers] is
    [From] or [To]. *)
Record SecurityGroupRule := MkSGRule {
  sg_Peers : list SecurityGroupPeer; sg_Protocol : option IntOrString; sg_Ports : list PolicyPort }.

Record SecurityGroup := MkSG {
  sg_Name : string; sg_Vpc : string;
  sg_Ingress : list SecurityGroupRule; sg_Egress : option (list SecurityGroupRule);
  sg_GroupID : Z; sg_RulesetVersion : Z; sg_Deletion : option Time }.

Inductive NetworkACLAction := ActionAllow | ActionDeny | ActionEmpty | ActionOther (s : string).

Record NetworkACLRule := MkACLRule {
  acl_Priority : Z; acl_Action : NetworkACLAction; acl_Protocol : option IntOrString;
  acl_CIDR : string; acl_Ports : list PolicyPort }.

Record NetworkACL := MkACL {
  acl_Name : string; acl_Vpc : string;
  acl_Ingress : option (list NetworkACLRule); acl_Egress : option (list NetworkACLRule);
  acl_ID : Z; acl_RulesetVersion : Z; acl_Deletion : option Time }.

(** ** [policy_capacity.go] on these types *)

Definition NetworkACLRuleEntryCount (rule : NetworkACLRule) : nat := atLeastOne (length (acl_Ports rule)).
Definition NetworkACLDirectionEntryCount (rules : list NetworkACLRule) : nat :=
  sumEntryCount rules NetworkACLRuleEntryCount.
(** [SecurityGroupIngressRuleEntryCount] and [SecurityGroupEgressRuleEntryCount]. *)
Definition SecurityGroupRuleEntryCount (rule : SecurityGroupRule) : nat :=
  securityGroupRuleEntryCount (length (sg_Peers rule)) (length (sg_Ports rule)).
Definition SecurityGroupEntryCount (rules : list SecurityGroupRule) : nat :=
  sumEntryCount rules SecurityGroupRuleEntryCount.

(** ** [rule.go] *)

Inductive Direction := DirIngress | DirEgress.
Inductive PeerKind := PeerKindCIDR | PeerKindSG.
Inductive Verdict := VerdictDeny | VerdictAllow.

Definition PortAnyLo : Z := 0.
Definition PortAnyHi : Z := 65535.

Record Rule := MkRule {
  r_Direction : Direction; Proto : Z; PortLo : Z; PortHi : Z; r_PeerKind : PeerKind;
  PeerV4 : Z; PeerPrefixlen : Z; r_Verdict : Verdict; Priority : Z }.

Record RuleSet := MkRuleSet {
  GroupID : Z; Ingress : list Rule; Egress : list Rule;
  HasIngressRules : bool; HasEgressRules : bool; RulesetVersion : Z }.

#[global] Instance Direction_eq_dec : EqDecision Direction.
Proof. solve_decision. Defined.
#[global] Instance PeerKind_eq_dec : EqDecision PeerKind.
Proof. solve_decision. Defined.
#[global] Instance Verdict_eq_dec : EqDecision Verdict.
Proof. solve_decision. Defined.
#[global] Instance Rule_eq_dec : EqDecision Rule.
Proof. solve_decision. Defined.
#[global] Instance RuleSet_eq_dec : EqDecision RuleSet.
Proof. solve_decision. Defined.

Record ruleWindow := MkWindow { w_Direction : Direction; Base : Z; Rules : list Rule }.

Definition windows (rs : RuleSet) (perDirection : nat) : list ruleWindow :=
  [MkWindow DirIngress 0 (Ingress rs); MkWindow DirEgress (u32 (Z.of_nat perDirection)) (Egress rs)].

(** ** [expand.go] *)

Definition MapPeerResolver := gmap string Z.

Definition ResolveSG (m : MapPeerResolver) (name : string) : option Z :=
  match m !! name with
  | Some gid => if gid =? 0 then None else Some gid
  | None => None
  end.

(** A rule with the zero values of its fields, and a peer. *)
Definition peerRule (kind : PeerKind) (v4 prefixlen : Z) : Rule :=
  MkRule DirIngress 0 0 0 kind v4 prefixlen VerdictDeny 0.

(** [binary.LittleEndian.Uint32(prefix.Masked().Addr().As4())]. *)
Definition encodeBase (p : Prefix) : Z := le_combine (As4 (addr_val (pfx_addr (Masked p)))).

Definition buildPeer (peer : SecurityGroupPeer) (resolver : MapPeerResolver) : option Rule :=
  if negb (String.eqb (peer_CIDR peer) "") then
    match ParsePrefix (peer_CIDR peer) with
    | Err _ => None
    | Ok prefix => if Is4 (pfx_addr prefix)
                   then Some (peerRule PeerKindCIDR (encodeBase prefix) (u8 (pfx_bits prefix)))
                   else None
    end
  else
    match SecurityGroupRef peer with
    | Some name => match ResolveSG resolver name with
                   | Some gid => Some (peerRule PeerKindSG gid 0)
                   | None => None
                   end
    | None => None
    end.

Definition portsToRanges (ports : list PolicyPort) : list (Z * Z) :=
  match ports with
  | [] => [(PortAnyLo, PortAnyHi)]
  | _ => omap (fun p => match Port p, PortRange p with
                        | Some n, _ => Some (u16 n, u16 n)
                        | None, Some r => Some (u16 (pr_From r), u16 (pr_To r))
                        | None, None => None
                        end) ports
  end.

(** The same function on [NetworkACLPort]. *)
Definition networkACLPortsToRanges (ports : list PolicyPort) : list (Z * Z) := portsToRanges ports.

Inductive expand_error :=
| NoGroupID (name : string)
| BadProtocol (e : protocol_error)
| ACLBadCIDR (priority : Z) (cidr : string)
| ACLNotIPv4 (priority : Z) (cidr : string)
| ACLBadProtocol (priority : Z) (e : protocol_error).

Definition expandRule (dir : Direction) (rule : SecurityGroupRule) (resolver : MapPeerResolver)
  : result expand_error (list Rule) :=
  match ResolveIPProtocol (sg_Protocol rule) with
  | Err e => Err (BadProtocol e)
  | Ok proto =>
      Ok (flat_map (fun peer =>
            match buildPeer peer resolver with
            | None => []
            | Some base => map (fun pr => MkRule dir proto pr.1 pr.2 (r_PeerKind base) (PeerV4 base)
                                            (PeerPrefixlen base) VerdictAllow (Priority base))
                               (portsToRanges (sg_Ports rule))
            end) (sg_Peers rule))
  end.

Definition expandAll {R} (expand : R -> result expand_error (list Rule)) (rules : list R)
  : result expand_error (list Rule) :=
  res_map (@concat Rule) (res_traverse expand rules).

Definition ExpandSecurityGroup (sg : SecurityGroup) (peers : MapPeerResolver)
  : result expand_error RuleSet :=
  if sg_GroupID sg =? 0 then Err (NoGroupID (sg_Name sg)) else
  res_bind (expandAll (fun r => expandRule DirIngress r peers) (sg_Ingress sg)) (fun ingress =>
  res_bind (expandAll (fun r => expandRule DirEgress r peers) (default [] (sg_Egress sg))) (fun egress =>
  Ok (MkRuleSet (sg_GroupID sg) ingress egress false (bool_decide (is_Some (sg_Egress sg)))
        (sg_RulesetVersion sg)))).

Definition networkACLActionToVerdict (a : NetworkACLAction) : Verdict :=
  match a with ActionDeny => VerdictDeny | _ => VerdictAllow end.

Definition expandACLRule (dir : Direction) (rule : NetworkACLRule) : result expand_error (list Rule) :=
  match ParsePrefix (acl_CIDR rule) with
  | Err _ => Err (ACLBadCIDR (acl_Priority rule) (acl_CIDR rule))
  | Ok prefix =>
      if negb (Is4 (pfx_addr prefix)) then Err (ACLNotIPv4 (acl_Priority rule) (acl_CIDR rule)) else
      match ResolveIPProtocol (acl_Protocol rule) with
      | Err e => Err (ACLBadProtocol (acl_Priority rule) e)
      | Ok proto =>
          Ok (map (fun pr => MkRule dir proto pr.1 pr.2 PeerKindCIDR (encodeBase prefix)
                               (u8 (pfx_bits prefix)) (networkACLActionToVerdict (acl_Action rule))
                               (u16 (acl_Priority rule)))
                  (networkACLPortsToRanges (acl_Ports rule)))
      end
  end.

(** [slices.SortStableFunc] by [Priority]: a stable sort. *)
Fixpoint insertByPriority (r : Rule) (l : list Rule) : list Rule :=
  match l with
  | [] => [r]
  | r' :: l' => if Priority r <=? Priority r' then r :: l else r' :: insertByPriority r l'
  end.

Definition sortByPriority (rules : list Rule) : list Rule := foldr insertByPriority [] rules.

Definition ExpandNetworkACL (acl : NetworkACL) : result expand_error RuleSet :=
  if acl_ID acl =? 0 then Err (NoGroupID (acl_Name acl)) else
  res_bind (expandAll (expandACLRule DirIngress) (default [] (acl_Ingress acl))) (fun ingress =>
  res_bind (expandAll (expandACLRule DirEgress) (default [] (acl_Egress acl))) (fun egress =>
  Ok (MkRuleSet (acl_ID acl) (sortByPriority ingress) (sortByPriority egress)
        (bool_decide (is_Some (acl_Ingress acl))) (bool_decide (is_Some (acl_Egress acl)))
        (acl_RulesetVersion acl)))).

(** ** [capacity.go] *)

Record CapacityError := MkCapacity {
  Layer : string; ce_ID : Z; ce_Direction : Direction; Entries : nat; Limit : nat }.

(** An error tree: [errors.Join] and wrapping. *)
Inductive go_error :=
| ECapacity (e : CapacityError)
| EJoined (es : list go_error)
| EWrapped (e : go_error)
| EPlain (text : string).

(** [CapacityErrorsFrom]; a [nil] error is [None]. *)
Fixpoint collectCapacityErrors (err : go_error) : list CapacityError :=
  match err with
  | ECapacity e => [e]
  | EJoined es => concat (map collectCapacityErrors es)
  | EWrapped e => collectCapacityErrors e
  | EPlain _ => []
  end.

Definition CapacityErrorsFrom (err : option go_error) : list CapacityError :=
  match err with Some e => collectCapacityErrors e | None => [] end.

(** [errors.Join]: no error when there is nothing to join. *)
Definition Join (errs : list go_error) : option go_error :=
  match errs with [] => None | _ => Some (EJoined errs) end.

Definition fitRuleSet (layer : string) (rs : RuleSet) (perDirection : nat) : RuleSet * option go_error :=
  let over_in := (perDirection <? length (Ingress rs))%nat in
  let over_eg := (perDirection <? length (Egress rs))%nat in
  (MkRuleSet (GroupID rs)
     (if over_in then [] else Ingress rs) (if over_eg then [] else Egress rs)
     (if over_in then true else HasIngressRules rs) (if over_eg then true else HasEgressRules rs)
     (RulesetVersion rs),
   Join ((if over_in then [ECapacity (MkCapacity layer (GroupID rs) DirIngress (length (Ingress rs)) perDirection)] else []) ++
         (if over_eg then [ECapacity (MkCapacity layer (GroupID rs) DirEgress (length (Egress rs)) perDirection)] else []))).

(** ** The webhooks on rules *)

Definition child (path name : string) : string := (path ++ "." ++ name)%string.
Definition at_index (path : string) (i : nat) : string := (path ++ "[" ++ pretty i ++ "]")%string.

Definition validatePort (path : string) (port : PolicyPort) : list field_error :=
  match Port port, PortRange port with
  | Some _, Some _ | None, None => [FieldInvalid path "exactly one of port or portRange must be set"]
  | None, Some r => when (pr_To r <? pr_From r) (FieldInvalid (child path "portRange.to") "must be >= portRange.from")
  | Some _, None => []
  end.

Definition validateProtocolPorts (path : string) (protocol : option IntOrString) (ports : list PolicyPort)
  : list field_error :=
  match ResolveIPProtocol protocol with
  | Err _ => [FieldInvalid (child path "protocol") "does not resolve"]
  | Ok proto => when (negb (Nat.eqb (length ports) 0) && negb (IPProtocolHasPorts proto))
                  (FieldInvalid (child path "ports") "ports are only valid when protocol is tcp or udp")
  end ++
  concat (imap (fun i port => validatePort (at_index (child path "ports") i) port) ports).

(** The same function on [NetworkACLPort]. *)
Definition validateNetworkACLProtocolPorts (path : string) (protocol : option IntOrString) (ports : list PolicyPort)
  : list field_error := validateProtocolPorts path protocol ports.

Definition validateCIDR4 (path cidr : string) : list field_error :=
  match ParsePrefix cidr with
  | Err _ => [FieldInvalid path "invalid CIDR"]
  | Ok prefix => when (negb (Is4 (pfx_addr prefix))) (FieldInvalid path "only IPv4 CIDRs are supported")
  end.

Definition validateNetworkACLRule (path : string) (rule : NetworkACLRule) : list field_error :=
  match acl_Action rule with
  | ActionAllow | ActionDeny => []
  | ActionEmpty => [FieldRequired (child path "action")]
  | ActionOther _ => [FieldInvalid (child path "action") "not supported"]
  end ++
  (if String.eqb (acl_CIDR rule) "" then [FieldRequired (child path "cidr")]
   else validateCIDR4 (child path "cidr") (acl_CIDR rule)) ++
  validateNetworkACLProtocolPorts path (acl_Protocol rule) (acl_Ports rule).

(** The loop of [validateNetworkACLDirection]; [seen] are the priorities so
    far. *)
Fixpoint validateACLRules (path : string) (i : nat) (seen : list Z) (rules : list NetworkACLRule)
  : list field_error :=
  match rules with
  | [] => []
  | rule :: rest =>
      validateNetworkACLRule (at_index path i) rule ++
      (if bool_decide (acl_Priority rule ∈ seen)
       then FieldInvalid (child (at_index path i) "priority") "duplicates the priority of an earlier rule" ::
            validateACLRules path (S i) seen rest
       else validateACLRules path (S i) (acl_Priority rule :: seen) rest)
  end.

Definition validateNetworkACLDirectionCapacity (path : string) (rules : list NetworkACLRule) : list field_error :=
  when (NetworkACLMaxEntriesPerDirection <? NetworkACLDirectionEntryCount rules)%nat
    (FieldInvalid path "too many entries").

Definition validateNetworkACLDirection (path : string) (rules : list NetworkACLRule) : list field_error :=
  validateACLRules path 0 [] rules ++ validateNetworkACLDirectionCapacity path rules.

(** [shouldCheckReferences], from the deletion timestamp of the object. *)
Definition shouldCheckReferences (deletion : option Time) : bool := Time_IsZero deletion.

(** The specs that may refer to a policy object, by their names and refs. *)
Record Referrer := MkReferrer { ref_Name : string; ref_To : list string }.

Definition referrer (name : string) (l : list Referrer) : option Referrer :=
  List.find (fun r => existsb (String.eqb name) (ref_To r)) l.

Section PolicyWebhooks.
Context `{KubeLib}.
(** The reader of the webhook server, at the time of the admission. *)
Variable get_vpc : string -> result api_error unit.
Variable get_sg : string -> result api_error SecurityGroup.

(** The checks on [spec.vpc] that both validators start with. *)
Definition validateVpc (vpc : string) (old : option string) (checkReferences : bool)
  : result api_error (list field_error) :=
  res_map (fun errs => errs ++
    match old with
    | Some old_vpc => when (negb (String.eqb vpc old_vpc)) (FieldInvalid "spec.vpc" "vpc is immutable")
    | None => []
    end)
  (if negb (bool_decide (IsDNS1123Subdomain vpc = []))
    then Ok [FieldInvalid "spec.vpc" "must be a valid DNS subdomain"]
    else if checkReferences then
    match get_vpc vpc with
    | Ok _ => Ok []
    | Err NotFound => Ok [FieldInvalid "spec.vpc" "referenced Vpc does not exist"]
    | Err e => Err e
    end
    else Ok []).

(** [NetworkACLCustomValidator.validate]: refused with field errors unless
    the list is empty. *)
Definition acl_validate (acl : NetworkACL) (old : option NetworkACL) : result api_error (list field_error) :=
  res_map (fun errs => errs ++
    match acl_Ingress acl with Some rules => validateNetworkACLDirection "spec.ingress" rules | None => [] end ++
    match acl_Egress acl with Some rules => validateNetworkACLDirection "spec.egress" rules | None => [] end)
  (validateVpc (acl_Vpc acl) (option_map acl_Vpc old) (shouldCheckReferences (acl_Deletion acl))).

(** [NetworkACLCustomValidator.ValidateDelete], on the answers of its two
    [List] calls: the object it is refused for, if any. *)
Definition acl_ValidateDelete (name : string) (subnets l2Networks : result api_error (list Referrer))
  : result api_error (option Referrer) :=
  res_bind subnets (fun subnets =>
    match referrer name subnets with
    | Some r => Ok (Some r)
    | None => res_map (referrer name) l2Networks
    end).

(** [SecurityGroupCustomValidator.ValidateDelete]. *)
Definition sg_ValidateDelete (name : string) (ifaces : result api_error (list Referrer))
  : result api_error (option Referrer) := res_map (referrer name) ifaces.

Definition validatePeer (path : string) (peer : SecurityGroupPeer) : list field_error :=
  match negb (String.eqb (peer_CIDR peer) ""), SecurityGroupRef peer with
  | true, Some _ | false, None => [FieldInvalid path "exactly one of cidr or securityGroupRef must be set"]
  | true, None => validateCIDR4 (child path "cidr") (peer_CIDR peer)
  | false, Some name =>
      when (negb (bool_decide (IsDNS1123Subdomain name = [])))
      (FieldInvalid (child path "securityGroupRef.name") "must be a valid DNS subdomain")
  end.

(** [validateIngressRule] and [validateEgressRule] on the field [from] or
    [to]. *)
Definition validateSGRule (path field : string) (rule : SecurityGroupRule) : list field_error :=
  when (Nat.eqb (length (sg_Peers rule)) 0) (FieldRequired (child path field)) ++
  concat (imap (fun i peer => validatePeer (at_index (child path field) i) peer) (sg_Peers rule)) ++
  validateProtocolPorts path (sg_Protocol rule) (sg_Ports rule).

Definition validateIngressRule (path : string) (rule : SecurityGroupRule) := validateSGRule path "from" rule.
Definition validateEgressRule (path : string) (rule : SecurityGroupRule) := validateSGRule path "to" rule.

Definition validatePeerSGsInVpc (path : string) (peers : list SecurityGroupPeer) (vpc selfName : string)
  : list field_error :=
  concat (imap (fun i peer =>
    match SecurityGroupRef peer with
    | None => []
    | Some name =>
        if String.eqb name selfName then [] else
        match get_sg name with
        | Err NotFound => [FieldInvalid (child (at_index path i) "securityGroupRef.name")
          "referenced SecurityGroup does not exist"]
        | Err _ => [FieldInternal (child (at_index path i) "securityGroupRef")]
        | Ok ref => when (negb (String.eqb (sg_Vpc ref) vpc))
            (FieldInvalid (child (at_index path i) "securityGroupRef.name")
              "peer SecurityGroup belongs to another Vpc")
        end
    end) peers).

Definition validateSecurityGroupDirectionCapacity (path : string) (entries : nat) : list field_error :=
  when (SecurityGroupMaxEntriesPerDirection <? entries)%nat (FieldInvalid path "too many entries").

(** The rules of one direction in [SecurityGroupCustomValidator.validate]. *)
Definition validateSGDirection (path field : string) (validateRule : string -> SecurityGroupRule -> list field_error)
  (checkReferences : bool) (vpc selfName : string) (rules : list SecurityGroupRule) : list field_error :=
  concat (imap (fun i rule =>
    validateRule (at_index path i) rule ++
    (if checkReferences
      then validatePeerSGsInVpc (child (at_index path i) field) (sg_Peers rule) vpc selfName else [])) rules) ++
  validateSecurityGroupDirectionCapacity path (SecurityGroupEntryCount rules).

Definition sg_validate (sg : SecurityGroup) (old : option SecurityGroup) : result api_error (list field_error) :=
  let checkReferences := shouldCheckReferences (sg_Deletion sg) in
  res_map (fun errs => errs ++
    validateSGDirection "spec.ingress" "from" validateIngressRule checkReferences (sg_Vpc sg) (sg_Name sg) (sg_Ingress sg) ++
    match sg_Egress sg with
    | Some rules => validateSGDirection "spec.egress" "to" validateEgressRule checkReferences (sg_Vpc sg) (sg_Name sg) rules
    | None => []
    end)
  (validateVpc (sg_Vpc sg) (option_map sg_Vpc old) checkReferences).
End PolicyWebhooks.
