(* ===== verification/PolicyEval.v ===== *)
(** * PolicyEval: what the installed rules do to a packet

    The evaluators of the data plane, which give the rules their meaning:
    [daemon/bpf/policy_match.h], [acl_evaluate] of [daemon/bpf/acl.h] and
    [sg_eval] of [daemon/bpf/sg.h].  Values in network byte order are the
    numbers a little-endian host reads from those bytes. *)

From stdpp Require Import base gmap strings list pretty sorting.
From Stdlib Require Import ZArith Lia.
From S2P Require Import Prelude Netip NetipFacts AddressRange Kube Protocol PolicyRules.

Open Scope Z_scope.

(** ** Matching *)

(** [bpf_htonl] on a little-endian host, and the encoding of [convert]. *)
Definition htonl (v : Z) : Z := le_combine (As4 v).

Definition policy_proto_matches (rule_proto pkt_proto : Z) : bool :=
  if rule_proto =? 65535 then true else rule_proto =? pkt_proto.

Definition policy_port_matches (lo hi port : Z) : bool :=
  if (lo =? 0) && (hi =? 65535) then true else (lo <=? port) && (port <=? hi).

Definition policy_cidr_matches (base_be prefixlen addr_be : Z) : bool :=
  if prefixlen =? 0 then true else
  if 32 <? prefixlen then false else
  let mask := htonl (u32 (Z.shiftl 4294967295 (32 - prefixlen))) in
  Z.land base_be mask =? Z.land addr_be mask.

(** ** The values in the maps *)

(** [bpf.PodEgressAclRule] and [bpf.PodEgressAclMetaVal]. *)
Record AclRule := MkAclRule {
  ar_direction : Z; ar_proto : Z; ar_port_lo : Z; ar_port_hi : Z; ar_prefixlen : Z;
  ar_verdict : Z; ar_priority : Z; ar_peer_v4 : Z }.

Record AclMeta := MkAclMeta {
  am_ingress_count : Z; am_egress_count : Z; am_has_ingress : Z; am_has_egress : Z; am_version : Z }.

(** [bpf.PodEgressSgRule] and [bpf.PodEgressSgMetaVal]. *)
Record SgRule := MkSgRule {
  sr_direction : Z; sr_proto : Z; sr_port_lo : Z; sr_port_hi : Z; sr_peer_kind : Z;
  sr_prefixlen : Z; sr_peer_v4 : Z; sr_verdict : Z }.

Record SgMeta := MkSgMeta {
  sm_ingress_count : Z; sm_egress_count : Z; sm_has_egress : Z; sm_version : Z }.

(** Slots of an array map that were never written read as zeros. *)
Definition zeroAclRule : AclRule := MkAclRule 0 0 0 0 0 0 0 0.
Definition zeroSgRule : SgRule := MkSgRule 0 0 0 0 0 0 0 0.

Definition array_slot {A} (zero : A) (size : Z) (inner : gmap Z A) (idx : Z) : option A :=
  if (0 <=? idx) && (idx <? size) then Some (default zero (inner !! idx)) else None.

(** ** [acl_evaluate] *)

Inductive PolicyVerdict := PDeny | PAllow | PPass.

#[global] Instance PolicyVerdict_eq_dec : EqDecision PolicyVerdict.
Proof. solve_decision. Defined.

Definition MAX_ACL_RULES_PER_DIR : Z := 16.
Definition MAX_SG_RULES_PER_DIR : Z := 8.

Definition dirIs (d : Direction) : bool := match d with DirIngress => true | DirEgress => false end.

Definition acl_rule_matches (r : AclRule) (proto dport peer_ip : Z) : bool :=
  policy_proto_matches (ar_proto r) proto &&
  policy_port_matches (ar_port_lo r) (ar_port_hi r) dport &&
  policy_cidr_matches (ar_peer_v4 r) (ar_prefixlen r) peer_ip.

(** The loop, from slot [idx] with [n] slots to go. *)
Fixpoint acl_scan (inner : gmap Z AclRule) (n : nat) (idx proto dport peer_ip : Z) : PolicyVerdict :=
  match n with
  | O => PDeny
  | S n' =>
      match array_slot zeroAclRule (2 * MAX_ACL_RULES_PER_DIR) inner idx with
      | None => PDeny
      | Some r =>
          if acl_rule_matches r proto dport peer_ip
          then (if ar_verdict r =? 1 then PAllow else PDeny)
          else acl_scan inner n' (idx + 1) proto dport peer_ip
      end
  end.

Definition acl_evaluate (meta : gmap Z AclMeta) (table : gmap Z (gmap Z AclRule)) (acl_id : Z)
    (dir : Direction) (proto dport peer_ip : Z) : PolicyVerdict :=
  if acl_id =? 0 then PPass else
  match meta !! acl_id with
  | None => PPass
  | Some m =>
      let has_rules := if dirIs dir then am_has_ingress m else am_has_egress m in
      if has_rules =? 0 then PPass else
      match table !! acl_id with
      | None => PDeny
      | Some inner =>
          let base := if dirIs dir then 0 else MAX_ACL_RULES_PER_DIR in
          let count := if dirIs dir then am_ingress_count m else am_egress_count m in
          acl_scan inner (Z.to_nat (Z.min count MAX_ACL_RULES_PER_DIR)) base proto dport peer_ip
      end
  end.

(** ** [sg_eval] *)

Definition MAX_SGS_PER_NIC : nat := 2.

(** [sg_membership_val]: the groups in the entry, bounded by its count. *)
Record SgMembership := MkMembership { mb_count : Z; mb_sgs : list Z }.

Definition members (m : SgMembership) : list Z :=
  take (Z.to_nat (Z.min (mb_count m) (Z.of_nat MAX_SGS_PER_NIC))) (mb_sgs m).

Definition sg_peer_sg_set_contains (peer : option SgMembership) (id : Z) : bool :=
  match peer with Some m => existsb (Z.eqb id) (members m) | None => false end.

Definition sg_peer_matches (r : SgRule) (peer_ip : Z) (peer : option SgMembership) : bool :=
  if sr_peer_kind r =? 0 then policy_cidr_matches (sr_peer_v4 r) (sr_prefixlen r) peer_ip
  else if sr_peer_kind r =? 1 then sg_peer_sg_set_contains peer (sr_peer_v4 r)
  else false.

Definition sg_rule_matches (r : SgRule) (proto dport peer_ip : Z) (peer : option SgMembership) : bool :=
  policy_proto_matches (sr_proto r) proto && policy_port_matches (sr_port_lo r) (sr_port_hi r) dport &&
  sg_peer_matches r peer_ip peer.

Fixpoint sg_scan (inner : gmap Z SgRule) (n : nat) (idx proto dport peer_ip : Z)
    (peer : option SgMembership) : bool :=
  match n with
  | O => false
  | S n' =>
      match array_slot zeroSgRule (2 * MAX_SG_RULES_PER_DIR) inner idx with
      | None => false
      | Some r =>
          if sg_rule_matches r proto dport peer_ip peer && (sr_verdict r =? 1) then true
          else sg_scan inner n' (idx + 1) proto dport peer_ip peer
      end
  end.

Definition sg_eval_one_sg (table : gmap Z (gmap Z SgRule)) (sg_id base count proto dport peer_ip : Z)
    (peer : option SgMembership) : bool :=
  match table !! sg_id with
  | None => false
  | Some inner => sg_scan inner (Z.to_nat (Z.min count MAX_SG_RULES_PER_DIR)) base proto dport peer_ip peer
  end.

(** The loop over the groups of the interface; [any_rules] is carried. *)
Fixpoint sg_loop (meta : gmap Z SgMeta) (table : gmap Z (gmap Z SgRule)) (dir : Direction) (ids : list Z)
    (any_rules : bool) (proto dport peer_ip : Z) (peer : option SgMembership) : PolicyVerdict :=
  match ids with
  | [] => if any_rules then PDeny else if dirIs dir then PDeny else PPass
  | id :: ids' =>
      match meta !! id with
      | None => sg_loop meta table dir ids' any_rules proto dport peer_ip peer
      | Some m =>
          let count := if dirIs dir then sm_ingress_count m else sm_egress_count m in
          let declared := if dirIs dir then 0 <? sm_ingress_count m else negb (sm_has_egress m =? 0) in
          let base := if dirIs dir then 0 else MAX_SG_RULES_PER_DIR in
          if negb declared then sg_loop meta table dir ids' any_rules proto dport peer_ip peer else
          if count =? 0 then sg_loop meta table dir ids' true proto dport peer_ip peer else
          if sg_eval_one_sg table id base count proto dport peer_ip peer then PAllow
          else sg_loop meta table dir ids' true proto dport peer_ip peer
      end
  end.

Definition sg_eval (meta : gmap Z SgMeta) (table : gmap Z (gmap Z SgRule)) (dir : Direction)
    (self : option SgMembership) (proto dport peer_ip : Z) (peer : option SgMembership) : PolicyVerdict :=
  match self with
  | None => PPass
  | Some m => if mb_count m =? 0 then PPass
              else sg_loop meta table dir (members m) false proto dport peer_ip peer
  end.

(** ** CIDR matching is prefix membership *)

Lemma testbit_concat a x i :
  0 <= a < 256 -> 0 <= i ->
  Z.testbit (a + 256 * x) i = if decide (i < 8) then Z.testbit a i else Z.testbit x (i - 8).
Proof.
  intros Ha Hi. change 256 with (2 ^ 8) in *. case_decide as Hlt.
  - rewrite <- (Z.mod_pow2_bits_low (a + 2 ^ 8 * x) 8 i) by lia.
    rewrite Z.mul_comm, Z.mod_add, Z.mod_small by lia. done.
  - replace i with ((i - 8) + 8) at 1 by lia. rewrite <- Z.div_pow2_bits by lia.
    rewrite Z.mul_comm, Z.div_add, Z.div_small, Z.add_0_l by lia. done.
Qed.

Lemma land_concat a b x y :
  0 <= a < 256 -> 0 <= b < 256 -> Z.land (a + 256 * x) (b + 256 * y) = Z.land a b + 256 * Z.land x y.
Proof.
  intros Ha Hb. apply Z.bits_inj'. intros i Hi.
  assert (Hab : 0 <= Z.land a b < 256).
  { split; [apply Z.land_nonneg; lia|].
    destruct (Z.eq_dec (Z.land a b) 0) as [->|Hne]; [lia|].
    apply Z.le_lt_trans with a; [|lia]. apply Z.ldiff_le; [lia|].
    rewrite Z.ldiff_land, <- Z.land_assoc. apply Z.bits_inj'. intros j Hj.
    rewrite !Z.land_spec, Z.lnot_spec, Z.bits_0 by lia. destruct (Z.testbit a j), (Z.testbit b j); done. }
  rewrite Z.land_spec, !testbit_concat by lia. case_decide; by rewrite Z.land_spec.
Qed.

Lemma byte_land x y k :
  0 <= k -> Z.land (Z.shiftr x k mod 256) (Z.shiftr y k mod 256) = Z.shiftr (Z.land x y) k mod 256.
Proof.
  intros Hk. change 256 with (2 ^ 8). rewrite <- !Z.land_ones by lia. rewrite Z.shiftr_land.
  apply Z.bits_inj'. intros i Hi. rewrite !Z.land_spec.
  destruct (Z.testbit (Z.shiftr x k) i), (Z.testbit (Z.shiftr y k) i), (Z.testbit (Z.ones 8) i); done.
Qed.

Lemma htonl_bytes v :
  htonl v = Z.shiftr v 24 mod 256 + 256 * (Z.shiftr v 16 mod 256 + 256 * (Z.shiftr v 8 mod 256 +
            256 * (Z.shiftr v 0 mod 256))).
Proof.
  unfold htonl, le_combine, As4, be_combine. rewrite Z.shiftr_0_r.
  cbn [reverse rev_append fold_left]. unfold reverse. cbn [rev_append fold_left]. lia.
Qed.

Lemma htonl_land x y : htonl (Z.land x y) = Z.land (htonl x) (htonl y).
Proof.
  rewrite !htonl_bytes.
  assert (Hb : forall v k, 0 <= Z.shiftr v k mod 256 < 256) by (intros; apply Z.mod_pos_bound; lia).
  rewrite !land_concat by apply Hb. change (256 * (Z.shiftr x 0 mod 256)) with (256 * (Z.shiftr x 0 mod 256)).
  rewrite !byte_land by lia. done.
Qed.

Lemma htonl_inj x y :
  0 <= x < 2 ^ 32 -> 0 <= y < 2 ^ 32 -> htonl x = htonl y -> x = y.
Proof.
  intros Hx Hy He. rewrite !htonl_bytes in He.
  assert (Hb : forall v k, 0 <= Z.shiftr v k mod 256 < 256) by (intros; apply Z.mod_pos_bound; lia).
  pose proof (be_combine_As4 x Hx) as Ex. pose proof (be_combine_As4 y Hy) as Ey.
  unfold As4 in Ex, Ey. rewrite be_combine_4 in Ex, Ey. rewrite !Z.shiftr_0_r in *.
  pose proof (Hb x 24). pose proof (Hb x 16). pose proof (Hb x 8). pose proof (Hb x 0).
  pose proof (Hb y 24). pose proof (Hb y 16). pose proof (Hb y 8). pose proof (Hb y 0).
  rewrite !Z.shiftr_0_r in *. lia.
Qed.

(** The mask of a prefix keeps the block and clears the host bits. *)
Lemma land_mask v p :
  0 < p <= 32 -> 0 <= v < 2 ^ 32 -> Z.land v (u32 (Z.shiftl 4294967295 (32 - p))) = mask_val 32 p v.
Proof.
  intros Hp Hv. unfold wrapU, mask_val. apply Z.bits_inj'. intros i Hi.
  rewrite Z.land_spec. change 4294967295 with (Z.ones 32). rewrite Z.shiftl_spec by lia.
  destruct (decide (i < 32 - p)) as [Hlo|Hlo].
  - rewrite (Z.testbit_neg_r (Z.shiftr v (32 - p))) by lia.
    rewrite Z.mod_pow2_bits_low by lia. rewrite Z.shiftl_spec by lia.
    rewrite (Z.testbit_neg_r (Z.ones 32)) by lia. apply andb_false_r.
  - rewrite Z.shiftr_spec by lia. replace (i - (32 - p) + (32 - p)) with i by lia.
    destruct (decide (i < 32)) as [Hhi|Hhi].
    + rewrite Z.mod_pow2_bits_low, Z.shiftl_spec, Z.ones_spec_low by lia. apply andb_true_r.
    + assert (Hz : Z.testbit v i = false).
      { destruct (Z.eq_dec v 0) as [->|]; [apply Z.bits_0|]. apply Z.bits_above_log2; [lia|].
        apply Z.log2_lt_pow2; [lia|]. apply Z.lt_le_trans with (2 ^ 32); [lia|].
        apply Z.pow_le_mono_r; lia. }
      by rewrite Hz.
Qed.

Lemma land_mask_range v m : 0 <= v < 2 ^ 32 -> 0 <= Z.land v m < 2 ^ 32.
Proof.
  intros Hv. split; [apply Z.land_nonneg; lia|]. apply Z.le_lt_trans with v; [|lia].
  apply Z.ldiff_le; [lia|]. rewrite Z.ldiff_land, <- Z.land_assoc. apply Z.bits_inj'. intros j Hj.
  rewrite !Z.land_spec, Z.lnot_spec, Z.bits_0 by lia. by destruct (Z.testbit v j), (Z.testbit m j).
Qed.

(** Comparing the encoded addresses under the encoded mask is membership. *)
Lemma policy_cidr_matches_spec p a :
  Prefix_wf p -> Is4 (pfx_addr p) = true -> 0 <= a < 2 ^ 32 ->
  policy_cidr_matches (encodeBase p) (u8 (pfx_bits p)) (htonl a) = Contains p (Addr4 a).
Proof.
  intros Hp H4 Ha. pose proof Hp as (Hw & Hv & Hz & Hb).
  destruct (pfx_addr p) as [|b|] eqn:Hpa; try done. cbn [BitLen Addr_wf] in Hb, Hw.
  rewrite wrapU_id by (unfold fitsU; lia).
  destruct (Masked_wf p Hp) as (v & Hm & Hl & _ & _ & Hwv & Hval).
  unfold encodeBase. rewrite Hm. cbn [pfx_addr]. rewrite Hpa in Hl, Hval. cbn [BitLen addr_val] in Hl, Hval.
  change (le_combine (As4 (addr_val v))) with (htonl (addr_val v)). rewrite Hval.
  unfold Contains. rewrite Hpa. cbn [addr_zone BitLen IsValid addr_val].
  rewrite bool_decide_eq_true_2 by done. rewrite (proj2 (Z.leb_le 0 (pfx_bits p))) by lia.
  cbn [andb Z.eqb]. change (32 =? 32) with true. cbn [andb]. unfold policy_cidr_matches.
  destruct (Z.eqb_spec (pfx_bits p) 0) as [H0|H0].
  { symmetry. apply Z.eqb_eq. rewrite H0. unfold mask_val. rewrite !Z.shiftr_div_pow2 by lia.
    change (2 ^ (32 - 0)) with (2 ^ 32). by rewrite !Z.div_small by lia. }
  rewrite (proj2 (Z.ltb_ge 32 (pfx_bits p))) by lia.
  set (m := u32 (Z.shiftl 4294967295 (32 - pfx_bits p))).
  rewrite <- !htonl_land. unfold m. destruct (mask_val_range 32 (pfx_bits p) b) as [Hr1 Hr2]; [lia|lia|].
  pose proof (Z.pow_pos_nonneg 2 (32 - pfx_bits p) ltac:(lia) ltac:(lia)) as Hpos.
  rewrite !land_mask by lia. rewrite mask_val_idemp by lia.
  destruct (mask_val_range 32 (pfx_bits p) a) as [Ha1 Ha2]; [lia|lia|].
  destruct (Z.eqb_spec (mask_val 32 (pfx_bits p) a) (mask_val 32 (pfx_bits p) b)) as [->|Hne].
  - apply Z.eqb_refl.
  - apply Z.eqb_neq. intros He. apply Hne. symmetry. apply htonl_inj; [lia|lia|done].
Qed.

(** ** The meaning of a rule list *)

Definition proto_admits (p : option IntOrString) (proto : Z) : bool :=
  match ResolveIPProtocol p with
  | Ok q => (q =? IPProtocolAny) || (q =? proto)
  | Err _ => false
  end.

Definition port_admits (ports : list PolicyPort) (dport : Z) : bool :=
  match ports with
  | [] => true
  | _ => existsb (fun p => match Port p, PortRange p with
                           | Some n, _ => n =? dport
                           | None, Some r => (pr_From r <=? dport) && (dport <=? pr_To r)
                           | None, None => false
                           end) ports
  end.

Definition cidr_admits (cidr : string) (a : Z) : bool :=
  match ParsePrefix cidr with Ok p => Contains p (Addr4 a) | Err _ => false end.

Definition acl_admits (rule : NetworkACLRule) (proto dport a : Z) : bool :=
  cidr_admits (acl_CIDR rule) a && proto_admits (acl_Protocol rule) proto &&
  port_admits (acl_Ports rule) dport.

(** The documented semantics of a NetworkACL direction: the matching rule of
    lowest priority number decides, and a packet no rule matches is denied. *)
Definition acl_decides (rules : list NetworkACLRule) (proto dport a : Z) (v : PolicyVerdict) : Prop :=
  v = PDeny /\ (forall r, r ∈ rules -> acl_admits r proto dport a = false) \/
  exists r, r ∈ rules /\ acl_admits r proto dport a = true /\
    (forall r', r' ∈ rules -> acl_admits r' proto dport a = true -> acl_Priority r <= acl_Priority r') /\
    v = match acl_Action r with ActionDeny => PDeny | _ => PAllow end.

(** What the CRD schema guarantees of the numbers in a rule. *)
Definition port_schema (p : PolicyPort) : Prop :=
  (forall n, Port p = Some n -> 1 <= n <= 65535) /\
  (forall r, PortRange p = Some r -> 1 <= pr_From r <= 65535 /\ 1 <= pr_To r <= 65535).

Definition acl_schema (r : NetworkACLRule) : Prop :=
  1 <= acl_Priority r <= 65535 /\ Forall port_schema (acl_Ports r).

(** ** Encoding *)

Definition encode_dir (d : Direction) : Z := if dirIs d then 0 else 1.
Definition encode_verdict (v : Verdict) : Z := match v with VerdictDeny => 0 | VerdictAllow => 1 end.
Definition encode_kind (k : PeerKind) : Z := match k with PeerKindCIDR => 0 | PeerKindSG => 1 end.

(** The value [ACLStore.Apply] writes for a rule, and its meta value. *)
Definition encodeAclRule (r : Rule) : AclRule :=
  MkAclRule (encode_dir (r_Direction r)) (Proto r) (PortLo r) (PortHi r) (PeerPrefixlen r)
    (encode_verdict (r_Verdict r)) (Priority r) (PeerV4 r).

Definition bool_Z (b : bool) : Z := if b then 1 else 0.

Definition encodeAclMeta (rs : RuleSet) : AclMeta :=
  MkAclMeta (u32 (Z.of_nat (length (Ingress rs)))) (u32 (Z.of_nat (length (Egress rs))))
    (bool_Z (HasIngressRules rs)) (bool_Z (HasEgressRules rs)) (RulesetVersion rs).

(** The value [SGStore.Apply] writes for a rule, and its meta value. *)
Definition encodeSgRule (r : Rule) : SgRule :=
  MkSgRule (encode_dir (r_Direction r)) (Proto r) (PortLo r) (PortHi r) (encode_kind (r_PeerKind r))
    (PeerPrefixlen r) (PeerV4 r) (encode_verdict (r_Verdict r)).

Definition encodeSgMeta (rs : RuleSet) : SgMeta :=
  MkSgMeta (u32 (Z.of_nat (length (Ingress rs)))) (u32 (Z.of_nat (length (Egress rs))))
    (bool_Z (HasEgressRules rs)) (u32 (RulesetVersion rs)).

(** The slots a rule set occupies: each window from its base. *)
Definition rule_slots (rs : RuleSet) (perDirection : nat) : list (Z * Rule) :=
  flat_map (fun w => imap (fun i r => (u32 (Base w + u32 (Z.of_nat i)), r)) (Rules w)) (windows rs perDirection).

Definition slot_map {A} (enc : Rule -> A) (slots : list (Z * Rule)) : gmap Z A :=
  fold_left (fun m sr => <[sr.1 := enc sr.2]> m) slots ∅.

(** A rule set that fits its windows. *)
Definition fits (rs : RuleSet) (perDirection : nat) : Prop :=
  (length (Ingress rs) <= perDirection)%nat /\ (length (Egress rs) <= perDirection)%nat.

Definition dir_rules (rs : RuleSet) (dir : Direction) : list Rule := if dirIs dir then Ingress rs else Egress rs.
Definition dir_base (perDirection : nat) (dir : Direction) : Z :=
  if dirIs dir then 0 else Z.of_nat perDirection.

Lemma rule_slots_spec rs n :
  fits rs n -> Z.of_nat n < 2 ^ 31 ->
  rule_slots rs n = imap (fun i r => (Z.of_nat i, r)) (Ingress rs) ++
                    imap (fun i r => (Z.of_nat n + Z.of_nat i, r)) (Egress rs).
Proof.
  intros [Hi He] Hn. unfold rule_slots, windows. cbn [flat_map Base Rules]. rewrite app_nil_r.
  rewrite (wrapU_id 32 (Z.of_nat n)) by (unfold fitsU; lia).
  f_equal; apply imap_ext; intros i r Hr; apply lookup_lt_Some in Hr; f_equal.
  - rewrite (wrapU_id 32 (Z.of_nat i)) by (unfold fitsU; lia). rewrite wrapU_id by (unfold fitsU; lia). lia.
  - rewrite (wrapU_id 32 (Z.of_nat i)) by (unfold fitsU; lia). rewrite wrapU_id by (unfold fitsU; lia). lia.
Qed.

Lemma slot_map_app {A} (enc : Rule -> A) l1 l2 k :
  (forall x, x ∈ l2 -> x.1 <> k) -> slot_map enc (l1 ++ l2) !! k = slot_map enc l1 !! k.
Proof.
  intros Hne. unfold slot_map. rewrite fold_left_app. set (m := fold_left _ l1 ∅). clearbody m.
  revert m. induction l2 as [|x l2 IH]; intros m; simpl; [done|].
  rewrite IH by (intros y Hy; apply Hne; by constructor).
  apply lookup_insert_ne, Hne. by constructor.
Qed.

Lemma slot_map_lookup {A} (enc : Rule -> A) l i k r :
  NoDup l.*1 -> l !! i = Some (k, r) -> slot_map enc l !! k = Some (enc r).
Proof.
  intros Hnd Hl. rewrite <- (take_drop_middle l i (k, r) Hl) in *.
  rewrite fmap_app, fmap_cons in Hnd. cbn [fst] in Hnd. apply NoDup_app in Hnd as (_ & Hd & Hnd).
  apply NoDup_cons in Hnd as [Hk _].
  rewrite cons_middle, app_assoc, slot_map_app.
  - unfold slot_map. rewrite fold_left_app. simpl. apply lookup_insert_eq.
  - intros x Hx <-. apply Hk. by apply list_elem_of_fmap_2.
Qed.

(** Every rule of a direction is found in its slot. *)
Lemma rule_slot_lookup {A} (enc : Rule -> A) rs n dir i r :
  fits rs n -> Z.of_nat n < 2 ^ 31 -> dir_rules rs dir !! i = Some r ->
  slot_map enc (rule_slots rs n) !! (dir_base n dir + Z.of_nat i) = Some (enc r).
Proof.
  intros Hf Hn Hr. rewrite rule_slots_spec by done. destruct Hf as [Hi He].
  set (l := imap (fun i r => (Z.of_nat i, r)) (Ingress rs) ++
            imap (fun i r => (Z.of_nat n + Z.of_nat i, r)) (Egress rs)).
  assert (Hnd : NoDup l.*1).
  { unfold l. rewrite fmap_app, !fmap_imap. apply NoDup_app. split_and!.
    - apply NoDup_alt. intros a b x Ha Hb. rewrite !list_lookup_imap in *.
      destruct (Ingress rs !! a), (Ingress rs !! b); simplify_eq/=. lia.
    - intros x Hx Hy. apply elem_of_lookup_imap in Hx as (a & ra & -> & Ha).
      apply elem_of_lookup_imap in Hy as (b & rb & Hab & Hb). simpl in Hab.
      apply lookup_lt_Some in Ha. lia.
    - apply NoDup_alt. intros a b x Ha Hb. rewrite !list_lookup_imap in *.
      destruct (Egress rs !! a), (Egress rs !! b); simplify_eq/=. lia. }
  unfold dir_rules, dir_base in *. destruct (dirIs dir).
  - eapply (slot_map_lookup enc l i); [done|]. unfold l.
    rewrite lookup_app_l by (rewrite length_imap; by eapply lookup_lt_Some).
    rewrite list_lookup_imap, Hr. done.
  - eapply (slot_map_lookup enc l (length (Ingress rs) + i)); [done|]. unfold l.
    rewrite lookup_app_r by (rewrite length_imap; lia). rewrite length_imap, list_lookup_imap.
    replace (length (Ingress rs) + i - length (Ingress rs))%nat with i by lia. by rewrite Hr.
Qed.
