(* ===== verification/PolicyACL.v ===== *)
(** * PolicyACL: a NetworkACL decides packets as documented

    From the spec the webhook admits, through [ExpandNetworkACL] and the slots
    of the rule table, to the verdict of [acl_evaluate]. *)

From stdpp Require Import base gmap strings list pretty sorting.
From Stdlib Require Import ZArith Lia.
From S2P Require Import Prelude Netip NetipFacts AddressRange Kube Protocol PolicyRules PolicyEval.

Open Scope Z_scope.

#[local] Arguments wrapU : simpl never.

(** ** One rule *)

Section Packet.
(** A packet: protocol, destination port and peer address. *)
Variables (proto dport a : Z).
Hypothesis a_fits : 0 <= a < 2 ^ 32.

(** A data plane rule against the packet, as [acl_scan] reads it. *)
Definition hit (r : Rule) : bool := acl_rule_matches (encodeAclRule r) proto dport (htonl a).

Lemma u16_port n : 1 <= n <= 65535 -> u16 n = n.
Proof. intros Hn. apply wrapU_id. unfold fitsU. lia. Qed.

(** A range read back from [portsToRanges] admits the port the spec admits. *)
Lemma portsToRanges_admits ports :
  Forall port_schema ports ->
  existsb (fun pr => policy_port_matches pr.1 pr.2 dport) (portsToRanges ports) = port_admits ports dport.
Proof.
  intros Hs. destruct ports as [|p ports]; [done|]. unfold portsToRanges, port_admits.
  revert Hs. generalize (p :: ports). clear p ports. intros ports.
  induction 1 as [|p ports [Hp Hr] _ IH]; [done|].
  cbn. destruct (Port p) as [n|].
  - cbn. rewrite <- IH. f_equal. specialize (Hp n eq_refl). rewrite u16_port by done.
    unfold policy_port_matches. destruct (n =? 0) eqn:?; to_prop; [lia|].
    destruct (Z.eqb_spec n dport), (n <=? dport) eqn:?, (dport <=? n) eqn:?; to_prop; cbn; lia || done.
  - destruct (PortRange p) as [r|]; [|exact IH]. cbn. rewrite <- IH. f_equal.
    destruct (Hr r eq_refl) as [Hf Ht]. rewrite !u16_port by done.
    unfold policy_port_matches. destruct (Z.eqb_spec (pr_From r) 0); [lia|done].
Qed.

Lemma existsb_map {A B} (f : B -> bool) (g : A -> B) l : existsb f (map g l) = existsb (fun x => f (g x)) l.
Proof. induction l as [|x l IH]; [done|]. cbn. by rewrite IH. Qed.

Lemma existsb_and {A} (b : bool) (f : A -> bool) l : existsb (fun x => b && f x) l = b && existsb f l.
Proof. induction l as [|x l IH]; cbn; [by rewrite andb_false_r|]. rewrite IH. by destruct b. Qed.

(** The entries of a rule: some entry matches exactly when the rule admits
    the packet, and each carries the rule's priority and action. *)
Lemma expandACLRule_hit dir rule rs :
  acl_schema rule -> expandACLRule dir rule = Ok rs ->
  existsb hit rs = acl_admits rule proto dport a /\
  Forall (fun r => Priority r = acl_Priority rule /\ r_Direction r = dir /\
    r_Verdict r = networkACLActionToVerdict (acl_Action rule)) rs.
Proof.
  intros [Hpri Hports]. unfold expandACLRule, networkACLPortsToRanges, acl_admits, cidr_admits, proto_admits.
  destruct (ParsePrefix (acl_CIDR rule)) as [p|] eqn:Hp; [|done].
  destruct (Is4 (pfx_addr p)) eqn:H4; [|done]. cbn [negb].
  destruct (ResolveIPProtocol (acl_Protocol rule)) as [q|] eqn:Hq; [|done].
  intros [= <-]. apply ParsePrefix_wf in Hp. split.
  - rewrite existsb_map. unfold hit, acl_rule_matches. cbn.
    rewrite policy_cidr_matches_spec by done. rewrite <- (portsToRanges_admits (acl_Ports rule)) by done.
    unfold policy_proto_matches.
    change (if q =? 65535 then true else q =? proto) with ((q =? IPProtocolAny) || (q =? proto)).
    rewrite <- andb_assoc, <- existsb_and, <- existsb_and.
    induction (portsToRanges (acl_Ports rule)) as [|x l IH]; [done|]. cbn. rewrite IH. f_equal.
    destruct (Contains p (Addr4 a)), ((q =? IPProtocolAny) || (q =? proto)), (policy_port_matches x.1 x.2 dport); done.
  - apply Forall_forall. intros r Hr. apply list_elem_of_In, in_map_iff in Hr as (pr & <- & _). cbn.
    split_and!; [apply wrapU_id; unfold fitsU; lia|done|done].
Qed.

(** ** Sorting *)

Lemma insertByPriority_perm r l : insertByPriority r l ≡ₚ r :: l.
Proof.
  induction l as [|r' l IH]; cbn; [done|]. case_match; [done|]. rewrite IH. by constructor.
Qed.

Lemma sortByPriority_perm l : sortByPriority l ≡ₚ l.
Proof. induction l as [|r l IH]; cbn; [done|]. by rewrite insertByPriority_perm, IH. Qed.

Definition before (r r' : Rule) : Prop := Priority r <= Priority r'.

Lemma insertByPriority_sorted r l :
  StronglySorted before l -> StronglySorted before (insertByPriority r l).
Proof.
  induction 1 as [|r' l' Hs IH Hall]; cbn; [repeat constructor|].
  destruct (Z.leb_spec (Priority r) (Priority r')) as [Hle|Hgt].
  - repeat constructor; [done|done|exact Hle|]. eapply Forall_impl; [exact Hall|]. unfold before. lia.
  - constructor; [done|]. rewrite insertByPriority_perm. constructor; [unfold before; lia|done].
Qed.

Lemma sortByPriority_sorted l : StronglySorted before (sortByPriority l).
Proof. induction l as [|r l IH]; [constructor|]. by apply insertByPriority_sorted. Qed.

(** ** The scan is a search in the sorted entries *)

Lemma acl_scan_find inner l base :
  (forall i r, l !! i = Some r -> inner !! (base + Z.of_nat i) = Some (encodeAclRule r)) ->
  0 <= base -> base + Z.of_nat (length l) <= 2 * MAX_ACL_RULES_PER_DIR ->
  acl_scan inner (length l) base proto dport (htonl a) =
  match List.find hit l with
  | Some r => match r_Verdict r with VerdictAllow => PAllow | VerdictDeny => PDeny end
  | None => PDeny
  end.
Proof.
  revert base. induction l as [|r l IH]; intros base Hin Hb Hlen; [done|]. cbn [length] in *. cbn [acl_scan].
  unfold array_slot. rewrite (proj2 (Z.leb_le 0 base)), (proj2 (Z.ltb_lt base _)) by lia. cbn [andb].
  pose proof (Hin 0%nat r eq_refl) as H0. rewrite Z.add_0_r in H0. rewrite H0. cbn [from_option List.find].
  change (acl_rule_matches (id (encodeAclRule r)) proto dport (htonl a)) with (hit r).
  destruct (hit r); [cbn; by destruct (r_Verdict r)|]. apply IH; [|lia|lia].
  intros i r' Hr'. rewrite <- (Hin (S i) r' Hr'). f_equal. lia.
Qed.

(** The first hit of a sorted list is one of lowest priority number. *)
Lemma find_sorted l r :
  StronglySorted before l -> List.find hit l = Some r ->
  r ∈ l /\ hit r = true /\ forall r', r' ∈ l -> hit r' = true -> Priority r <= Priority r'.
Proof.
  induction 1 as [|x l _ IH Hall]; cbn; [done|]. destruct (hit x) eqn:Hx.
  - intros [= <-]. split_and!; [constructor|done|]. intros r' [->|Hr']%elem_of_cons _; [lia|].
    rewrite Forall_forall in Hall. by apply Hall.
  - intros Hf. destruct (IH Hf) as (Hin & Hh & Hmin). split_and!; [by constructor|done|].
    intros r' [->|Hr']%elem_of_cons Hh'; [congruence|by apply Hmin].
Qed.

(** ** A direction *)

Lemma expandAll_Ok {R} (f : R -> result expand_error (list Rule)) rules out :
  expandAll f rules = Ok out ->
  exists outs, out = concat outs /\ Forall2 (fun x y => f x = Ok y) rules outs.
Proof.
  unfold expandAll, res_map. destruct (res_traverse f rules) as [outs|] eqn:Ht; [|done].
  intros [= <-]. exists outs. split; [done|]. by apply res_traverse_Ok.
Qed.

Lemma elem_of_concat {A} (x : A) ls : x ∈ concat ls <-> exists l, l ∈ ls /\ x ∈ l.
Proof.
  rewrite list_elem_of_In, in_concat. split; intros (l & H1 & H2); exists l;
    split; by apply list_elem_of_In.
Qed.

(** Searching the sorted expansion of a direction decides as documented. *)
Lemma direction_decides dir rules out :
  Forall acl_schema rules -> expandAll (expandACLRule dir) rules = Ok out ->
  acl_decides rules proto dport a
  match List.find hit (sortByPriority out) with
  | Some r => match r_Verdict r with VerdictAllow => PAllow | VerdictDeny => PDeny end
  | None => PDeny
  end.
Proof.
  intros Hs Hexp. apply expandAll_Ok in Hexp as (outs & -> & Hf).
  assert (Hspec : Forall2 (fun rule rs => rule ∈ rules /\ existsb hit rs = acl_admits rule proto dport a /\
    Forall (fun r => Priority r = acl_Priority rule /\ r_Direction r = dir /\
      r_Verdict r = networkACLActionToVerdict (acl_Action rule)) rs) rules outs).
  { apply Forall2_same_length_lookup. split; [by eapply Forall2_length|].
    intros i rule rs Hr Hrs. pose proof (list_elem_of_lookup_2 _ _ _ Hr) as Hin. split; [done|].
    rewrite Forall_forall in Hs. apply expandACLRule_hit; [by apply Hs|].
    by apply (Forall2_lookup_lr _ _ _ _ _ _ Hf Hr). }
  destruct (List.find hit (sortByPriority (concat outs))) as [r|] eqn:Hfind.
  - right. apply find_sorted in Hfind as (Hin & Hhit & Hmin); [|apply sortByPriority_sorted].
    rewrite sortByPriority_perm in Hin. apply elem_of_concat in Hin as (rs & Hrs & Hin).
    apply Forall2_elem_of_r with (y := rs) in Hspec as Hs'; [|done].
    destruct Hs' as (rule & _ & Hrule & Hex & Hall). rewrite Forall_forall in Hall.
    destruct (Hall r Hin) as (Hp & _ & Hv). exists rule. split_and!; [done| | |].
    + rewrite <- Hex. apply existsb_elem_of. by exists r.
    + intros rule' Hr' Hadm. apply Forall2_elem_of_l with (x := rule') in Hspec as Hs'; [|done].
      destruct Hs' as (rs' & Hrs' & _ & Hex' & Hall'). rewrite Hadm in Hex'.
      apply existsb_elem_of in Hex' as (r' & Hin' & Hh'). rewrite Forall_forall in Hall'.
      destruct (Hall' r' Hin') as (Hp' & _). rewrite <- Hp, <- Hp'. apply Hmin; [|done].
      rewrite sortByPriority_perm. apply elem_of_concat. by exists rs'.
    + rewrite Hv. by destruct (acl_Action rule).
  - left. split; [done|]. intros rule Hr. apply not_true_is_false. intros Hadm.
    apply Forall2_elem_of_l with (x := rule) in Hspec as Hs'; [|done].
    destruct Hs' as (rs & Hrs & _ & Hex & _). rewrite Hadm in Hex.
    apply existsb_elem_of in Hex as (r & Hin & Hh).
    assert (Hin' : In r (sortByPriority (concat outs))).
    { apply list_elem_of_In. rewrite sortByPriority_perm. apply elem_of_concat. by exists rs. }
    by rewrite (find_none _ _ Hfind r Hin') in Hh.
Qed.

(** What [acl_evaluate] answers on a published rule set. *)
Lemma acl_evaluate_image meta table id rs dir :
  id <> 0 -> fits rs NetworkACLMaxEntriesPerDirection -> meta !! id = Some (encodeAclMeta rs) ->
  table !! id = Some (slot_map encodeAclRule (rule_slots rs NetworkACLMaxEntriesPerDirection)) ->
  acl_evaluate meta table id dir proto dport (htonl a) =
  if (if dirIs dir then HasIngressRules rs else HasEgressRules rs) then
  match List.find hit (dir_rules rs dir) with
  | Some r => match r_Verdict r with VerdictAllow => PAllow | VerdictDeny => PDeny end
  | None => PDeny
  end
  else PPass.
Proof.
  intros Hid Hfit Hm Ht. unfold acl_evaluate. rewrite (proj2 (Z.eqb_neq _ _) Hid), Hm, Ht.
  set (has := if dirIs dir then HasIngressRules rs else HasEgressRules rs).
  replace (if dirIs dir then am_has_ingress (encodeAclMeta rs) else am_has_egress (encodeAclMeta rs)) with (bool_Z has)
    by (unfold has; by destruct (dirIs dir)).
  destruct has; cbn [bool_Z Z.eqb]; [|done].
  assert (Hlen : (length (dir_rules rs dir) <= 16)%nat) by (destruct Hfit; unfold dir_rules; by destruct (dirIs dir)).
  replace (if dirIs dir then am_ingress_count (encodeAclMeta rs) else am_egress_count (encodeAclMeta rs))
    with (Z.of_nat (length (dir_rules rs dir))).
  2:{ unfold dir_rules in *. destruct (dirIs dir); cbn; symmetry; apply wrapU_id; unfold fitsU; lia. }
  rewrite Z.min_l by (unfold MAX_ACL_RULES_PER_DIR; lia). rewrite Nat2Z.id. apply acl_scan_find.
  - intros i r Hr. by apply (rule_slot_lookup encodeAclRule rs NetworkACLMaxEntriesPerDirection dir).
  - by destruct (dirIs dir).
  - unfold MAX_ACL_RULES_PER_DIR. destruct (dirIs dir); lia.
Qed.
End Packet.

(** ** Admitted specs expand, and fit *)

Lemma validatePort_range path p :
  validatePort path p = [] ->
  is_Some (match Port p, PortRange p with
           | Some n, _ => Some (u16 n, u16 n)
           | None, Some r => Some (u16 (pr_From r), u16 (pr_To r))
           | None, None => None
           end).
Proof. unfold validatePort. destruct (Port p), (PortRange p); done || eauto. Qed.

Lemma validateProtocolPorts_nil path protocol ports :
  validateProtocolPorts path protocol ports = [] ->
  (exists q, ResolveIPProtocol protocol = Ok q) /\ length (portsToRanges ports) = atLeastOne (length ports).
Proof.
  unfold validateProtocolPorts. intros [H1 H2]%app_eq_nil. split.
  - destruct (ResolveIPProtocol protocol); [eauto|done].
  - destruct ports as [|p ports]; [done|]. unfold portsToRanges. rewrite atLeastOne_spec.
    set (l := p :: ports) in *. replace (Nat.max 1 (length l)) with (length l) by (simpl; lia).
    clearbody l. clear p ports H1. revert H2. generalize (child path "ports"). intros pth.
    enough (Hall : forall f : nat -> PolicyPort -> list field_error,
              (forall i x, exists pt, f i x = validatePort pt x) -> concat (imap f l) = [] ->
              length (omap (fun p => match Port p, PortRange p with
                        | Some n, _ => Some (u16 n, u16 n)
                        | None, Some r => Some (u16 (pr_From r), u16 (pr_To r))
                        | None, None => None
                        end) l) = length l) by (apply Hall; eauto).
    induction l as [|x l IH]; intros f Hf Hc; [done|]. cbn in Hc. apply app_eq_nil in Hc as [Hx Hc].
    destruct (Hf 0%nat x) as [pt Hpt]. rewrite Hpt in Hx. apply validatePort_range in Hx as [y Hy].
    cbn. rewrite Hy. cbn. f_equal. apply (IH (f ∘ S)); [|done]. intros i z. apply (Hf (S i)).
Qed.

Lemma validateCIDR4_nil path cidr :
  validateCIDR4 path cidr = [] -> exists p, ParsePrefix cidr = Ok p /\ Is4 (pfx_addr p) = true.
Proof.
  unfold validateCIDR4. destruct (ParsePrefix cidr) as [p|]; [|done]. intros Hw. exists p.
  split; [done|]. by destruct (Is4 (pfx_addr p)).
Qed.

(** A rule the webhook accepts expands to as many entries as it is charged. *)
Lemma validateNetworkACLRule_expands path dir rule :
  validateNetworkACLRule path rule = [] ->
  exists rs, expandACLRule dir rule = Ok rs /\ length rs = NetworkACLRuleEntryCount rule.
Proof.
  unfold validateNetworkACLRule. intros [_ [Hc Hp]%app_eq_nil]%app_eq_nil.
  destruct (String.eqb (acl_CIDR rule) ""); [done|].
  apply validateCIDR4_nil in Hc as (p & Hpp & H4). apply validateProtocolPorts_nil in Hp as [[q Hq] Hlen].
  unfold expandACLRule. rewrite Hpp, H4, Hq. cbn [negb]. eexists. split; [done|]. by rewrite length_map.
Qed.

Lemma validateACLRules_each path i seen rules rule :
  validateACLRules path i seen rules = [] -> rule ∈ rules -> exists pt, validateNetworkACLRule pt rule = [].
Proof.
  revert i seen. induction rules as [|r rules IH]; intros i seen Hn Hin; [by apply elem_of_nil in Hin|].
  cbn [validateACLRules] in Hn. apply app_eq_nil in Hn as [Hr Hrest]. case_bool_decide; [done|].
  apply elem_of_cons in Hin as [->|Hin]; [eauto|]. by apply (IH _ _ Hrest).
Qed.

(** A direction the webhook accepts expands within the budget. *)
Lemma validateNetworkACLDirection_expands path dir rules :
  validateNetworkACLDirection path rules = [] ->
  exists out, expandAll (expandACLRule dir) rules = Ok out /\
    length out = NetworkACLDirectionEntryCount rules /\ (length out <= NetworkACLMaxEntriesPerDirection)%nat.
Proof.
  unfold validateNetworkACLDirection, validateNetworkACLDirectionCapacity.
  intros [Hr Hcap]%app_eq_nil. unfold NetworkACLDirectionEntryCount in *.
  assert (Hle : (sumEntryCount rules NetworkACLRuleEntryCount <= NetworkACLMaxEntriesPerDirection)%nat).
  { destruct (Nat.ltb_spec NetworkACLMaxEntriesPerDirection (sumEntryCount rules NetworkACLRuleEntryCount)); done || lia. }
  assert (Hex : exists outs, res_traverse (expandACLRule dir) rules = Ok outs /\
            length (concat outs) = sumEntryCount rules NetworkACLRuleEntryCount).
  { rewrite sumEntryCount_sum. clear Hcap Hle.
    assert (Hall : forall rule, rule ∈ rules -> exists pt, validateNetworkACLRule pt rule = [])
      by (intros; by eapply validateACLRules_each).
    clear Hr. induction rules as [|r rules IH]; [by exists []|].
    destruct IH as (outs & Ho & Hlen); [intros; apply Hall; by constructor|].
    destruct (Hall r ltac:(constructor)) as [pt Hpt].
    destruct (validateNetworkACLRule_expands pt dir r Hpt) as (rs & Hrs & Hl).
    exists (rs :: outs). cbn. rewrite Hrs. cbn. rewrite Ho. split; [done|].
    rewrite length_app. cbn in Hlen. lia. }
  destruct Hex as (outs & Ho & Hlen). exists (concat outs). unfold expandAll. rewrite Ho. split_and!; [done|done|lia].
Qed.

Lemma sortByPriority_length l : length (sortByPriority l) = length l.
Proof. by rewrite sortByPriority_perm. Qed.

Definition acl_dir (acl : NetworkACL) (dir : Direction) : option (list NetworkACLRule) :=
  if dirIs dir then acl_Ingress acl else acl_Egress acl.

(** What a direction of the spec expands to. *)
Definition expands_to (acl : NetworkACL) (rs : RuleSet) (dir : Direction) : Prop :=
  (if dirIs dir then HasIngressRules rs else HasEgressRules rs) = bool_decide (is_Some (acl_dir acl dir)) /\
  exists out, expandAll (expandACLRule dir) (default [] (acl_dir acl dir)) = Ok out /\
    dir_rules rs dir = sortByPriority out.

Lemma ExpandNetworkACL_expands acl rs dir : ExpandNetworkACL acl = Ok rs -> expands_to acl rs dir.
Proof.
  unfold ExpandNetworkACL, res_bind. case_match; [done|]. case_match eqn:Hi; [|done]. case_match eqn:He; [|done].
  intros [= <-]. unfold expands_to, acl_dir, dir_rules. destruct dir; cbn; split; eauto.
Qed.

Section Accepted.
Context `{KubeLib}.
Variable get_vpc : string -> result api_error unit.

(** An ACL the webhook admits, once it has an id, expands within the budget
    of the data plane. *)
Lemma acl_validate_expands acl old :
  acl_validate get_vpc acl old = Ok [] -> acl_ID acl <> 0 ->
  exists rs, ExpandNetworkACL acl = Ok rs /\ fits rs NetworkACLMaxEntriesPerDirection /\ GroupID rs = acl_ID acl.
Proof.
  unfold acl_validate, res_map. destruct (validateVpc _ _ _ _) as [errs|]; [|done].
  intros [= [_ [Hi He]%app_eq_nil]%app_eq_nil] Hid.
  assert (Hdir : forall path dir (rules : option (list NetworkACLRule)),
    match rules with Some rules => validateNetworkACLDirection path rules | None => [] end = [] ->
    exists out, expandAll (expandACLRule dir) (default [] rules) = Ok out /\
    (length (sortByPriority out) <= NetworkACLMaxEntriesPerDirection)%nat).
  { intros path dir [rules|] Hn; [|exists []; split; [done|cbn; lia]].
    destruct (validateNetworkACLDirection_expands path dir rules Hn) as (out & Ho & _ & Hl).
    exists out. by rewrite sortByPriority_length. }
  destruct (Hdir _ DirIngress _ Hi) as (ing & Hing & Hli), (Hdir _ DirEgress _ He) as (eg & Heg & Hle).
  unfold ExpandNetworkACL, res_bind. rewrite (proj2 (Z.eqb_neq _ _) Hid), Hing, Heg.
  eexists. split_and!; [done|by split|done].
Qed.
End Accepted.

(** ** [fitRuleSet] *)

(** Each direction is kept or, when it is over the budget, replaced by an
    enforced empty list. *)
Lemma fitRuleSet_dir layer rs n dir :
  let fitted := (fitRuleSet layer rs n).1 in
  let over := (n <? length (dir_rules rs dir))%nat in
  dir_rules fitted dir = (if over then [] else dir_rules rs dir) /\
  (if dirIs dir then HasIngressRules fitted else HasEgressRules fitted) =
    (if over then true else if dirIs dir then HasIngressRules rs else HasEgressRules rs).
Proof. unfold fitRuleSet, dir_rules. destruct dir; cbn; done. Qed.

Lemma fitRuleSet_fits layer rs n : fits (fitRuleSet layer rs n).1 n.
Proof.
  unfold fitRuleSet, fits. cbn [fst Ingress Egress].
  destruct (Nat.ltb_spec n (length (Ingress rs))), (Nat.ltb_spec n (length (Egress rs))); cbn; lia.
Qed.

(** A rule set that fits is installed as it is. *)
Lemma fitRuleSet_id layer rs n : fits rs n -> fitRuleSet layer rs n = (rs, None).
Proof.
  intros [Hi He]. unfold fitRuleSet.
  destruct (Nat.ltb_spec n (length (Ingress rs))), (Nat.ltb_spec n (length (Egress rs))); try lia.
  by destruct rs.
Qed.

(** The error names the directions over the budget, and no other. *)
Lemma fitRuleSet_errors layer rs n :
  CapacityErrorsFrom (fitRuleSet layer rs n).2 =
    map (fun d => MkCapacity layer (GroupID rs) d (length (dir_rules rs d)) n)
      (filter (fun d => (n < length (dir_rules rs d))%nat) [DirIngress; DirEgress]).
Proof.
  unfold fitRuleSet. cbn [snd]. rewrite !filter_cons, filter_nil. unfold dir_rules. cbn [dirIs].
  destruct (Nat.ltb_spec n (length (Ingress rs))), (Nat.ltb_spec n (length (Egress rs)));
    repeat case_decide; lia || done.
Qed.
