(* ===== verification/PolicySG.v ===== *)
(** * PolicySG: security groups admit packets as documented

    From the spec the webhook admits, through [ExpandSecurityGroup] and the
    slots of the rule table, to the verdict of [sg_eval]. *)

From stdpp Require Import base gmap strings list pretty sorting.
From Stdlib Require Import ZArith Lia.
From S2P Require Import Prelude Netip NetipFacts AddressRange Kube AllocationAPI Protocol.
From S2P Require Import PolicyRules PolicyEval PolicyACL.

Open Scope Z_scope.

#[local] Arguments wrapU : simpl never.

Section Packet.
(** A packet: protocol, destination port, peer address, and the groups of
    the peer; [resolver] gives the ids of the groups rules refer to. *)
Variables (proto dport a : Z) (peer : option SgMembership) (resolver : MapPeerResolver).
Hypothesis a_fits : 0 <= a < 2 ^ 32.

(** ** The documented semantics *)

Definition peer_admits (p : SecurityGroupPeer) : bool :=
  if negb (String.eqb (peer_CIDR p) "") then cidr_admits (peer_CIDR p) a
  else match SecurityGroupRef p with
  | Some name => match ResolveSG resolver name with
  | Some gid => sg_peer_sg_set_contains peer gid
  | None => false
  end
  | None => false
  end.

Definition sg_admits (rule : SecurityGroupRule) : bool :=
  proto_admits (sg_Protocol rule) proto && port_admits (sg_Ports rule) dport &&
  existsb peer_admits (sg_Peers rule).

Definition sg_dir_rules (dir : Direction) (sg : SecurityGroup) : list SecurityGroupRule :=
  if dirIs dir then sg_Ingress sg else default [] (sg_Egress sg).

(** Allowed when a rule of an attached group admits the packet.  Otherwise
    ingress is denied, and egress is denied when a group declares an egress
    list. *)
Definition sg_verdict (dir : Direction) (groups : list SecurityGroup) : PolicyVerdict :=
  if existsb (fun sg => existsb sg_admits (sg_dir_rules dir sg)) groups then PAllow
  else match dir with
  | DirIngress => PDeny
  | DirEgress => if existsb (fun sg => bool_decide (is_Some (sg_Egress sg))) groups then PDeny else PPass
  end.

(** ** One rule *)

Definition sg_hit (r : Rule) : bool :=
  sg_rule_matches (encodeSgRule r) proto dport (htonl a) peer && (sr_verdict (encodeSgRule r) =? 1).

(** A built peer matches the packet exactly when the peer admits it. *)
Lemma buildPeer_admits p :
  match buildPeer p resolver with
  | Some base => sg_peer_matches (encodeSgRule base) (htonl a) peer = peer_admits p
  | None => peer_admits p = false
  end.
Proof.
  unfold buildPeer, peer_admits, cidr_admits. destruct (negb (String.eqb (peer_CIDR p) "")).
  - destruct (ParsePrefix (peer_CIDR p)) as [pfx|] eqn:Hp; [|done]. apply ParsePrefix_wf in Hp.
    destruct (Is4 (pfx_addr pfx)) eqn:H4.
    + unfold sg_peer_matches. cbn. by apply policy_cidr_matches_spec.
    + unfold Contains. destruct Hp as (_ & Hv & _ & _). destruct (pfx_addr pfx); try done. cbn.
      by rewrite andb_false_r.
  - destruct (SecurityGroupRef p) as [name|]; [|done]. by destruct (ResolveSG resolver name).
Qed.

Lemma existsb_flat_map {A B} (f : B -> bool) (g : A -> list B) l :
  existsb f (flat_map g l) = existsb (fun x => existsb f (g x)) l.
Proof. induction l as [|x l IH]; [done|]. cbn. by rewrite existsb_app, IH. Qed.

Lemma expandRule_hit dir rule rs :
  Forall port_schema (sg_Ports rule) -> expandRule dir rule resolver = Ok rs ->
  existsb sg_hit rs = sg_admits rule.
Proof.
  intros Hports. unfold expandRule, sg_admits, proto_admits.
  destruct (ResolveIPProtocol (sg_Protocol rule)) as [q|] eqn:Hq; [|done]. intros [= <-].
  rewrite existsb_flat_map, <- existsb_and. induction (sg_Peers rule) as [|p ps IH]; [done|].
  cbn [existsb]. rewrite IH. f_equal. clear IH.
  pose proof (buildPeer_admits p) as Hb. destruct (buildPeer p resolver) as [base|]; [|by rewrite Hb, andb_false_r].
  rewrite existsb_map. rewrite <- Hb. rewrite <- (portsToRanges_admits dport (sg_Ports rule)) by done.
  rewrite (andb_comm (_ && _)), <- !existsb_and.
  induction (portsToRanges (sg_Ports rule)) as [|x l IH]; [done|]. cbn [existsb]. rewrite IH. f_equal.
  unfold sg_hit, sg_rule_matches, sg_peer_matches, policy_proto_matches. cbn.
  change (if q =? 65535 then true else q =? proto) with ((q =? IPProtocolAny) || (q =? proto)).
  destruct ((q =? IPProtocolAny) || (q =? proto)), (policy_port_matches x.1 x.2 dport); cbn;
    rewrite ?andb_true_r, ?andb_false_r; done.
Qed.

Lemma existsb_concat {A} (f : A -> bool) ls : existsb f (concat ls) = existsb (existsb f) ls.
Proof. induction ls as [|l ls IH]; [done|]. cbn. by rewrite existsb_app, IH. Qed.

Lemma expandAll_hit dir rules out :
  Forall (fun r => Forall port_schema (sg_Ports r)) rules ->
  expandAll (fun r => expandRule dir r resolver) rules = Ok out ->
  existsb sg_hit out = existsb sg_admits rules.
Proof.
  intros Hs (outs & -> & Hf)%expandAll_Ok. rewrite existsb_concat.
  induction Hf as [|r rs rules outs Hr _ IH]; [done|]. apply Forall_cons in Hs as [Hp Hs].
  cbn. rewrite IH by done. f_equal. by eapply expandRule_hit.
Qed.

(** ** The scan *)

Lemma sg_scan_existsb inner l base :
  (forall i r, l !! i = Some r -> inner !! (base + Z.of_nat i) = Some (encodeSgRule r)) ->
  0 <= base -> base + Z.of_nat (length l) <= 2 * MAX_SG_RULES_PER_DIR ->
  sg_scan inner (length l) base proto dport (htonl a) peer = existsb sg_hit l.
Proof.
  revert base. induction l as [|r l IH]; intros base Hin Hb Hlen; [done|]. cbn [length] in *. cbn [sg_scan].
  unfold array_slot. rewrite (proj2 (Z.leb_le 0 base)), (proj2 (Z.ltb_lt base _)) by lia. cbn [andb].
  pose proof (Hin 0%nat r eq_refl) as H0. rewrite Z.add_0_r in H0. rewrite H0. cbn [from_option existsb].
  unfold sg_hit at 1. unfold id. destruct (_ && _); [done|]. apply IH; [|lia|lia].
  intros i r' Hr'. rewrite <- (Hin (S i) r' Hr'). f_equal. lia.
Qed.

(** The published image of a group. *)
Definition sg_image (meta : gmap Z SgMeta) (table : gmap Z (gmap Z SgRule)) (sg : SecurityGroup) : Prop :=
  Forall (fun r => Forall port_schema (sg_Ports r)) (sg_Ingress sg ++ default [] (sg_Egress sg)) /\
  exists rs, ExpandSecurityGroup sg resolver = Ok rs /\ fits rs SecurityGroupMaxEntriesPerDirection /\
  meta !! sg_GroupID sg = Some (encodeSgMeta rs) /\
  table !! sg_GroupID sg = Some (slot_map encodeSgRule (rule_slots rs SecurityGroupMaxEntriesPerDirection)).

Lemma ExpandSecurityGroup_hit sg rs dir :
  Forall (fun r => Forall port_schema (sg_Ports r)) (sg_Ingress sg ++ default [] (sg_Egress sg)) ->
  ExpandSecurityGroup sg resolver = Ok rs ->
  existsb sg_hit (dir_rules rs dir) = existsb sg_admits (sg_dir_rules dir sg) /\
  HasEgressRules rs = bool_decide (is_Some (sg_Egress sg)).
Proof.
  intros [Hi He]%Forall_app. unfold ExpandSecurityGroup, res_bind. case_match; [done|].
  case_match eqn:Hin; [|done]. case_match eqn:Heg; [|done]. intros [= <-]. split; [|done].
  unfold dir_rules, sg_dir_rules. destruct (dirIs dir); by eapply expandAll_hit.
Qed.

(** One turn of the loop, against an installed group. *)
Lemma sg_loop_installed meta table dir sg ids any :
  sg_image meta table sg ->
  exists declared,
  sg_loop meta table dir (sg_GroupID sg :: ids) any proto dport (htonl a) peer =
  (if existsb sg_admits (sg_dir_rules dir sg) then PAllow
    else sg_loop meta table dir ids (any || declared) proto dport (htonl a) peer) /\
  (dirIs dir = false -> declared = bool_decide (is_Some (sg_Egress sg))).
Proof.
  intros (Hs & rs & Hx & Hfit & Hm & Ht). cbn [sg_loop]. rewrite Hm.
  destruct (ExpandSecurityGroup_hit sg rs dir Hs Hx) as [Hhit Hhas]. rewrite <- Hhit.
  assert (Hlen : (length (dir_rules rs dir) <= 8)%nat) by (destruct Hfit; unfold dir_rules; by destruct (dirIs dir)).
  assert (Hone : forall n, n = Z.of_nat (length (dir_rules rs dir)) ->
    sg_eval_one_sg table (sg_GroupID sg) (if dirIs dir then 0 else MAX_SG_RULES_PER_DIR)
    n proto dport (htonl a) peer = existsb sg_hit (dir_rules rs dir)).
  { intros n ->. unfold sg_eval_one_sg. rewrite Ht. unfold MAX_SG_RULES_PER_DIR. rewrite Z.min_l by lia.
    rewrite Nat2Z.id. apply sg_scan_existsb.
    - intros i r Hr. change (if dirIs dir then 0 else 8) with (dir_base SecurityGroupMaxEntriesPerDirection dir).
      by apply rule_slot_lookup.
    - by destruct (dirIs dir).
    - unfold MAX_SG_RULES_PER_DIR. destruct (dirIs dir); lia. }
  assert (Hcount : (if dirIs dir then sm_ingress_count (encodeSgMeta rs) else sm_egress_count (encodeSgMeta rs)) =
    Z.of_nat (length (dir_rules rs dir))).
  { unfold dir_rules in *. destruct (dirIs dir); cbn; apply wrapU_id; unfold fitsU; lia. }
  rewrite Hcount.
  assert (Hdecl : (if dirIs dir then 0 <? sm_ingress_count (encodeSgMeta rs) else negb (sm_has_egress (encodeSgMeta rs) =? 0)) =
    if dirIs dir then negb (Nat.eqb (length (dir_rules rs dir)) 0) else bool_decide (is_Some (sg_Egress sg))).
  { destruct (dirIs dir) eqn:Hd.
    - rewrite Hcount. destruct (Nat.eqb_spec (length (dir_rules rs dir)) 0), (Z.ltb_spec 0 (Z.of_nat (length (dir_rules rs dir)))); lia || done.
    - cbn. rewrite Hhas. unfold bool_Z. by case_match. }
  rewrite Hdecl. clear Hcount Hdecl.
  exists (if dirIs dir then negb (Nat.eqb (length (dir_rules rs dir)) 0) else bool_decide (is_Some (sg_Egress sg))).
  split; [|by intros ->].
  destruct (Z.eqb_spec (Z.of_nat (length (dir_rules rs dir))) 0) as [Hz|Hz].
  - assert (Hnil : dir_rules rs dir = []) by (apply length_zero_iff_nil; lia).
    rewrite Hnil. cbn [existsb]. rewrite Hnil in *. cbn [length Nat.eqb negb].
    destruct (dirIs dir); cbn [negb orb]; [by rewrite orb_false_r|].
    destruct (bool_decide _); cbn [negb]; [by rewrite orb_true_r|by rewrite orb_false_r].
  - rewrite Hone by done. destruct (dirIs dir) eqn:Hd.
    + destruct (Nat.eqb_spec (length (dir_rules rs dir)) 0); [lia|]. cbn [negb]. by rewrite orb_true_r.
    + rewrite <- Hhas. destruct (HasEgressRules rs) eqn:Hh; cbn [negb]; [by rewrite orb_true_r|].
      assert (Hnone : sg_dir_rules dir sg = []).
      { unfold sg_dir_rules. rewrite Hd. destruct (sg_Egress sg); [|done]. by rewrite bool_decide_eq_true_2 in Hhas by eauto. }
      rewrite Hhit, Hnone. cbn. by rewrite orb_false_r.
Qed.

Lemma sg_loop_groups meta table dir groups any :
  Forall (sg_image meta table) groups ->
  sg_loop meta table dir (map sg_GroupID groups) any proto dport (htonl a) peer =
  if existsb (fun sg => existsb sg_admits (sg_dir_rules dir sg)) groups then PAllow
  else match dir with
  | DirIngress => PDeny
  | DirEgress => if any || existsb (fun sg => bool_decide (is_Some (sg_Egress sg))) groups then PDeny else PPass
  end.
Proof.
  intros Hall. revert any. induction Hall as [|sg groups Hsg _ IH]; intros any.
  - cbn. rewrite orb_false_r. by destruct any, dir.
  - cbn [map existsb]. destruct (sg_loop_installed meta table dir sg (map sg_GroupID groups) any Hsg) as (d & -> & Hd).
    destruct (existsb sg_admits (sg_dir_rules dir sg)); [done|]. cbn [orb]. rewrite IH. case_match; [done|].
    destruct dir; [done|]. rewrite (Hd eq_refl). by rewrite orb_assoc.
Qed.

(** An interface with one or two groups is evaluated as documented. *)
Lemma sg_eval_groups meta table dir groups m :
  Forall (sg_image meta table) groups -> members m = map sg_GroupID groups -> mb_count m <> 0 ->
  sg_eval meta table dir (Some m) proto dport (htonl a) peer = sg_verdict dir groups.
Proof.
  intros Hall Hm Hc. unfold sg_eval, sg_verdict. rewrite (proj2 (Z.eqb_neq _ _) Hc), Hm.
  by rewrite sg_loop_groups.
Qed.
End Packet.

(** ** Admitted specs expand, and fit *)

Section Accepted.
Context `{KubeLib}.
Variables (get_vpc : string -> result api_error unit) (get_sg : string -> result api_error SecurityGroup).
Variable resolver : MapPeerResolver.

Lemma validateSGRule_expands path field dir rule :
  validateSGRule path field rule = [] ->
  exists rs, expandRule dir rule resolver = Ok rs /\ (length rs <= SecurityGroupRuleEntryCount rule)%nat.
Proof.
  unfold validateSGRule. intros [_ [_ Hp]%app_eq_nil]%app_eq_nil.
  apply validateProtocolPorts_nil in Hp as [[q Hq] Hlen]. unfold expandRule. rewrite Hq. eexists. split; [done|].
  unfold SecurityGroupRuleEntryCount, securityGroupRuleEntryCount. rewrite <- Hlen, (atLeastOne_spec (length (sg_Peers rule))).
  etransitivity; [|apply Nat.mul_le_mono_r, Nat.le_max_r].
  induction (sg_Peers rule) as [|p ps IH]; [done|]. cbn [flat_map length]. rewrite length_app.
  destruct (buildPeer p resolver); cbn [length]; rewrite ?length_map; lia.
Qed.

Lemma validateSGDirection_expands path field check vpc self dir rules :
  validateSGDirection get_sg path field (fun pt => validateSGRule pt field) check vpc self rules = [] ->
  exists out, expandAll (fun r => expandRule dir r resolver) rules = Ok out /\
  (length out <= SecurityGroupMaxEntriesPerDirection)%nat.
Proof.
  unfold validateSGDirection, validateSecurityGroupDirectionCapacity. intros [Hr Hcap]%app_eq_nil.
  unfold SecurityGroupEntryCount in *.
  assert (Hle : (sumEntryCount rules SecurityGroupRuleEntryCount <= SecurityGroupMaxEntriesPerDirection)%nat).
  { destruct (Nat.ltb_spec SecurityGroupMaxEntriesPerDirection (sumEntryCount rules SecurityGroupRuleEntryCount)); done || lia. }
  assert (Hall : forall rule, rule ∈ rules -> exists pt, validateSGRule pt field rule = []).
  { intros rule Hin. destruct (concat_imap_nil _ _ _ Hr Hin) as [i [Hi _]%app_eq_nil]. eauto. }
  assert (Hex : exists outs, res_traverse (fun r => expandRule dir r resolver) rules = Ok outs /\
    (length (concat outs) <= sumEntryCount rules SecurityGroupRuleEntryCount)%nat).
  { rewrite sumEntryCount_sum. clear Hr Hcap Hle. induction rules as [|r rules IH]; [by exists []|].
    destruct IH as (outs & Ho & Hlen); [intros; apply Hall; by constructor|].
    destruct (Hall r ltac:(constructor)) as [pt Hpt].
    destruct (validateSGRule_expands pt field dir r Hpt) as (rs & Hrs & Hl).
    exists (rs :: outs). cbn. rewrite Hrs. cbn. rewrite Ho. split; [done|]. rewrite length_app. cbn in Hlen. lia. }
  destruct Hex as (outs & Ho & Hlen). exists (concat outs). unfold expandAll. rewrite Ho. split; [done|lia].
Qed.

(** A group the webhook admits, once it has an id, expands within the
    budget of the data plane. *)
Lemma sg_validate_expands sg old :
  sg_validate get_vpc get_sg sg old = Ok [] -> sg_GroupID sg <> 0 ->
  exists rs, ExpandSecurityGroup sg resolver = Ok rs /\ fits rs SecurityGroupMaxEntriesPerDirection.
Proof.
  unfold sg_validate, res_map. destruct (validateVpc _ _ _ _) as [errs|]; [|done].
  intros [= [_ [Hi He]%app_eq_nil]%app_eq_nil] Hid.
  destruct (validateSGDirection_expands _ _ _ _ _ DirIngress _ Hi) as (ing & Hing & Hli).
  assert (Heg : exists eg, expandAll (fun r => expandRule DirEgress r resolver) (default [] (sg_Egress sg)) = Ok eg /\
    (length eg <= SecurityGroupMaxEntriesPerDirection)%nat).
  { destruct (sg_Egress sg) as [rules|]; [|exists []; split; [done|cbn; lia]].
    by eapply validateSGDirection_expands. }
  destruct Heg as (eg & Heg & Hle). unfold ExpandSecurityGroup, res_bind.
  rewrite (proj2 (Z.eqb_neq _ _) Hid), Hing, Heg. eexists. split; [done|]. by split.
Qed.
End Accepted.
