(* ===== verification/PolicyStores.v ===== *)
(** * PolicyStores: publishing rules and invalidating admitted flows

    [daemon/internal/daemon/dataplane/policy]: [epoch.go], [invalidator.go],
    [rotator.go], [sgstore.go], [aclstore.go] and [membership.go].  Each
    operation is a program over the BPF maps it writes ([map_event]); the
    fields of the Go objects that survive a call are its explicit state.  An
    operation holds the lock of its object while it reads or writes such a
    field, so operations of one store are taken one after the other. *)

From stdpp Require Import base gmap strings list pretty sorting.
From Stdlib Require Import ZArith Lia.
From S2P Require Import Prelude Effects Netip NetipFacts AddressRange Kube Protocol PolicyRules.
From S2P Require Import PolicyEval.

Open Scope Z_scope.

(** ** Calls on BPF maps ([github.com/cilium/ebpf]) *)

Inductive bpf_error := ErrKeyNotExist | BpfError (text : string).

#[global] Instance bpf_error_eq_dec : EqDecision bpf_error.
Proof. solve_decision. Defined.

(** A rule table: [V] are the rules in an inner array, [M] the meta values. *)
Inductive map_event (V M : Type) : Type -> Type :=
| NewMap : map_event V M (result bpf_error Z)
| InnerUpdate (h slot : Z) (v : V) : map_event V M (result bpf_error unit)
| CloseMap (h : Z) : map_event V M (result bpf_error unit)
| OuterUpdate (id h : Z) : map_event V M (result bpf_error unit)
| OuterDelete (id : Z) : map_event V M (result bpf_error unit)
| MetaUpdate (id : Z) (m : M) : map_event V M (result bpf_error unit)
| MetaDelete (id : Z) : map_event V M (result bpf_error unit)
| EpochLoad : map_event V M (result bpf_error Z)
| EpochStore (v : Z) : map_event V M (result bpf_error unit).
Arguments NewMap {V M}.
Arguments InnerUpdate {V M} h slot v.
Arguments CloseMap {V M} h.
Arguments OuterUpdate {V M} id h.
Arguments OuterDelete {V M} id.
Arguments MetaUpdate {V M} id m.
Arguments MetaDelete {V M} id.
Arguments EpochLoad {V M}.
Arguments EpochStore {V M} v.

(** The errors the stores return, by what failed. *)
Inductive store_error :=
| ZeroID
| CreateInner (e : bpf_error)
| WriteRules (e : bpf_error)
| InstallInner (e : bpf_error)
| DeleteRules (e : bpf_error)
| DeleteMeta (e : bpf_error)
| ReadEpoch (e : bpf_error)
| PublishEpoch (e : bpf_error)
| Capacity (e : go_error)
| BadKey
| WriteMembership (e : bpf_error)
| DeleteMembership (e : bpf_error).

(** ** [epoch.go] *)

Section Epoch.
Context {E : Type -> Type}.
Variable load : E (result bpf_error Z).
Variable store : Z -> E (result bpf_error unit).

(** [newEpoch]: the [current] field of the new object. *)
Definition newEpoch : prog E (result store_error Z) :=
  r <- call load ;;
  match r with
  | Err e => Ret (Err (ReadEpoch e))
  | Ok previous =>
      let current := u32 (previous + 1) in
      r <- call (store current) ;;
      match r with
      | Err e => Ret (Err (PublishEpoch e))
      | Ok _ => Ret (Ok current)
      end
  end.

(** [Epoch.Bump], from and to the [current] field. *)
Definition Bump (current : Z) : prog E (result store_error unit * Z) :=
  let next := u32 (current + 1) in
  r <- call (store next) ;;
  match r with
  | Err e => Ret (Err (PublishEpoch e), current)
  | Ok _ => Ret (Ok tt, next)
  end.
End Epoch.

(** ** [invalidator.go] *)

(** What a store keeps in memory: the inner map of each id ([Rotator]), the
    content installed for each id ([invalidator]), and the generation
    ([Epoch], which all stores share). *)
Record memory := MkMemory {
  snapshots : gmap Z Z;
  installed : gmap Z RuleSet;
  current : Z }.

Section Table.
Context {V M : Type}.
#[local] Abbreviation ev := (map_event V M).

Definition bump (mem : memory) : prog ev (result store_error unit * memory) :=
  rc <- Bump (E := ev) EpochStore (current mem) ;;
  Ret (rc.1, MkMemory (snapshots mem) (installed mem) rc.2).

Definition applied (id : Z) (rs : RuleSet) (mem : memory) : prog ev (result store_error unit * memory) :=
  if bool_decide (installed mem !! id = Some rs) then Ret (Ok tt, mem) else
  rm <- bump mem ;;
  match rm.1 with
  | Err e => Ret (Err e, rm.2)
  | Ok _ => Ret (Ok tt, MkMemory (snapshots rm.2) (<[id := rs]> (installed rm.2)) (current rm.2))
  end.

Definition deleted (id : Z) (mem : memory) : prog ev (result store_error unit * memory) :=
  rm <- bump mem ;;
  match rm.1 with
  | Err e => Ret (Err e, rm.2)
  | Ok _ => Ret (Ok tt, MkMemory (snapshots rm.2) (delete id (installed rm.2)) (current rm.2))
  end.

(** ** [rotator.go] *)

Definition Rotator_Apply (id : Z) (writeRules : Z -> prog ev (result bpf_error unit))
  (writeMeta : prog ev (result bpf_error unit)) (mem : memory)
  : prog ev (result store_error unit * memory) :=
  if id =? 0 then Ret (Err ZeroID, mem) else
  r <- call NewMap ;;
  match r with
  | Err e => Ret (Err (CreateInner e), mem)
  | Ok inner =>
      r <- writeRules inner ;;
      match r with
      | Err e => _ <- call (CloseMap inner) ;; Ret (Err (WriteRules e), mem)
      | Ok _ =>
          r <- call (OuterUpdate id inner) ;;
          match r with
          | Err e => _ <- call (CloseMap inner) ;; Ret (Err (InstallInner e), mem)
          | Ok _ =>
              _ <- writeMeta ;;     (* an error is logged *)
              let mem' := MkMemory (<[id := inner]> (snapshots mem)) (installed mem) (current mem) in
              match snapshots mem !! id with
              | Some old => _ <- call (CloseMap old) ;; Ret (Ok tt, mem')
              | None => Ret (Ok tt, mem')
              end
          end
      end
  end.

(** An error of a delete, unless the key was not there. *)
Definition ignoreMissing (r : result bpf_error unit) : result bpf_error unit :=
  match r with Err ErrKeyNotExist => Ok tt | r => r end.

Definition Rotator_Delete (id : Z) (mem : memory) : prog ev (result store_error unit * memory) :=
  if id =? 0 then Ret (Ok tt, mem) else
  r <- call (OuterDelete id) ;;
  match ignoreMissing r with
  | Err e => Ret (Err (DeleteRules e), mem)
  | Ok _ =>
      r <- call (MetaDelete id) ;;
      match ignoreMissing r with
      | Err e => Ret (Err (DeleteMeta e), mem)
      | Ok _ =>
          let mem' := MkMemory (delete id (snapshots mem)) (installed mem) (current mem) in
          match snapshots mem !! id with
          | Some old => _ <- call (CloseMap old) ;; Ret (Ok tt, mem')
          | None => Ret (Ok tt, mem')
          end
      end
  end.

(** The errors of the closes, in the order of the loop. *)
Definition CloseAll (mem : memory) : prog ev (list bpf_error * memory) :=
  errs <- forP (map_to_list (snapshots mem)).*2 [] (fun h errs =>
    r <- call (CloseMap h) ;;
    match r with Err e => Ret (errs ++ [e]) | Ok _ => Ret errs end) ;;
  Ret (errs, MkMemory ∅ (installed mem) (current mem)).

(** ** [SGStore] and [ACLStore]

    The two differ in the layer, the size of a window and the encodings. *)

Section Store.
Variables (layer : string) (perDirection : nat) (encRule : Rule -> V) (encMeta : RuleSet -> M).

Definition writeRules (rs : RuleSet) (inner : Z) : prog ev (result bpf_error unit) :=
  forTryP (windows rs perDirection) tt (fun window _ =>
    forTryP (imap (fun i r => (u32 (Base window + u32 (Z.of_nat i)), r)) (Rules window)) tt (fun sr _ =>
      call (InnerUpdate inner sr.1 (encRule sr.2)))).

Definition Store_Apply (rs : RuleSet) (mem : memory) : prog ev (result store_error unit * memory) :=
  if GroupID rs =? 0 then Ret (Err ZeroID, mem) else
  let '(fitted, capacityErr) := fitRuleSet layer rs perDirection in
  rm <- Rotator_Apply (GroupID rs) (writeRules fitted) (call (MetaUpdate (GroupID rs) (encMeta fitted))) mem ;;
  match rm.1 with
  | Err e => Ret (Err e, rm.2)
  | Ok _ =>
      rm <- applied (GroupID rs) fitted rm.2 ;;
      match rm.1 with
      | Err e => Ret (Err e, rm.2)
      | Ok _ => Ret (match capacityErr with Some e => Err (Capacity e) | None => Ok tt end, rm.2)
      end
  end.
End Store.

Definition Store_Delete (id : Z) (mem : memory) : prog ev (result store_error unit * memory) :=
  rm <- Rotator_Delete id mem ;;
  match rm.1 with
  | Err e => Ret (Err e, rm.2)
  | Ok _ => deleted id rm.2
  end.
End Table.

Definition ACLStore_Apply := Store_Apply "networkacl" NetworkACLMaxEntriesPerDirection encodeAclRule encodeAclMeta.
Definition ACLStore_Delete := @Store_Delete AclRule AclMeta.
Definition SGStore_Apply := Store_Apply "securitygroup" SecurityGroupMaxEntriesPerDirection encodeSgRule encodeSgMeta.
Definition SGStore_Delete := @Store_Delete SgRule SgMeta.

(** ** [membership.go] *)

Record MembershipKey := MkMKey { VpcID : Z; IPv4 : Z }.

#[global] Instance MembershipKey_eq_dec : EqDecision MembershipKey.
Proof. solve_decision. Defined.
#[global] Instance MembershipKey_countable : Countable MembershipKey.
Proof.
  refine (inj_countable' (fun k => (VpcID k, IPv4 k)) (fun p => MkMKey p.1 p.2) _). by intros [].
Defined.

Inductive member_event : Type -> Type :=
| MemberUpdate (key : MembershipKey) (v : SgMembership) : member_event (result bpf_error unit)
| MemberDelete (key : MembershipKey) : member_event (result bpf_error unit)
| MemberEpochStore (v : Z) : member_event (result bpf_error unit).

(** The last entry written by each owner, and the shared generation. *)
Record member_memory := MkMemberMemory {
  entries : gmap string (MembershipKey * list Z);
  mcurrent : Z }.

(** [bpf.PodEgressSgMembershipVal]: an array of [MAX_SGS_PER_NIC] ids. *)
Definition membershipVal (groupIDs : list Z) : SgMembership :=
  MkMembership (u8 (Z.of_nat (length groupIDs))) (take MAX_SGS_PER_NIC (groupIDs ++ replicate MAX_SGS_PER_NIC 0)).

Definition deleteKey (k : MembershipKey) : prog member_event (result bpf_error unit) :=
  r <- call (MemberDelete k) ;; Ret (ignoreMissing r).

Definition Membership_Delete (owner : string) (mem : member_memory)
  : prog member_event (result store_error unit * member_memory) :=
  match entries mem !! owner with
  | None => Ret (Ok tt, mem)
  | Some previous =>
      r <- deleteKey previous.1 ;;
      match r with
      | Err e => Ret (Err (DeleteMembership e), mem)
      | Ok _ =>
          rc <- Bump MemberEpochStore (mcurrent mem) ;;
          match rc.1 with
          | Err e => Ret (Err e, mem)
          | Ok _ => Ret (Ok tt, MkMemberMemory (delete owner (entries mem)) rc.2)
          end
      end
  end.

Definition Membership_Apply (owner : string) (key : MembershipKey) (groupIDs : list Z) (mem : member_memory)
  : prog member_event (result store_error unit * member_memory) :=
  if (VpcID key =? 0) || (IPv4 key =? 0) then Ret (Err BadKey, mem) else
  let groupIDs := take MAX_SGS_PER_NIC groupIDs in
  if Nat.eqb (length groupIDs) 0 then Membership_Delete owner mem else
  r <- call (MemberUpdate key (membershipVal groupIDs)) ;;
  match r with
  | Err e => Ret (Err (WriteMembership e), mem)
  | Ok _ =>
      let previous := entries mem !! owner in
      _ <- match previous with
           | Some p => if bool_decide (p.1 = key) then Ret (Ok tt) else deleteKey p.1   (* an error is logged *)
           | None => Ret (Ok tt)
           end ;;
      if bool_decide (previous = Some (key, groupIDs)) then Ret (Ok tt, mem) else
      rc <- Bump MemberEpochStore (mcurrent mem) ;;
      match rc.1 with
      | Err e => Ret (Err e, mem)
      | Ok _ => Ret (Ok tt, MkMemberMemory (<[owner := (key, groupIDs)]> (entries mem)) rc.2)
      end
  end.
