(* ===== verification/PolicyPublish.v ===== *)
(** * PolicyPublish: what a rule store leaves in the data plane

    The documented behaviour of the BPF maps a rule table uses
    ([map_server]), and the specification of [Store_Apply] and [Store_Delete]
    against it: which rules and meta values are visible afterwards on every
    path, which inner maps stay open, and when the generation moves. *)

From stdpp Require Import base gmap strings list pretty sorting fin_maps.
From Stdlib Require Import ZArith Lia.
From S2P Require Import Prelude Effects Netip NetipFacts AddressRange Kube Protocol PolicyRules.
From S2P Require Import PolicyEval PolicyStores.

Open Scope Z_scope.

#[local] Arguments wrapU : simpl never.

(** ** The maps *)

(** Inner maps by number, the numbers the daemon holds a handle of, the
    HASH_OF_MAPS, the meta map and the generation cell. *)
Record world (V M : Type) := MkWorld {
  inners : gmap Z (gmap Z V); handles : gset Z; outer : gmap Z Z; metas : gmap Z M; epoch : Z }.
Arguments MkWorld {V M} _ _ _ _ _.
Arguments inners {V M} _.
Arguments handles {V M} _.
Arguments outer {V M} _.
Arguments metas {V M} _.
Arguments epoch {V M} _.

Section Maps.
Context {V M : Type}.
#[local] Abbreviation ev := (map_event V M).
#[local] Abbreviation W := (world V M).

Definition set_inners (w : W) x : W := MkWorld x (handles w) (outer w) (metas w) (epoch w).
Definition set_handles (w : W) x : W := MkWorld (inners w) x (outer w) (metas w) (epoch w).
Definition set_outer (w : W) x : W := MkWorld (inners w) (handles w) x (metas w) (epoch w).
Definition set_metas (w : W) x : W := MkWorld (inners w) (handles w) (outer w) x (epoch w).
Definition set_epoch (w : W) x : W := MkWorld (inners w) (handles w) (outer w) (metas w) x.

(** The rules the data plane finds under an id. *)
Definition table (w : W) : gmap Z (gmap Z V) := omap (fun h => inners w !! h) (outer w).

(** What a call may answer.  A call that fails has no effect, except that
    [close] gives up the handle whatever it answers. *)
Definition map_effect {R} (e : ev R) : W -> R -> W -> Prop :=
  match e in map_event _ _ R return W -> R -> W -> Prop with
  | NewMap => fun w r w' => match r with
  | Ok h => inners w !! h = None /\ w' = set_handles (set_inners w (<[h := ∅]> (inners w))) ({[h]} ∪ handles w)
  | Err _ => w' = w end
  | InnerUpdate h slot v => fun w r w' => match r with
  | Ok _ => w' = set_inners w (alter (<[slot := v]>) h (inners w))
  | Err _ => w' = w end
  | CloseMap h => fun w _ w' => w' = set_handles w (handles w ∖ {[h]})
  | OuterUpdate id h => fun w r w' => match r with
  | Ok _ => w' = set_outer w (<[id := h]> (outer w)) | Err _ => w' = w end
  | OuterDelete id => fun w r w' => match r with
  | Ok _ => w' = set_outer w (delete id (outer w))
  | Err ErrKeyNotExist => outer w !! id = None /\ w' = w
  | Err _ => w' = w end
  | MetaUpdate id m => fun w r w' => match r with
  | Ok _ => w' = set_metas w (<[id := m]> (metas w)) | Err _ => w' = w end
  | MetaDelete id => fun w r w' => match r with
  | Ok _ => w' = set_metas w (delete id (metas w))
  | Err ErrKeyNotExist => metas w !! id = None /\ w' = w
  | Err _ => w' = w end
  | EpochLoad => fun w r w' => w' = w /\ match r with Ok v => v = epoch w | Err _ => True end
  | EpochStore v => fun w r w' => match r with Ok _ => w' = set_epoch w v | Err _ => w' = w end
  end.

(** [faulty]: which calls may fail for a reason of their own. *)
Variable faulty : forall R, ev R -> bool.

Definition fails {R} (e : ev R) : R -> bool :=
  match e in map_event _ _ R return R -> bool with
  | NewMap | EpochLoad => fun r => match r with Err _ => true | Ok _ => false end
  | OuterDelete _ | MetaDelete _ => fun r => match ignoreMissing r with Err _ => true | Ok _ => false end
  | InnerUpdate _ _ _ | CloseMap _ | OuterUpdate _ _ | MetaUpdate _ _ | EpochStore _ =>
      fun r => match r with Err _ => true | Ok _ => false end
  end.

Definition map_server : server ev W :=
  fun R e w r w' => map_effect e w r w' /\ (fails e r = true -> faulty R e = true).

(** ** Writing the rules *)

Lemma slot_map_snoc {A} (enc : Rule -> A) l x :
  slot_map enc (l ++ [x]) = <[x.1 := enc x.2]> (slot_map enc l).
Proof. unfold slot_map. by rewrite fold_left_app. Qed.

(** [w'] differs from [w] in the inner map [h] only, which now holds [m]. *)
Definition wrote (h : Z) (m : gmap Z V) (w w' : W) : Prop :=
  w' = set_inners w (<[h := m]> (inners w)).

Lemma writeRules_wp n (enc : Rule -> V) rs h w :
  inners w !! h = Some ∅ ->
  wp map_server (writeRules n enc rs h) (fun r w' =>
    exists m, wrote h m w w' /\ (r = Ok tt -> m = slot_map enc (rule_slots rs n))) w.
Proof.
  intros Hh. unfold writeRules, rule_slots.
  set (f := fun win => imap (fun i r => (u32 (Base win + u32 (Z.of_nat i)), r)) (Rules win)).
  apply (wp_forTryP _ _ _ _ (fun pre _ w' => wrote h (slot_map enc (flat_map f pre)) w w')).
  - unfold wrote, slot_map. cbn. rewrite insert_id by done. by destruct w.
  - intros pre win post _ w1 _ H1.
    apply (wp_forTryP _ _ _ _ (fun pre' _ w' => wrote h (slot_map enc (flat_map f pre ++ pre')) w w')).
    + by rewrite app_nil_r.
    + intros pre' sr post' _ w2 _ H2. cbn [wp call]. intros r w3 [He _]. cbn in He.
      unfold wrote in *. subst w2. destruct r as [[]|e]; [|by subst; eexists].
      subst w3. rewrite app_assoc, slot_map_snoc. unfold set_inners. cbn. f_equal.
      by rewrite alter_insert_eq.
    + intros _ w2 H2. rewrite flat_map_app. cbn [flat_map]. by rewrite app_nil_r.
  - intros [] w' H'. eexists. split; [exact H'|done].
Qed.

(** ** Handles *)

(** The daemon holds exactly the inner maps it remembers, one per id, every
    map the data plane reaches is remembered, and the generation in memory
    is the published one. *)
Record owned (mem : memory) (w : W) : Prop := {
  owned_live : forall id h, snapshots mem !! id = Some h -> is_Some (inners w !! h);
  owned_handles : forall h, h ∈ handles w <-> exists id, snapshots mem !! id = Some h;
  owned_inj : forall id id' h, snapshots mem !! id = Some h -> snapshots mem !! id' = Some h -> id = id';
  owned_outer : outer w ⊆ snapshots mem;
  owned_epoch : current mem = epoch w }.

Lemma owned_fresh mem w h :
  owned mem w -> inners w !! h = None -> forall id, snapshots mem !! id <> Some h.
Proof. intros Ho Hn id Hs. destruct (owned_live _ _ Ho _ _ Hs). congruence. Qed.

Lemma outer_fresh mem w h :
  owned mem w -> inners w !! h = None -> forall id, outer w !! id <> Some h.
Proof. intros Ho Hn id Hs. eapply owned_fresh; [done..|]. by eapply lookup_weaken; [|apply Ho]. Qed.

Lemma table_fresh w h m :
  (forall id, outer w !! id <> Some h) -> table (set_inners w (<[h := m]> (inners w))) = table w.
Proof.
  intros Hn. apply map_eq. intros id. unfold table. cbn. rewrite !lookup_omap.
  destruct (outer w !! id) as [h'|] eqn:Ho; [|done]. cbn.
  apply lookup_insert_ne. intros ->. by apply (Hn id).
Qed.

(** A world with one more inner map, whose handle is open or not. *)
Definition with_inner (w : W) h m : W :=
  set_handles (set_inners w (<[h := m]> (inners w))) ({[h]} ∪ handles w).

Lemma not_open mem w h : owned mem w -> inners w !! h = None -> h ∉ handles w.
Proof.
  intros Ho Hn Hin. apply (owned_handles _ _ Ho) in Hin as [id Hid]. by eapply owned_fresh.
Qed.

Lemma owned_discard mem w h m :
  owned mem w -> inners w !! h = None ->
  owned mem (set_handles (with_inner w h m) (handles (with_inner w h m) ∖ {[h]})).
Proof.
  intros Ho Hn. pose proof (not_open _ _ _ Ho Hn) as Hno. destruct Ho as [Hl Hh Hi Hou He].
  constructor; cbn; try done.
  - intros id h' Hs. destruct (decide (h' = h)) as [->|]; [rewrite lookup_insert_eq; eauto|].
    rewrite lookup_insert_ne by done. eauto.
  - intros h'. rewrite <- Hh. set_solver.
Qed.

(** Installing a fresh inner map under an id, the old handle given up. *)
Lemma owned_install mem w h m id mt :
  owned mem w -> inners w !! h = None ->
  owned (MkMemory (<[id := h]> (snapshots mem)) (installed mem) (current mem))
  (MkWorld (<[h := m]> (inners w))
    (match snapshots mem !! id with Some old => ({[h]} ∪ handles w) ∖ {[old]} | None => {[h]} ∪ handles w end)
    (<[id := h]> (outer w)) mt (epoch w)).
Proof.
  intros Ho Hn. pose proof (owned_fresh _ _ _ Ho Hn) as Hf. destruct Ho as [Hl Hh Hi Hou He].
  constructor; cbn; try done.
  - intros id' h' [[-> ->]|[Hne Hs]]%lookup_insert_Some; [rewrite lookup_insert_eq; eauto|].
    rewrite lookup_insert_ne; [eauto|]. intros ->. by eapply Hf.
  - intros h'. split.
    + intros Hin. assert (Hin' : h' = h \/ h' ∈ handles w /\ snapshots mem !! id <> Some h').
      { destruct (snapshots mem !! id) as [old|] eqn:Hold; [|set_solver].
        apply elem_of_difference in Hin as [Hin Hne]. apply elem_of_union in Hin as [Hin|Hin]; [set_solver|].
        right. split; [done|]. intros [= ->]. set_solver. }
      destruct Hin' as [->|[Hin' Hne]]; [exists id; apply lookup_insert_eq|].
      apply Hh in Hin' as [id' Hid']. exists id'. rewrite lookup_insert_ne; [done|]. by intros ->.
    + intros [id' [[<- <-]|[Hne Hs]]%lookup_insert_Some].
      * destruct (snapshots mem !! id) as [old|] eqn:Hold; [|set_solver].
        assert (h <> old) by (intros ->; by eapply Hf). set_solver.
      * assert (Hin : h' ∈ handles w) by (apply Hh; eauto).
        destruct (snapshots mem !! id) as [old|] eqn:Hold; [|set_solver].
        assert (h' <> old) by (intros ->; apply Hne; by eapply Hi). set_solver.
  - intros id1 id2 h' [[<- <-]|[Hn1 Hs1]]%lookup_insert_Some [[<- He2]|[Hn2 Hs2]]%lookup_insert_Some; try done.
    + by apply Hf in Hs2.
    + subst. by apply Hf in Hs1.
    + by eapply Hi.
  - by apply insert_mono.
Qed.

(** ** [Rotator.Apply] *)

Definition unpublished (e : store_error) : Prop :=
  match e with ZeroID | CreateInner _ | WriteRules _ | InstallInner _ => True | _ => False end.

Section Apply.
Variables (n : nat) (enc : Rule -> V) (encMeta : RuleSet -> M).

(** What the data plane finds once [rs] is published under [id]. *)
Definition published (id : Z) (rs : RuleSet) (w w' : W) : Prop :=
  table w' = <[id := slot_map enc (rule_slots rs n)]> (table w) /\
  (metas w' = <[id := encMeta rs]> (metas w) \/
    metas w' = metas w /\ faulty _ (MetaUpdate id (encMeta rs)) = true).

Lemma Rotator_Apply_wp id rs mem w :
  owned mem w ->
  wp map_server (Rotator_Apply id (writeRules n enc rs) (call (MetaUpdate id (encMeta rs))) mem)
  (fun rm w' => owned rm.2 w' /\ installed rm.2 = installed mem /\ epoch w' = epoch w /\
    match rm.1 with
    | Err e => unpublished e /\ table w' = table w /\ metas w' = metas w
    | Ok _ => published id rs w w'
    end) w.
Proof.
  intros Ho. unfold Rotator_Apply. destruct (id =? 0); [done|].
  cbn [bind call]. cbn [wp]. intros [h|e] w1 [He _]; cbn in He; [|by subst w1].
  destruct He as [Hfresh ->]. apply wp_bind. eapply wp_mono; [apply writeRules_wp; cbn; by rewrite lookup_insert_eq|].
  intros r w1 (m & Hw1 & Hm). unfold wrote in Hw1. cbn in Hw1. rewrite insert_insert_eq in Hw1.
  change (w1 = with_inner w h m) in Hw1. subst w1.
  assert (Hout : forall id', outer w !! id' <> Some h) by by eapply outer_fresh.
  assert (Hdisc : forall e r' w2, unpublished e -> map_server _ (CloseMap h) (with_inner w h m) r' w2 ->
    owned mem w2 /\ installed mem = installed mem /\ epoch w2 = epoch w /\
    unpublished e /\ table w2 = table w /\ metas w2 = metas w).
  { intros e r' w2 Hu [Hc _]. cbn in Hc. subst w2. split_and!; [by apply owned_discard|done..| |done].
    exact (table_fresh w h m Hout). }
  destruct r as [[]|e]; cbn [bind call wp].
  2:{ intros r' w2 Hc. by apply (Hdisc (WriteRules e) r'). }
  intros [[]|e] w2 [Hc _]; cbn in Hc; subst w2; cbn [bind call wp].
  2:{ intros r' w2 Hc. by apply (Hdisc (InstallInner e) r'). }
  specialize (Hm eq_refl). subst m. intros rmeta w2 [Hmeta Hfail]; cbn in Hmeta.
  set (m := slot_map enc (rule_slots rs n)) in *.
  assert (Hw2 : exists mt, w2 = MkWorld (<[h := m]> (inners w)) ({[h]} ∪ handles w) (<[id := h]> (outer w)) mt (epoch w) /\
    (mt = <[id := encMeta rs]> (metas w) \/ mt = metas w /\ faulty _ (MetaUpdate id (encMeta rs)) = true)).
  { destruct rmeta as [[]|e]; subst w2; eexists; (split; [reflexivity|]); [by left|right].
    split; [done|]. by apply Hfail. }
  destruct Hw2 as (mt & -> & Hmt).
  assert (Htab : forall hs, published id rs w (MkWorld (<[h := m]> (inners w)) hs (<[id := h]> (outer w)) mt (epoch w))).
  { intros hs. split; [|done]. apply map_eq. intros id'. unfold table. cbn. rewrite lookup_omap.
    destruct (decide (id' = id)) as [->|Hne].
    - rewrite !lookup_insert_eq. cbn. by rewrite lookup_insert_eq.
    - rewrite !lookup_insert_ne by done. rewrite lookup_omap.
      destruct (outer w !! id') as [h'|] eqn:Hl; [|done]. cbn. apply lookup_insert_ne. intros ->. by apply (Hout id'). }
  pose proof (owned_install mem w h m id mt Ho Hfresh) as Hown.
  destruct (snapshots mem !! id) as [old|] eqn:Hold; cbn [bind call wp].
  - intros r' w3 [Hc _]. cbn in Hc. subst w3. cbn. split_and!; [exact Hown|done|done|apply Htab].
  - split_and!; [exact Hown|done|done|apply Htab].
Qed.

(** ** [Store.Apply] *)

(** The three ways an [Apply] ends: nothing was published; the rules are
    published but the generation is not; or both are. *)
Definition Apply_outcome (layer : string) (rs : RuleSet) (mem : memory) (w : W)
  (r : result store_error unit) (mem' : memory) (w' : W) : Prop :=
  let fitted := (fitRuleSet layer rs n).1 in
  match r with
  | Err (PublishEpoch _) =>
      published (GroupID rs) fitted w w' /\ installed mem' = installed mem /\ epoch w' = epoch w
  | Ok _ | Err (Capacity _) =>
      published (GroupID rs) fitted w w' /\ installed mem' = <[GroupID rs := fitted]> (installed mem) /\
      epoch w' = (if bool_decide (installed mem !! GroupID rs = Some fitted)
        then epoch w else u32 (epoch w + 1)) /\
      r = match (fitRuleSet layer rs n).2 with Some e => Err (Capacity e) | None => Ok tt end
  | Err e =>
      unpublished e /\ table w' = table w /\ metas w' = metas w /\ installed mem' = installed mem /\
      epoch w' = epoch w
  end.

Lemma owned_bump mem inst w x :
  owned mem w -> owned (MkMemory (snapshots mem) inst x) (set_epoch w x).
Proof. intros [Hl Hh Hi Hou He]. by constructor. Qed.

Lemma Store_Apply_wp layer rs mem w :
  owned mem w ->
  wp map_server (Store_Apply layer n enc encMeta rs mem)
  (fun rm w' => owned rm.2 w' /\ Apply_outcome layer rs mem w rm.1 rm.2 w') w.
Proof.
  intros Ho. unfold Store_Apply. destruct (GroupID rs =? 0); [done|].
  destruct (fitRuleSet layer rs n) as [fitted cap] eqn:Hfit.
  apply wp_bind. eapply wp_mono; [by apply Rotator_Apply_wp|].
  intros [[[]|e] mem1] w1; cbn [fst snd]; intros (Ho1 & Hi1 & He1 & Hr).
  2:{ cbn [wp]. split; [done|]. destruct Hr as (Hu & Ht & Hm). by destruct e. }
  unfold applied. rewrite Hi1. unfold Apply_outcome. rewrite Hfit. cbn [fst snd].
  destruct (bool_decide_reflect (installed mem !! GroupID rs = Some fitted)) as [Heq|Hne].
  - cbn [bind wp fst snd]. split; [done|]. rewrite Hi1, insert_id by done. by destruct cap.
  - cbn [bind bump Bump call]. cbn [wp bind]. intros [[]|e] w2 [He _]; cbn in He; subst w2; cbn [bind wp fst snd].
    + rewrite (owned_epoch _ _ Ho1). split; [exact (owned_bump mem1 _ w1 _ Ho1)|]. cbn. rewrite Hi1, He1. by destruct cap.
    + split; [|done]. destruct Ho1 as [Hl Hh Hinj Hou Hep]. by constructor.
Qed.

(** ** [Store.Delete] *)

Lemma owned_delete mem w id mt :
  owned mem w ->
  owned (MkMemory (delete id (snapshots mem)) (installed mem) (current mem))
  (MkWorld (inners w) (match snapshots mem !! id with Some old => handles w ∖ {[old]} | None => handles w end)
    (delete id (outer w)) mt (epoch w)).
Proof.
  intros [Hl Hh Hi Hou He]. constructor; cbn; try done.
  - intros id' h [_ Hs]%lookup_delete_Some. eauto.
  - intros h. split.
    + intros Hin. assert (Hin' : h ∈ handles w /\ snapshots mem !! id <> Some h).
      { destruct (snapshots mem !! id) as [old|]; [|done]. apply elem_of_difference in Hin as [Hin Hne].
        split; [done|]. intros [= ->]. set_solver. }
      destruct Hin' as [Hin' Hne]. apply Hh in Hin' as [id' Hid']. exists id'.
      rewrite lookup_delete_ne; [done|]. by intros ->.
    + intros [id' [Hne Hs]%lookup_delete_Some]. assert (Hin : h ∈ handles w) by (apply Hh; eauto).
      destruct (snapshots mem !! id) as [old|] eqn:Hold; [|done].
      assert (h <> old) by (intros ->; apply Hne; by eapply Hi). set_solver.
  - intros id1 id2 h [_ H1]%lookup_delete_Some [_ H2]%lookup_delete_Some. by eapply Hi.
  - by apply delete_mono.
Qed.

Lemma table_delete w id hs mt ep :
  table (MkWorld (inners w) hs (delete id (outer w)) mt ep) = delete id (table w).
Proof.
  apply map_eq. intros id'. unfold table. cbn. rewrite lookup_omap.
  destruct (decide (id' = id)) as [->|]; [by rewrite !lookup_delete_eq|].
  rewrite !lookup_delete_ne by done. by rewrite lookup_omap.
Qed.

(** The same world with the outer entry gone; a delete that finds no
    entry leaves the world as it is. *)
Lemma OuterDelete_effect w id r w' :
  map_effect (OuterDelete id) w r w' ->
  match ignoreMissing r with Ok _ => w' = set_outer w (delete id (outer w)) | Err _ => w' = w end.
Proof.
  cbn. destruct r as [[]|[|t]]; cbn; [done| |done]. intros [Hn ->]. rewrite delete_id by done. by destruct w.
Qed.

Lemma MetaDelete_effect w id r w' :
  map_effect (MetaDelete id) w r w' ->
  match ignoreMissing r with Ok _ => w' = set_metas w (delete id (metas w)) | Err _ => w' = w end.
Proof.
  cbn. destruct r as [[]|[|t]]; cbn; [done| |done]. intros [Hn ->]. rewrite delete_id by done. by destruct w.
Qed.

Lemma owned_shrink mem w o : owned mem w -> o ⊆ outer w -> owned mem (set_outer w o).
Proof. intros [Hl Hh Hi Hou He] Hs. constructor; cbn; try done. by etransitivity. Qed.

Lemma Rotator_Delete_wp id mem w :
  owned mem w ->
  wp map_server (Rotator_Delete id mem)
  (fun rm w' => owned rm.2 w' /\ installed rm.2 = installed mem /\ epoch w' = epoch w /\
    (rm.1 = Ok tt -> id <> 0 -> table w' = delete id (table w) /\ metas w' = delete id (metas w)) /\
    (id = 0 -> w' = w)) w.
Proof.
  intros Ho. unfold Rotator_Delete. destruct (Z.eqb_spec id 0) as [->|Hid]; [done|].
  cbn [bind call wp]. intros r w1 [He _]. apply OuterDelete_effect in He.
  destruct (ignoreMissing r) as [[]|e]; subst w1; cbn [bind call wp]; [|done].
  intros r2 w2 [He _]. apply MetaDelete_effect in He.
  destruct (ignoreMissing r2) as [[]|e]; subst w2; cbn [bind wp].
  2:{ cbn. split_and!; [apply owned_shrink; [done|apply delete_subseteq]|done..]. }
  pose proof (owned_delete mem w id (delete id (metas w)) Ho) as Hd.
  destruct (snapshots mem !! id) as [old|] eqn:Hold; cbn [bind call wp].
  - intros r3 w3 [He _]. cbn in He. subst w3. cbn [fst snd]. split_and!; [exact Hd|done|done| |done].
    intros _ _. split; [|done]. exact (table_delete w id _ _ _).
  - cbn [fst snd]. split_and!; [exact Hd|done|done| |done].
    intros _ _. split; [|done]. exact (table_delete w id _ _ _).
Qed.

Lemma Store_Delete_wp id mem w :
  owned mem w ->
  wp map_server (Store_Delete id mem)
  (fun rm w' => owned rm.2 w' /\
    match rm.1 with
    | Ok _ => installed rm.2 = delete id (installed mem) /\ epoch w' = u32 (epoch w + 1) /\
        (id <> 0 -> table w' = delete id (table w) /\ metas w' = delete id (metas w)) /\
        (id = 0 -> table w' = table w /\ metas w' = metas w)
    | Err _ => installed rm.2 = installed mem /\ epoch w' = epoch w
    end) w.
Proof.
  intros Ho. unfold Store_Delete. apply wp_bind. eapply wp_mono; [by apply Rotator_Delete_wp|].
  intros [[[]|e] mem1] w1; cbn [fst snd]; intros (Ho1 & Hi1 & He1 & Hd & H0); [|by cbn [wp]].
  unfold deleted, bump, Bump. cbn [bind call wp]. intros [[]|e] w2 [He _]; cbn in He; subst w2; cbn [bind wp fst snd].
  - rewrite (owned_epoch _ _ Ho1). split; [exact (owned_bump mem1 _ w1 _ Ho1)|]. cbn. rewrite Hi1, He1. split_and!; [done|done| |].
    + intros Hid. exact (Hd eq_refl Hid).
    + intros Hz. rewrite (H0 Hz). done.
  - split; [|done]. destruct Ho1 as [Hl Hh Hinj Hou Hep]. by constructor.
Qed.
End Apply.

(** [CloseAll] leaves no handle open, whatever the closes answer. *)
Lemma CloseAll_wp mem w :
  owned mem w ->
  wp map_server (CloseAll mem) (fun em w' => handles w' = ∅ /\ snapshots em.2 = ∅ /\ table w' = table w) w.
Proof.
  intros Ho. unfold CloseAll. apply wp_bind.
  set (l := (map_to_list (snapshots mem)).*2).
  apply wp_mono with (Q := fun _ w' => handles w' = handles w ∖ list_to_set l /\ table w' = table w).
  - apply (wp_forP_prefix _ _ _ _ (fun pre _ w' => handles w' = handles w ∖ list_to_set pre /\ table w' = table w)).
    + split; [set_solver|done].
    + intros pre h post errs w1 _ [Hh Ht]. cbn [bind call wp]. intros r w2 [He _]. cbn in He. subst w2.
      assert (Hg : handles (set_handles w1 (handles w1 ∖ {[h]})) = handles w ∖ list_to_set (pre ++ [h]) /\
        table (set_handles w1 (handles w1 ∖ {[h]})) = table w).
      { split; [|done]. cbn. rewrite Hh, list_to_set_app_L. set_solver. }
      by destruct r.
  - intros errs w1 [Hh Ht]. cbn. split_and!; [|done|done]. rewrite Hh. apply leibniz_equiv. intros h.
    split; [|set_solver]. intros [Hin Hni]%elem_of_difference. exfalso. apply Hni.
    apply (owned_handles _ _ Ho) in Hin as [id Hid]. apply elem_of_list_to_set. unfold l.
    apply list_elem_of_fmap. exists (id, h). split; [done|]. by apply elem_of_map_to_list.
Qed.
End Maps.
