(* ===== verification/PolicyTheorems.v ===== *)
(** * PolicyTheorems: the policy layer, end to end

    Published NetworkACLs and SecurityGroups decide packets as their specs
    say, directions over budget deny, admitted flows are invalidated when the
    rules change, and no inner map is leaked.  [map_handler] is a data plane
    to evaluate the model on. *)

From stdpp Require Import base gmap strings list pretty sorting relations fin_maps.
From Stdlib Require Import ZArith Lia.
From S2P Require Import Prelude Effects Netip NetipFacts AddressRange Kube Protocol PolicyRules.
From S2P Require Import PolicyEval PolicyACL PolicySG PolicyStores PolicyPublish.

Open Scope Z_scope.

#[local] Arguments wrapU : simpl never.

(** ** A data plane *)

Section Handler.
Context {V M : Type}.
#[local] Abbreviation ev := (map_event V M).
#[local] Abbreviation W := (world V M).

Definition empty_world : W := MkWorld ∅ ∅ ∅ ∅ 0.

Definition next_map (w : W) : Z := 1 + map_fold (fun k _ acc => Z.max k acc) 0 (inners w).

Lemma next_map_fresh w : inners w !! next_map w = None.
Proof.
  enough (Hmax : forall k, is_Some (inners w !! k) -> k <= map_fold (fun k _ acc => Z.max k acc) 0 (inners w)).
  { destruct (inners w !! next_map w) eqn:Hl; [|done].
    specialize (Hmax (next_map w) ltac:(eauto)). unfold next_map in Hmax. lia. }
  apply (map_fold_weak_ind (fun acc m => forall k, is_Some (m !! k) -> k <= acc)).
  - intros k [x Hx]. by rewrite lookup_empty in Hx.
  - intros i x m acc _ IH k [y [[-> _]|[_ Hy]]%lookup_insert_Some]; [lia|]. specialize (IH k ltac:(eauto)). lia.
Qed.

(** Every call that may fail does. *)
Definition map_handler (faulty : forall R, ev R -> bool) : handler ev W := fun R e w =>
  match e in map_event _ _ R return bool -> R * W with
  | NewMap => fun f => if f then (Err (BpfError "NewMap"), w) else
      (Ok (next_map w), set_handles (set_inners w (<[next_map w := ∅]> (inners w))) ({[next_map w]} ∪ handles w))
  | InnerUpdate h slot v => fun f => if f then (Err (BpfError "Update"), w) else
      (Ok tt, set_inners w (alter (<[slot := v]>) h (inners w)))
  | CloseMap h => fun f => (if f then Err (BpfError "Close") else Ok tt, set_handles w (handles w ∖ {[h]}))
  | OuterUpdate id h => fun f => if f then (Err (BpfError "Update"), w) else
      (Ok tt, set_outer w (<[id := h]> (outer w)))
  | OuterDelete id => fun f => if f then (Err (BpfError "Delete"), w) else
      match outer w !! id with
      | Some _ => (Ok tt, set_outer w (delete id (outer w)))
      | None => (Err ErrKeyNotExist, w)
      end
  | MetaUpdate id m => fun f => if f then (Err (BpfError "Update"), w) else
      (Ok tt, set_metas w (<[id := m]> (metas w)))
  | MetaDelete id => fun f => if f then (Err (BpfError "Delete"), w) else
      match metas w !! id with
      | Some _ => (Ok tt, set_metas w (delete id (metas w)))
      | None => (Err ErrKeyNotExist, w)
      end
  | EpochLoad => fun f => if f then (Err (BpfError "Lookup"), w) else (Ok (epoch w), w)
  | EpochStore v => fun f => if f then (Err (BpfError "Update"), w) else (Ok tt, set_epoch w v)
  end (faulty R e).

Lemma map_handler_ok faulty R (e : ev R) w r w' :
  map_handler faulty R e w = (r, w') -> map_server faulty R e w r w'.
Proof.
  unfold map_server, map_handler. intros Hh. destruct e; destruct (faulty _ _) eqn:Hf; simplify_eq/=;
    try (split; [done|done]).
  - split; [|done]. split; [apply next_map_fresh|done].
  - destruct (outer w !! id) eqn:Ho; simplify_eq/=; done.
  - destruct (metas w !! id) eqn:Ho; simplify_eq/=; done.
Qed.

Lemma run_server faulty {A} (p : prog ev A) w :
  exec (map_server faulty) w p (run (map_handler faulty) p w).1 (run (map_handler faulty) p w).2.
Proof. eapply exec_mono; [|apply run_exec]. intros R e s r s'. apply map_handler_ok. Qed.

Definition no_faults : forall R, ev R -> bool := fun _ _ => false.
Definition meta_faults : forall R, ev R -> bool := fun _ e => match e with MetaUpdate _ _ => true | _ => false end.

Lemma owned_empty : owned (MkMemory ∅ ∅ 0) empty_world.
Proof. constructor; cbn; try done. intros h. split; [set_solver|]. intros [id Hid]. by rewrite lookup_empty in Hid. Qed.
End Handler.

(** On a data plane without faults [Apply] publishes. *)
Lemma Store_Apply_live {V M} (faulty : forall R, map_event V M R -> bool) layer n enc encMeta rs mem w :
  (forall R e, faulty R e = false) -> GroupID rs <> 0 ->
  wp (map_server faulty) (Store_Apply layer n enc encMeta rs mem)
    (fun rm _ => rm.1 = match (fitRuleSet layer rs n).2 with Some e => Err (Capacity e) | None => Ok tt end) w.
Proof.
  intros Hnf Hid. assert (Hok : forall R (e : map_event V M R) w r w', map_server faulty R e w r w' -> fails e r = false).
  { intros R e w0 r w' [_ Hf]. destruct (fails e r); [|done]. by rewrite Hnf in Hf; specialize (Hf eq_refl). }
  unfold Store_Apply. rewrite (proj2 (Z.eqb_neq _ _) Hid). destruct (fitRuleSet layer rs n) as [fitted cap].
  apply wp_bind. apply wp_mono with (Q := fun rm _ => rm.1 = Ok tt).
  - unfold Rotator_Apply. rewrite (proj2 (Z.eqb_neq _ _) Hid). cbn [bind call wp].
    intros [h|e] w1 H1; [|by apply Hok in H1]. apply wp_bind.
    apply wp_mono with (Q := fun r _ => r = Ok tt).
    + unfold writeRules. apply (wp_forTryP _ _ _ _ (fun _ _ _ => True)); [done| |by intros [] ].
      intros _ win _ _ w2 _ _. apply (wp_forTryP _ _ _ _ (fun _ _ _ => True)); [done| |done].
      intros _ sr _ _ w3 _ _. cbn [call wp]. intros [[]|e] w4 H4; [done|by apply Hok in H4].
    + intros r w2 ->. cbn [bind call wp]. intros [[]|e] w3 H3; [|by apply Hok in H3].
      cbn [bind call wp]. intros _ w4 _. by case_match.
  - intros [r mem1] w1; cbn [fst snd]; intros ->. unfold applied. case_match; [done|].
    cbn [bind bump Bump call wp]. intros [[]|e] w2 H2; [done|by apply Hok in H2].
Qed.

(** ** NetworkACLs *)

(** The webhook accepts [acl], its numbers obey the schema, and it has an id. *)
Definition acl_admitted `{KubeLib} (get_vpc : string -> result api_error unit) (acl : NetworkACL) : Prop :=
  (exists old, acl_validate get_vpc acl old = Ok []) /\ acl_ID acl <> 0 /\
  (forall dir rules, acl_dir acl dir = Some rules -> Forall acl_schema rules).

(** The verdict the spec asks for. *)
Definition acl_specified (acl : NetworkACL) (dir : Direction) (proto dport a : Z) (v : PolicyVerdict) : Prop :=
  match acl_dir acl dir with
  | None => v = PPass
  | Some rules => acl_decides rules proto dport a v
  end.

Lemma expands_to_specified acl rs dir meta table proto dport a :
  (forall dir rules, acl_dir acl dir = Some rules -> Forall acl_schema rules) -> acl_ID acl <> 0 ->
  ExpandNetworkACL acl = Ok rs -> fits rs NetworkACLMaxEntriesPerDirection -> 0 <= a < 2 ^ 32 ->
  meta !! acl_ID acl = Some (encodeAclMeta rs) ->
  table !! acl_ID acl = Some (slot_map encodeAclRule (rule_slots rs NetworkACLMaxEntriesPerDirection)) ->
  acl_specified acl dir proto dport a (acl_evaluate meta table (acl_ID acl) dir proto dport (htonl a)).
Proof.
  intros Hs Hid Hx Hfit Ha Hm Ht. rewrite (acl_evaluate_image proto dport a meta table _ rs) by done.
  destruct (ExpandNetworkACL_expands acl rs dir Hx) as (Hhas & out & Hout & Hrules).
  rewrite Hhas, Hrules. unfold acl_specified. destruct (acl_dir acl dir) as [rules|] eqn:Hd; [|done].
  rewrite bool_decide_eq_true_2 by eauto. by eapply (direction_decides proto dport a Ha dir), Hout; apply (Hs dir).
Qed.

(** Claim C2: a NetworkACL the webhook admits always expands within the budget
    of the data plane. Whatever was installed before and whichever other calls
    fail, if this [ACLStore.Apply] answers [nil] and its meta write goes
    through (a failed one is only logged), then every packet of every
    direction gets the verdict of the matching rule of lowest priority number,
    [deny] when no rule matches, and passes when the direction has no rule
    list; and without faults [Apply] does answer [nil]. *)
Theorem acl_enforced `{KubeLib} (get_vpc : string -> result api_error unit) (acl : NetworkACL)
    (faulty : forall R, map_event AclRule AclMeta R -> bool) (mem : memory) (w : world AclRule AclMeta)
    (Hadm : acl_admitted get_vpc acl) (Hown : owned mem w)
    (Hmeta : forall id m, faulty _ (MetaUpdate id m) = false) :
  exists rs, ExpandNetworkACL acl = Ok rs /\
    (forall mem' w', exec (map_server faulty) w (ACLStore_Apply rs mem) (Ok tt, mem') w' ->
       forall dir proto dport a, 0 <= a < 2 ^ 32 ->
         acl_specified acl dir proto dport a
           (acl_evaluate (metas w') (table w') (acl_ID acl) dir proto dport (htonl a))) /\
    ((forall R e, faulty R e = false) ->
       forall r mem' w', exec (map_server faulty) w (ACLStore_Apply rs mem) (r, mem') w' -> r = Ok tt).
Proof.
  destruct Hadm as ([old Hv] & Hid & Hs).
  destruct (acl_validate_expands get_vpc acl old Hv Hid) as (rs & Hx & Hfit & Hg). exists rs. split; [done|].
  unfold ACLStore_Apply. split.
  - intros mem' w' Hex dir proto dport a Ha.
    destruct (wp_exec _ _ _ _ _ _ (Store_Apply_wp faulty _ encodeAclRule encodeAclMeta "networkacl" rs mem w Hown) Hex) as [_ Hout].
    cbn [fst snd] in Hout. unfold Apply_outcome in Hout. rewrite fitRuleSet_id in Hout by done.
    destruct Hout as ([Ht Hm] & _). cbn [fst] in *. rewrite Hg in *.
    destruct Hm as [Hm|[_ Hm]]; [|by rewrite Hmeta in Hm].
    eapply expands_to_specified; [done..|by rewrite Hm, lookup_insert_eq|by rewrite Ht, lookup_insert_eq].
  - intros Hnf r mem' w' Hex.
    assert (Hne : GroupID rs <> 0) by by rewrite Hg.
    pose proof (wp_exec _ _ _ _ _ _ (Store_Apply_live faulty "networkacl" _ encodeAclRule encodeAclMeta rs mem w Hnf Hne) Hex) as Hr.
    by rewrite fitRuleSet_id in Hr by done.
Qed.

Definition ex_port (lo hi : Z) : PolicyPort := MkPort None (Some (MkPortRange lo hi)).
Definition ex_acl : NetworkACL :=
  MkACL "web" "vpc-a"
    (Some [MkACLRule 200 ActionAllow (Some (StrVal "tcp")) "10.0.0.0/8" [ex_port 80 443; MkPort (Some 8080) None];
           MkACLRule 100 ActionDeny (Some (StrVal "all")) "10.1.0.0/16" []])
    None 7 1 None.
Definition any_vpc : string -> result api_error unit := fun _ => Ok tt.

Lemma ex_acl_admitted : acl_admitted any_vpc ex_acl.
Proof.
  split_and!; [exists None; vm_compute; reflexivity|done|].
  intros [] rules [= <-]. unfold acl_schema, port_schema.
  repeat first [apply Forall_nil_2 | apply Forall_cons_2 | progress (intros; simplify_eq/=) | split]; lia.
Qed.

Lemma acl_enforced_witness :
  exists rs, ExpandNetworkACL ex_acl = Ok rs /\
    (forall mem' w', exec (map_server no_faults) empty_world (ACLStore_Apply rs (MkMemory ∅ ∅ 0)) (Ok tt, mem') w' ->
       forall dir proto dport a, 0 <= a < 2 ^ 32 ->
         acl_specified ex_acl dir proto dport a
           (acl_evaluate (metas w') (table w') (acl_ID ex_acl) dir proto dport (htonl a))) /\
    ((forall R (e : map_event AclRule AclMeta R), no_faults R e = false) ->
       forall r mem' w', exec (map_server no_faults) empty_world (ACLStore_Apply rs (MkMemory ∅ ∅ 0)) (r, mem') w' -> r = Ok tt).
Proof.
  exact (acl_enforced any_vpc ex_acl no_faults (MkMemory ∅ ∅ 0) empty_world ex_acl_admitted owned_empty
           (fun _ _ => eq_refl)).
Defined.

(** ** Rule changes and admitted flows *)

(** The data plane trusts a flow it admitted while the generation is the one
    it was admitted under. *)

Section Steps.
Context {V M : Type} (layer : string) (n : nat) (enc : Rule -> V) (encMeta : RuleSet -> M).
Variable faulty : forall R, map_event V M R -> bool.

Inductive store_op := OpApply (rs : RuleSet) | OpDelete (id : Z).

Definition op_prog (op : store_op) (mem : memory) : prog (map_event V M) (result store_error unit * memory) :=
  match op with
  | OpApply rs => Store_Apply layer n enc encMeta rs mem
  | OpDelete id => Store_Delete id mem
  end.

Definition state : Type := memory * world V M.

(** One operation, with the error it returned. *)
Inductive op_step (op : store_op) : state -> result store_error unit -> state -> Prop :=
| op_step_intro mem w r mem' w' :
    exec (map_server faulty) w (op_prog op mem) (r, mem') w' -> op_step op (mem, w) r (mem', w').

(** An operation that did all its work or none: not a delete that failed
    half way, nor an apply whose generation could not be published. *)
Definition settled (op : store_op) (r : result store_error unit) : Prop :=
  match op, r with
  | _, Ok _ => True
  | OpApply _, Err (PublishEpoch _) => False
  | OpApply _, Err _ => True
  | OpDelete _, Err _ => False
  end.

Definition settled_step (s s' : state) : Prop := exists op r, op_step op s r s' /\ settled op r.

(** The content the store remembers is what the data plane holds. *)
Definition recorded (mem : memory) (w : world V M) : Prop :=
  forall id rs, installed mem !! id = Some rs ->
  table w !! id = Some (slot_map enc (rule_slots rs n)) /\ metas w !! id = Some (encMeta rs).

Lemma op_step_owned op s r s' : op_step op s r s' -> owned s.1 s.2 -> owned s'.1 s'.2.
Proof.
  intros [mem w r0 mem' w' Hex] Ho. cbn in *. destruct op as [rs|id]; cbn in Hex.
  - by destruct (wp_exec _ _ _ _ _ _ (Store_Apply_wp faulty n enc encMeta layer rs mem w Ho) Hex).
  - by destruct (wp_exec _ _ _ _ _ _ (Store_Delete_wp faulty id mem w Ho) Hex).
Qed.

Definition start (e : Z) : state := (MkMemory ∅ ∅ e, MkWorld ∅ ∅ ∅ ∅ e).

Lemma start_ok e : owned (start e).1 (start e).2 /\ recorded (start e).1 (start e).2.
Proof.
  split; [|intros id rs Hi; cbn in Hi; by rewrite lookup_empty in Hi].
  constructor; cbn; try done. intros h. split; [set_solver|]. intros [id Hid]. by rewrite lookup_empty in Hid.
Qed.

Hypothesis meta_reliable : forall id m, faulty _ (MetaUpdate id m) = false.

Lemma recorded_publish mem w w' id rs inst :
  published faulty n enc encMeta id rs w w' -> recorded mem w -> inst = <[id := rs]> (installed mem) ->
  forall sn c, recorded (MkMemory sn inst c) w'.
Proof.
  intros [Ht Hm] Hr -> sn c id' rs' Hi. cbn in Hi. destruct Hm as [Hm|[_ Hm]]; [|by rewrite meta_reliable in Hm].
  rewrite Ht, Hm. apply lookup_insert_Some in Hi as [[<- <-]|[Hne Hi]]; [by rewrite !lookup_insert_eq|].
  rewrite !lookup_insert_ne by done. by apply Hr.
Qed.

(** A settled step keeps the record true; if it changes what the data plane
    holds, it moves the generation. *)
Lemma settled_step_recorded s s' :
  settled_step s s' -> owned s.1 s.2 -> recorded s.1 s.2 ->
  recorded s'.1 s'.2 /\
  ((table s'.2 = table s.2 /\ metas s'.2 = metas s.2) \/ epoch s'.2 = u32 (epoch s.2 + 1)).
Proof.
  intros (op & r & [mem w r0 mem' w' Hex] & Hset) Ho Hr. cbn [fst snd] in *. destruct op as [rs|id]; cbn in Hex.
  - destruct (wp_exec _ _ _ _ _ _ (Store_Apply_wp faulty n enc encMeta layer rs mem w Ho) Hex) as [_ Hout].
    cbn [fst snd] in Hout. destruct mem' as [sn inst c]. unfold Apply_outcome in Hout.
    assert (Hpub : forall fitted, published faulty n enc encMeta (GroupID rs) fitted w w' ->
      inst = <[GroupID rs := fitted]> (installed mem) ->
      epoch w' = (if bool_decide (installed mem !! GroupID rs = Some fitted) then epoch w else u32 (epoch w + 1)) ->
      recorded (MkMemory sn inst c) w' /\
      ((table w' = table w /\ metas w' = metas w) \/ epoch w' = u32 (epoch w + 1))).
    { intros fitted Hp Hi He. split; [by eapply recorded_publish|].
      case_bool_decide as Heq; [left|by right]. apply Hr in Heq as [H1 H2].
      destruct Hp as [Ht [Hm|[Hm _]]]; rewrite Ht, Hm; rewrite ?insert_id by done; done. }
    assert (Hsame : table w' = table w -> metas w' = metas w -> inst = installed mem ->
      recorded (MkMemory sn inst c) w' /\
      ((table w' = table w /\ metas w' = metas w) \/ epoch w' = u32 (epoch w + 1))).
    { intros Ht Hm ->. split; [|by left]. intros id rs' Hi. rewrite Ht, Hm. by apply Hr. }
    destruct r0 as [[]|e]; [by eapply Hpub; apply Hout|].
    destruct e; try done; try (by eapply Hpub; apply Hout); by apply Hsame; apply Hout.
  - destruct (wp_exec _ _ _ _ _ _ (Store_Delete_wp faulty id mem w Ho) Hex) as [_ Hout].
    cbn [fst snd] in Hout. destruct r0 as [[]|e]; [|done].
    destruct Hout as (Hi & He & Hd & H0). split; [|by right].
    intros id' rs' Hi'. rewrite Hi in Hi'. apply lookup_delete_Some in Hi' as [Hne Hi'].
    destruct (Z.eq_dec id 0) as [Hz|Hz].
    + destruct (H0 Hz) as [-> ->]. by apply Hr.
    + destruct (Hd Hz) as [-> ->]. rewrite !lookup_delete_ne by done. by apply Hr.
Qed.

Lemma settled_reachable e s :
  rtc settled_step (start e) s -> owned s.1 s.2 /\ recorded s.1 s.2.
Proof.
  intros Hrtc. revert s Hrtc. apply rtc_ind_r; [apply start_ok|].
  intros x y _ Hxy [Ho Hr]. split; [|by destruct (settled_step_recorded x y Hxy Ho Hr)].
  destruct Hxy as (op & r & Hst & _). by eapply op_step_owned.
Qed.

Lemma u32_succ_ne e : u32 (e + 1) <> e.
Proof.
  intros He. assert (Hf : fitsU 32 e) by (rewrite <- He; apply wrapU_range; lia).
  rewrite wrapU_succ in He by (lia || done). case_decide; unfold fitsU in *; lia.
Qed.
End Steps.

Section Invalidation.
Variable faulty : forall R, map_event AclRule AclMeta R -> bool.

(** Settled operations of an [ACLStore]. *)
Definition acl_settled := settled_step "networkacl" NetworkACLMaxEntriesPerDirection encodeAclRule encodeAclMeta faulty.
End Invalidation.

(** Claim C6: from a fresh data plane and through any sequence of settled
    operations of an [ACLStore] in which no meta write fails, when the next
    one changes the verdict of any packet, it also moves the generation, so
    that no flow admitted under the old rules is trusted any longer. Settled
    operations did all their work or none: an apply may have failed to create,
    write or install an inner map, but not to publish its generation, and no
    delete failed half way. *)
Theorem rule_change_invalidates (faulty : forall R, map_event AclRule AclMeta R -> bool) (e : Z)
    (s s' : state) (id proto dport peer : Z) (dir : Direction)
    (Hmeta : forall id m, faulty _ (MetaUpdate id m) = false)
    (Hreach : rtc (acl_settled faulty) (start e) s) (Hstep : acl_settled faulty s s')
    (Hchange : acl_evaluate (metas s'.2) (table s'.2) id dir proto dport peer <>
               acl_evaluate (metas s.2) (table s.2) id dir proto dport peer) :
  epoch s'.2 = u32 (epoch s.2 + 1) /\ epoch s'.2 <> epoch s.2.
Proof.
  destruct (settled_reachable _ _ _ _ _ Hmeta _ _ Hreach) as [Ho Hr].
  destruct (settled_step_recorded _ _ _ _ _ Hmeta _ _ Hstep Ho Hr) as [_ [[Ht Hm]|He]].
  - by rewrite Ht, Hm in Hchange.
  - rewrite He. split; [done|]. apply u32_succ_ne.
Qed.

(** [run] of one operation against a data plane is a step. *)
Lemma run_op_step {V M} layer n (enc : Rule -> V) (encMeta : RuleSet -> M) faulty op mem w :
  op_step layer n enc encMeta faulty op (mem, w)
    (run (map_handler faulty) (op_prog layer n enc encMeta op mem) w).1.1
    ((run (map_handler faulty) (op_prog layer n enc encMeta op mem) w).1.2,
     (run (map_handler faulty) (op_prog layer n enc encMeta op mem) w).2).
Proof.
  constructor. pose proof (run_server faulty (op_prog layer n enc encMeta op mem) w) as Hr.
  by destruct (run _ _ _) as [[r m] w'].
Qed.

Definition ex_rules : RuleSet := MkRuleSet 7 [] [] true false 1.
Definition ex_published : state := 
  let out := run (map_handler no_faults) (ACLStore_Apply ex_rules (MkMemory ∅ ∅ 0)) empty_world in (out.1.2, out.2).

Lemma rule_change_invalidates_witness :
  epoch ex_published.2 = u32 (epoch (@start AclRule AclMeta 0).2 + 1) /\
  epoch ex_published.2 <> epoch (@start AclRule AclMeta 0).2.
Proof.
  apply (rule_change_invalidates no_faults 0 (start 0) ex_published 7 6 80 1 DirIngress).
  - done.
  - apply rtc_refl.
  - exists (OpApply ex_rules), (Ok tt). split; [|done].
    exact (run_op_step "networkacl" NetworkACLMaxEntriesPerDirection encodeAclRule encodeAclMeta no_faults
             (OpApply ex_rules) (MkMemory ∅ ∅ 0) empty_world).
  - vm_compute. discriminate.
Defined.

(** An [Apply] of the content the store last published for the id,
    as an informer resync replays it, never moves the generation, so it does
    not make the node evaluate its admitted flows again. *)
Theorem resync_keeps_generation (faulty : forall R, map_event AclRule AclMeta R -> bool) (rs : RuleSet)
    (mem mem1 mem2 : memory) (w w1 w2 : world AclRule AclMeta) (r1 r2 : result store_error unit)
    (Hown : owned mem w)
    (H1 : exec (map_server faulty) w (ACLStore_Apply rs mem) (r1, mem1) w1)
    (Hr1 : r1 = Ok tt \/ exists e, r1 = Err (Capacity e))
    (H2 : exec (map_server faulty) w1 (ACLStore_Apply rs mem1) (r2, mem2) w2) :
  epoch w2 = epoch w1 /\ installed mem2 = installed mem1.
Proof.
  pose proof (Store_Apply_wp faulty NetworkACLMaxEntriesPerDirection encodeAclRule encodeAclMeta "networkacl" rs) as Hwp.
  destruct (wp_exec _ _ _ _ _ _ (Hwp _ _ Hown) H1) as [Ho1 Hout1]. cbn [fst snd] in *.
  destruct (wp_exec _ _ _ _ _ _ (Hwp _ _ Ho1) H2) as [_ Hout2]. cbn [fst snd] in *.
  set (fitted := (fitRuleSet "networkacl" rs NetworkACLMaxEntriesPerDirection).1) in *.
  assert (Hi : installed mem1 !! GroupID rs = Some fitted).
  { unfold Apply_outcome in Hout1. destruct Hr1 as [->|[e ->]]; destruct Hout1 as (_ & -> & _); apply lookup_insert_eq. }
  unfold Apply_outcome in Hout2. fold fitted in Hout2.
  rewrite bool_decide_eq_true_2, insert_id in Hout2 by done.
  destruct r2 as [[]|[]]; destruct_and?; done.
Qed.

(** ** Handles *)

(** Any operation of a store, whatever it answers. *)
Definition any_step {V M} layer n (enc : Rule -> V) (encMeta : RuleSet -> M) faulty (s s' : state) : Prop :=
  exists op r, op_step layer n enc encMeta faulty op s r s'.

(** Claim C37: through any sequence of operations, any of whose calls may fail,
    the daemon holds open exactly one inner map per id it remembers, the data
    plane refers to no other, and [CloseAll] then closes every one of them,
    leaving the published rules in place. *)
Theorem no_handle_leak (V M : Type) (layer : string) (n : nat) (enc : Rule -> V) (encMeta : RuleSet -> M)
    (faulty : forall R, map_event V M R -> bool) (e : Z) (s : state)
    (Hreach : rtc (any_step layer n enc encMeta faulty) (start e) s) :
  handles s.2 = map_img (snapshots s.1) /\ size (handles s.2) = size (snapshots s.1) /\
  outer s.2 ⊆ snapshots s.1 /\
  forall errs mem' w', exec (map_server faulty) s.2 (CloseAll s.1) (errs, mem') w' ->
    handles w' = ∅ /\ snapshots mem' = ∅ /\ table w' = table s.2.
Proof.
  assert (Ho : owned s.1 s.2).
  { revert s Hreach. apply rtc_ind_r; [exact (proj1 (start_ok n enc encMeta e))|].
    intros x y _ (op & r & Hst) Hx. by eapply op_step_owned. }
  assert (Himg : handles s.2 = map_img (snapshots s.1)).
  { apply leibniz_equiv. intros h. rewrite (owned_handles _ _ Ho), elem_of_map_img. done. }
  split_and!; [done| |by apply Ho|].
  - rewrite Himg. clear Himg. destruct Ho as [_ _ Hinj _ _]. revert Hinj. generalize (snapshots s.1). clear. intros m.
    induction m as [|id h m Hid IH] using map_ind; intros Hinj; [by rewrite map_img_empty_L, map_size_empty, size_empty|].
    rewrite map_img_insert_notin_L, map_size_insert_None by done. rewrite size_union.
    + rewrite size_singleton, IH; [lia|]. intros a b x Ha Hb. apply (Hinj a b x);
        rewrite lookup_insert_ne by congruence; done.
    + intros x ->%elem_of_singleton Hx.
      apply elem_of_map_img in Hx as [id' Hid']. assert (Hne : id <> id') by congruence.
      apply Hne, (Hinj id id' h); [apply lookup_insert_eq|by rewrite lookup_insert_ne].
  - intros errs mem' w' Hex. exact (wp_exec _ _ _ _ _ _ (CloseAll_wp faulty s.1 s.2 Ho) Hex).
Qed.

Lemma no_handle_leak_witness :
  let s := ex_published in
  handles s.2 = map_img (snapshots s.1) /\ size (handles s.2) = size (snapshots s.1) /\
  outer s.2 ⊆ snapshots s.1 /\
  forall errs mem' w', exec (map_server no_faults) s.2 (CloseAll s.1) (errs, mem') w' ->
    handles w' = ∅ /\ snapshots mem' = ∅ /\ table w' = table s.2.
Proof.
  apply (no_handle_leak AclRule AclMeta "networkacl" NetworkACLMaxEntriesPerDirection encodeAclRule encodeAclMeta
           no_faults 0 ex_published).
  apply rtc_once. exists (OpApply ex_rules), (Ok tt).
  exact (run_op_step "networkacl" NetworkACLMaxEntriesPerDirection encodeAclRule encodeAclMeta no_faults
           (OpApply ex_rules) (MkMemory ∅ ∅ 0) empty_world).
Defined.

(** ** Directions over the budget *)

(** Claim C22: whatever rule set it is given, an [ACLStore.Apply] that
    publishes, and whose meta write goes through, installs a direction over
    the budget as deny-everything, leaves the other direction decided by its
    own rules, and reports exactly the directions over the budget, each with
    its number of entries. *)
Theorem over_capacity_denies (faulty : forall R, map_event AclRule AclMeta R -> bool) (rs : RuleSet)
    (mem mem' : memory) (w w' : world AclRule AclMeta) (r : result store_error unit) (dir : Direction) (proto dport a : Z)
    (Hid : GroupID rs <> 0) (Hown : owned mem w)
    (Hmeta : forall id m, faulty _ (MetaUpdate id m) = false)
    (Hex : exec (map_server faulty) w (ACLStore_Apply rs mem) (r, mem') w')
    (Hr : r = Ok tt \/ exists e, r = Err (Capacity e)) :
  acl_evaluate (metas w') (table w') (GroupID rs) dir proto dport (htonl a) =
    (if (NetworkACLMaxEntriesPerDirection <? length (dir_rules rs dir))%nat then PDeny
     else if (if dirIs dir then HasIngressRules rs else HasEgressRules rs) then
       match List.find (hit proto dport a) (dir_rules rs dir) with
       | Some r => match r_Verdict r with VerdictAllow => PAllow | VerdictDeny => PDeny end
       | None => PDeny
       end
     else PPass) /\
  match r with Err (Capacity e) => collectCapacityErrors e | _ => [] end =
    map (fun d => MkCapacity "networkacl" (GroupID rs) d (length (dir_rules rs d)) NetworkACLMaxEntriesPerDirection)
      (filter (fun d => (NetworkACLMaxEntriesPerDirection < length (dir_rules rs d))%nat) [DirIngress; DirEgress]).
Proof.
  pose proof (Store_Apply_wp faulty NetworkACLMaxEntriesPerDirection encodeAclRule encodeAclMeta "networkacl" rs mem w Hown) as Hwp.
  destruct (wp_exec _ _ _ _ _ _ Hwp Hex) as [_ Hout]. cbn [fst snd] in Hout. unfold Apply_outcome in Hout.
  pose proof (fitRuleSet_dir "networkacl" rs NetworkACLMaxEntriesPerDirection dir) as [Hrules Hhas].
  pose proof (fitRuleSet_errors "networkacl" rs NetworkACLMaxEntriesPerDirection) as Herr.
  pose proof (fitRuleSet_fits "networkacl" rs NetworkACLMaxEntriesPerDirection) as Hfit.
  destruct (fitRuleSet "networkacl" rs NetworkACLMaxEntriesPerDirection) as [fitted cap] eqn:Heqf. cbn [fst snd] in *.
  assert (Hpub : published faulty NetworkACLMaxEntriesPerDirection encodeAclRule encodeAclMeta (GroupID rs) fitted w w' /\
            r = match cap with Some e => Err (Capacity e) | None => Ok tt end).
  { destruct Hr as [->|[e ->]]; by destruct Hout as (? & _ & _ & ?). }
  destruct Hpub as [[Ht Hm] Hres]. destruct Hm as [Hm|[_ Hm]]; [|by rewrite Hmeta in Hm]. split.
  - rewrite (acl_evaluate_image proto dport a _ _ _ fitted); [|done|done|by rewrite Hm, lookup_insert_eq|by rewrite Ht, lookup_insert_eq].
    rewrite Hhas, Hrules. by destruct (_ <? _)%nat.
  - rewrite <- Herr, Hres. by destruct cap.
Qed.

Definition ex_rule (pri : Z) : Rule := MkRule DirIngress 6 80 80 PeerKindCIDR 10 8 VerdictAllow pri.
Definition ex_big : RuleSet := MkRuleSet 7 (map ex_rule (seqZ 1 17)) [] true false 1.

Lemma over_capacity_denies_witness :
  let out := run (map_handler no_faults) (ACLStore_Apply ex_big (MkMemory ∅ ∅ 0)) empty_world in
  acl_evaluate (metas out.2) (table out.2) 7 DirIngress 6 80 (htonl 167772161) = PDeny /\
  match out.1.1 with Err (Capacity e) => collectCapacityErrors e | _ => [] end =
    [MkCapacity "networkacl" 7 DirIngress 17 16].
Proof.
  intros out.
  destruct (over_capacity_denies no_faults ex_big (MkMemory ∅ ∅ 0) out.1.2 empty_world out.2 out.1.1 DirIngress 6 80 167772161)
    as [H1 H2].
  - done.
  - apply owned_empty.
  - done.
  - rewrite <- surjective_pairing. apply run_server.
  - right. eexists. vm_compute. reflexivity.
  - split; [exact H1|exact H2].
Defined.

(** ** SecurityGroups *)

Definition sg_settled (faulty : forall R, map_event SgRule SgMeta R -> bool) :=
  settled_step "securitygroup" SecurityGroupMaxEntriesPerDirection encodeSgRule encodeSgMeta faulty.

(** The webhook accepts [sg], its numbers obey the schema, and it has an id. *)
Definition sg_admitted `{KubeLib} get_vpc get_sg (sg : SecurityGroup) : Prop :=
  (exists old, sg_validate get_vpc get_sg sg old = Ok []) /\ sg_GroupID sg <> 0 /\
  Forall (fun r => Forall port_schema (sg_Ports r)) (sg_Ingress sg ++ default [] (sg_Egress sg)).

Lemma members_membershipVal ids : (length ids <= MAX_SGS_PER_NIC)%nat -> members (membershipVal ids) = ids.
Proof.
  unfold MAX_SGS_PER_NIC. intros Hlen. unfold members, membershipVal. cbn [mb_count mb_sgs].
  rewrite wrapU_id by (unfold fitsU; lia). unfold MAX_SGS_PER_NIC. rewrite Z.min_l by lia.
  rewrite Nat2Z.id, take_take, Nat.min_l by lia. apply take_app_length'. done.
Qed.

(** Claim C3: take any groups the webhook admitted, attached to an interface
    (at most two), whose expansions a [SGStore] has published through any
    sequence of settled operations (each did all its work or none) in which no
    meta write fails. Then a packet is allowed exactly when a rule of one of
    the groups admits its protocol, port and peer (an address of a CIDR, or a
    member of the referenced group); otherwise ingress is denied, and egress
    is denied when one of the groups has an egress list and passes when none
    has. *)
Theorem sg_enforced `{KubeLib} (get_vpc : string -> result api_error unit) (get_sg : string -> result api_error SecurityGroup)
    (resolver : MapPeerResolver) (groups : list SecurityGroup)
    (faulty : forall R, map_event SgRule SgMeta R -> bool) (e : Z) (s : state)
    (dir : Direction) (proto dport a : Z) (peer : option SgMembership)
    (Hmeta : forall id m, faulty _ (MetaUpdate id m) = false)
    (Hreach : rtc (sg_settled faulty) (start e) s)
    (Hadm : Forall (sg_admitted get_vpc get_sg) groups)
    (Hpub : Forall (fun sg => exists rs, ExpandSecurityGroup sg resolver = Ok rs /\
                                installed s.1 !! sg_GroupID sg = Some rs) groups)
    (Hlen : (1 <= length groups <= MAX_SGS_PER_NIC)%nat) (Ha : 0 <= a < 2 ^ 32) :
  sg_eval (metas s.2) (table s.2) dir (Some (membershipVal (map sg_GroupID groups))) proto dport (htonl a) peer =
    sg_verdict proto dport a peer resolver dir groups.
Proof.
  destruct (settled_reachable _ _ _ _ _ Hmeta _ _ Hreach) as [_ Hrec].
  assert (Hl : length (map sg_GroupID groups) = length groups) by apply length_map.
  apply sg_eval_groups; [done| |apply members_membershipVal; lia|].
  - rewrite Forall_forall in *. intros sg Hsg. destruct (Hadm sg Hsg) as ([old Hv] & Hid & Hports).
    destruct (Hpub sg Hsg) as (rs & Hx & Hi). destruct (Hrec _ _ Hi) as [Ht Hm].
    destruct (sg_validate_expands get_vpc get_sg resolver sg old Hv Hid) as (rs' & Hx' & Hfit).
    rewrite Hx in Hx'. injection Hx' as <-. split; [done|]. by exists rs.
  - cbn [mb_count membershipVal]. unfold MAX_SGS_PER_NIC in *. rewrite Hl, wrapU_id by (unfold fitsU; lia). lia.
Qed.

Definition ex_sg : SecurityGroup :=
  MkSG "db" "vpc-a"
    [MkSGRule [MkPeer "" (Some "web"); MkPeer "10.9.0.0/16" None]%string (Some (StrVal "tcp")) [MkPort (Some 5432) None]]
    None 3 1 None.
Definition ex_resolver : MapPeerResolver := {[ "web" := 4 ]}%string.
Definition ex_sg_rules : RuleSet := match ExpandSecurityGroup ex_sg ex_resolver with Ok rs => rs | Err _ => ex_rules end.
Definition ex_sg_state : @state SgRule SgMeta :=
  let out := run (map_handler no_faults) (SGStore_Apply ex_sg_rules (MkMemory ∅ ∅ 0)) empty_world in (out.1.2, out.2).
Definition any_sg : string -> result api_error SecurityGroup := fun _ => Ok ex_sg.

(** A member of [web] is let in, and another address is not. *)
Lemma sg_enforced_witness :
  sg_eval (metas ex_sg_state.2) (table ex_sg_state.2) DirIngress (Some (membershipVal [3])) 6 5432 (htonl 3232235521)
    (Some (membershipVal [4])) = PAllow /\
  sg_verdict 6 5432 3232235521 None ex_resolver DirIngress [ex_sg] = PDeny.
Proof.
  split; [|vm_compute; reflexivity].
  etransitivity.
  - apply (sg_enforced any_vpc any_sg ex_resolver [ex_sg] no_faults 0 ex_sg_state DirIngress 6 5432 3232235521
             (Some (membershipVal [4]))).
    + done.
    + apply rtc_once. exists (OpApply ex_sg_rules), (Ok tt). split; [|done].
      exact (run_op_step "securitygroup" SecurityGroupMaxEntriesPerDirection encodeSgRule encodeSgMeta no_faults
               (OpApply ex_sg_rules) (MkMemory ∅ ∅ 0) empty_world).
    + repeat constructor; try (intros; simplify_eq/=; lia). exists None. vm_compute. reflexivity.
    + repeat constructor. exists ex_sg_rules. split; vm_compute; reflexivity.
    + cbn. unfold MAX_SGS_PER_NIC. lia.
    + lia.
  - vm_compute. reflexivity.
Defined.

(** ** A failed meta write *)

(** A meta write that fails is only logged: [ACLStore.Apply] answers
    [nil] and records the content as installed, yet the data plane, finding
    no meta entry, passes every packet of an ACL whose ingress list is empty.
    The next [Apply] of the same content writes the meta entry, from which on
    the packets are denied, but does not move the generation, so the flows
    admitted in between stay admitted. *)
Theorem meta_failure_fails_open :
  exists mem1 w1 mem2 w2,
    exec (map_server meta_faults) empty_world (ACLStore_Apply ex_rules (MkMemory ∅ ∅ 0)) (Ok tt, mem1) w1 /\
    exec (map_server no_faults) w1 (ACLStore_Apply ex_rules mem1) (Ok tt, mem2) w2 /\
    installed mem1 !! 7 = Some ex_rules /\
    acl_evaluate (metas w1) (table w1) 7 DirIngress 6 22 (htonl 167772161) = PPass /\
    acl_evaluate (metas w2) (table w2) 7 DirIngress 6 22 (htonl 167772161) = PDeny /\
    epoch w2 = epoch w1.
Proof.
  pose (one := run (map_handler meta_faults) (ACLStore_Apply ex_rules (MkMemory ∅ ∅ 0)) empty_world).
  pose (two := run (map_handler no_faults) (ACLStore_Apply ex_rules one.1.2) one.2).
  exists one.1.2, one.2, two.1.2, two.2.
  pose proof (run_server meta_faults (ACLStore_Apply ex_rules (MkMemory ∅ ∅ 0)) empty_world) as H1.
  pose proof (run_server no_faults (ACLStore_Apply ex_rules one.1.2) one.2) as H2.
  fold one in H1. fold two in H2.
  assert (E1 : one.1.1 = Ok tt) by (vm_compute; reflexivity).
  assert (E2 : two.1.1 = Ok tt) by (vm_compute; reflexivity).
  rewrite (surjective_pairing one.1), E1 in H1. rewrite (surjective_pairing two.1), E2 in H2.
  split_and!; [exact H1|exact H2|vm_compute; reflexivity..].
Qed.
