(* ===== verification/PolicyMembership.v ===== *)
(** * PolicyMembership: which groups an address belongs to

    [MembershipStore] of [policy/membership.go] against the documented
    behaviour of [sg_membership_map]: the table holds one entry per owner, as
    long as owners have addresses of their own, over histories of operations
    that are tried again when they fail. *)

From stdpp Require Import base gmap strings list relations.
From Stdlib Require Import ZArith Lia.
From S2P Require Import Prelude Effects Protocol PolicyRules PolicyEval PolicyStores.

Open Scope Z_scope.

#[local] Arguments wrapU : simpl never.

Record member_world := MkMemberWorld { members_of : gmap MembershipKey SgMembership; member_epoch : Z }.

Definition member_effect {R} (e : member_event R) : member_world -> R -> member_world -> Prop :=
  match e in member_event R return member_world -> R -> member_world -> Prop with
  | MemberUpdate k v => fun w r w' => match r with
      | Ok _ => w' = MkMemberWorld (<[k := v]> (members_of w)) (member_epoch w) | Err _ => w' = w end
  | MemberDelete k => fun w r w' => match r with
      | Ok _ => w' = MkMemberWorld (delete k (members_of w)) (member_epoch w)
      | Err ErrKeyNotExist => members_of w !! k = None /\ w' = w
      | Err _ => w' = w end
  | MemberEpochStore v => fun w r w' => match r with
      | Ok _ => w' = MkMemberWorld (members_of w) v | Err _ => w' = w end
  end.

(** [delete_fails]: whether a delete may fail for a reason of its own. *)
Definition member_server (delete_fails : bool) : server member_event member_world :=
  fun R e w r w' => member_effect e w r w' /\
    match e in member_event R return R -> Prop with
    | MemberDelete _ => fun r => match ignoreMissing r with Err _ => delete_fails = true | Ok _ => True end
    | _ => fun _ => True
    end r.







(** ** One operation and its attempts *)













(** ** Histories *)














(** A table that never fails. *)
Definition member_handler : handler member_event member_world := fun R e w =>
  match e in member_event R return R * member_world with
  | MemberUpdate k v => (Ok tt, MkMemberWorld (<[k := v]> (members_of w)) (member_epoch w))
  | MemberDelete k => match members_of w !! k with
      | Some _ => (Ok tt, MkMemberWorld (delete k (members_of w)) (member_epoch w))
      | None => (Err ErrKeyNotExist, w)
      end
  | MemberEpochStore v => (Ok tt, MkMemberWorld (members_of w) v)
  end.

Lemma member_handler_ok R (e : member_event R) w r w' :
  member_handler R e w = (r, w') -> member_server false R e w r w'.
Proof.
  unfold member_server, member_handler. destruct e; intros Hh; [by simplify_eq/=| |by simplify_eq/=].
  destruct (members_of w !! key) eqn:Hl; by simplify_eq/=.
Qed.

Lemma member_run_server {A} (p : prog member_event A) w :
  exec (member_server false) w p (run member_handler p w).1 (run member_handler p w).2.
Proof. eapply exec_mono; [|apply run_exec]. intros R e s r s'. apply member_handler_ok. Qed.

Definition ex_key : MembershipKey := MkMKey 5 16777226.
Definition ex_start : member_memory * member_world := (MkMemberMemory ∅ 1, MkMemberWorld ∅ 1).




(** When an address passes from one interface to another and the
    new owner is applied before the old one is deleted, the delete removes
    the new owner's entry: every call answers [nil], the store still records
    the new owner, but the data plane finds no groups at the address and
    passes every packet to it. *)
Theorem membership_takeover_passes :
  exists mem1 w1 mem2 w2 mem3 w3,
    exec (member_server false) ex_start.2 (Membership_Apply "eni-a" ex_key [3] ex_start.1) (Ok tt, mem1) w1 /\
    exec (member_server false) w1 (Membership_Apply "eni-b" ex_key [4] mem1) (Ok tt, mem2) w2 /\
    exec (member_server false) w2 (Membership_Delete "eni-a" mem2) (Ok tt, mem3) w3 /\
    entries mem3 !! "eni-b"%string = Some (ex_key, [4]) /\
    members_of w2 !! ex_key = Some (membershipVal [4]) /\ members_of w3 !! ex_key = None /\
    forall meta table dir proto dport peer_ip peer,
      sg_eval meta table dir (members_of w3 !! ex_key) proto dport peer_ip peer = PPass.
Proof.
  pose (one := run member_handler (Membership_Apply "eni-a" ex_key [3] ex_start.1) ex_start.2).
  pose (two := run member_handler (Membership_Apply "eni-b" ex_key [4] one.1.2) one.2).
  pose (three := run member_handler (Membership_Delete "eni-a" two.1.2) two.2).
  exists one.1.2, one.2, two.1.2, two.2, three.1.2, three.2.
  split_and!.
  - exact (member_run_server (Membership_Apply "eni-a" ex_key [3] ex_start.1) ex_start.2).
  - exact (member_run_server (Membership_Apply "eni-b" ex_key [4] one.1.2) one.2).
  - exact (member_run_server (Membership_Delete "eni-a" two.1.2) two.2).
  - vm_compute. reflexivity.
  - vm_compute. reflexivity.
  - vm_compute. reflexivity.
  - intros. change (members_of three.2 !! ex_key) with (@None SgMembership). done.
Qed.
