(* ===== verification/IPNet.v ===== *)
(** * IPNet: the part of Go's package [net] the admission webhooks use

    [net.IP] values of four and of sixteen bytes are [Addr4] and [Addr6];
    [IPNet] is what [ParseCIDR] builds: the masked address and the number of
    leading ones of a mask as long as the address.  [Contains] follows the
    standard library: addresses that are IPv4 in IPv6 count as IPv4. *)

From stdpp Require Import base gmap strings list pretty.
From Stdlib Require Import ZArith Lia Ascii.
From S2P Require Import Prelude Netip NetipFacts.
Open Scope Z_scope.

Record IPNet := MkIPNet { net_IP : Addr; net_Ones : Z }.

#[global] Instance IPNet_eq_dec : EqDecision IPNet.
Proof. solve_decision. Defined.

(** [dtoi]: the text is a non-empty sequence of digits. *)
Definition dtoi (s : string) : option Z :=
  match s with EmptyString => None | _ => parse_digits s 0 end.

Definition mask_addr (ones : Z) (a : Addr) : Addr :=
  match a with
  | AddrZero => AddrZero
  | Addr4 v => Addr4 (mask_val 32 ones v)
  | Addr6 v z => Addr6 (mask_val 128 ones v) z
  end.

(** The address as written, and the network. *)
Definition ParseCIDR (s : string) : option (Addr * IPNet) :=
  match cut_first "/"%char s with
  | None => None
  | Some (addr, mask) =>
      match ParseAddr addr with
      | Err _ => None
      | Ok ip =>
          if negb (bool_decide (addr_zone ip = EmptyString)) then None
          else match dtoi mask with
               | None => None
               | Some n => if n <=? BitLen ip then Some (ip, MkIPNet (mask_addr n ip) n) else None
               end
      end
  end.

(** The network alone, as the callers use it. *)
Definition ParseNet (s : string) : option IPNet := option_map snd (ParseCIDR s).

Definition ParseIP (s : string) : option Addr :=
  match ParseAddr s with
  | Ok a => if bool_decide (addr_zone a = EmptyString) then Some a else None
  | Err _ => None
  end.

(** [To4() != nil] *)
Definition isTo4 (ip : Addr) : bool := Is4 (Unmap ip).

(** [networkNumberAndMask] *)
Definition net_number (n : IPNet) : Addr := Unmap (net_IP n).
Definition net_ones (n : IPNet) : Z :=
  if Is4 (net_number n) && Is6 (net_IP n) then net_Ones n - 96 else net_Ones n.

Definition IPNet_Contains (n : IPNet) (ip : Addr) : bool :=
  let nn := net_number n in
  let ip := Unmap ip in
  (BitLen ip =? BitLen nn) &&
  (mask_val (BitLen nn) (net_ones n) (addr_val nn) =? mask_val (BitLen nn) (net_ones n) (addr_val ip)).

Definition IPNet_String (n : IPNet) : string :=
  (Addr_String (net_number n) ++ "/" ++ dec_byte (net_ones n))%string.

(** [netip.Prefix.String] *)
Definition Prefix_String (p : Prefix) : string := (Addr_String (pfx_addr p) ++ "/" ++ pretty (pfx_bits p))%string.

(** ** Parsed networks *)

(** The network number is masked, in the family it is compared in. *)
Record IPNet_wf (n : IPNet) : Prop := {
  nw_valid : IsValid (net_number n) = true;
  nw_ones : 0 <= net_ones n <= BitLen (net_number n);
  nw_masked : mask_val (BitLen (net_number n)) (net_ones n) (addr_val (net_number n)) = addr_val (net_number n);
}.

(** A mask of fewer than 96 ones leaves no IPv4 address in IPv6. *)
Lemma masked_4in6 v b :
  0 <= b <= 128 -> Z.shiftr (mask_val 128 b v) 32 = 65535 -> 96 <= b.
Proof.
  intros Hb Hs. destruct (decide (96 <= b)) as [|Hlt]; [done|]. exfalso.
  assert (Hbit : Z.testbit (Z.shiftr (mask_val 128 b v) 32) 0 = true) by (by rewrite Hs).
  rewrite Z.shiftr_spec in Hbit by lia. unfold mask_val in Hbit.
  rewrite Z.shiftl_spec_low in Hbit by lia. done.
Qed.

Lemma mod_divide_pow v a b : 0 <= a <= b -> (v mod 2 ^ b) mod 2 ^ a = v mod 2 ^ a.
Proof.
  intros Hab. apply Z.mod_mod_divide.
  exists (2 ^ (b - a)). rewrite <- Z.pow_add_r by lia. f_equal. lia.
Qed.

Lemma mask_addr_wf a n : IsValid a = true -> 0 <= n <= BitLen a -> IPNet_wf (MkIPNet (mask_addr n a) n).
Proof.
  destruct a as [|v|v z]; [done| |]; intros _ Hn; cbn in Hn.
  - split; cbn; [done|lia|]. by apply mask_val_idemp.
  - unfold net_number, net_ones. cbn [net_IP mask_addr Unmap Is4In6 net_Ones].
    destruct (Z.shiftr (mask_val 128 n v) 32 =? 65535) eqn:Hs; to_prop.
    + pose proof (masked_4in6 v n Hn Hs) as H96.
      split; unfold net_ones, net_number; cbn [net_IP mask_addr Unmap Is4In6 net_Ones];
        rewrite (proj2 (Z.eqb_eq _ _) Hs); cbn [Is4 Is6 andb BitLen addr_val]; [done|lia|].
      rewrite mask_val_spec by lia. rewrite mod_divide_pow by lia.
      pose proof (mask_val_mod 128 n v Hn) as Hm. replace (32 - (n - 96)) with (128 - n) by lia. rewrite Hm. lia.
    + split; unfold net_ones, net_number; cbn [net_IP mask_addr Unmap Is4In6 net_Ones];
        rewrite (proj2 (Z.eqb_neq _ _) Hs); cbn [Is4 Is6 andb BitLen addr_val]; [done|lia|by apply mask_val_idemp].
Qed.

Lemma dtoi_nonneg s n : dtoi s = Some n -> 0 <= n.
Proof. destruct s as [|c s]; [done|]. intros H. by apply (parse_digits_nonneg (String c s) 0). Qed.

Lemma ParseNet_wf s n : ParseNet s = Some n -> IPNet_wf n.
Proof.
  unfold ParseNet, ParseCIDR. intros H. split_match_in H. to_prop.
  apply mask_addr_wf; [by eapply ParseAddr_wf|].
  match goal with H : dtoi _ = Some _ |- _ => apply dtoi_nonneg in H end. lia.
Qed.

(** ** Overlap *)

Definition cidrsOverlap (a b : IPNet) : bool :=
  IPNet_Contains a (net_IP b) || IPNet_Contains b (net_IP a).

Lemma cidrsOverlap_comm a b : cidrsOverlap a b = cidrsOverlap b a.
Proof. apply orb_comm. Qed.

Lemma IPNet_Contains_self n : IPNet_Contains n (net_IP n) = true.
Proof. unfold IPNet_Contains. fold (net_number n). by rewrite !Z.eqb_refl. Qed.

(** Masking with fewer ones absorbs masking with more. *)
Lemma mask_val_absorb w a b v : 0 <= a <= b -> b <= w -> mask_val w a (mask_val w b v) = mask_val w a v.
Proof.
  intros Hab Hw. apply mask_val_eq; [lia|].
  pose proof (mask_val_le w b v ltac:(lia)). pose proof (mask_val_mod w b v ltac:(lia)) as Hm.
  rewrite (mask_val_spec w a v), (mask_val_spec w b v) by lia.
  assert (Hle : v mod 2 ^ (w - b) <= v mod 2 ^ (w - a)).
  { rewrite <- (mod_divide_pow v (w - b) (w - a)) by lia.
    apply Z.mod_le; [apply Z.mod_pos_bound|]; lia. }
  pose proof (Z.mod_pos_bound v (2 ^ (w - a)) ltac:(lia)). pose proof (Z.mod_pos_bound v (2 ^ (w - b)) ltac:(lia)). lia.
Qed.

Lemma nested_contains a b ip :
  IPNet_wf a -> IPNet_wf b -> net_ones a <= net_ones b ->
  IPNet_Contains a ip = true -> IPNet_Contains b ip = true -> IPNet_Contains a (net_IP b) = true.
Proof.
  intros [_ Ha _] [_ Hb Hm] Hle Hca Hcb. unfold IPNet_Contains in *. fold (net_number b).
  apply andb_true_iff in Hca as [Hwa%Z.eqb_eq Hva%Z.eqb_eq].
  apply andb_true_iff in Hcb as [Hwb%Z.eqb_eq Hvb%Z.eqb_eq].
  assert (Hw : BitLen (net_number b) = BitLen (net_number a)) by congruence.
  rewrite Hw in *. rewrite Z.eqb_refl. cbn [andb]. apply Z.eqb_eq.
  rewrite <- Hm, Hvb, mask_val_absorb by lia. done.
Qed.

Lemma cidrsOverlap_iff a b :
  IPNet_wf a -> IPNet_wf b ->
  cidrsOverlap a b = true <-> exists ip, IPNet_Contains a ip = true /\ IPNet_Contains b ip = true.
Proof.
  intros Ha Hb. unfold cidrsOverlap. rewrite orb_true_iff. split.
  - intros [H|H]; [exists (net_IP b)|exists (net_IP a)]; auto using IPNet_Contains_self.
  - intros (ip & Hca & Hcb). destruct (decide (net_ones a <= net_ones b)).
    + left. by eapply nested_contains.
    + right. eapply nested_contains; [done|done|lia|done|done].
Qed.

(** Claim C26: the overlap test of the webhooks is exact.  For any two
    networks that parse, of either family and of any prefix length,
    [cidrsOverlap] holds exactly when some address lies in both. *)
Theorem cidrsOverlap_exact s t a b :
  ParseNet s = Some a -> ParseNet t = Some b ->
  cidrsOverlap a b = true <-> exists ip, IPNet_Contains a ip = true /\ IPNet_Contains b ip = true.
Proof.
  intros Ha%ParseNet_wf Hb%ParseNet_wf. by apply cidrsOverlap_iff.
Qed.

Lemma cidrsOverlap_exact_witness :
  ParseNet "10.1.0.0/16" = Some (MkIPNet (Addr4 (10 * 2 ^ 24 + 2 ^ 16)) 16) /\
  ParseNet "10.1.2.0/24" = Some (MkIPNet (Addr4 (10 * 2 ^ 24 + 2 ^ 16 + 2 ^ 9)) 24) /\
  exists ip, IPNet_Contains (MkIPNet (Addr4 (10 * 2 ^ 24 + 2 ^ 16)) 16) ip = true /\
             IPNet_Contains (MkIPNet (Addr4 (10 * 2 ^ 24 + 2 ^ 16 + 2 ^ 9)) 24) ip = true.
Proof.
  assert (H1 : ParseNet "10.1.0.0/16" = Some (MkIPNet (Addr4 (10 * 2 ^ 24 + 2 ^ 16)) 16)) by (vm_compute; reflexivity).
  assert (H2 : ParseNet "10.1.2.0/24" = Some (MkIPNet (Addr4 (10 * 2 ^ 24 + 2 ^ 16 + 2 ^ 9)) 24)) by (vm_compute; reflexivity).
  split; [exact H1|]. split; [exact H2|].
  apply (cidrsOverlap_exact "10.1.0.0/16" "10.1.2.0/24" _ _ H1 H2). vm_compute. reflexivity.
Defined.
