(* ===== verification/NetworkInterfaceReconciler.v ===== *)
(** * NetworkInterfaceReconciler: the NetworkInterface controller

    [controller/internal/controller/networkinterface_controller.go] and
    [networkinterface_elasticip.go], with the route table numbers of
    [controller/api/v1alpha1/podelasticip.go].  An interface on a Subnet or an
    L2Network gets its address from an AllocationClaim; an interface on an
    ElasticIP carries the address of the ElasticIP once the ElasticIP
    controller has named it. *)

From stdpp Require Import base gmap strings list pretty.
From Stdlib Require Import ZArith Lia.
From S2P Require Import Prelude Effects Netip IPNet Kube AllocationTypes AllocationAPI AllocationClaimReconciler.
From S2P Require Import PodNetwork ElasticIPUse ElasticIPReconciler.

Open Scope Z_scope.
Open Scope go_scope.

(** ** Constants *)

Definition conditionReasonAllocationFailed : string := "AllocationFailed".
Definition conditionReasonNetworkNotFound : string := "NetworkNotFound".
Definition conditionReasonInvalidNetworkCIDR : string := "InvalidNetworkCIDR".
Definition conditionReasonWaitingForIface : string := "WaitingForInterface".
Definition conditionReasonAllocationSucceeded : string := "AllocationSucceeded".
Definition conditionReasonSubnetExhausted : string := "SubnetExhausted".
Definition conditionReasonDeleting : string := "Deleting".
Definition conditionReasonAllocating : string := "Allocating".
Definition conditionReasonNetworkNotReady : string := "NetworkNotReady".
Definition conditionReasonWaitingForElasticIP : string := "WaitingForElasticIP".
Definition conditionReasonInvalidElasticIPAddress : string := "InvalidElasticIPAddress".
Definition networkInterfaceFinalizer : string := "networkinterface.juneau.loutres.me/allocation-claim".
Definition networkInterfaceReleaseAfter : Z := 24 * 60 * Minute.
Definition NetworkInterfaceStatusAllocated : string := "Allocated".
Definition NetworkInterfaceStatusReady : string := "Ready".
Definition requeueDelay : Z := 5 * Second.
Definition PodPrimaryInterfaceName : string := "eth0".

(** ** [podelasticip.go] *)

Definition PodElasticIPGateway : string := "169.254.0.1".
Definition PodElasticIPRulePriority : Z := 100.
Definition podReservedRouteTables : Z := 256.

(** The four bytes as a big-endian number. *)
Definition BigEndian_Uint32 (bytes : list Z) : Z := fold_left (fun acc b => acc * 256 + b) bytes 0.

Definition PodElasticIPRouteTable (address : Addr) : result goerr Z :=
  match address with
  | Addr4 v =>
      let table := BigEndian_Uint32 (As4 v) in
      if table <? podReservedRouteTables
      then Err (EText ("address " ++ Addr_String address ++ " maps to route table " ++ pretty table ++
                       ", which Linux reserves"))
      else Ok table
  | _ => Err (EText ("an ElasticIP route table needs an IPv4 address, got " ++ quoted (Addr_String address)))
  end.

(** ** Routing of a pod interface *)

Definition buildPodRoutes (ifName gateway : string) : list NetworkRoute :=
  if empty gateway || negb (String.eqb ifName PodPrimaryInterfaceName) then []
  else [MkRoute "0.0.0.0/0" gateway false 0].

Definition hostPrefix (address : Addr) : string := Prefix_String (PrefixFrom address (BitLen address)).

Definition buildElasticIPPodRouting (ifName : string) (address : Addr)
  : result goerr (list NetworkRoute * list NetworkRoutingRule) :=
  if String.eqb ifName PodPrimaryInterfaceName
  then Ok ([MkRoute "0.0.0.0/0" PodElasticIPGateway true 0], [])
  else let? table := PodElasticIPRouteTable address in
       Ok ([MkRoute "0.0.0.0/0" PodElasticIPGateway true table],
           [MkRule (hostPrefix address) table PodElasticIPRulePriority]).

(** The text of an address under the mask of a network: [IPNet.String] with
    the address that was allocated. *)
Definition addressUnderMask (ip : option Addr) (cidr : IPNet) : string :=
  match ip with
  | None => "<nil>"
  | Some ip =>
      let nn := Unmap ip in
      match Is4 (net_IP cidr), Is4 nn with
      | true, true => (Addr_String nn ++ "/" ++ dec_byte (net_Ones cidr))%string
      | true, false => "<nil>"
      | false, true => (Addr_String nn ++ "/" ++ dec_byte (Z.max 0 (net_Ones cidr - 96)))%string
      | false, false => (Addr_String nn ++ "/" ++ dec_byte (net_Ones cidr))%string
      end
  end.

(** Why an interface may not carry the address yet; empty when it may. *)
Definition elasticIPHolderWait (networkInterface : string) (ref : Reference) (binding : ElasticIPBinding)
  (natUses : list ElasticIPAttachment) : string :=
  match natUses with
  | _ :: _ =>
      (Reference_String ref ++ " is used by ElasticIPAttachment " ++ elasticIPAttachmentNames natUses ++
       "; an ElasticIP is used either for NAT or directly, so this interface takes it once the ElasticIPAttachment is gone")%string
  | [] =>
      if HeldBy binding networkInterface then ""%string else
      match b_Attachment binding with
      | None => (Reference_String ref ++ " has not picked a NetworkInterface to carry it yet")%string
      | Some (MkStatusAttachment KindElasticIPAttachment name) =>
          (Reference_String ref ++ " is used by ElasticIPAttachment " ++ quoted name)%string
      | Some (MkStatusAttachment KindNetworkInterface name) =>
          (Reference_String ref ++ " is carried by NetworkInterface " ++ quoted name ++
           "; this interface takes it over once that one is gone")%string
      end
  end.

(** ** Names *)

Definition allocationNameForNetworkInterface (n : NetworkInterface) (identity : string) : string :=
  allocationClaimName (Reference_AllocationPoolName (InterfaceReference n)) "NetworkInterface"
    (Namespace (nic_meta n)) identity "status.address".

Definition claimNameForNetworkInterface (n : NetworkInterface) : string :=
  allocationNameForNetworkInterface n (nic_name n).

Definition leaseNameForNetworkInterface (n : NetworkInterface) : string :=
  if empty (nic_AllocationIdentity (nic_spec n)) then claimNameForNetworkInterface n
  else allocationNameForNetworkInterface n
         (nic_AllocationIdentity (nic_spec n) ++ "." ++ pod_Interface (PodRef (nic_spec n))).

Definition leaseIdentityForNetworkInterface (n : NetworkInterface) : option NetworkInterfaceIdentity :=
  if empty (nic_AllocationIdentity (nic_spec n)) then None
  else Some (MkNIIdentity (Namespace (nic_meta n)) (nic_AllocationIdentity (nic_spec n))
               (pod_Interface (PodRef (nic_spec n)))).

Definition networkInterfaceClaimSpec (n : NetworkInterface) (network : Network) : AllocationClaimSpec :=
  MkClaimSpec [Network_AllocationPoolName network]
    (MkResourceRef GroupVersion "NetworkInterface" (Namespace (nic_meta n)) (nic_name n))
    "status.address" None
    (if empty (nic_RequestedAddress (nic_spec n)) then None else Some (nic_RequestedAddress (nic_spec n)))
    None (Some networkInterfaceReleaseAfter) (leaseNameForNetworkInterface n) (nic_RetainWhile (nic_spec n))
    (leaseIdentityForNetworkInterface n).

Section Reconciler.
Context `{KubeLib}.
(** The text of an error of [net/netip]. *)
Context (parse_text : parse_error -> string).

(** ** Status *)

(** Every field of the status is compared before the write. *)
Definition nic_commitStatus (resource : NetworkInterface) (status : NetworkInterfaceStatus)
  : prog eip_call (result goerr NetworkInterface) :=
  if bool_decide (nic_status resource = status) then Ret (Ok resource)
  else apiCall (updateInterfaceStatus (with_nic_status resource status)).

Definition nic_updateStatus (resource : NetworkInterface) (phase : NetworkInterfacePhase)
  (conditions : list Condition) : prog eip_call (result goerr NetworkInterface) :=
  let st := nic_status resource in
  let generation := Generation (nic_meta resource) in
  conds <- setConditions generation conditions (nic_Conditions st) ;;
  nic_commitStatus resource (MkNICStatus conds generation phase (nic_AllocationClaim st) (nic_Address st)
    (nic_Routes st) (nic_Rules st) (nic_EffectiveSecurityGroups st)).

Definition updateAllocationFailureStatus (resource : NetworkInterface) (allocatedReason allocatedMessage : string)
  : prog eip_call (result goerr NetworkInterface) :=
  nic_updateStatus resource NetworkInterfacePhaseFailed
  [condition NetworkInterfaceStatusReady ConditionFalse conditionReasonAllocationFailed "Failed to allocate IP";
    condition NetworkInterfaceStatusAllocated ConditionFalse allocatedReason allocatedMessage].

Definition updateUnaddressedStatus (resource : NetworkInterface) (reason message : string)
  : prog eip_call (result goerr NetworkInterface) :=
  let generation := Generation (nic_meta resource) in
  conds <- setConditions generation
  [condition NetworkInterfaceStatusAllocated ConditionFalse reason message;
    condition NetworkInterfaceStatusReady ConditionFalse reason message] (nic_Conditions (nic_status resource)) ;;
  nic_commitStatus resource (MkNICStatus conds generation NetworkInterfacePhasePending "" "" [] [] None).

Record interfaceAddressing := MkAddressing {
  ia_allocationClaim : string;
  ia_address : string;
  ia_routes : list NetworkRoute;
  ia_rules : list NetworkRoutingRule;
  ia_securityGroups : option (list NetworkInterfaceEffectiveSG);
  ia_message : string;
}.

Definition samePod (resource : NetworkInterface) (ref : option NetworkInterfacePodReference) : bool :=
  match ref with
  | None => false
  | Some ref =>
      let own := PodRef (nic_spec resource) in
      String.eqb (pod_Interface ref) (pod_Interface own) && String.eqb (pod_Name ref) (pod_Name own) &&
      String.eqb (pod_UID ref) (pod_UID own)
  end.

Definition updateAllocatedStatus (resource : NetworkInterface) (a : interfaceAddressing)
  : prog eip_call (result goerr NetworkInterface) :=
  let generation := Generation (nic_meta resource) in
  let allocated := condition NetworkInterfaceStatusAllocated ConditionTrue conditionReasonAllocationSucceeded
  (ia_message a) in
  conds <- setConditions generation [allocated] (nic_Conditions (nic_status resource)) ;;
  r <- call (listEndpointPods (Namespace (nic_meta resource))) ;;
  match r with
  | Err e =>
      _ <- nic_updateStatus resource NetworkInterfacePhaseAllocated
      [allocated;
        condition NetworkInterfaceStatusReady ConditionFalse conditionReasonAllocationFailed (error_text e)] ;;
      Ret (Err (EApi e))
  | Ok pods =>
      let ready := existsb (samePod resource) pods in
      conds <- setConditions generation
      [if ready then condition NetworkInterfaceStatusReady ConditionTrue conditionReasonWaitingForIface "Interface is ready"
        else condition NetworkInterfaceStatusReady ConditionFalse conditionReasonWaitingForIface "Waiting for interface"] conds ;;
      nic_commitStatus resource (MkNICStatus conds generation
        (if ready then NetworkInterfacePhaseReady else NetworkInterfacePhaseAllocated)
        (ia_allocationClaim a) (ia_address a) (ia_routes a) (ia_rules a) (ia_securityGroups a))
  end.

(** ** Interfaces on an ElasticIP *)

Definition reconcileElasticIPAddressing (resource : NetworkInterface) (network : Network) (binding : ElasticIPBinding)
  : prog eip_call (result goerr NetworkInterface) :=
  natUses <-? listActiveElasticIPAttachments (Namespace (nic_meta resource)) (nic_ElasticIP (nic_spec resource)) ;;
  let waitingFor := elasticIPHolderWait (nic_name resource) (net_Reference network) binding natUses in
  if negb (empty waitingFor)
  then updateUnaddressedStatus resource conditionReasonWaitingForElasticIP waitingFor else
  match ParseAddr (b_Address binding) with
  | Err e =>
      updateAllocationFailureStatus resource conditionReasonInvalidElasticIPAddress
      (Reference_String (net_Reference network) ++ " holds an address that does not parse: " ++ parse_text e)
  | Ok address =>
      match buildElasticIPPodRouting (pod_Interface (PodRef (nic_spec resource))) address with
      | Err e =>
          updateAllocationFailureStatus resource conditionReasonInvalidElasticIPAddress
          (Reference_String (net_Reference network) ++ ": " ++ goerr_text e)
      | Ok (routes, rules) =>
          updateAllocatedStatus resource (MkAddressing "" (hostPrefix address) routes rules None
            ("carries the address of " ++ Reference_String (net_Reference network)))
      end
  end.

(** ** Interfaces on a Subnet or an L2Network *)

Definition effectiveSecurityGroup (network : Network) (name : string) (out : list NetworkInterfaceEffectiveSG)
  : prog eip_call (result goerr (list NetworkInterfaceEffectiveSG)) :=
  r <- call (getSecurityGroup name) ;;
  match r with
  | Err NotFound => Ret (Ok out)
  | Err e => Ret (Err (EApi e))
  | Ok sg =>
      if negb (String.eqb (sg_Vpc sg) (net_Vpc network)) || (sg_GroupID sg =? 0) then Ret (Ok out)
      else Ret (Ok (out ++ [MkEffectiveSG (sg_Name sg) (sg_GroupID sg)]))
  end.

Definition resolveEffectiveSecurityGroups (resource : NetworkInterface) (network : Network)
  : prog eip_call (result goerr (option (list NetworkInterfaceEffectiveSG))) :=
  match nic_SecurityGroups (nic_spec resource) with
  | [] => Ret (Ok None)
  | names => out <-? forTryP names [] (effectiveSecurityGroup network) ;; Ret (Ok (Some out))
  end.

(** The address of the claim, or why there is none yet. *)
Definition nic_ensureClaim (resource : NetworkInterface) (network : Network)
  : prog eip_call (result goerr (string * string * string)) :=
  let claimName := claimNameForNetworkInterface resource in
  let desired := networkInterfaceClaimSpec resource network in
  r <- call (getClaim claimName) ;;
  match r with
  | Err NotFound =>
      r <- call (createClaim (MkClaim (NewMeta claimName) desired (MkClaimStatus 0 [] ClaimPhaseNone no_value))) ;;
      match r with
      | Ok _ | Err AlreadyExists =>
          Ret (Ok (""%string, conditionReasonAllocating, "AllocationClaim is being created"%string))
      | Err e => Ret (Err (EApi e))
      end
  | Err e => Ret (Err (EApi e))
  | Ok existing =>
      let sp := claim_spec existing in
      existing <-? (match AllocationTypes.NetworkInterface sp, AllocationTypes.NetworkInterface desired with
      | None, Some identity =>
          apiCall (updateClaim (MkClaim (claim_meta existing)
            (MkClaimSpec (PoolRefs sp) (ResourceRef sp) (Attribute sp) (RequestedNumber sp) (RequestedIP sp)
              (AllocationFilter sp) (ReleaseAfter sp) (ReuseKey sp) (RetainWhile sp) (Some identity))
            (claim_status existing)))
      | _, _ => Ret (Ok existing)
      end) ;;
      let st := claim_status existing in
      if bool_decide (cs_Phase st = ClaimPhaseAllocated) && negb (empty (IP (cs_Value st)))
      then Ret (Ok (IP (cs_Value st), ""%string, ""%string)) else
      match FindStatusCondition (cs_Conditions st) ReadyCondition with
      | None => Ret (Ok (""%string, conditionReasonAllocating, "AllocationClaim has no Ready condition yet"%string))
      | Some ready =>
          if String.eqb (Reason ready) allocationClaimReasonPending
          then Ret (Ok (""%string, conditionReasonSubnetExhausted, Message ready))
          else if String.eqb (Reason ready) allocationClaimReasonFailed
          then Ret (Ok (""%string, conditionReasonAllocationFailed, Message ready))
          else Ret (Ok (""%string, conditionReasonAllocating, "Waiting for AllocationClaim to be allocated"%string))
      end
  end.

(** The addressing once the claim has (or needs) no address. *)
Definition finishPoolAddressing (resource : NetworkInterface) (network : Network) (claim address message : string)
  : prog eip_call (result goerr NetworkInterface) :=
  sgs <-? resolveEffectiveSecurityGroups resource network ;;
  updateAllocatedStatus resource (MkAddressing claim address
    (buildPodRoutes (pod_Interface (PodRef (nic_spec resource))) (net_Gateway network)) [] sgs message).

Definition reconcilePoolAddressing (resource : NetworkInterface) (network : Network)
  : prog eip_call (result goerr NetworkInterface) :=
  if negb (AllocatesAddresses network)
  then finishPoolAddressing resource network "" ""
  (Reference_String (net_Reference network) ++ " hands out no address") else
  match ParseCIDR (net_CIDR network) with
  | None => updateAllocationFailureStatus resource conditionReasonInvalidNetworkCIDR
      ("invalid CIDR address: " ++ net_CIDR network)
  | Some (_, cidr) =>
      claim <-? nic_ensureClaim resource network ;;
      let '(allocated, allocReason, allocMessage) := claim in
      if empty allocated then updateAllocationFailureStatus resource allocReason allocMessage else
      let address := addressUnderMask (ParseIP allocated) cidr in
      finishPoolAddressing resource network (claimNameForNetworkInterface resource) address
      ("IP allocated successfully: " ++ address)
  end.

(** ** Reconcile *)

(** [None]: the network is not there yet. *)
Definition fetchNetwork (resource : NetworkInterface) : prog eip_call (result goerr (option Network)) :=
  r <- Resolve (InterfaceReference resource) ;;
  match r with
  | Ok network => Ret (Ok (Some network))
  | Err e =>
      if IsNotFound e then
      _ <-? nic_updateStatus resource NetworkInterfacePhasePending
      [condition NetworkInterfaceStatusReady ConditionFalse conditionReasonAllocationFailed "Failed to allocate IP";
        condition NetworkInterfaceStatusAllocated ConditionFalse conditionReasonNetworkNotFound (goerr_text e)] ;;
      Ret (Ok None)
      else
      _ <- updateAllocationFailureStatus resource conditionReasonNetworkNotFound (goerr_text e) ;;
      Ret (Err e)
  end.

Definition nic_deleteClaim (resource : NetworkInterface) : prog eip_call (result goerr unit) :=
  r <- call (getClaim (claimNameForNetworkInterface resource)) ;;
  match r with
  | Err e => if IsNotFoundApi e then Ret (Ok tt) else Ret (Err (EApi e))
  | Ok claim =>
      r <- call (deleteClaim_ claim) ;;
      match r with
      | Err e => if IsNotFoundApi e then Ret (Ok tt) else Ret (Err (EApi e))
      | Ok _ => Ret (Ok tt)
      end
  end.

Definition nic_handleDeletion (resource : NetworkInterface) : prog eip_call (result goerr unit) :=
  resource <-? nic_updateStatus resource NetworkInterfacePhasePending
  [condition NetworkInterfaceStatusReady ConditionFalse conditionReasonDeleting "NetworkInterface is being deleted";
    condition NetworkInterfaceStatusAllocated ConditionFalse conditionReasonDeleting "NetworkInterface is being deleted"] ;;
  if negb (ContainsFinalizer (Finalizers (nic_meta resource)) networkInterfaceFinalizer) then Ret (Ok tt) else
  _ <-? (if HasAllocationPool (InterfaceReference resource) then nic_deleteClaim resource else Ret (Ok tt)) ;;
  _ <-? apiCall (updateInterface (with_nic_finalizers resource
    (RemoveFinalizer (Finalizers (nic_meta resource)) networkInterfaceFinalizer))) ;;
  Ret (Ok tt).

Definition nic_reconcileLive (resource : NetworkInterface) : prog eip_call (result goerr CtrlResult) :=
  network <-? fetchNetwork resource ;;
  match network with
  | None => Ret (Ok (MkCtrlResult true 0))
  | Some network =>
      if negb (empty (WaitingFor network)) then
      _ <-? updateUnaddressedStatus resource conditionReasonNetworkNotReady (WaitingFor network) ;;
      Ret (Ok (MkCtrlResult false requeueDelay))
      else
      _ <-? (match net_ElasticIP network with
      | Some binding => reconcileElasticIPAddressing resource network binding
      | None => reconcilePoolAddressing resource network
      end) ;;
      Ret (Ok no_requeue)
  end.

Definition nic_Reconcile (ns name : string) : prog eip_call (result goerr CtrlResult) :=
  r <- call (getInterface ns name) ;;
  match r with
  | Err NotFound => Ret (Ok no_requeue)
  | Err e => Ret (Err (EApi e))
  | Ok resource =>
      if IsDeleting (nic_meta resource) then
      _ <-? nic_handleDeletion resource ;; Ret (Ok no_requeue)
      else if ContainsFinalizer (Finalizers (nic_meta resource)) networkInterfaceFinalizer
      then nic_reconcileLive resource else
      _ <-? apiCall (updateInterface (with_nic_finalizers resource
        (AddFinalizer (Finalizers (nic_meta resource)) networkInterfaceFinalizer))) ;;
      r <- call (getInterface ns name) ;;
      match r with
      | Err NotFound => Ret (Ok no_requeue)
      | Err e => Ret (Err (EApi e))
      | Ok resource => nic_reconcileLive resource
      end
  end.

(** ** Event sources *)

Definition networkInterfacesNaming (ns elasticIP : string) : prog eip_call (list (string * string)) :=
  r <- call (listInterfacesNaming ns elasticIP) ;;
  Ret (match r with Ok l => map (fun n => (Namespace (nic_meta n), nic_name n)) l | Err _ => [] end).

Definition mapElasticIPToNetworkInterfaces (e : ElasticIP) : prog eip_call (list (string * string)) :=
  networkInterfacesNaming (Namespace (eip_meta e)) (eip_name e).

Definition mapElasticIPAttachmentToNetworkInterfaces (a : ElasticIPAttachment) : prog eip_call (list (string * string)) :=
  if empty (ElasticIPRef a) then Ret []
  else networkInterfacesNaming (Namespace (eipa_meta a)) (ElasticIPRef a).

Definition mapSecurityGroupToNetworkInterfaces (sg : string) : prog eip_call (list (string * string)) :=
  r <- call listAllInterfaces ;;
  Ret (match r with
  | Ok l => map (fun n => (Namespace (nic_meta n), nic_name n))
      (List.filter (fun n => existsb (String.eqb sg) (nic_SecurityGroups (nic_spec n))) l)
  | Err _ => []
  end).

Definition mapClaimToNetworkInterface (c : AllocationClaim) : list (string * string) :=
  let ref := ResourceRef (claim_spec c) in
  if negb (String.eqb (rr_Kind ref) "NetworkInterface") || empty (rr_Name ref) then []
  else [(rr_Namespace ref, rr_Name ref)].
End Reconciler.
