(* ===== verification/ElasticIPCluster.v ===== *)
(** * ElasticIPCluster: the API server the two ElasticIP controllers share

    The stored ElasticIPs and NetworkInterfaces, what each call of the
    controllers does to them, what users and other controllers may do at any
    time, and the invariant that keeps an ElasticIP with one interface.

    The model of the server is generous.  A read may be answered from any
    earlier state, as the informer caches of the controllers do, each read
    from a different one.  A write may be applied whether or not its
    [resourceVersion] is current, and may be applied although an error is
    answered.  Objects the invariant does not depend on (claims, pools,
    advertisements, attachments) are not kept: a read of them may answer
    anything.  Every behaviour of a real API server is one of these. *)

From stdpp Require Import base gmap strings list relations.
From Stdlib Require Import ZArith Lia.
From S2P Require Import Prelude Effects Interleave Netip Kube AllocationTypes.
From S2P Require Import PodNetwork ElasticIPUse.

Open Scope Z_scope.

(** Namespace and name. *)
Abbreviation key := (string * string)%type.

(** ** State *)

Record view := MkView {
  eips : gmap key ElasticIP;
  nics : gmap key NetworkInterface;
}.

(** [past] are the earlier views, [used] the names interfaces ever had with the
    ElasticIP they named.  [picked] is a history: the ElasticIPs and the interfaces they ever named. *)
Record store := MkStore {
  cur : view;
  past : list view;
  used : gmap key string;
  picked : gset (key * string);
}.

Definition views (s : store) : list view := cur s :: past s.

Definition eip_key (e : ElasticIP) : key := (Namespace (eip_meta e), eip_name e).
Definition nic_key (n : NetworkInterface) : key := (Namespace (nic_meta n), nic_name n).

(** The interface names the ElasticIP. *)
Definition names (k : key) (n : NetworkInterface) : Prop :=
  Namespace (nic_meta n) = k.1 /\ nic_ElasticIP (nic_spec n) = k.2 /\ k.2 <> ""%string.

Definition names_interface (att : option ElasticIPStatusAttachment) (n : string) : Prop :=
  att = Some (MkStatusAttachment KindNetworkInterface n).

(** The history after an ElasticIP was written. *)
Definition record_pick (p : gset (key * string)) (e : ElasticIP) : gset (key * string) :=
  match eip_Attachment (eip_status e) with
  | Some (MkStatusAttachment KindNetworkInterface n) => {[ (eip_key e, n) ]} ∪ p
  | _ => p
  end.

Definition record_name (u : gmap key string) (n : NetworkInterface) : gmap key string :=
  match u !! nic_key n with
  | Some _ => u
  | None => <[nic_key n := nic_ElasticIP (nic_spec n)]> u
  end.

Definition put_eip (s : store) (e : ElasticIP) : store :=
  MkStore (MkView (<[eip_key e := e]> (eips (cur s))) (nics (cur s))) (views s) (used s) (record_pick (picked s) e).
Definition drop_eip (s : store) (k : key) : store :=
  MkStore (MkView (delete k (eips (cur s))) (nics (cur s))) (views s) (used s) (picked s).
Definition put_nic (s : store) (n : NetworkInterface) : store :=
  MkStore (MkView (eips (cur s)) (<[nic_key n := n]> (nics (cur s)))) (views s) (record_name (used s) n) (picked s).
Definition drop_nic (s : store) (k : key) : store :=
  MkStore (MkView (eips (cur s)) (delete k (nics (cur s)))) (views s) (used s) (picked s).

Definition initial : store := MkStore (MkView ∅ ∅) [] ∅ ∅.

(** ** Calls *)

(** A read of one object, from some view. *)
Definition read_answer {A} (m : view -> gmap key A) (k : key) (s : store) (r : result api_error A) : Prop :=
  match r with
  | Ok a => exists v, v ∈ views s /\ m v !! k = Some a
  | Err _ => True
  end.

(** A list of interfaces, from some view. *)
Definition list_answer (P : NetworkInterface -> Prop) (s : store) (r : result api_error (list NetworkInterface)) : Prop :=
  match r with
  | Ok l => exists v, v ∈ views s /\ forall n, n ∈ l <-> P n /\ nics v !! nic_key n = Some n
  | Err _ => True
  end.

(** A write: answered with the stored object, or with an error; applied in
    both cases or only in the first. *)
Definition write_answer {A} (applied : A -> store -> Prop) (s : store) (r : result api_error A) (s' : store) : Prop :=
  match r with
  | Ok a => applied a s'
  | Err _ => s' = s \/ exists a, applied a s'
  end.

(** An update of an ElasticIP keeps the stored status; the last finalizer of
    a deleted object removes it. *)
Definition updateElasticIP_applied (e : ElasticIP) (s : store) (e' : ElasticIP) (s' : store) : Prop :=
  exists old, eips (cur s) !! eip_key e = Some old /\
  eip_key e' = eip_key e /\ eip_status e' = eip_status old /\
  (s' = put_eip s e' \/ s' = drop_eip s (eip_key e)).

(** An update of the status keeps everything else. *)
Definition updateElasticIPStatus_applied (e : ElasticIP) (s : store) (e' : ElasticIP) (s' : store) : Prop :=
  exists old, eips (cur s) !! eip_key e = Some old /\
  eip_key e' = eip_key e /\ eip_spec e' = eip_spec old /\
  eip_Attachment (eip_status e') = eip_Attachment (eip_status e) /\
  eip_Address (eip_status e') = eip_Address (eip_status e) /\ s' = put_eip s e'.

Definition same_interface (n n' : NetworkInterface) : Prop :=
  nic_key n' = nic_key n /\ CreationTimestamp n' = CreationTimestamp n /\
  nic_ElasticIP (nic_spec n') = nic_ElasticIP (nic_spec n).

(** [spec.elasticIP] is immutable ([networkinterface_webhook.go]). *)
Definition updateInterface_applied (n : NetworkInterface) (s : store) (n' : NetworkInterface) (s' : store) : Prop :=
  exists old, nics (cur s) !! nic_key n = Some old /\
  same_interface old n' /\ nic_status n' = nic_status old /\
  (s' = put_nic s n' \/ s' = drop_nic s (nic_key n)).

Definition updateInterfaceStatus_applied (n : NetworkInterface) (s : store) (n' : NetworkInterface) (s' : store) : Prop :=
  exists old, nics (cur s) !! nic_key n = Some old /\
  same_interface old n' /\ nic_spec n' = nic_spec old /\
  nic_Address (nic_status n') = nic_Address (nic_status n) /\ s' = put_nic s n'.

Definition eip_server : server eip_call store :=
  fun R e => match e in eip_call R return store -> R -> store -> Prop with
  | getElasticIP ns name => fun s r s' => s' = s /\ read_answer eips (ns, name) s r
  | updateElasticIP e => fun s r s' => write_answer (updateElasticIP_applied e s) s r s'
  | updateElasticIPStatus e => fun s r s' => write_answer (updateElasticIPStatus_applied e s) s r s'
  | getInterface ns name => fun s r s' => s' = s /\ read_answer nics (ns, name) s r
  | updateInterface n => fun s r s' => write_answer (updateInterface_applied n s) s r s'
  | updateInterfaceStatus n => fun s r s' => write_answer (updateInterfaceStatus_applied n s) s r s'
  | listInterfacesNaming ns eip => fun s r s' => s' = s /\
      list_answer (fun n => Namespace (nic_meta n) = ns /\ eip ∈ elasticIPIndexKeys n) s r
  | listInterfaces ns => fun s r s' => s' = s /\ list_answer (fun n => Namespace (nic_meta n) = ns) s r
  | listAllInterfaces => fun s r s' => s' = s /\ list_answer (fun _ => True) s r
  | _ => fun s _ s' => s' = s
  end.

(** ** Everybody else *)

(** What an interface that users or the Pod controller create satisfies. *)
Definition admission := store -> NetworkInterface -> Prop.

Section Environment.
Context (admits : admission).

Inductive env_step (s : store) : store -> Prop :=
| env_eip_create e :
    eips (cur s) !! eip_key e = None -> eip_Attachment (eip_status e) = None -> env_step s (put_eip s e)
| env_eip_update e e' :
    eips (cur s) !! eip_key e = Some e -> eip_key e' = eip_key e -> eip_status e' = eip_status e ->
    env_step s (put_eip s e')
| env_eip_gone k : env_step s (drop_eip s k)
| env_nic_create n :
    nics (cur s) !! nic_key n = None -> nic_Address (nic_status n) = ""%string -> admits s n ->
    env_step s (put_nic s n)
| env_nic_update n n' :
    nics (cur s) !! nic_key n = Some n -> same_interface n n' -> nic_status n' = nic_status n ->
    env_step s (put_nic s n')
| env_nic_gone k : env_step s (drop_nic s k).
End Environment.

(** No interface had the name before. *)
Definition fresh_name : admission := fun s n => used s !! nic_key n = None.

(** The new interface is the youngest of those that name its ElasticIP. *)
Definition created_last : admission := fun s n =>
  forall m k, nics (cur s) !! nic_key m = Some m -> names k m -> names k n -> olderInterface m n = true.

(** The clock does not run backwards: what the API server ensures of
    [creationTimestamp], in seconds. *)
Definition created_later : admission := fun s n =>
  forall m, nics (cur s) !! nic_key m = Some m -> CreationTimestamp m <= CreationTimestamp n.

(** ** The invariant *)

(** [n], as long as it exists, is older than every other interface that names
    the ElasticIP. *)
Definition oldest_if (v : view) (k : key) (n : string) : Prop :=
  forall a b, nics v !! (k.1, n) = Some a -> nics v !! nic_key b = Some b -> names k a -> names k b ->
  nic_name b <> n -> olderInterface a b = true.

(** [n] exists in the view and is the oldest there. *)
Definition oldest_in (v : view) (k : key) (n : string) : Prop :=
  (exists a, nics v !! (k.1, n) = Some a /\ names k a) /\ oldest_if v k n.

Record view_ok (s : store) (v : view) : Prop := {
  vo_eip_key k e : eips v !! k = Some e -> eip_key e = k;
  vo_nic_key k n : nics v !! k = Some n -> nic_key n = k;
  vo_used k n : nics v !! k = Some n -> used s !! k = Some (nic_ElasticIP (nic_spec n));
  (** An interface a status names was picked. *)
  vo_named k e n : eips v !! k = Some e -> names_interface (eip_Attachment (eip_status e)) n -> (k, n) ∈ picked s;
  (** An interface that carries the address was picked. *)
  vo_carrier n k : nics v !! nic_key n = Some n -> names k n ->
    nic_Address (nic_status n) <> ""%string -> (k, nic_name n) ∈ picked s;
  (** The oldest interface stays the oldest until it is gone. *)
  vo_oldest k n : oldest_in v k n -> oldest_if (cur s) k n;
}.

Record Inv (s : store) : Prop := {
  inv_views v : v ∈ views s -> view_ok s v;
  inv_picked k n : (k, n) ∈ picked s -> is_Some (used s !! (k.1, n));
  (** A picked interface, as long as it exists, is the oldest. *)
  inv_oldest k n : (k, n) ∈ picked s -> oldest_if (cur s) k n;
}.

(** ** The steps the controllers rely on *)

(** An ElasticIP may name an interface it named before, or one that is the
    oldest as long as it exists. *)
Definition may_name (s : store) (k : key) (n : string) : Prop :=
  is_Some (used s !! (k.1, n)) /\ ((k, n) ∈ picked s \/ oldest_if (cur s) k n).

(** An interface may carry an address when it carries none, names no
    ElasticIP, or was picked. *)
Definition may_carry (s : store) (n : NetworkInterface) : Prop :=
  nic_Address (nic_status n) = ""%string \/ nic_ElasticIP (nic_spec n) = ""%string \/
  ((Namespace (nic_meta n), nic_ElasticIP (nic_spec n)), nic_name n) ∈ picked s.

Inductive rely (s : store) : store -> Prop :=
| rely_put_eip e :
    (forall n, names_interface (eip_Attachment (eip_status e)) n -> may_name s (eip_key e) n) ->
    rely s (put_eip s e)
| rely_drop_eip k : rely s (drop_eip s k)
| rely_new_nic n :
    fresh_name s n -> created_last s n -> nic_Address (nic_status n) = ""%string -> rely s (put_nic s n)
| rely_put_nic n n' :
    nics (cur s) !! nic_key n = Some n -> same_interface n n' -> may_carry s n' -> rely s (put_nic s n')
| rely_drop_nic k : rely s (drop_nic s k).

(** ** The steps keep the invariant *)

Lemma record_pick_subset p e : p ⊆ record_pick p e.
Proof. unfold record_pick. destruct (eip_Attachment (eip_status e)) as [[[] n]|]; set_solver. Qed.

Lemma record_pick_elem p e k n :
  (k, n) ∈ record_pick p e ->
  (k, n) ∈ p \/ k = eip_key e /\ names_interface (eip_Attachment (eip_status e)) n.
Proof.
  unfold record_pick, names_interface. destruct (eip_Attachment (eip_status e)) as [[[] m]|]; [by left| |by left].
  rewrite elem_of_union, elem_of_singleton. intros [[= -> ->]|?]; [by right|by left].
Qed.

Lemma record_pick_named p e n :
  names_interface (eip_Attachment (eip_status e)) n -> (eip_key e, n) ∈ record_pick p e.
Proof. unfold record_pick, names_interface. intros ->. set_solver. Qed.

Lemma rely_grows s s' :
  rely s s' -> views s ⊆ views s' /\ used s ⊆ used s' /\ picked s ⊆ picked s'.
Proof.
  assert (Hn : forall u n, u ⊆ record_name u n).
  { intros u n. unfold record_name. destruct (u !! nic_key n) eqn:Hu; [done|]. by apply insert_subseteq. }
  intros [e _|k|n _ _ _|n n' _ _ _|k]; unfold views; simpl; (split_and!; [set_solver|done || apply Hn|]);
    try done. apply record_pick_subset.
Qed.

Lemma rtc_rely_grows s s' :
  rtc rely s s' -> views s ⊆ views s' /\ used s ⊆ used s' /\ picked s ⊆ picked s'.
Proof.
  induction 1 as [s|s s1 s2 H1 _ (IHv & IHu & IHp)]; [done|].
  destruct (rely_grows _ _ H1) as (? & ? & ?). split_and!; [set_solver|by etransitivity|set_solver].
Qed.

Lemma same_interface_refl n : same_interface n n.
Proof. done. Qed.

Lemma same_interface_names n n' k : same_interface n n' -> names k n' -> names k n.
Proof. unfold same_interface, names, nic_key. intros ([= Hns Hn] & _ & He). by rewrite Hns, He. Qed.

Lemma same_interface_older a a' b b' :
  same_interface a a' -> same_interface b b' -> olderInterface a b = olderInterface a' b'.
Proof.
  unfold same_interface, nic_key, olderInterface. intros ([= _ Hna] & Hta & _) ([= _ Hnb] & Htb & _).
  by rewrite Hna, Hta, Hnb, Htb.
Qed.

(** Every interface of the later view is one of the earlier view. *)
Definition sub_view (v v' : view) : Prop :=
  forall k a', nics v' !! k = Some a' -> exists a, nics v !! k = Some a /\ same_interface a a'.

Lemma oldest_if_sub v v' k n : sub_view v v' -> oldest_if v k n -> oldest_if v' k n.
Proof.
  intros Hsub Hold a' b' Ha Hb Hka Hkb Hne.
  destruct (Hsub _ _ Ha) as (a & Ha0 & Hsa). destruct (Hsub _ _ Hb) as (b & Hb0 & Hsb).
  rewrite <- (same_interface_older a a' b b') by done.
  assert (Hkey : nic_key b' = nic_key b) by apply Hsb.
  apply (Hold a b); [done|by rewrite <- Hkey|by eapply same_interface_names|by eapply same_interface_names|].
  injection Hkey as _ Hn. by rewrite <- Hn.
Qed.

Lemma sub_view_put s n n' :
  nics (cur s) !! nic_key n = Some n -> same_interface n n' -> sub_view (cur s) (cur (put_nic s n')).
Proof.
  intros Hn Hsame k a'. simpl. destruct (decide (nic_key n' = k)) as [<-|Hne].
  - rewrite lookup_insert_eq. intros [= <-]. exists n. split; [|done]. by rewrite (proj1 Hsame).
  - rewrite lookup_insert_ne by done. intros ?. by exists a'.
Qed.

Lemma sub_view_drop s k : sub_view (cur s) (cur (drop_nic s k)).
Proof.
  intros x a'. simpl. rewrite lookup_delete_Some. intros [_ ?]. by exists a'.
Qed.

(** An interface that is the oldest stays the oldest. *)
Lemma oldest_if_stable s s' k n :
  rely s s' -> (forall x a, nics (cur s) !! x = Some a -> nic_key a = x) ->
  is_Some (used s !! (k.1, n)) -> oldest_if (cur s) k n -> oldest_if (cur s') k n.
Proof.
  intros Hr Hkeys Hu Hold. destruct Hr as [e _|x|m Hfresh Hlast _|m m' Hm Hsame _|x]; [done|done| | |].
  - intros a b Ha Hb Hka Hkb Hne. simpl in *. unfold fresh_name in Hfresh.
    destruct (decide (nic_key m = (k.1, n))) as [Heq|Hne1]; [by rewrite Heq in Hfresh; destruct Hu as [? Hu]; rewrite Hfresh in Hu|].
    rewrite lookup_insert_ne in Ha by done.
    destruct (decide (nic_key m = nic_key b)) as [Heq|Hne2].
    + rewrite Heq, lookup_insert_eq in Hb. injection Hb as ->. apply (Hlast a k); [|done|done].
      by rewrite (Hkeys _ _ Ha).
    + rewrite lookup_insert_ne in Hb by done. by apply (Hold a b).
  - eapply oldest_if_sub; [by eapply sub_view_put|done].
  - eapply oldest_if_sub; [apply sub_view_drop|done].
Qed.

Lemma inv_cur s : Inv s -> view_ok s (cur s).
Proof. intros HI. apply inv_views; [done|]. unfold views. constructor. Qed.

(** An interface that may be named is the oldest as long as it exists. *)
Lemma may_name_oldest s k n : Inv s -> may_name s k n -> oldest_if (cur s) k n.
Proof. intros HI [_ [Hp|Ho]]; [|done]. by eapply inv_oldest. Qed.

Lemma oldest_if_step s s' k n :
  rely s s' -> Inv s -> is_Some (used s !! (k.1, n)) -> oldest_if (cur s) k n -> oldest_if (cur s') k n.
Proof. intros Hr HI. apply oldest_if_stable; [done|]. apply (inv_cur _ HI). Qed.

Lemma view_ok_old s s' v : rely s s' -> Inv s -> v ∈ views s -> view_ok s' v.
Proof.
  intros Hr HI Hv. destruct (rely_grows _ _ Hr) as (_ & Hu & Hp). destruct (inv_views _ HI v Hv) as [H1 H2 H3 H4 H5 H6].
  split; [done|done|intros; eapply lookup_weaken; [by apply H3|done]|eauto|eauto|].
  intros k n Ho. eapply oldest_if_step; [done|done| |by apply H6].
  destruct Ho as [(a & Ha & _) _]. eexists. by eapply H3.
Qed.

(** The current interfaces after a step that only touches ElasticIPs. *)
Lemma view_ok_same_nics s s' :
  rely s s' -> Inv s -> nics (cur s') = nics (cur s) ->
  (forall k e, eips (cur s') !! k = Some e -> eip_key e = k /\
    forall n, names_interface (eip_Attachment (eip_status e)) n -> (k, n) ∈ picked s') ->
  view_ok s' (cur s').
Proof.
  intros Hr HI Hn He. destruct (rely_grows _ _ Hr) as (_ & Hu & Hp). destruct (inv_cur _ HI) as [H1 H2 H3 H4 H5 H6].
  split; rewrite ?Hn; [intros; by apply He|done|intros; eapply lookup_weaken; [by apply H3|done]|intros k e n Hk; by apply He|eauto|].
  intros k n [_ Ho]. done.
Qed.

Lemma view_ok_put_eip s e :
  Inv s -> (forall n, names_interface (eip_Attachment (eip_status e)) n -> may_name s (eip_key e) n) ->
  view_ok (put_eip s e) (cur (put_eip s e)).
Proof.
  intros HI He. apply (view_ok_same_nics s); [by constructor|done|done|]. simpl. intros k x.
  destruct (inv_cur _ HI) as [H1 _ _ H4 _ _].
  destruct (decide (eip_key e = k)) as [<-|Hne].
  - rewrite lookup_insert_eq. intros [= <-]. split; [done|]. intros n. apply record_pick_named.
  - rewrite lookup_insert_ne by done. intros Hx. split; [by apply H1|]. intros n Hn.
    apply record_pick_subset. by eapply H4.
Qed.

Lemma view_ok_drop_eip s k : Inv s -> view_ok (drop_eip s k) (cur (drop_eip s k)).
Proof.
  intros HI. apply (view_ok_same_nics s); [constructor|done|done|]. simpl. intros x e.
  destruct (inv_cur _ HI) as [H1 _ _ H4 _ _]. rewrite lookup_delete_Some. intros [_ Hx].
  split; [by apply H1|]. intros n. by apply H4.
Qed.

(** After an interface was written. *)
Lemma view_ok_put_nic s n :
  Inv s -> may_carry s n -> (forall x, used s !! nic_key n = Some x -> x = nic_ElasticIP (nic_spec n)) ->
  view_ok (put_nic s n) (cur (put_nic s n)).
Proof.
  intros HI Hc Hname. destruct (inv_cur _ HI) as [H1 H2 H3 H4 H5 _].
  split; simpl; [done| | |done| |by intros k m [_ ?]].
  - intros k m. destruct (decide (nic_key n = k)) as [<-|Hne].
    + rewrite lookup_insert_eq. by intros [= <-].
    + rewrite lookup_insert_ne by done. apply H2.
  - intros k m. unfold record_name. destruct (decide (nic_key n = k)) as [<-|Hne].
    + rewrite lookup_insert_eq. intros [= <-]. destruct (used s !! nic_key n) as [x|] eqn:Hx; [|by rewrite lookup_insert_eq].
      rewrite Hx. f_equal. by apply Hname.
    + rewrite lookup_insert_ne by done. intros Hm%H3. destruct (used s !! nic_key n); [done|].
      by rewrite lookup_insert_ne.
  - intros m k. destruct (decide (nic_key n = nic_key m)) as [Heq|Hne].
    + rewrite Heq, lookup_insert_eq. intros [= <-] (Hns & He & Hk) Ha.
      destruct Hc as [?|[?|Hp]]; [done|congruence|]. rewrite Hns, He in Hp. by destruct k.
    + rewrite lookup_insert_ne by done. apply H5.
Qed.

Lemma view_ok_drop_nic s k : Inv s -> view_ok (drop_nic s k) (cur (drop_nic s k)).
Proof.
  intros HI. destruct (inv_cur _ HI) as [H1 H2 H3 H4 H5 _].
  split; simpl; [done| | |done| |by intros x m [_ ?]].
  - intros x m. rewrite lookup_delete_Some. intros [_ ?]. by apply H2.
  - intros x m. rewrite lookup_delete_Some. intros [_ ?]. by eapply H3.
  - intros m x. rewrite lookup_delete_Some. intros [_ ?]. by apply H5.
Qed.

Lemma view_ok_new s s' : rely s s' -> Inv s -> view_ok s' (cur s').
Proof.
  intros Hr HI. inversion Hr as [e He|k|n Hf Hl Ha|n n' Hn Hs Hc|k]; subst.
  - by apply view_ok_put_eip.
  - by apply view_ok_drop_eip.
  - apply view_ok_put_nic; [done|by left|]. unfold fresh_name in Hf. by rewrite Hf.
  - apply view_ok_put_nic; [done|done|]. destruct Hs as (Hk & _ & ->). rewrite Hk.
    rewrite (vo_used _ _ (inv_cur _ HI) _ _ Hn). by intros x [= <-].
  - by apply view_ok_drop_nic.
Qed.

(** Every step keeps the invariant. *)
Lemma rely_inv s s' : rely s s' -> Inv s -> Inv s'.
Proof.
  intros Hr HI. destruct (rely_grows _ _ Hr) as (_ & Hu & _).
  assert (Hnew : forall k n, (k, n) ∈ picked s' ->
    is_Some (used s !! (k.1, n)) /\ oldest_if (cur s) k n).
  { intros k n Hp. assert (Hold : (k, n) ∈ picked s -> is_Some (used s !! (k.1, n)) /\ oldest_if (cur s) k n)
      by (intros; split; [by apply inv_picked|by apply inv_oldest]).
    destruct Hr as [e He|x|m _ _ _|m m' _ _ _|x]; simpl in Hp; auto.
    apply record_pick_elem in Hp as [?|[-> Hn]]; [auto|]. pose proof (He n Hn) as Hm.
    split; [apply Hm|by apply may_name_oldest]. }
  split.
  - intros v Hv. assert (Hc : v = cur s' \/ v ∈ views s).
    { destruct Hr; unfold views in *; simpl in Hv; set_solver. }
    destruct Hc as [->|Hc]; [by apply (view_ok_new s)|by apply (view_ok_old s)].
  - intros k n Hp. destruct (Hnew k n Hp) as [[x Hx] _]. exists x. by eapply lookup_weaken.
  - intros k n Hp. destruct (Hnew k n Hp). by apply (oldest_if_step s).
Qed.

Lemma initial_inv : Inv initial.
Proof.
  split.
  - intros v [->|Hv]%elem_of_cons; [|by apply elem_of_nil in Hv].
    split; intros *; simpl; rewrite ?lookup_empty; try done.
  - intros k n. simpl. set_solver.
  - intros k n. simpl. set_solver.
Qed.

(** Others, as long as new interfaces have fresh names and are the youngest. *)
Lemma env_rely s s' :
  Inv s -> env_step (fun s n => fresh_name s n /\ created_last s n) s s' -> rely s s'.
Proof.
  intros HI Henv. destruct (inv_cur _ HI) as [H1 H2 H3 H4 H5 _].
  destruct Henv as [e _ Ha|e e' He Hk Hs|k|n Hn Ha [Hf Hl]|n n' Hn Hs Hst|k]; try by constructor.
  - apply rely_put_eip. intros n Hn. by rewrite Ha in Hn.
  - apply rely_put_eip. rewrite Hs, Hk. intros n Hn.
    assert (Hp : (eip_key e, n) ∈ picked s) by (by eapply H4). split; [by apply inv_picked|by left].
  - eapply rely_put_nic; [done|done|].
    destruct Hs as (Hkey & _ & He). injection Hkey as Hns Hname. unfold may_carry. rewrite Hst, He, Hns, Hname.
    destruct (decide (nic_Address (nic_status n) = ""%string)) as [|Ha]; [by left|right].
    destruct (decide (nic_ElasticIP (nic_spec n) = ""%string)) as [|Hne]; [by left|right].
    by apply (H5 n (Namespace (nic_meta n), nic_ElasticIP (nic_spec n))).
Qed.

(** ** What the invariant gives *)

(** Two interfaces never carry the address of one ElasticIP. *)
Lemma inv_exclusive s k a b :
  Inv s -> nics (cur s) !! nic_key a = Some a -> nics (cur s) !! nic_key b = Some b ->
  names k a -> names k b ->
  nic_Address (nic_status a) <> ""%string -> nic_Address (nic_status b) <> ""%string ->
  nic_name a = nic_name b.
Proof.
  intros HI Ha Hb Hka Hkb Haa Hba. destruct (inv_cur _ HI) as [_ _ _ _ H5 _].
  destruct (decide (nic_name a = nic_name b)) as [|Hne]; [done|exfalso].
  pose proof (inv_oldest _ HI _ _ (H5 _ _ Ha Hka Haa)) as Hoa.
  pose proof (inv_oldest _ HI _ _ (H5 _ _ Hb Hkb Hba)) as Hob.
  assert (Hkeya : nic_key a = (k.1, nic_name a)) by (unfold nic_key; by destruct Hka as [-> _]).
  assert (Hkeyb : nic_key b = (k.1, nic_name b)) by (unfold nic_key; by destruct Hkb as [-> _]).
  eapply (olderInterface_asym a b); [apply (Hoa a b)|apply (Hob b a)]; try done; try congruence;
    rewrite <- ?Hkeya, <- ?Hkeyb; done.
Qed.
