(* ===== verification/ElasticIPSafety.v ===== *)
(** * ElasticIPSafety: at most one interface carries an ElasticIP

    Both controllers keep the promise [rely] of [ElasticIPCluster], so any
    number of their operations, interleaved call by call with each other and
    with users, reading from caches that lag behind, never give the address of
    one ElasticIP to two interfaces.  The two assumptions on new interfaces,
    that their names are fresh and that they are the youngest, are needed:
    [same_second_overlap] is an execution without the second one. *)

From stdpp Require Import base gmap strings list relations.
From Stdlib Require Import ZArith Lia.
From S2P Require Import Prelude Effects Interleave Netip IPNet Kube AllocationTypes AllocationAPI AllocationClaimReconciler.
From S2P Require Import PodNetwork ElasticIPUse ElasticIPReconciler NetworkInterfaceReconciler ElasticIPCluster.

Open Scope Z_scope.

Abbreviation promise := (rg eip_server rely).
Abbreviation done_ := (fun _ _ => True).

(** Calls that leave the store alone. *)
Definition inert R (e : eip_call R) : Prop := forall s r s', eip_server R e s r s' -> s' = s.

(** A goal [only inert p], for the parts that only read or write other
    objects. *)
Ltac inert_tac :=
  repeat first
    [ apply only_tryP; [|intros]
    | apply only_bind; [|intros]
    | apply only_forP; intros | apply only_forTryP; intros
    | progress simpl
    | match goal with
      | |- _ /\ _ => split
      | |- True => exact I
      | |- forall _, _ => intro
      | |- inert _ _ => (intros ? ? ? ?; simpl in *; tauto) || (intros ? ? ? [? _]; done)
      | |- only _ (match ?x with _ => _ end) => destruct x
      | |- only _ (if ?x then _ else _) => destruct x
      end ].

(** Sequence an operation whose result carries no knowledge. *)
Ltac after_inert lem := apply rg_bind; eapply rg_mono; [apply rg_inert; apply lem|].

(** ** Knowledge that lasts *)

Lemma Inv_rtc s s' : rtc rely s s' -> Inv s -> Inv s'.
Proof. induction 1; eauto using rely_inv. Qed.

Lemma may_name_step s s' k n : Inv s -> rely s s' -> may_name s k n -> may_name s' k n.
Proof.
  intros HI Hr [Hu Hn]. destruct (rely_grows _ _ Hr) as (_ & Hus & Hps).
  split; [destruct Hu as [x Hx]; exists x; by eapply lookup_weaken|].
  destruct Hn as [?|?]; [left; by apply Hps|right; by apply (oldest_if_step s)].
Qed.

Lemma may_name_stable s s' k n : Inv s -> rtc rely s s' -> may_name s k n -> may_name s' k n.
Proof.
  intros HI Hr. induction Hr as [|s s1 s2 H1 Hr IH]; [done|]. intros Hm.
  apply IH; [by eapply rely_inv|]. by eapply may_name_step.
Qed.

Lemma may_carry_stable s s' n : rtc rely s s' -> may_carry s n -> may_carry s' n.
Proof.
  intros Hr [?|[?|?]]; [by left|by right; left|]. right; right. by apply (rtc_rely_grows _ _ Hr).
Qed.

(** What a read of an ElasticIP tells: the interface it names may be named. *)
Definition eip_known (s : store) (e : ElasticIP) : Prop :=
  forall n, names_interface (eip_Attachment (eip_status e)) n -> may_name s (eip_key e) n /\ (eip_key e, n) ∈ picked s.

Lemma eip_known_stable s s' e : Inv s -> rtc rely s s' -> eip_known s e -> eip_known s' e.
Proof.
  intros HI Hr He n Hn. destruct (He n Hn) as [Hm Hp]. split; [by eapply may_name_stable|].
  by apply (rtc_rely_grows _ _ Hr).
Qed.

Lemma view_eip_known s v k e : Inv s -> v ∈ views s -> eips v !! k = Some e -> eip_key e = k /\ eip_known s e.
Proof.
  intros HI Hv He. destruct (inv_views _ HI v Hv) as [H1 _ _ H4 _ _].
  pose proof (H1 _ _ He) as Hk. split; [done|]. intros n Hn. rewrite Hk.
  assert (Hp : (k, n) ∈ picked s) by (by eapply H4). split; [|done]. split; [by apply inv_picked|by left].
Qed.

(** What a read of an interface tells: it may carry what it carries, and the
    name of its ElasticIP. *)
Definition nic_known (s : store) (n : NetworkInterface) : Prop :=
  may_carry s n /\ used s !! nic_key n = Some (nic_ElasticIP (nic_spec n)).

Lemma nic_known_stable s s' n : rtc rely s s' -> nic_known s n -> nic_known s' n.
Proof.
  intros Hr [Hc Hu]. split; [by eapply may_carry_stable|]. eapply lookup_weaken; [done|].
  by apply (rtc_rely_grows _ _ Hr).
Qed.

Lemma view_nic_known s v k n : Inv s -> v ∈ views s -> nics v !! k = Some n -> nic_key n = k /\ nic_known s n.
Proof.
  intros HI Hv Hn. destruct (inv_views _ HI v Hv) as [_ H2 H3 _ H5 _].
  pose proof (H2 _ _ Hn) as Hk. subst k. split; [done|]. split; [|by apply H3]. unfold may_carry.
  destruct (decide (nic_Address (nic_status n) = ""%string)) as [|Ha]; [by left|right].
  destruct (decide (nic_ElasticIP (nic_spec n) = ""%string)) as [|Hne]; [by left|right].
  by apply (H5 n (Namespace (nic_meta n), nic_ElasticIP (nic_spec n))).
Qed.

(** The oldest interface of a list may be named. *)
Lemma elected_may_name s (k : key) previous l n :
  Inv s ->
  list_answer (fun m => Namespace (nic_meta m) = k.1 /\ k.2 ∈ elasticIPIndexKeys m) s (Ok l) ->
  elected previous l n -> may_name s k (nic_name n).
Proof.
  intros HI (v & Hv & Hl) (Hin & _ & Hold). destruct (inv_views _ HI v Hv) as [_ _ H3 _ _ H6].
  assert (Hnames : forall m, m ∈ l <-> names k m /\ nics v !! nic_key m = Some m).
  { intros m. rewrite Hl. unfold names, elasticIPIndexKeys, empty.
    destruct (String.eqb_spec (nic_ElasticIP (nic_spec m)) "") as [He|He].
    - rewrite He, elem_of_nil. split; [tauto|]. intros [(_ & Hc & Hne) _]. by rewrite <- Hc in Hne.
    - rewrite list_elem_of_singleton. split.
      + intros [[Hns Hke] Hvm]. split_and!; [done|done|by rewrite Hke|done].
      + intros [(Hns & Hke & _) Hvm]. by split_and!. }
  destruct (proj1 (Hnames n) Hin) as [Hkn Hv0].
  assert (Hkey : nic_key n = (k.1, nic_name n)) by (unfold nic_key; by destruct Hkn as [-> _]).
  rewrite Hkey in Hv0. split; [eexists; by eapply H3|]. right. apply H6. split; [by exists n|].
  intros a b Ha Hb Hka Hkb Hne. rewrite Hv0 in Ha. injection Ha as <-.
  assert (Hbl : b ∈ l) by (by apply Hnames). destruct (Hold b Hbl) as [_ Hb0].
  destruct (olderInterface_total n b) as [?|Ho]; [congruence|done|]. by rewrite Hb0 in Ho.
Qed.

(** ** Calls *)

Lemma promise_getElasticIP s ns name (Q : result api_error ElasticIP -> store -> Prop) :
  Inv s ->
  (forall r s', Inv s' -> match r with Ok e => eip_key e = (ns, name) /\ eip_known s' e | Err _ => True end -> Q r s') ->
  promise (call (getElasticIP ns name)) Q s.
Proof.
  intros HI HQ. apply rg_call. simpl. intros s1 r s2 H1 [-> Hr]. split; [done|]. intros s3 H3.
  assert (HI1 : Inv s1) by (by eapply Inv_rtc). apply HQ; [by eapply Inv_rtc|].
  destruct r as [e|]; [|done]. destruct Hr as (v & Hv & He).
  destruct (view_eip_known s1 v _ e HI1 Hv He). split; [done|]. by eapply eip_known_stable.
Qed.

Lemma promise_getInterface s ns name (Q : result api_error NetworkInterface -> store -> Prop) :
  Inv s ->
  (forall r s', Inv s' -> match r with Ok n => nic_key n = (ns, name) /\ nic_known s' n | Err _ => True end -> Q r s') ->
  promise (call (getInterface ns name)) Q s.
Proof.
  intros HI HQ. apply rg_call. simpl. intros s1 r s2 H1 [-> Hr]. split; [done|]. intros s3 H3.
  assert (HI1 : Inv s1) by (by eapply Inv_rtc). apply HQ; [by eapply Inv_rtc|].
  destruct r as [n|]; [|done]. destruct Hr as (v & Hv & Hn).
  destruct (view_nic_known s1 v _ n HI1 Hv Hn). split; [done|]. by eapply nic_known_stable.
Qed.

(** After the list of the interfaces that name an ElasticIP, the oldest one
    may be named. *)
Lemma promise_listNamingInterfaces s resource (Q : result goerr (list NetworkInterface) -> store -> Prop) :
  Inv s ->
  (forall r s', Inv s' -> rtc rely s s' ->
    match r with
    | Ok l => forall previous n, elected previous l n -> may_name s' (eip_key resource) (nic_name n)
    | Err _ => True
    end -> Q r s') ->
  promise (listNamingInterfaces resource) Q s.
Proof.
  intros HI HQ. unfold listNamingInterfaces, apiCall. apply rg_bind, rg_bind, rg_call. simpl.
  intros s1 r s2 H1 [-> Hr]. split; [done|]. intros s3 H3.
  assert (HI1 : Inv s1) by (by eapply Inv_rtc).
  destruct r as [l|e]; intros s4 H4 s5 H5; apply HQ; try done.
  1, 4: eapply Inv_rtc; [|exact HI1]; by transitivity s3; [|transitivity s4].
  1, 3: transitivity s1; [done|]; by transitivity s3; [|transitivity s4].
  intros previous n Hel. eapply may_name_stable; [exact HI1|by transitivity s3; [|transitivity s4]|].
  by eapply (elected_may_name s1 (eip_key resource)).
Qed.

Lemma promise_updateElasticIP s e : Inv s -> promise (call (updateElasticIP e)) done_ s.
Proof.
  intros HI. apply rg_call. simpl. intros s1 r s2 H1 Hw. split; [|done].
  assert (HI1 : Inv s1) by (by eapply Inv_rtc).
  assert (Hap : forall e', updateElasticIP_applied e s1 e' s2 -> rtc rely s1 s2).
  { intros e' (old & Hold & Hk & Hst & [->| ->]); apply rtc_once; [|constructor].
    constructor. rewrite Hst, Hk. intros n Hn.
    destruct (view_eip_known s1 (cur s1) (eip_key e) old HI1 ltac:(constructor) Hold) as [Hkey Hkn].
    rewrite <- Hkey. by apply Hkn. }
  destruct r as [e'|]; [by eapply Hap|]. destruct Hw as [->|[e' Hw]]; [done|by eapply Hap].
Qed.

Lemma promise_updateElasticIPStatus s e :
  Inv s -> (forall n, names_interface (eip_Attachment (eip_status e)) n -> may_name s (eip_key e) n) ->
  promise (call (updateElasticIPStatus e)) done_ s.
Proof.
  intros HI He. apply rg_call. simpl. intros s1 r s2 H1 Hw. split; [|done].
  assert (Hap : forall e', updateElasticIPStatus_applied e s1 e' s2 -> rtc rely s1 s2).
  { intros e' (old & _ & Hk & _ & Hatt & _ & ->). apply rtc_once. constructor. rewrite Hatt, Hk. intros n Hn.
    eapply may_name_stable; [done|done|by apply He]. }
  destruct r as [e'|]; [by eapply Hap|]. destruct Hw as [->|[e' Hw]]; [done|by eapply Hap].
Qed.

Lemma promise_updateInterface s n (Q : result api_error NetworkInterface -> store -> Prop) :
  Inv s -> (forall r s', Inv s' -> Q r s') -> promise (call (updateInterface n)) Q s.
Proof.
  intros HI HQ. apply rg_call. simpl. intros s1 r s2 H1 Hw.
  assert (HI1 : Inv s1) by (by eapply Inv_rtc).
  assert (Hap : forall n', updateInterface_applied n s1 n' s2 -> rtc rely s1 s2).
  { intros n' (old & Hold & Hsame & Hst & [->| ->]); apply rtc_once; [|constructor].
    destruct (view_nic_known s1 (cur s1) _ old HI1 ltac:(constructor) Hold) as [Hkey [Hc _]].
    eapply rely_put_nic; [by rewrite Hkey|done|]. unfold may_carry in *. rewrite Hst.
    destruct Hsame as (Hk' & _ & He'). injection Hk' as Hns Hn. by rewrite Hns, Hn, He'. }
  assert (Hr : rtc rely s1 s2).
  { destruct r as [n'|]; [by eapply Hap|]. destruct Hw as [->|[n' Hw]]; [done|by eapply Hap]. }
  split; [done|]. intros s3 H3. apply HQ. eapply Inv_rtc; [exact H3|]. by eapply Inv_rtc.
Qed.

(** An interface may be given an address it may carry. *)
Lemma promise_updateInterfaceStatus s n (Q : result api_error NetworkInterface -> store -> Prop) :
  Inv s -> nic_known s n -> (forall r s', Inv s' -> Q r s') -> promise (call (updateInterfaceStatus n)) Q s.
Proof.
  intros HI Hn HQ. apply rg_call. simpl. intros s1 r s2 H1 Hw.
  assert (HI1 : Inv s1) by (by eapply Inv_rtc).
  destruct (nic_known_stable _ _ _ H1 Hn) as [Hc Hu].
  assert (Hap : forall n', updateInterfaceStatus_applied n s1 n' s2 -> rtc rely s1 s2).
  { intros n' (old & Hold & Hsame & _ & Haddr & ->). apply rtc_once.
    destruct (view_nic_known s1 (cur s1) _ old HI1 ltac:(constructor) Hold) as [Hkey [_ Hu']].
    rewrite Hkey, Hu in Hu'. injection Hu' as Hel.
    eapply rely_put_nic; [by rewrite Hkey|done|]. destruct Hsame as (Hk' & _ & He').
    rewrite Hkey in Hk'. injection Hk' as Hns Hnn. unfold may_carry in *. by rewrite Haddr, He', <- Hel, Hns, Hnn. }
  assert (Hr : rtc rely s1 s2).
  { destruct r as [n'|]; [by eapply Hap|]. destruct Hw as [->|[n' Hw]]; [done|by eapply Hap]. }
  split; [done|]. intros s3 H3. apply HQ. eapply Inv_rtc; [exact H3|]. by eapply Inv_rtc.
Qed.

(** ** The ElasticIP controller *)

Lemma promise_try {A B} (p : prog eip_call (result goerr A)) (k : A -> prog eip_call (result goerr B)) s :
  promise p (fun r s' => match r with Ok a => promise (k a) done_ s' | Err _ => True end) s ->
  promise (tryP p k) done_ s.
Proof. intros Hp. by apply rg_tryP. Qed.

(** Continue after an operation that changes nothing. *)
Lemma promise_inert {A B} (p : prog eip_call A) (k : A -> prog eip_call B) Q s :
  Inv s -> only inert p -> (forall a s', rtc rely s s' -> Inv s' -> promise (k a) Q s') ->
  promise (bind p k) Q s.
Proof.
  intros HI Hp Hk. apply rg_bind. eapply rg_mono; [by apply rg_inert|].
  intros a s' Hr _. apply Hk; [done|]. by eapply Inv_rtc.
Qed.

Lemma promise_try_inert {A B} (p : prog eip_call (result goerr A)) (k : A -> prog eip_call (result goerr B)) s :
  Inv s -> only inert p -> (forall a s', rtc rely s s' -> Inv s' -> promise (k a) done_ s') ->
  promise (tryP p k) done_ s.
Proof. intros HI Hp Hk. apply promise_inert; [done|done|]. intros [a|e] s' Hr HI'; [by apply Hk|done]. Qed.

(** A last write, whose answer only decides the error. *)
Lemma promise_last {A B} (e : eip_call (result api_error A)) (b : B) s :
  promise (call e) done_ s -> promise (tryP (apiCall e) (fun _ => Ret (Ok b))) done_ s.
Proof.
  intros He. apply promise_try. unfold apiCall. apply rg_bind. eapply rg_mono; [exact He|].
  intros [a|x] s' _ _ s1 _; by simpl.
Qed.

Lemma setConditions_inert generation conditions cs `{KubeLib} : only inert (setConditions generation conditions cs).
Proof. unfold setConditions. inert_tac. Qed.

Section Controllers.
Context `{KubeLib}.

Lemma promise_eip_updateStatus s resource phase address att conditions :
  Inv s -> (forall n, names_interface att n -> may_name s (eip_key resource) n) ->
  promise (eip_updateStatus resource phase address att conditions) done_ s.
Proof.
  intros HI Hatt. unfold eip_updateStatus.
  apply promise_inert; [done|apply setConditions_inert|]. intros conds s' Hr HI'.
  case_bool_decide; [done|]. apply promise_last, promise_updateElasticIPStatus; [done|].
  simpl. intros n Hn. eapply may_name_stable; [exact HI|done|by apply Hatt].
Qed.

Lemma promise_eip_unattached s resource phase address conditions :
  Inv s -> promise (eip_updateStatus resource phase address None conditions) done_ s.
Proof. intros HI. by apply promise_eip_updateStatus. Qed.

Lemma resolvePoolRefs_inert resource : only inert (resolvePoolRefs resource).
Proof. unfold resolvePoolRefs, resolvePoolRef. inert_tac. Qed.

Lemma eip_ensureClaim_inert resource names : only inert (eip_ensureClaim resource names).
Proof. unfold eip_ensureClaim. inert_tac. Qed.

Lemma listActiveElasticIPAttachments_inert ns e : only inert (listActiveElasticIPAttachments ns e).
Proof. unfold listActiveElasticIPAttachments, apiCall. inert_tac. Qed.

Lemma deleteARPAdvertisement_inert name : only inert (deleteARPAdvertisement name).
Proof. unfold deleteARPAdvertisement. inert_tac. Qed.

Lemma reconcileAdvertisement_inert resource pools address node :
  only inert (reconcileAdvertisement resource pools address node).
Proof.
  unfold reconcileAdvertisement, ensureARPAdvertisement, deleteARPAdvertisement. inert_tac.
Qed.

Lemma promise_eip_handleDeletion s resource :
  Inv s -> eip_known s resource -> promise (eip_handleDeletion resource) done_ s.
Proof.
  intros HI Hkn. unfold eip_handleDeletion. destruct (negb _); [done|].
  apply promise_try, promise_listNamingInterfaces; [done|]. intros [l|e] s1 HI1 Hr1 _; [|done].
  destruct l as [|i l].
  - apply promise_try_inert; [done|apply deleteARPAdvertisement_inert|]. intros _ s2 _ HI2.
    apply promise_inert; [done|inert_tac|]. intros r s3 _ HI3.
    apply promise_try_inert; [done|inert_tac|]. intros _ s4 _ HI4.
    by apply promise_last, promise_updateElasticIP.
  - apply promise_eip_updateStatus; [done|]. intros n. unfold retainedElasticIPAttachment.
    destruct (retainedElasticIPHolder _ _); [|done]. intros Hn.
    eapply may_name_stable; [exact HI|done|]. by apply Hkn.
Qed.

Lemma promise_updateUseStatus s resource address use :
  Inv s -> (forall n, names_interface (use_attachment use) n -> may_name s (eip_key resource) n) ->
  promise (updateUseStatus resource address use) done_ s.
Proof.
  intros HI Huse. unfold updateUseStatus, eip_updateErrorStatus.
  destruct (negb (empty (use_conflict use))); [by apply promise_eip_unattached|].
  destruct (use_attachment use) as [att|]; [by apply promise_eip_updateStatus|].
  destruct (negb _); by apply promise_eip_unattached.
Qed.

(** The interface the decision names may be named. *)
Lemma decided_may_name s resource attachments l n :
  eip_known s resource ->
  (forall previous m, elected previous l m -> may_name s (eip_key resource) (nic_name m)) ->
  names_interface (use_attachment (decideElasticIPUse (eip_Attachment (eip_status resource)) attachments l)) n ->
  may_name s (eip_key resource) n.
Proof.
  intros Hkn Hel Hn. apply decideElasticIPUse_interface in Hn as (_ & m & <- & [[_ Hret]|Helm]).
  - by apply Hkn.
  - by eapply Hel.
Qed.

Lemma promise_eip_reconcileNormal s resource :
  Inv s -> eip_known s resource -> promise (eip_reconcileNormal resource) done_ s.
Proof.
  intros HI Hkn. unfold eip_reconcileNormal.
  apply promise_inert; [done|apply resolvePoolRefs_inert|]. intros [pools|e] s1 Hr1 HI1.
  2: { destruct e as [| | |reason message]; try done. apply promise_try. eapply rg_mono.
    - by apply promise_eip_unattached.
    - by intros [] s2 _ _. }
  apply promise_try_inert; [done|apply eip_ensureClaim_inert|]. intros [address requeue] s2 Hr2 HI2.
  apply promise_try_inert; [done|apply listActiveElasticIPAttachments_inert|]. intros attachments s3 Hr3 HI3.
  apply promise_try, promise_listNamingInterfaces; [done|]. intros [l|e] s4 HI4 Hr4 Hel; [|done].
  assert (Hkn4 : eip_known s4 resource).
  { eapply eip_known_stable; [exact HI| |done]. transitivity s1; [done|]. transitivity s2; [done|]. by transitivity s3. }
  apply promise_try_inert; [done|apply reconcileAdvertisement_inert|]. intros _ s5 Hr5 HI5.
  destruct requeue; [|destruct (empty address)]; apply promise_try;
    (eapply rg_mono; [|by intros [] s6 _ _]); [by apply promise_eip_unattached..|].
  apply promise_updateUseStatus; [done|]. intros n Hn. eapply may_name_stable; [exact HI4|done|].
  by eapply decided_may_name.
Qed.

Lemma promise_eip_Reconcile s ns name : Inv s -> promise (eip_Reconcile ns name) done_ s.
Proof.
  intros HI. unfold eip_Reconcile. apply rg_bind, promise_getElasticIP; [done|].
  intros [resource|e] s1 HI1 Hres; [|by destruct e]. destruct Hres as [_ Hkn].
  destruct (IsDeleting _).
  { apply promise_try. eapply rg_mono; [by apply promise_eip_handleDeletion|]. by intros [] s2 _ _. }
  destruct (ContainsFinalizer _ _); [by apply promise_eip_reconcileNormal|].
  apply promise_try. unfold apiCall. apply rg_bind.
  eapply rg_mono; [by apply promise_updateElasticIP|].
  intros [e'|x] s2 Hr2 _ s3 Hr3; [|done]. cbn [res_map_err].
  assert (HI3 : Inv s3) by (eapply Inv_rtc; [|exact HI1]; by transitivity s2).
  apply rg_bind, promise_getElasticIP; [done|].
  intros [r2|e] s4 HI4 Hr; [|by destruct e]. apply promise_eip_reconcileNormal; [done|]. apply Hr.
Qed.

(** ** The NetworkInterface controller *)

Context (parse_text : parse_error -> string).

(** The result of a write of an interface is not used with knowledge. *)
Definition inv_only {A} : A -> store -> Prop := fun _ s => Inv s.

Lemma promise_commitStatus s resource status :
  Inv s -> nic_known s resource ->
  nic_Address status = ""%string \/ nic_Address status = nic_Address (nic_status resource) \/
  nic_ElasticIP (nic_spec resource) = ""%string \/
  ((Namespace (nic_meta resource), nic_ElasticIP (nic_spec resource)), nic_name resource) ∈ picked s ->
  promise (nic_commitStatus resource status) inv_only s.
Proof.
  intros HI [Hc Hu] Haddr. unfold nic_commitStatus. case_bool_decide.
  { intros s1 Hr. by eapply Inv_rtc. }
  unfold apiCall. apply rg_bind, promise_updateInterfaceStatus; [done| |].
  - split; [|done]. unfold may_carry in *. simpl. destruct Haddr as [?|[->|[?|?]]]; tauto.
  - intros r s1 HI1 s2 Hr2. by eapply Inv_rtc.
Qed.

Lemma promise_nic_updateStatus s resource phase conditions :
  Inv s -> nic_known s resource -> promise (nic_updateStatus resource phase conditions) inv_only s.
Proof.
  intros HI Hkn. unfold nic_updateStatus. apply promise_inert; [done|apply setConditions_inert|].
  intros conds s1 Hr HI1. apply promise_commitStatus; [done|by eapply nic_known_stable|].
  right. by left.
Qed.

Lemma promise_updateUnaddressedStatus s resource reason message :
  Inv s -> nic_known s resource -> promise (updateUnaddressedStatus resource reason message) inv_only s.
Proof.
  intros HI Hkn. unfold updateUnaddressedStatus. apply promise_inert; [done|apply setConditions_inert|].
  intros conds s1 Hr HI1. apply promise_commitStatus; [done|by eapply nic_known_stable|]. by left.
Qed.

Lemma promise_updateAllocatedStatus s resource a :
  Inv s -> nic_known s resource ->
  nic_ElasticIP (nic_spec resource) = ""%string \/
  ((Namespace (nic_meta resource), nic_ElasticIP (nic_spec resource)), nic_name resource) ∈ picked s ->
  promise (updateAllocatedStatus resource a) inv_only s.
Proof.
  intros HI Hkn Hc. unfold updateAllocatedStatus.
  apply promise_inert; [done|apply setConditions_inert|]. intros conds s1 Hr1 HI1.
  apply promise_inert; [done|inert_tac|]. intros [pods|e] s2 Hr2 HI2.
  - apply promise_inert; [done|apply setConditions_inert|]. intros conds' s3 Hr3 HI3.
    assert (Hr : rtc rely s s3) by (transitivity s1; [done|by transitivity s2]).
    apply promise_commitStatus; [done|by eapply nic_known_stable|]. right; right.
    destruct Hc as [?|?]; [by left|right]. by apply (rtc_rely_grows _ _ Hr).
  - apply rg_bind. eapply rg_mono; [apply promise_nic_updateStatus; [done|]|].
    + eapply nic_known_stable; [|done]. by transitivity s1.
    + intros r s3 _ HI3 s4 Hr4. by eapply Inv_rtc.
Qed.

(** The network an interface joins: an ElasticIP it was picked for, when the
    network says so, or no ElasticIP at all. *)
Definition network_known (s : store) (resource : NetworkInterface) (network : Network) : Prop :=
  match net_ElasticIP network with
  | Some b => HeldBy b (nic_name resource) = true ->
      ((Namespace (nic_meta resource), nic_ElasticIP (nic_spec resource)), nic_name resource) ∈ picked s
  | None => nic_ElasticIP (nic_spec resource) = ""%string
  end.

Lemma HeldBy_names b n : HeldBy b n = true -> names_interface (b_Attachment b) n.
Proof.
  unfold HeldBy, names_interface. destruct (b_Attachment b) as [[kind name]|]; [|done]. simpl.
  intros Hb. to_prop. apply String.eqb_eq in H1. by subst.
Qed.

Lemma Reference_Kind_other r : Reference_Kind r <> KindElasticIP -> ref_ElasticIP r = ""%string.
Proof. unfold Reference_Kind, empty. by destruct (String.eqb_spec (ref_ElasticIP r) ""). Qed.

Lemma promise_Resolve s resource :
  Inv s ->
  promise (Resolve (InterfaceReference resource))
  (fun r s' => Inv s' /\ rtc rely s s' /\
    match r with Ok network => network_known s' resource network | Err _ => True end) s.
Proof.
  intros HI. unfold Resolve. destruct (Reference_Validate _) as [_|e].
  2: { intros s1 Hr. split_and!; [by eapply Inv_rtc|done|done]. }
  destruct (Reference_Kind (InterfaceReference resource)) eqn:Hkind.
  1, 2: unfold tryP; apply promise_inert; [done|unfold apiCall; inert_tac|]; intros [x|e] s1 Hr1 HI1 s2 Hr2;
    (split_and!; [by eapply Inv_rtc|by transitivity s1|]); [|done];
    apply (Reference_Kind_other (InterfaceReference resource)); by rewrite Hkind.
  unfold resolveElasticIP, tryP, apiCall. apply rg_bind, rg_bind, rg_mono with
    (Q := fun r s' => Inv s' /\ match r with
    | Ok e => eip_key e = (Namespace (nic_meta resource), nic_ElasticIP (nic_spec resource)) /\ eip_known s' e
    | Err _ => True end); [by apply promise_getElasticIP|].
  intros [e|err] s1 Hr1 [HI1 He] s2 Hr2.
  2: { intros s3 Hr3. split_and!; [|by transitivity s1; [|transitivity s2]|done].
    eapply Inv_rtc; [|exact HI1]. by transitivity s2. }
  destruct He as [Hkey Hkn]. cbn [res_map_err].
  assert (HI2 : Inv s2) by (by eapply Inv_rtc).
  apply promise_inert; [done|inert_tac|]. intros [xn|err] s3 Hr3 HI3 s4 Hr4;
    (split_and!; [by eapply Inv_rtc|transitivity s1; [done|]; transitivity s2; [done|]; by transitivity s3|]); [|done].
  unfold network_known. simpl. intros Hheld%HeldBy_names. simpl in Hheld.
  destruct (Hkn _ Hheld) as [_ Hp]. rewrite Hkey in Hp.
  assert (Hr : rtc rely s1 s4) by (transitivity s2; [done|]; by transitivity s3).
  by apply (rtc_rely_grows _ _ Hr).
Qed.

Lemma Reference_String_not_empty r t : empty (Reference_String r ++ t) = false.
Proof. unfold Reference_String. by destruct (Reference_Kind r). Qed.

(** An interface stops waiting exactly when nothing uses the address for NAT
    and the ElasticIP names it. *)
Lemma elasticIPHolderWait_empty name ref b natUses :
  empty (elasticIPHolderWait name ref b natUses) = true <-> natUses = [] /\ HeldBy b name = true.
Proof.
  unfold elasticIPHolderWait. destruct natUses as [|a l].
  - destruct (HeldBy b name) eqn:Hb; [done|].
    split; [|by intros [_ ?]]. destruct (b_Attachment b) as [[[] n]|]; by rewrite Reference_String_not_empty.
  - rewrite Reference_String_not_empty. split; [done|by intros [? _]].
Qed.

Lemma promise_reconcileElasticIPAddressing s resource network b :
  Inv s -> nic_known s resource -> network_known s resource network -> net_ElasticIP network = Some b ->
  promise (reconcileElasticIPAddressing parse_text resource network b) done_ s.
Proof.
  intros HI Hkn Hnet Hb. unfold network_known in Hnet. rewrite Hb in Hnet. unfold reconcileElasticIPAddressing.
  apply promise_try_inert; [done|apply listActiveElasticIPAttachments_inert|]. intros natUses s1 Hr HI1.
  assert (Hkn1 : nic_known s1 resource) by (by eapply nic_known_stable).
  destruct (empty (elasticIPHolderWait _ _ _ _)) eqn:Hw; simpl negb; cbn iota.
  - apply elasticIPHolderWait_empty in Hw as [_ Hheld]. unfold updateAllocationFailureStatus.
    destruct (ParseAddr (b_Address b)) as [address|e];
      [|eapply rg_mono; [by apply promise_nic_updateStatus|done]].
    destruct (buildElasticIPPodRouting _ _) as [[routes rules]|e];
      [|eapply rg_mono; [by apply promise_nic_updateStatus|done]].
    eapply rg_mono; [apply promise_updateAllocatedStatus; [done|done|]|done].
    right. apply (rtc_rely_grows _ _ Hr). by apply Hnet.
  - eapply rg_mono; [by apply promise_updateUnaddressedStatus|done].
Qed.

Lemma nic_ensureClaim_inert resource network : only inert (nic_ensureClaim resource network).
Proof. unfold nic_ensureClaim, apiCall. inert_tac. Qed.

Lemma resolveEffectiveSecurityGroups_inert resource network :
  only inert (resolveEffectiveSecurityGroups resource network).
Proof. unfold resolveEffectiveSecurityGroups, effectiveSecurityGroup. inert_tac. Qed.

Lemma promise_finishPoolAddressing s resource network claim address message :
  Inv s -> nic_known s resource -> nic_ElasticIP (nic_spec resource) = ""%string ->
  promise (finishPoolAddressing resource network claim address message) done_ s.
Proof.
  intros HI Hkn He. unfold finishPoolAddressing.
  apply promise_try_inert; [done|apply resolveEffectiveSecurityGroups_inert|]. intros sgs s1 Hr HI1.
  eapply rg_mono; [apply promise_updateAllocatedStatus; [done|by eapply nic_known_stable|by left]|done].
Qed.

Lemma promise_reconcilePoolAddressing s resource network :
  Inv s -> nic_known s resource -> nic_ElasticIP (nic_spec resource) = ""%string ->
  promise (reconcilePoolAddressing resource network) done_ s.
Proof.
  intros HI Hkn He. unfold reconcilePoolAddressing, updateAllocationFailureStatus.
  destruct (negb _); [by apply promise_finishPoolAddressing|].
  destruct (ParseCIDR _) as [[x cidr]|]; [|eapply rg_mono; [by apply promise_nic_updateStatus|done]].
  apply promise_try_inert; [done|apply nic_ensureClaim_inert|]. intros [[allocated reason] message] s1 Hr HI1.
  assert (Hkn1 : nic_known s1 resource) by (by eapply nic_known_stable).
  destruct (empty allocated); [eapply rg_mono; [by apply promise_nic_updateStatus|done]|].
  by apply promise_finishPoolAddressing.
Qed.

Lemma promise_nic_reconcileLive s resource :
  Inv s -> nic_known s resource -> promise (nic_reconcileLive parse_text resource) done_ s.
Proof.
  intros HI Hkn. unfold nic_reconcileLive. apply promise_try. unfold fetchNetwork. apply rg_bind.
  eapply rg_mono; [by apply promise_Resolve|]. intros [network|e] s1 _ (HI1 & Hr1 & Hnet).
  - intros s2 Hr2.
    assert (HI2 : Inv s2) by (by eapply Inv_rtc).
    assert (Hkn2 : nic_known s2 resource) by (eapply nic_known_stable; [|done]; by transitivity s1).
    assert (Hnet2 : network_known s2 resource network).
    { unfold network_known in *. destruct (net_ElasticIP network); [|done]. intros Hh.
      apply (rtc_rely_grows _ _ Hr2). by apply Hnet. }
    destruct (negb _).
    { apply promise_try. eapply rg_mono; [by apply promise_updateUnaddressedStatus|]. by intros [] s3 _ _. }
    apply promise_try. destruct (net_ElasticIP network) as [b|] eqn:Hb.
    + eapply rg_mono; [by apply promise_reconcileElasticIPAddressing|]. by intros [] s3 _ _.
    + unfold network_known in Hnet2. rewrite Hb in Hnet2.
      eapply rg_mono; [by apply promise_reconcilePoolAddressing|]. by intros [] s3 _ _.
  - assert (Hkn1 : nic_known s1 resource) by (by eapply nic_known_stable). unfold updateAllocationFailureStatus.
    destruct (IsNotFound e).
    + unfold tryP. apply rg_bind. eapply rg_mono; [by apply promise_nic_updateStatus|]. by intros [] s2 _ _.
    + apply rg_bind. eapply rg_mono; [by apply promise_nic_updateStatus|]. by intros [] s2 _ _.
Qed.

Lemma nic_deleteClaim_inert resource : only inert (nic_deleteClaim resource).
Proof. unfold nic_deleteClaim. inert_tac. Qed.

Lemma promise_nic_handleDeletion s resource :
  Inv s -> nic_known s resource -> promise (nic_handleDeletion resource) done_ s.
Proof.
  intros HI Hkn. unfold nic_handleDeletion. apply promise_try.
  eapply rg_mono; [by apply promise_nic_updateStatus|]. intros [r|e] s1 _ HI1; [|done].
  unfold inv_only in HI1. destruct (negb _); [done|].
  apply promise_try_inert; [done|destruct (HasAllocationPool _); [apply nic_deleteClaim_inert|done]|].
  intros _ s2 _ HI2. by apply promise_last, promise_updateInterface.
Qed.

Lemma promise_nic_Reconcile s ns name : Inv s -> promise (nic_Reconcile parse_text ns name) done_ s.
Proof.
  intros HI. unfold nic_Reconcile. apply rg_bind, promise_getInterface; [done|].
  intros [resource|e] s1 HI1 Hres; [|by destruct e]. destruct Hres as [_ Hkn].
  destruct (IsDeleting _).
  { apply promise_try. eapply rg_mono; [by apply promise_nic_handleDeletion|]. by intros [] s2 _ _. }
  destruct (ContainsFinalizer _ _); [by apply promise_nic_reconcileLive|].
  apply promise_try. unfold apiCall. apply rg_bind, promise_updateInterface; [done|].
  intros [e'|x] s2 HI2 s3 Hr3; [|done]. cbn [res_map_err].
  apply rg_bind, promise_getInterface; [by eapply Inv_rtc|].
  intros [r2|e] s4 HI4 Hr; [|by destruct e]. apply promise_nic_reconcileLive; [done|]. apply Hr.
Qed.

(** ** The system *)

(** The operations that run: reconciliations of either controller. *)
Inductive reconciliation : prog eip_call unit -> Prop :=
| reconcile_elasticIP ns name : reconciliation (_ <- eip_Reconcile ns name ;; Ret tt)
| reconcile_interface ns name : reconciliation (_ <- nic_Reconcile parse_text ns name ;; Ret tt).

Definition steps (admits : admission) := sys_step eip_server (env_step admits) reconciliation.
Definition orderly : admission := fun s n => fresh_name s n /\ created_last s n.

Lemma reconciliation_promise p s : reconciliation p -> Inv s -> promise p done_ s.
Proof.
  intros [ns name|ns name] HI; apply rg_bind.
  - eapply rg_mono; [by apply promise_eip_Reconcile|]. done.
  - eapply rg_mono; [by apply promise_nic_Reconcile|]. done.
Qed.

Lemma reachable_inv ts s : rtc (steps orderly) ([], initial) (ts, s) -> Inv s.
Proof.
  apply (interleave_invariant eip_server rely); [|apply rely_inv|apply reconciliation_promise|apply initial_inv].
  intros s1 s2. apply env_rely.
Qed.

(** Claim C7: however the reconciliations of both controllers interleave, with
    each other and with users, and however far their reads lag behind, two
    interfaces never carry the address of the same ElasticIP at the same
    time, as long as interfaces get fresh names and later interfaces order
    after earlier ones. *)
Theorem exclusive_carrier ts s (k : key) a b :
  rtc (steps orderly) ([], initial) (ts, s) ->
  nics (cur s) !! nic_key a = Some a -> nics (cur s) !! nic_key b = Some b ->
  names k a -> names k b ->
  nic_Address (nic_status a) <> ""%string -> nic_Address (nic_status b) <> ""%string ->
  a = b.
Proof.
  intros Hr Ha Hb Hka Hkb Haa Hba.
  pose proof (inv_exclusive s k a b (reachable_inv _ _ Hr) Ha Hb Hka Hkb Haa Hba) as Hn.
  assert (Hkey : nic_key a = nic_key b) by (unfold nic_key; destruct Hka as [-> _], Hkb as [-> _]; by rewrite Hn).
  rewrite Hkey, Hb in Ha. by injection Ha.
Qed.
End Controllers.
