(* ===== verification/ElasticIPWitness.v ===== *)
(** * ElasticIPWitness: executions of the two ElasticIP controllers

    A deterministic API server that answers every read from the current state,
    and executions against it: one in which an interface comes to carry the
    address, and two that show why [exclusive_carrier] assumes fresh names and
    an order of creation. *)

From stdpp Require Import base gmap strings list relations.
From Stdlib Require Import ZArith Lia.
From S2P Require Import Prelude Effects Interleave Netip IPNet Kube AllocationTypes AllocationAPI AllocationClaimReconciler.
From S2P Require Import PodNetwork ElasticIPUse ElasticIPReconciler NetworkInterfaceReconciler ElasticIPCluster ElasticIPSafety.

Open Scope Z_scope.

#[global] Instance NetworkInterfacePodReference_eq_dec : EqDecision NetworkInterfacePodReference.
Proof. solve_decision. Defined.
#[global] Instance NetworkInterfaceSpec_eq_dec : EqDecision NetworkInterfaceSpec.
Proof. solve_decision. Defined.
#[global] Instance NetworkInterface_eq_dec : EqDecision NetworkInterface.
Proof. solve_decision. Defined.

(** ** The server *)

(** What reads of the other objects answer. *)
Record world := MkWorld { w_network : result api_error ExternalNetwork; w_claim : AllocationClaim }.

Definition found {A} (o : option A) : result api_error A :=
  match o with Some a => Ok a | None => Err NotFound end.

Definition stored_where (P : NetworkInterface -> bool) (s : store) : list NetworkInterface :=
  List.filter (fun n => P n && bool_decide (nics (cur s) !! nic_key n = Some n)) (map_to_list (nics (cur s))).*2.

Definition live_update_eip (s : store) (e : ElasticIP) : result api_error ElasticIP * store :=
  match eips (cur s) !! eip_key e with
  | None => (Err NotFound, s)
  | Some old =>
      let e' := MkElasticIP (eip_meta e) (eip_spec e) (eip_status old) in
      if IsDeleting (eip_meta e) && bool_decide (Finalizers (eip_meta e) = [])
      then (Ok e', drop_eip s (eip_key e)) else (Ok e', put_eip s e')
  end.

Definition live_update_eip_status (s : store) (e : ElasticIP) : result api_error ElasticIP * store :=
  match eips (cur s) !! eip_key e with
  | None => (Err NotFound, s)
  | Some old => let e' := MkElasticIP (eip_meta e) (eip_spec old) (eip_status e) in (Ok e', put_eip s e')
  end.

Definition live_update_nic (s : store) (n : NetworkInterface) : result api_error NetworkInterface * store :=
  match nics (cur s) !! nic_key n with
  | None => (Err NotFound, s)
  | Some old =>
      if negb (bool_decide (nic_key old = nic_key n)) then (Err NotFound, s) else
      let n' := MkNIC (nic_meta n) (CreationTimestamp old) (nic_spec old) (nic_status old) in
      if IsDeleting (nic_meta n) && bool_decide (Finalizers (nic_meta n) = [])
      then (Ok n', drop_nic s (nic_key n)) else (Ok n', put_nic s n')
  end.

Definition live_update_nic_status (s : store) (n : NetworkInterface) : result api_error NetworkInterface * store :=
  match nics (cur s) !! nic_key n with
  | None => (Err NotFound, s)
  | Some old =>
      if negb (bool_decide (nic_key old = nic_key n)) then (Err NotFound, s) else
      let n' := MkNIC (nic_meta old) (CreationTimestamp old) (nic_spec old) (nic_status n) in
      (Ok n', put_nic s n')
  end.

Definition live (w : world) : handler eip_call store :=
  fun R e => match e in eip_call R return store -> R * store with
  | getElasticIP ns name => fun s => (found (eips (cur s) !! (ns, name)), s)
  | updateElasticIP e => fun s => live_update_eip s e
  | updateElasticIPStatus e => fun s => live_update_eip_status s e
  | getInterface ns name => fun s => (found (nics (cur s) !! (ns, name)), s)
  | updateInterface n => fun s => live_update_nic s n
  | updateInterfaceStatus n => fun s => live_update_nic_status s n
  | listInterfacesNaming ns eip => fun s =>
      (Ok (stored_where (fun n => bool_decide (Namespace (nic_meta n) = ns /\ eip ∈ elasticIPIndexKeys n)) s), s)
  | listInterfaces ns => fun s => (Ok (stored_where (fun n => bool_decide (Namespace (nic_meta n) = ns)) s), s)
  | listAllInterfaces => fun s => (Ok (stored_where (fun _ => true) s), s)
  | listAttachments _ => fun s => (Ok [], s)
  | listEndpointPods _ => fun s => (Ok [], s)
  | getClaim _ => fun s => (Ok (w_claim w), s)
  | createClaim c => fun s => (Ok c, s)
  | updateClaim c => fun s => (Ok c, s)
  | deleteClaim_ _ => fun s => (Ok tt, s)
  | createOrUpdateARP name mutate => fun s => (mutate (MkARPAdvertisement (NewMeta name) "" "" ""), s)
  | deleteARP _ => fun s => (Ok tt, s)
  | getExternalNetwork _ => fun s => (w_network w, s)
  | getAddressPool name => fun s => (Ok (MkAddressPool name "bgp"), s)
  | getSubnet _ => fun s => (Err NotFound, s)
  | getL2Network _ => fun s => (Err NotFound, s)
  | getSecurityGroup _ => fun s => (Err NotFound, s)
  | getPod _ _ => fun s => (Err NotFound, s)
  | now => fun s => (Second, s)
  end.

Lemma stored_where_spec P s n :
  n ∈ stored_where P s <-> P n = true /\ nics (cur s) !! nic_key n = Some n.
Proof.
  unfold stored_where. rewrite list_elem_of_In, filter_In, <- list_elem_of_In, andb_true_iff, bool_decide_eq_true.
  split; [tauto|]. intros [HP Hn]. split_and!; [|done|done].
  apply list_elem_of_fmap. exists (nic_key n, n). split; [done|]. by apply elem_of_map_to_list.
Qed.

Lemma live_list P Q s :
  (forall n, P n = true <-> Q n) -> list_answer Q s (Ok (stored_where P s)).
Proof.
  intros HPQ. exists (cur s). split; [constructor|]. intros n. by rewrite stored_where_spec, HPQ.
Qed.

Lemma live_read {A} (m : view -> gmap key A) k s : read_answer m k s (found (m (cur s) !! k)).
Proof.
  unfold found. destruct (m (cur s) !! k) as [a|] eqn:Ha; [|done]. exists (cur s). split; [constructor|done].
Qed.

(** Its behaviours are behaviours of the API server. *)
Lemma live_server w R e s r s' : live w R e s = (r, s') -> eip_server R e s r s'.
Proof.
  destruct e; simpl; intros Hl; try (by injection Hl as <- <-).
  - injection Hl as <- <-. split; [done|]. apply live_read.
  - unfold live_update_eip in Hl. destruct (eips (cur s) !! eip_key e) as [old|] eqn:Hold;
      [|injection Hl as <- <-; by left].
    destruct (_ && _); injection Hl as <- <-; exists old; split_and!; [done..|by right|done|done|done|by left].
  - unfold live_update_eip_status in Hl. destruct (eips (cur s) !! eip_key e) as [old|] eqn:Hold;
      injection Hl as <- <-; [|by left]. by exists old.
  - injection Hl as <- <-. split; [done|]. apply live_read.
  - unfold live_update_nic in Hl. destruct (nics (cur s) !! nic_key n) as [old|] eqn:Hold;
      [|injection Hl as <- <-; by left].
    case_bool_decide as Hk; simpl in Hl; [|injection Hl as <- <-; by left].
    destruct (_ && _); injection Hl as <- <-; exists old; split_and!; [done..|by right|done|done|done|by left].
  - unfold live_update_nic_status in Hl. destruct (nics (cur s) !! nic_key n) as [old|] eqn:Hold;
      [|injection Hl as <- <-; by left].
    case_bool_decide as Hk; simpl in Hl; injection Hl as <- <-; [|by left]. by exists old.
  - injection Hl as <- <-. split; [done|]. apply live_list. intros n. by rewrite bool_decide_eq_true.
  - injection Hl as <- <-. split; [done|]. apply live_list. intros n. by rewrite bool_decide_eq_true.
  - injection Hl as <- <-. split; [done|]. by apply live_list.
Qed.

(** ** Executions *)

Definition no_text (_ : parse_error) : string := "".

Definition upstream : ExternalNetwork := MkExternalNetwork "upstream" "bgp" ["pool"%string] 7.
Definition address_claim : AllocationClaim :=
  MkClaim (NewMeta "claim") (MkClaimSpec [] (MkResourceRef "" "" "" "") "" None None None None "" None None)
    (MkClaimStatus 0 [] ClaimPhaseAllocated (MkValue 0 "203.0.113.10")).
(** Everything is there, or the external network is missing for a moment. *)
Definition up : world := MkWorld (Ok upstream) address_claim.
Definition down : world := MkWorld (Err NotFound) address_claim.

Definition web : ElasticIP :=
  MkElasticIP (MkMeta "web" "shop" "" "" 1 [] None []) (MkEIPSpec "upstream" "")
    (MkEIPStatus 0 ElasticIPPhaseNone [] "" None).

(** An interface of [pod] created at [t] that names the ElasticIP. *)
Definition interface (pod : string) (t : Time) : NetworkInterface :=
  MkNIC (MkMeta pod "shop" "" "" 1 [] None []) t
    (MkNICSpec (MkPodRef pod pod "eth0") "node" "" "" "web" "" [] "" None)
    (MkNICStatus [] 0 NetworkInterfacePhaseNone "" "" [] [] None).

Definition reconcile_web : prog eip_call unit := (_ <- eip_Reconcile "shop" "web" ;; Ret tt)%go.
Definition reconcile_nic (name : string) : prog eip_call unit := (_ <- nic_Reconcile no_text "shop" name ;; Ret tt)%go.
Definition after (w : world) (p : prog eip_call unit) (s : store) : store := (run (live w) p s).2.

Definition carries (s : store) (name : string) : bool :=
  match nics (cur s) !! ("shop"%string, name) with
  | Some n => negb (String.eqb (nic_Address (nic_status n)) "")
  | None => false
  end.

(** A state the system reaches from the empty cluster while the operations
    [ts] are under way. *)
Definition reaches (admits : admission) (ts : list (prog eip_call unit)) (s : store) : Prop :=
  rtc (steps no_text admits) ([], initial) (ts, s).

Lemma reaches_env admits ts s s' : reaches admits ts s -> env_step admits s s' -> reaches admits ts s'.
Proof. intros Hr He. eapply rtc_r; [exact Hr|]. by apply sys_env. Qed.

Lemma reaches_after admits ts s w p :
  reaches admits ts s -> reconciliation no_text p -> reaches admits ts (after w p s).
Proof.
  unfold reaches. intros Hr Hp. etransitivity; [exact Hr|]. apply run_sys; [|done]. intros R e s1 r s2. apply live_server.
Qed.

(** The interface stored under a name. *)
Definition stored (s : store) (name : string) : NetworkInterface :=
  default (interface name 0) (nics (cur s) !! ("shop"%string, name)).

(** Every stored interface satisfies a test. *)
Definition all_stored (P : NetworkInterface -> bool) (s : store) : bool :=
  forallb P (map_to_list (nics (cur s))).*2.

Lemma all_stored_spec P s k m : all_stored P s = true -> nics (cur s) !! k = Some m -> P m = true.
Proof.
  unfold all_stored. rewrite forallb_forall. intros Hall Hm. apply Hall, list_elem_of_In, list_elem_of_fmap.
  exists (k, m). split; [done|]. by apply elem_of_map_to_list.
Qed.

Lemma created_last_check s n : all_stored (fun m => olderInterface m n) s = true -> created_last s n.
Proof. intros Hall m k Hm _ _. by apply (all_stored_spec _ _ _ _ Hall Hm). Qed.

Lemma created_later_check s n :
  all_stored (fun m => CreationTimestamp m <=? CreationTimestamp n) s = true -> created_later s n.
Proof. intros Hall m Hm. apply Z.leb_le. by apply (all_stored_spec _ _ _ _ Hall Hm). Qed.

(** Create an interface, run a reconciliation: the goals that are left are
    about the admission only. *)
Ltac create := eapply reaches_env; [|apply env_nic_create; [vm_compute; reflexivity|reflexivity|]].
Ltac reconcile := apply reaches_after; [|constructor].

(** *** An interface comes to carry the address *)

Definition with_web : store := put_eip initial web.
Definition first_holder (name : string) (t : Time) : store :=
  after up (reconcile_nic name) (after up reconcile_web (put_nic with_web (interface name t))).

Lemma with_web_reached admits : reaches admits [] with_web.
Proof. eapply rtc_once, sys_env. by apply env_eip_create. Qed.

Lemma first_holder_reached (admits : admission) name t :
  admits with_web (interface name t) -> reaches admits [] (first_holder name t).
Proof.
  intros Ha. unfold first_holder. reconcile. reconcile.
  eapply reaches_env; [apply with_web_reached|]. by apply env_nic_create.
Qed.

Lemma exclusive_carrier_witness :
  carries (first_holder "b" Second) "b" = true /\
  stored (first_holder "b" Second) "b" = stored (first_holder "b" Second) "b".
Proof.
  split; [vm_compute; reflexivity|].
  apply (exclusive_carrier no_text [] (first_holder "b" Second) ("shop"%string, "web"%string)).
  - apply first_holder_reached. split; [reflexivity|]. apply created_last_check. reflexivity.
  - vm_compute. reflexivity.
  - vm_compute. reflexivity.
  - split_and!; vm_compute; [reflexivity|reflexivity|discriminate].
  - split_and!; vm_compute; [reflexivity|reflexivity|discriminate].
  - vm_compute. discriminate.
  - vm_compute. discriminate.
Defined.

(** *** Interfaces of the same second

    [b] carries the address.  [a] is created in the same second.  The external
    network is missing for a moment, and the ElasticIP forgets its holder.
    Then [a], the smaller name, is the oldest. *)

Definition same_second : admission := fun s n => fresh_name s n /\ created_later s n.

Definition rivals : store := put_nic (first_holder "b" Second) (interface "a" Second).
Definition forgotten : store := after down reconcile_web rivals.
Definition two_holders : store := after up (reconcile_nic "a") (after up reconcile_web forgotten).

Lemma two_holders_reached : reaches same_second [] two_holders.
Proof.
  unfold two_holders. reconcile. reconcile. unfold forgotten. reconcile. unfold rivals. create.
  - apply first_holder_reached. split; [reflexivity|]. apply created_later_check. reflexivity.
  - split; [vm_compute; reflexivity|]. apply created_later_check. vm_compute. reflexivity.
Qed.

(** *** A name that is used again

    [a] carries the address and [b] waits for it.  [a] is deleted, and the
    ElasticIP controller, which finds only [b], is about to name it.  A pod
    with the old name comes back, and its interface finds itself named by the
    status that is not written yet. *)

Definition reuse : admission := created_last.

Definition marked_deleted (n : NetworkInterface) : NetworkInterface :=
  MkNIC (MkMeta (Name (nic_meta n)) (Namespace (nic_meta n)) (UID (nic_meta n)) (ResourceVersion (nic_meta n))
           (Generation (nic_meta n)) (Finalizers (nic_meta n)) (Some (2 * Second)) (OwnerReferences (nic_meta n)))
    (CreationTimestamp n) (nic_spec n) (nic_status n).

Definition waiting : store := put_nic (first_holder "a" Second) (interface "b" (2 * Second)).
Definition holder_gone : store :=
  after up (reconcile_nic "a") (put_nic waiting (marked_deleted (stored waiting "a"))).
(** The controller, stopped before it writes the status. *)
Definition about_to_name : prog eip_call unit * store := advance (live up) 9 reconcile_web holder_gone.
Definition name_back : store :=
  after up (reconcile_nic "a") (put_nic about_to_name.2 (interface "a" (3 * Second))).
Definition handed_over : store := after up (reconcile_nic "b") (run (live up) about_to_name.1 name_back).2.

Lemma handed_over_reached : exists ts, reaches reuse ts handed_over.
Proof.
  exists [Ret (run (live up) about_to_name.1 name_back).1]. unfold handed_over. reconcile. unfold reaches. etransitivity.
  2: { apply exec_sys. eapply exec_mono; [|apply run_exec]. intros R e s r s' Hr. by apply (live_server up). }
  change (reaches reuse [about_to_name.1] name_back). unfold name_back. reconcile. create.
  2: { apply created_last_check. vm_compute. reflexivity. }
  unfold about_to_name, reaches. etransitivity.
  2: { eapply rtc_l; [apply sys_spawn; constructor|]. apply advance_sys. intros R e s r s'. apply live_server. }
  change (reaches reuse [] holder_gone). unfold holder_gone. reconcile.
  eapply reaches_env; [|apply env_nic_update with (n := stored waiting "a"); [vm_compute; reflexivity|by split_and!|reflexivity]].
  unfold waiting. create.
  - apply first_holder_reached. apply created_last_check. reflexivity.
  - apply created_last_check. vm_compute. reflexivity.
Qed.

(** Claim C30: both assumptions of [exclusive_carrier] are needed.  When two
    interfaces are created in the same second and the ElasticIP forgets its
    holder, or when the name of a deleted interface is used again while the
    ElasticIP is handed over, the controllers reach a state in which two
    interfaces carry the address. *)
Theorem orderly_needed :
  (exists ts s, reaches same_second ts s /\ carries s "a" = true /\ carries s "b" = true) /\
  (exists ts s, reaches reuse ts s /\ carries s "a" = true /\ carries s "b" = true).
Proof.
  split.
  - exists [], two_holders. split; [apply two_holders_reached|]. vm_compute. by split.
  - destruct handed_over_reached as [ts Hr]. exists ts, handed_over. split; [done|]. vm_compute. by split.
Qed.
