(* ===== verification/ElasticIPTheorems.v ===== *)
(** * ElasticIPTheorems: what the ElasticIP and NetworkInterface controllers do

    Statements about the calls of one reconciliation, whatever the API server
    answers: the address of an ElasticIP is given back only after no interface
    names it; an interface gets an address only from an ElasticIP that named
    it and that no attachment uses; and a change of conditions alone is never
    written. *)

From stdpp Require Import base gmap strings list relations.
From Stdlib Require Import ZArith Lia.
From S2P Require Import Prelude Effects Interleave Netip NetipFacts IPNet Kube AllocationTypes AllocationAPI.
From S2P Require Import AllocationClaimReconciler.
From S2P Require Import PodNetwork ElasticIPUse ElasticIPReconciler NetworkInterfaceReconciler ElasticIPCluster ElasticIPSafety ElasticIPWitness.

Open Scope Z_scope.

(** ** Histories *)

Abbreviation history := (list (entry eip_call)).

(** A call that gives something back: the claim with the address, or the
    finalizer that keeps the ElasticIP. *)
Definition gives_back R (e : eip_call R) : bool :=
  match e with
  | deleteClaim_ _ => true
  | updateElasticIP e => negb (bool_decide (elasticIPFinalizer ∈ Finalizers (eip_meta e)))
  | _ => false
  end.

(** The answer that no interface names the ElasticIP. *)
Definition none_names (k : key) (x : entry eip_call) : Prop :=
  match x with
  | @Entry _ R e r =>
      match e in eip_call R return R -> Prop with
      | listInterfacesNaming ns name => fun r => (ns, name) = k /\ r = Ok []
      | _ => fun _ => False
      end r
  end.

Definition entry_gives_back (x : entry eip_call) : bool :=
  match x with @Entry _ R e _ => gives_back R e end.

(** Every such call comes after an answer that no interface names the
    ElasticIP. *)
Definition kept_while_named (k : key) (h : history) : Prop :=
  forall pre x post, h = pre ++ x :: post -> entry_gives_back x = true -> exists y, y ∈ pre /\ none_names k y.

Lemma kept_snoc k h R (e : eip_call R) r :
  kept_while_named k h -> (gives_back R e = true -> exists y, y ∈ h /\ none_names k y) ->
  kept_while_named k (h ++ [Entry e r]).
Proof.
  intros Hh He pre x post Heq Hx.
  destruct post as [|z post _] using rev_ind.
  - apply app_inj_tail in Heq as [<- <-]. by apply He.
  - rewrite app_comm_cons, app_assoc in Heq. apply app_inj_tail in Heq as [-> <-]. by eapply Hh.
Qed.

Abbreviation keeping k := (wpi recorder (kept_while_named k)).

(** Operations that give nothing back. *)
Lemma keeping_only {A} k (p : prog eip_call A) h :
  only (fun R e => gives_back R e = false) p -> kept_while_named k h ->
  keeping k p (fun _ h' => kept_while_named k h' /\ h ⊆ h') h.
Proof.
  intros Hp Hh. assert (Hs : h ⊆ h) by done. revert Hs. generalize h at 1 3 as h0. revert h Hh.
  induction p as [a|R e c IH]; intros h Hh h0 Hs; simpl; [done|]. destruct Hp as [He Hc]. split; [done|].
  intros r h' ->. apply IH; [by apply Hc| |set_solver]. apply kept_snoc; [done|]. by rewrite He.
Qed.

(** After the answer, everything may be given back. *)
Lemma keeping_released {A} k (p : prog eip_call A) h :
  kept_while_named k h -> (exists y, y ∈ h /\ none_names k y) ->
  keeping k p (fun _ h' => kept_while_named k h') h.
Proof.
  revert h. induction p as [a|R e c IH]; intros h Hh (y & Hy & Hn); simpl; [done|]. split; [done|].
  intros r h' ->. apply IH; [|exists y; set_solver]. apply kept_snoc; [done|]. intros _. by exists y.
Qed.

(** A goal that a part of the reconciler gives nothing back. *)
Ltac keeps_tac :=
  repeat first
    [ apply only_tryP; [|intros]
    | apply only_bind; [|intros]
    | apply only_forP; intros | apply only_forTryP; intros
    | progress simpl
    | match goal with
      | |- _ /\ _ => split
      | |- True => exact I
      | |- forall _, _ => intro
      | |- gives_back _ _ = false => reflexivity
      | |- false = false => reflexivity
      | |- only _ (match ?x with _ => _ end) => destruct x
      | |- only _ (if ?x then _ else _) => destruct x
      end ].

Section Controllers.
Context `{KubeLib}.

Lemma eip_updateStatus_keeps resource phase address att conditions :
  only (fun R e => gives_back R e = false) (eip_updateStatus resource phase address att conditions).
Proof. unfold eip_updateStatus, setConditions, apiCall. keeps_tac. Qed.

Lemma eip_reconcileNormal_keeps resource :
  only (fun R e => gives_back R e = false) (eip_reconcileNormal resource).
Proof.
  unfold eip_reconcileNormal. apply only_bind.
  { unfold resolvePoolRefs, resolvePoolRef. keeps_tac. }
  intros [pools|e]; [|destruct e; try done; apply only_tryP; [apply eip_updateStatus_keeps|done]].
  apply only_tryP; [unfold eip_ensureClaim; keeps_tac|]. intros [address requeue].
  apply only_tryP; [unfold listActiveElasticIPAttachments, apiCall; keeps_tac|]. intros attachments.
  apply only_tryP; [unfold listNamingInterfaces, apiCall; keeps_tac|]. intros l.
  apply only_tryP; [unfold reconcileAdvertisement, ensureARPAdvertisement, deleteARPAdvertisement; keeps_tac|].
  intros _. destruct requeue; [|destruct (empty address)]; (apply only_tryP; [|done]);
    try apply eip_updateStatus_keeps.
  unfold updateUseStatus, eip_updateErrorStatus.
  destruct (negb (empty (use_conflict _))); [apply eip_updateStatus_keeps|].
  destruct (use_attachment _); [apply eip_updateStatus_keeps|]. destruct (negb _); apply eip_updateStatus_keeps.
Qed.

Lemma keeping_handleDeletion resource h :
  kept_while_named (eip_key resource) h ->
  keeping (eip_key resource) (eip_handleDeletion resource) (fun _ h' => kept_while_named (eip_key resource) h') h.
Proof.
  intros Hh. unfold eip_handleDeletion. destruct (negb _); [done|].
  unfold listNamingInterfaces, apiCall, tryP. cbn [bind call]. split; [done|]. intros r h1 ->.
  assert (Hh1 : kept_while_named (eip_key resource)
    (h ++ [Entry (listInterfacesNaming (Namespace (eip_meta resource)) (eip_name resource)) r]))
    by (by apply kept_snoc).
  destruct r as [[|i l]|e]; cbn [res_map_err bind].
  - apply keeping_released; [done|]. eexists. split; [apply elem_of_app; right; constructor|by split].
  - eapply wpi_mono; [apply keeping_only; [apply eip_updateStatus_keeps|done]|]. by intros a h2 _ [? _].
  - done.
Qed.

(** The recorder, of a server that answers a read with the object asked for. *)
Definition keyed_recorder : server eip_call history :=
  fun R e h r h' => h' = h ++ [Entry e r] /\
  match e in eip_call R return R -> Prop with
  | getElasticIP ns name => fun r => match r with Ok e => eip_key e = (ns, name) | Err _ => True end
  | _ => fun _ => True
  end r.

Lemma keyed_subset R e h r h' : keyed_recorder R e h r h' -> recorder R e h r h'.
Proof. by intros [? _]. Qed.

Lemma reconcile_keeps ns name h :
  kept_while_named (ns, name) h ->
  wpi keyed_recorder (kept_while_named (ns, name)) (eip_Reconcile ns name)
  (fun _ h' => kept_while_named (ns, name) h') h.
Proof.
  intros Hh. unfold eip_Reconcile. cbn [bind call]. split; [done|]. intros r h1 [-> Hkey].
  assert (Hh1 : kept_while_named (ns, name) (h ++ [Entry (getElasticIP ns name) r])) by (by apply kept_snoc).
  destruct r as [resource|e]; [|by destruct e].
  destruct (IsDeleting (eip_meta resource)).
  - unfold tryP. apply wpi_bind. rewrite <- Hkey in *.
    eapply wpi_mono; [eapply wpi_server; [apply keyed_subset|by apply keeping_handleDeletion]|].
    by intros [] h2 _ ?.
  - destruct (ContainsFinalizer _ _).
    { eapply wpi_mono; [eapply wpi_server; [apply keyed_subset|
      apply keeping_only; [apply eip_reconcileNormal_keeps|done]]|]. by intros a h2 _ [? _]. }
    eapply wpi_mono; [eapply wpi_server; [apply keyed_subset|apply keeping_only; [|done]]|]; [|by intros a h2 _ [? _]].
    apply only_tryP; [|intros _; cbn [bind call]; split; [done|]; intros [r2|e]; [apply eip_reconcileNormal_keeps|by destruct e]].
    unfold apiCall. cbn [bind call]. split; [|done]. simpl. rewrite bool_decide_eq_true_2; [done|].
    apply AddFinalizer_spec. by left.
Qed.

(** Claim C29: a reconciliation of an ElasticIP gives its address back (deletes
    the AllocationClaim, or removes the finalizer) only after the API server
    answered that no NetworkInterface names the ElasticIP, whatever it
    answers to the other calls and wherever the reconciliation stops. *)
Theorem address_kept_while_named ns name h :
  passes keyed_recorder [] (eip_Reconcile ns name) h -> kept_while_named (ns, name) h.
Proof.
  intros Hp. eapply wpi_passes; [apply reconcile_keeps|exact Hp].
  intros pre x post Hx. by destruct pre.
Qed.

(** ** Conditions *)

Definition is_now R (e : eip_call R) : Prop := match e with now => True | _ => False end.

(** The types of the conditions are in the list. *)
Definition all_set (cs conditions : list Condition) : Prop :=
  Forall (fun c => is_Some (FindStatusCondition cs (Type_ c))) conditions.

Lemma all_set_Set t cs c conditions : all_set cs conditions -> all_set (SetStatusCondition t cs c) conditions.
Proof.
  intros Hs. eapply Forall_impl; [exact Hs|]. intros d [x Hx]. destruct (decide (Type_ d = Type_ c)) as [->|Hne].
  - destruct (FindStatusCondition_Set t cs c) as (c' & Hc & _). by exists c'.
  - rewrite FindStatusCondition_Set_ne by done. by exists x.
Qed.

Lemma setConditions_in_place {A} generation conditions cs (k : list Condition -> prog eip_call A) :
  all_set cs conditions -> (forall cs', length cs' = length cs -> only is_now (k cs')) ->
  only is_now (bind (setConditions generation conditions cs) k).
Proof.
  unfold setConditions. revert cs. induction conditions as [|c l IH]; intros cs Hset Hk; [by apply Hk|].
  cbn [forP bind call]. split; [done|]. intros t. apply Forall_cons in Hset as [[x Hx] Hset].
  apply IH; [by apply all_set_Set|]. intros cs' Hlen. apply Hk. rewrite Hlen, SetStatusCondition_length. simpl.
  by rewrite Hx.
Qed.

(** A change of conditions alone is never published.  When the
    ElasticIP already has the conditions, and the phase, the address, the
    attachment and the generation stay, [updateStatus] calls nothing but the
    clock, whatever the new conditions say: the conditions it compares with
    are the ones it has just overwritten. *)
Theorem condition_change_lost resource conditions :
  let st := eip_status resource in
  eip_ObservedGeneration st = Generation (eip_meta resource) -> all_set (eip_Conditions st) conditions ->
  only is_now (eip_updateStatus resource (eip_Phase st) (eip_Address st) (eip_Attachment st) conditions).
Proof.
  intros st Hgen Hset. unfold eip_updateStatus. apply setConditions_in_place; [done|].
  intros cs' Hlen. rewrite bool_decide_eq_true_2; [done|].
  unfold aliasedStatus. fold st in Hlen |- *. rewrite <- Hlen, firstn_all, Hgen. done.
Qed.
End Controllers.

(** An ElasticIP that waits for a hand-over, and says that nothing uses it. *)
Definition settled : ElasticIP :=
  MkElasticIP (eip_meta web) (eip_spec web)
    (MkEIPStatus 1 ElasticIPPhaseAvailable
       [condition elasticIPConditionAllocated ConditionTrue elasticIPReasonReconcileSucceeded "ElasticIP address allocated";
        condition elasticIPConditionAttached ConditionFalse elasticIPReasonAwaitingAttachment "ElasticIP is not attached"]
       "203.0.113.10" None).

(** The live server answers with the object asked for. *)
Definition keyed_store (s : store) : Prop := forall k e, eips (cur s) !! k = Some e -> eip_key e = k.

Lemma keyed_put s e : keyed_store s -> keyed_store (put_eip s e).
Proof.
  intros Hs k x. simpl. destruct (decide (eip_key e = k)) as [<-|Hne].
  - rewrite lookup_insert_eq. by intros [= <-].
  - rewrite lookup_insert_ne by done. apply Hs.
Qed.

Lemma keyed_drop s k : keyed_store s -> keyed_store (drop_eip s k).
Proof. intros Hs x e. simpl. rewrite lookup_delete_Some. intros [_ ?]. by apply Hs. Qed.

Lemma live_keyed w R e s : keyed_store s ->
  keyed_store (live w R e s).2 /\
  match e in eip_call R return R -> Prop with
  | getElasticIP ns name => fun r => match r with Ok e => eip_key e = (ns, name) | Err _ => True end
  | _ => fun _ => True
  end (live w R e s).1.
Proof.
  intros Hs. destruct e; cbn [live fst snd]; try done; (split; [|done || idtac]); try done.
  - unfold found. destruct (eips (cur s) !! (ns, name)) eqn:He; [by apply Hs|done].
  - unfold live_update_eip. destruct (eips (cur s) !! eip_key e); [|done].
    destruct (_ && _); [by apply keyed_drop|by apply keyed_put].
  - unfold live_update_eip_status. destruct (eips (cur s) !! eip_key e); [by apply keyed_put|done].
  - unfold live_update_nic. destruct (nics (cur s) !! nic_key n); [|done]. destruct (negb _); [done|].
    by destruct (_ && _).
  - unfold live_update_nic_status. destruct (nics (cur s) !! nic_key n); [|done]. by destruct (negb _).
Qed.

Lemma replay_keyed {A} w (p : prog eip_call A) s h :
  keyed_store s -> passes keyed_recorder h p (replay (live w) p s h).
Proof.
  revert s h. induction p as [a|R e k IH]; intros s h Hs; simpl; [constructor|].
  destruct (live_keyed w R e s Hs) as [Hs' Hr]. destruct (live w R e s) as [r s'].
  eapply passes_later; [split; [reflexivity|exact Hr]|]. by apply IH.
Qed.

(** A deletion without interfaces deletes the claim. *)
Definition doomed : store :=
  put_eip initial (MkElasticIP (MkMeta "web" "shop" "" "" 1 [elasticIPFinalizer] (Some Second) [])
    (eip_spec web) (eip_status web)).

Lemma address_kept_while_named_witness :
  let h := replay (live up) (eip_Reconcile "shop" "web") doomed [] in
  existsb entry_gives_back h = true /\ kept_while_named ("shop", "web")%string h.
Proof.
  split; [vm_compute; reflexivity|].
  apply address_kept_while_named. apply replay_keyed. apply keyed_put.
  intros k e Hk. simpl in Hk. by rewrite lookup_empty in Hk.
Defined.
