(* ===== verification/AddressPlan.v ===== *)
(** * AddressPlan: the admission of networks and of the links between them

    The webhooks that keep the prefixes of a cluster apart, in
    [controller/internal/webhook/v1alpha1]: [vpcprefix.go],
    [subnet_webhook.go], [l2network_webhook.go], [vpc_webhook.go],
    [vpcpeering_webhook.go] and [transitgatewayattachment_webhook.go], with the
    API types they read ([controller/api/v1alpha1]) and
    [L2NetworkGatewayAddress] of [controller/internal/podnetwork].

    A validator reads other objects through an uncached reader ([Reader]); an
    answer is an error of the API or the objects.  The result of a validator is
    an error, or the list of field errors, empty when the object is admitted. *)

From stdpp Require Import base gmap strings list pretty.
From Stdlib Require Import ZArith Lia.
From S2P Require Import Prelude Netip AddressRange IPNet Kube AllocationTypes PolicyRules.
Open Scope Z_scope.
Open Scope go_scope.

(** ** API types *)

Record Subnet := MkSubnet {
  sub_Name : string; sub_Deletion : option Time;
  sub_Vpc : string; sub_CIDR : string; sub_RouteTable : string; sub_NetworkACL : string;
}.

Record L2NetworkGateway := MkL2Gateway { gw_Address : string; gw_RouteTable : string }.

Record L2Network := MkL2Network {
  l2_Name : string; l2_Deletion : option Time;
  l2_Vpc : string; l2_CIDR : string; l2_Gateway : option L2NetworkGateway; l2_NetworkACL : string; l2_MTU : option Z;
}.

(** [Provider] is its [natSourceSubnet]. *)
Record VpcServiceSpec := MkVpcService { Provider : option string; Consume : bool }.

Record Vpc := MkVpc {
  vpc_Name : string; vpc_Deletion : option Time;
  vpc_Service : option VpcServiceSpec; vpc_EnforceSecurityGroups : bool;
  vpc_EndpointPool : option (list string);
}.

Record VpcPeering := MkPeering { vp_Name : string; Requester : string; Accepter : string }.

Record TransitGatewayAttachment := MkAttachment {
  tga_Name : string; tga_Deletion : option Time;
  tga_TransitGateway : string; tga_Vpc : string; Association : string; Propagations : list string;
}.

Record VpcEndpoint := MkEndpoint { ep_Name : string; ep_Vpc : string; ep_Address : string }.

(** The routes of a RouteTable, as far as the delete guard of a peering reads
    them. *)
Record RouteVia := MkVia { via_Type : string; via_VpcPeering : string }.
Record RouteTable := MkRouteTable { rt_Name : string; rt_Vpc : string; rt_Routes : list RouteVia }.

Definition IsProvider (s : VpcServiceSpec) : bool :=
  match Provider s with Some subnet => negb (String.eqb subnet "") | None => false end.

Definition ServiceEnabled (v : Vpc) : bool :=
  match vpc_Service v with Some s => Consume s || IsProvider s | None => false end.

Definition Configured (pool : option (list string)) : bool :=
  match pool with Some cidrs => negb (Nat.eqb (length cidrs) 0) | None => false end.

Definition Cidrs (pool : option (list string)) : list string :=
  if Configured pool then default [] pool else [].

Definition Connects (p : VpcPeering) (vpcName : string) : bool :=
  String.eqb (Requester p) vpcName || String.eqb (Accepter p) vpcName.

Definition PeerOf (p : VpcPeering) (vpcName : string) : option string :=
  if String.eqb vpcName (Requester p) then Some (Accepter p)
  else if String.eqb vpcName (Accepter p) then Some (Requester p) else None.

(** [RouteTables]: association first, duplicates and the empty name left out. *)
Fixpoint distinct_names (seen names : list string) : list string :=
  match names with
  | [] => []
  | name :: rest =>
      if String.eqb name "" || bool_decide (name ∈ seen) then distinct_names seen rest
      else name :: distinct_names (name :: seen) rest
  end.

Definition RouteTables (a : TransitGatewayAttachment) : list string :=
  distinct_names [] (Association a :: Propagations a).

(** ** The reader of the webhook server *)

Record Reader := MkReader {
  get_Vpc : string -> result api_error Vpc;
  get_RouteTable : string -> result api_error RouteTable;
  get_NetworkACL : string -> result api_error string;                 (* spec.vpc *)
  get_TransitGateway : string -> result api_error unit;
  get_TransitGatewayRouteTable : string -> result api_error string;   (* spec.transitGateway *)
  list_Subnets : result api_error (list Subnet);
  list_L2Networks : result api_error (list L2Network);
  list_Vpcs : result api_error (list Vpc);
  list_VpcPeerings : result api_error (list VpcPeering);
  list_Attachments : result api_error (list TransitGatewayAttachment);
  list_VpcEndpoints : result api_error (list VpcEndpoint);
  list_RouteTables : result api_error (list RouteTable);
  list_DNSZones : result api_error (list Referrer);
  list_Claims : result api_error (list AllocationClaim);
  list_Leases : result api_error (list AllocationLease);
}.

(** [errors.IsNotFound] handled as a field error, any other error returned. *)
Definition or_missing {A} (r : result api_error A) (missing : list field_error)
    (k : A -> result api_error (list field_error)) : result api_error (list field_error) :=
  match r with
  | Ok a => k a
  | Err NotFound => Ok missing
  | Err e => Err e
  end.

(** [vpcErrs, err := ...; if err != nil {return}; errs = append(errs, vpcErrs...)] *)
Definition app_errs (r1 r2 : result api_error (list field_error)) : result api_error (list field_error) :=
  let? e1 := r1 in let? e2 := r2 in Ok (e1 ++ e2).

(** ** vpcprefix.go *)

Definition vpcPrefixMinBits : Z := 16.
Definition vpcPrefixMaxBits : Z := 28.

Record vpcPrefix := MkVpcPrefix {
  vp_kind : string; vp_name : string; vp_vpc : string; vp_raw : string; vp_cidr : option IPNet;
}.

Definition newVpcPrefix (kind name vpc raw : string) : vpcPrefix :=
  MkVpcPrefix kind name vpc raw (if String.eqb raw "" then None else ParseNet raw).

Definition subnetVpcPrefix (s : Subnet) : vpcPrefix := newVpcPrefix "Subnet" (sub_Name s) (sub_Vpc s) (sub_CIDR s).
Definition l2NetworkVpcPrefix (l : L2Network) : vpcPrefix := newVpcPrefix "L2Network" (l2_Name l) (l2_Vpc l) (l2_CIDR l).

Definition isSame (p other : vpcPrefix) : bool :=
  String.eqb (vp_kind p) (vp_kind other) && String.eqb (vp_name p) (vp_name other).

Definition validateVpcPrefixCIDR (cidr path : string) : list field_error :=
  match ParseNet cidr with
  | None => [FieldInvalid path "must be a valid IPv4 CIDR"]
  | Some ipnet =>
      if negb (isTo4 (net_IP ipnet)) then [FieldInvalid path "only IPv4 CIDR blocks are supported"]
      else if (net_Ones ipnet <? vpcPrefixMinBits) || (vpcPrefixMaxBits <? net_Ones ipnet)
      then [FieldInvalid path "CIDR prefix length must be between /16 and /28"]
      else []
  end.

(** A Go map of strings read with [m[k]]: the zero value when absent. *)
Definition at_key (m : gmap string string) (k : string) : string := default "" (m !! k).

Definition listVpcPrefixes (r : Reader) : result api_error (list vpcPrefix) :=
  let? subnets := list_Subnets r in
  let? l2s := list_L2Networks r in
  Ok ((subnetVpcPrefix <$> subnets) ++ (l2NetworkVpcPrefix <$> l2s)).

Definition addPeer (vpcName : string) (peerings : gmap string string) (p : VpcPeering) : gmap string string :=
  match PeerOf p vpcName with
  | None => peerings
  | Some peer => match peerings !! peer with
                 | Some _ => peerings
                 | None => <[peer := vp_Name p]> peerings
                 end
  end.

Definition listPeeredVpcs (r : Reader) (vpcName : string) : result api_error (gmap string string) :=
  let? items := list_VpcPeerings r in Ok (foldl (addPeer vpcName) ∅ items).

(** [sort.Slice] by name, on attachments of distinct names. *)
Fixpoint insertByName (a : TransitGatewayAttachment) (l : list TransitGatewayAttachment) : list TransitGatewayAttachment :=
  match l with
  | [] => [a]
  | b :: l' => if String.leb (tga_Name a) (tga_Name b) then a :: l else b :: insertByName a l'
  end.

Definition sortByName (l : list TransitGatewayAttachment) : list TransitGatewayAttachment := foldr insertByName [] l.

(** One turn of the loop over the sorted attachments. *)
Definition addReachable (excludeAttachment excludeVpc : string) (tables : list string)
    (reachable : gmap string string) (other : TransitGatewayAttachment) : gmap string string :=
  if String.eqb (tga_Name other) excludeAttachment || String.eqb (tga_Vpc other) excludeVpc then reachable
  else match List.find (fun name => bool_decide (name ∈ tables)) (Propagations other) with
       | None => reachable
       | Some name => match reachable !! tga_Vpc other with
                      | Some _ => reachable
                      | None => <[tga_Vpc other := name]> reachable
                      end
       end.

Definition transitGatewayReachableVpcs (excludeAttachment excludeVpc : string) (routeTables : list string)
    (attachments : list TransitGatewayAttachment) : gmap string string :=
  foldl (addReachable excludeAttachment excludeVpc routeTables) ∅ (sortByName attachments).

Definition listTransitGatewayReachableVpcs (r : Reader) (vpcName : string) : result api_error (gmap string string) :=
  let? items := list_Attachments r in
  let routeTables := mjoin (RouteTables <$> filter (fun a => tga_Vpc a = vpcName) items) in
  if Nat.eqb (length routeTables) 0 then Ok ∅
  else Ok (transitGatewayReachableVpcs "" vpcName routeTables items).

(** One turn of the loop of [validateVpcPrefixNetworkOverlap]. *)
Definition networkOverlap (claim : vpcPrefix) (cidr : IPNet) (peerings reachable : gmap string string)
    (path : string) (other : vpcPrefix) : list field_error :=
  match vp_cidr other with
  | None => []
  | Some ocidr =>
      if isSame other claim || negb (cidrsOverlap cidr ocidr) then []
      else if String.eqb (vp_vpc other) (vp_vpc claim)
      then [FieldInvalid path "overlaps with an existing network of its Vpc"]
      else if negb (String.eqb (at_key peerings (vp_vpc other)) "")
      then [FieldInvalid path "overlaps with a network of a peered Vpc"]
      else if negb (String.eqb (at_key reachable (vp_vpc other)) "")
      then [FieldInvalid path "overlaps with a network reachable through a TransitGatewayRouteTable"]
      else []
  end.

Definition validateVpcPrefixNetworkOverlap (r : Reader) (claim : vpcPrefix) (cidr : IPNet)
    (peerings reachable : gmap string string) (path : string) : result api_error (list field_error) :=
  let? existing := listVpcPrefixes r in
  Ok (mjoin (networkOverlap claim cidr peerings reachable path <$> existing)).

Definition poolOverlap (cidr : IPNet) (path entry : string) : list field_error :=
  match ParseNet entry with
  | None => []
  | Some poolCIDR => when (cidrsOverlap cidr poolCIDR) (FieldInvalid path "overlaps with an endpoint pool")
  end.

Definition validateVpcPrefixEndpointPoolOverlap (r : Reader) (claim : vpcPrefix) (cidr : IPNet)
    (peerings reachable : gmap string string) (path : string) : result api_error (list field_error) :=
  let? vpcs := list_Vpcs r in
  Ok (mjoin ((fun vpc =>
        if String.eqb (vpc_Name vpc) (vp_vpc claim) || negb (String.eqb (at_key peerings (vpc_Name vpc)) "")
           || negb (String.eqb (at_key reachable (vpc_Name vpc)) "")
        then mjoin (poolOverlap cidr path <$> Cidrs (vpc_EndpointPool vpc))
        else []) <$> vpcs)).

Definition validateVpcPrefixServiceCIDROverlap (r : Reader) (claim : vpcPrefix) (cidr : IPNet)
    (serviceCIDR : option IPNet) (path : string) : result api_error (list field_error) :=
  match serviceCIDR with
  | None => Ok []
  | Some svc =>
      or_missing (get_Vpc r (vp_vpc claim)) [] (fun vpc =>
        if negb (ServiceEnabled vpc) then Ok []
        else Ok (when (cidrsOverlap cidr svc) (FieldInvalid path "overlaps with the Service CIDR")))
  end.

Definition validateVpcPrefixOverlaps (r : Reader) (serviceCIDR : option IPNet) (claim : vpcPrefix) (path : string)
  : result api_error (list field_error) :=
  match vp_cidr claim with
  | None => Ok []
  | Some cidr =>
      let? peerings := listPeeredVpcs r (vp_vpc claim) in
      let? reachable := listTransitGatewayReachableVpcs r (vp_vpc claim) in
      app_errs (validateVpcPrefixNetworkOverlap r claim cidr peerings reachable path)
        (app_errs (validateVpcPrefixEndpointPoolOverlap r claim cidr peerings reachable path)
           (validateVpcPrefixServiceCIDROverlap r claim cidr serviceCIDR path))
  end.

(** ** subnet_webhook.go *)

Definition subnet_Default (s : Subnet) : Subnet :=
  match ParseNet (sub_CIDR s) with
  | Some cidr => MkSubnet (sub_Name s) (sub_Deletion s) (sub_Vpc s) (IPNet_String cidr) (sub_RouteTable s) (sub_NetworkACL s)
  | None => s
  end.

Definition validateSubnetVpcReference (r : Reader) (s : Subnet) (path : string) : result api_error (list field_error) :=
  or_missing (get_Vpc r (sub_Vpc s)) [FieldInvalid (child path "vpc") "referenced Vpc does not exist"] (fun _ =>
    Ok (when (String.eqb (sub_Name s) "default" && negb (String.eqb (sub_Vpc s) "default"))
          (FieldInvalid (child path "vpc") "the default Subnet must reference the default Vpc") ++
        when (String.eqb (sub_Vpc s) "default" && negb (String.eqb (sub_Name s) "default"))
          (FieldInvalid (child path "vpc") "only the default Subnet can reference the default Vpc"))).

(** The RouteTable an object of [vpc] names exists and belongs to [vpc]. *)
Definition routeTableInVpc (r : Reader) (name vpc path : string) : result api_error (list field_error) :=
  or_missing (get_RouteTable r name) [FieldInvalid path "referenced RouteTable does not exist"] (fun rt =>
    Ok (when (negb (String.eqb (rt_Vpc rt) vpc)) (FieldInvalid path "RouteTable belongs to a different Vpc"))).

Definition networkACLInVpc (r : Reader) (name vpc path : string) : result api_error (list field_error) :=
  or_missing (get_NetworkACL r name) [FieldInvalid path "referenced NetworkACL does not exist"] (fun acl_vpc =>
    Ok (when (negb (String.eqb acl_vpc vpc)) (FieldInvalid path "NetworkACL belongs to another Vpc"))).

Definition validateSubnetRouteTable (r : Reader) (s : Subnet) (path : string) : result api_error (list field_error) :=
  if String.eqb (sub_RouteTable s) "" then Ok []
  else if String.eqb (sub_Name s) "default"
  then Ok [FieldForbidden path "default Subnet must use the Vpc's main RouteTable"]
  else routeTableInVpc r (sub_RouteTable s) (sub_Vpc s) path.

Definition validateSubnetNetworkACL (r : Reader) (s : Subnet) (path : string) : result api_error (list field_error) :=
  if String.eqb (sub_NetworkACL s) "" then Ok [] else networkACLInVpc r (sub_NetworkACL s) (sub_Vpc s) path.

Definition subnet_ValidateCreate (r : Reader) (serviceCIDR : option IPNet) (s : Subnet) : result api_error (list field_error) :=
  app_errs (validateSubnetVpcReference r s "spec")
    (app_errs (Ok (validateVpcPrefixCIDR (sub_CIDR s) "spec.cidr"))
      (app_errs (validateVpcPrefixOverlaps r serviceCIDR (subnetVpcPrefix s) "spec.cidr")
        (app_errs (validateSubnetRouteTable r s "spec.routeTable")
                  (validateSubnetNetworkACL r s "spec.networkACL")))).

Definition subnet_ValidateUpdate (r : Reader) (old s : Subnet) : result api_error (list field_error) :=
  app_errs (Ok (when (negb (String.eqb (sub_Vpc s) (sub_Vpc old))) (FieldInvalid "spec.vpc" "spec.vpc is immutable") ++
                when (negb (String.eqb (sub_CIDR s) (sub_CIDR old))) (FieldInvalid "spec.cidr" "spec.cidr is immutable")))
    (if shouldCheckReferences (sub_Deletion s) then
       app_errs (validateSubnetRouteTable r s "spec.routeTable")
         (if negb (String.eqb (sub_NetworkACL s) (sub_NetworkACL old))
          then validateSubnetNetworkACL r s "spec.networkACL" else Ok [])
     else Ok []).

(** Whether the deletion is accepted. *)
Definition subnet_ValidateDelete (s : Subnet) : bool := negb (String.eqb (sub_Name s) "default").

(** ** l2network_webhook.go *)

Definition defaultVpcName : string := "default".

Definition l2_validateVpcReference (r : Reader) (l2 : L2Network) (path : string) : result api_error (list field_error) :=
  if String.eqb (l2_Vpc l2) defaultVpcName then Ok [FieldInvalid path "an L2Network cannot reference the default Vpc"]
  else or_missing (get_Vpc r (l2_Vpc l2)) [FieldInvalid path "referenced Vpc does not exist"] (fun _ => Ok []).

Definition validateGatewayRouteTable (r : Reader) (l2 : L2Network) (path : string) : result api_error (list field_error) :=
  match l2_Gateway l2 with
  | None => Ok []
  | Some gw => if String.eqb (gw_RouteTable gw) "" then Ok []
               else routeTableInVpc r (gw_RouteTable gw) (l2_Vpc l2) path
  end.

Definition l2_validateNetworkACL (r : Reader) (l2 : L2Network) (path : string) : result api_error (list field_error) :=
  if String.eqb (l2_NetworkACL l2) "" then Ok [] else networkACLInVpc r (l2_NetworkACL l2) (l2_Vpc l2) path.

Definition l2_validateReferences (r : Reader) (l2 : L2Network) : result api_error (list field_error) :=
  app_errs (validateGatewayRouteTable r l2 "spec.gateway.routeTable") (l2_validateNetworkACL r l2 "spec.networkACL").

(** [podnetwork.L2NetworkGatewayAddress]; [None] is an error, [Some ""] no
    gateway. *)
Definition L2NetworkGatewayAddress (l2 : L2Network) : option string :=
  match l2_Gateway l2 with
  | None => Some ""%string
  | Some gw =>
      if negb (String.eqb (gw_Address gw) "") then Some (gw_Address gw)
      else match ParsePrefix (l2_CIDR l2) with
           | Err _ => None
           | Ok prefix => option_map Addr_String (FirstAddr prefix)
           end
  end.

Definition L2NetworkAllocationPoolName (name : string) : string := ("l2network-ip-" ++ name)%string.

Definition claimHolds (poolName address : string) (c : AllocationClaim) : bool :=
  bool_decide (cs_Phase (claim_status c) = ClaimPhaseAllocated) &&
  String.eqb (IP (cs_Value (claim_status c))) address &&
  existsb (String.eqb poolName) (PoolRefs (claim_spec c)).

Definition leaseHolds (poolName address : string) (l : AllocationLease) : bool :=
  String.eqb (PoolRef (lease_spec l)) poolName && String.eqb (IP (Value (lease_spec l))) address.

(** [findAddressHolder]: the holder, if any. *)
Definition findAddressHolder (r : Reader) (poolName address : string) : result api_error (option string) :=
  let? claims := list_Claims r in
  match List.find (claimHolds poolName address) claims with
  | Some c => Ok (Some ("AllocationClaim " ++ Name (claim_meta c))%string)
  | None =>
      let? leases := list_Leases r in
      Ok (option_map (fun l => ("AllocationLease " ++ Name (lease_meta l))%string)
            (List.find (leaseHolds poolName address) leases))
  end.

Definition validateGatewayAddressFree (r : Reader) (l2 : L2Network) : result api_error (list field_error) :=
  match L2NetworkGatewayAddress l2 with
  | None => Ok []
  | Some address =>
      if String.eqb address "" then Ok []
      else let? holder := findAddressHolder r (L2NetworkAllocationPoolName (l2_Name l2)) address in
           match holder with
           | None => Ok []
           | Some _ => Ok [FieldInvalid "spec.gateway.address" "address is already held"]
           end
  end.

Definition l2NetworkGatewayAddressMoved (old updated : L2Network) : option bool :=
  match L2NetworkGatewayAddress old, L2NetworkGatewayAddress updated with
  | Some before, Some after => Some (negb (String.eqb after "") && negb (String.eqb after before))
  | _, _ => None
  end.

Definition validateL2NetworkCIDR (cidr path : string) : list field_error :=
  if String.eqb cidr "" then []
  else match validateVpcPrefixCIDR cidr path with
       | [] => match ParsePrefix cidr with
               | Err _ => [FieldInvalid path "must be a valid IPv4 CIDR"]
               | Ok prefix => when (negb (String.eqb (Prefix_String (Masked prefix)) cidr))
                                (FieldInvalid path "must be written in its normalized form")
               end
       | errs => errs
       end.

Definition validateL2NetworkGateway (l2 : L2Network) : list field_error :=
  match l2_Gateway l2 with
  | None => []
  | Some gw =>
      if String.eqb (l2_CIDR l2) "" then [FieldRequired "spec.cidr"]
      else if String.eqb (gw_Address gw) "" then []
      else match ParsePrefix (l2_CIDR l2) with
           | Err _ => []
           | Ok p =>
               let prefix := Masked p in
               match ParseAddr (gw_Address gw) with
               | Err _ => [FieldInvalid "spec.gateway.address" "must be a valid IPv4 address"]
               | Ok addr =>
                   if negb (Is4 addr) then [FieldInvalid "spec.gateway.address" "must be a valid IPv4 address"]
                   else if negb (Contains prefix addr) then [FieldInvalid "spec.gateway.address" "must be within spec.cidr"]
                   else if bool_decide (addr = pfx_addr prefix)
                   then [FieldInvalid "spec.gateway.address" "must not be the network address of spec.cidr"]
                   else if bool_decide (addr = LastAddr prefix)
                   then [FieldInvalid "spec.gateway.address" "must not be the broadcast address of spec.cidr"]
                   else []
               end
           end
  end.

Definition validateL2NetworkACLNeedsGateway (l2 : L2Network) : list field_error :=
  if String.eqb (l2_NetworkACL l2) "" || bool_decide (is_Some (l2_Gateway l2)) then []
  else [FieldForbidden "spec.networkACL" "a NetworkACL only applies to traffic crossing spec.gateway"].

Definition l2_ValidateCreate (r : Reader) (serviceCIDR : option IPNet) (l2 : L2Network) : result api_error (list field_error) :=
  app_errs (l2_validateVpcReference r l2 "spec.vpc")
    (app_errs (Ok (validateL2NetworkCIDR (l2_CIDR l2) "spec.cidr"))
      (app_errs (validateVpcPrefixOverlaps r serviceCIDR (l2NetworkVpcPrefix l2) "spec.cidr")
        (app_errs (Ok (validateL2NetworkGateway l2 ++ validateL2NetworkACLNeedsGateway l2))
          (app_errs (l2_validateReferences r l2) (validateGatewayAddressFree r l2))))).

Definition l2_ValidateUpdate (r : Reader) (old l2 : L2Network) : result api_error (list field_error) :=
  app_errs (Ok (when (negb (String.eqb (l2_Vpc l2) (l2_Vpc old))) (FieldInvalid "spec.vpc" "spec.vpc is immutable") ++
                when (negb (String.eqb (l2_CIDR l2) (l2_CIDR old))) (FieldInvalid "spec.cidr" "spec.cidr is immutable") ++
                validateL2NetworkGateway l2 ++ validateL2NetworkACLNeedsGateway l2))
    (if shouldCheckReferences (l2_Deletion l2) then
       app_errs (validateGatewayRouteTable r l2 "spec.gateway.routeTable")
         (app_errs
            (if negb (String.eqb (l2_NetworkACL l2) (l2_NetworkACL old))
             then l2_validateNetworkACL r l2 "spec.networkACL" else Ok [])
            (if default false (l2NetworkGatewayAddressMoved old l2)
             then validateGatewayAddressFree r l2 else Ok []))
     else Ok []).

(** ** vpc_webhook.go *)

(** [Default] rewrites the entries of the pool that parse. *)
Definition vpc_Default (v : Vpc) : Vpc :=
  MkVpc (vpc_Name v) (vpc_Deletion v) (vpc_Service v) (vpc_EnforceSecurityGroups v)
    (fmap (M := option) (fmap (M := list) (fun entry =>
       match ParseNet entry with Some cidr => IPNet_String cidr | None => entry end)) (vpc_EndpointPool v)).

Definition vpcEndpointPoolChanged (old : option Vpc) (v : Vpc) : bool :=
  match old with
  | None => true
  | Some old => negb (bool_decide (Cidrs (vpc_EndpointPool old) = Cidrs (vpc_EndpointPool v)))
  end.

(** An entry of the pool: its errors, and the network when it has none. *)
Definition poolEntry (path : string) (i : nat) (entry : string) : list field_error * option IPNet :=
  match ParseNet entry with
  | None => ([FieldInvalid (at_index path i) "must be a valid IPv4 CIDR"], None)
  | Some cidr =>
      if negb (isTo4 (net_IP cidr)) then ([FieldInvalid (at_index path i) "only IPv4 CIDR blocks are supported"], None)
      else if (net_Ones cidr <? 16) || (32 <? net_Ones cidr)
      then ([FieldInvalid (at_index path i) "CIDR prefix length must be between /16 and /32"], None)
      else ([], Some cidr)
  end.

Definition validateVpcEndpointPoolCIDRs (pool : option (list string)) (path : string) : list field_error :=
  let entries := imap (poolEntry path) (Cidrs pool) in
  let parsed := entries.*2 in
  mjoin entries.*1 ++
  mjoin (imap (fun i cidr =>
    match cidr with
    | None => []
    | Some cidr => mjoin ((fun other => match other with
                          | None => []
                          | Some other => when (cidrsOverlap cidr other)
                                            (FieldInvalid (at_index path i) "overlaps with an earlier entry")
                          end) <$> take i parsed)
    end) parsed).

Definition validateVpcEndpointPoolServiceCIDROverlap (pool : option (list string)) (serviceCIDR : option IPNet) (path : string)
  : list field_error :=
  match serviceCIDR with
  | None => []
  | Some svc =>
      mjoin (imap (fun i entry =>
        match ParseNet entry with
        | None => []
        | Some poolCIDR => when (cidrsOverlap poolCIDR svc) (FieldInvalid (at_index path i) "overlaps with the Service CIDR")
        end) (Cidrs pool))
  end.

(** The loop the three Subnet checks of a pool share: the Subnets of the Vpcs
    [reaches] accepts. *)
Definition poolSubnetOverlaps (pool : option (list string)) (path : string) (subnets : list Subnet)
    (reaches : string -> bool) : list field_error :=
  mjoin (imap (fun i entry =>
    match ParseNet entry with
    | None => []
    | Some poolCIDR =>
        mjoin ((fun s =>
          if negb (reaches (sub_Vpc s)) then []
          else match ParseNet (sub_CIDR s) with
               | None => []
               | Some subnetCIDR => when (cidrsOverlap poolCIDR subnetCIDR)
                                      (FieldInvalid (at_index path i) "overlaps with a Subnet")
               end) <$> subnets)
    end) (Cidrs pool)).

Definition validateVpcEndpointPoolSubnetOverlap (r : Reader) (v : Vpc) (path : string) : result api_error (list field_error) :=
  if negb (Configured (vpc_EndpointPool v)) then Ok []
  else let? subnets := list_Subnets r in
       Ok (poolSubnetOverlaps (vpc_EndpointPool v) path subnets (fun vpc => String.eqb vpc (vpc_Name v))).

Definition validateVpcEndpointPoolPeeredSubnetOverlap (r : Reader) (v : Vpc) (path : string) : result api_error (list field_error) :=
  if negb (Configured (vpc_EndpointPool v)) then Ok []
  else let? peerings := listPeeredVpcs r (vpc_Name v) in
       if Nat.eqb (size peerings) 0 then Ok []
       else let? subnets := list_Subnets r in
            Ok (poolSubnetOverlaps (vpc_EndpointPool v) path subnets (fun vpc => bool_decide (is_Some (peerings !! vpc)))).

Definition validateVpcEndpointPoolTransitGatewaySubnetOverlap (r : Reader) (v : Vpc) (path : string) : result api_error (list field_error) :=
  if negb (Configured (vpc_EndpointPool v)) then Ok []
  else let? reachable := listTransitGatewayReachableVpcs r (vpc_Name v) in
       if Nat.eqb (size reachable) 0 then Ok []
       else let? subnets := list_Subnets r in
            Ok (poolSubnetOverlaps (vpc_EndpointPool v) path subnets (fun vpc => bool_decide (is_Some (reachable !! vpc)))).

Definition vpcEndpointPoolContains (pool : option (list string)) (address : Addr) : bool :=
  existsb (fun entry => match ParseNet entry with
                        | Some cidr => IPNet_Contains cidr address
                        | None => false
                        end) (Cidrs pool).

Definition validateVpcEndpointPoolShrink (r : Reader) (v : Vpc) (path : string) : result api_error (list field_error) :=
  let? endpoints := list_VpcEndpoints r in
  Ok (mjoin ((fun e =>
        if negb (String.eqb (ep_Vpc e) (vpc_Name v)) || String.eqb (ep_Address e) "" then []
        else match ParseIP (ep_Address e) with
             | None => []
             | Some address =>
                 when (negb (vpcEndpointPoolContains (vpc_EndpointPool v) address))
                   (FieldInvalid path "a VpcEndpoint still uses an address no remaining CIDR covers")
             end) <$> endpoints)).

Definition validateServiceEnabled (r : Reader) (serviceCIDR : option IPNet) (v : Vpc) (path : string)
  : result api_error (list field_error) :=
  match serviceCIDR with
  | None => Ok []
  | Some svc =>
      let? subnets := list_Subnets r in
      Ok (mjoin ((fun s =>
            if negb (String.eqb (sub_Vpc s) (vpc_Name v)) then []
            else match ParseNet (sub_CIDR s) with
                 | None => []
                 | Some subnetCIDR => when (cidrsOverlap subnetCIDR svc) (FieldInvalid path "a Subnet overlaps with the Service CIDR")
                 end) <$> subnets))
  end.

(** [VpcCustomValidator.validate]; [ValidateCreate] passes no old object. *)
Definition vpc_validate (r : Reader) (serviceCIDR : option IPNet) (v : Vpc) (old : option Vpc) : result api_error (list field_error) :=
  let pool := vpc_EndpointPool v in
  let poolPath := "spec.endpointPool.cidrs"%string in
  app_errs
    (if ServiceEnabled v && shouldCheckReferences (vpc_Deletion v) &&
        match old with None => true | Some old => negb (ServiceEnabled old) end
     then validateServiceEnabled r serviceCIDR v "spec.service" else Ok [])
    (if negb (vpcEndpointPoolChanged old v) then Ok []
     else
       app_errs (Ok (validateVpcEndpointPoolCIDRs pool poolPath ++
                     validateVpcEndpointPoolServiceCIDROverlap pool serviceCIDR poolPath))
         (if negb (shouldCheckReferences (vpc_Deletion v)) then Ok []
          else app_errs (validateVpcEndpointPoolSubnetOverlap r v poolPath)
                 (app_errs (validateVpcEndpointPoolPeeredSubnetOverlap r v poolPath)
                    (app_errs (validateVpcEndpointPoolTransitGatewaySubnetOverlap r v poolPath)
                       (match old with
                        | Some _ => validateVpcEndpointPoolShrink r v poolPath
                        | None => Ok []
                        end))))).

(** [VpcCustomValidator.ValidateDelete]: the error of a read, or why the
    deletion is refused. *)
Inductive delete_refusal := RefusedDefault | RefusedBy (kind : string) (names : list string).

Definition refuse_by (kind : string) (names : list string) (k : result api_error (option delete_refusal))
  : result api_error (option delete_refusal) :=
  match names with [] => k | _ => Ok (Some (RefusedBy kind names)) end.

Definition vpc_ValidateDelete (r : Reader) (v : Vpc) : result api_error (option delete_refusal) :=
  let name := vpc_Name v in
  if String.eqb name "default" then Ok (Some RefusedDefault)
  else
    let? subnets := list_Subnets r in
    refuse_by "Subnet" (sub_Name <$> filter (fun s => sub_Vpc s = name) subnets) (
    let? l2s := list_L2Networks r in
    refuse_by "L2Network" (l2_Name <$> filter (fun l => l2_Vpc l = name) l2s) (
    let? peerings := list_VpcPeerings r in
    refuse_by "VpcPeering" (vp_Name <$> filter (fun p => Connects p name = true) peerings) (
    let? attachments := list_Attachments r in
    refuse_by "TransitGatewayAttachment" (tga_Name <$> filter (fun a => tga_Vpc a = name) attachments) (
    let? zones := list_DNSZones r in
    refuse_by "DNSZone" (ref_Name <$> filter (fun z => name ∈ ref_To z) zones) (Ok None))))).

(** ** vpcpeering_webhook.go *)

Definition validateVpcPeeringUnique (r : Reader) (p : VpcPeering) : result api_error (list field_error) :=
  let? items := list_VpcPeerings r in
  Ok (match List.find (fun existing => negb (String.eqb (vp_Name existing) (vp_Name p)) &&
                         Connects existing (Requester p) && Connects existing (Accepter p)) items with
      | Some _ => [FieldInvalid "spec.accepter.vpc" "the Vpcs are already connected by a VpcPeering"]
      | None => []
      end).

(** The pairs of Subnets of two lists that overlap. *)
Definition subnetsOverlap (path : string) (own others : list Subnet) : list field_error :=
  mjoin ((fun a =>
    match ParseNet (sub_CIDR a) with
    | None => []
    | Some aCIDR =>
        mjoin ((fun b =>
          match ParseNet (sub_CIDR b) with
          | None => []
          | Some bCIDR => when (cidrsOverlap aCIDR bCIDR) (FieldInvalid path "Subnets overlap")
          end) <$> others)
    end) <$> own).

Definition validateVpcPeeringCIDROverlap (r : Reader) (requester accepter : string) : result api_error (list field_error) :=
  let? subnets := list_Subnets r in
  Ok (subnetsOverlap "spec" (filter (fun s => sub_Vpc s = requester) subnets)
        (filter (fun s => sub_Vpc s <> requester /\ sub_Vpc s = accepter) subnets)).

(** [ValidateCreate]. *)
Definition validateVpcPeeringSpec (r : Reader) (p : VpcPeering) : result api_error (list field_error) :=
  if String.eqb (Requester p) (Accepter p)
  then Ok [FieldInvalid "spec.accepter.vpc" "spec.accepter.vpc must not equal spec.requester.vpc"]
  else
    let? errs := app_errs
      (or_missing (get_Vpc r (Requester p)) [FieldInvalid "spec.requester.vpc" "referenced Vpc does not exist"] (fun _ => Ok []))
      (or_missing (get_Vpc r (Accepter p)) [FieldInvalid "spec.accepter.vpc" "referenced Vpc does not exist"] (fun _ => Ok [])) in
    match errs with
    | [] =>
        let? dup := validateVpcPeeringUnique r p in
        match dup with
        | [] => validateVpcPeeringCIDROverlap r (Requester p) (Accepter p)
        | _ => Ok dup
        end
    | _ => Ok errs
    end.

Definition peering_ValidateUpdate (old p : VpcPeering) : list field_error :=
  when (negb (String.eqb (Requester p) (Requester old))) (FieldInvalid "spec.requester" "spec.requester is immutable") ++
  when (negb (String.eqb (Accepter p) (Accepter old))) (FieldInvalid "spec.accepter" "spec.accepter is immutable").

Definition ViaVpcPeering : string := "vpcPeering".

(** The names of the RouteTables the deletion is refused for. *)
Definition peering_ValidateDelete (r : Reader) (p : VpcPeering) : result api_error (list string) :=
  let? tables := list_RouteTables r in
  Ok (rt_Name <$> filter (fun rt => existsb (fun via => String.eqb (via_Type via) ViaVpcPeering &&
                                      String.eqb (via_VpcPeering via) (vp_Name p)) (rt_Routes rt) = true) tables).

(** ** transitgatewayattachment_webhook.go *)

Definition transitRouteTable (r : Reader) (a : TransitGatewayAttachment) (path name : string) : result api_error (list field_error) :=
  or_missing (get_TransitGatewayRouteTable r name) [FieldInvalid path "referenced TransitGatewayRouteTable does not exist"]
    (fun tgw => Ok (when (negb (String.eqb tgw (tga_TransitGateway a)))
                      (FieldInvalid path "TransitGatewayRouteTable belongs to another TransitGateway"))).

Definition validateTransitGatewayCIDROverlap (r : Reader) (a : TransitGatewayAttachment)
    (attachments : list TransitGatewayAttachment) : result api_error (list field_error) :=
  let reachable := transitGatewayReachableVpcs (tga_Name a) (tga_Vpc a) (RouteTables a) attachments in
  if Nat.eqb (size reachable) 0 then Ok []
  else let? subnets := list_Subnets r in
       Ok (subnetsOverlap "spec.vpc" (filter (fun s => sub_Vpc s = tga_Vpc a) subnets)
             (filter (fun s => sub_Vpc s <> tga_Vpc a /\ is_Some (reachable !! sub_Vpc s)) subnets)).

(** [validateTransitGatewayAttachmentSpec], which [ValidateCreate] is. *)
Definition validateTransitGatewayAttachmentSpec (r : Reader) (a : TransitGatewayAttachment) : result api_error (list field_error) :=
  let? errs := app_errs
    (or_missing (get_TransitGateway r (tga_TransitGateway a))
       [FieldInvalid "spec.transitGateway" "referenced TransitGateway does not exist"] (fun _ => Ok []))
    (app_errs
       (or_missing (get_Vpc r (tga_Vpc a)) [FieldInvalid "spec.vpc" "referenced Vpc does not exist"] (fun _ => Ok []))
       (foldr app_errs (Ok [])
          (transitRouteTable r a "spec.association" (Association a) ::
           imap (fun i name => transitRouteTable r a (at_index "spec.propagations" i) name) (Propagations a)))) in
  match errs with
  | [] =>
      let? attachments := list_Attachments r in
      match List.find (fun existing => negb (String.eqb (tga_Name existing) (tga_Name a)) &&
                         String.eqb (tga_TransitGateway existing) (tga_TransitGateway a) &&
                         String.eqb (tga_Vpc existing) (tga_Vpc a)) attachments with
      | Some _ => Ok [FieldInvalid "spec.vpc" "the Vpc is already attached to the TransitGateway"]
      | None => validateTransitGatewayCIDROverlap r a attachments
      end
  | _ => Ok errs
  end.

Definition tga_ValidateUpdate (r : Reader) (old a : TransitGatewayAttachment) : result api_error (list field_error) :=
  let errs :=
    when (negb (String.eqb (tga_TransitGateway a) (tga_TransitGateway old)))
      (FieldInvalid "spec.transitGateway" "spec.transitGateway is immutable") ++
    when (negb (String.eqb (tga_Vpc a) (tga_Vpc old))) (FieldInvalid "spec.vpc" "spec.vpc is immutable") in
  match errs with
  | [] => if shouldCheckReferences (tga_Deletion a) then validateTransitGatewayAttachmentSpec r a else Ok []
  | _ => Ok errs
  end.
