(* ===== verification/AddressPlanInv.v ===== *)
(** * AddressPlanInv: what an admission establishes about the address plan

    The stored objects of a cluster ([cluster]), the invariant of its address
    plan ([plan_ok]) and, for each validator, what an empty error list means. *)

From stdpp Require Import base gmap strings list sets.
From Stdlib Require Import ZArith Lia.
From S2P Require Import Prelude Netip AddressRange IPNet Kube AllocationTypes PolicyRules.
From S2P Require Import AddressPlan.
Open Scope Z_scope.
Open Scope go_scope.

(** ** Empty error lists *)

Lemma app_errs_nil r1 r2 : app_errs r1 r2 = Ok [] <-> r1 = Ok [] /\ r2 = Ok [].
Proof.
  unfold app_errs, res_bind. split; [|by intros [-> ->]].
  destruct r1 as [e1|], r2 as [e2|]; try done. intros [= [-> ->]%app_eq_nil]. done.
Qed.

Lemma mjoin_nil {A B} (f : A -> list B) (l : list A) : mjoin (f <$> l) = [] <-> forall x, x ∈ l -> f x = [].
Proof.
  induction l as [|x l IH]; [split; [intros _ x Hx; by apply elem_of_nil in Hx|done]|].
  rewrite fmap_cons. cbn [mjoin list_join]. rewrite app_nil, IH. setoid_rewrite elem_of_cons. naive_solver.
Qed.

Lemma mjoin_imap_nil {A B} (f : nat -> A -> list B) (l : list A) :
  mjoin (imap f l) = [] -> forall x, x ∈ l -> exists i, f i x = [].
Proof.
  intros Hj x [i Hi]%list_elem_of_lookup. exists i.
  enough (forall g, mjoin g = [] -> forall y : list B, y ∈ g -> y = []) as Hg.
  { apply (Hg _ Hj). apply list_elem_of_lookup. exists i. rewrite list_lookup_imap, Hi. done. }
  clear. induction g as [|z g IH]; intros Hj y Hy; [by apply elem_of_nil in Hy|].
  cbn [mjoin list_join] in Hj. apply app_nil in Hj as [-> Hj].
  apply elem_of_cons in Hy as [->|Hy]; auto.
Qed.

(** ** The cluster *)

Record cluster := MkCluster {
  c_subnets : list Subnet;
  c_l2networks : list L2Network;
  c_vpcs : list Vpc;
  c_peerings : list VpcPeering;
  c_attachments : list TransitGatewayAttachment;
  c_endpoints : list VpcEndpoint;
  c_routeTables : list RouteTable;
  c_acls : list (string * string);
  c_transitGateways : list string;
  c_transitRouteTables : list (string * string);
  c_zones : list Referrer;
  c_claims : list AllocationClaim;
  c_leases : list AllocationLease;
}.

Definition found {A B} (f : A -> string) (g : A -> B) (l : list A) (name : string) : result api_error B :=
  match List.find (fun x => String.eqb (f x) name) l with Some x => Ok (g x) | None => Err NotFound end.

(** The reader of the webhook server reads the stored objects. *)
Definition reader_of (c : cluster) : Reader := MkReader
  (found vpc_Name id (c_vpcs c)) (found rt_Name id (c_routeTables c)) (found fst snd (c_acls c))
  (found id (fun _ => tt) (c_transitGateways c)) (found fst snd (c_transitRouteTables c))
  (Ok (c_subnets c)) (Ok (c_l2networks c)) (Ok (c_vpcs c)) (Ok (c_peerings c)) (Ok (c_attachments c))
  (Ok (c_endpoints c)) (Ok (c_routeTables c)) (Ok (c_zones c)) (Ok (c_claims c)) (Ok (c_leases c)).

(** ** The invariant *)

Definition subnet_prefixes (c : cluster) : list vpcPrefix := subnetVpcPrefix <$> c_subnets c.
Definition prefixes (c : cluster) : list vpcPrefix := subnet_prefixes c ++ (l2NetworkVpcPrefix <$> c_l2networks c).

Definition apart (p q : vpcPrefix) : Prop :=
  forall a b, vp_cidr p = Some a -> vp_cidr q = Some b -> cidrsOverlap a b = false.

Definition live_attachments (c : cluster) : list TransitGatewayAttachment :=
  filter (fun a => Time_IsZero (tga_Deletion a) = true) (c_attachments c).

(** The endpoint pool entries of the Vpcs that are not being deleted. *)
Definition pool_entries (c : cluster) : list (string * string) :=
  mjoin ((fun v => pair (vpc_Name v) <$> Cidrs (vpc_EndpointPool v)) <$>
         filter (fun v => Time_IsZero (vpc_Deletion v) = true) (c_vpcs c)).

Definition peered (peerings : list VpcPeering) (v w : string) : Prop :=
  exists p, p ∈ peerings /\ Connects p v = true /\ Connects p w = true.

(** Both Vpcs advertise their prefixes into one route table. *)
Definition share_table (attachments : list TransitGatewayAttachment) (v w : string) : Prop :=
  exists a b t, a ∈ attachments /\ b ∈ attachments /\ tga_Vpc a = v /\ tga_Vpc b = w /\
    t <> EmptyString /\ t ∈ Propagations a /\ t ∈ Propagations b.

(** Two Vpcs whose Subnets the webhooks compare in either order of admission:
    a peering joins them, or both propagate into one route table.  Of a table
    that is the association of one of them only, see
    [attachment_order_matters]. *)
Definition linked (c : cluster) (v w : string) : Prop :=
  v <> w /\ (peered (c_peerings c) v w \/ share_table (live_attachments c) v w).

Record plan_ok (c : cluster) : Prop := {
  same_vpc_apart : forall p q, p ∈ prefixes c -> q ∈ prefixes c -> isSame p q = false ->
    vp_vpc p = vp_vpc q -> apart p q;
  linked_apart : forall p q, p ∈ subnet_prefixes c -> q ∈ subnet_prefixes c ->
    linked c (vp_vpc p) (vp_vpc q) -> apart p q;
  pool_apart : forall v e n p m, (v, e) ∈ pool_entries c -> ParseNet e = Some n ->
    p ∈ subnet_prefixes c -> vp_vpc p = v -> vp_cidr p = Some m -> cidrsOverlap n m = false;
}.

(** Names the API server guarantees: not empty, distinct for each kind. *)
Record names_ok (c : cluster) : Prop := {
  peering_names : forall p, p ∈ c_peerings c -> vp_Name p <> EmptyString;
  attachment_names : forall a, a ∈ c_attachments c -> tga_Name a <> EmptyString;
  attachment_distinct : NoDup (tga_Name <$> c_attachments c);
}.

Lemma apart_sym p q : apart p q -> apart q p.
Proof. intros H a b Ha Hb. rewrite cidrsOverlap_comm. by apply H. Qed.

Lemma isSame_sym p q : isSame p q = isSame q p.
Proof. unfold isSame. by rewrite (String.eqb_sym (vp_kind p)), (String.eqb_sym (vp_name p)). Qed.

Lemma isSame_kind p q : vp_kind p <> vp_kind q -> isSame p q = false.
Proof. intros H. unfold isSame. apply String.eqb_neq in H. by rewrite H. Qed.

Lemma share_table_sym l v w : share_table l v w -> share_table l w v.
Proof. intros (a & b & t & ? & ? & ? & ? & ? & ? & ?). by exists b, a, t. Qed.

Lemma share_table_mono l l' v w : l' ⊆ l -> share_table l' v w -> share_table l v w.
Proof. intros Hl (a & b & t & Ha & Hb & ?). exists a, b, t. split; [by apply Hl|]. split; [by apply Hl|done]. Qed.

Lemma linked_sym c v w : linked c v w -> linked c w v.
Proof.
  intros [Hne [(p & ? & ? & ?)|Hs]]; (split; [done|]); [left; by exists p|right; by apply share_table_sym].
Qed.

(** Less of everything keeps the plan. *)
Lemma plan_ok_mono c c' :
  subnet_prefixes c' ⊆ subnet_prefixes c -> prefixes c' ⊆ prefixes c ->
  (forall v w, peered (c_peerings c') v w -> peered (c_peerings c) v w) ->
  (forall v w, share_table (live_attachments c') v w -> share_table (live_attachments c) v w) ->
  pool_entries c' ⊆ pool_entries c ->
  plan_ok c -> plan_ok c'.
Proof.
  intros Hs Hp Hpe Ha Hpool [H1 H2 H3]. split.
  - intros p q Hp1 Hq1. by apply H1; apply Hp.
  - intros p q Hp1 Hq1 [Hne Hl]. apply H2; [by apply Hs..|]. split; [done|].
    destruct Hl as [Hl|Hl]; [left; by apply Hpe|right; by apply Ha].
  - intros v e n p m He Hn Hp1 Hv. apply (H3 v e n p m); [by apply Hpool|done|by apply Hs|done].
Qed.

(** ** The maps of linked Vpcs are complete *)

Lemma addPeer_mono vpc peer m p : at_key m peer <> EmptyString -> at_key (addPeer vpc m p) peer <> EmptyString.
Proof.
  unfold addPeer. intros Hm. destruct (PeerOf p vpc) as [q|]; [|done]. destruct (m !! q) eqn:Hq; [done|].
  unfold at_key in *. destruct (decide (q = peer)) as [->|]; [by rewrite Hq in Hm|by rewrite lookup_insert_ne].
Qed.

Lemma addPeer_names vpc m p :
  vp_Name p <> EmptyString -> (forall k s, m !! k = Some s -> s <> EmptyString) ->
  forall k s, addPeer vpc m p !! k = Some s -> s <> EmptyString.
Proof.
  intros Hp Hm k s. unfold addPeer. destruct (PeerOf p vpc) as [q|]; [|apply Hm]. destruct (m !! q); [apply Hm|].
  rewrite lookup_insert_Some. intros [[_ <-]|[_ ?]]; [done|by eapply Hm].
Qed.

Lemma peers_complete vpc peer items m :
  (forall p, p ∈ items -> vp_Name p <> EmptyString) -> (forall k s, m !! k = Some s -> s <> EmptyString) ->
  at_key m peer <> EmptyString \/ (exists p, p ∈ items /\ PeerOf p vpc = Some peer) ->
  at_key (foldl (addPeer vpc) m items) peer <> EmptyString.
Proof.
  revert m. induction items as [|p items IH]; intros m Hn Hm Hor; cbn [foldl].
  { destruct Hor as [?|(p & Hp & _)]; [done|]. by apply elem_of_nil in Hp. }
  apply IH; [intros q Hq; apply Hn; by constructor|apply addPeer_names; [apply Hn; constructor|done]|].
  destruct Hor as [Hor|(q & [->|Hq]%elem_of_cons & Hpeer)]; [left; by apply addPeer_mono| |right; by exists q].
  left. unfold addPeer. rewrite Hpeer. destruct (m !! peer) as [s|] eqn:Hs; unfold at_key.
  - rewrite Hs. by eapply Hm.
  - rewrite lookup_insert_eq. apply Hn. constructor.
Qed.

Lemma PeerOf_Connects p v w : v <> w -> Connects p v = true -> Connects p w = true -> PeerOf p v = Some w.
Proof.
  unfold Connects, PeerOf. rewrite !orb_true_iff, !String.eqb_eq. intros Hne [<-|<-] [<-|<-]; try done.
  - by rewrite String.eqb_refl.
  - destruct (String.eqb_spec (Accepter p) (Requester p)); [congruence|]. by rewrite String.eqb_refl.
Qed.

(** The reachable Vpcs of a set of route tables: [reach_ok m] is what every
    turn of the loop keeps. *)
Definition reach_ok (m : gmap string string) : Prop := forall k s, m !! k = Some s -> s <> EmptyString.

Lemma addReachable_names ex vpc tables m b :
  EmptyString ∉ tables -> reach_ok m -> reach_ok (addReachable ex vpc tables m b).
Proof.
  intros Ht Hm. unfold addReachable. destruct (_ || _); [done|].
  destruct (List.find _ (Propagations b)) as [t|] eqn:Hf; [|done]. destruct (m !! tga_Vpc b); [done|].
  intros k s. rewrite lookup_insert_Some. intros [[_ <-]|[_ ?]]; [|by eapply Hm].
  apply List.find_some in Hf as [_ Hf]. apply bool_decide_eq_true in Hf. by intros ->.
Qed.

Lemma addReachable_mono ex vpc tables m b w : is_Some (m !! w) -> is_Some (addReachable ex vpc tables m b !! w).
Proof.
  intros Hm. unfold addReachable. destruct (_ || _); [done|]. destruct (List.find _ _); [|done].
  destruct (m !! tga_Vpc b) eqn:Hb; [done|]. destruct (decide (tga_Vpc b = w)) as [<-|].
  - rewrite Hb in Hm. by destruct Hm.
  - by rewrite lookup_insert_ne.
Qed.

(** [b] advertises into one of [tables]. *)
Definition reaches (ex vpc : string) (tables : list string) (b : TransitGatewayAttachment) : Prop :=
  tga_Name b <> ex /\ tga_Vpc b <> vpc /\ exists t, t ∈ Propagations b /\ t ∈ tables.

Lemma addReachable_adds ex vpc tables m b :
  reaches ex vpc tables b -> is_Some (addReachable ex vpc tables m b !! tga_Vpc b).
Proof.
  intros (Hn & Hv & t & Ht & Hin). unfold addReachable.
  rewrite (proj2 (String.eqb_neq _ _) Hn), (proj2 (String.eqb_neq _ _) Hv). cbn [orb].
  destruct (List.find _ (Propagations b)) as [s|] eqn:Hf.
  - destruct (m !! tga_Vpc b) eqn:Hm; [by rewrite Hm|]. by rewrite lookup_insert_eq.
  - exfalso. apply list_elem_of_In in Ht. pose proof (List.find_none _ _ Hf t Ht) as Hno. cbn in Hno.
    by apply bool_decide_eq_false in Hno.
Qed.

Lemma reachable_loop ex vpc tables l m w :
  is_Some (m !! w) \/ (exists b, b ∈ l /\ tga_Vpc b = w /\ reaches ex vpc tables b) ->
  is_Some (foldl (addReachable ex vpc tables) m l !! w).
Proof.
  revert m. induction l as [|b l IH]; intros m Hor; cbn [foldl].
  { destruct Hor as [?|(b & Hb & _)]; [done|]. by apply elem_of_nil in Hb. }
  apply IH. destruct Hor as [Hm|(b' & [->|Hb]%elem_of_cons & <- & Hr)].
  - left. by apply addReachable_mono.
  - left. by apply addReachable_adds.
  - right. by exists b'.
Qed.

Lemma elem_of_insertByName a b l : b ∈ insertByName a l <-> b = a \/ b ∈ l.
Proof.
  induction l as [|x l IH]; cbn [insertByName]; [set_solver|]. destruct (String.leb _ _); [set_solver|].
  rewrite elem_of_cons, IH, elem_of_cons. tauto.
Qed.

Lemma elem_of_sortByName b l : b ∈ sortByName l <-> b ∈ l.
Proof. induction l as [|a l IH]; [done|]. cbn [sortByName foldr]. rewrite elem_of_insertByName, elem_of_cons. by rewrite <- IH. Qed.

Lemma reachable_complete ex vpc tables l b :
  b ∈ l -> reaches ex vpc tables b -> is_Some (transitGatewayReachableVpcs ex vpc tables l !! tga_Vpc b).
Proof. intros Hb Hr. apply reachable_loop. right. exists b. by rewrite elem_of_sortByName. Qed.

Lemma reachable_names ex vpc tables l :
  EmptyString ∉ tables -> reach_ok (transitGatewayReachableVpcs ex vpc tables l).
Proof.
  intros Ht. unfold transitGatewayReachableVpcs. generalize (sortByName l). intros sorted.
  assert (H0 : reach_ok ∅) by done. revert H0. generalize (∅ : gmap string string).
  induction sorted as [|b sorted IH]; intros m Hm; [done|]. apply IH. by apply addReachable_names.
Qed.

Lemma distinct_names_elem seen names t :
  t ∈ distinct_names seen names <-> t <> EmptyString /\ t ∉ seen /\ t ∈ names.
Proof.
  revert seen. induction names as [|n names IH]; intros seen; cbn [distinct_names]; [set_solver|].
  destruct (String.eqb_spec n "") as [->|Hn]; cbn [orb]; [rewrite IH; set_solver|].
  case_bool_decide as Hs; [rewrite IH; set_solver|]. rewrite elem_of_cons, IH, elem_of_cons.
  destruct (decide (t = n)) as [->|]; set_solver.
Qed.

Lemma elem_of_RouteTables a t : t ∈ RouteTables a <-> t <> EmptyString /\ t ∈ Association a :: Propagations a.
Proof. unfold RouteTables. rewrite distinct_names_elem. set_solver. Qed.

(** What a network claim sees of the Vpcs it is linked to. *)
Lemma linked_seen c v w peerings reachable :
  names_ok c -> linked c v w ->
  listPeeredVpcs (reader_of c) v = Ok peerings -> listTransitGatewayReachableVpcs (reader_of c) v = Ok reachable ->
  at_key peerings w <> EmptyString \/ at_key reachable w <> EmptyString.
Proof.
  intros [Hpn Han _] [Hne Hl] [= <-] Hr. destruct Hl as [(p & Hp & Hv & Hw)|(a & b & t & Ha & Hb & Hva & Hvb & Ht & Hta & Htb)].
  - left. apply peers_complete; [done|done|]. right. exists p. split; [done|]. by apply PeerOf_Connects.
  - right. apply list_elem_of_filter in Ha as [_ Ha]. apply list_elem_of_filter in Hb as [_ Hb].
    unfold listTransitGatewayReachableVpcs in Hr. cbn [reader_of list_Attachments res_bind] in Hr.
    set (tables := mjoin (RouteTables <$> filter _ _)) in Hr.
    assert (Htab : t ∈ tables).
    { apply list_elem_of_join. exists (RouteTables a). split; [apply elem_of_RouteTables; set_solver|].
      apply list_elem_of_fmap. exists a. split; [done|]. by apply list_elem_of_filter. }
    assert (Hempty : EmptyString ∉ tables).
    { intros (l & Hin & (a' & -> & _)%list_elem_of_fmap)%list_elem_of_join. by apply elem_of_RouteTables in Hin as [? _]. }
    destruct (Nat.eqb_spec (length tables) 0) as [Hz|_]; [apply length_zero_iff_nil in Hz; rewrite Hz in Htab; by apply elem_of_nil in Htab|].
    injection Hr as <-. subst w.
    destruct (reachable_complete "" v tables (c_attachments c) b Hb) as [s Hs].
    { split_and!; [by apply Han|congruence|]. by exists t. }
    unfold at_key. rewrite Hs. by eapply reachable_names.
Qed.
