(* ===== verification/AddressPlanTheorems.v ===== *)
(** * AddressPlanTheorems: the address plan of every reachable cluster

    [step] lists what may happen to the stored objects: creations and updates
    the validators admit, deletions, and any change of the kinds the plan does
    not depend on.  Admissions are taken one after the other, each validator
    reading the objects as they are stored. *)

From stdpp Require Import base gmap strings list sets relations.
From Stdlib Require Import ZArith Lia.
From S2P Require Import Prelude Netip AddressRange IPNet Kube AllocationTypes PolicyRules.
From S2P Require Import AddressPlan AddressPlanInv.
Open Scope Z_scope.
Open Scope go_scope.

(** ** What each validator establishes *)

Lemma networkOverlap_nil claim cidr peerings reachable path q :
  networkOverlap claim cidr peerings reachable path q = [] -> vp_cidr claim = Some cidr -> isSame q claim = false ->
  vp_vpc q = vp_vpc claim \/ at_key peerings (vp_vpc q) <> EmptyString \/ at_key reachable (vp_vpc q) <> EmptyString ->
  apart claim q.
Proof.
  intros Hn Hc Hs Hor a b Ha Hb. rewrite Hc in Ha. injection Ha as <-. unfold networkOverlap in Hn. rewrite Hb, Hs in Hn. cbn [orb] in Hn.
  destruct (cidrsOverlap cidr b); [|done]. exfalso. cbn [negb] in Hn.
  destruct (String.eqb_spec (vp_vpc q) (vp_vpc claim)); [done|].
  destruct (String.eqb_spec (at_key peerings (vp_vpc q)) ""); [|done].
  destruct (String.eqb_spec (at_key reachable (vp_vpc q)) ""); [|done]. naive_solver.
Qed.

Lemma elem_of_pool_entries c v e :
  (v, e) ∈ pool_entries c <->
  exists vpc, vpc ∈ c_vpcs c /\ Time_IsZero (vpc_Deletion vpc) = true /\ vpc_Name vpc = v /\ e ∈ Cidrs (vpc_EndpointPool vpc).
Proof.
  unfold pool_entries. rewrite list_elem_of_join. split.
  - intros (l & Hl & (vpc & -> & [? ?]%list_elem_of_filter)%list_elem_of_fmap).
    apply list_elem_of_fmap in Hl as (e' & ? & ?). simplify_eq. by exists vpc.
  - intros (vpc & Hv & Hd & <- & He). eexists. split; [|apply list_elem_of_fmap; exists vpc; split; [done|]; by apply list_elem_of_filter].
    apply list_elem_of_fmap. by exists e.
Qed.

(** A network that is admitted is apart from what it can reach. *)
Lemma overlaps_admitted c svc claim cidr path :
  validateVpcPrefixOverlaps (reader_of c) svc claim path = Ok [] -> names_ok c -> vp_cidr claim = Some cidr ->
  (forall q, q ∈ prefixes c -> isSame q claim = false ->
     vp_vpc q = vp_vpc claim \/ linked c (vp_vpc claim) (vp_vpc q) -> apart claim q) /\
  (forall e n, (vp_vpc claim, e) ∈ pool_entries c -> ParseNet e = Some n -> cidrsOverlap cidr n = false).
Proof.
  intros Hv Hn Hc. unfold validateVpcPrefixOverlaps in Hv. rewrite Hc in Hv.
  destruct (listPeeredVpcs (reader_of c) (vp_vpc claim)) as [peerings|] eqn:Hp; [|done]. cbn [res_bind] in Hv.
  destruct (listTransitGatewayReachableVpcs (reader_of c) (vp_vpc claim)) as [reachable|] eqn:Hr; [|done]. cbn [res_bind] in Hv.
  apply app_errs_nil in Hv as [Hnet [Hpool _]%app_errs_nil]. split.
  - injection Hnet as Hnet. rewrite mjoin_nil in Hnet. intros q Hq Hs Hor. eapply networkOverlap_nil; [by apply Hnet|done|done|].
    destruct Hor as [?|Hl]; [by left|]. right. by eapply linked_seen.
  - injection Hpool as Hpool. rewrite mjoin_nil in Hpool.
    intros e n (vpc & Hvpc & _ & Hname & He)%elem_of_pool_entries Hparse. specialize (Hpool vpc Hvpc).
    rewrite Hname, String.eqb_refl in Hpool. cbn [orb] in Hpool. rewrite mjoin_nil in Hpool.
    specialize (Hpool e He). unfold poolOverlap in Hpool. rewrite Hparse in Hpool. by apply when_nil in Hpool.
Qed.

Lemma vp_cidr_subnet s n : vp_cidr (subnetVpcPrefix s) = Some n -> ParseNet (sub_CIDR s) = Some n.
Proof. cbn. by destruct (String.eqb (sub_CIDR s) ""). Qed.

Lemma subnetsOverlap_nil path own others a b :
  subnetsOverlap path own others = [] -> a ∈ own -> b ∈ others -> apart (subnetVpcPrefix a) (subnetVpcPrefix b).
Proof.
  intros Hn Ha Hb x y Hx%vp_cidr_subnet Hy%vp_cidr_subnet. unfold subnetsOverlap in Hn.
  rewrite mjoin_nil in Hn. specialize (Hn a Ha). rewrite Hx, mjoin_nil in Hn. specialize (Hn b Hb). rewrite Hy in Hn.
  by apply when_nil in Hn.
Qed.

(** A peering that is admitted joins Vpcs whose Subnets are apart. *)
Lemma peering_admitted c p s t :
  validateVpcPeeringSpec (reader_of c) p = Ok [] -> s ∈ c_subnets c -> t ∈ c_subnets c -> sub_Vpc s <> sub_Vpc t ->
  Connects p (sub_Vpc s) = true -> Connects p (sub_Vpc t) = true -> apart (subnetVpcPrefix s) (subnetVpcPrefix t).
Proof.
  intros Hv Hs Ht Hne Hcs Hct. unfold validateVpcPeeringSpec in Hv.
  destruct (String.eqb (Requester p) (Accepter p)); [done|]. unfold res_bind in Hv. split_match_in Hv.
  injection Hv as Hv.
  assert (Hpair : forall a b, a ∈ c_subnets c -> b ∈ c_subnets c -> sub_Vpc a = Requester p -> sub_Vpc b = Accepter p ->
            sub_Vpc a <> sub_Vpc b -> apart (subnetVpcPrefix a) (subnetVpcPrefix b)).
  { intros a b Ha Hb Hra Hrb Hab. eapply subnetsOverlap_nil; [exact Hv| |]; apply list_elem_of_filter; [done|].
    split; [|done]. split; congruence. }
  unfold Connects in Hcs, Hct. rewrite orb_true_iff, !String.eqb_eq in Hcs, Hct.
  destruct Hcs as [Hcs|Hcs], Hct as [Hct|Hct]; try congruence; [by apply Hpair|apply apart_sym; by apply Hpair].
Qed.

(** An attachment that is admitted shares tables only with Vpcs whose Subnets
    are apart from those of its own. *)
Lemma attachment_admitted c a b t s u :
  validateTransitGatewayAttachmentSpec (reader_of c) a = Ok [] ->
  b ∈ c_attachments c -> tga_Name b <> tga_Name a -> tga_Vpc b <> tga_Vpc a ->
  t <> EmptyString -> t ∈ Propagations a -> t ∈ Propagations b ->
  s ∈ c_subnets c -> u ∈ c_subnets c -> sub_Vpc s = tga_Vpc a -> sub_Vpc u = tga_Vpc b ->
  apart (subnetVpcPrefix s) (subnetVpcPrefix u).
Proof.
  intros Hv Hb Hname Hvpc Ht Hta Htb Hs Hu Hvs Hvu.
  unfold validateTransitGatewayAttachmentSpec in Hv.
  destruct (app_errs _ _) as [[|]|]; try done. cbn [res_bind reader_of list_Attachments] in Hv.
  destruct (List.find _ _); [done|]. unfold validateTransitGatewayCIDROverlap in Hv.
  destruct (reachable_complete (tga_Name a) (tga_Vpc a) (RouteTables a) (c_attachments c) b Hb) as [x Hx].
  { split_and!; [done..|]. exists t. split; [done|]. apply elem_of_RouteTables. split; [done|]. by constructor. }
  destruct (Nat.eqb_spec (size (transitGatewayReachableVpcs (tga_Name a) (tga_Vpc a) (RouteTables a) (c_attachments c))) 0) as [Hz|_].
  { apply map_size_empty_inv in Hz. rewrite Hz in Hx. done. }
  injection Hv as Hv. eapply subnetsOverlap_nil; [exact Hv|by apply list_elem_of_filter|].
  apply list_elem_of_filter. split; [|done]. rewrite Hvu. split; [done|]. rewrite Hx. by eexists.
Qed.

(** A pool that is admitted is apart from the Subnets of its Vpc. *)
Lemma pool_admitted c svc v old e n s m :
  vpc_validate (reader_of c) svc v old = Ok [] -> Time_IsZero (vpc_Deletion v) = true -> vpcEndpointPoolChanged old v = true ->
  e ∈ Cidrs (vpc_EndpointPool v) -> ParseNet e = Some n -> s ∈ c_subnets c -> sub_Vpc s = vpc_Name v ->
  ParseNet (sub_CIDR s) = Some m -> cidrsOverlap n m = false.
Proof.
  intros Hv Hlive Hch He Hn Hs Hvs Hm. unfold vpc_validate in Hv. apply app_errs_nil in Hv as [_ Hv].
  rewrite Hch in Hv. cbn [negb] in Hv. apply app_errs_nil in Hv as [_ Hv].
  unfold shouldCheckReferences in Hv. rewrite Hlive in Hv. cbn [negb] in Hv. apply app_errs_nil in Hv as [Hv _].
  unfold validateVpcEndpointPoolSubnetOverlap in Hv.
  destruct (Configured (vpc_EndpointPool v)) eqn:Hconf; [|unfold Cidrs in He; rewrite Hconf in He; by apply elem_of_nil in He].
  cbn [negb res_bind reader_of list_Subnets] in Hv. injection Hv as Hv. unfold poolSubnetOverlaps in Hv.
  destruct (mjoin_imap_nil _ _ Hv e He) as [i Hi]. cbn beta in Hi. rewrite Hn, mjoin_nil in Hi. specialize (Hi s Hs).
  rewrite Hvs, String.eqb_refl in Hi. cbn [negb] in Hi. rewrite Hm in Hi. by apply when_nil in Hi.
Qed.

(** ** The steps of a cluster *)

Definition with_subnets (c : cluster) (l : list Subnet) : cluster :=
  MkCluster l (c_l2networks c) (c_vpcs c) (c_peerings c) (c_attachments c) (c_endpoints c) (c_routeTables c)
    (c_acls c) (c_transitGateways c) (c_transitRouteTables c) (c_zones c) (c_claims c) (c_leases c).
Definition with_l2networks (c : cluster) (l : list L2Network) : cluster :=
  MkCluster (c_subnets c) l (c_vpcs c) (c_peerings c) (c_attachments c) (c_endpoints c) (c_routeTables c)
    (c_acls c) (c_transitGateways c) (c_transitRouteTables c) (c_zones c) (c_claims c) (c_leases c).
Definition with_vpcs (c : cluster) (l : list Vpc) : cluster :=
  MkCluster (c_subnets c) (c_l2networks c) l (c_peerings c) (c_attachments c) (c_endpoints c) (c_routeTables c)
    (c_acls c) (c_transitGateways c) (c_transitRouteTables c) (c_zones c) (c_claims c) (c_leases c).
Definition with_peerings (c : cluster) (l : list VpcPeering) : cluster :=
  MkCluster (c_subnets c) (c_l2networks c) (c_vpcs c) l (c_attachments c) (c_endpoints c) (c_routeTables c)
    (c_acls c) (c_transitGateways c) (c_transitRouteTables c) (c_zones c) (c_claims c) (c_leases c).
Definition with_attachments (c : cluster) (l : list TransitGatewayAttachment) : cluster :=
  MkCluster (c_subnets c) (c_l2networks c) (c_vpcs c) (c_peerings c) l (c_endpoints c) (c_routeTables c)
    (c_acls c) (c_transitGateways c) (c_transitRouteTables c) (c_zones c) (c_claims c) (c_leases c).

(** One object of a list is replaced. *)
Definition replaced {A} (l : list A) (old new : A) (l' : list A) : Prop :=
  exists pre post, l = pre ++ old :: post /\ l' = pre ++ new :: post.

Inductive step (svc : option IPNet) (c : cluster) : cluster -> Prop :=
| create_subnet s :
    sub_Name s ∉ sub_Name <$> c_subnets c ->
    subnet_ValidateCreate (reader_of c) svc (subnet_Default s) = Ok [] ->
    step svc c (with_subnets c (subnet_Default s :: c_subnets c))
| update_subnet old s l :
    sub_Name s = sub_Name old -> subnet_ValidateUpdate (reader_of c) old (subnet_Default s) = Ok [] ->
    replaced (c_subnets c) old (subnet_Default s) l -> step svc c (with_subnets c l)
| delete_subnet s l :
    subnet_ValidateDelete s = true -> c_subnets c ≡ₚ s :: l -> step svc c (with_subnets c l)
| create_l2network l2 :
    l2_Name l2 ∉ l2_Name <$> c_l2networks c -> l2_ValidateCreate (reader_of c) svc l2 = Ok [] ->
    step svc c (with_l2networks c (l2 :: c_l2networks c))
| update_l2network old l2 l :
    l2_Name l2 = l2_Name old -> l2_ValidateUpdate (reader_of c) old l2 = Ok [] ->
    replaced (c_l2networks c) old l2 l -> step svc c (with_l2networks c l)
| delete_l2network l2 l : c_l2networks c ≡ₚ l2 :: l -> step svc c (with_l2networks c l)
| create_vpc v :
    vpc_validate (reader_of c) svc (vpc_Default v) None = Ok [] -> step svc c (with_vpcs c (vpc_Default v :: c_vpcs c))
| update_vpc old v l :
    vpc_Name v = vpc_Name old -> vpc_Deletion v = vpc_Deletion old ->
    vpc_validate (reader_of c) svc (vpc_Default v) (Some old) = Ok [] ->
    replaced (c_vpcs c) old (vpc_Default v) l -> step svc c (with_vpcs c l)
| delete_vpc v l :
    vpc_ValidateDelete (reader_of c) v = Ok None -> c_vpcs c ≡ₚ v :: l -> step svc c (with_vpcs c l)
| create_peering p :
    vp_Name p <> EmptyString -> validateVpcPeeringSpec (reader_of c) p = Ok [] ->
    step svc c (with_peerings c (p :: c_peerings c))
| update_peering old p l :
    vp_Name p = vp_Name old -> peering_ValidateUpdate old p = [] ->
    replaced (c_peerings c) old p l -> step svc c (with_peerings c l)
| delete_peering p l :
    peering_ValidateDelete (reader_of c) p = Ok [] -> c_peerings c ≡ₚ p :: l -> step svc c (with_peerings c l)
| create_attachment a :
    tga_Name a <> EmptyString -> tga_Name a ∉ tga_Name <$> c_attachments c ->
    validateTransitGatewayAttachmentSpec (reader_of c) a = Ok [] -> step svc c (with_attachments c (a :: c_attachments c))
| update_attachment old a l :
    tga_Name a = tga_Name old -> tga_ValidateUpdate (reader_of c) old a = Ok [] ->
    replaced (c_attachments c) old a l -> step svc c (with_attachments c l)
| delete_attachment a l : c_attachments c ≡ₚ a :: l -> step svc c (with_attachments c l)
| other_kinds c' :
    c_subnets c' = c_subnets c -> c_l2networks c' = c_l2networks c -> c_vpcs c' = c_vpcs c ->
    c_peerings c' = c_peerings c -> c_attachments c' = c_attachments c -> step svc c c'.

(** ** The invariant is kept *)

Definition good (c : cluster) : Prop := plan_ok c /\ names_ok c.

Lemma replaced_elem {A} (l l' : list A) old new x : replaced l old new l' -> x ∈ l' -> x = new \/ x ∈ l.
Proof. intros (pre & post & -> & ->). set_solver. Qed.

Lemma replaced_fmap {A B} (f : A -> B) (l l' : list A) old new : replaced l old new l' -> f new = f old -> f <$> l' = f <$> l.
Proof. intros (pre & post & -> & ->) Hf. by rewrite !fmap_app, !fmap_cons, Hf. Qed.

(** A change that leaves only the Vpcs, and no pool entry that is new. *)
Lemma good_mono c c' :
  subnet_prefixes c' ⊆ subnet_prefixes c -> prefixes c' ⊆ prefixes c ->
  (forall v w, peered (c_peerings c') v w -> peered (c_peerings c) v w) ->
  c_attachments c' = c_attachments c -> pool_entries c' ⊆ pool_entries c ->
  (forall p, p ∈ c_peerings c' -> vp_Name p <> EmptyString) -> good c -> good c'.
Proof.
  intros Hs Hp Hpe Ha Hpool Hnames [Hok [Hn1 Hn2 Hn3]]. split.
  - apply (plan_ok_mono c); [exact Hs|exact Hp|exact Hpe| |exact Hpool|exact Hok]. unfold live_attachments. by rewrite Ha.
  - split; [done|by rewrite Ha..].
Qed.

Lemma create_subnet_good svc c s :
  good c -> sub_Name s ∉ sub_Name <$> c_subnets c -> subnet_ValidateCreate (reader_of c) svc s = Ok [] ->
  good (with_subnets c (s :: c_subnets c)).
Proof.
  intros [[H1 H2 H3] Hn] Hfresh Hv. split; [|destruct Hn; by split].
  unfold subnet_ValidateCreate in Hv. apply app_errs_nil in Hv as [_ [_ [Hv _]%app_errs_nil]%app_errs_nil].
  set (p := subnetVpcPrefix s) in *.
  assert (Hadm : forall cidr, vp_cidr p = Some cidr ->
    (forall q, q ∈ prefixes c -> isSame q p = false -> vp_vpc q = vp_vpc p \/ linked c (vp_vpc p) (vp_vpc q) -> apart p q) /\
    (forall e n, (vp_vpc p, e) ∈ pool_entries c -> ParseNet e = Some n -> cidrsOverlap cidr n = false)).
  { intros cidr Hc. by eapply overlaps_admitted. }
  assert (Hsame : forall q, q ∈ subnet_prefixes c -> isSame q p = false).
  { intros q (s' & -> & Hs')%list_elem_of_fmap. unfold isSame. cbn. apply String.eqb_neq. intros Heq. apply Hfresh.
    apply list_elem_of_fmap. by exists s'. }
  assert (Hnew : forall q, q ∈ prefixes c -> isSame q p = false ->
            vp_vpc q = vp_vpc p \/ linked c (vp_vpc p) (vp_vpc q) -> apart p q).
  { intros q Hq Hsq Hor a b Ha Hb. destruct (Hadm a Ha) as [Hnet _]. by apply (Hnet q Hq Hsq Hor). }
  assert (Hpfx : forall q, q ∈ prefixes (with_subnets c (s :: c_subnets c)) -> q = p \/ q ∈ prefixes c).
  { intros q. unfold prefixes, subnet_prefixes, p. cbn. set_solver. }
  split.
  - intros q1 q2 [->|Hq1]%Hpfx [->|Hq2]%Hpfx Hs Hvpc.
    + unfold isSame in Hs. by rewrite !String.eqb_refl in Hs.
    + apply Hnew; [done|by rewrite isSame_sym|by left].
    + apply apart_sym, Hnew; [done|done|by left].
    + by apply H1.
  - intros q1 q2 [->|Hq1]%elem_of_cons [->|Hq2]%elem_of_cons Hl.
    + by destruct Hl as [? _].
    + apply Hnew; [unfold prefixes; set_solver|by apply Hsame|by right].
    + apply apart_sym, Hnew; [unfold prefixes; set_solver|by apply Hsame|right; by apply linked_sym].
    + by apply H2.
  - intros v e n q m He Hparse [->|Hq]%elem_of_cons Hvq Hm; [|by eapply H3].
    subst v. rewrite cidrsOverlap_comm. destruct (Hadm m Hm) as [_ Hpool]. by eapply Hpool.
Qed.

Lemma create_l2network_good svc c l2 :
  good c -> l2_Name l2 ∉ l2_Name <$> c_l2networks c -> l2_ValidateCreate (reader_of c) svc l2 = Ok [] ->
  good (with_l2networks c (l2 :: c_l2networks c)).
Proof.
  intros [[H1 H2 H3] Hn] Hfresh Hv. split; [|destruct Hn; by split].
  unfold l2_ValidateCreate in Hv. apply app_errs_nil in Hv as [_ [_ [Hv _]%app_errs_nil]%app_errs_nil].
  set (p := l2NetworkVpcPrefix l2) in *.
  assert (Hpfx : forall q, q ∈ prefixes (with_l2networks c (l2 :: c_l2networks c)) -> q = p \/ q ∈ prefixes c).
  { intros q. unfold prefixes, subnet_prefixes, p. cbn. set_solver. }
  assert (Hnew : forall q, q ∈ prefixes c -> isSame q p = false -> vp_vpc q = vp_vpc p -> apart p q).
  { intros q Hq Hsq Hvq a b Ha Hb. destruct (overlaps_admitted c svc p a _ Hv Hn Ha) as [Hnet _].
    by apply (Hnet q Hq Hsq (or_introl Hvq)). }
  split; [|done..]. intros q1 q2 [->|Hq1]%Hpfx [->|Hq2]%Hpfx Hs Hvpc.
  - unfold isSame in Hs. by rewrite !String.eqb_refl in Hs.
  - apply Hnew; [done|by rewrite isSame_sym|done].
  - apply apart_sym, Hnew; done.
  - by apply H1.
Qed.

Lemma elem_of_subnet_prefixes c p : p ∈ subnet_prefixes c -> exists s, s ∈ c_subnets c /\ p = subnetVpcPrefix s.
Proof. intros (s & -> & Hs)%list_elem_of_fmap. by exists s. Qed.

Lemma create_peering_good c p :
  good c -> vp_Name p <> EmptyString -> validateVpcPeeringSpec (reader_of c) p = Ok [] ->
  good (with_peerings c (p :: c_peerings c)).
Proof.
  intros [[H1 H2 H3] [Hn1 Hn2 Hn3]] Hname Hv. split; [split; [done| |done]|split; [|done..]].
  - intros q1 q2 (s & Hs & ->)%elem_of_subnet_prefixes (u & Hu & ->)%elem_of_subnet_prefixes [Hne [Hp|Ha]].
    + destruct Hp as (p' & [->|Hp']%elem_of_cons & Hc1 & Hc2); [by eapply peering_admitted|].
      apply H2; [apply list_elem_of_fmap; by eexists..|]. split; [done|]. left. by exists p'.
    + apply H2; [apply list_elem_of_fmap; by eexists..|]. split; [done|]. by right.
  - intros p' [->|Hp']%elem_of_cons; [done|by apply Hn1].
Qed.

(** The attachments change so that every pair that shares a table either did
    before or involves the admitted attachment [a]. *)
Lemma attachments_good c a l :
  good c -> validateTransitGatewayAttachmentSpec (reader_of c) a = Ok [] ->
  (forall b, b ∈ l -> b = a \/ (b ∈ c_attachments c /\ tga_Name b <> tga_Name a)) ->
  (forall b, b ∈ l -> tga_Name b <> EmptyString) -> NoDup (tga_Name <$> l) ->
  good (with_attachments c l).
Proof.
  intros [[H1 H2 H3] [Hn1 Hn2 Hn3]] Hv Hl Hnames Hnodup. split; [split; [done| |done]|by split].
  intros q1 q2 (s & Hs & ->)%elem_of_subnet_prefixes (u & Hu & ->)%elem_of_subnet_prefixes [Hne Hor].
  assert (Hold : linked c (sub_Vpc s) (sub_Vpc u) -> apart (subnetVpcPrefix s) (subnetVpcPrefix u)).
  { intros Hlk. apply H2; [apply list_elem_of_fmap; by eexists..|exact Hlk]. }
  destruct Hor as [Hp|(x & y & t & Hx & Hy & Hvx & Hvy & Ht & Htx & Hty)]; [apply Hold; split; [done|by left]|].
  apply list_elem_of_filter in Hx as [Hlx Hx], Hy as [Hly Hy]. cbn in Hx, Hy, Hvx, Hvy.
  destruct (Hl x Hx) as [->|[Hx' Hnx]], (Hl y Hy) as [->|[Hy' Hny]].
  - cbn in Hne. congruence.
  - eapply (attachment_admitted c a y t); eauto; cbn in Hne; congruence.
  - apply apart_sym. eapply (attachment_admitted c a x t); eauto; cbn in Hne; congruence.
  - apply Hold. split; [done|]. right. exists x, y, t. split_and!; try done; by apply list_elem_of_filter.
Qed.

Lemma vpcs_good svc c v old l :
  good c -> vpc_validate (reader_of c) svc v old = Ok [] ->
  (forall w, w ∈ l -> w = v \/ w ∈ c_vpcs c) ->
  (forall o, old = Some o -> o ∈ c_vpcs c /\ vpc_Name v = vpc_Name o /\ vpc_Deletion v = vpc_Deletion o) ->
  good (with_vpcs c l).
Proof.
  intros [[H1 H2 H3] Hn] Hv Hl Hold. split; [split; [done|done|]|destruct Hn; by split].
  intros vn e n p m (w & Hw & Hlive & <- & He)%elem_of_pool_entries Hparse Hp Hvp Hm.
  destruct (Hl w Hw) as [->|Hw'].
  2: { apply (H3 (vpc_Name w) e n p m); [apply elem_of_pool_entries; by exists w|done..]. }
  destruct (vpcEndpointPoolChanged old v) eqn:Hch.
  - apply elem_of_subnet_prefixes in Hp as (s & Hs & ->). apply vp_cidr_subnet in Hm. by eapply (pool_admitted c svc v old e n s m).
  - destruct old as [o|]; [|done]. destruct (Hold o eq_refl) as (Ho & Hname & Hdel). cbn in Hch.
    apply negb_false_iff, bool_decide_eq_true in Hch.
    apply (H3 (vpc_Name v) e n p m); [|done..]. apply elem_of_pool_entries. exists o. by rewrite Hch, <- Hdel.
Qed.

Lemma subnet_update_prefix r old s :
  sub_Name s = sub_Name old -> subnet_ValidateUpdate r old s = Ok [] -> subnetVpcPrefix s = subnetVpcPrefix old.
Proof.
  intros Hname Hv. unfold subnet_ValidateUpdate in Hv. apply app_errs_nil in Hv as [[= [Hv Hc]%app_eq_nil] _].
  apply when_nil, negb_false_iff, String.eqb_eq in Hv. apply when_nil, negb_false_iff, String.eqb_eq in Hc.
  unfold subnetVpcPrefix. by rewrite Hname, Hv, Hc.
Qed.

Lemma l2_update_prefix r old l2 :
  l2_Name l2 = l2_Name old -> l2_ValidateUpdate r old l2 = Ok [] -> l2NetworkVpcPrefix l2 = l2NetworkVpcPrefix old.
Proof.
  intros Hname Hv. unfold l2_ValidateUpdate in Hv. apply app_errs_nil in Hv as [[= [Hv [Hc _]%app_eq_nil]%app_eq_nil] _].
  apply when_nil, negb_false_iff, String.eqb_eq in Hv. apply when_nil, negb_false_iff, String.eqb_eq in Hc.
  unfold l2NetworkVpcPrefix. by rewrite Hname, Hv, Hc.
Qed.

Lemma peering_update_same old p :
  vp_Name p = vp_Name old -> peering_ValidateUpdate old p = [] -> p = old.
Proof.
  intros Hname [Hr Ha]%app_eq_nil. apply when_nil, negb_false_iff, String.eqb_eq in Hr.
  apply when_nil, negb_false_iff, String.eqb_eq in Ha. destruct p, old; cbn in *. by subst.
Qed.

Lemma replaced_same {A} (l l' : list A) x : replaced l x x l' -> l' = l.
Proof. by intros (pre & post & -> & ->). Qed.

Lemma update_attachment_good c old a l :
  good c -> tga_Name a = tga_Name old -> tga_ValidateUpdate (reader_of c) old a = Ok [] ->
  replaced (c_attachments c) old a l -> good (with_attachments c l).
Proof.
  intros Hg Hname Hv Hr. pose proof Hg as [[H1 H2 H3] [Hn1 Hn2 Hn3]].
  assert (Hnames : tga_Name <$> l = tga_Name <$> c_attachments c) by (by eapply replaced_fmap).
  assert (Hne : forall b, b ∈ l -> tga_Name b <> EmptyString).
  { intros b Hb. assert (Hin : tga_Name b ∈ tga_Name <$> l) by (apply list_elem_of_fmap; by exists b).
    rewrite Hnames in Hin. apply list_elem_of_fmap in Hin as (b' & -> & Hb'). by apply Hn2. }
  destruct Hr as (pre & post & Hc & ->).
  assert (Hothers : forall b, b ∈ pre ++ a :: post -> b = a \/ (b ∈ c_attachments c /\ tga_Name b <> tga_Name a)).
  { rewrite Hc in Hn3. rewrite fmap_app, fmap_cons in Hn3. apply NoDup_app in Hn3 as (_ & Hd & Hp).
    apply NoDup_cons in Hp as [Hp _]. intros b [Hb|[->|Hb]%elem_of_cons]%elem_of_app; [right|by left|right].
    - split; [rewrite Hc; set_solver|]. rewrite Hname. intros Heq. apply (Hd (tga_Name b)); [apply list_elem_of_fmap; by exists b|].
      rewrite Heq. constructor.
    - split; [rewrite Hc; set_solver|]. rewrite Hname. intros Heq. apply Hp. rewrite <- Heq. apply list_elem_of_fmap. by exists b. }
  unfold tga_ValidateUpdate in Hv. destruct (when _ _ ++ when _ _); [|done].
  unfold shouldCheckReferences in Hv. destruct (Time_IsZero (tga_Deletion a)) eqn:Hlive.
  - apply (attachments_good c a); [done|done|done|done|]. by rewrite Hnames.
  - split; [|split; [done|done|]; cbn [with_attachments c_attachments]; by rewrite Hnames].
    apply (plan_ok_mono c); [..|apply Hg]; [done|done|done| |done].
    intros v w. apply share_table_mono. intros b [Hb Hin]%list_elem_of_filter. apply list_elem_of_filter.
    split; [done|]. destruct (Hothers b Hin) as [->|[? _]]; [congruence|done].
Qed.

Lemma perm_subseteq {A} (l l' : list A) x : l ≡ₚ x :: l' -> l' ⊆ l.
Proof. intros ->. set_solver. Qed.

Lemma fmap_subseteq {A B} (f : A -> B) (l l' : list A) : l' ⊆ l -> f <$> l' ⊆ f <$> l.
Proof. intros Hl y (x & -> & Hx)%list_elem_of_fmap. apply list_elem_of_fmap. exists x. by split; [|apply Hl]. Qed.

Lemma fewer_networks_good c subnets l2s :
  subnetVpcPrefix <$> subnets ⊆ subnet_prefixes c ->
  l2NetworkVpcPrefix <$> l2s ⊆ l2NetworkVpcPrefix <$> c_l2networks c ->
  good c -> good (with_l2networks (with_subnets c subnets) l2s).
Proof.
  intros Hs Hl [Hok [Hn1 Hn2 Hn3]]. split; [|by split].
  apply (plan_ok_mono c); [exact Hs| |done..|exact Hok]. unfold prefixes. cbn. set_solver.
Qed.

Lemma fewer_vpcs_good c vpcs : vpcs ⊆ c_vpcs c -> good c -> good (with_vpcs c vpcs).
Proof.
  intros Hv [Hok [Hn1 Hn2 Hn3]]. split; [|by split]. apply (plan_ok_mono c); [done..| |exact Hok].
  intros [v e] (vpc & Hin & ?)%elem_of_pool_entries. apply elem_of_pool_entries. exists vpc. split; [by apply Hv|done].
Qed.

Lemma fewer_peerings_good c l : l ⊆ c_peerings c -> good c -> good (with_peerings c l).
Proof.
  intros Hp [Hok [Hn1 Hn2 Hn3]]. split; [|split; [|done..]].
  - apply (plan_ok_mono c); [done|done| |done|done|exact Hok]. intros v w (p & Hin & ?). exists p. split; [by apply Hp|done].
  - intros p Hin. by apply Hn1, Hp.
Qed.

Lemma delete_attachment_good c a l : c_attachments c ≡ₚ a :: l -> good c -> good (with_attachments c l).
Proof.
  intros Hperm [Hok [Hn1 Hn2 Hn3]]. pose proof (perm_subseteq _ _ _ Hperm) as Hl. split; [|split; [done| |]].
  - apply (plan_ok_mono c); [done..| |done|exact Hok].
    intros v w. apply share_table_mono. intros b [Hb Hin]%list_elem_of_filter. apply list_elem_of_filter.
    split; [done|by apply Hl].
  - intros b Hb. by apply Hn2, Hl.
  - rewrite Hperm in Hn3. by apply NoDup_cons in Hn3 as [_ ?].
Qed.

Lemma subnet_Default_Name s : sub_Name (subnet_Default s) = sub_Name s.
Proof. unfold subnet_Default. by destruct (ParseNet _). Qed.

Lemma replaced_in {A} (l l' : list A) old new : replaced l old new l' -> old ∈ l.
Proof. intros (pre & post & -> & _). set_solver. Qed.

Lemma step_good svc c c' : step svc c c' -> good c -> good c'.
Proof.
  intros Hstep Hg. destruct Hstep as
    [s Hf Hv|old s l Hname Hv Hr|s l _ Hp|l2 Hf Hv|old l2 l Hname Hv Hr|l2 l Hp|v Hv|old v l Hname Hdel Hv Hr|v l _ Hp
    |p Hne Hv|old p l Hname Hv Hr|p l _ Hp|a Hne Hf Hv|old a l Hname Hv Hr|a l Hp|c' Hs Hl Hv Hp Ha].
  - apply (create_subnet_good svc); [done|by rewrite subnet_Default_Name|done].
  - apply (fewer_networks_good c l (c_l2networks c)); [|done|done]. unfold subnet_prefixes.
    erewrite (replaced_fmap _ _ _ _ _ Hr); [done|]. eapply subnet_update_prefix; [by rewrite subnet_Default_Name|done].
  - apply (fewer_networks_good c l (c_l2networks c)); [|done|done]. by eapply fmap_subseteq, perm_subseteq.
  - by apply (create_l2network_good svc).
  - apply (fewer_networks_good c (c_subnets c) l); [done| |done].
    erewrite (replaced_fmap _ _ _ _ _ Hr); [done|]. by eapply l2_update_prefix.
  - apply (fewer_networks_good c (c_subnets c) l); [done| |done]. by eapply fmap_subseteq, perm_subseteq.
  - eapply vpcs_good; [done|exact Hv| |done]. intros w [->|?]%elem_of_cons; [by left|by right].
  - eapply vpcs_good; [done|exact Hv| |]; [intros w Hw; by eapply replaced_elem|].
    intros o [= <-]. split; [by eapply replaced_in|done].
  - apply fewer_vpcs_good; [by eapply perm_subseteq|done].
  - by apply create_peering_good.
  - pose proof (peering_update_same _ _ Hname Hv) as ->. apply fewer_peerings_good; [|done].
    by rewrite (replaced_same _ _ _ Hr).
  - apply fewer_peerings_good; [by eapply perm_subseteq|done].
  - destruct Hg as [Hok [Hn1 Hn2 Hn3]]. apply (attachments_good c a); [by split|done| | |].
    + intros b [->|Hb]%elem_of_cons; [by left|]. right. split; [done|]. intros Heq. apply Hf.
      apply list_elem_of_fmap. by exists b.
    + intros b [->|Hb]%elem_of_cons; [done|by apply Hn2].
    + by constructor.
  - by eapply update_attachment_good.
  - by eapply delete_attachment_good.
  - destruct Hg as [[H1 H2 H3] [Hn1 Hn2 Hn3]], c, c'; cbn in *. subst.
    split; split; [exact H1|exact H2|exact H3|exact Hn1|exact Hn2|exact Hn3].
Qed.

(** ** Reachable clusters *)

Definition empty_cluster : cluster := MkCluster [] [] [] [] [] [] [] [] [] [] [] [] [].

Lemma empty_good : good empty_cluster.
Proof.
  split; split; try (intros *; intros H; by apply elem_of_nil in H). constructor.
Qed.

Lemma reachable_good svc c c' : rtc (step svc) c c' -> good c -> good c'.
Proof. induction 1 as [|c c1 c2 Hs _ IH]; [done|]. intros Hg. apply IH. by eapply step_good. Qed.

(** [ip] is an address of the network. *)
Definition covers (p : vpcPrefix) (ip : Addr) : Prop :=
  exists n, vp_cidr p = Some n /\ IPNet_Contains n ip = true.

Lemma covers_intro p ip :
  match vp_cidr p with Some n => IPNet_Contains n ip | None => false end = true -> covers p ip.
Proof. unfold covers. destruct (vp_cidr p) as [n|]; [by exists n|done]. Qed.

Lemma vp_cidr_wf p n : (exists kind name vpc raw, p = newVpcPrefix kind name vpc raw) -> vp_cidr p = Some n -> IPNet_wf n.
Proof.
  intros (kind & name & vpc & raw & ->). cbn. destruct (String.eqb raw ""); [done|]. apply ParseNet_wf.
Qed.

Lemma prefixes_new c p : p ∈ prefixes c -> exists kind name vpc raw, p = newVpcPrefix kind name vpc raw.
Proof. intros [(s & -> & _)%list_elem_of_fmap|(s & -> & _)%list_elem_of_fmap]%elem_of_app; by repeat eexists. Qed.

Lemma subnet_prefixes_sub c p : p ∈ subnet_prefixes c -> p ∈ prefixes c.
Proof. intros H. apply elem_of_app. by left. Qed.

Lemma apart_covers c p q ip : p ∈ prefixes c -> q ∈ prefixes c -> apart p q -> covers p ip -> ~ covers q ip.
Proof.
  intros Hp Hq Ha (n & Hn & Hcn) (m & Hm & Hcm). specialize (Ha n m Hn Hm).
  apply prefixes_new in Hp, Hq. eapply vp_cidr_wf in Hn; [|done]. eapply vp_cidr_wf in Hm; [|done].
  rewrite (proj2 (cidrsOverlap_iff n m Hn Hm)) in Ha; [done|]. by exists ip.
Qed.

(** Claim C10: the address plan of every cluster is unambiguous. However
    Subnets, L2Networks, Vpcs, VpcPeerings and TransitGatewayAttachments are
    created, updated and deleted, one after the other and each as the
    admission webhooks let it through on the stored objects: an address lies
    in at most one network (Subnet or L2Network) of a Vpc, in at most one
    Subnet of two Vpcs that a peering joins or that both propagate into one
    transit gateway route table, and no Subnet holds an address of the
    endpoint pool of its Vpc. Two Vpcs of which one only has a table as its
    association are not covered. *)
Theorem address_plan_disjoint svc c :
  rtc (step svc) empty_cluster c ->
  (forall p q ip, p ∈ prefixes c -> q ∈ prefixes c -> isSame p q = false -> vp_vpc p = vp_vpc q ->
     covers p ip -> ~ covers q ip) /\
  (forall p q ip, p ∈ subnet_prefixes c -> q ∈ subnet_prefixes c -> linked c (vp_vpc p) (vp_vpc q) ->
     covers p ip -> ~ covers q ip) /\
  (forall v e n p ip, (v, e) ∈ pool_entries c -> ParseNet e = Some n -> p ∈ subnet_prefixes c -> vp_vpc p = v ->
     IPNet_Contains n ip = true -> ~ covers p ip).
Proof.
  intros Hr. destruct (reachable_good _ _ _ Hr empty_good) as [[H1 H2 H3] _]. split_and!.
  - intros p q ip Hp Hq Hs Hv. apply (apart_covers c); auto.
  - intros p q ip Hp Hq Hl. apply (apart_covers c); auto using subnet_prefixes_sub.
  - intros v e n p ip He Hn Hp Hv Hc (m & Hm & Hcm). pose proof (H3 v e n p m He Hn Hp Hv Hm) as Ho.
    apply subnet_prefixes_sub, prefixes_new in Hp. apply (vp_cidr_wf p m Hp) in Hm. apply ParseNet_wf in Hn.
    rewrite (proj2 (cidrsOverlap_iff n m Hn Hm)) in Ho; [done|]. by exists ip.
Qed.

(** ** Concrete clusters *)

(** Runs the validators of a concrete admission. *)
Ltac admitted := first [refine (bool_decide_unpack _ _); vm_compute; exact I | vm_compute; reflexivity | done].

Definition vpcA : Vpc := MkVpc "a" None None false (Some ["10.9.0.0/24"%string]).
Definition vpcB : Vpc := MkVpc "b" None None false None.
Definition subnetA : Subnet := MkSubnet "web" None "a" "10.1.0.0/24" "" "".
Definition subnetB : Subnet := MkSubnet "db" None "b" "10.2.0.0/24" "" "".
Definition l2B : L2Network := MkL2Network "lab" None "b" "10.1.0.0/24" None "" None.
Definition peerAB : VpcPeering := MkPeering "ab" "a" "b".

(** Objects that are stored as they are written. *)
Lemma create_plain_vpc svc c v :
  vpc_Default v = v -> vpc_validate (reader_of c) svc v None = Ok [] -> step svc c (with_vpcs c (v :: c_vpcs c)).
Proof. intros Hd Hv. rewrite <- Hd. apply create_vpc. by rewrite Hd. Qed.

Lemma create_plain_subnet svc c s :
  subnet_Default s = s -> sub_Name s ∉ sub_Name <$> c_subnets c -> subnet_ValidateCreate (reader_of c) svc s = Ok [] ->
  step svc c (with_subnets c (s :: c_subnets c)).
Proof. intros Hd Hf Hv. rewrite <- Hd. apply create_subnet; by rewrite ?Hd. Qed.

Definition two_vpcs : cluster :=
  MkCluster [subnetB; subnetA] [] [vpcB; vpcA] [] [] [] [] [] [] [] [] [] [].

Lemma two_vpcs_reachable : rtc (step None) empty_cluster two_vpcs.
Proof.
  eapply rtc_l; [apply (create_plain_vpc None _ vpcA); admitted|].
  eapply rtc_l; [apply (create_plain_vpc None _ vpcB); admitted|].
  eapply rtc_l; [apply (create_plain_subnet None _ subnetA); admitted|].
  eapply rtc_l; [apply (create_plain_subnet None _ subnetB); admitted|]. apply rtc_refl.
Qed.

Lemma address_plan_disjoint_witness :
  rtc (step None) empty_cluster (with_peerings two_vpcs [peerAB]) /\
  covers (subnetVpcPrefix subnetA) (Addr4 (10 * 2 ^ 24 + 2 ^ 16 + 7)) /\
  ~ covers (subnetVpcPrefix subnetB) (Addr4 (10 * 2 ^ 24 + 2 ^ 16 + 7)).
Proof.
  assert (Hr : rtc (step None) empty_cluster (with_peerings two_vpcs [peerAB])).
  { eapply rtc_r; [exact two_vpcs_reachable|]. apply (create_peering None two_vpcs peerAB); admitted. }
  assert (Hc : covers (subnetVpcPrefix subnetA) (Addr4 (10 * 2 ^ 24 + 2 ^ 16 + 7))).
  { apply covers_intro; vm_compute; reflexivity. }
  split; [exact Hr|]. split; [exact Hc|].
  destruct (address_plan_disjoint None _ Hr) as (_ & H2 & _).
  apply (H2 (subnetVpcPrefix subnetA)); [right; left|left| |exact Hc].
  split; [discriminate|]. left. exists peerAB. split; [left|]. split; reflexivity.
Defined.

(** ** What the admission of links leaves open *)

(** The check between networks of different Vpcs depends on the
    order.  A VpcPeering reads only Subnets: it is admitted between a Vpc with
    the Subnet 10.1.0.0/24 and a Vpc with the L2Network 10.1.0.0/24, both
    created before through the webhooks; created after the peering, the same
    L2Network is refused. *)
Theorem peering_misses_l2network :
  rtc (step None) empty_cluster (with_l2networks two_vpcs [l2B]) /\
  step None (with_l2networks two_vpcs [l2B]) (with_peerings (with_l2networks two_vpcs [l2B]) [peerAB]) /\
  covers (subnetVpcPrefix subnetA) (Addr4 (10 * 2 ^ 24 + 2 ^ 16 + 7)) /\
  covers (l2NetworkVpcPrefix l2B) (Addr4 (10 * 2 ^ 24 + 2 ^ 16 + 7)) /\
  l2_ValidateCreate (reader_of (with_peerings two_vpcs [peerAB])) None l2B =
    Ok [FieldInvalid "spec.cidr" "overlaps with a network of a peered Vpc"].
Proof.
  split_and!.
  - eapply rtc_r; [exact two_vpcs_reachable|]. apply (create_l2network None two_vpcs l2B); admitted.
  - apply (create_peering None (with_l2networks two_vpcs [l2B]) peerAB); admitted.
  - apply covers_intro; vm_compute; reflexivity.
  - apply covers_intro; vm_compute; reflexivity.
  - vm_compute. reflexivity.
Qed.

(** A pool may cover an L2Network of its own Vpc when the pool comes second;
    an L2Network that comes second is refused. *)
Theorem pool_misses_l2network :
  let c := MkCluster [] [MkL2Network "lab" None "a" "10.9.0.0/24" None "" None] [vpcA] [] [] [] [] [] [] [] [] [] [] in
  vpc_validate (reader_of c) None vpcA None = Ok [] /\
  l2_ValidateCreate (reader_of (with_l2networks c [])) None (MkL2Network "lab" None "a" "10.9.0.0/24" None "" None) =
    Ok [FieldInvalid "spec.cidr" "overlaps with an endpoint pool"].
Proof. split; vm_compute; reflexivity. Qed.

(** An attachment that only advertises into a table is not compared with the
    Vpcs that only read the table: the second of the two is admitted in one
    order and refused in the other. *)
Definition reads_table : TransitGatewayAttachment := MkAttachment "r" None "tgw" "a" "t" [].
Definition writes_table : TransitGatewayAttachment := MkAttachment "w" None "tgw" "b" "u" ["t"%string].

Definition tgw_cluster (attachments : list TransitGatewayAttachment) : cluster :=
  MkCluster [subnetA; MkSubnet "db" None "b" "10.1.0.0/24" "" ""] [] [vpcA; vpcB] [] attachments [] [] []
    ["tgw"%string] [("t", "tgw"); ("u", "tgw")]%string [] [] [].

Theorem attachment_order_matters :
  validateTransitGatewayAttachmentSpec (reader_of (tgw_cluster [reads_table])) writes_table = Ok [] /\
  validateTransitGatewayAttachmentSpec (reader_of (tgw_cluster [writes_table])) reads_table =
    Ok [FieldInvalid "spec.vpc" "Subnets overlap"].
Proof. split; vm_compute; reflexivity. Qed.
