(* ===== verification/RouteTypes.v ===== *)
(** * RouteTypes: the API types of routing

    [controller/api/v1alpha1]: [routetable_types.go],
    [transitgatewayroutetable_types.go], and the parts of the other kinds
    that the routing controllers read; the calls those controllers make to the
    API server.  Vpcs, Subnets, L2Networks, peerings and transit gateway
    attachments are the records of [AddressPlan]. *)

From stdpp Require Import base gmap strings list.
From Stdlib Require Import ZArith Lia.
From S2P Require Import Prelude Effects Netip Kube AllocationTypes PodNetwork AddressPlan.

Open Scope Z_scope.
Open Scope go_scope.

(** ** RouteTable *)

(** The values of [RouteViaType] the code tells apart; the schema admits no
    other, the code has a default branch for them. *)
Inductive RouteViaType :=
| ViaConnected | ViaEndpoint | ViaInternetGateway | ViaService | ViaNATGateway | ViaVpcPeering
| ViaTransitGateway | ViaVpcEndpoint | ViaBlackhole | ViaUnknown (text : string).

Record RouteEndpointReference := MkEndpointRef {
  er_Namespace : string; er_AllocationIdentity : string; er_Interface : string }.

Record RouteVia := MkRouteVia {
  rv_Type : RouteViaType;
  rv_Endpoint : option RouteEndpointReference;
  rv_NATGateway : string;
  rv_VpcPeering : string;
  rv_TransitGateway : string;
}.

Record Route := MkSpecRoute { route_Dst : string; route_Via : RouteVia }.

Inductive RouteState := RouteStateActive | RouteStateBlackhole.

Record ResolvedNetworkEndpointReference := MkResolvedEndpoint { rne_Namespace : string; rne_Name : string }.

Record ResolvedRoute := MkResolvedRoute {
  rr_Dst : string;
  rr_Via : RouteVia;
  rr_Subnet : string;
  rr_L2Network : string;
  rr_TransitGatewayRouteTable : string;
  rr_NetworkEndpoint : option ResolvedNetworkEndpointReference;
  rr_State : RouteState;
  rr_Message : string;
}.

Record RouteTableStatus := MkRTStatus {
  rts_ObservedGeneration : Z;
  rts_Conditions : list Condition;
  rts_Routes : list ResolvedRoute;
  rts_TableID : Z;
}.

Record RouteTable := MkRT {
  rtb_meta : ObjectMeta; rtb_Vpc : string; rtb_Routes : list Route; rtb_status : RouteTableStatus }.

#[global] Instance RouteViaType_eq_dec : EqDecision RouteViaType.
Proof. solve_decision. Defined.
#[global] Instance RouteEndpointReference_eq_dec : EqDecision RouteEndpointReference.
Proof. solve_decision. Defined.
#[global] Instance RouteVia_eq_dec : EqDecision RouteVia.
Proof. solve_decision. Defined.
#[global] Instance RouteState_eq_dec : EqDecision RouteState.
Proof. solve_decision. Defined.
#[global] Instance ResolvedNetworkEndpointReference_eq_dec : EqDecision ResolvedNetworkEndpointReference.
Proof. solve_decision. Defined.
#[global] Instance ResolvedRoute_eq_dec : EqDecision ResolvedRoute.
Proof. solve_decision. Defined.
#[global] Instance RouteTableStatus_eq_dec : EqDecision RouteTableStatus.
Proof. solve_decision. Defined.

Definition rtb_name (rt : RouteTable) : string := Name (rtb_meta rt).
Definition with_rt_status (rt : RouteTable) (st : RouteTableStatus) : RouteTable :=
  MkRT (rtb_meta rt) (rtb_Vpc rt) (rtb_Routes rt) st.

(** A via that only has a type, and a route the controller adds on its own. *)
Definition via_only (t : RouteViaType) : RouteVia := MkRouteVia t None "" "" "".
Definition managedRoute (dst : string) (t : RouteViaType) : ResolvedRoute :=
  MkResolvedRoute dst (via_only t) "" "" "" None RouteStateActive "".

(** ** TransitGateway *)

Record TransitGatewayRoute := MkTGWRoute { tgr_Dst : string; tgr_Attachment : string; tgr_Blackhole : bool }.

Inductive TransitGatewayRouteOrigin := OriginStatic | OriginPropagated.

Record ResolvedTransitGatewayRoute := MkResolvedTGWRoute {
  rtg_Dst : string; rtg_Attachment : string; rtg_Subnet : string; rtg_Blackhole : bool;
  rtg_Origin : TransitGatewayRouteOrigin }.

Record TransitGatewayRouteTableStatus := MkTGWRTStatus {
  tgs_ObservedGeneration : Z;
  tgs_Conditions : list Condition;
  tgs_TableID : Z;
  tgs_Routes : list ResolvedTransitGatewayRoute;
}.

Record TransitGatewayRouteTable := MkTGWRT {
  tgrt_meta : ObjectMeta;
  tgrt_TransitGateway : string;
  tgrt_Routes : list TransitGatewayRoute;
  tgrt_status : TransitGatewayRouteTableStatus;
}.

Record TransitGatewayStatus := MkTGWStatus {
  tgw_ObservedGeneration : Z; tgw_Conditions : list Condition; tgw_DefaultRouteTable : string }.
Record TransitGateway := MkTGW { tgw_meta : ObjectMeta; tgw_status : TransitGatewayStatus }.

(** The status of an attachment; its name and spec are those of
    [AddressPlan]. *)
Record TransitGatewayAttachmentPrefix := MkTGWPrefix { px_CIDR : string; px_Subnet : string }.
Record TransitGatewayAttachmentStatus := MkTGWAStatus {
  tas_ObservedGeneration : Z; tas_Conditions : list Condition; tas_Prefixes : list TransitGatewayAttachmentPrefix }.
Record AttachmentObject := MkTGWA {
  ta_meta : ObjectMeta; ta_spec : TransitGatewayAttachment; ta_status : TransitGatewayAttachmentStatus }.

#[global] Instance TransitGatewayRouteOrigin_eq_dec : EqDecision TransitGatewayRouteOrigin.
Proof. solve_decision. Defined.
#[global] Instance ResolvedTransitGatewayRoute_eq_dec : EqDecision ResolvedTransitGatewayRoute.
Proof. solve_decision. Defined.
#[global] Instance TransitGatewayAttachmentPrefix_eq_dec : EqDecision TransitGatewayAttachmentPrefix.
Proof. solve_decision. Defined.

Definition tgrt_name (rt : TransitGatewayRouteTable) : string := Name (tgrt_meta rt).
Definition tgw_name (g : TransitGateway) : string := Name (tgw_meta g).
Definition with_tgrt_status (rt : TransitGatewayRouteTable) (st : TransitGatewayRouteTableStatus) :=
  MkTGWRT (tgrt_meta rt) (tgrt_TransitGateway rt) (tgrt_Routes rt) st.

Definition PropagatesInto (a : TransitGatewayAttachment) (routeTable : string) : bool :=
  existsb (String.eqb routeTable) (Propagations a).

(** ** The parts of the other kinds *)

Record NATGateway := MkNATGateway { ng_Name : string; ng_Vpc : string; ng_GatewayID : Z }.
Record PeeringObject := MkPeeringObject { po_spec : VpcPeering; po_Conditions : list Condition }.

(** [spec.podRef] of a NetworkEndpoint: the UID of the Pod and the interface. *)
Record NetworkEndpoint := MkNetworkEndpoint {
  nwep_Namespace : string; nwep_Name : string;
  nwep_PodRef : option (string * string);
  nwep_Subnet : string; nwep_MACAddress : string;
}.

Record Service := MkService {
  svc_Annotations : gmap string string; svc_Type : string; svc_ExternalIPs : list string }.

(** ** Calls of the controllers

    [ListSubnets] and [ListL2Networks] are lists by the field index
    [spec.vpc], [ListInterfacesOf] by namespace and allocation identity,
    [ListEndpointsOf] by namespace and the UID of the Pod,
    [ListTablesWithEndpointsIn] by the namespace of an endpoint route. *)

Inductive rt_call : Type -> Type :=
| GetRouteTable (name : string) : rt_call (result api_error RouteTable)
| UpdateRouteTableStatus (rt : RouteTable) : rt_call (result api_error unit)
| ListRouteTables : rt_call (result api_error (list RouteTable))
| ListTablesWithEndpointsIn (namespace : string) : rt_call (result api_error (list RouteTable))
| GetVpc (name : string) : rt_call (result api_error Vpc)
| ListSubnets (vpc : string) : rt_call (result api_error (list Subnet))
| ListL2Networks (vpc : string) : rt_call (result api_error (list L2Network))
| ListServices : rt_call (result api_error (list Service))
| GetNATGateway (name : string) : rt_call (result api_error NATGateway)
| GetVpcPeering (name : string) : rt_call (result api_error PeeringObject)
| ListVpcPeerings : rt_call (result api_error (list VpcPeering))
| GetTransitGateway (name : string) : rt_call (result api_error TransitGateway)
| GetTransitGatewayRouteTable (name : string) : rt_call (result api_error TransitGatewayRouteTable)
| ListAttachments : rt_call (result api_error (list AttachmentObject))
| ListInterfacesOf (namespace identity : string) : rt_call (result api_error (list NetworkInterface))
| ListEndpointsOf (namespace podUID : string) : rt_call (result api_error (list NetworkEndpoint))
| GetLease (name : string) : rt_call (result api_error AllocationLease)
| GetClaim (name : string) : rt_call (result api_error AllocationClaim)
| CreateOrUpdateClaim (name : string) (mutate : AllocationClaim -> result api_error AllocationClaim)
  : rt_call (result api_error AllocationClaim)
| UpdateTransitGatewayRouteTableStatus (rt : TransitGatewayRouteTable) : rt_call (result api_error unit)
| ListTransitGatewayRouteTables : rt_call (result api_error (list TransitGatewayRouteTable))
| RtNow : rt_call Time.

(** [sort.Slice] and [sort.Strings] by a text; elements with the same text come
    in either order, and are equal wherever it is used. *)
Fixpoint insertBy {A} (key : A -> string) (x : A) (l : list A) : list A :=
  match l with
  | [] => [x]
  | y :: l' => if String.leb (key x) (key y) then x :: l else y :: insertBy key x l'
  end.

Definition sortBy {A} (key : A -> string) (l : list A) : list A := foldr (insertBy key) [] l.

Lemma insertBy_perm {A} (key : A -> string) x l : insertBy key x l ≡ₚ x :: l.
Proof.
  induction l as [|y l IH]; cbn; [done|]. destruct (String.leb _ _); [done|]. rewrite IH. apply Permutation_swap.
Qed.

Lemma sortBy_perm {A} (key : A -> string) l : sortBy key l ≡ₚ l.
Proof. induction l as [|x l IH]; cbn; [done|]. by rewrite insertBy_perm, IH. Qed.

Section Conditions.
Context `{KubeLib}.

(** [meta.IsStatusConditionTrue] *)
Definition IsStatusConditionTrue (cs : list Condition) (t : string) : bool :=
  match FindStatusCondition cs t with Some c => bool_decide (Status_ c = ConditionTrue) | None => false end.
End Conditions.
