(* ===== verification/RouteTable.v ===== *)
(** * RouteTable: the RouteTable controller

    [controller/internal/controller/routetable_controller.go] and
    [routetable_endpoint.go].  [Reconcile] publishes in [status.routes] the
    table the data plane programs: the routes the Vpc has by itself, then
    [spec.routes] with their references resolved. *)

From stdpp Require Import base gmap strings list pretty.
From Stdlib Require Import ZArith Lia.
From S2P Require Import Prelude Effects Netip IPNet Kube AllocationTypes PodNetwork NetworkInterfaceReconciler.
From S2P Require Import ElasticIPReconciler AddressPlan RouteTypes.

Open Scope Z_scope.
Open Scope go_scope.

Definition serviceVpcAnnotation : string := "juneau.loutres.me/vpc".
Definition routeTableReasonDeleting : string := "Deleting".
Definition routeTableReasonReconcileFailed : string := "ReconcileFailed".
Definition routeTableReasonReconcileSucceeded : string := "ReconcileSucceeded".
Definition routeTableReasonNotReady : string := "NotReady".
Definition RouteTableStatusReady : string := "Ready".
Definition VpcPeeringStatusReady : string := "Ready".
Definition TransitGatewayStatusReady : string := "Ready".
Definition allocationPoolRouteTableID : string := "route-table-id".
Definition Millisecond : Z := 1000000.

(** [routeNotReadyError] makes the whole table wait, any other error is a
    failure to read the cluster. *)
Inductive route_error := RouteNotReady (message : string) | RouteFailed (e : goerr).

Definition getFailed {A} (text : string) (e : api_error) : result route_error A :=
  Err (RouteFailed (EWrap text (EApi e))).

(** ** Routes of one entry *)

Definition getRoute (routes : list ResolvedRoute) (dst : string) : option ResolvedRoute :=
  List.find (fun r => String.eqb (rr_Dst r) dst) routes.

Definition activeRoute (route : Route) : ResolvedRoute :=
  MkResolvedRoute (route_Dst route) (route_Via route) "" "" "" None RouteStateActive "".

Definition blackholeRoute (route : Route) (message : string) : ResolvedRoute :=
  MkResolvedRoute (route_Dst route) (route_Via route) "" "" "" None RouteStateBlackhole message.

Definition subnetRoute (s : Subnet) : ResolvedRoute :=
  MkResolvedRoute (sub_CIDR s) (via_only ViaConnected) (sub_Name s) "" "" None RouteStateActive "".

Definition l2NetworkRoute (l : L2Network) : ResolvedRoute :=
  MkResolvedRoute (l2_CIDR l) (via_only ViaConnected) "" (l2_Name l) "" None RouteStateActive "".

(** An L2Network with a gateway and a CIDR. *)
Definition l2NetworkRouted (l : L2Network) : bool :=
  match l2_Gateway l with Some _ => negb (empty (l2_CIDR l)) | None => false end.

Definition vpcEndpointPoolRoutes (pool : option (list string)) : list ResolvedRoute :=
  sortBy rr_Dst ((fun cidr => managedRoute cidr ViaVpcEndpoint) <$> Cidrs pool).

Definition owningVpcOfService (svc : Service) : string :=
  let v := default "" (svc_Annotations svc !! serviceVpcAnnotation) in
  if empty v then defaultVpcName else v.

(** The /32 of an entry of [spec.externalIPs] that is IPv4. *)
Definition externalIPRoute (raw : string) : option string :=
  match ParseIP raw with
  | Some ip => if isTo4 ip then Some (Addr_String (Unmap ip) ++ "/32")%string else None
  | None => None
  end.

(** One Service of the loop: destinations seen, in the order of their first
    occurrence. *)
Definition addExternalIPs (vpcName : string) (seen : list string) (svc : Service) : list string :=
  if negb (String.eqb (owningVpcOfService svc) vpcName) then seen
  else if String.eqb (svc_Type svc) "ExternalName" then seen
  else foldl (fun seen raw => match externalIPRoute raw with
                              | None => seen
                              | Some cidr => if bool_decide (cidr ∈ seen) then seen else seen ++ [cidr]
                              end) seen (svc_ExternalIPs svc).

Definition externalIPRoutes (vpcName : string) (svcs : list Service) : list ResolvedRoute :=
  sortBy rr_Dst ((fun cidr => managedRoute cidr ViaService) <$> foldl (addExternalIPs vpcName) [] svcs).

Definition collectExternalIPRoutes (vpcName : string) : prog rt_call (result goerr (list ResolvedRoute)) :=
  r <- call ListServices ;;
  match r with
  | Err e => Ret (Err (EWrap "list services" (EApi e)))
  | Ok svcs => Ret (Ok (externalIPRoutes vpcName svcs))
  end.

(** ** routetable_endpoint.go *)

Definition holdsLease (nic : NetworkInterface) : prog rt_call (result route_error bool) :=
  let leaseName := leaseNameForNetworkInterface nic in
  r <- call (GetLease leaseName) ;;
  match r with
  | Err NotFound => Ret (Ok false)
  | Err e => Ret (getFailed ("get AllocationLease " ++ quoted leaseName) e)
  | Ok lease =>
      Ret (Ok (String.eqb (cr_Name (ClaimRef (lease_spec lease))) (claimNameForNetworkInterface nic) &&
               Time_IsZero (OwnerDeletionTimestamp (lease_spec lease))))
  end.

Definition addressHolders (ref : RouteEndpointReference) : prog rt_call (result route_error (list NetworkInterface)) :=
  r <- call (ListInterfacesOf (er_Namespace ref) (er_AllocationIdentity ref)) ;;
  match r with
  | Err e => Ret (getFailed ("list NetworkInterfaces of allocation identity " ++ quoted (er_AllocationIdentity ref) ++
                             " in namespace " ++ quoted (er_Namespace ref)) e)
  | Ok nics =>
      forTryP nics [] (fun nic holders =>
        if negb (String.eqb (pod_Interface (PodRef (nic_spec nic))) (er_Interface ref)) || IsDeleting (nic_meta nic)
        then Ret (Ok holders)
        else
        holds <-? holdsLease nic ;;
        Ret (Ok (if (holds : bool) then holders ++ [nic] else holders)))
  end.

(** The endpoint, or the reason there is none. *)
Definition endpointOfNetworkInterface (nic : NetworkInterface)
  : prog rt_call (result route_error (NetworkEndpoint + string)) :=
  let who := ("NetworkInterface " ++ Namespace (nic_meta nic) ++ "/" ++ nic_name nic)%string in
  r <- call (ListEndpointsOf (Namespace (nic_meta nic)) (pod_UID (PodRef (nic_spec nic)))) ;;
  match r with
  | Err e => Ret (getFailed ("list NetworkEndpoints of Pod " ++ Namespace (nic_meta nic) ++ "/" ++
                             pod_Name (PodRef (nic_spec nic))) e)
  | Ok endpoints =>
      let matches := List.filter (fun ep => match nwep_PodRef ep with
                                            | Some (_, ifname) => String.eqb ifname (pod_Interface (PodRef (nic_spec nic)))
                                            | None => false
                                            end) endpoints in
      match matches with
      | [] => Ret (Ok (inr (who ++ " has no NetworkEndpoint yet; its Pod is not running")%string))
      | [ep] => Ret (Ok (inl ep))
      | _ => Ret (Ok (inr (who ++ " has " ++ pretty (length matches) ++ " NetworkEndpoints")%string))
      end
  end.

Definition resolveEndpointRoute (rt : RouteTable) (route : Route) (vpcSubnets : list string)
  : prog rt_call (result route_error ResolvedRoute) :=
  match rv_Endpoint (route_Via route) with
  | None => Ret (Ok (blackholeRoute route "via.endpoint is not set"))
  | Some ref =>
      let workload := ("allocation identity " ++ quoted (er_AllocationIdentity ref) ++ " on interface " ++
                       quoted (er_Interface ref) ++ " in namespace " ++ quoted (er_Namespace ref))%string in
      holders <-? addressHolders ref ;;
      match holders with
      | [] => Ret (Ok (blackholeRoute route ("no NetworkInterface holds the address of " ++ workload)))
      | [holder] =>
          found <-? endpointOfNetworkInterface holder ;;
          match found with
          | inr message => Ret (Ok (blackholeRoute route message))
          | inl ep =>
              let name := (nwep_Namespace ep ++ "/" ++ nwep_Name ep)%string in
              if empty (nwep_Subnet ep) then
                Ret (Ok (blackholeRoute route ("NetworkEndpoint " ++ name ++
                  " is not on a Subnet; an endpoint route needs one in Vpc " ++ quoted (rtb_Vpc rt))))
              else if negb (existsb (String.eqb (nwep_Subnet ep)) vpcSubnets) then
                Ret (Ok (blackholeRoute route ("NetworkEndpoint " ++ name ++ " is on Subnet " ++
                  quoted (nwep_Subnet ep) ++ ", which is not in Vpc " ++ quoted (rtb_Vpc rt))))
              else if empty (nwep_MACAddress ep) then
                Ret (Ok (blackholeRoute route ("NetworkEndpoint " ++ name ++ " has no MAC address yet")))
              else
                Ret (Ok (MkResolvedRoute (route_Dst route) (route_Via route) (nwep_Subnet ep) "" ""
                           (Some (MkResolvedEndpoint (nwep_Namespace ep) (nwep_Name ep))) RouteStateActive ""))
          end
      | _ =>
          Ret (Ok (blackholeRoute route ("NetworkInterfaces " ++ String.concat ", " (nic_name <$> holders) ++
            " all hold an address of " ++ workload ++ "; give the workload one network for this interface")))
      end
  end.

Section Reconciler.
Context `{KubeLib}.

(** ** The other kinds of spec.routes *)

Definition resolveNATGatewayRoute (rt : RouteTable) (route : Route)
  : prog rt_call (result route_error ResolvedRoute) :=
  let name := rv_NATGateway (route_Via route) in
  r <- call (GetNATGateway name) ;;
  match r with
  | Err NotFound => Ret (Err (RouteNotReady ("NATGateway " ++ quoted name ++ " not found")))
  | Err e => Ret (getFailed ("failed to get NATGateway " ++ quoted name) e)
  | Ok natGateway =>
      if negb (String.eqb (ng_Vpc natGateway) (rtb_Vpc rt)) then
      Ret (Err (RouteNotReady ("NATGateway " ++ quoted (ng_Name natGateway) ++ " belongs to Vpc " ++
        quoted (ng_Vpc natGateway) ++ ", not " ++ quoted (rtb_Vpc rt))))
      else if ng_GatewayID natGateway =? 0 then
      Ret (Err (RouteNotReady ("NATGateway " ++ quoted (ng_Name natGateway) ++
        " has not yet been assigned a gatewayID")))
      else Ret (Ok (activeRoute route))
  end.

(** The Subnet of a Vpc whose CIDR is exactly the given text, or [""]. *)
Definition findSubnetByCIDR (vpcName cidr : string) : prog rt_call (result api_error string) :=
  subnets <-? call (ListSubnets vpcName) ;;
  Ret (Ok (match List.find (fun s => String.eqb (sub_CIDR s) cidr) subnets with
  | Some s => sub_Name s
  | None => ""%string
  end)).

Definition resolveVpcPeeringRoute (rt : RouteTable) (route : Route)
  : prog rt_call (result route_error ResolvedRoute) :=
  let name := rv_VpcPeering (route_Via route) in
  r <- call (GetVpcPeering name) ;;
  match r with
  | Err NotFound => Ret (Err (RouteNotReady ("VpcPeering " ++ quoted name ++ " not found")))
  | Err e => Ret (getFailed ("failed to get VpcPeering " ++ quoted name) e)
  | Ok peering =>
      if negb (IsStatusConditionTrue (po_Conditions peering) VpcPeeringStatusReady) then
      Ret (Err (RouteNotReady ("VpcPeering " ++ quoted (vp_Name (po_spec peering)) ++ " is not ready")))
      else
      match PeerOf (po_spec peering) (rtb_Vpc rt) with
      | None => Ret (Err (RouteNotReady ("RouteTable belongs to Vpc " ++ quoted (rtb_Vpc rt) ++
        " which is not part of VpcPeering " ++ quoted (vp_Name (po_spec peering)))))
      | Some peerVpc =>
          r <- findSubnetByCIDR peerVpc (route_Dst route) ;;
          match r with
          | Err e => Ret (getFailed ("failed to list subnets for VPC " ++ quoted peerVpc) e)
          | Ok peerSubnet =>
              if empty peerSubnet then
              Ret (Err (RouteNotReady ("no Subnet in Vpc " ++ quoted peerVpc ++ " has CIDR " ++
                quoted (route_Dst route))))
              else Ret (Ok (MkResolvedRoute (route_Dst route) (route_Via route) peerSubnet "" "" None
                RouteStateActive ""))
          end
      end
  end.

Definition findTransitGatewayAttachment (transitGateway vpcName : string)
  : prog rt_call (result api_error (option AttachmentObject)) :=
  items <-? call ListAttachments ;;
  Ret (Ok (List.find (fun a => String.eqb (tga_TransitGateway (ta_spec a)) transitGateway &&
    String.eqb (tga_Vpc (ta_spec a)) vpcName) items)).

Definition resolveTransitGatewayRoute (rt : RouteTable) (route : Route)
  : prog rt_call (result route_error ResolvedRoute) :=
  let name := rv_TransitGateway (route_Via route) in
  r <- call (GetTransitGateway name) ;;
  match r with
  | Err NotFound => Ret (Err (RouteNotReady ("TransitGateway " ++ quoted name ++ " not found")))
  | Err e => Ret (getFailed ("failed to get TransitGateway " ++ quoted name) e)
  | Ok tgw =>
      if negb (IsStatusConditionTrue (tgw_Conditions (tgw_status tgw)) TransitGatewayStatusReady) then
      Ret (Err (RouteNotReady ("TransitGateway " ++ quoted (tgw_name tgw) ++ " is not ready")))
      else
      r <- findTransitGatewayAttachment (tgw_name tgw) (rtb_Vpc rt) ;;
      match r with
      | Err e => Ret (getFailed "failed to list transit gateway attachments" e)
      | Ok None => Ret (Err (RouteNotReady ("Vpc " ++ quoted (rtb_Vpc rt) ++
        " has no attachment to TransitGateway " ++ quoted (tgw_name tgw))))
      | Ok (Some attachment) =>
          let association := Association (ta_spec attachment) in
          r <- call (GetTransitGatewayRouteTable association) ;;
          match r with
          | Err NotFound => Ret (Err (RouteNotReady ("TransitGatewayRouteTable " ++ quoted association ++ " not found")))
          | Err e => Ret (getFailed ("failed to get TransitGatewayRouteTable " ++ quoted association) e)
          | Ok table =>
              if tgs_TableID (tgrt_status table) =? 0 then
              Ret (Err (RouteNotReady ("TransitGatewayRouteTable " ++ quoted (tgrt_name table) ++
                " has not yet been assigned a tableID")))
              else Ret (Ok (MkResolvedRoute (route_Dst route) (route_Via route) "" "" (tgrt_name table) None
                RouteStateActive ""))
          end
      end
  end.

(** [None] is a route type the controller writes on its own. *)
Definition resolveSpecRoute (rt : RouteTable) (route : Route) (vpcSubnets : list string)
  : prog rt_call (result route_error (option ResolvedRoute)) :=
  match rv_Type (route_Via route) with
  | ViaConnected | ViaService | ViaVpcEndpoint => Ret (Ok None)
  | ViaInternetGateway => Ret (Ok (Some (activeRoute route)))
  | ViaBlackhole => Ret (Ok (Some (blackholeRoute route "")))
  | ViaEndpoint => resolved <-? resolveEndpointRoute rt route vpcSubnets ;; Ret (Ok (Some resolved))
  | ViaNATGateway => resolved <-? resolveNATGatewayRoute rt route ;; Ret (Ok (Some resolved))
  | ViaVpcPeering => resolved <-? resolveVpcPeeringRoute rt route ;; Ret (Ok (Some resolved))
  | ViaTransitGateway => resolved <-? resolveTransitGatewayRoute rt route ;; Ret (Ok (Some resolved))
  | ViaUnknown t => Ret (Err (RouteNotReady ("route to " ++ quoted (route_Dst route) ++ " has unsupported type " ++ quoted t)))
  end.

(** ** Status *)

Definition rt_updateStatus (resource : RouteTable) (routes : list ResolvedRoute) (tableID : Z)
  (ready : ConditionStatus) (reason message : string) : prog rt_call (result goerr unit) :=
  let st := rtb_status resource in
  let generation := Generation (rtb_meta resource) in
  t <- call RtNow ;;
  let conditions := SetStatusCondition t (rts_Conditions st)
  (MkCondition RouteTableStatusReady ready reason message generation 0) in
  if bool_decide (generation = rts_ObservedGeneration st) && bool_decide (tableID = rts_TableID st) &&
  bool_decide (routes = rts_Routes st) && bool_decide (conditions = rts_Conditions st)
  then Ret (Ok tt)
  else
  r <- call (UpdateRouteTableStatus (with_rt_status resource (MkRTStatus generation conditions routes tableID))) ;;
  Ret (res_map_err EApi r).

(** [if updateErr := r.updateStatus(...); updateErr != nil {return updateErr}; return err] *)
Definition failWith (resource : RouteTable) (routes : list ResolvedRoute) (tableID : Z) (message : string) (e : goerr)
  : prog rt_call (result goerr CtrlResult) :=
  _ <-? rt_updateStatus resource routes tableID ConditionFalse routeTableReasonReconcileFailed message ;;
  Ret (Err e).

Definition waitWith (resource : RouteTable) (routes : list ResolvedRoute) (tableID : Z) (reason message : string)
  (res : CtrlResult) : prog rt_call (result goerr CtrlResult) :=
  _ <-? rt_updateStatus resource routes tableID ConditionFalse reason message ;;
  Ret (Ok res).

Definition rt_ensureNumberClaim (resource : RouteTable) (poolName kind attribute : string)
  : prog rt_call (result goerr AllocationClaim) :=
  let desired := newAllocationClaim poolName GroupVersion kind "" (rtb_name resource) attribute in
  r <- call (CreateOrUpdateClaim (claim_name desired) (fun claim =>
    res_map (fun m => MkClaim m (claim_spec desired) (claim_status claim))
    (SetControllerReference (rtb_meta resource) (claim_meta claim)))) ;;
  Ret (res_map_err EApi r).

(** ** Reconcile *)

(** The end of [Reconcile]: the table id, and the status of a resolved
    table. *)
Definition publishTable (resource : RouteTable) (statusRoutes : list ResolvedRoute)
  : prog rt_call (result goerr CtrlResult) :=
  let publish tableID :=
  _ <-? rt_updateStatus resource statusRoutes tableID ConditionTrue routeTableReasonReconcileSucceeded "" ;;
  Ret (Ok no_requeue) in
  let tableID := rts_TableID (rtb_status resource) in
  if negb (tableID =? 0) then publish tableID else
  r <- rt_ensureNumberClaim resource allocationPoolRouteTableID "RouteTable" "status.tableID" ;;
  match r with
  | Err e => failWith resource statusRoutes tableID
      ("failed to ensure table ID allocation claim: " ++ goerr_text e) e
  | Ok claim =>
      let number := Number (cs_Value (claim_status claim)) in
      if negb (bool_decide (cs_Phase (claim_status claim) = ClaimPhaseAllocated)) || (number =? 0) then
      waitWith resource statusRoutes tableID routeTableReasonNotReady "waiting for table ID allocation"
      (MkCtrlResult false (100 * Millisecond))
      else if 4294967295 <? number then
      waitWith resource statusRoutes tableID routeTableReasonReconcileFailed
      ("allocated table ID " ++ pretty number ++ " exceeds supported range") no_requeue
      else publish (u32 number)
  end.

(** The loop over [spec.routes]. *)
Fixpoint resolveSpecRoutes (resource : RouteTable) (subnetNames : list string) (routes : list Route)
  (statusRoutes : list ResolvedRoute) : prog rt_call (result goerr CtrlResult) :=
  match routes with
  | [] => publishTable resource statusRoutes
  | route :: rest =>
      match getRoute statusRoutes (route_Dst route) with
      | Some _ => resolveSpecRoutes resource subnetNames rest statusRoutes
      | None =>
          r <- resolveSpecRoute resource route subnetNames ;;
          match r with
          | Err (RouteNotReady message) =>
              waitWith resource statusRoutes (rts_TableID (rtb_status resource)) routeTableReasonNotReady message no_requeue
          | Err (RouteFailed e) =>
              failWith resource statusRoutes (rts_TableID (rtb_status resource)) (goerr_text e) e
          | Ok resolved => resolveSpecRoutes resource subnetNames rest (statusRoutes ++ option_list resolved)
          end
      end
  end.

(** The 0/0 route of the main RouteTable of the default Vpc. *)
Definition defaultNATRoute (natGateway : NATGateway) : ResolvedRoute :=
  MkResolvedRoute "0.0.0.0/0" (MkRouteVia ViaNATGateway None (ng_Name natGateway) "" "") "" "" "" None
  RouteStateActive "".

Definition isDefaultTable (resource : RouteTable) : bool :=
  String.eqb (rtb_name resource) defaultVpcName && String.eqb (rtb_Vpc resource) defaultVpcName.

(** The routes every RouteTable of the Vpc has, before [spec.routes] and the
    external IPs. [serviceCIDR] is the text of the reconciler's [ServiceCIDR],
    nil when it has none. *)
Definition serviceRoutes (vpc : Vpc) (serviceCIDR : option IPNet) : list ResolvedRoute :=
  match serviceCIDR with
  | Some n => if ServiceEnabled vpc then [managedRoute (IPNet_String n) ViaService] else []
  | None => []
  end.

Definition attachedRoutes (subnets : list Subnet) (l2s : list L2Network) : list ResolvedRoute :=
  (subnetRoute <$> subnets) ++ (l2NetworkRoute <$> List.filter l2NetworkRouted l2s).

Definition subnetNames (subnets : list Subnet) : list string := sub_Name <$> subnets.

(** The Vpc of the table; a Vpc that is not found reads as the empty one. *)
Definition noVpc : Vpc := MkVpc "" None None false None.

Definition rt_reconcileLive (serviceCIDR : option IPNet) (resource : RouteTable)
  : prog rt_call (result goerr CtrlResult) :=
  let st := rtb_status resource in
  let keep := failWith resource (rts_Routes st) (rts_TableID st) in
  r <- call (GetVpc (rtb_Vpc resource)) ;;
  match (match r with Err NotFound => Ok noVpc | _ => r end) with
  | Err e => keep "failed to fetch VPC" (EApi e)
  | Ok vpc =>
      r <- call (ListSubnets (rtb_Vpc resource)) ;;
      match r with
      | Err e => keep "failed to list subnets for VPC" (EApi e)
      | Ok subnets =>
          r <- call (ListL2Networks (rtb_Vpc resource)) ;;
          match r with
          | Err e => keep "failed to list l2networks for VPC" (EApi e)
          | Ok l2s =>
              let base := attachedRoutes subnets l2s ++ serviceRoutes vpc serviceCIDR in
              r <- (if ServiceEnabled vpc then collectExternalIPRoutes (vpc_Name vpc) else Ret (Ok [])) ;;
              match r with
              | Err e => failWith resource base (rts_TableID st)
                  ("failed to collect Service externalIPs: " ++ goerr_text e) e
              | Ok extRoutes =>
                  let managed := base ++ extRoutes ++ vpcEndpointPoolRoutes (vpc_EndpointPool vpc) in
                  r <- (if isDefaultTable resource then call (GetNATGateway defaultVpcName)
                    else Ret (Err NotFound) : prog rt_call (result api_error NATGateway)) ;;
                  match r with
                  | Ok natGateway =>
                      resolveSpecRoutes resource (subnetNames subnets) (rtb_Routes resource)
                      (managed ++ if ng_GatewayID natGateway =? 0 then [] else [defaultNATRoute natGateway])
                  | Err NotFound => resolveSpecRoutes resource (subnetNames subnets) (rtb_Routes resource) managed
                  | Err e => failWith resource managed (rts_TableID st)
                      ("failed to fetch default NATGateway: " ++ error_text e) (EApi e)
                  end
              end
          end
      end
  end.

Definition rt_Reconcile (serviceCIDR : option IPNet) (name : string) : prog rt_call (result goerr CtrlResult) :=
  r <- call (GetRouteTable name) ;;
  match r with
  | Err NotFound => Ret (Ok no_requeue)
  | Err e => Ret (Err (EApi e))
  | Ok resource =>
      if IsDeleting (rtb_meta resource) then
      waitWith resource (rts_Routes (rtb_status resource)) (rts_TableID (rtb_status resource))
      routeTableReasonDeleting "route table is being deleted" no_requeue
      else rt_reconcileLive serviceCIDR resource
  end.
End Reconciler.

(** ** Watches

    The RouteTables an event wakes, by name; nothing when the list fails. *)

Definition tablesWhere (p : RouteTable -> bool) (r : result api_error (list RouteTable)) : list string :=
  match r with Ok items => rtb_name <$> List.filter p items | Err _ => [] end.

Definition routesVia (t : RouteViaType) (field : RouteVia -> string) (name : string) (rt : RouteTable) : bool :=
  existsb (fun route => bool_decide (rv_Type (route_Via route) = t) && String.eqb (field (route_Via route)) name)
          (rtb_Routes rt).

Definition mapL2NetworkToRouteTables (l : L2Network) : prog rt_call (list string) :=
  if empty (l2_Vpc l) then Ret [] else
  r <- call ListRouteTables ;; Ret (tablesWhere (fun rt => String.eqb (rtb_Vpc rt) (l2_Vpc l)) r).

(** The Vpc of the Subnet and its peers. *)
Definition affectedVpcs (vpc : string) (peerings : list VpcPeering) : list string :=
  vpc :: omap (fun p => PeerOf p vpc) peerings.

Definition mapSubnetToRouteTables (s : Subnet) : prog rt_call (list string) :=
  if empty (sub_Vpc s) then Ret [] else
  r <- call ListVpcPeerings ;;
  match r with
  | Err _ => Ret []
  | Ok peerings =>
      let vpcs := affectedVpcs (sub_Vpc s) peerings in
      r <- call ListRouteTables ;; Ret (tablesWhere (fun rt => existsb (String.eqb (rtb_Vpc rt)) vpcs) r)
  end.

Definition mapVpcPeeringToRouteTables (p : VpcPeering) : prog rt_call (list string) :=
  r <- call ListRouteTables ;; Ret (tablesWhere (routesVia ViaVpcPeering rv_VpcPeering (vp_Name p)) r).

Definition routeTablesUsingTransitGateway (transitGateway : string) : prog rt_call (list string) :=
  r <- call ListRouteTables ;; Ret (tablesWhere (routesVia ViaTransitGateway rv_TransitGateway transitGateway) r).

Definition mapTransitGatewayToRouteTables (g : TransitGateway) : prog rt_call (list string) :=
  routeTablesUsingTransitGateway (tgw_name g).

Definition mapTransitGatewayAttachmentToRouteTables (a : TransitGatewayAttachment) : prog rt_call (list string) :=
  if empty (tga_TransitGateway a) then Ret [] else routeTablesUsingTransitGateway (tga_TransitGateway a).

Definition mapTransitGatewayRouteTableToRouteTables (t : TransitGatewayRouteTable) : prog rt_call (list string) :=
  if empty (tgrt_TransitGateway t) then Ret [] else routeTablesUsingTransitGateway (tgrt_TransitGateway t).

Definition mapVpcToRouteTables (v : Vpc) : prog rt_call (list string) :=
  r <- call ListRouteTables ;; Ret (tablesWhere (fun rt => String.eqb (rtb_Vpc rt) (vpc_Name v)) r).

(** [enqueued] keeps a RouteTable from being listed twice. *)
Definition enqueueOnce (enqueued : list string) (rt : RouteTable) : list string :=
  if bool_decide (rtb_name rt ∈ enqueued) then enqueued else enqueued ++ [rtb_name rt].

Definition mapNATGatewayToRouteTables (natGateway : NATGateway) : prog rt_call (list string) :=
  r <- call ListRouteTables ;;
  match r with
  | Err _ => Ret []
  | Ok items =>
      let requests := foldl enqueueOnce []
        (List.filter (routesVia ViaNATGateway rv_NATGateway (ng_Name natGateway)) items) in
      if negb (String.eqb (ng_Name natGateway) defaultVpcName) then Ret requests else
      match List.find (fun rt => isDefaultTable rt && negb (bool_decide (rtb_name rt ∈ requests))) items with
      | Some rt => Ret (requests ++ [rtb_name rt])
      | None => Ret requests
      end
  end.

Definition mapServiceToRouteTables : prog rt_call (list string) :=
  r <- call ListRouteTables ;; Ret (tablesWhere (fun _ => true) r).

(** The keys of the field index [spec.routes.via.endpoint.namespace]. *)
Definition endpointNamespaces (rt : RouteTable) : list string :=
  foldl (fun seen route =>
    match rv_Type (route_Via route), rv_Endpoint (route_Via route) with
    | ViaEndpoint, Some ref => if bool_decide (er_Namespace ref ∈ seen) then seen else seen ++ [er_Namespace ref]
    | _, _ => seen
    end) [] (rtb_Routes rt).

(** The key of the field index [spec.allocationIdentity]. *)
Definition allocationIdentityKeys (nic : NetworkInterface) : list string :=
  if empty (nic_AllocationIdentity (nic_spec nic)) then [] else [nic_AllocationIdentity (nic_spec nic)].

Definition routeTablesWithEndpointsIn (namespace : string) : prog rt_call (list string) :=
  if empty namespace then Ret [] else
  r <- call (ListTablesWithEndpointsIn namespace) ;; Ret (tablesWhere (fun _ => true) r).

Definition mapNetworkEndpointToRouteTables (ep : NetworkEndpoint) : prog rt_call (list string) :=
  routeTablesWithEndpointsIn (nwep_Namespace ep).

Definition mapNetworkInterfaceToRouteTables (nic : NetworkInterface) : prog rt_call (list string) :=
  routeTablesWithEndpointsIn (Namespace (nic_meta nic)).

Definition routeTablesOfClaim (claim : AllocationClaim) : prog rt_call (list string) :=
  let ref := ResourceRef (claim_spec claim) in
  if String.eqb (rr_Kind ref) "RouteTable" then Ret (if empty (rr_Name ref) then [] else [rr_Name ref])
  else if String.eqb (rr_Kind ref) "NetworkInterface" then routeTablesWithEndpointsIn (rr_Namespace ref)
  else Ret [].

Definition mapClaimToRouteTables (claim : AllocationClaim) : prog rt_call (list string) := routeTablesOfClaim claim.

Definition mapLeaseToRouteTables (lease : AllocationLease) : prog rt_call (list string) :=
  if empty (cr_Name (ClaimRef (lease_spec lease))) then Ret [] else
  r <- call (GetClaim (cr_Name (ClaimRef (lease_spec lease)))) ;;
  match r with
  | Err _ => Ret []
  | Ok claim =>
      if String.eqb (rr_Kind (ResourceRef (claim_spec claim))) "NetworkInterface" then routeTablesOfClaim claim
      else Ret []
  end.
