(* ===== verification/RouteTableWebhook.v ===== *)
(** * RouteTableWebhook: the admission of RouteTables

    [controller/internal/webhook/v1alpha1/routetable_webhook.go] and
    [controller/api/v1alpha1/routetable_validation.go].  The texts of field
    errors are shortened.  Destinations are compared as text, and that is the
    only check on them. *)

From stdpp Require Import base gmap strings list pretty.
From Stdlib Require Import ZArith Lia.
From S2P Require Import Prelude Netip IPNet Kube AllocationTypes AllocationAPI PolicyRules AddressPlan RouteTypes.

Open Scope Z_scope.
Open Scope go_scope.

Section Webhook.
Context `{KubeLib}.

(** ** routetable_validation.go *)

Definition PodInterfaceNameMaxLen : nat := 8.

Definition validatePodInterfaceName (path name : string) : list field_error :=
  if is_empty name then [FieldRequired path]
  else if Nat.ltb PodInterfaceNameMaxLen (String.length name) then [FieldInvalid path "an interface name is too long"]
  else map (FieldInvalid path) (IsDNS1123Label name).

Definition ValidateRouteEndpointReference (ref : RouteEndpointReference) (path : string) : list field_error :=
  (if is_empty (er_Namespace ref) then [FieldRequired (path ++ ".namespace")]
    else map (FieldInvalid (path ++ ".namespace")) (IsDNS1123Label (er_Namespace ref))) ++
  when (is_empty (er_AllocationIdentity ref)) (FieldRequired (path ++ ".allocationIdentity")) ++
  ValidateAllocationIdentity (er_AllocationIdentity ref) (path ++ ".allocationIdentity") ++
  (if is_empty (er_Interface ref) then [FieldRequired (path ++ ".interface")]
    else validatePodInterfaceName (path ++ ".interface") (er_Interface ref)).

(** ** Targets *)

Definition routeTargets : list (string * (RouteVia -> bool)) :=
  [("endpoint", fun via => bool_decide (is_Some (rv_Endpoint via)));
    ("natGateway", fun via => negb (is_empty (rv_NATGateway via)));
    ("vpcPeering", fun via => negb (is_empty (rv_VpcPeering via)));
    ("transitGateway", fun via => negb (is_empty (rv_TransitGateway via)))].

Definition requiredRouteTarget (t : RouteViaType) : string :=
  match t with
  | ViaEndpoint => "endpoint"
  | ViaNATGateway => "natGateway"
  | ViaVpcPeering => "vpcPeering"
  | ViaTransitGateway => "transitGateway"
  | _ => ""
  end.

Definition validateRouteTargets (via : RouteVia) (path : string) : list field_error :=
  let required := requiredRouteTarget (rv_Type via) in
  mjoin ((fun target : string * (RouteVia -> bool) =>
    let p := (path ++ "." ++ target.1)%string in
    if String.eqb target.1 required then when (negb (target.2 via)) (FieldRequired p)
    else when (target.2 via) (FieldForbidden p "must be empty for this type")) <$> routeTargets) ++
  match rv_Type via, rv_Endpoint via with
  | ViaEndpoint, Some ref => ValidateRouteEndpointReference ref (path ++ ".endpoint")
  | _, _ => []
  end.

(** ** Spec *)

(** Destinations of the connected routes, with the Subnet of each. *)
Definition listConnectedRoutes (r : Reader) (vpcName : string) : result api_error (gmap string string) :=
  if is_empty vpcName then Ok ∅ else
  let? subnets := list_Subnets r in
  Ok (foldl (fun m s => if String.eqb (sub_Vpc s) vpcName then <[sub_CIDR s := sub_Name s]> m else m) ∅ subnets).

(** The loop over [spec.routes], with [seenDst]. *)
Fixpoint validateRoutes (connected : gmap string string) (i : nat) (seenDst : list string) (routes : list Route)
  : list field_error :=
  match routes with
  | [] => []
  | route :: rest =>
      let path := ("spec.routes[" ++ pretty i ++ "]")%string in
      (match rv_Type (route_Via route) with
      | ViaService => [FieldForbidden (path ++ ".via.type") "service routes are managed by the controller"]
      | ViaVpcEndpoint => [FieldForbidden (path ++ ".via.type") "vpcEndpoint routes are managed by the controller"]
      | _ => validateRouteTargets (route_Via route) (path ++ ".via")
      end) ++
      (if bool_decide (route_Dst route ∈ seenDst) then
        FieldDuplicate (path ++ ".dst") :: validateRoutes connected (S i) seenDst rest
        else
        match connected !! route_Dst route with
        | Some _ => [FieldInvalid (path ++ ".dst") "duplicates a connected route"]
        | None => []
        end ++ validateRoutes connected (S i) (route_Dst route :: seenDst) rest)
  end.

Definition validateRouteTableSpec (r : Reader) (rt : RouteTable) : result api_error (list field_error) :=
  let? connected := (if shouldCheckReferences (DeletionTimestamp (rtb_meta rt))
    then listConnectedRoutes r (rtb_Vpc rt) else Ok ∅) in
  Ok (when (is_empty (rtb_Vpc rt)) (FieldRequired "spec.vpc") ++ validateRoutes connected 0 [] (rtb_Routes rt)).

(** [ValidateCreate] *)
Definition rt_ValidateCreate (r : Reader) (rt : RouteTable) : result api_error (list field_error) :=
  validateRouteTableSpec r rt.

Definition rt_ValidateUpdate (r : Reader) (old rt : RouteTable) : result api_error (list field_error) :=
  let? errs := validateRouteTableSpec r rt in
  Ok (when (negb (String.eqb (rtb_Vpc rt) (rtb_Vpc old))) (FieldInvalid "spec.vpc" "spec.vpc is immutable") ++ errs).

(** [ValidateDelete]: the error of a read, or why the deletion is refused. *)
Inductive rt_refusal := RefusedMain (vpc : string) | ReferencedBy (kind : string) (names : list string).

Definition rt_ValidateDelete (r : Reader) (rt : RouteTable) : result api_error (option rt_refusal) :=
  let name := Name (rtb_meta rt) in
  let unlessMain (k : result api_error (option rt_refusal)) :=
  match get_Vpc r name with
  | Ok vpc => if Time_IsZero (vpc_Deletion vpc) then Ok (Some (RefusedMain (vpc_Name vpc))) else k
  | Err NotFound => k
  | Err e => Err e
  end in
  unlessMain (
    let? subnets := list_Subnets r in
    match List.filter (fun s => String.eqb (sub_RouteTable s) name) subnets with
    | s :: rest => Ok (Some (ReferencedBy "Subnet" (sub_Name <$> (s :: rest))))
    | [] =>
        let? l2s := list_L2Networks r in
        match List.filter (fun l => match l2_Gateway l with
        | Some gw => String.eqb (gw_RouteTable gw) name
        | None => false
        end) l2s with
        | l :: rest => Ok (Some (ReferencedBy "L2Network" (l2_Name <$> (l :: rest))))
        | [] => Ok None
        end
    end).
End Webhook.
