(* ===== verification/MapSweep.v ===== *)
(** * MapSweep: one pass over a live BPF hash map

    [daemon/internal/daemon/dataplane/internal/mapsweep/mapsweep.go]: read a
    snapshot of the whole map in batches, ask a planner what to remove, look
    every planned key up again and delete what the plan still confirms.  The
    map is shared with the data plane, so every access is a call ([mapE]).

    [ebpf.MapBatchCursor] is opaque to the code: the zero value is [None], and
    the kernel leaves a bucket number in it.  The read loop has no bound of its
    own in the source and runs on fuel here; [MapSweepSpec] proves how much is
    enough. *)

From stdpp Require Import base gmap strings list.
From Stdlib Require Import ZArith.
From S2P Require Import Prelude Effects.

(** What the code tells apart about a failed map operation. *)
Inductive map_error :=
| KeyNotExist               (* ebpf.ErrKeyNotExist *)
| NoSpace                   (* unix.ENOSPC *)
| MapFault (text : string).

#[global] Instance map_error_eq_dec : EqDecision map_error.
Proof. solve_decision. Defined.

(** The map types of [ebpf.MapType] the code tells apart. *)
Inductive MapType := Hash | LRUHash | OtherMap.

(** The part of an [*ebpf.Map] that is fixed at load time. *)
Record map_handle := MkMap { Type_ : MapType; MaxEntries : Z }.

Definition MapBatchCursor : Type := option nat.

Inductive mapE (X : Type -> Type) (K V : Type) : Type -> Type :=
| BatchLookup (cursor : MapBatchCursor) (size : Z)
    : mapE X K V (list (K * V) * option map_error * MapBatchCursor)
| MapLookup (k : K) : mapE X K V (result map_error V)
| MapDelete (k : K) : mapE X K V (result map_error unit)
| Other {R : Type} (e : X R) : mapE X K V R.
Arguments BatchLookup {X K V} cursor size.
Arguments MapLookup {X K V} k.
Arguments MapDelete {X K V} k.
Arguments Other {X K V R} e.

Definition Reason := string.

(** One item of a recheck; [CValue] is [None] when [Present] is false. *)
Record Current (K V : Type) := MkCurrent { CKey : K; CValue : option V }.
Arguments MkCurrent {K V} CKey CValue.
Arguments CKey {K V} c.
Arguments CValue {K V} c.

Definition Present {K V} (c : Current K V) : bool := bool_decide (is_Some (CValue c)).

Record Group (K : Type) := MkGroup { GKeys : list K; GReason : Reason }.
Arguments MkGroup {K} GKeys GReason.
Arguments GKeys {K} g.
Arguments GReason {K} g.

Record Plan (K V : Type) := MkPlan {
  Groups : list (Group K);
  Confirm : Group K -> list (Current K V) -> bool;
}.
Arguments MkPlan {K V} Groups Confirm.
Arguments Groups {K V} p.
Arguments Confirm {K V} p.

Record Stats := MkStats {
  Capacity : Z;
  Read : nat;
  Removed : gmap Reason nat;
  Kept : nat;
}.

Inductive sweep_error :=
| UnsupportedMap              (* cannot read a map of this type *)
| BucketTooLarge              (* a buffer of max_entries does not fit one bucket *)
| BatchFailed (e : map_error)
| LookupFailed (e : map_error)
| DeleteFailed (e : map_error)
| OutOfFuel.                  (* not in the source: the bound of the model *)

Definition defaultChunk : Z := 4096.

Section Sweep.
Context {X : Type -> Type} {K V : Type}.
Abbreviation E := (mapE X K V).

(** [ByEntry]: the group has one key, and [Confirm] is only asked about a
    group with a key left in the map, so [current[0]] is present. *)
Definition ByEntry (snapshot : list (K * V)) (reason : Reason) (stale : K -> V -> bool) : Plan K V :=
  MkPlan (fmap (fun e => MkGroup [e.1] reason) (filter (fun e => stale e.1 e.2 = true) snapshot))
  (fun _ current =>
    match current with
    | MkCurrent k (Some v) :: _ => stale k v
    | _ => false
    end).

(** The [for] loop of [snapshot]. *)
Fixpoint snapshotLoop (m : map_handle) (fuel : nat) (size : Z) (cursor : MapBatchCursor) (out : list (K * V))
  : prog E (result sweep_error (list (K * V))) :=
  match fuel with
  | O => Ret (Err OutOfFuel)
  | S fuel' =>
      r <- call (BatchLookup cursor size) ;;
      let '(page, err, cursor') := r in
      let out' := out ++ page in
      match err with
      | Some KeyNotExist => Ret (Ok out')
      | Some NoSpace =>
          if (MaxEntries m <=? size)%Z then Ret (Err BucketTooLarge)
          else snapshotLoop m fuel' (Z.min (2 * size) (MaxEntries m)) cursor' out'
      | Some e => Ret (Err (BatchFailed e))
      | None => snapshotLoop m fuel' size cursor' out'
      end
  end.

Definition snapshot (m : map_handle) (fuel : nat) (chunk : Z) : prog E (result sweep_error (list (K * V))) :=
  match Type_ m with
  | Hash | LRUHash => snapshotLoop m fuel (Z.min chunk (MaxEntries m)) None []
  | OtherMap => Ret (Err UnsupportedMap)
  end.

Definition Snapshot (m : map_handle) (fuel : nat) := snapshot m fuel defaultChunk.

Definition recheck (keys : list K) : prog E (result sweep_error (list (Current K V))) :=
  forTryP keys [] (fun key current =>
    r <- call (MapLookup key) ;;
    match r with
    | Ok v => Ret (Ok (current ++ [MkCurrent key (Some v)]))
    | Err KeyNotExist => Ret (Ok (current ++ [MkCurrent key None]))
    | Err e => Ret (Err (LookupFailed e))
    end).

Definition remove (key : K) : prog E (result sweep_error bool) :=
  r <- call (MapDelete key) ;;
  match r with
  | Ok _ => Ret (Ok true)
  | Err KeyNotExist => Ret (Ok false)
  | Err e => Ret (Err (DeleteFailed e))
  end.

(** [stats.Removed[reason]++] *)
Definition countRemoved (reason : Reason) (stats : Stats) : Stats :=
  MkStats (Capacity stats) (Read stats)
  (<[reason := S (default 0 (Removed stats !! reason))]> (Removed stats)) (Kept stats).

Definition countPresent (current : list (Current K V)) : nat :=
  length (filter (fun c => Present c = true) current).

(** The inner loop of [Sweep]: delete the present keys of a confirmed group.
    An error carries the statistics the pass returns with it. *)
Definition removeGroup (reason : Reason) (current : list (Current K V)) (stats : Stats)
  : prog E (result (sweep_error * Stats) Stats) :=
  forTryP current stats (fun c stats =>
    if negb (Present c) then Ret (Ok stats)
    else
    r <- remove (CKey c) ;;
    match r with
    | Err e => Ret (Err (e, stats))
    | Ok true => Ret (Ok (countRemoved reason stats))
    | Ok false => Ret (Ok stats)
    end).

(** One turn of the outer loop of [Sweep]. *)
Definition sweepGroup (p : Plan K V) (group : Group K) (stats : Stats)
  : prog E (result (sweep_error * Stats) Stats) :=
  r <- recheck (GKeys group) ;;
  match r with
  | Err e => Ret (Err (e, stats))
  | Ok current =>
      let present := countPresent current in
      if bool_decide (present = 0) then Ret (Ok stats)
      else if negb (Confirm p group current)
      then Ret (Ok (MkStats (Capacity stats) (Read stats) (Removed stats) (Kept stats + present)))
      else removeGroup (GReason group) current stats
  end.

(** [Sweep].  The planner may itself look at the outside world. *)
Definition Sweep (m : map_handle) (fuel : nat) (plan : list (K * V) -> prog E (Plan K V))
  : prog E (Stats * option sweep_error) :=
  let stats := MkStats (MaxEntries m) 0 ∅ 0 in
  r <- Snapshot m fuel ;;
  match r with
  | Err e => Ret (stats, Some e)
  | Ok entries =>
      let stats := MkStats (MaxEntries m) (length entries) ∅ 0 in
      p <- plan entries ;;
      r <- forTryP (Groups p) stats (sweepGroup p) ;;
      match r with
      | Ok stats => Ret (stats, None)
      | Err (e, stats) => Ret (stats, Some e)
      end
  end.
End Sweep.
