(* ===== verification/MapSweepPure.v ===== *)
(** * MapSweepPure: what a pass does to a table nobody else writes

    [sweepPure] is the remove loop of [MapSweep.Sweep] as a function on the
    table, with the lemmas that say which keys it removes.  [MapSweepSpec]
    proves that the loop is this function on the keys other writers leave
    alone. *)

From stdpp Require Import base gmap strings list sets.
From Stdlib Require Import Lia.
From S2P Require Import Prelude MapSweep.

Section Pure.
Context {K V : Type} `{Countable K}.

Definition look (t : gmap K V) (keys : list K) : list (Current K V) :=
  fmap (fun k => MkCurrent k (t !! k)) keys.

Definition removes (p : Plan K V) (t : gmap K V) (g : Group K) : bool :=
  negb (bool_decide (countPresent (look t (GKeys g)) = 0)) && Confirm p g (look t (GKeys g)).

Definition groupEffect (p : Plan K V) (t : gmap K V) (g : Group K) : gmap K V :=
  if removes p t g then foldr delete t (GKeys g) else t.

Definition sweepPure (p : Plan K V) (t : gmap K V) : gmap K V := foldl (groupEffect p) t (Groups p).

Definition agree (S : K -> Prop) (t t' : gmap K V) : Prop := forall k, S k -> t !! k = t' !! k.

Lemma lookup_foldr_delete (t : gmap K V) keys k :
  foldr delete t keys !! k = if decide (k ∈ keys) then None else t !! k.
Proof.
  induction keys as [|k' keys IH]; cbn [foldr].
  { rewrite decide_False; [done|]. apply not_elem_of_nil. }
  destruct (decide (k = k')) as [->|Hne].
  { rewrite lookup_delete_eq, decide_True; [done|]. constructor. }
  rewrite lookup_delete_ne, IH by done. apply decide_ext. rewrite elem_of_cons. naive_solver.
Qed.

(** The group lies in [S] or outside it. *)
Definition whole (S : K -> Prop) (g : Group K) : Prop :=
  (forall k, k ∈ GKeys g -> S k) \/ (forall k, k ∈ GKeys g -> ~ S k).

Definition deleted_keys (cur : list (Current K V)) : list K := CKey <$> filter (fun c => Present c = true) cur.

Lemma deleted_keys_snoc pre c :
  deleted_keys (pre ++ [c]) = deleted_keys pre ++ if Present c then [CKey c] else [].
Proof. unfold deleted_keys. rewrite filter_app, fmap_app, filter_cons. by destruct (Present c). Qed.

Lemma lookup_deleted_look t keys k :
  foldr delete t (deleted_keys (look t keys)) !! k = foldr delete t keys !! k.
Proof.
  induction keys as [|k' keys IH]; [done|]. rewrite !lookup_foldr_delete in *.
  unfold deleted_keys, look in *. rewrite fmap_cons, filter_cons. unfold Present at 1. cbn [CValue].
  destruct (t !! k') eqn:Hk'; repeat case_decide; try done; set_solver.
Qed.

Section Agree.
Context (S : K -> Prop).

Lemma look_group g cur t :
  (forall k, k ∈ GKeys g -> S k) ->
  Forall2 (fun k c => CKey c = k /\ (S k -> CValue c = t !! k)) (GKeys g) cur ->
  cur = look t (GKeys g).
Proof.
  unfold look. generalize (GKeys g). intros keys Hin Hf.
  induction Hf as [|k c keys cur [Hk Hv] Hf IH]; [done|]. simpl. f_equal.
  - destruct c as [k' v]. simpl in *. subst k'. f_equal. apply Hv, Hin. constructor.
  - apply IH. intros k' Hk'. apply Hin. by constructor.
Qed.

Lemma delete_outside (t : gmap K V) keys : (forall k, k ∈ keys -> ~ S k) -> agree S (foldr delete t keys) t.
Proof. intros Hk k HS. rewrite lookup_foldr_delete. case_decide; [|done]. by destruct (Hk k). Qed.

Lemma agree_trans (t1 t2 t3 : gmap K V) : agree S t1 t2 -> agree S t2 t3 -> agree S t1 t3.
Proof. intros H1 H2 k Hk. rewrite (H1 k Hk). by apply H2. Qed.

Lemma groupEffect_outside p t g : (forall k, k ∈ GKeys g -> ~ S k) -> agree S (groupEffect p t g) t.
Proof. intros Hg. unfold groupEffect. destruct (removes p t g); [by apply delete_outside|done]. Qed.

End Agree.

(** ** What [sweepPure] removes *)

Lemma groupEffect_submap p t g : groupEffect p t g ⊆ t.
Proof.
  apply map_subseteq_spec. intros k v. unfold groupEffect. destruct (removes p t g); [|done].
  rewrite lookup_foldr_delete. by case_decide.
Qed.

Lemma foldl_submap p t gs : foldl (groupEffect p) t gs ⊆ t.
Proof.
  revert t. induction gs as [|g gs IH]; intros t; [done|]. simpl.
  etrans; [apply IH|apply groupEffect_submap].
Qed.

Lemma submap_None (t t' : gmap K V) k : t' ⊆ t -> t !! k = None -> t' !! k = None.
Proof. intros Hs Hk. by eapply lookup_weaken_None. Qed.

(** A key is gone when some group with it would be removed while it is there. *)
Lemma foldl_removed p t gs g k :
  g ∈ gs -> k ∈ GKeys g ->
  (forall t', t' ⊆ t -> is_Some (t' !! k) -> removes p t' g = true) ->
  foldl (groupEffect p) t gs !! k = None.
Proof.
  revert t. induction gs as [|g' gs IH]; intros t Hg Hk Hrem; [by apply elem_of_nil in Hg|].
  simpl. apply elem_of_cons in Hg as [<-|Hg].
  - apply (submap_None (groupEffect p t g)); [apply foldl_submap|].
    unfold groupEffect. destruct (t !! k) as [v|] eqn:Hv.
    + rewrite Hrem by eauto. by rewrite lookup_foldr_delete, decide_True.
    + destruct (removes p t g); [|done]. rewrite lookup_foldr_delete. by case_decide.
  - apply IH; [done..|]. intros t' Ht'. apply Hrem. etrans; [exact Ht'|apply groupEffect_submap].
Qed.

(** Keys stay when no group with one of them is removed. *)
Lemma foldl_kept S p t gs :
  (forall g, g ∈ gs -> (forall k, k ∈ GKeys g -> ~ S k) \/ (forall t', agree S t' t -> removes p t' g = false)) ->
  agree S (foldl (groupEffect p) t gs) t.
Proof.
  intros Hgs. induction gs as [|g gs IH] using rev_ind; [done|]. rewrite foldl_app. simpl.
  assert (Hpre : agree S (foldl (groupEffect p) t gs) t) by (apply IH; intros g' ?; apply Hgs; set_solver).
  destruct (Hgs g) as [Hout|Hkeep]; [set_solver| |].
  - eapply agree_trans; [by apply groupEffect_outside|done].
  - unfold groupEffect. by rewrite Hkeep.
Qed.

Lemma countPresent_look t keys k : k ∈ keys -> is_Some (t !! k) -> countPresent (look t keys) <> 0.
Proof.
  intros Hk Ht Hc. unfold countPresent in Hc. apply length_zero_iff_nil in Hc.
  enough (MkCurrent k (t !! k) ∈ ([] : list (Current K V))) by (by eapply elem_of_nil).
  rewrite <- Hc. apply list_elem_of_filter. split.
  - unfold Present. by apply bool_decide_eq_true.
  - unfold look. apply list_elem_of_fmap. by exists k.
Qed.

(** [ByEntry] removes exactly the stale entries it found. *)
Lemma ByEntry_pure out reason stale t k :
  (forall v, (k, v) ∈ out <-> t !! k = Some v) ->
  sweepPure (ByEntry out reason stale) t !! k =
  match t !! k with Some v => if stale k v then None else Some v | None => None end.
Proof.
  intros Hout. unfold sweepPure. cbn [Groups ByEntry].
  destruct (t !! k) as [v|] eqn:Hk; [|by apply (submap_None t); [apply foldl_submap|]].
  destruct (stale k v) eqn:Hst.
  - apply (foldl_removed _ _ _ (MkGroup [k] reason)).
    + apply list_elem_of_fmap. exists (k, v). split; [done|]. apply list_elem_of_filter.
      split; [done|]. by apply Hout.
    + constructor.
    + intros t' Ht' Hk'. unfold removes. rewrite bool_decide_eq_false_2 by (eapply countPresent_look; [constructor|done]).
      destruct Hk' as [v' Hk']. cbn. rewrite Hk'. pose proof (lookup_weaken _ _ _ _ Hk' Ht'). by simplify_eq.
  - rewrite <- Hk. apply (foldl_kept (eq k)); [|done]. intros g (e & -> & [He1 He2]%list_elem_of_filter)%list_elem_of_fmap.
    left. intros k' Hk'%list_elem_of_singleton <-. destruct e as [k' v']. cbn in *. subst k'.
    apply Hout in He2. simplify_eq. congruence.
Qed.

Lemma ByEntry_whole (out : list (K * V)) reason stale k g :
  g ∈ Groups (ByEntry out reason stale) -> whole (eq k) g.
Proof.
  intros (e & -> & _)%list_elem_of_fmap. unfold whole. cbn.
  destruct (decide (k = e.1)); [left|right]; intros k' Hk'%list_elem_of_singleton; congruence.
Qed.
End Pure.
