(* ===== verification/MapSweepSpec.v ===== *)
(** * MapSweepSpec: the contract of a BPF hash map and what a pass does under it

    [map_server] is the documented behaviour of a HASH or LRU_HASH map: a key
    stays in its bucket, [BPF_MAP_LOOKUP_BATCH] walks the buckets in order, copies
    whole buckets while they fit, stops in front of one that does not, fails
    with ENOSPC when that is the first one, and ends with ENOENT.  Other
    writers act between any two calls and between any two buckets ([env]).

    [snapshotLoop_spec] is the specification of the read loop, [groups_spec]
    of the remove loop on a set of keys the other writers leave alone. *)

From stdpp Require Import base gmap strings list relations sets.
From Stdlib Require Import ZArith Lia.
From S2P Require Import Prelude Effects MapSweep MapSweepPure.

Section Contract.
Context {X : Type -> Type} {K V Y : Type} `{Countable K}.
Abbreviation W := (gmap K V * Y)%type.
Abbreviation E := (mapE X K V).

(** The hash of the map, its number of buckets, what other writers may do in
    one step, how the planner's own calls are answered, and whether calls may
    fail for reasons outside the code. *)
Context (hash : K -> nat) (nbuckets : nat).
Context (env : W -> W -> Prop) (other : server X W) (faults : Prop).

(** The entries of one bucket. *)
Definition bucket (b : nat) (t : gmap K V) : list (K * V) :=
  map_to_list (filter (fun kv => hash kv.1 = b) t).

(** One batch lookup from bucket [b] with [acc] already copied. *)
Inductive batch (size : Z) : nat -> list (K * V) -> W ->
    list (K * V) * option map_error * MapBatchCursor -> W -> Prop :=
| batch_end b acc w :
    nbuckets <= b -> batch size b acc w (acc, Some KeyNotExist, Some b) w
| batch_full b acc w :
    b < nbuckets -> (size < Z.of_nat (length acc + length (bucket b w.1)))%Z ->
    batch size b acc w
    (acc, match acc with [] => Some NoSpace | _ => None end, Some b) w
| batch_copy b acc w l w1 ans w2 :
    b < nbuckets -> l ≡ₚ bucket b w.1 -> (Z.of_nat (length acc + length l) <= size)%Z ->
    rtc env w w1 -> batch size (S b) (acc ++ l) w1 ans w2 ->
    batch size b acc w ans w2
| batch_fault b acc w page t c :
    faults -> batch size b acc w (page, Some (MapFault t), c) w.

Definition map_effect : server E W := fun R e =>
  match e in mapE _ _ _ R return W -> R -> W -> Prop with
  | BatchLookup c size => fun w ans w' => batch size (default 0 c) [] w ans w'
  | MapLookup k => fun w r w' =>
      w' = w /\ (r = from_option Ok (Err KeyNotExist) (w.1 !! k) \/ faults /\ exists t, r = Err (MapFault t))
  | MapDelete k => fun w r w' =>
      match w.1 !! k with
      | Some _ => r = Ok tt /\ w' = (delete k w.1, w.2)
      | None => r = Err KeyNotExist /\ w' = w
      end \/ (faults /\ w' = w /\ exists t, r = Err (MapFault t))
  | Other e => fun w r w' => other _ e w r w'
  end.

Definition map_server : server E W :=
  fun R e w r w' => exists w1, rtc env w w1 /\ map_effect R e w1 r w'.

(** The contract always has an answer. *)
Lemma batch_total size b acc w : exists ans w', batch size b acc w ans w'.
Proof.
  remember (nbuckets - b) as n eqn:Hn. revert b acc Hn. induction n as [|n IH]; intros b acc Hn.
  { eexists _, _. apply batch_end. lia. }
  destruct (decide (Z.of_nat (length acc + length (bucket b w.1)) <= size)%Z) as [Hfit|Hfull].
  - destruct (IH (S b) (acc ++ bucket b w.1)) as (ans & w' & Hb); [lia|].
    exists ans, w'. by apply (batch_copy _ b acc w (bucket b w.1) w); [lia|..].
  - eexists _, _. apply batch_full; lia.
Qed.

Lemma map_server_total :
  (forall R (e : X R) w, exists r w', other R e w r w') ->
  forall R (e : E R) w, exists r w', map_server R e w r w'.
Proof.
  intros Ho R e w. destruct e as [c size|k|k|R e].
  - destruct (batch_total size (default 0 c) [] w) as (ans & w' & Hb). by exists ans, w', w.
  - eexists _, w, w. split; [done|]. split; [done|]. by left.
  - destruct (w.1 !! k) as [v|] eqn:Hk.
    + exists (Ok tt), (delete k w.1, w.2), w. split; [done|]. left. by rewrite Hk.
    + exists (Err KeyNotExist), w, w. split; [done|]. left. by rewrite Hk.
  - destruct (Ho R e w) as (r & w' & Hr). by exists r, w', w.
Qed.

(** ** The read loop *)

(** What the pages copied so far say, when the next bucket is [b]: every
    entry was in the map at some moment, no key is there twice, and a key that
    no other writer removes is there if its bucket has been read. *)
Definition stays (k : K) : Prop := forall w w', env w w' -> is_Some (w.1 !! k) -> is_Some (w'.1 !! k).

Record pages (w0 w : W) (b : nat) (out : list (K * V)) : Prop := {
  pages_reach : rtc env w0 w;
  pages_below : forall kv, kv ∈ out -> hash kv.1 < b;
  pages_nodup : NoDup out.*1;
  pages_sound : forall kv, kv ∈ out -> exists w1, rtc env w0 w1 /\ rtc env w1 w /\ w1.1 !! kv.1 = Some kv.2;
  pages_complete : forall k, stays k -> is_Some (w0.1 !! k) -> hash k < b -> k ∈ out.*1;
}.

Lemma elem_of_bucket b (t : gmap K V) kv : kv ∈ bucket b t <-> hash kv.1 = b /\ t !! kv.1 = Some kv.2.
Proof.
  destruct kv as [k v]. unfold bucket. rewrite elem_of_map_to_list, map_lookup_filter_Some. simpl. tauto.
Qed.

Lemma stays_rtc k w w' : stays k -> rtc env w w' -> is_Some (w.1 !! k) -> is_Some (w'.1 !! k).
Proof. intros Hk. induction 1; eauto. Qed.

Lemma pages_move w0 w w' b out : pages w0 w b out -> rtc env w w' -> pages w0 w' b out.
Proof.
  intros [Hr Hb Hn Hs Hc] Hw. split; auto.
  - by transitivity w.
  - intros kv Hkv. destruct (Hs kv Hkv) as (w1 & ? & ? & ?). exists w1. split_and!; [done| |done]. by transitivity w.
Qed.

Lemma pages_bucket w0 w b out l :
  pages w0 w b out -> l ≡ₚ bucket b w.1 -> pages w0 w (S b) (out ++ l).
Proof.
  intros [Hr Hb Hn Hs Hc] Hl.
  assert (Hin : forall kv, kv ∈ l <-> hash kv.1 = b /\ w.1 !! kv.1 = Some kv.2).
  { intros kv. rewrite Hl. apply elem_of_bucket. }
  split; [done| | | |].
  - intros kv [Hkv|Hkv]%elem_of_app; [specialize (Hb _ Hkv); lia|]. apply Hin in Hkv as [? _]. lia.
  - rewrite fmap_app. apply NoDup_app. split_and!; [done| |].
    + intros k (kv & -> & Hkv)%list_elem_of_fmap (kv' & Heq & Hkv')%list_elem_of_fmap.
      apply Hb in Hkv. apply Hin in Hkv' as [Hkv' _]. rewrite Heq in Hkv. lia.
    + rewrite Hl. apply NoDup_fst_map_to_list.
  - intros kv [Hkv|Hkv]%elem_of_app; [by apply Hs|]. apply Hin in Hkv as [_ ?]. by exists w.
  - intros k Hk Hk0 Hlt. rewrite fmap_app. apply elem_of_app.
    destruct (decide (hash k = b)) as [Heq|Hne]; [right|left; apply Hc; [done..|lia]].
    destruct (stays_rtc k w0 w Hk Hr Hk0) as [v Hv].
    apply list_elem_of_fmap. exists (k, v). split; [done|]. by apply Hin.
Qed.

(** A batch call extends the pages and moves the cursor. *)
Lemma batch_pages size b acc w ans w' w0 out :
  batch size b acc w ans w' -> pages w0 w b (out ++ acc) ->
  match ans with
  | (page, Some KeyNotExist, _) => exists b', nbuckets <= b' /\ pages w0 w' b' (out ++ page)
  | (page, Some NoSpace, c) => exists b', c = Some b' /\ b <= b' < nbuckets /\
      (size < Z.of_nat (length (bucket b' w'.1)))%Z /\ pages w0 w' b' (out ++ page)
  | (page, None, c) => exists b', c = Some b' /\ b <= b' < nbuckets /\ (acc = [] -> b < b') /\ pages w0 w' b' (out ++ page)
  | (_, Some (MapFault _), _) => faults
  end.
Proof.
  induction 1 as [b acc w Hb|b acc w Hb Hfull|b acc w l w1 ans w2 Hb Hl Hfit Hw Hbatch IH|]; intros Hp.
  - by exists b.
  - destruct acc as [|x acc]; exists b; [by split_and!|]. split_and!; try done; lia.
  - assert (Hp1 : pages w0 w1 (S b) (out ++ acc ++ l)).
    { rewrite app_assoc. eapply pages_move; [|exact Hw]. by apply pages_bucket. }
    specialize (IH Hp1). destruct ans as [[page [[]|]] c]; naive_solver lia.
  - done.
Qed.

Definition snapshot_post (m : map_handle) (w0 : W) (r : result sweep_error (list (K * V))) (w : W) : Prop :=
  match r with
  | Ok out => exists b, nbuckets <= b /\ pages w0 w b out
  | Err BucketTooLarge => rtc env w0 w /\ exists b, (MaxEntries m < Z.of_nat (length (bucket b w.1)))%Z
  | Err (BatchFailed (MapFault _)) => faults
  | Err _ => False
  end.

(** Every call either moves the cursor or grows the buffer. *)
Lemma snapshotLoop_spec m fuel size cursor out w0 w :
  (0 < size <= MaxEntries m)%Z -> pages w0 w (default 0 cursor) out ->
  nbuckets - default 0 cursor + Z.to_nat (MaxEntries m - size) < fuel ->
  wp map_server (snapshotLoop m fuel size cursor out) (snapshot_post m w0) w.
Proof.
  revert size cursor out w. induction fuel as [|fuel IH]; intros size cursor out w Hsize Hp Hfuel; [lia|].
  cbn [snapshotLoop bind call wp]. intros r w2 (w1 & Hw & Heff).
  pose proof (batch_pages size _ [] w1 r w2 w0 out Heff) as Hb. rewrite app_nil_r in Hb.
  specialize (Hb (pages_move _ _ _ _ _ Hp Hw)).
  destruct r as [[page [[]|]] c]; cbn [wp bind].
  - destruct Hb as (b' & ? & ?). by exists b'.
  - destruct Hb as (b' & -> & Hb' & Hbig & Hp'). destruct (MaxEntries m <=? size)%Z eqn:Hle; to_prop.
    { split; [apply Hp'|]. exists b'. lia. }
    apply IH; [lia|done|]. simpl in *; lia.
  - exact Hb.
  - destruct Hb as (b' & -> & Hb' & Hlt & Hp'). specialize (Hlt eq_refl). apply IH; [done|done|]. simpl in *; lia.
Qed.

Definition snapshot_result (w0 : W) (r : result sweep_error (list (K * V))) (w : W) : Prop :=
  match r with
  | Ok out => exists b, nbuckets <= b /\ pages w0 w b out
  | Err (BatchFailed (MapFault _)) => faults
  | Err _ => False
  end.

Lemma bucket_size b (t : gmap K V) : length (bucket b t) <= size t.
Proof. unfold bucket. rewrite length_map_to_list. apply map_subseteq_size, map_filter_subseteq. Qed.

Lemma pages_nil w : pages w w 0 [].
Proof. split; try done; try (intros; lia); try constructor; intros kv Hkv; by apply elem_of_nil in Hkv. Qed.

Lemma Snapshot_spec m fuel w :
  Type_ m <> OtherMap -> (0 < MaxEntries m)%Z -> nbuckets + Z.to_nat (MaxEntries m) < fuel ->
  (forall w', rtc env w w' -> (Z.of_nat (size w'.1) <= MaxEntries m)%Z) ->
  wp map_server (Snapshot m fuel) (snapshot_result w) w.
Proof.
  intros Htype Hmax Hfuel Hcap. unfold Snapshot, snapshot.
  assert (Hloop : wp map_server (snapshotLoop m fuel (Z.min defaultChunk (MaxEntries m)) None []) (snapshot_post m w) w).
  { unfold defaultChunk. apply snapshotLoop_spec; [lia|apply pages_nil|simpl; lia]. }
  assert (Hpost : wp map_server (snapshotLoop m fuel (Z.min defaultChunk (MaxEntries m)) None []) (snapshot_result w) w).
  { eapply wp_mono; [exact Hloop|]. intros [out|e] w'; [done|].
    destruct e as [| |[]| | |]; cbn; try done. intros (Hw & b & Hb).
    specialize (Hcap _ Hw). pose proof (bucket_size b w'.1). lia. }
  by destruct (Type_ m).
Qed.

(** ** The remove loop

    [S] is a set of keys no other writer touches during the pass.  On [S] the
    loop is the function [sweepPure], whatever happens to other keys. *)

Definition untouched (S : K -> Prop) : Prop :=
  forall w w', env w w' -> forall k, S k -> w'.1 !! k = w.1 !! k.

Lemma untouched_rtc S w w' (t : gmap K V) : untouched S -> rtc env w w' -> agree S w.1 t -> agree S w'.1 t.
Proof.
  intros Hu. induction 1 as [|w w1 w2 Hw _ IH]; [done|]. intros Ha. apply IH.
  intros k Hk. rewrite (Hu _ _ Hw k Hk). by apply Ha.
Qed.

Section Remove.
Context (S : K -> Prop) (no_fault : ~ faults) (quiet : untouched S).

Lemma recheck_spec keys w t :
  agree S w.1 t ->
  wp map_server (recheck keys)
  (fun r w' => agree S w'.1 t /\ exists cur, r = Ok cur /\
    Forall2 (fun k c => CKey c = k /\ (S k -> CValue c = t !! k)) keys cur) w.
Proof.
  intros Ha. unfold recheck.
  apply (wp_forTryP _ _ _ _ (fun pre cur w' => agree S w'.1 t /\
    Forall2 (fun k c => CKey c = k /\ (S k -> CValue c = t !! k)) pre cur)).
  - split; [done|constructor].
  - intros pre k post cur w1 _ [Ha1 Hcur] r w3 (w2 & Hw & -> & Hr).
    destruct Hr as [->|[? _]]; [|done]. pose proof (untouched_rtc _ _ _ _ quiet Hw Ha1) as Ha2.
    destruct (w2.1 !! k) as [v|] eqn:Hk; cbn;
      (split; [done|]; apply Forall2_app; [done|]; constructor; [|constructor]);
      (split; [done|]); intros HS; by rewrite <- (Ha2 k HS).
  - intros cur w' [? ?]. eauto.
Qed.

Lemma removeGroup_spec reason cur st w t :
  agree S w.1 t ->
  wp map_server (removeGroup reason cur st)
  (fun r w' => (exists st', r = Ok st') /\ agree S w'.1 (foldr delete t (deleted_keys cur))) w.
Proof.
  intros Ha. unfold removeGroup.
  apply (wp_forTryP _ _ _ _ (fun pre _ w' => agree S w'.1 (foldr delete t (deleted_keys pre)))); [done| |eauto].
  intros pre c post st1 w1 _ Ha1.
  assert (Hdel : forall k, foldr delete t (deleted_keys (pre ++ [c])) !! k =
    if decide (Present c = true /\ k = CKey c) then None else foldr delete t (deleted_keys pre) !! k).
  { intros k. rewrite !lookup_foldr_delete, deleted_keys_snoc.
    destruct (Present c); repeat case_decide; done || (exfalso; set_solver). }
  destruct (Present c) eqn:Hc; cbn -[delete].
  2: { intros k Hk. rewrite Hdel, decide_False by naive_solver. by apply Ha1. }
  intros r w3 (w2 & Hw & Heff). pose proof (untouched_rtc _ _ _ _ quiet Hw Ha1) as Ha2.
  cbn in Heff.
  assert (Ha3 : agree S w3.1 (foldr delete t (deleted_keys (pre ++ [c])))).
  { intros k Hk. rewrite Hdel. destruct (w2.1 !! CKey c) as [v|] eqn:Hv.
    all: destruct Heff as [[-> ->]|[? _]]; [|done].
    all: destruct (decide (k = CKey c)) as [->|Hne];
      [rewrite decide_True by done|rewrite decide_False by naive_solver].
    - apply lookup_delete_eq.
    - cbn [fst]. rewrite lookup_delete_ne by done. by apply Ha2.
    - done.
    - by apply Ha2. }
  destruct (w2.1 !! CKey c); destruct Heff as [[-> ->]|[? _]]; try done.
Qed.

Lemma sweepGroup_spec p g st w t :
  whole S g -> agree S w.1 t ->
  wp map_server (sweepGroup p g st)
  (fun r w' => (exists st', r = Ok st') /\ agree S w'.1 (groupEffect p t g)) w.
Proof.
  intros Hg Ha. unfold sweepGroup. apply wp_bind. eapply wp_mono; [by apply recheck_spec|].
  intros r w1 (Ha1 & cur & -> & Hcur). cbn beta iota zeta.
  destruct Hg as [Hg|Hg].
  - apply (look_group S g) in Hcur; [|done]. subst cur. unfold groupEffect, removes.
    destruct (bool_decide _); [cbn; eauto|]. cbn [negb andb].
    destruct (Confirm p g _); cbn [negb]; [|cbn; eauto].
    eapply wp_mono; [by apply (removeGroup_spec _ _ _ _ t)|]. intros r w2 [Hr Ha2].
    split; [done|]. intros k Hk. rewrite (Ha2 k Hk). apply lookup_deleted_look.
  - assert (Ha2 : agree S w1.1 (groupEffect p t g)).
    { eapply agree_trans; [exact Ha1|]. intros k Hk. symmetry. by apply (groupEffect_outside S). }
    destruct (bool_decide _); [cbn; eauto|]. destruct (Confirm p g _); cbn [negb]; [|cbn; eauto].
    eapply wp_mono; [by apply (removeGroup_spec _ _ _ _ (groupEffect p t g))|]. intros r w2 [Hr Ha3].
    split; [done|]. eapply agree_trans; [exact Ha3|]. apply delete_outside.
    intros k (c & -> & [_ Hc]%list_elem_of_filter)%list_elem_of_fmap.
    apply list_elem_of_lookup in Hc as [i Hc].
    destruct (Forall2_lookup_r _ _ _ _ _ Hcur Hc) as (k & Hk & -> & _). apply Hg. by eapply list_elem_of_lookup_2.
Qed.

Lemma groups_spec p st w t :
  (forall g, g ∈ Groups p -> whole S g) -> agree S w.1 t ->
  wp map_server (forTryP (Groups p) st (sweepGroup p))
  (fun r w' => (exists st', r = Ok st') /\ agree S w'.1 (sweepPure p t)) w.
Proof.
  intros Hg Ha.
  apply (wp_forTryP _ _ _ _ (fun pre _ w' => agree S w'.1 (foldl (groupEffect p) t pre))); [done| |eauto].
  intros pre g post st1 w1 Hl Ha1. rewrite foldl_app.
  eapply wp_mono; [apply sweepGroup_spec; [|exact Ha1]|].
  - apply Hg. rewrite Hl. set_solver.
  - by intros r w2 [[st' ->] Ha2].
Qed.

(** On [S] a snapshot is the table. *)
Lemma pages_agree w0 w b out k v :
  (forall k', hash k' < nbuckets) -> nbuckets <= b -> pages w0 w b out -> S k ->
  (k, v) ∈ out <-> w0.1 !! k = Some v.
Proof.
  intros Hhash Hb [Hr _ Hn Hs Hc] HS.
  assert (Hval : forall v', (k, v') ∈ out -> w0.1 !! k = Some v').
  { intros v' Hin. destruct (Hs _ Hin) as (w1 & Hw1 & _ & Hv). cbn in Hv. rewrite <- Hv.
    symmetry. by apply (untouched_rtc S w0 w1 w0.1). }
  split; [by apply Hval|]. intros Hv.
  assert (Hk : k ∈ out.*1).
  { apply Hc; [|by eexists|specialize (Hhash k); lia]. intros w1 w2 Hw. by rewrite (quiet _ _ Hw k HS). }
  apply list_elem_of_fmap in Hk as ([k' v'] & -> & Hin). cbn in *. specialize (Hval _ Hin). by simplify_eq.
Qed.

(** One pass, for a planner whose groups respect [S]. *)
Lemma Sweep_spec m fuel plan w (Q : list (K * V) -> Plan K V -> Prop) :
  Type_ m <> OtherMap -> (0 < MaxEntries m)%Z ->
  nbuckets + Z.to_nat (MaxEntries m) < fuel ->
  (forall w', rtc env w w' -> (Z.of_nat (size w'.1) <= MaxEntries m)%Z) ->
  (forall out b w1, nbuckets <= b -> pages w w1 b out ->
    wp map_server (plan out) (fun p w2 =>
      Q out p /\ (forall g, g ∈ Groups p -> whole S g) /\ agree S w2.1 w.1) w1) ->
  wp map_server (Sweep m fuel plan) (fun r w' =>
    r.2 = None /\ exists out b w1 p, nbuckets <= b /\ pages w w1 b out /\ Q out p /\
    agree S w'.1 (sweepPure p w.1)) w.
Proof.
  intros Htype Hmax Hfuel Hcap Hplan. unfold Sweep. apply wp_bind.
  eapply wp_mono; [apply (Snapshot_spec m fuel w); done|]. intros [out|e] w1 Hsnap; [|destruct e as [| |[]| | |]; naive_solver lia].
  destruct Hsnap as (b & Hb & Hp). apply wp_bind. eapply wp_mono; [by eapply Hplan|].
  intros p w2 (HQ & Hg & Ha). apply wp_bind. eapply wp_mono; [by apply (groups_spec p _ _ w.1)|].
  intros r w3 [[st' ->] Ha3]. cbn. split; [done|]. by exists out, b, w1, p.
Qed.
End Remove.
End Contract.
