(* ===== verification/MapSweepSafety.v ===== *)
(** * MapSweepSafety: keys a pass never deletes

    [logged] writes down the keys a pass deletes.  Keys of groups the plan would
    not confirm, whatever the recheck finds of them, are not among them: the
    recheck of every key is what protects an entry the data plane uses while
    the pass runs.  Calls may fail and other writers may act at any moment. *)

From stdpp Require Import base gmap strings list relations sets.
From Stdlib Require Import ZArith Lia.
From S2P Require Import Prelude Effects MapSweep MapSweepPure MapSweepSpec.

Section Logged.
Context {X : Type -> Type} {K V Y : Type} `{Countable K}.
Abbreviation W := (gmap K V * Y)%type.
Abbreviation E := (mapE X K V).
Context (srv : server E W).

Definition deletion {R} (e : E R) : list K := match e with MapDelete k => [k] | _ => [] end.

Definition logged : server E (W * list K) :=
  fun R e s r s' => srv R e s.1 r s'.1 /\ s'.2 = s.2 ++ deletion e.

Lemma wp_logged {A} (p : prog E A) Q w l : wp srv p Q w -> wp logged p (fun a s => Q a s.1) (w, l).
Proof.
  revert w l. induction p as [a|R e k IH]; intros w l Hp; [done|].
  intros r [w' l'] [Hs _]. apply IH. by apply Hp.
Qed.

Lemma logged_total :
  (forall R (e : E R) w, exists r w', srv R e w r w') -> forall R (e : E R) s, exists r s', logged R e s r s'.
Proof. intros Ht R e [w l]. destruct (Ht R e w) as (r & w' & Hs). by exists r, (w', l ++ deletion e). Qed.

(** A program that deletes nothing leaves the log alone. *)
Definition reads_only {A} (p : prog E A) : Prop := only (fun _ e => deletion e = []) p.

Lemma wp_reads_only {A} (p : prog E A) w l : reads_only p -> wp logged p (fun _ s => s.2 = l) (w, l).
Proof.
  revert w l. induction p as [a|R e k IH]; intros w l Hp; [done|]. destruct Hp as [He Hk].
  intros r [w' l'] [_ Hl]. cbn in Hl. rewrite He, app_nil_r in Hl. subst l'. apply IH. apply Hk.
Qed.

Lemma wp_logged_reads {A} (p : prog E A) Q w l :
  reads_only p -> wp srv p Q w -> wp logged p (fun a s => Q a s.1 /\ s.2 = l) (w, l).
Proof. intros Hp HQ. apply wp_and; [by apply wp_logged|by apply wp_reads_only]. Qed.
End Logged.

Lemma snapshotLoop_reads {X K V} m fuel size cursor (out : list (K * V)) :
  reads_only (X := X) (snapshotLoop m fuel size cursor out).
Proof.
  revert size cursor out. induction fuel as [|fuel IH]; intros size cursor out; [done|].
  split; [done|]. intros [[page [[]|]] c]; cbn; try done; [|apply IH]. destruct (_ <=? _)%Z; [done|apply IH].
Qed.

Lemma recheck_reads {X K V} (keys : list K) : reads_only (X := X) (V := V) (recheck keys).
Proof.
  apply only_forTryP. intros k cur. split; [done|]. by intros [v|[]].
Qed.

Section Protect.
Context {X : Type -> Type} {K V Y : Type} `{Countable K}.
Abbreviation W := (gmap K V * Y)%type.
Context (hash : K -> nat) (nbuckets : nat) (env : W -> W -> Prop) (other : server X W) (faults : Prop).
Abbreviation srv := (map_server hash nbuckets env other faults).

(** [J] holds of the world throughout, and [found] of what a recheck finds; [S]
    are the keys to be kept. *)
Context (S : K -> Prop) (J : W -> Prop) (found : list (Current K V) -> Prop).
Context (J_env : forall w w', env w w' -> J w -> J w').
Context (J_delete : forall w k', ~ S k' -> J w -> J (delete k' w.1, w.2)).

Definition recheck_post (keys : list K) (r : result sweep_error (list (Current K V))) (w : W) : Prop :=
  J w /\ match r with Ok cur => CKey <$> cur = keys /\ found cur | Err _ => True end.
Context (J_recheck : forall keys w, J w -> wp srv (recheck keys) (recheck_post keys) w).

(** The plan does not confirm a group when something of it is found. *)
Definition protects (p : Plan K V) (g : Group K) : Prop :=
  forall cur, CKey <$> cur = GKeys g -> found cur -> countPresent cur <> 0 -> Confirm p g cur = false.

Abbreviation spared := (fun (_ : _) (s : W * list K) => J s.1 /\ forall k, S k -> k ∉ s.2).

Lemma J_rtc w w' : rtc env w w' -> J w -> J w'.
Proof. induction 1; eauto. Qed.

Lemma removeGroup_protect reason cur st w l :
  J w -> (forall k, S k -> k ∉ l) -> (forall c, c ∈ cur -> ~ S (CKey c)) ->
  wp (logged srv) (removeGroup reason cur st) spared (w, l).
Proof.
  intros HJ Hl Hcur. unfold removeGroup. apply (wp_forTryP _ _ _ _ (fun _ => spared)); [done| |done].
  intros pre c post st1 [w1 l1] Hsplit [HJ1 Hl1]. cbn [fst snd] in *.
  destruct (Present c); cbn [negb]; [|done].
  assert (Hck : ~ S (CKey c)) by (apply Hcur; rewrite Hsplit; set_solver).
  intros r [w3 l3] [(w2 & Hw & Heff) Hl3]. cbn in Hl3, Heff.
  assert (HJ3 : J w3 /\ forall k, S k -> k ∉ l3).
  { split; [|intros k Hk; subst; specialize (Hl1 k Hk); set_solver]. pose proof (J_rtc _ _ Hw HJ1).
    destruct (w2.1 !! CKey c); destruct Heff as [[_ Hw3]|(_ & Hw3 & _)]; subst; auto. }
  destruct r as [|[]]; done.
Qed.

Lemma sweepGroup_protect p g st w l :
  J w -> (forall k, S k -> k ∉ l) -> (forall k, S k -> k ∈ GKeys g -> protects p g) ->
  wp (logged srv) (sweepGroup p g st) spared (w, l).
Proof.
  intros HJ Hl Hp. unfold sweepGroup. apply wp_bind.
  eapply wp_mono; [apply (wp_logged_reads srv); [apply recheck_reads|by apply J_recheck]|].
  intros [cur|e] [w1 l1] [[HJ1 Hcur] Hl1]; cbn [fst snd] in *; subst l1; [|done]. destruct Hcur as [Hkeys Hcur].
  case_bool_decide as Hn; [done|]. destruct (Confirm p g cur) eqn:Hconf; cbn [negb]; [|done].
  apply removeGroup_protect; [done..|]. intros c Hc HS.
  rewrite (Hp (CKey c) HS) in Hconf; [done| |done|done|done]. rewrite <- Hkeys. apply list_elem_of_fmap. eauto.
Qed.

Lemma groups_protect p st w l :
  J w -> (forall k, S k -> k ∉ l) -> (forall g k, g ∈ Groups p -> S k -> k ∈ GKeys g -> protects p g) ->
  wp (logged srv) (forTryP (Groups p) st (sweepGroup p)) spared (w, l).
Proof.
  intros HJ Hl Hp. apply (wp_forTryP _ _ _ _ (fun _ => spared)); [done| |done].
  intros pre g post st1 [w1 l1] Hsplit [HJ1 Hl1].
  eapply wp_mono; [apply sweepGroup_protect; [done..|]|by intros [] ? ?].
  intros k. apply Hp. rewrite Hsplit. set_solver.
Qed.

(** A pass deletes none of the keys its plan protects. *)
Lemma Sweep_protect m fuel plan w :
  Type_ m <> OtherMap -> (0 < MaxEntries m)%Z -> nbuckets + Z.to_nat (MaxEntries m) < fuel -> J w ->
  (forall out, reads_only (plan out)) ->
  (forall out b w1, nbuckets <= b -> pages hash env w w1 b out -> J w1 ->
    wp srv (plan out) (fun p w2 => J w2 /\ forall g k, g ∈ Groups p -> S k -> k ∈ GKeys g -> protects p g) w1) ->
  wp (logged srv) (Sweep m fuel plan) (fun _ s => forall k, S k -> k ∉ s.2) (w, []).
Proof.
  intros Htype Hmax Hfuel HJ Hreads Hplan. unfold Sweep, Snapshot, snapshot.
  assert (Hsnap : wp (logged srv) (snapshotLoop m fuel (Z.min defaultChunk (MaxEntries m)) None [])
    (fun r s => snapshot_post hash nbuckets env faults m w r s.1 /\ s.2 = []) (w, [])).
  { apply wp_logged_reads; [apply snapshotLoop_reads|]. unfold defaultChunk.
    apply snapshotLoop_spec; [lia|apply pages_nil|simpl; lia]. }
  apply wp_bind.
  enough (Hcont : wp (logged srv) (snapshotLoop m fuel (Z.min defaultChunk (MaxEntries m)) None [])
    (fun r s => wp (logged srv) _ (fun _ s' => forall k, S k -> k ∉ s'.2) s) (w, [])) by (by destruct (Type_ m)).
  eapply wp_mono; [exact Hsnap|]. intros [out|e] [w1 l1] [Hpost Hl1]; cbn [fst snd] in *; subst l1;
    [|intros k _; by apply not_elem_of_nil].
  destruct Hpost as (b & Hb & Hp). cbn [fst snd] in *. apply wp_bind.
  eapply wp_mono; [apply wp_logged_reads; [apply Hreads|]|].
  { apply (Hplan out b w1); [done..|]. eapply J_rtc; [apply Hp|done]. }
  intros p [w2 l2] [[HJ2 Hprot] Hl2]. cbn [fst snd] in *. subst l2. apply wp_bind.
  eapply wp_mono; [apply groups_protect; [done|intros k _; apply not_elem_of_nil|done]|].
  by intros [st|[e st]] s [_ Hs].
Qed.
End Protect.
