(* ===== verification/Conntrack.v ===== *)
(** * Conntrack: flow states, idle timeouts and the garbage collectors

    - [daemon/.../dataplane/ctstate]: the TCP state machine both conntrack
      tables step through, its mirror in [daemon/bpf/ct.h], and the idle
      timeouts;
    - [daemon/.../dataplane/policyct]: how the two halves of a policy
      admission pair up, and its mirror in [daemon/bpf/policy_ct.h];
    - [daemon/.../dataplane/reconciler/conntrack.go]: the planners of the two
      conntrack tables, the policy sweeper with its failure counters, one pass
      over both tables;
    - [daemon/.../dataplane/l2/fdb_gc.go] and
      [.../reconciler/service/affinity_gc.go]: the two other users of
      [MapSweep]. *)

From stdpp Require Import base gmap strings list.
From Stdlib Require Import ZArith Lia.
From S2P Require Import Prelude Effects MapSweep.
Open Scope Z_scope.

(** ** ctstate/state.go *)

Definition StateNew : Z := 0.
Definition StateEstablished : Z := 1.
Definition StateFinWait : Z := 2.
Definition StateClosed : Z := 3.

Definition FlagFin : Z := 0x01.
Definition FlagSyn : Z := 0x02.
Definition FlagRst : Z := 0x04.
Definition FlagAck : Z := 0x10.

(** [flags&f != 0] *)
Definition hasFlag (flags f : Z) : bool := negb (Z.land flags f =? 0).

Definition DeriveNextState (cur flags : Z) : Z :=
  if hasFlag flags FlagRst then StateClosed
  else if hasFlag flags FlagFin then
    if cur =? StateFinWait then StateClosed else StateFinWait
  else if (cur =? StateNew) && hasFlag flags FlagAck then StateEstablished
  else cur.

Definition InitialStateForSYN (flags : Z) : Z :=
  if hasFlag flags FlagSyn then StateNew else StateEstablished.

(** ** ctstate/ttl.go

    A [time.Duration] is a number of nanoseconds. *)

Definition ProtoICMP : Z := 1.
Definition ProtoTCP : Z := 6.
Definition ProtoUDP : Z := 17.

Definition Second : Z := 1000000000.
Definition TTLNew : Z := 120 * Second.
Definition TTLEstablished : Z := 3600 * Second.
Definition TTLFinWait : Z := 60 * Second.
Definition TTLUDP : Z := 60 * Second.
Definition TTLICMP : Z := 30 * Second.
Definition TTLOther : Z := 120 * Second.

Definition protoTTLs : gmap Z Z := {[ ProtoUDP := TTLUDP; ProtoICMP := TTLICMP ]}.

Definition entryTTL (state proto : Z) : option Z :=
  if negb (proto =? ProtoTCP) then
    match protoTTLs !! proto with Some ttl => Some ttl | None => Some TTLOther end
  else if state =? StateNew then Some TTLNew
  else if state =? StateEstablished then Some TTLEstablished
  else if state =? StateFinWait then Some TTLFinWait
  else None.

Definition elapsedNs (lastSeenNs nowNs : Z) : Z :=
  if nowNs <=? lastSeenNs then 0 else wrapU 64 (nowNs - lastSeenNs).

Definition ShouldEvict (state proto lastSeenNs nowNs : Z) : bool :=
  if state =? StateClosed then true
  else match entryTTL state proto with
       | None => false
       | Some ttl => wrapU 64 ttl <? elapsedNs lastSeenNs nowNs
       end.

(** ** The map keys and values ([bpf.PodEgress*], the structs of maps.h) *)

Module NatCT.
Record natCTKey := MkKey {
  Scope : Z; Saddr : Z; Daddr : Z; Sport : Z; Dport : Z; Proto : Z; Pad : Z;
}.
Record natCTVal := MkVal {
  NewSaddr : Z; NewDaddr : Z; NewSport : Z; NewDport : Z; NextSubnetId : Z;
  Action : Z; State : Z; FlagsSeen : Z; LastSeenNs : Z;
}.

#[global] Instance Key_eq_dec : EqDecision natCTKey.
Proof. solve_decision. Defined.
#[global] Instance Key_countable : Countable natCTKey.
Proof.
  apply (inj_countable' (fun k => (Scope k, Saddr k, Daddr k, Sport k, Dport k, Proto k, Pad k))
    (fun '(c, s, d, sp, dp, p, pad) => MkKey c s d sp dp p pad)).
  by intros [].
Defined.
End NatCT.

Module PolicyCT.
Record policyCTKey := MkKey {
  Epoch : Z; Scope : Z; Saddr : Z; Daddr : Z; Sport : Z; Dport : Z;
  Proto : Z; Hook : Z; Pad : Z;
}.
Record policyCTVal := MkVal { State : Z; FlagsSeen : Z; LastSeenNs : Z }.

#[global] Instance Key_eq_dec : EqDecision policyCTKey.
Proof. solve_decision. Defined.
#[global] Instance Key_countable : Countable policyCTKey.
Proof.
  apply (inj_countable'
    (fun k => (Epoch k, Scope k, Saddr k, Daddr k, Sport k, Dport k, Proto k, Hook k, Pad k))
    (fun '(e, c, s, d, sp, dp, p, h, pad) => MkKey e c s d sp dp p h pad)).
  by intros [].
Defined.
End PolicyCT.

(** An [l2_fdb] inner map and [service_affinity_map]. *)
Module Fdb.
Record fdbKey := MkKey { Mac : list Z }.
Record fdbVal := MkVal { Ifindex : Z; VtepIp : Z; LastSeenNs : Z; Flags : Z; Pad : Z }.
End Fdb.

Module Affinity.
Record affinityKey := MkKey { ClusterIp : Z; Port : Z; Proto : Z; Pad : Z; ClientIp : Z }.
Record affinityVal := MkVal { BackendIndex : Z; BackendGen : Z; ExpiresAtNs : Z }.
End Affinity.

(** ** policyct *)

Definition HookPodEgress : Z := 1.
Definition HookPodIngress : Z := 2.
Definition StatReverseInstallFailed : Z := 0.
Definition StatForwardInstallFailed : Z := 1.

Definition peerHook (hook : Z) : Z :=
  if hook =? HookPodEgress then HookPodIngress else HookPodEgress.

(** The composite literal names no padding, so it is zero. *)
Definition Reverse (key : PolicyCT.policyCTKey) : PolicyCT.policyCTKey :=
  PolicyCT.MkKey (PolicyCT.Epoch key) (PolicyCT.Scope key)
    (PolicyCT.Daddr key) (PolicyCT.Saddr key) (PolicyCT.Dport key) (PolicyCT.Sport key)
    (PolicyCT.Proto key) (peerHook (PolicyCT.Hook key)) 0.

(** ** The data plane's side ([ct.h], [policy_ct.h]) *)

Module Bpf.
Definition CT_STATE_NEW : Z := 0.
Definition CT_STATE_ESTABLISHED : Z := 1.
Definition CT_STATE_FIN_WAIT : Z := 2.
Definition CT_STATE_CLOSED : Z := 3.
Definition TCP_FLAG_FIN : Z := 0x01.
Definition TCP_FLAG_SYN : Z := 0x02.
Definition TCP_FLAG_RST : Z := 0x04.
Definition TCP_FLAG_ACK : Z := 0x10.
Definition POLICY_HOOK_POD_EGRESS : Z := 1.
Definition POLICY_HOOK_POD_INGRESS : Z := 2.

(** An integer as a C condition. *)
Definition truth (z : Z) : bool := negb (z =? 0).

Definition ct_derive_next_state (cur flags : Z) : Z :=
  if truth (Z.land flags TCP_FLAG_RST) then CT_STATE_CLOSED
  else if truth (Z.land flags TCP_FLAG_FIN) then
  if cur =? CT_STATE_FIN_WAIT then CT_STATE_CLOSED else CT_STATE_FIN_WAIT
  else if (cur =? CT_STATE_NEW) && truth (Z.land flags TCP_FLAG_ACK) then CT_STATE_ESTABLISHED
  else cur.

Definition ct_initial_state_for_syn (flags : Z) : Z :=
  if truth (Z.land flags TCP_FLAG_SYN) then CT_STATE_NEW else CT_STATE_ESTABLISHED.

Definition policy_ct_peer_hook (hook : Z) : Z :=
  if hook =? POLICY_HOOK_POD_EGRESS then POLICY_HOOK_POD_INGRESS else POLICY_HOOK_POD_EGRESS.

Definition policy_ct_build_key (hook epoch vpc_id saddr daddr sport dport proto : Z) : PolicyCT.policyCTKey :=
  PolicyCT.MkKey epoch vpc_id saddr daddr sport dport proto hook 0.

Definition policy_ct_reverse_key (key : PolicyCT.policyCTKey) : PolicyCT.policyCTKey :=
  PolicyCT.MkKey (PolicyCT.Epoch key) (PolicyCT.Scope key)
  (PolicyCT.Daddr key) (PolicyCT.Saddr key) (PolicyCT.Dport key) (PolicyCT.Sport key)
  (PolicyCT.Proto key) (policy_ct_peer_hook (PolicyCT.Hook key)) 0.
Definition TCP_FLAG_TRACKED : Z :=
  Z.lor (Z.lor (Z.lor TCP_FLAG_FIN TCP_FLAG_SYN) TCP_FLAG_RST) TCP_FLAG_ACK.

(** [policy_ct_observe_tcp]: [self] is the key the entry [pv] was found under. *)
Definition policy_ct_observe_tcp (self : PolicyCT.policyCTKey) (pv : PolicyCT.policyCTVal) (flags : Z)
  (t : gmap PolicyCT.policyCTKey PolicyCT.policyCTVal) : gmap PolicyCT.policyCTKey PolicyCT.policyCTVal :=
  let next := ct_derive_next_state (PolicyCT.State pv) flags in
  let pv' := PolicyCT.MkVal next
  (Z.lor (PolicyCT.FlagsSeen pv) (Z.land flags TCP_FLAG_TRACKED)) (PolicyCT.LastSeenNs pv) in
  let t' := <[self := pv']> t in
  if negb (next =? CT_STATE_CLOSED) then t'
  else delete self (delete (policy_ct_reverse_key self) t').

(** The short circuit of the policy stage ([policy.h]): the packet of an
    admitted flow stamps its entry, and a TCP packet whose flags can be read
    ([Some]) is observed.  [None]: no entry, the rules are evaluated. *)
Definition policy_hit (ck : PolicyCT.policyCTKey) (now : Z) (flags : option Z)
  (t : gmap PolicyCT.policyCTKey PolicyCT.policyCTVal) : option (gmap PolicyCT.policyCTKey PolicyCT.policyCTVal) :=
  match t !! ck with
  | None => None
  | Some pv =>
      let pv' := PolicyCT.MkVal (PolicyCT.State pv) (PolicyCT.FlagsSeen pv) now in
      let t' := <[ck := pv']> t in
      Some (match flags with
      | Some f => if PolicyCT.Proto ck =? ProtoTCP then policy_ct_observe_tcp ck pv' f t' else t'
      | None => t'
      end)
  end.

(** [bpf_map_update_elem] with [BPF_ANY] on a HASH map: a new key does not go
    into a full map. *)
Definition map_update (max : nat) (k : PolicyCT.policyCTKey) (v : PolicyCT.policyCTVal)
  (t : gmap PolicyCT.policyCTKey PolicyCT.policyCTVal) : option (gmap PolicyCT.policyCTKey PolicyCT.policyCTVal) :=
  if bool_decide (is_Some (t !! k)) || bool_decide (size t < max)%nat then Some (<[k := v]> t) else None.

(** [policy_ct_install], with the slot of [policy_ct_stats] it counts in. *)
Definition policy_ct_install (max : nat) (fwd_key : PolicyCT.policyCTKey) (init_state init_flags now : Z)
  (t : gmap PolicyCT.policyCTKey PolicyCT.policyCTVal) : gmap PolicyCT.policyCTKey PolicyCT.policyCTVal * option Z :=
  let val := PolicyCT.MkVal init_state init_flags now in
  match map_update max (policy_ct_reverse_key fwd_key) val t with
  | None => (t, Some 0)
  | Some t1 =>
      match map_update max fwd_key val t1 with
      | None => (t1, Some 1)
      | Some t2 => (t2, None)
      end
  end.
End Bpf.

(** ** The planners *)

Definition reasonExpired : Reason := "expired".
Definition reasonStaleEpoch : Reason := "staleEpoch".
Definition reasonAged : Reason := "aged".

Definition planNATCT (snapshot : list (NatCT.natCTKey * NatCT.natCTVal)) (nowNs : Z) : Plan NatCT.natCTKey NatCT.natCTVal :=
  ByEntry snapshot reasonExpired (fun k v =>
    ShouldEvict (NatCT.State v) (NatCT.Proto k) (NatCT.LastSeenNs v) nowNs).

(** The closure [idle] of [planPolicyCT]. *)
Definition idle (nowNs : Z) (k : PolicyCT.policyCTKey) (v : PolicyCT.policyCTVal) : bool :=
  ShouldEvict (PolicyCT.State v) (PolicyCT.Proto k) (PolicyCT.LastSeenNs v) nowNs.

(** The map [current]: the last value the snapshot gives each key of the
    current generation. *)
Definition currentEntries (snapshot : list (PolicyCT.policyCTKey * PolicyCT.policyCTVal)) (epoch : Z)
  : gmap PolicyCT.policyCTKey PolicyCT.policyCTVal :=
  foldl (fun current e => if PolicyCT.Epoch e.1 =? epoch then <[e.1 := e.2]> current else current) ∅ snapshot.

(** The loop that builds [groups], with the set [planned]. *)
Fixpoint policyGroups (nowNs epoch : Z) (current : gmap PolicyCT.policyCTKey PolicyCT.policyCTVal)
    (planned : gset PolicyCT.policyCTKey) (snapshot : list (PolicyCT.policyCTKey * PolicyCT.policyCTVal)) : list (Group PolicyCT.policyCTKey) :=
  match snapshot with
  | [] => []
  | e :: rest =>
      if negb (PolicyCT.Epoch e.1 =? epoch) then
        MkGroup [e.1] reasonStaleEpoch :: policyGroups nowNs epoch current planned rest
      else if bool_decide (e.1 ∈ planned) || negb (idle nowNs e.1 e.2) then
        policyGroups nowNs epoch current planned rest
      else
        let partner := Reverse e.1 in
        if match current !! partner with Some v => negb (idle nowNs partner v) | None => false end then
          policyGroups nowNs epoch current planned rest
        else
          MkGroup [e.1; partner] reasonExpired
            :: policyGroups nowNs epoch current ({[partner]} ∪ planned) rest
  end.

(** [Confirm] of [planPolicyCT]. *)
Definition confirmPolicy (nowNs : Z) (group : Group PolicyCT.policyCTKey)
    (now : list (Current PolicyCT.policyCTKey PolicyCT.policyCTVal)) : bool :=
  if bool_decide (GReason group = reasonStaleEpoch) then true
  else forallb (fun c => match CValue c with
                         | Some v => idle nowNs (CKey c) v
                         | None => true
                         end) now.

Definition planPolicyCT (snapshot : list (PolicyCT.policyCTKey * PolicyCT.policyCTVal)) (epoch nowNs : Z)
  : Plan PolicyCT.policyCTKey PolicyCT.policyCTVal :=
  MkPlan (policyGroups nowNs epoch (currentEntries snapshot epoch) ∅ snapshot) (confirmPolicy nowNs).

Definition FdbFlagGateway : Z := 1.
Definition FdbAging : Z := 300 * Second.

Definition fdbStale (nowNs aging : Z) (_ : Fdb.fdbKey) (val : Fdb.fdbVal) : bool :=
  if negb (Z.land (Fdb.Flags val) FdbFlagGateway =? 0) then false
  else (Fdb.LastSeenNs val <=? nowNs) && (aging <=? wrapU 64 (nowNs - Fdb.LastSeenNs val)).

Definition planFdbAging (snapshot : list (Fdb.fdbKey * Fdb.fdbVal)) (nowNs aging : Z) : Plan Fdb.fdbKey Fdb.fdbVal :=
  ByEntry snapshot reasonAged (fdbStale nowNs aging).

Definition planAffinityExpiry (snapshot : list (Affinity.affinityKey * Affinity.affinityVal)) (nowNs : Z)
  : Plan Affinity.affinityKey Affinity.affinityVal :=
  ByEntry snapshot reasonExpired (fun _ val => Affinity.ExpiresAtNs val <=? nowNs).

(** ** The sweeps *)

Inductive report_error := SweepErr (e : sweep_error) | StatsErr (slot : Z) (e : map_error).

Record Report := MkReport {
  Map : string;
  RStats : Stats;
  Errs : list report_error;        (* errors.Join *)
  Fields : list (string * Z);
  Warnings : list string;
}.

Definition sweepErrs (err : option sweep_error) : list report_error :=
  match err with Some e => [SweepErr e] | None => [] end.

(** No calls besides those on the map. *)
Inductive noE : Type -> Type := .

(** [natTable]: one pass over [ct_map]. *)
Definition natSweep (m : map_handle) (fuel : nat) (nowNs : Z) : prog (mapE noE NatCT.natCTKey NatCT.natCTVal) Report :=
  r <- Sweep m fuel (fun snapshot => Ret (planNATCT snapshot nowNs)) ;;
  Ret (MkReport "ct_map" r.1 (sweepErrs r.2) [] []).

(** The calls of the policy sweeper besides those on [policy_ct_map]:
    [EpochSource.Current] and a read of a [policy_ct_stats] slot, one value for
    each CPU. *)
Inductive policyE : Type -> Type :=
| EpochCurrent : policyE Z
| StatLookup (slot : Z) : policyE (result map_error (list Z)).

Record installFailures := MkFailures { reverseFailed : Z; forwardFailed : Z }.

Definition since (f earlier : installFailures) : installFailures :=
  MkFailures (wrapU 64 (reverseFailed f - reverseFailed earlier)) (wrapU 64 (forwardFailed f - forwardFailed earlier)).

Definition any (f : installFailures) : bool := negb (reverseFailed f =? 0) || negb (forwardFailed f =? 0).

Abbreviation policyEv := (mapE policyE PolicyCT.policyCTKey PolicyCT.policyCTVal).

Definition sumPerCPU (slot : Z) : prog policyEv (result report_error Z) :=
  r <- call (Other (StatLookup slot)) ;;
  match r with
  | Err e => Ret (Err (StatsErr slot e))
  | Ok perCPU => Ret (Ok (foldl (fun total v => wrapU 64 (total + v)) 0 perCPU))
  end.

Definition readInstallFailures : prog policyEv (result report_error installFailures) :=
  reverse <-? sumPerCPU StatReverseInstallFailed ;;
  forward <-? sumPerCPU StatForwardInstallFailed ;;
  Ret (Ok (MkFailures reverse forward)).

(** [policySweeper.sweep], from and to the field [failures]. *)
Definition policySweep (m : map_handle) (fuel : nat) (nowNs : Z) (failures : installFailures)
  : prog policyEv (Report * installFailures) :=
  r <- Sweep m fuel (fun snapshot =>
         epoch <- call (Other EpochCurrent) ;; Ret (planPolicyCT snapshot epoch nowNs)) ;;
  let errs := sweepErrs r.2 in
  f <- readInstallFailures ;;
  match f with
  | Err e => Ret (MkReport "policy_ct_map" r.1 (errs ++ [e]) [] [], failures)
  | Ok now =>
      let grown := since now failures in
      Ret (MkReport "policy_ct_map" r.1 errs
             [("reverseInstallFailures", reverseFailed grown); ("forwardInstallFailures", forwardFailed grown)]%string
             (if any grown then ["policy_ct_install could not write some pairs"%string] else []),
           now)
  end.

(** The same program against a larger set of calls. *)
Fixpoint hoist {E F A} (f : forall R, E R -> F R) (p : prog E A) : prog F A :=
  match p with
  | Ret a => Ret a
  | Vis e k => Vis (f _ e) (fun r => hoist f (k r))
  end.

Inductive gcE : Type -> Type :=
| OnNat {R} (e : mapE noE NatCT.natCTKey NatCT.natCTVal R) : gcE R
| OnPolicy {R} (e : policyEv R) : gcE R.

(** [Conntrack.sweep] over the two tables of [NewConntrack]. *)
Definition Conntrack_sweep (ct policyCT : map_handle) (fuel : nat) (nowNs : Z) (failures : installFailures)
  : prog gcE (list Report * installFailures) :=
  nat_report <- hoist (@OnNat) (natSweep ct fuel nowNs) ;;
  policy <- hoist (@OnPolicy) (policySweep policyCT fuel nowNs failures) ;;
  Ret ([nat_report; policy.1], policy.2).

(** [AffinityGC.gcOnce] at a given time; [None] is a nil map. *)
Definition gcOnce (affinityMap : option map_handle) (fuel : nat) (nowNs : Z)
  : prog (mapE noE Affinity.affinityKey Affinity.affinityVal) (list Report) :=
  match affinityMap with
  | None => Ret []
  | Some m =>
      r <- Sweep m fuel (fun snapshot => Ret (planAffinityExpiry snapshot nowNs)) ;;
      Ret [MkReport "service_affinity_map" r.1 (sweepErrs r.2) [] []]
  end.

(** The calls of [FdbGC.Sweep]: those on the inner map of one network. *)
Inductive fdbE : Type -> Type :=
| OnInner (vni : Z) {R} (e : mapE noE Fdb.fdbKey Fdb.fdbVal R) : fdbE R.

(** [FdbGC.Sweep] over the inner maps of the table, in VNI order; [None] is a
    nil table. *)
Definition FdbGC_Sweep (table : option (list (Z * map_handle))) (fuel : nat) (nowNs aging : Z) : prog fdbE (list Report) :=
  match table with
  | None => Ret []
  | Some inners =>
      forP inners [] (fun inner reports =>
        r <- hoist (@OnInner inner.1) (Sweep inner.2 fuel (fun snapshot => Ret (planFdbAging snapshot nowNs aging))) ;;
        Ret (reports ++ [MkReport "l2_fdb" r.1 (sweepErrs r.2) [("vni"%string, inner.1)] []]))
  end.
