(* ===== verification/ConntrackFlows.v ===== *)
(** * ConntrackFlows: the life of an admitted flow in the policy table

    A policy admission is a pair of entries, [k] and [Reverse k].  Each half
    is stepped by the packets that hit its own key, so a half sees the TCP
    flags of one direction only.  [pair_lifecycle] says what any sequence of
    packets leaves of the pair, [pair_closes_whole] what that means for the
    flow. *)

From stdpp Require Import base gmap strings list.
From Stdlib Require Import ZArith Lia.
From S2P Require Import Prelude Effects MapSweep Conntrack.
Open Scope Z_scope.

#[local] Arguments Z.land : simpl never.
#[local] Arguments Z.lor : simpl never.
#[local] Arguments Nat.leb : simpl never.

(** The keys the data plane writes. *)
Definition dataplane_key (k : PolicyCT.policyCTKey) : Prop :=
  (PolicyCT.Hook k = HookPodEgress \/ PolicyCT.Hook k = HookPodIngress) /\ PolicyCT.Pad k = 0.

Lemma Reverse_involutive k : dataplane_key k -> Reverse (Reverse k) = k.
Proof. destruct k. intros [[Hh|Hh] Hp]; cbn in Hh, Hp; subst; reflexivity. Qed.

Lemma Reverse_dataplane k : dataplane_key (Reverse k).
Proof. unfold dataplane_key. cbn. unfold peerHook. destruct (_ =? _); split; auto. Qed.

Lemma Reverse_ne k : dataplane_key k -> Reverse k <> k.
Proof. destruct k. intros [[Hh|Hh] _]; cbn in Hh; subst; intros [=]. Qed.

Lemma Reverse_mirrors_bpf k : Reverse k = Bpf.policy_ct_reverse_key k.
Proof. reflexivity. Qed.

#[export] Hint Resolve Reverse_dataplane Reverse_ne : juneau.

(** ** One half *)

Definition fin (f : Z) : bool := hasFlag f FlagFin.
Definition rst (f : Z) : bool := hasFlag f FlagRst.
Definition ack (f : Z) : bool := hasFlag f FlagAck.

(** The flags of one direction close the flow: a RST, or a second FIN. *)
Definition closing (l : list Z) : bool := existsb rst l || (2 <=? length (filter (fun f => fin f = true) l))%nat.

(** The state of a half that has not closed. *)
Definition half_state (s : Z) (l : list Z) : Z :=
  if existsb fin l then StateFinWait
  else if (s =? StateNew) && negb (existsb ack l) then StateNew else StateEstablished.

Lemma fin_count l : (length (filter (fun f => fin f = true) l) = 0)%nat <-> existsb fin l = false.
Proof.
  induction l as [|f l IH]; [done|]. rewrite filter_cons. simpl. destruct (fin f); simpl; [|exact IH].
  split; done.
Qed.

Lemma closing_snoc l f :
  closing l = false -> closing (l ++ [f]) = rst f || (fin f && existsb fin l).
Proof.
  unfold closing. intros [Hr Hc]%orb_false_iff. rewrite existsb_app, filter_app, length_app, Hr. simpl.
  rewrite orb_false_r. f_equal. apply Nat.leb_gt in Hc. rewrite filter_cons, filter_nil.
  destruct (fin f) eqn:Hf; simpl; [|rewrite Nat.add_0_r; apply Nat.leb_gt; lia].
  destruct (existsb fin l) eqn:He.
  - apply Nat.leb_le. destruct (length _) eqn:Hl; [|lia]. apply fin_count in Hl. congruence.
  - apply fin_count in He. rewrite He. done.
Qed.

Lemma half_step s l f :
  (s = StateNew \/ s = StateEstablished) -> closing l = false ->
  DeriveNextState (half_state s l) f =
    if closing (l ++ [f]) then StateClosed else half_state s (l ++ [f]).
Proof.
  intros Hs Hl. rewrite (closing_snoc l f Hl). unfold half_state, DeriveNextState, rst, fin, ack.
  rewrite !existsb_app. cbn [existsb]. rewrite !orb_false_r.
  destruct (hasFlag f FlagRst); [done|]. cbn [orb].
  destruct (hasFlag f FlagFin), (existsb (fun f => hasFlag f FlagFin) l); try done.
  all: destruct Hs as [-> | ->], (existsb (fun f => hasFlag f FlagAck) l), (hasFlag f FlagAck); done.
Qed.

Lemma half_state_open s l : half_state s l <> StateClosed.
Proof. unfold half_state. by repeat case_match. Qed.

(** ** The pair *)

(** A packet of the flow: its direction, its time and its TCP flags. *)
Definition packet : Type := bool * Z * Z.

Definition dir_key (k : PolicyCT.policyCTKey) (d : bool) : PolicyCT.policyCTKey := if d then k else Reverse k.

(** The table after a packet that hits, or misses, the pair of [k]. *)
Definition observe (k : PolicyCT.policyCTKey) (t : gmap PolicyCT.policyCTKey PolicyCT.policyCTVal) (p : packet)
  : gmap PolicyCT.policyCTKey PolicyCT.policyCTVal :=
  let '(d, now, f) := p in default t (Bpf.policy_hit (dir_key k d) now (Some f) t).

Definition flags_of (d : bool) (ps : list packet) : list Z :=
  snd <$> filter (fun p : packet => p.1.1 = d) ps.

Definition closes (ps : list packet) : bool := closing (flags_of true ps) || closing (flags_of false ps).

(** The pair is in the table, each half in the state its direction gives it. *)
Definition pair_open (k : PolicyCT.policyCTKey) (s : Z) (ps : list packet) (t : gmap PolicyCT.policyCTKey PolicyCT.policyCTVal) : Prop :=
  forall d, exists v, t !! dir_key k d = Some v /\ PolicyCT.State v = half_state s (flags_of d ps).

Definition pair_gone (k : PolicyCT.policyCTKey) (t : gmap PolicyCT.policyCTKey PolicyCT.policyCTVal) : Prop :=
  forall d, t !! dir_key k d = None.

Lemma flags_of_snoc d ps p : flags_of d (ps ++ [p]) = flags_of d ps ++ if decide (p.1.1 = d) then [p.2] else [].
Proof. unfold flags_of. rewrite filter_app, fmap_app, filter_cons. by case_decide. Qed.

Lemma dir_key_inj k d d' : dataplane_key k -> dir_key k d = dir_key k d' -> d = d'.
Proof. intros Hk. pose proof (Reverse_ne k Hk). destruct d, d'; cbn; congruence. Qed.

Lemma dir_key_reverse k d : dataplane_key k -> Bpf.policy_ct_reverse_key (dir_key k d) = dir_key k (negb d).
Proof. intros Hk. destruct d; [done|]. by apply Reverse_involutive. Qed.

Lemma closes_snoc ps d now f :
  closes ps = false -> closes (ps ++ [(d, now, f)]) = closing (flags_of d ps ++ [f]).
Proof.
  unfold closes. intros [Ht Hf]%orb_false_iff. rewrite !flags_of_snoc. cbn [fst snd].
  destruct d; cbn; rewrite app_nil_r; [by rewrite Hf, orb_false_r|by rewrite Ht].
Qed.

(** A packet on an open pair. *)
Lemma observe_open k s ps d now f t :
  dataplane_key k -> PolicyCT.Proto k = ProtoTCP -> (s = StateNew \/ s = StateEstablished) ->
  closes ps = false -> pair_open k s ps t ->
  if closing (flags_of d ps ++ [f]) then pair_gone k (observe k t (d, now, f))
  else pair_open k s (ps ++ [(d, now, f)]) (observe k t (d, now, f)).
Proof.
  intros Hk Hp Hs Hc Hopen. destruct (Hopen d) as (v & Hv & Hst).
  assert (Hcd : closing (flags_of d ps) = false) by (unfold closes in Hc; to_prop; by destruct d).
  assert (Hproto : PolicyCT.Proto (dir_key k d) =? ProtoTCP = true) by (apply Z.eqb_eq; by destruct d).
  unfold observe, Bpf.policy_hit. rewrite Hv, Hproto. cbn [default from_option id].
  unfold Bpf.policy_ct_observe_tcp. cbn [PolicyCT.State].
  change Bpf.ct_derive_next_state with DeriveNextState. rewrite Hst, (half_step _ _ _ Hs Hcd).
  rewrite insert_insert_eq, (dir_key_reverse _ _ Hk).
  destruct (closing (flags_of d ps ++ [f])) eqn:Hcl; cbn [negb].
  - intros d'. rewrite Z.eqb_refl. cbn [negb]. destruct (decide (d' = d)) as [->|Hd]; [apply lookup_delete_eq|].
    rewrite lookup_delete_ne by (intros Heq%dir_key_inj; congruence).
    replace d' with (negb d) by (by destruct d, d'). apply lookup_delete_eq.
  - rewrite (proj2 (Z.eqb_neq _ _)) by apply half_state_open. cbn [negb].
    intros d'. rewrite flags_of_snoc. cbn [fst snd]. destruct (decide (d = d')) as [<-|Hd].
    + eexists. rewrite lookup_insert_eq. done.
    + rewrite lookup_insert_ne by (by intros ?%dir_key_inj). rewrite app_nil_r. apply Hopen.
Qed.

Lemma observe_gone k t p : pair_gone k t -> pair_gone k (observe k t p).
Proof. intros Hg. destruct p as [[d now] f]. unfold observe, Bpf.policy_hit. by rewrite (Hg d). Qed.

Lemma closes_mono ps p : closes ps = true -> closes (ps ++ [p]) = true.
Proof.
  unfold closes. rewrite !flags_of_snoc. unfold closing. rewrite !orb_true_iff, !existsb_app, !filter_app, !length_app.
  rewrite !orb_true_iff, !Nat.leb_le. naive_solver lia.
Qed.

(** Whatever the packets, the pair is removed as a whole exactly when one of
    its two directions has carried a RST or a second FIN; otherwise both halves
    are in the table, each in the state that the flags of its own direction
    give it: FIN_WAIT after a FIN, else ESTABLISHED unless the flow was opened
    by a SYN and this direction has not sent an ACK. *)
Lemma pair_lifecycle k s ps t :
  dataplane_key k -> PolicyCT.Proto k = ProtoTCP -> (s = StateNew \/ s = StateEstablished) ->
  pair_open k s [] t ->
  if closes ps then pair_gone k (foldl (observe k) t ps)
  else pair_open k s ps (foldl (observe k) t ps).
Proof.
  intros Hk Hp Hs Hopen. induction ps as [|[[d now] f] ps IH] using rev_ind; [done|]. rewrite foldl_app. cbn [foldl].
  destruct (closes ps) eqn:Hc.
  - rewrite (closes_mono _ _ Hc). by apply observe_gone.
  - rewrite (closes_snoc _ _ _ _ Hc). by apply observe_open.
Qed.

Lemma observe_elsewhere k t p k' : dataplane_key k -> k' <> k -> k' <> Reverse k -> observe k t p !! k' = t !! k'.
Proof.
  intros Hk H1 H2. destruct p as [[d now] f]. unfold observe, Bpf.policy_hit.
  assert (Hd : forall d, dir_key k d <> k') by (intros []; cbn; congruence).
  destruct (t !! dir_key k d) as [v|]; [|done]. cbn. destruct (_ =? ProtoTCP); [|by rewrite lookup_insert_ne].
  unfold Bpf.policy_ct_observe_tcp. rewrite insert_insert_eq, (dir_key_reverse _ _ Hk).
  case_match; [by rewrite lookup_insert_ne|]. rewrite !lookup_delete_ne by done. by rewrite lookup_insert_ne.
Qed.

(** The FINs of both directions together. *)
Definition fins (ps : list packet) : nat := length (filter (fun f => fin f = true) (snd <$> ps)).

Lemma fins_split ps :
  (fins ps = length (filter (fun f => fin f = true) (flags_of true ps)) + length (filter (fun f => fin f = true) (flags_of false ps)))%nat.
Proof.
  unfold fins, flags_of. induction ps as [|[[d now] f] ps IH]; [done|]. rewrite !filter_cons, fmap_cons, filter_cons. cbn [fst snd].
  repeat case_decide; rewrite ?fmap_cons, ?filter_cons; cbn [snd]; repeat case_decide; cbn [length]; try (by destruct d); lia.
Qed.

Lemma existsb_flags (g : Z -> bool) ps : existsb g (snd <$> ps) = existsb g (flags_of true ps) || existsb g (flags_of false ps).
Proof.
  unfold flags_of. induction ps as [|[[d now] f] ps IH]; [done|]. rewrite !filter_cons, fmap_cons. cbn [fst snd].
  repeat case_decide; cbn; try (by destruct d); rewrite IH; [by rewrite orb_assoc|]. by rewrite !orb_assoc, (orb_comm (g f)).
Qed.

(** Claim C18: what a sequence of packets does to an admitted TCP flow.
    Whatever the packets, the two halves are in the table together or gone
    together.  They are gone once a packet carried a RST or one direction sent
    a second FIN, and they are there as long as no packet carried a RST and
    at most one a FIN.  Until a FIN or a RST is seen, each half is ESTABLISHED
    once its direction has sent an ACK, and as it was admitted before; the
    direction of the one FIN is then in FIN_WAIT.  No other entry of the table
    changes. *)
Theorem pair_closes_whole k s ps t :
  dataplane_key k -> PolicyCT.Proto k = ProtoTCP -> (s = StateNew \/ s = StateEstablished) ->
  pair_open k s [] t ->
  let t' := foldl (observe k) t ps in
  ((forall d, is_Some (t' !! dir_key k d)) \/ pair_gone k t') /\
  (existsb rst (snd <$> ps) = true \/ (exists d, (2 <= length (filter (fun f => fin f = true) (flags_of d ps)))%nat) -> pair_gone k t') /\
  (existsb rst (snd <$> ps) = false -> (fins ps <= 1)%nat -> forall d, exists v, t' !! dir_key k d = Some v /\
     (fins ps = 0%nat -> PolicyCT.State v = if existsb ack (flags_of d ps) then StateEstablished else s) /\
     (existsb fin (flags_of d ps) = true -> PolicyCT.State v = StateFinWait)) /\
  (forall k', k' <> k -> k' <> Reverse k -> t' !! k' = t !! k').
Proof.
  intros Hk Hp Hs Hopen t'. pose proof (pair_lifecycle k s ps t Hk Hp Hs Hopen) as Hlife. fold t' in Hlife.
  assert (Hcl : closes ps = true <-> existsb rst (snd <$> ps) = true \/ exists d, (2 <= length (filter (fun f => fin f = true) (flags_of d ps)))%nat).
  { unfold closes, closing. rewrite existsb_flags, !orb_true_iff, !Nat.leb_le. split; [naive_solver|].
    intros [|[[] ?]]; tauto. }
  split_and!.
  - destruct (closes ps); [by right|left]. intros d. destruct (Hlife d) as (v & Hv & _). by exists v.
  - intros Hc%Hcl. by rewrite Hc in Hlife.
  - intros Hr Hf d. destruct (closes ps) eqn:Hc.
    + exfalso. destruct (proj1 Hcl eq_refl) as [|[d' Hd']]; [congruence|]. rewrite fins_split in Hf. destruct d'; lia.
    + destruct (Hlife d) as (v & Hv & Hst). exists v. split; [done|]. rewrite Hst. unfold half_state. split; [|by intros ->].
      intros H0. assert (Hd : existsb fin (flags_of d ps) = false) by (apply fin_count; rewrite fins_split in H0; destruct d; lia).
      rewrite Hd. destruct Hs as [-> | ->], (existsb ack (flags_of d ps)); done.
  - intros k' H1 H2. subst t'. clear -Hk H1 H2. induction ps as [|p ps IH] using rev_ind; [done|].
    rewrite foldl_app. cbn. by rewrite observe_elsewhere.
Qed.

(** A handshake, data, and then a FIN of the client. *)
Definition ex_flow : PolicyCT.policyCTKey := PolicyCT.MkKey 1 7 10 20 1000 80 ProtoTCP HookPodEgress 0.
Definition ex_syn : PolicyCT.policyCTVal := PolicyCT.MkVal StateNew 0x02 100.
Definition ex_packets : list packet := [(false, 101, 0x12); (true, 102, 0x10); (true, 103, 0x18); (false, 104, 0x10); (true, 105, 0x11)].
Definition ex_table : gmap PolicyCT.policyCTKey PolicyCT.policyCTVal := {[ ex_flow := ex_syn; Reverse ex_flow := ex_syn ]}.

Lemma ex_table_open : pair_open ex_flow StateNew [] ex_table.
Proof. intros []; by exists ex_syn. Qed.

(** The client waits in FIN_WAIT; a RST of the server then ends the flow. *)
Lemma pair_closes_whole_witness :
  (exists v, foldl (observe ex_flow) ex_table ex_packets !! ex_flow = Some v /\ PolicyCT.State v = StateFinWait) /\
  pair_gone ex_flow (foldl (observe ex_flow) ex_table (ex_packets ++ [(false, 106, 0x14)])).
Proof.
  assert (Hk : dataplane_key ex_flow) by (split; [by left|done]). split.
  - destruct (pair_closes_whole ex_flow StateNew ex_packets ex_table) as (_ & _ & Hin & _); [done|done|by left|apply ex_table_open|].
    destruct (Hin eq_refl ltac:(vm_compute; lia) true) as (v & Hv & _ & Hf). exists v. split; [exact Hv|]. by apply Hf.
  - destruct (pair_closes_whole ex_flow StateNew (ex_packets ++ [(false, 106, 0x14)]) ex_table) as (_ & Hgone & _);
      [done|done|by left|apply ex_table_open|].
    apply Hgone. by left.
Defined.

(** A graceful close: one FIN from each side.  Neither half has seen a second
    FIN, so both stay, in FIN_WAIT, until the garbage collector finds them
    idle. *)
Definition ex_close : list packet := ex_packets ++ [(false, 106, 0x10); (false, 107, 0x11); (true, 108, 0x10)].

Example graceful_close_stays :
  forall d, exists v, foldl (observe ex_flow) ex_table ex_close !! dir_key ex_flow d = Some v /\ PolicyCT.State v = StateFinWait.
Proof. intros d. destruct (pair_lifecycle ex_flow StateNew ex_close ex_table) with (d := d) as (v & Hv & Hs);
  [split; [by left|done]|done|by left|apply ex_table_open|]. exists v. split; [done|]. rewrite Hs. by destruct d. Qed.
