(* ===== verification/ConntrackTheorems.v ===== *)
(** * ConntrackTheorems: what the garbage collectors remove, and what they keep

    The world of the policy sweeper is the content of [policy_ct_map] and the
    generation [Epoch] has published; [Epoch.Current] waits for a running
    [Bump], so it answers with the published value.  Other writers (the data
    plane, rule changes) are the relation [env]. *)

From stdpp Require Import base gmap strings list relations sets.
From Stdlib Require Import ZArith Lia.
From S2P Require Import Prelude Effects MapSweep MapSweepPure MapSweepSpec MapSweepSafety Conntrack.
From S2P Require Import ConntrackFlows.
Open Scope Z_scope.

(** ** Idle timeouts *)



(** ** The plan of the policy table *)

Section Plan.
Context (nowNs epoch : Z).
Abbreviation table := (gmap PolicyCT.policyCTKey PolicyCT.policyCTVal).

(** The entry is there and in use. *)
Definition fresh (t : table) (k : PolicyCT.policyCTKey) : bool :=
  match t !! k with Some v => negb (idle nowNs k v) | None => false end.

(** What a pass should keep: an entry of the current generation of which some
    half is in use. *)
Definition keep (t : table) (k : PolicyCT.policyCTKey) : bool :=
  (PolicyCT.Epoch k =? epoch) && (fresh t k || fresh t (Reverse k)).

(** A group of the plan removes one stale entry, or a pair. *)
Definition planned_group (g : Group PolicyCT.policyCTKey) (snapshot : list (PolicyCT.policyCTKey * PolicyCT.policyCTVal)) : Prop :=
  exists e, e ∈ snapshot /\
  ((g = MkGroup [e.1] reasonStaleEpoch /\ PolicyCT.Epoch e.1 <> epoch) \/
    (g = MkGroup [e.1; Reverse e.1] reasonExpired /\ PolicyCT.Epoch e.1 = epoch)).

Lemma policyGroups_shape current planned snapshot g :
  g ∈ policyGroups nowNs epoch current planned snapshot -> planned_group g snapshot.
Proof.
  revert planned. induction snapshot as [|e rest IH]; intros planned; cbn [policyGroups].
  { intros Hg. by apply elem_of_nil in Hg. }
  assert (Hrest : forall pl, g ∈ policyGroups nowNs epoch current pl rest -> planned_group g (e :: rest)).
  { intros pl Hg. destruct (IH _ Hg) as (e' & He' & Hs). exists e'. split; [by constructor|done]. }
  destruct (PolicyCT.Epoch e.1 =? epoch) eqn:He; to_prop; cbn [negb].
  - destruct (bool_decide (e.1 ∈ planned) || negb (idle nowNs e.1 e.2)); [apply Hrest|].
    case_match; [apply Hrest|]. intros [->|Hg]%elem_of_cons; [|by eapply Hrest].
    exists e. split; [constructor|]. by right.
  - intros [->|Hg]%elem_of_cons; [|by eapply Hrest]. exists e. split; [constructor|]. by left.
Qed.

Lemma policyGroups_stale current planned snapshot k v :
  (k, v) ∈ snapshot -> PolicyCT.Epoch k <> epoch ->
  MkGroup [k] reasonStaleEpoch ∈ policyGroups nowNs epoch current planned snapshot.
Proof.
  intros Hin Hk. revert planned. induction snapshot as [|e rest IH]; intros planned; [by apply elem_of_nil in Hin|].
  apply elem_of_cons in Hin as [<-|Hin]; cbn [policyGroups fst].
  - rewrite (proj2 (Z.eqb_neq _ _) Hk). cbn. constructor.
  - repeat case_match; try (by apply IH); by (constructor; apply IH).
Qed.

(** An idle entry whose partner is not in use is in a group, with its partner. *)
Lemma policyGroups_pair current planned snapshot k v :
  dataplane_key k -> (forall e, e ∈ snapshot -> dataplane_key e.1) ->
  (k, v) ∈ snapshot -> PolicyCT.Epoch k = epoch -> idle nowNs k v = true -> fresh current (Reverse k) = false ->
  k ∈ planned \/ exists g, g ∈ policyGroups nowNs epoch current planned snapshot /\ GReason g = reasonExpired /\
  (GKeys g = [k; Reverse k] \/ GKeys g = [Reverse k; k]).
Proof.
  intros Hk Hall Hin He Hidle Hfr. revert planned. induction snapshot as [|e rest IH]; intros planned; [by apply elem_of_nil in Hin|].
  cbn [policyGroups]. apply elem_of_cons in Hin as [<-|Hin].
  - cbn [fst snd]. rewrite He, Z.eqb_refl, Hidle, orb_false_r. cbn [negb].
    case_bool_decide; [by left|]. right. unfold fresh in Hfr. rewrite Hfr.
    eexists. split; [constructor|]. cbn. auto.
  - assert (IH' := fun pl => IH (fun e' He' => Hall e' (list_elem_of_further _ _ _ He')) Hin pl). clear IH.
    assert (Hcons : forall g0 pl, (k ∈ pl \/ exists g, g ∈ policyGroups nowNs epoch current pl rest /\
      GReason g = reasonExpired /\ (GKeys g = [k; Reverse k] \/ GKeys g = [Reverse k; k])) ->
      k ∈ pl \/ exists g, g ∈ g0 :: policyGroups nowNs epoch current pl rest /\
      GReason g = reasonExpired /\ (GKeys g = [k; Reverse k] \/ GKeys g = [Reverse k; k])).
    { intros g0 pl [?|(g & Hg & ?)]; [by left|right]. exists g. split; [by constructor|done]. }
    destruct (negb (PolicyCT.Epoch e.1 =? epoch)); [by apply Hcons|].
    destruct (bool_decide (e.1 ∈ planned) || negb (idle nowNs e.1 e.2)); [apply IH'|].
    case_match; [apply IH'|]. destruct (Hcons (MkGroup [e.1; Reverse e.1] reasonExpired) _ (IH' ({[Reverse e.1]} ∪ planned)))
      as [[Hp%elem_of_singleton|?]%elem_of_union|?]; [|by left|by right].
    right. exists (MkGroup [e.1; Reverse e.1] reasonExpired). split; [constructor|]. split; [done|]. right. cbn.
    assert (dataplane_key e.1) by (apply Hall; constructor). rewrite Hp, Reverse_involutive by done. done.
Qed.

Lemma currentEntries_spec snapshot k v :
  NoDup snapshot.*1 ->
  currentEntries snapshot epoch !! k = Some v <-> PolicyCT.Epoch k = epoch /\ (k, v) ∈ snapshot.
Proof.
  unfold currentEntries. induction snapshot as [|[k' v'] rest IH] using rev_ind; intros Hn.
  { split; [done|]. intros [_ Hin]. by apply elem_of_nil in Hin. }
  rewrite fmap_app in Hn. apply NoDup_app in Hn as (Hn & Hd & _). specialize (IH Hn).
  rewrite foldl_app, elem_of_app, list_elem_of_singleton. cbn [foldl fst snd].
  destruct (decide (k = k')) as [->|Hne].
  - assert (Hnot : forall v0, (k', v0) ∉ rest).
    { intros v0 Hin. apply (Hd k'); [|constructor]. apply list_elem_of_fmap. by exists (k', v0). }
    destruct (PolicyCT.Epoch k' =? epoch) eqn:He; to_prop; [rewrite lookup_insert_eq|rewrite IH]; naive_solver.
  - destruct (PolicyCT.Epoch k' =? epoch) eqn:He; to_prop; [rewrite lookup_insert_ne by done|]; rewrite IH; naive_solver.
Qed.

(** On a snapshot that is right about a pair, the plan keeps or removes that
    pair as it should. *)
Section Pair.
Context (snapshot : list (PolicyCT.policyCTKey * PolicyCT.policyCTVal)) (t : table) (k : PolicyCT.policyCTKey).
Context (nodup : NoDup snapshot.*1) (written : forall e, e ∈ snapshot -> dataplane_key e.1) (Hk : dataplane_key k).
Abbreviation pair := (fun x => x = k \/ x = Reverse k).
Context (exact : forall x v, pair x -> (x, v) ∈ snapshot <-> t !! x = Some v).
Abbreviation plan := (planPolicyCT snapshot epoch nowNs).

Lemma fresh_current : PolicyCT.Epoch k = epoch -> fresh (currentEntries snapshot epoch) (Reverse k) = fresh t (Reverse k).
Proof.
  intros He. unfold fresh. replace (currentEntries snapshot epoch !! Reverse k) with (t !! Reverse k); [done|].
  apply option_eq. intros v. rewrite currentEntries_spec, exact by auto. cbn. naive_solver.
Qed.

Lemma planned_whole g : g ∈ Groups plan -> whole pair g.
Proof.
  intros (e & He & Hg)%policyGroups_shape. pose proof (written e He) as Hd. unfold whole.
  destruct (decide (e.1 = k \/ e.1 = Reverse k)) as [Hin|Hout].
  - destruct Hg as [[-> Hep]|[-> Hep]]; left; intros x; cbn.
    + by intros ->%list_elem_of_singleton.
    + intros [-> | ->%list_elem_of_singleton]%elem_of_cons; [done|].
      destruct Hin as [-> | ->]; [by right|left]. by apply Reverse_involutive.
  - assert (Hrev : ~ (Reverse e.1 = k \/ Reverse e.1 = Reverse k)).
    { intros [Heq|Heq]; apply Hout; [right|left].
      - by rewrite <- Heq, Reverse_involutive.
      - rewrite <- (Reverse_involutive e.1), Heq by done. by apply Reverse_involutive. }
    right. intros x. destruct Hg as [[-> _]|[-> _]]; cbn.
    + by intros ->%list_elem_of_singleton.
    + by intros [-> | ->%list_elem_of_singleton]%elem_of_cons.
Qed.

Lemma confirm_expired keys now :
  confirmPolicy nowNs (MkGroup keys reasonExpired) now =
  forallb (fun c => match CValue c with Some v => idle nowNs (CKey c) v | None => true end) now.
Proof. reflexivity. Qed.

(** While one half is in use, the group of the pair is not confirmed. *)
Lemma pair_not_confirmed t' x y :
  agree pair t' t -> fresh t k || fresh t (Reverse k) = true -> ([x; y] = [k; Reverse k] \/ [x; y] = [Reverse k; k]) ->
  removes plan t' (MkGroup [x; y] reasonExpired) = false.
Proof.
  intros Ha Hf Hxy. unfold removes. apply andb_false_iff. right. cbn [Confirm planPolicyCT]. rewrite confirm_expired. cbn.
  unfold fresh in Hf. rewrite <- !Ha in Hf by auto.
  destruct Hxy as [[= -> ->]|[= -> ->]]; destruct (t' !! k), (t' !! Reverse k); cbn in *;
    repeat match goal with |- context [idle ?a ?b ?c] => destruct (idle a b c) end; done.
Qed.

Lemma pair_confirmed t' x y :
  t' ⊆ t -> fresh t k || fresh t (Reverse k) = false -> ([x; y] = [k; Reverse k] \/ [x; y] = [Reverse k; k]) ->
  is_Some (t' !! k) -> removes plan t' (MkGroup [x; y] reasonExpired) = true.
Proof.
  intros Hs Hf Hxy Hp. unfold removes. apply andb_true_iff. split.
  { rewrite bool_decide_eq_false_2; [done|]. apply (countPresent_look _ _ k); [|done]. cbn. set_solver. }
  assert (Hi : forall z v, pair z -> t' !! z = Some v -> idle nowNs z v = true).
  { intros z v Hz Hv. pose proof (lookup_weaken _ _ _ _ Hv Hs) as Hv'. unfold fresh in Hf. to_prop.
    destruct Hz as [-> | ->]; rewrite Hv' in *; by apply negb_false_iff. }
  cbn [Confirm planPolicyCT]. rewrite confirm_expired. cbn.
  destruct Hxy as [[= -> ->]|[= -> ->]]; destruct (t' !! k) eqn:H1, (t' !! Reverse k) eqn:H2; cbn;
    rewrite ?(Hi _ _ (or_introl eq_refl) H1), ?(Hi _ _ (or_intror eq_refl) H2); done.
Qed.

Lemma planPolicyCT_pure : sweepPure plan t !! k = if keep t k then t !! k else None.
Proof.
  unfold sweepPure, keep. destruct (PolicyCT.Epoch k =? epoch) eqn:He; to_prop; cbn [andb].
  - destruct (fresh t k || fresh t (Reverse k)) eqn:Hf.
    + apply (foldl_kept pair); [|by left]. intros g Hg. destruct (planned_whole g Hg) as [Hin|Hout]; [right|by left].
      intros t' Ha. apply policyGroups_shape in Hg as (e & _ & [[-> Hep]|[-> Hep]]).
      * exfalso. apply Hep. destruct (Hin e.1) as [-> | ->]; [constructor|done..].
      * apply pair_not_confirmed; [done..|]. destruct (Hin e.1) as [-> | ->]; [constructor|by left|right].
        by rewrite Reverse_involutive.
    + destruct (t !! k) as [v|] eqn:Hv; [|by apply (submap_None t); [apply foldl_submap|]].
      destruct (policyGroups_pair (currentEntries snapshot epoch) ∅ snapshot k v) as [?|(g & Hg & Hr & Hkeys)]; try done.
      * by apply exact; [left|].
      * unfold fresh in Hf. rewrite Hv in Hf. by to_prop.
      * rewrite fresh_current by done. by to_prop.
      * apply (foldl_removed _ _ _ g); [done|destruct Hkeys as [-> | ->]; set_solver|].
        intros t' Hs Hp. destruct g as [keys r]. cbn in Hr, Hkeys. subst r.
        destruct Hkeys as [-> | ->]; apply pair_confirmed; auto.
  - destruct (t !! k) as [v|] eqn:Hv; [|by apply (submap_None t); [apply foldl_submap|]].
    apply (foldl_removed _ _ _ (MkGroup [k] reasonStaleEpoch)); [|constructor|].
    + apply (policyGroups_stale _ _ _ _ v); [|done]. by apply exact; [left|].
    + intros t' _ Hp. unfold removes.
      rewrite bool_decide_eq_false_2 by (apply (countPresent_look _ _ k); [constructor|done]). done.
Qed.
End Pair.
End Plan.

(** ** Passes over a live map *)

(** A map the sweep can read, and enough fuel for it: one call for each bucket
    and each growth of the buffer. *)
Record sweepable {K V Y} `{Countable K} (env : gmap K V * Y -> gmap K V * Y -> Prop) (nbuckets : nat)
    (m : map_handle) (fuel : nat) (w : gmap K V * Y) : Prop := {
  sw_type : Type_ m <> OtherMap;
  sw_max : 0 < MaxEntries m;
  sw_fuel : (nbuckets + Z.to_nat (MaxEntries m) < fuel)%nat;
  sw_capacity : forall w', rtc env w w' -> Z.of_nat (size w'.1) <= MaxEntries m;
}.

(** A server for programs without calls of their own. *)
Definition no_other {S} : server noE S := fun R e => match e with end.

Section Snapshot.
Context {K V Y : Type} `{Countable K}.
Context (hash : K -> nat) (nbuckets : nat) (env : gmap K V * Y -> gmap K V * Y -> Prop) (faults : Prop).
Abbreviation srv := (map_server hash nbuckets env no_other faults).

(** Claim C24: the read of a live map ends and is complete.  While other
    writers insert, update and delete entries, between any two buckets, the
    batch loop finishes within one call for each bucket and each growth of its
    buffer; it fails only if the kernel does.  What it returns holds no key
    twice, holds only entries the map held at some moment of the read, and
    holds every key that was there at the start and that nobody removed. *)
Theorem Snapshot_total_correct m fuel w :
  (forall k, (hash k < nbuckets)%nat) -> sweepable env nbuckets m fuel w ->
  (exists r w', exec srv w (Snapshot m fuel) r w') /\
  forall r w', exec srv w (Snapshot m fuel) r w' ->
  match r with
  | Ok out =>
      NoDup out.*1 /\
      (forall k v, (k, v) ∈ out -> exists w1, rtc env w w1 /\ rtc env w1 w' /\ w1.1 !! k = Some v) /\
      (forall k, stays env k -> is_Some (w.1 !! k) -> k ∈ out.*1)
  | Err (BatchFailed (MapFault _)) => faults
  | Err _ => False
  end.
Proof.
  intros Hhash [Ht Hm Hf Hc]. split.
  { apply exec_total, map_server_total. intros R []. }
  intros r w' Hex. pose proof (Snapshot_spec hash nbuckets env no_other faults m fuel w Ht Hm Hf Hc) as Hspec.
  apply (wp_exec _ _ _ _ _ _ Hspec) in Hex. destruct r as [out|e]; [|exact Hex].
  destruct Hex as (b & Hb & [_ _ Hn Hs Hcomp]). split_and!; [done| |].
  - intros k v Hin. by apply (Hs (k, v)).
  - intros k Hk Hk0. apply Hcomp; [done..|]. specialize (Hhash k). lia.
Qed.
End Snapshot.

Section NatSweep.
Context (hash : NatCT.natCTKey -> nat) (nbuckets : nat).
Context (env : gmap NatCT.natCTKey NatCT.natCTVal * unit -> gmap NatCT.natCTKey NatCT.natCTVal * unit -> Prop).
Abbreviation srv := (map_server hash nbuckets env no_other False).

(** One pass over the NAT table.  The pass returns without an
    error, and a flow that no packet touches while it runs is gone afterwards
    if it was idle, and unchanged if it was not, whatever happens to other
    flows meanwhile. *)
Theorem nat_sweep_exact m fuel nowNs w k :
  (forall k', (hash k' < nbuckets)%nat) -> sweepable env nbuckets m fuel w -> untouched env (eq k) ->
  (exists r w', exec srv w (natSweep m fuel nowNs) r w') /\
  forall r w', exec srv w (natSweep m fuel nowNs) r w' ->
  Errs r = [] /\
  w'.1 !! k = match w.1 !! k with
  | Some v => if ShouldEvict (NatCT.State v) (NatCT.Proto k) (NatCT.LastSeenNs v) nowNs
      then None else Some v
  | None => None
  end.
Proof.
  intros Hhash [Ht Hm Hf Hc] Hu. split.
  { apply exec_total, map_server_total. intros R []. }
  rewrite <- (wp_iff_exec srv (natSweep m fuel nowNs) (fun r w' => Errs r = [] /\ w'.1 !! k = _)). unfold natSweep. apply wp_bind.
  eapply wp_mono; [apply (Sweep_spec hash nbuckets env no_other False (eq k) (fun H => H) Hu m fuel _ w
    (fun out p => p = planNATCT out nowNs) Ht Hm Hf Hc)|].
  - intros out b w1 Hb Hp. cbn [wp]. split_and!; [done| |].
    + intros g Hg. exact (ByEntry_whole _ _ _ _ _ Hg).
    + eapply untouched_rtc; [exact Hu|apply Hp|done].
  - intros [st err] w2 (Herr & out & b & w1 & p & Hb & Hp & -> & Ha). cbn [fst snd] in *. subst err. cbn [wp]. split; [done|].
    rewrite (Ha k eq_refl). refine (ByEntry_pure out _ _ w.1 k _). intros v.
    by apply (pages_agree hash nbuckets env (eq k) Hu w w1 b).
Qed.
End NatSweep.

Section PolicySweep.
Context (hash : PolicyCT.policyCTKey -> nat) (nbuckets : nat).
Abbreviation world := (gmap PolicyCT.policyCTKey PolicyCT.policyCTVal * Z)%type.
Context (env : world -> world -> Prop) (faults : Prop).

(** [Epoch.Current] answers with the published generation; the counters may
    be anything. *)
Definition policy_other : server policyE world := fun R e =>
  match e in policyE R return world -> R -> world -> Prop with
  | EpochCurrent => fun w r w' => r = w.2 /\ w' = w
  | StatLookup _ => fun w _ w' => w' = w
  end.

Abbreviation srv := (map_server hash nbuckets env policy_other faults).

Lemma policy_other_total R (e : policyE R) w : exists r w', policy_other R e w r w'.
Proof. destruct e; [by eexists _, _|]. by exists (Ok []), w. Qed.

(** The counters are read without a change to the table. *)
Lemma readInstallFailures_reads : reads_only readInstallFailures.
Proof. split; [done|]. intros [l|e]; [|done]. split; [done|]. by intros [l'|e']. Qed.

Lemma readInstallFailures_agree S (t : gmap PolicyCT.policyCTKey PolicyCT.policyCTVal) w :
  untouched env S -> agree S w.1 t -> wp srv readInstallFailures (fun _ w' => agree S w'.1 t) w.
Proof.
  intros Hu Ha r w2 (w1 & Hw & ->). pose proof (untouched_rtc _ _ _ _ _ Hu Hw Ha).
  destruct r as [l|e]; [|done]. intros r w4 (w3 & Hw3 & ->). destruct r; by eapply untouched_rtc.
Qed.
End PolicySweep.

Lemma keep_reverse nowNs epoch t k : dataplane_key k -> keep nowNs epoch t (Reverse k) = keep nowNs epoch t k.
Proof. intros Hk. unfold keep. rewrite Reverse_involutive, orb_comm by done. done. Qed.

Lemma pages_written hash env w w1 b (out : list (PolicyCT.policyCTKey * PolicyCT.policyCTVal)) :
  (forall (w' : gmap PolicyCT.policyCTKey PolicyCT.policyCTVal * Z) k', rtc env w w' -> is_Some (w'.1 !! k') -> dataplane_key k') ->
  pages hash env w w1 b out -> forall e, e ∈ out -> dataplane_key e.1.
Proof. intros Hw [_ _ _ Hs _] e He. destruct (Hs e He) as (w2 & ? & _ & ?). eauto. Qed.

Lemma epoch_rtc (env : gmap PolicyCT.policyCTKey PolicyCT.policyCTVal * Z -> gmap PolicyCT.policyCTKey PolicyCT.policyCTVal * Z -> Prop) w w' :
  (forall w1 w2, env w1 w2 -> w2.2 = w1.2) -> rtc env w w' -> w'.2 = w.2.
Proof. intros He. induction 1 as [|x y z Hxy _ IH]; [done|]. by rewrite IH, (He x y). Qed.

(** Claim C14: one pass over the policy table during which no call of the map
    fails and no generation is published. The pass returns, and about every
    pair of entries no packet touches while it runs it is exact: the pair is
    gone if its generation is not the published one, or if no half of it is in
    use; it is unchanged otherwise. Other flows may come, go and be refreshed
    between any two calls of the pass, so every idle pair is reclaimed by the
    next pass, and one half is never reclaimed without the other. *)
Theorem policy_sweep_exact hash nbuckets env m fuel nowNs failures w k :
  (forall k', (hash k' < nbuckets)%nat) -> sweepable env nbuckets m fuel w ->
  (forall w1 w2, env w1 w2 -> w2.2 = w1.2) ->
  (forall w' k', rtc env w w' -> is_Some (w'.1 !! k') -> dataplane_key k') ->
  dataplane_key k -> untouched env (fun x => x = k \/ x = Reverse k) ->
  (exists r w', exec (map_server hash nbuckets env policy_other False) w (policySweep m fuel nowNs failures) r w') /\
  forall r w', exec (map_server hash nbuckets env policy_other False) w (policySweep m fuel nowNs failures) r w' ->
    w'.1 !! k = (if keep nowNs w.2 w.1 k then w.1 !! k else None) /\
    w'.1 !! Reverse k = (if keep nowNs w.2 w.1 k then w.1 !! Reverse k else None).
Proof.
  intros Hhash [Ht Hm Hf Hc] Hepoch Hwritten Hk Hu. split.
  { apply exec_total, map_server_total, policy_other_total. }
  set (S := fun x => x = k \/ x = Reverse k) in *. set (srv := map_server _ _ _ _ _).
  rewrite <- (wp_iff_exec srv (policySweep m fuel nowNs failures) (fun r w' =>
    w'.1 !! k = _ /\ w'.1 !! Reverse k = _)).
  unfold policySweep. apply wp_bind.
  eapply wp_mono; [apply (Sweep_spec hash nbuckets env policy_other False S (fun H => H) Hu m fuel _ w
                     (fun out p => p = planPolicyCT out w.2 nowNs) Ht Hm Hf Hc)|].
  - intros out b w1 Hb Hp r w3 (w2 & Hw & -> & ->). cbn [wp].
    rewrite (epoch_rtc env w w2) by (done || (etrans; [apply Hp|done])). split_and!; [done| |].
    + intros g Hg. apply (planned_whole nowNs w.2 out k) in Hg; [done| |done].
      by apply (pages_written hash env w w1 b).
    + eapply untouched_rtc; [exact Hu| |done]. etrans; [apply Hp|done].
  - intros [st err] w2 (_ & out & b & w1 & p & Hb & Hp & -> & Ha). apply wp_bind.
    eapply wp_mono; [by apply (readInstallFailures_agree hash nbuckets env False S)|].
    pose proof (pages_written hash env w w1 b out Hwritten Hp) as Hd.
    assert (Hex : forall x v, S x -> (x, v) ∈ out <-> w.1 !! x = Some v).
    { intros x v Hx. by apply (pages_agree hash nbuckets env S Hu w w1 b). }
    assert (Hpost : forall w3 : gmap PolicyCT.policyCTKey PolicyCT.policyCTVal * Z, agree S w3.1 (sweepPure (planPolicyCT out w.2 nowNs) w.1) ->
      w3.1 !! k = (if keep nowNs w.2 w.1 k then w.1 !! k else None) /\
      w3.1 !! Reverse k = (if keep nowNs w.2 w.1 k then w.1 !! Reverse k else None)).
    { intros w3 Ha3. destruct Hp as [_ _ Hn _ _]. rewrite (Ha3 k), (Ha3 (Reverse k)) by (unfold S; auto). split.
      - by apply planPolicyCT_pure.
      - rewrite <- (keep_reverse _ _ _ k Hk). apply planPolicyCT_pure; [done|done|auto with juneau|].
        intros x v Hx. apply Hex. rewrite Reverse_involutive in Hx by done. unfold S. tauto. }
    intros [f|e] w3 Ha3; by apply Hpost.
Qed.

Section InUse.
Context (nowNs : Z) (k : PolicyCT.policyCTKey) (Hk : dataplane_key k).
Abbreviation world := (gmap PolicyCT.policyCTKey PolicyCT.policyCTVal * Z)%type.
Abbreviation half := (fun x => x = k \/ x = Reverse k).

(** The flow of [k] is in use and its generation is not superseded: one half of
    the pair at least is in the table and not idle, or the flow is not admitted
    yet; no entry is from the future, and the published generation has not
    moved past that of the flow. *)
Definition in_use (w : world) : Prop :=
  (fresh nowNs w.1 k || fresh nowNs w.1 (Reverse k) = true \/ w.1 !! k = None /\ w.1 !! Reverse k = None) /\
  (forall k' v', w.1 !! k' = Some v' -> PolicyCT.Epoch k' <= w.2) /\
  w.2 <= PolicyCT.Epoch k.

(** The packets of the flow go on while others write: it stays in use, a half
    that is in use is not removed and does not grow older, and a half that
    appears is written with the time of its packet. *)
Definition goes_on (env : world -> world -> Prop) : Prop :=
  forall w1 w2, env w1 w2 -> in_use w1 ->
  in_use w2 /\ forall x, half x ->
    (fresh nowNs w1.1 x = true -> fresh nowNs w2.1 x = true) /\
    (w1.1 !! x = None -> is_Some (w2.1 !! x) -> fresh nowNs w2.1 x = true).

Context (hash : PolicyCT.policyCTKey -> nat) (nbuckets : nat) (env : world -> world -> Prop) (faults : Prop).
Context (on : goes_on env).
Abbreviation srv := (map_server hash nbuckets env policy_other faults).

Lemma on_env w w' : env w w' -> in_use w -> in_use w'.
Proof. intros He Hw. by apply (on w w'). Qed.

Lemma fresh_rtc w w' x : rtc env w w' -> in_use w -> half x -> fresh nowNs w.1 x = true -> fresh nowNs w'.1 x = true.
Proof.
  intros Hw. induction Hw as [|w1 w2 w3 H12 _ IH]; [done|]. intros Hu Hx Hf.
  destruct (on w1 w2 H12 Hu) as [Hu2 Hp]. apply IH; [done|done|]. by apply (proj1 (Hp x Hx)).
Qed.

Lemma appears_fresh w w' x :
  rtc env w w' -> in_use w -> half x -> w.1 !! x = None -> is_Some (w'.1 !! x) -> fresh nowNs w'.1 x = true.
Proof.
  intros Hw. induction Hw as [w|w1 w2 w3 H12 H23 IH]; intros Hu Hx Hn Hs; [rewrite Hn in Hs; by destruct Hs|].
  destruct (on w1 w2 H12 Hu) as [Hu2 Hp]. destruct (w2.1 !! x) as [v|] eqn:Hv; [|by apply IH].
  apply (fresh_rtc w2 w3 x H23 Hu2 Hx), (proj2 (Hp x Hx)); [done|]. rewrite Hv. by eexists.
Qed.

Lemma in_use_delete w k' : ~ half k' -> in_use w -> in_use (delete k' w.1, w.2).
Proof.
  intros Hne (Hi & He & Hp). unfold in_use, fresh in *. cbn [fst snd].
  assert (k' <> k) by (intros ->; by apply Hne; left). assert (k' <> Reverse k) by (intros ->; by apply Hne; right).
  rewrite !lookup_delete_ne by done. split_and!; [done| |done].
  intros k1 v1 [_ Hv]%lookup_delete_Some. by apply (He k1 v1).
Qed.

(** What a recheck finds of the two halves: nothing, or a half in use. *)
Definition pair_found (cur : list (Current PolicyCT.policyCTKey PolicyCT.policyCTVal)) : Prop :=
  forall x y vx vy, cur = [MkCurrent x vx; MkCurrent y vy] -> half x -> half y -> x <> y ->
  vx = None /\ vy = None \/
  exists c v, c ∈ cur /\ CValue c = Some v /\ idle nowNs (CKey c) v = false.

Lemma fresh_Some t x : fresh nowNs t x = true <-> exists v, t !! x = Some v /\ idle nowNs x v = false.
Proof.
  unfold fresh. destruct (t !! x) as [v|]; [|split; [done|by intros (? & ? & _)]].
  rewrite negb_true_iff. split; [eauto|]. by intros (v' & [= <-] & ?).
Qed.

Lemma halves_found w1 w2 x y :
  rtc env w1 w2 -> in_use w1 -> half x -> half y -> x <> y ->
  w1.1 !! x = None /\ w2.1 !! y = None \/
  (exists v, w1.1 !! x = Some v /\ idle nowNs x v = false) \/ exists v, w2.1 !! y = Some v /\ idle nowNs y v = false.
Proof.
  intros Hw Hu Hx Hy Hne. rewrite <- !fresh_Some.
  destruct (fresh nowNs w1.1 x) eqn:Hfx; [by auto|]. destruct (fresh nowNs w2.1 y) eqn:Hfy; [by auto|]. left.
  pose proof Hu as ([Hlive|[Hn1 Hn2]] & _).
  - assert (Hl : fresh nowNs w1.1 y = true).
    { destruct Hx as [-> | ->], Hy as [-> | ->]; try done; rewrite Hfx in Hlive; cbn in Hlive; rewrite ?orb_false_r in Hlive; done. }
    by rewrite (fresh_rtc w1 w2 y Hw Hu Hy Hl) in Hfy.
  - assert (Hny : w1.1 !! y = None) by (by destruct Hy as [-> | ->]). split; [by destruct Hx as [-> | ->]|].
    destruct (w2.1 !! y) as [v|] eqn:Hv; [|done].
    rewrite (appears_fresh w1 w2 y Hw Hu Hy Hny) in Hfy; [done|]. rewrite Hv. by eexists.
Qed.

Lemma recheck_keeps keys w :
  in_use w -> wp srv (recheck keys) (fun r w' => in_use w' /\ match r with Ok cur => CKey <$> cur = keys | Err _ => True end) w.
Proof.
  intros HJ. unfold recheck. apply (wp_forTryP _ _ _ _ (fun pre cur w' => in_use w' /\ CKey <$> cur = pre)); [done| |by intros cur w' [? ?]].
  clear w HJ. intros pre k' post cur w _ [HJ Hkeys] r w2 (w1 & Hw & -> & Hr).
  pose proof (J_rtc env in_use on_env _ _ Hw HJ) as HJ1.
  destruct Hr as [->|(_ & t & ->)]; [|done]. destruct (w1.1 !! k'); cbn; (split; [done|]; by rewrite fmap_app, Hkeys).
Qed.

Lemma recheck_pair x y w :
  half x -> half y -> x <> y -> in_use w ->
  wp srv (recheck [x; y]) (fun r _ => match r with Ok cur => pair_found cur | Err _ => True end) w.
Proof.
  intros Hx Hy Hne HJ r1 w' (w1 & Hw1 & -> & Hr1). pose proof (J_rtc env in_use on_env _ _ Hw1 HJ) as HJ1.
  assert (Hgo : forall vx w2 vy, rtc env w1 w2 -> vx = w1.1 !! x -> vy = w2.1 !! y ->
    pair_found [MkCurrent x vx; MkCurrent y vy]).
  { intros vx w2 vy Hw2 -> -> x' y' vx' vy' [= <- <- <- <-] _ _ _.
    destruct (halves_found w1 w2 x y Hw2 HJ1 Hx Hy Hne) as [?|[(v & Hv & Hi)|(v & Hv & Hi)]]; [by left|right..].
    - exists (MkCurrent x (w1.1 !! x)), v. split; [left|done].
    - exists (MkCurrent y (w2.1 !! y)), v. split; [right; left|done]. }
  destruct Hr1 as [->|(_ & t & ->)]; [|done].
  destruct (w1.1 !! x) as [vx|] eqn:Hvx; cbn; intros r2 w'' (w2 & Hw2 & -> & Hr2);
    (destruct Hr2 as [->|(_ & t & ->)]; [|done]); (destruct (w2.1 !! y) as [vy|] eqn:Hvy; cbn; by apply (Hgo _ w2)).
Qed.

Lemma recheck_finds keys w : in_use w -> wp srv (recheck keys) (recheck_post in_use pair_found keys) w.
Proof.
  intros HJ. assert (Hvac : (forall x y, keys = [x; y] -> half x -> half y -> x = y) ->
    wp srv (recheck keys) (recheck_post in_use pair_found keys) w).
  { intros Hv. eapply wp_mono; [by apply recheck_keeps|]. intros [cur|e] w' [HJ' Hkeys]; (split; [done|]); [|done].
    split; [done|]. intros x y vx vy -> Hx Hy Hne. by destruct Hne; apply Hv. }
  destruct keys as [|x [|y [|z rest]]]; try (by apply Hvac).
  destruct (decide (x = y)) as [->|Hne]; [apply Hvac; by intros ? ? [= <- <-]|].
  destruct (decide (half x)) as [Hx|Hx]; [|apply Hvac; by intros ? ? [= <- <-]].
  destruct (decide (half y)) as [Hy|Hy]; [|apply Hvac; by intros ? ? [= <- <-]].
  eapply wp_mono; [apply wp_and; [by apply recheck_keeps|by apply recheck_pair]|].
  intros [cur|e] w' [[HJ' Hkeys] Hf]; by split.
Qed.

(** A group of the pair is not confirmed when something of it is found. *)
Lemma confirm_protects (p : Plan PolicyCT.policyCTKey PolicyCT.policyCTVal) x :
  Confirm p = confirmPolicy nowNs -> half x -> dataplane_key x -> protects pair_found p (MkGroup [x; Reverse x] reasonExpired).
Proof.
  intros Hp Hx Hd cur Hkeys Hf Hn. destruct cur as [|[x' vx] [|[y' vy] [|]]]; try done. injection Hkeys as -> ->.
  assert (Hy : half (Reverse x)) by (destruct Hx as [-> | ->]; [by right|left; by apply Reverse_involutive]).
  destruct (Hf x (Reverse x) vx vy) as [[-> ->]|(c & v & Hc & Hv & Hi)]; [done|done|done|by apply not_eq_sym, Reverse_ne|done|].
  rewrite Hp, confirm_expired. apply not_true_iff_false. intros Hall. rewrite forallb_forall in Hall.
  specialize (Hall _ (proj1 (list_elem_of_In _ _) Hc)). rewrite Hv in Hall. congruence.
Qed.

Lemma epoch_mono w w' : (forall w1 w2, env w1 w2 -> w1.2 <= w2.2) -> rtc env w w' -> w.2 <= w'.2.
Proof. intros He. induction 1 as [|x y z Hxy _ IH]; [lia|]. specialize (He x y Hxy). lia. Qed.

(** The plan never removes a flow in use: were a half planned as stale, it
    would have been in the table before its own generation was published. *)
Lemma planPolicyCT_protects w w1 w2 b out g x :
  (forall w1 w2, env w1 w2 -> w1.2 <= w2.2) ->
  in_use w -> pages hash env w w1 b out -> rtc env w1 w2 ->
  g ∈ Groups (planPolicyCT out w2.2 nowNs) -> half x -> x ∈ GKeys g ->
  (forall e, e ∈ out -> dataplane_key e.1) -> protects pair_found (planPolicyCT out w2.2 nowNs) g.
Proof.
  intros Hmono Hu Hp Hw Hg Hx Hin Hd. pose proof Hp as [Hr _ _ Hs _].
  apply policyGroups_shape in Hg as (e & He & [[-> Hep]|[-> Hep]]).
  - exfalso. apply list_elem_of_singleton in Hin as ->. destruct (Hs e He) as (w0 & Hw0 & Hw01 & Hv).
    assert (Hek : PolicyCT.Epoch e.1 = PolicyCT.Epoch k) by (by destruct Hx as [-> | ->]).
    assert (Hrtc : forall w', rtc env w w' -> in_use w') by (intros w' Hw'; by eapply (J_rtc env in_use on_env)).
    destruct (Hrtc w0 Hw0) as (_ & Hle & _). specialize (Hle _ _ Hv).
    assert (Hw02 : rtc env w0 w2) by (by transitivity w1). apply epoch_mono in Hw02; [|done].
    destruct (Hrtc w2) as (_ & _ & ?); [by transitivity w1|]. lia.
  - pose proof (Hd e He) as Hde. apply confirm_protects; [done| |done]. cbn in Hin.
    apply elem_of_cons in Hin as [->|Hin]; [done|]. apply list_elem_of_singleton in Hin as ->.
    destruct Hx as [Hx|Hx]; [right; by rewrite <- Hx, Reverse_involutive|left].
    by rewrite <- (Reverse_involutive e.1), Hx, Reverse_involutive by done.
Qed.
End InUse.

(** Claim C15: a pass spares flows in use.  The data plane may admit and
    refresh flows, rule changes may publish new generations and calls may fail,
    at any moment of the pass.  Take the pair of a flow of which at every moment
    one half at least is in use, or which is not admitted yet, and whose
    generation is not superseded, while its packets go on (a half in use is not
    closed, and halves are written with the time of their packet): neither half
    of the pair is ever deleted, the idle one no more than the other, so that a
    one-way flow keeps its reply half.  This covers an entry that is written
    under a generation published while the snapshot is being read, because the
    generation is read after the snapshot, and an entry that becomes the
    partner of an idle one, because every key is looked up again before its
    group goes. *)
Theorem live_flow_spared hash nbuckets env m fuel nowNs failures w k :
  Type_ m <> OtherMap -> 0 < MaxEntries m -> (nbuckets + Z.to_nat (MaxEntries m) < fuel)%nat ->
  (forall w1 w2, env w1 w2 -> w1.2 <= w2.2) ->
  (forall w' k', rtc env w w' -> is_Some (w'.1 !! k') -> dataplane_key k') -> dataplane_key k ->
  goes_on nowNs k env -> in_use nowNs k w ->
  forall r s, exec (logged (map_server hash nbuckets env policy_other True)) (w, [])
                (policySweep m fuel nowNs failures) r s -> k ∉ s.2 /\ Reverse k ∉ s.2.
Proof.
  intros Ht Hm Hf Hmono Hwritten Hk Hon Hu. set (srv := map_server _ _ _ _ _).
  enough (Hwp : wp (logged srv) (policySweep m fuel nowNs failures) (fun _ s => forall x, x = k \/ x = Reverse k -> x ∉ s.2) (w, [])).
  { intros r s Hex. assert (Hs := proj1 (wp_iff_exec (logged srv) _ _ _) Hwp r s Hex). auto. }
  unfold policySweep. apply wp_bind.
  eapply wp_mono; [apply (Sweep_protect hash nbuckets env policy_other True (fun x => x = k \/ x = Reverse k) (in_use nowNs k)
                     (pair_found nowNs k) (on_env nowNs k env Hon)); try done|].
  - intros w1 k'. apply in_use_delete.
  - intros keys w1. by apply recheck_finds.
  - intros out b w1 Hb Hp Hu1 r w3 (w2 & Hw & -> & ->). cbn [wp]. split; [by eapply (J_rtc env _ (on_env nowNs k env Hon))|].
    intros g x Hg Hx Hin. apply (planPolicyCT_protects nowNs k Hk hash env Hon w w1 w2 b out g x); try done.
    by apply (pages_written hash env w w1 b).
  - intros [st err] [w1 l] Hl. apply wp_bind.
    eapply wp_mono; [apply (wp_reads_only srv _ w1 l), readInstallFailures_reads|].
    intros [f|e] [w2 l2] Hl2; cbn in Hl2; by subst l2.
Qed.

(** ** Concrete runs

    The other writer refreshes one flow, over and over. *)

Section Refresh.
Context {K V Y : Type} `{Countable K} (k0 : K).

Definition refresh (w1 w2 : gmap K V * Y) : Prop :=
  is_Some (w1.1 !! k0) /\ exists v, w2 = (<[k0 := v]> w1.1, w1.2).

Lemma refresh_rtc w w' : rtc refresh w w' -> size w'.1 = size w.1 /\ forall k, is_Some (w'.1 !! k) -> is_Some (w.1 !! k).
Proof.
  induction 1 as [w|w1 w2 w3 [Hk (v & ->)] _ [IHs IHk]]; [done|]. cbn [fst] in *. split.
  - rewrite IHs. destruct Hk. by eapply map_size_insert_Some.
  - intros k Hs. apply IHk in Hs. destruct (decide (k = k0)) as [->|]; [done|]. by rewrite lookup_insert_ne in Hs.
Qed.

Lemma refresh_untouched (S : K -> Prop) : ~ S k0 -> untouched refresh S.
Proof.
  intros HS w1 w2 [_ (v & ->)] k Hk. cbn [fst]. apply lookup_insert_ne. congruence.
Qed.

Lemma refresh_sweepable nbuckets m fuel w :
  Type_ m <> OtherMap -> 0 < MaxEntries m -> (nbuckets + Z.to_nat (MaxEntries m) < fuel)%nat ->
  Z.of_nat (size w.1) <= MaxEntries m -> sweepable refresh nbuckets m fuel w.
Proof. intros ? ? ? Hs. split; [done..|]. intros w' Hw. apply refresh_rtc in Hw as [-> _]. done. Qed.
End Refresh.

Definition ex_map : map_handle := MkMap Hash 8.
Definition ex_key : PolicyCT.policyCTKey := PolicyCT.MkKey 1 7 10 20 1000 80 ProtoTCP HookPodEgress 0.
Definition ex_other : PolicyCT.policyCTKey := PolicyCT.MkKey 1 7 30 20 2000 53 ProtoUDP HookPodEgress 0.
Definition ex_now : Z := 7200 * Second.
Definition ex_idle : PolicyCT.policyCTVal := PolicyCT.MkVal StateEstablished 0x12 Second.
Definition ex_fresh : PolicyCT.policyCTVal := PolicyCT.MkVal StateEstablished 0x12 (7199 * Second).
Definition ex_table : gmap PolicyCT.policyCTKey PolicyCT.policyCTVal :=
  {[ ex_key := ex_idle; Reverse ex_key := ex_idle; ex_other := ex_fresh ]}.

Lemma ex_not_pair : ~ (ex_other = ex_key \/ ex_other = Reverse ex_key).
Proof. by intros [[=]|[=]]. Qed.

Lemma ex_sweepable : sweepable (refresh (Y := Z) ex_other) 1 ex_map 10 (ex_table, 1).
Proof. apply refresh_sweepable; [done|done|cbn; lia|by vm_compute]. Qed.

Lemma ex_dataplane (w' : gmap PolicyCT.policyCTKey PolicyCT.policyCTVal * Z) k :
  rtc (refresh ex_other) (ex_table, 1) w' -> is_Some (w'.1 !! k) -> dataplane_key k.
Proof.
  intros Hw Hk. apply refresh_rtc in Hw as [_ Hs]. apply Hs in Hk as [v Hv]. cbn in Hv.
  apply elem_of_map_to_list in Hv. revert Hv. vm_compute map_to_list.
  rewrite !elem_of_cons, elem_of_nil. intros [?|[?|[?|[]]]]; simplify_eq; (split; [by (left + right)|done]).
Qed.

Lemma Snapshot_total_correct_witness :
  exists r w', exec (map_server (fun _ => 0%nat) 1 (refresh ex_other) no_other False) (ex_table, 1)
                 (Snapshot ex_map 10) r w' /\
    match r with Ok out => ex_key ∈ out.*1 | Err _ => False end.
Proof.
  destruct (Snapshot_total_correct (fun _ => 0%nat) 1 (refresh ex_other) False ex_map 10 (ex_table, 1))
    as [(r & w' & Hex) Hall]; [intros; lia|apply ex_sweepable|].
  exists r, w'. split; [done|]. specialize (Hall r w' Hex). destruct r as [out|[| |[]| | |]]; try done.
  destruct Hall as (_ & _ & Hc). apply Hc; [|by eexists].
  intros w1 w2 [_ (v & ->)] Hs. cbn [fst]. by rewrite lookup_insert_ne.
Defined.

Lemma policy_sweep_exact_witness :
  exists r w', exec (map_server (fun _ => 0%nat) 1 (refresh ex_other) policy_other False) (ex_table, 1)
                 (policySweep ex_map 10 ex_now (MkFailures 0 0)) r w' /\
    w'.1 !! ex_key = None /\ w'.1 !! Reverse ex_key = None.
Proof.
  destruct (policy_sweep_exact (fun _ => 0%nat) 1 (refresh ex_other) ex_map 10 ex_now (MkFailures 0 0) (ex_table, 1) ex_key)
    as [(r & w' & Hex) Hall].
  - intros; lia.
  - apply ex_sweepable.
  - by intros w1 w2 [_ (v & ->)].
  - apply ex_dataplane.
  - split; [by left|done].
  - apply refresh_untouched, ex_not_pair.
  - exists r, w'. split; [done|]. exact (Hall r w' Hex).
Defined.

(** A one-way flow: its sender keeps the forward half fresh, the reply half has
    been idle for long. *)
Definition ex_oneway : gmap PolicyCT.policyCTKey PolicyCT.policyCTVal := {[ ex_key := ex_fresh; Reverse ex_key := ex_idle ]}.

Definition renew (w1 w2 : gmap PolicyCT.policyCTKey PolicyCT.policyCTVal * Z) : Prop :=
  is_Some (w1.1 !! ex_key) /\ w2 = (<[ex_key := ex_fresh]> w1.1, w1.2).

Lemma renew_goes_on : goes_on ex_now ex_key renew.
Proof.
  intros w1 w2 [[v0 Hv0] ->] (Hi & He & Hp). split; [split_and!; cbn [fst snd]; [left| |done]|].
  - unfold fresh. by rewrite lookup_insert_eq.
  - intros k v Hv. apply lookup_insert_Some in Hv as [[<- _]|[_ Hv]]; [by apply (He _ _ Hv0)|by apply (He _ _ Hv)].
  - intros x Hx. cbn [fst]. unfold fresh. destruct (decide (x = ex_key)) as [->|Hne].
    + by rewrite lookup_insert_eq.
    + rewrite !lookup_insert_ne by (by apply not_eq_sym). split; [done|]. intros ->. by intros [? ?].
Qed.

Lemma renew_rtc w w' : rtc renew w w' -> forall k, is_Some (w'.1 !! k) -> k = ex_key \/ is_Some (w.1 !! k).
Proof.
  induction 1 as [|w1 w2 w3 [_ ->] _ IH]; [by auto|]. intros k Hs. destruct (IH k Hs) as [->|Hs']; [by left|]. cbn [fst] in Hs'.
  destruct (decide (k = ex_key)) as [->|]; [by left|]. rewrite lookup_insert_ne in Hs' by done. by right.
Qed.

Lemma live_flow_spared_witness :
  exists r s, exec (logged (map_server (fun _ => 0%nat) 1 renew policy_other True)) ((ex_oneway, 1), [])
                (policySweep ex_map 10 ex_now (MkFailures 0 0)) r s /\ ex_key ∉ s.2 /\ Reverse ex_key ∉ s.2.
Proof.
  destruct (exec_total (logged (map_server (fun _ => 0%nat) 1 renew policy_other True))
    (policySweep ex_map 10 ex_now (MkFailures 0 0)) ((ex_oneway, 1), [])) as (r & s & Hex).
  { apply logged_total, map_server_total, policy_other_total. }
  exists r, s. split; [done|].
  apply (live_flow_spared (fun _ => 0%nat) 1 renew ex_map 10 ex_now (MkFailures 0 0) (ex_oneway, 1) ex_key) with (r := r).
  - done.
  - done.
  - cbn; lia.
  - by intros w1 w2 [_ ->].
  - intros w' k' Hw Hs. destruct (renew_rtc _ _ Hw _ Hs) as [->|[v Hv]]; [split; [by left|done]|].
    cbn [fst] in Hv. apply elem_of_map_to_list in Hv. revert Hv. vm_compute map_to_list.
    rewrite !elem_of_cons, elem_of_nil. intros [?|[?|[]]]; simplify_eq; (split; [by (left + right)|done]).
  - split; [by left|done].
  - apply renew_goes_on.
  - split_and!; [by left|..]; [|done]. intros k v Hv. cbn [fst snd] in *. apply elem_of_map_to_list in Hv. revert Hv.
    vm_compute map_to_list. rewrite !elem_of_cons, elem_of_nil. intros [?|[?|[]]]; simplify_eq; done.
  - exact Hex.
Defined.

Definition ex_nat : NatCT.natCTKey := NatCT.MkKey 0 10 20 1000 53 ProtoUDP 0.
Definition ex_nat_other : NatCT.natCTKey := NatCT.MkKey 0 30 20 1000 53 ProtoUDP 0.
Definition ex_nat_val : NatCT.natCTVal := NatCT.MkVal 1 2 3 4 5 0 StateEstablished 0 Second.
