(* ===== verification/OwnedAddr.v ===== *)
(** * OwnedAddr: the prefixes this node answers for

    [daemon/internal/daemon/dataplane/reconciler/ownedaddr]: [key.go] and
    [store.go], with the encodings of [dataplane/internal/convert].  A [Store]
    keeps [external_address_pools] equal to the union of what its owners claim.

    The store is written against an interface [Map] of two calls, so its
    programs take the two events as parameters ([pool_update],
    [pool_delete]); what a client of the store may assume of the map is the
    class [PoolServer].  Go does not specify the order in which a map is
    visited: the order in which [apply] visits the owners is an argument. *)

From stdpp Require Import base gmap strings list sorting pretty.
From Stdlib Require Import ZArith Lia Ascii.
From S2P Require Import Prelude Effects Netip NetipFacts IPNet PolicyEval PolicyStores.

Open Scope Z_scope.
Open Scope go_scope.

(** ** convert.go *)

(** The six bytes of a MAC address. *)
Definition HardwareAddrToUint8Array (mac : list Z) : option (list Z) :=
  if negb (Nat.eqb (length mac) 6) then None else Some mac.

Definition IPMaskToUint32 (mask : list Z) : option Z :=
  if negb (Nat.eqb (length mask) 4) then None else Some (be_combine mask).

(** [binary.BigEndian.Uint32] of the four bytes is the value of the address. *)
Definition IPv4ToUint32 (ip : Addr) : option Z :=
  match Unmap ip with Addr4 v => Some v | _ => None end.

Definition Uint32ToIPv4 (value : Z) : Addr := Addr4 value.

(** [binary.LittleEndian.Uint32] of the four bytes. *)
Definition IPv4ToBPFNetworkOrder (ip : Addr) : option Z :=
  match Unmap ip with Addr4 v => Some (htonl v) | _ => None end.

Definition IPv4ToLPMTrieUint32 (ip : Addr) : option Z := IPv4ToBPFNetworkOrder ip.

(** [binary.LittleEndian.PutUint32]: the same reversal of bytes. *)
Definition BPFNetworkOrderToIPv4 (value : Z) : Addr := Addr4 (htonl value).

(** ** key.go *)

Record Key := MkKey { Prefixlen : Z; key_Addr : Z }.

#[global] Instance Key_eq_dec : EqDecision Key.
Proof. solve_decision. Defined.
#[global] Instance Key_countable : Countable Key.
Proof. by apply (inj_countable' (fun k => (Prefixlen k, key_Addr k)) (fun p => MkKey p.1 p.2)); intros []. Defined.

Inductive key_error := EmptyAddress | BadCIDR | BadIP | NotIPv4.

Definition has_slash (s : string) : bool := bool_decide (is_Some (cut_first "/"%char s)).

(** The address and the number of ones of the mask. *)
Definition parseOwned (raw : string) : result key_error (Addr * Z) :=
  if has_slash raw then
    match ParseCIDR raw with
    | None => Err BadCIDR
    | Some (ip, ipnet) => Ok (mask_addr (net_Ones ipnet) ip, net_Ones ipnet)
    end
  else match ParseIP raw with
       | None => Err BadIP
       | Some ip => Ok (ip, 32)
       end.

Definition ParsePrefix (raw : string) : result key_error Key :=
  let raw := TrimSpace raw in
  if String.eqb raw "" then Err EmptyAddress
  else let? p := parseOwned raw in
       match IPv4ToLPMTrieUint32 p.1 with
       | None => Err NotIPv4
       | Some addr => Ok (MkKey (u32 p.2) addr)
       end.

Definition Key_String (k : Key) : string :=
  (Addr_String (BPFNetworkOrderToIPv4 (key_Addr k)) ++ "/" ++ pretty (Prefixlen k))%string.

(** ** store.go *)

(** [Delivery] is a [uint8]; 0 is no claim. *)
Definition DeliveredHere : Z := 1.
Definition DeliveredElsewhere : Z := 2.

Record Claim := MkClaim { claim_Key : Key; claim_Delivery : Z }.

(** The scope and the name. *)
Definition owner : Type := string * string.

Record Store := MkStore { s_claims : gmap owner (gmap Key Z); s_installed : gmap Key Z }.

Definition NewStore : Store := MkStore ∅ ∅.

Definition preferredDelivery (current next : Z) : Z :=
  if (current =? DeliveredHere) || (next =? DeliveredHere) then DeliveredHere else next.

(** [m[key] = preferredDelivery(m[key], delivery)] *)
Definition prefer (m : gmap Key Z) (kv : Key * Z) : gmap Key Z :=
  <[kv.1 := preferredDelivery (default 0 (m !! kv.1)) kv.2]> m.

Definition claimedOf (claims : list Claim) : gmap Key Z :=
  foldl (fun m c => prefer m (claim_Key c, claim_Delivery c)) ∅ claims.

(** What one owner claims, added to the union. *)
Definition addClaims (desired claimed : gmap Key Z) : gmap Key Z :=
  foldl prefer desired (map_to_list claimed).

Definition desiredOf (order : list (gmap Key Z)) : gmap Key Z := foldl addClaims ∅ order.

Definition key_le (a b : Key) : Prop :=
  Prefixlen a < Prefixlen b \/ (Prefixlen a = Prefixlen b /\ key_Addr a <= key_Addr b).
#[global] Instance key_le_dec a b : Decision (key_le a b).
Proof. unfold key_le. apply _. Defined.

Definition sortedKeys (set : gmap Key Z) : list Key := merge_sort key_le (map_to_list set).*1.

Inductive apply_error :=
| DeleteEntry (k : Key) (e : bpf_error)
| UpdateEntry (k : Key) (e : bpf_error).

Definition error_key (e : apply_error) : Key :=
  match e with DeleteEntry k _ => k | UpdateEntry k _ => k end.

Section Store.
Context {E : Type -> Type}.
Variable pool_update : Key -> Z -> E (result bpf_error unit).
Variable pool_delete : Key -> E (result bpf_error unit).

(** The two loops carry the errors and the [installed] field. *)
Definition deleteStale (desired : gmap Key Z) (key : Key) (st : list apply_error * gmap Key Z)
  : prog E (list apply_error * gmap Key Z) :=
  if bool_decide (is_Some (desired !! key)) then Ret st else
  r <- call (pool_delete key) ;;
  match ignoreMissing r with
  | Err e => Ret (st.1 ++ [DeleteEntry key e], st.2)
  | Ok _ => Ret (st.1, delete key st.2)
  end.

Definition writeDesired (desired : gmap Key Z) (key : Key) (st : list apply_error * gmap Key Z)
  : prog E (list apply_error * gmap Key Z) :=
  let delivery := default 0 (desired !! key) in
  if bool_decide (st.2 !! key = Some delivery) then Ret st else
  r <- call (pool_update key delivery) ;;
  match r with
  | Err e => Ret (st.1 ++ [UpdateEntry key e], st.2)
  | Ok _ => Ret (st.1, <[key := delivery]> st.2)
  end.

(** [apply]; [order] is the order in which the owners' claims are visited. *)
Definition apply_store (order : list (gmap Key Z)) (s : Store) : prog E (list apply_error * Store) :=
  let desired := desiredOf order in
  st <- forP (sortedKeys (s_installed s)) ([], s_installed s) (deleteStale desired) ;;
  st <- forP (sortedKeys desired) st (writeDesired desired) ;;
  Ret (st.1, MkStore (s_claims s) st.2).

(** How a run visits the owners. *)
Definition visit : Type := gmap owner (gmap Key Z) -> list (gmap Key Z).

Definition store_set (order : visit) (o : owner) (claims : list Claim) (s : Store) : prog E (list apply_error * Store) :=
  let s := MkStore (match claims with
  | [] => delete o (s_claims s)
  | _ => <[o := claimedOf claims]> (s_claims s)
  end) (s_installed s) in
  apply_store (order (s_claims s)) s.

Definition releaseScope (order : visit) (scope : string) (s : Store) : prog E (list apply_error * Store) :=
  let s := MkStore (filter (fun oc => oc.1.1 <> scope) (s_claims s)) (s_installed s) in
  apply_store (order (s_claims s)) s.

(** [Scope] *)
Definition Scope_SetClaims (order : visit) (scope name : string) (claims : list Claim) (s : Store) :=
  store_set order (scope, name) claims s.
Definition Scope_Set (order : visit) (scope name : string) (keys : list Key) (s : Store) :=
  Scope_SetClaims order scope name ((fun k => MkClaim k DeliveredHere) <$> keys) s.
Definition Scope_Release (order : visit) (scope name : string) (s : Store) :=
  Scope_SetClaims order scope name [] s.
Definition Scope_ReleaseAll (order : visit) (scope : string) (s : Store) := releaseScope order scope s.
End Store.
