(* ===== verification/Fib.v ===== *)
(** * Fib: from resolved routes to the forwarding tables of the node

    [daemon/internal/daemon/dataplane/reconciler]: [fib.go] and [tgw_fib.go],
    which keep [fib_map] and [tgw_fib_map] in step with RouteTables and
    TransitGatewayRouteTables, and the lookup of [daemon/bpf/pod_egress.c]
    ([handle_l3], [handle_transit]) that gives the tables their meaning.

    Each table is an inner LPM trie that is filled before it is published.
    The two reconcilers have the same structure, so the layer is an argument
    of their calls.  A reconciler runs one operation at a time; the map
    [snapshots] it keeps between operations is explicit state.  A panic unwinds
    through the deferred close like an error; it is the error [Panicked]. *)

From stdpp Require Import base gmap strings list pretty.
From Stdlib Require Import ZArith Lia Ascii.
From S2P Require Import Prelude Effects Netip NetipFacts IPNet Kube PolicyEval PolicyStores OwnedAddr.
From S2P Require Import AddressPlan RouteTypes.

Open Scope Z_scope.
Open Scope go_scope.

(** ** [net.ParseMAC] *)

Definition hex_byte (a b : ascii) : option Z :=
  match hex_val a, hex_val b with Some x, Some y => Some (16 * x + y) | _, _ => None end.

(** Bytes of two digits with a separator between them. *)
Fixpoint macBytes (sep : ascii) (s : string) : option (list Z) :=
  match s with
  | String a (String b rest) =>
      match hex_byte a b, rest with
      | Some v, EmptyString => Some [v]
      | Some v, String c rest' => if Ascii.eqb c sep then cons v <$> macBytes sep rest' else None
      | None, _ => None
      end
  | _ => None
  end.

(** Groups of four digits with a dot between them. *)
Fixpoint macGroups (s : string) : option (list Z) :=
  match s with
  | String a (String b (String c (String d rest))) =>
      match hex_byte a b, hex_byte c d, rest with
      | Some v, Some w, EmptyString => Some [v; w]
      | Some v, Some w, String e rest' =>
          if Ascii.eqb e "."%char then (fun l => v :: w :: l) <$> macGroups rest' else None
      | _, _, _ => None
      end
  | _ => None
  end.

Definition mac_length (l : list Z) : bool :=
  Nat.eqb (length l) 6 || Nat.eqb (length l) 8 || Nat.eqb (length l) 20.

Definition ParseMAC (s : string) : option (list Z) :=
  let parsed := match String.get 2 s with
                | Some c => if Ascii.eqb c ":"%char || Ascii.eqb c "-"%char then macBytes c s else macGroups s
                | None => None
                end in
  match parsed with Some l => if mac_length l then Some l else None | None => None end.

(** [net.ParseMAC] and [HardwareAddrToUint8Array], as every caller uses them. *)
Definition macOf (s : string) : option (list Z) :=
  match ParseMAC s with Some hw => HardwareAddrToUint8Array hw | None => None end.

(** ** Values of the trie *)

Record FibVal := MkFibVal { fv_Type : Z; fv_Dmac : list Z; fv_Smac : list Z; fv_SubnetId : Z }.

#[global] Instance FibVal_eq_dec : EqDecision FibVal.
Proof. solve_decision. Defined.

Definition fibRouteTypeConnected : Z := 1.
Definition fibRouteTypeEndpoint : Z := 2.
Definition fibRouteTypeInternetGateway : Z := 3.
Definition fibRouteTypeService : Z := 4.
Definition fibRouteTypeNAPT : Z := 6.
Definition fibRouteTypePeering : Z := 7.
Definition fibRouteTypeTransit : Z := 8.
Definition fibRouteTypeBlackhole : Z := 9.
Definition fibRouteTypeVpcEndpoint : Z := 10.
Definition fibRouteTypeL2Gateway : Z := 11.

Definition noMac : list Z := [0; 0; 0; 0; 0; 0].
Definition typeOnly (t : Z) : FibVal := MkFibVal t noMac noMac 0.

(** The status of a Subnet as far as the tables need it. *)
Record SubnetStatus := MkSubnetStatus { ss_GatewayMAC : string; ss_VNI : Z }.

Definition buildSubnetFibVal (subnet : SubnetStatus) (routeType : Z) : option FibVal :=
  (fun mac => MkFibVal routeType noMac mac (ss_VNI subnet)) <$> macOf (ss_GatewayMAC subnet).

Definition buildConnectedFibVal (subnet : SubnetStatus) : option FibVal := buildSubnetFibVal subnet fibRouteTypeConnected.
Definition buildPeeringFibVal (subnet : SubnetStatus) : option FibVal := buildSubnetFibVal subnet fibRouteTypePeering.

Definition buildEndpointFibVal (subnet : SubnetStatus) (nwepMAC : string) : option FibVal :=
  match macOf nwepMAC with
  | None => None
  | Some dmac => (fun smac => MkFibVal fibRouteTypeEndpoint dmac smac (ss_VNI subnet)) <$> macOf (ss_GatewayMAC subnet)
  end.

Definition buildL2GatewayFibVal (vni : Z) : FibVal := MkFibVal fibRouteTypeL2Gateway noMac noMac vni.
Definition buildBlackholeFibVal : FibVal := typeOnly fibRouteTypeBlackhole.
Definition buildInternetGatewayFibVal : FibVal := typeOnly fibRouteTypeInternetGateway.
Definition buildServiceFibVal : FibVal := typeOnly fibRouteTypeService.
Definition buildVpcEndpointFibVal : FibVal := typeOnly fibRouteTypeVpcEndpoint.
Definition buildNATGatewayFibVal (gatewayID : Z) : FibVal := MkFibVal fibRouteTypeNAPT noMac noMac gatewayID.
Definition buildTransitGatewayFibVal (tableID : Z) : FibVal := MkFibVal fibRouteTypeTransit noMac noMac tableID.

(** ** Calls *)

Inductive layer := VpcLayer | TransitLayer.

#[global] Instance layer_eq_dec : EqDecision layer.
Proof. solve_decision. Defined.

Inductive fib_call : Type -> Type :=
| FibNewMap (l : layer) : fib_call (result bpf_error Z)
| FibInnerUpdate (h : Z) (k : Key) (v : FibVal) : fib_call (result bpf_error unit)
| FibCloseMap (h : Z) : fib_call (result bpf_error unit)
| FibOuterUpdate (l : layer) (id h : Z) : fib_call (result bpf_error unit)
| FibOuterDelete (l : layer) (id : Z) : fib_call (result bpf_error unit)
| FibGetRouteTable (name : string) : fib_call (result api_error RouteTable)
| FibGetTransitTable (name : string) : fib_call (result api_error TransitGatewayRouteTable)
| FibGetSubnet (name : string) : fib_call (result api_error SubnetStatus)
| FibGetL2Network (name : string) : fib_call (result api_error Z)                  (* status.vni *)
| FibGetEndpoint (ns name : string) : fib_call (result api_error string)           (* spec.macAddress *)
| FibGetNATGateway (name : string) : fib_call (result api_error Z)                 (* status.gatewayID *)
| FibListRouteTables : fib_call (result api_error (list string))
| FibListTransitTables : fib_call (result api_error (list string)).

Inductive fib_error :=
| FibApi (e : api_error)
| FibCreate (e : bpf_error)
| FibWrite (dst : string) (e : bpf_error)
| FibPublish (id : Z) (e : bpf_error)
| FibDelete (id : Z) (e : bpf_error)
| Panicked.

(** [fibSnapshot] by the name of the table: its id and its inner map. *)
Definition snapshots := gmap string (Z * Z).

(** ** fib.go: values *)

(** [buildFibVal]: an error, or the value, or nothing when the route is to be
    skipped. *)
Definition orError {A B} (r : result api_error A) (k : A -> prog fib_call (option (option B)))
  : prog fib_call (option (option B)) :=
  match r with Ok a => k a | Err _ => Ret None end.

Definition nonZero (id : Z) (v : FibVal) : option FibVal := if id =? 0 then None else Some v.

Definition fib_buildFibVal (route : ResolvedRoute) : prog fib_call (option (option FibVal)) :=
  if bool_decide (rr_State route = RouteStateBlackhole) then Ret (Some (Some buildBlackholeFibVal)) else
  match rv_Type (rr_Via route) with
  | ViaConnected =>
      if negb (String.eqb (rr_L2Network route) "") then
        r <- call (FibGetL2Network (rr_L2Network route)) ;;
        orError r (fun vni => Ret (Some (nonZero vni (buildL2GatewayFibVal vni))))
      else
        r <- call (FibGetSubnet (rr_Subnet route)) ;;
        orError r (fun subnet => Ret (Some <$> buildConnectedFibVal subnet))
  | ViaVpcPeering =>
      r <- call (FibGetSubnet (rr_Subnet route)) ;;
      orError r (fun subnet => Ret (Some <$> buildPeeringFibVal subnet))
  | ViaEndpoint =>
      match rr_NetworkEndpoint route with
      | None => Ret None
      | Some ref =>
          r <- call (FibGetSubnet (rr_Subnet route)) ;;
          orError r (fun subnet =>
            r <- call (FibGetEndpoint (rne_Namespace ref) (rne_Name ref)) ;;
            orError r (fun mac => Ret (Some <$> buildEndpointFibVal subnet mac)))
      end
  | ViaBlackhole => Ret (Some (Some buildBlackholeFibVal))
  | ViaInternetGateway => Ret (Some (Some buildInternetGatewayFibVal))
  | ViaService => Ret (Some (Some buildServiceFibVal))
  | ViaVpcEndpoint => Ret (Some (Some buildVpcEndpointFibVal))
  | ViaNATGateway =>
      r <- call (FibGetNATGateway (rv_NATGateway (rr_Via route))) ;;
      orError r (fun id => Ret (Some (nonZero id (buildNATGatewayFibVal id))))
  | ViaTransitGateway =>
      r <- call (FibGetTransitTable (rr_TransitGatewayRouteTable route)) ;;
      orError r (fun table => let id := tgs_TableID (tgrt_status table) in
                              Ret (Some (nonZero id (buildTransitGatewayFibVal id))))
  | ViaUnknown _ => Ret None
  end.

(** [fibValFor]: what the table holds for a route, or nothing.  An endpoint
    route that cannot be built drops its traffic. *)
Definition fibValFor (route : ResolvedRoute) : prog fib_call (option FibVal) :=
  r <- fib_buildFibVal route ;;
  match r with
  | None => Ret (if bool_decide (rv_Type (rr_Via route) = ViaEndpoint) then Some buildBlackholeFibVal else None)
  | Some val => Ret val
  end.

(** ** fib.go: tables *)

(** The key of a destination: none when it does not parse, and
    [binary.LittleEndian.Uint32(netaddr.To4())] panics on an IPv6 address. *)
Definition fibKey (dst : string) : option (result fib_error Key) :=
  match ParseCIDR dst with
  | None => None
  | Some (netaddr, ipnet) =>
      Some match IPv4ToBPFNetworkOrder netaddr with
           | None => Err Panicked
           | Some a => Ok (MkKey (net_Ones ipnet) a)
           end
  end.

Definition installRoute (h : Z) (dst : string) (key : Key) (val : option FibVal) : prog fib_call (result fib_error unit) :=
  match val with
  | None => Ret (Ok tt)
  | Some v => r <- call (FibInnerUpdate h key v) ;; Ret (res_map_err (FibWrite dst) r)
  end.

Definition fib_populateRoute (h : Z) (route : ResolvedRoute) : prog fib_call (result fib_error unit) :=
  match fibKey (rr_Dst route) with
  | None => Ret (Ok tt)
  | Some (Err e) => Ret (Err e)
  | Some (Ok key) => val <- fibValFor route ;; installRoute h (rr_Dst route) key val
  end.

(** [upsert] of both reconcilers: fill a new inner map, publish it under the
    id, then drop what the table had before. *)
Definition publishFib {R} (l : layer) (name : string) (tableID : Z) (routes : list R)
  (populateRoute : Z -> R -> prog fib_call (result fib_error unit)) (snaps : snapshots)
  : prog fib_call (result fib_error unit * snapshots) :=
  r <- call (FibNewMap l) ;;
  match r with
  | Err e => Ret (Err (FibCreate e), snaps)
  | Ok h =>
      r <- forTryP routes tt (fun route _ => populateRoute h route) ;;
      match r with
      | Err e => _ <- call (FibCloseMap h) ;; Ret (Err e, snaps)
      | Ok _ =>
          r <- call (FibOuterUpdate l tableID h) ;;
          match r with
          | Err e => _ <- call (FibCloseMap h) ;; Ret (Err (FibPublish tableID e), snaps)
          | Ok _ =>
              let snaps' := <[name := (tableID, h)]> snaps in
              match snaps !! name with
              | None => Ret (Ok tt, snaps')
              | Some (oldID, oldH) =>
                  _ <- (if oldID =? tableID then Ret (Ok tt) else call (FibOuterDelete l oldID)) ;;
                  _ <- call (FibCloseMap oldH) ;;
                  Ret (Ok tt, snaps')
              end
          end
      end
  end.

Definition fib_upsert (name : string) (rt : RouteTable) (snaps : snapshots)
  : prog fib_call (result fib_error unit * snapshots) :=
  publishFib VpcLayer name (rts_TableID (rtb_status rt)) (rts_Routes (rtb_status rt)) fib_populateRoute snaps.

(** [delete] of both reconcilers: the snapshot is forgotten first. *)
Definition deleteFib (l : layer) (name : string) (snaps : snapshots)
  : prog fib_call (result fib_error unit * snapshots) :=
  match snaps !! name with
  | None => Ret (Ok tt, snaps)
  | Some (oldID, oldH) =>
      let snaps' := delete name snaps in
      r <- call (FibOuterDelete l oldID) ;;
      match ignoreMissing r with
      | Err e => Ret (Err (FibDelete oldID e), snaps')
      | Ok _ => _ <- call (FibCloseMap oldH) ;; Ret (Ok tt, snaps')
      end
  end.

Definition fib_delete (name : string) := deleteFib VpcLayer name.

Definition fib_Reconcile (name : string) (snaps : snapshots) : prog fib_call (result fib_error unit * snapshots) :=
  r <- call (FibGetRouteTable name) ;;
  match r with
  | Err NotFound => fib_delete name snaps
  | Err e => Ret (Err (FibApi e), snaps)
  | Ok rt => fib_upsert name rt snaps
  end.

(** [CloseAll]: the errors of the closes, joined; Go visits the map in any
    order. *)
Definition fib_CloseAll (snaps : snapshots) : prog fib_call (list bpf_error * snapshots) :=
  errs <- forP (map_to_list snaps) [] (fun kv errs =>
    r <- call (FibCloseMap kv.2.2) ;; Ret (match r with Ok _ => errs | Err e => errs ++ [e] end)) ;;
  Ret (errs, ∅).

Definition FanOutAllRouteTables : prog fib_call (list string) :=
  r <- call FibListRouteTables ;; Ret (match r with Ok names => names | Err _ => [] end).

(** ** tgw_fib.go *)

Definition tgw_buildFibVal (route : ResolvedTransitGatewayRoute) : prog fib_call (option FibVal) :=
  if rtg_Blackhole route then Ret (Some buildBlackholeFibVal) else
  r <- call (FibGetSubnet (rtg_Subnet route)) ;;
  match r with Err _ => Ret None | Ok subnet => Ret (buildConnectedFibVal subnet) end.

Definition tgw_populateRoute (h : Z) (route : ResolvedTransitGatewayRoute) : prog fib_call (result fib_error unit) :=
  match fibKey (rtg_Dst route) with
  | None => Ret (Ok tt)
  | Some (Err e) => Ret (Err e)
  | Some (Ok key) => val <- tgw_buildFibVal route ;; installRoute h (rtg_Dst route) key val
  end.

Definition tgw_upsert (name : string) (rt : TransitGatewayRouteTable) (snaps : snapshots)
  : prog fib_call (result fib_error unit * snapshots) :=
  let tableID := tgs_TableID (tgrt_status rt) in
  if tableID =? 0 then Ret (Ok tt, snaps)
  else publishFib TransitLayer name tableID (tgs_Routes (tgrt_status rt)) tgw_populateRoute snaps.

Definition tgw_delete (name : string) := deleteFib TransitLayer name.

Definition tgw_Reconcile (name : string) (snaps : snapshots) : prog fib_call (result fib_error unit * snapshots) :=
  r <- call (FibGetTransitTable name) ;;
  match r with
  | Err NotFound => tgw_delete name snaps
  | Err e => Ret (Err (FibApi e), snaps)
  | Ok rt => tgw_upsert name rt snaps
  end.

Definition FanOutAllTransitGatewayRouteTables : prog fib_call (list string) :=
  r <- call FibListTransitTables ;; Ret (match r with Ok names => names | Err _ => [] end).

(** ** The tables in the data plane

    A trie of [BPF_MAP_TYPE_LPM_TRIE] keeps at most one entry per prefix, the
    first [Prefixlen] bits of the address, and a lookup with a full address
    finds the entry of the longest prefix that covers it. *)

Abbreviation prefix := (Z * Z)%type.
Abbreviation trie := (gmap (Z * Z) FibVal).

(** The prefix of a key; its address is in network byte order. *)
Definition lpm_prefix (k : Key) : prefix :=
  (Prefixlen k, mask_val 32 (Prefixlen k) (htonl (key_Addr k))).

Fixpoint lpm_search (t : trie) (n : nat) (a : Z) : option FibVal :=
  match t !! (Z.of_nat n, mask_val 32 (Z.of_nat n) a) with
  | Some v => Some v
  | None => match n with O => None | S n' => lpm_search t n' a end
  end.

(** The lookup of an address, in host byte order. *)
Definition lpm_lookup (t : trie) (a : Z) : option FibVal := lpm_search t 32 a.

(** What a packet program does with a packet. *)
Inductive l3_action :=
| Shot
| ForwardL2 (subnet_id : Z) (dmac smac : list Z)
| HandleSnat
| HandleService (vpc_endpoint : bool)
| HandleNapt (gateway_id : Z)
| RedirectTo (ifindex : Z).

#[global] Instance l3_action_eq_dec : EqDecision l3_action.
Proof. solve_decision. Defined.

(** The maps [handle_l3] reads. *)
Record dataplane := MkDataplane {
  fib_map : gmap Z trie;
  tgw_fib_map : gmap Z trie;
  arp_table : gmap (Z * Z) (list Z);
  l2_gateway : gmap Z Z;
}.

(** The neighbour of a destination on a Subnet. *)
Definition forwardNeighbor (d : dataplane) (subnet_id dst : Z) (smac : list Z) : l3_action :=
  match arp_table d !! (subnet_id, dst) with
  | Some dmac => ForwardL2 subnet_id dmac smac
  | None => Shot
  end.

(** What [handle_transit] does with the route found; the caller drops the
    packet when it returns 0. *)
Definition transit_action (d : dataplane) (v : FibVal) (dst : Z) : l3_action :=
  if fv_Type v =? fibRouteTypeBlackhole then Shot
  else if negb (fv_Type v =? fibRouteTypeConnected) then Shot
  else match forwardNeighbor d (fv_SubnetId v) dst (fv_Smac v) with
       | ForwardL2 subnet_id dmac smac => if subnet_id =? 0 then Shot else ForwardL2 subnet_id dmac smac
       | a => a
       end.

Definition handle_transit (d : dataplane) (tgw_table_id dst : Z) : l3_action :=
  match tgw_fib_map d !! tgw_table_id with
  | None => Shot
  | Some t => match lpm_lookup t dst with None => Shot | Some v => transit_action d v dst end
  end.

(** The dispatch on the route found. *)
Definition route_action (d : dataplane) (v : FibVal) (dst : Z) : l3_action :=
  let t := fv_Type v in
  if (t =? fibRouteTypeConnected) || (t =? fibRouteTypePeering) then forwardNeighbor d (fv_SubnetId v) dst (fv_Smac v)
  else if t =? fibRouteTypeEndpoint then ForwardL2 (fv_SubnetId v) (fv_Dmac v) (fv_Smac v)
  else if t =? fibRouteTypeInternetGateway then HandleSnat
  else if (t =? fibRouteTypeService) || (t =? fibRouteTypeVpcEndpoint) then HandleService (t =? fibRouteTypeVpcEndpoint)
  else if t =? fibRouteTypeNAPT then HandleNapt (fv_SubnetId v)
  else if t =? fibRouteTypeTransit then handle_transit d (fv_SubnetId v) dst
  else if t =? fibRouteTypeL2Gateway then
    match l2_gateway d !! fv_SubnetId v with
    | Some ifindex => if ifindex =? 0 then Shot else RedirectTo ifindex
    | None => Shot
    end
  else Shot.

(** [handle_l3], from the lookup of the table of the Subnet on; [dst] in host
    byte order. *)
Definition handle_l3 (d : dataplane) (table_id dst : Z) : l3_action :=
  match fib_map d !! table_id with
  | None => Shot
  | Some t => match lpm_lookup t dst with None => Shot | Some v => route_action d v dst end
  end.
