(* ===== verification/OwnedKey.v ===== *)
(** * OwnedKey: prefixes as text and as keys of the trie *)

From stdpp Require Import base gmap strings list pretty.
From Stdlib Require Import ZArith Lia Ascii.
From S2P Require Import Prelude Netip NetipFacts NetipText IPNet PolicyEval OwnedAddr.

Open Scope Z_scope.

(** A key of the 32-bit trie, without host bits. *)
Definition key_wf (k : Key) : Prop :=
  0 <= Prefixlen k <= 32 /\
  exists v, 0 <= v < 2 ^ 32 /\ key_Addr k = htonl v /\ mask_val 32 (Prefixlen k) v = v.

Lemma htonl_As4 a b c d :
  octet a -> octet b -> octet c -> octet d ->
  htonl (be_combine [a; b; c; d]) = be_combine [d; c; b; a].
Proof.
  intros Ha Hb Hc Hd. unfold octet in *. unfold htonl. rewrite !be_combine_4. unfold le_combine, As4.
  rewrite !Z.shiftr_div_pow2 by lia. change (2 ^ 24) with 16777216. change (2 ^ 16) with 65536. change (2 ^ 8) with 256.
  set (v := ((a * 256 + b) * 256 + c) * 256 + d).
  assert (H1 : v / 16777216 = a) by (symmetry; apply (Z.div_unique v 16777216 a (v - a * 16777216)); unfold v; lia).
  assert (H2 : v / 65536 = a * 256 + b)
    by (symmetry; apply (Z.div_unique v 65536 (a * 256 + b) (v - (a * 256 + b) * 65536)); unfold v; lia).
  assert (H3 : v / 256 = (a * 256 + b) * 256 + c)
    by (symmetry; apply (Z.div_unique v 256 ((a * 256 + b) * 256 + c) d); unfold v; lia).
  assert (Hm : forall q r, octet r -> (q * 256 + r) mod 256 = r).
  { intros q r Hr. unfold octet in Hr. symmetry. apply (Z.mod_unique _ _ q r); lia. }
  rewrite H1, H2, H3, !Hm by (unfold octet; lia). rewrite Z.mod_small by lia.
  unfold v. rewrite Hm by (unfold octet; lia). reflexivity.
Qed.

Lemma htonl_involutive v : 0 <= v < 2 ^ 32 -> htonl (htonl v) = v.
Proof.
  intros Hv. pose proof (As4_octets v ltac:(lia)) as Ho. pose proof (be_combine_As4 v Hv) as Hb.
  unfold As4 in *. rewrite !Forall_cons in Ho. destruct Ho as (Ha & Hb' & Hc & Hd & _).
  rewrite <- Hb at 1. rewrite htonl_As4 by done. rewrite htonl_As4 by done. exact Hb.
Qed.

Lemma pretty_dec_byte n : 0 <= n <= 128 -> pretty n = dec_byte n.
Proof.
  intros Hn. apply String.eqb_eq.
  apply (bounded_forallb (fun n => String.eqb (pretty n) (dec_byte n)) 0 129); [vm_compute; reflexivity|lia].
Qed.

Lemma dtoi_dec_byte n : 0 <= n <= 128 -> dtoi (dec_byte n) = Some n.
Proof.
  intros Hn. pose proof (bounded_forallb (fun n => bool_decide (dtoi (dec_byte n) = Some n)) 0 129 n) as H.
  apply (bool_decide_eq_true_1 (dtoi (dec_byte n) = Some n)). apply H; [vm_compute; reflexivity|lia].
Qed.

Lemma v4_char_not_slash c : v4_char c = true -> negb (Ascii.eqb c "/") = true.
Proof. by destruct c as [[] [] [] [] [] [] [] []]. Qed.

(** A network in its normal form. *)
Definition net_text (v n : Z) : string := (string4 v ++ String "/" (dec_byte n))%string.

Lemma net_text_trim v n : 0 <= v -> octet n -> TrimSpace (net_text v n) = net_text v n.
Proof.
  intros Hv Hn. apply TrimSpace_id. unfold net_text. rewrite str_forall_app. apply andb_true_intro. split.
  - eapply str_forall_impl; [exact v4_char_not_space|by apply string4_chars].
  - change (str_forall (fun c => negb (is_go_space c)) (dec_byte n) = true).
    eapply str_forall_impl; [exact v4_char_not_space|by apply dec_byte_chars].
Qed.

Lemma net_text_cut v n : 0 <= v -> cut_first "/"%char (net_text v n) = Some (string4 v, dec_byte n).
Proof.
  intros Hv. apply cut_first_app. eapply str_forall_impl; [exact v4_char_not_slash|by apply string4_chars].
Qed.

Lemma ParseCIDR_net_text v n :
  0 <= v < 2 ^ 32 -> 0 <= n <= 32 -> ParseCIDR (net_text v n) = Some (Addr4 v, MkIPNet (Addr4 (mask_val 32 n v)) n).
Proof.
  intros Hv Hn. unfold ParseCIDR. rewrite net_text_cut by lia.
  pose proof (ParseAddr_String4 v Hv) as Hp. cbn [Addr_String] in Hp. rewrite Hp. cbn.
  rewrite dtoi_dec_byte by lia. by rewrite (proj2 (Z.leb_le n 32)) by lia.
Qed.

Lemma net_text_nonempty v n : 0 <= v -> String.eqb (net_text v n) "" = false.
Proof. intros Hv. apply String.eqb_neq. intros He. pose proof (net_text_cut v n Hv) as Hc. by rewrite He in Hc. Qed.

(** The key of a CIDR of an IPv4 network. *)
Lemma ParsePrefix_CIDR s ip n v :
  ParseCIDR (TrimSpace s) = Some (ip, MkIPNet (Addr4 v) n) -> ParsePrefix s = Ok (MkKey (u32 n) (htonl v)).
Proof.
  intros Hp. unfold ParsePrefix. cbv zeta. assert (Hcut := Hp). unfold ParseCIDR in Hcut.
  destruct (cut_first "/" (TrimSpace s)) as [[a m]|] eqn:Hc; [|done].
  destruct (String.eqb_spec (TrimSpace s) "") as [He|_]; [by rewrite He in Hc|].
  unfold parseOwned, has_slash. rewrite Hc, bool_decide_eq_true_2 by eauto. rewrite Hp. cbn [res_bind fst snd net_Ones].
  split_match_in Hcut. simplify_eq. destruct ip as [|w|w z]; cbn in *; by simplify_eq.
Qed.

Lemma Key_String_text v n :
  0 <= v < 2 ^ 32 -> 0 <= n <= 32 -> Key_String (MkKey n (htonl v)) = net_text v n.
Proof.
  intros Hv Hn. unfold Key_String, BPFNetworkOrderToIPv4. cbn [key_Addr Prefixlen Addr_String].
  by rewrite htonl_involutive, pretty_dec_byte by lia.
Qed.

(** The key of a bare address, in either spelling of an IPv4 address. *)
Lemma ParsePrefix_bare s ip :
  cut_first "/"%char (TrimSpace s) = None -> ParseIP (TrimSpace s) = Some ip ->
  ParsePrefix s = match Unmap ip with Addr4 v => Ok (MkKey 32 (htonl v)) | _ => Err NotIPv4 end.
Proof.
  intros Hc Hip. unfold ParsePrefix. cbv zeta. destruct (String.eqb_spec (TrimSpace s) "") as [He|_].
  { rewrite He in Hip. by vm_compute in Hip. }
  unfold parseOwned, has_slash. rewrite Hc, bool_decide_eq_false_2 by (by intros [? ?]). rewrite Hip. cbn [res_bind fst snd].
  unfold IPv4ToLPMTrieUint32, IPv4ToBPFNetworkOrder. by destruct (Unmap ip).
Qed.

Lemma ParseIP_v4 s ip v : ParseIP s = Some ip -> Unmap ip = Addr4 v -> 0 <= v < 2 ^ 32.
Proof.
  unfold ParseIP. destruct (ParseAddr s) as [a|] eqn:Ha; [|done]. case_bool_decide; [|done]. intros [= <-].
  apply ParseAddr_wf in Ha as [Hw _]. unfold Unmap. destruct a as [|w|w z]; [done|by intros [= <-]|].
  destruct (Is4In6 _); [|done]. intros [= <-]. apply Z.mod_pos_bound. lia.
Qed.

(** Claim C27: keys and prefixes correspond.  Every key of the trie without host
    bits is read back from the text it is printed as.  Whatever the spelling of
    an IPv4 network (blanks around it, host bits set, leading zeros in the
    mask), [ParsePrefix] gives the one key that prints as the network in its
    normal form; a bare IPv4 address, also one written as IPv6, gives the key
    that prints as that address with /32.  A bare IPv6 address, and a text that
    is neither a network nor an address, is refused. *)
Theorem owned_key_roundtrip :
  (forall k, key_wf k -> ParsePrefix (Key_String k) = Ok k) /\
  (forall s n v, ParseNet (TrimSpace s) = Some n -> net_IP n = Addr4 v ->
     exists k, ParsePrefix s = Ok k /\ key_wf k /\ Key_String k = IPNet_String n) /\
  (forall s ip, cut_first "/"%char (TrimSpace s) = None -> ParseIP (TrimSpace s) = Some ip ->
     match Unmap ip with
     | Addr4 v => exists k, ParsePrefix s = Ok k /\ key_wf k /\ Key_String k = (Addr_String (Addr4 v) ++ "/32")%string
     | _ => ParsePrefix s = Err NotIPv4
     end) /\
  (forall s, ParseNet (TrimSpace s) = None -> ParseIP (TrimSpace s) = None -> exists e, ParsePrefix s = Err e).
Proof.
  split_and!.
  - intros [n a] [Hn (v & Hv & Ha & Hm)]. cbn [Prefixlen key_Addr] in *. subst a.
    rewrite Key_String_text by lia.
    assert (Hp : ParseCIDR (TrimSpace (net_text v n)) = Some (Addr4 v, MkIPNet (Addr4 v) n)).
    { rewrite net_text_trim by (unfold octet; lia). rewrite ParseCIDR_net_text by lia. by rewrite Hm. }
    rewrite (ParsePrefix_CIDR _ _ _ _ Hp). by rewrite wrapU_id by (unfold fitsU; lia).
  - intros s [ip n] v Hp Hip. cbn in Hip. subst ip. pose proof (ParseNet_wf _ _ Hp) as [_ Hn Hm].
    unfold ParseNet in Hp. destruct (ParseCIDR (TrimSpace s)) as [[ip net]|] eqn:Hc; [|done]. cbn in Hp. injection Hp as ->.
    cbn in Hn, Hm. exists (MkKey n (htonl v)). rewrite (ParsePrefix_CIDR _ _ _ _ Hc), wrapU_id by (unfold fitsU; lia).
    assert (Hv : 0 <= v < 2 ^ 32).
    { unfold ParseCIDR in Hc. split_match_in Hc. simplify_eq.
      match goal with H : ParseAddr _ = Ok ?x |- _ => apply ParseAddr_wf in H; destruct x; simplify_eq end.
      cbn in *. simplify_eq. destruct (mask_val_range 32 n v0) as [Hr1 _]; [lia..|].
      pose proof (mask_val_le 32 n v0 ltac:(lia)). lia. }
    split; [done|]. split; [split; [done|by exists v]|]. by rewrite Key_String_text by lia.
  - intros s ip Hc Hip. pose proof (ParsePrefix_bare s ip Hc Hip) as Hp. destruct (Unmap ip) as [|v|] eqn:Hu; [done| |done].
    pose proof (ParseIP_v4 _ _ _ Hip Hu) as Hv. exists (MkKey 32 (htonl v)). split; [done|].
    split; [|by rewrite Key_String_text by lia]. split; [cbn; lia|]. exists v. split_and!; [lia..|done|].
    cbn. rewrite mask_val_spec by lia. rewrite Z.sub_diag, Z.pow_0_r, Z.mod_1_r. lia.
  - intros s Hn Hi. unfold ParsePrefix, parseOwned, ParseNet in *. cbv zeta. rewrite Hi.
    destruct (String.eqb _ _); [eauto|]. destruct (has_slash _); [|eauto].
    destruct (ParseCIDR (TrimSpace s)) as [[? ?]|]; [done|]. eauto.
Qed.

Lemma owned_key_roundtrip_witness :
  ParsePrefix (Key_String (MkKey 16 266)) = Ok (MkKey 16 266) /\
  (exists k, ParsePrefix " 10.1.2.3/016 " = Ok k /\ Key_String k = "10.1.0.0/16"%string) /\
  exists k, ParsePrefix " 10.1.2.3" = Ok k /\ Key_String k = "10.1.2.3/32"%string.
Proof.
  destruct owned_key_roundtrip as (H1 & H2 & H3 & _). split_and!.
  - apply H1. split; [cbn; lia|]. exists (10 * 2 ^ 24 + 2 ^ 16). split; [lia|]. split; vm_compute; reflexivity.
  - destruct (H2 " 10.1.2.3/016 "%string (MkIPNet (Addr4 (10 * 2 ^ 24 + 2 ^ 16)) 16) (10 * 2 ^ 24 + 2 ^ 16)) as (k & Hk & _ & Ht).
    + vm_compute. reflexivity.
    + reflexivity.
    + exists k. split; [exact Hk|]. rewrite Ht. vm_compute. reflexivity.
  - destruct (H3 " 10.1.2.3"%string (Addr4 (10 * 2 ^ 24 + 2 ^ 16 + 2 * 2 ^ 8 + 3))) as (k & Hk & _ & Ht).
    + vm_compute. reflexivity.
    + vm_compute. reflexivity.
    + exists k. split; [exact Hk|]. rewrite Ht. vm_compute. reflexivity.
Defined.

(** A CIDR of an IPv4 address written in IPv6 gives a key no 32-bit trie has. *)
Lemma mapped_prefix_key : ParsePrefix "::ffff:10.0.0.0/104" = Ok (MkKey 104 10).
Proof. vm_compute. reflexivity. Qed.
