(* ===== verification/FibTables.v ===== *)
(** * FibTables: a trie decides like the list of routes it was filled from

    The reference decision [longest] (the longest prefix that covers the
    address, the later of two routes with the same prefix), and that a lookup
    in a trie agrees with it ([lpm_image]). *)

From stdpp Require Import base gmap strings list.
From Stdlib Require Import ZArith Lia.
From S2P Require Import Prelude Effects Netip NetipFacts IPNet Kube PolicyEval PolicyStores OwnedAddr OwnedKey.
From S2P Require Import AddressPlan RouteTypes Fib.

Open Scope Z_scope.

Definition covers (p : prefix) (a : Z) : bool := mask_val 32 p.1 a =? p.2.

(** ** The reference decision *)

Definition better (a : Z) (best : option (prefix * FibVal)) (e : prefix * FibVal) : option (prefix * FibVal) :=
  if negb (covers e.1 a) then best
  else match best with
       | Some b => if b.1.1 <=? e.1.1 then Some e else best
       | None => Some e
       end.

Definition longest (es : list (prefix * FibVal)) (a : Z) : option (prefix * FibVal) := foldl (better a) None es.

(** The trie after the entries have been written in their order. *)
Definition image (es : list (prefix * FibVal)) : trie := foldl (fun t e => <[e.1 := e.2]> t) ∅ es.

Lemma image_snoc es e : image (es ++ [e]) = <[e.1 := e.2]> (image es).
Proof. unfold image. by rewrite foldl_app. Qed.

Lemma longest_snoc es e a : longest (es ++ [e]) a = better a (longest es a) e.
Proof. unfold longest. by rewrite foldl_app. Qed.

Lemma longest_None es a e : longest es a = None -> e ∈ es -> covers e.1 a = false.
Proof.
  induction es as [|x es IH] using rev_ind; [intros _ He; by apply elem_of_nil in He|].
  rewrite longest_snoc. unfold better. intros Hl He. destruct (covers x.1 a) eqn:Hx; simpl in Hl.
  - destruct (longest es a); [|done]. by destruct (_ <=? _).
  - apply elem_of_app in He as [He|He]; [by apply IH|]. apply list_elem_of_singleton in He. by subst.
Qed.

(** The entry chosen covers the address, is in the list, and no other that
    covers it is longer. *)
Lemma longest_Some es a e :
  longest es a = Some e ->
  e ∈ es /\ covers e.1 a = true /\ forall e', e' ∈ es -> covers e'.1 a = true -> e'.1.1 <= e.1.1.
Proof.
  revert e. induction es as [|e0 es IH] using rev_ind; intros e; [done|].
  rewrite longest_snoc. unfold better. destruct (covers e0.1 a) eqn:Hc; simpl.
  - destruct (longest es a) as [b|] eqn:Hb.
    + destruct (IH b eq_refl) as (Hin & Hcov & Hmax). destruct (b.1.1 <=? e0.1.1) eqn:Hle; intros [= <-]; to_prop.
      * split_and!; [set_solver|done|]. intros e' [He'|He']%elem_of_app Hc'.
        -- specialize (Hmax e' He' Hc'). lia.
        -- apply list_elem_of_singleton in He'. subst. lia.
      * split_and!; [set_solver|done|]. intros e' [He'|He']%elem_of_app Hc'; [by apply Hmax|].
        apply list_elem_of_singleton in He'. subst. lia.
    + intros [= <-]. split_and!; [set_solver|done|]. intros e' [He'|He']%elem_of_app Hc'.
      * by rewrite (longest_None _ _ _ Hb He') in Hc'.
      * apply list_elem_of_singleton in He'. subst. lia.
  - intros Hl. destruct (IH e Hl) as (Hin & Hcov & Hmax). split_and!; [set_solver|done|].
    intros e' [He'|He']%elem_of_app Hc'; [by apply Hmax|]. apply list_elem_of_singleton in He'. subst. by rewrite Hc in Hc'.
Qed.

(** ** The lookup *)

(** A well-formed prefix: a length of at most 32 bits. *)
Definition prefix_ok (p : prefix) : Prop := 0 <= p.1 <= 32.

Lemma lpm_search_Some t n a v m :
  (m <= n)%nat -> t !! (Z.of_nat m, mask_val 32 (Z.of_nat m) a) = Some v ->
  (forall m', (m < m' <= n)%nat -> t !! (Z.of_nat m', mask_val 32 (Z.of_nat m') a) = None) ->
  lpm_search t n a = Some v.
Proof.
  induction n as [|n IH]; intros Hm Hv Hgt; cbn [lpm_search].
  - assert (m = O) as -> by lia. by rewrite Hv.
  - destruct (decide (m = S n)) as [->|Hne]; [by rewrite Hv|].
    rewrite (Hgt (S n)) by lia. apply IH; [lia|done|]. intros m' ?. apply Hgt. lia.
Qed.

Lemma lpm_search_None t n a :
  (forall m, (m <= n)%nat -> t !! (Z.of_nat m, mask_val 32 (Z.of_nat m) a) = None) -> lpm_search t n a = None.
Proof.
  induction n as [|n IH]; intros Hn; cbn [lpm_search]; rewrite Hn by lia; [done|].
  apply IH. intros m ?. apply Hn. lia.
Qed.

(** The prefixes of the trie that cover an address, against the decision. *)
Lemma image_longest es a :
  match longest es a with
  | Some e => image es !! (e.1.1, mask_val 32 e.1.1 a) = Some e.2 /\
              forall m, e.1.1 < m -> image es !! (m, mask_val 32 m a) = None
  | None => forall m, image es !! (m, mask_val 32 m a) = None
  end.
Proof.
  induction es as [|e0 es IH] using rev_ind; [done|].
  rewrite longest_snoc, image_snoc. unfold better.
  destruct e0 as [[m0 p0] v0]. unfold covers. cbn [fst snd].
  destruct (mask_val 32 m0 a =? p0) eqn:Hc; cbn [negb]; to_prop.
  - subst p0. destruct (longest es a) as [[[m1 p1] v1]|] eqn:Hl; cbn [fst snd] in *.
    + destruct IH as [Hin Hgt]. destruct (m1 <=? m0) eqn:Hle; to_prop; cbn [fst snd].
      * split; [by rewrite lookup_insert_eq|]. intros m Hm. rewrite lookup_insert_ne by (intros [=]; lia). apply Hgt. lia.
      * split; [rewrite lookup_insert_ne by (intros [=]; lia); done|].
        intros m Hm. rewrite lookup_insert_ne by (intros [=]; lia). apply Hgt. lia.
    + split; [by rewrite lookup_insert_eq|]. intros m Hm. rewrite lookup_insert_ne by (intros [=]; lia). apply IH.
  - assert (Hne : forall m, (m0, p0) <> (m, mask_val 32 m a)) by (intros m [= <- ?]; congruence).
    destruct (longest es a) as [e|]; [destruct IH as [Hin Hgt]; split; [|intros m Hm]|intros m];
      rewrite lookup_insert_ne by apply Hne; auto.
Qed.

Lemma lpm_image es a :
  Forall (fun e => prefix_ok e.1) es -> lpm_lookup (image es) a = snd <$> longest es a.
Proof.
  intros Hwf. pose proof (image_longest es a) as Hi. unfold lpm_lookup.
  destruct (longest es a) as [e|] eqn:Hl.
  - destruct (longest_Some _ _ _ Hl) as (Hin & _). rewrite Forall_forall in Hwf. specialize (Hwf e Hin) as [H0 H1].
    destruct Hi as [Hv Hgt]. apply (lpm_search_Some _ _ _ _ (Z.to_nat e.1.1)); [lia| |].
    + by rewrite Z2Nat.id by lia.
    + intros m' ?. apply Hgt. lia.
  - apply lpm_search_None. intros m _. apply Hi.
Qed.
