(* ===== verification/FibPublish.v ===== *)
(** * FibPublish: packets see whole tables

    The contract of the maps and of the API server ([fib_server]), and the
    invariant of the two FIB reconcilers: at every moment, whatever fails, the
    trie found under a table id is the image of the routes of a table that was
    read with that id, each with the value the API describes for it
    ([route_value], [transit_value]); the only routes left out are those whose
    destination does not parse, or for which a read failed or gave nothing
    usable while the table was filled. *)

From stdpp Require Import base gmap strings list fin_maps.
From Stdlib Require Import ZArith Lia.
From S2P Require Import Prelude Effects Netip NetipFacts IPNet Kube PolicyEval PolicyStores OwnedAddr.
From S2P Require Import OwnedKey AddressPlan RouteTypes Fib FibTables.

Open Scope Z_scope.

(** ** The outside world *)

(** Inner maps by number, the handles the daemon holds, the two outer maps,
    the tables the API server has answered with so far, and the record of all
    reads. *)
Record fstate := MkF {
  tries : gmap Z trie;
  open_maps : gset Z;
  vpc_outer : gmap Z Z;
  tgw_outer : gmap Z Z;
  seen : list RouteTable;
  tgw_seen : list TransitGatewayRouteTable;
  reads : list (entry fib_call);
}.

Definition fib_outer (l : layer) (s : fstate) : gmap Z Z :=
  match l with VpcLayer => vpc_outer s | TransitLayer => tgw_outer s end.
Definition set_outer (l : layer) (s : fstate) (m : gmap Z Z) : fstate :=
  match l with
  | VpcLayer => MkF (tries s) (open_maps s) m (tgw_outer s) (seen s) (tgw_seen s) (reads s)
  | TransitLayer => MkF (tries s) (open_maps s) (vpc_outer s) m (seen s) (tgw_seen s) (reads s)
  end.
Definition set_tries (s : fstate) x :=
  MkF x (open_maps s) (vpc_outer s) (tgw_outer s) (seen s) (tgw_seen s) (reads s).
Definition set_open (s : fstate) x := MkF (tries s) x (vpc_outer s) (tgw_outer s) (seen s) (tgw_seen s) (reads s).
Definition see (s : fstate) (r : result api_error RouteTable) :=
  match r with
  | Ok rt => MkF (tries s) (open_maps s) (vpc_outer s) (tgw_outer s) (seen s ++ [rt]) (tgw_seen s) (reads s)
  | Err _ => s
  end.
Definition see_tgw (s : fstate) (r : result api_error TransitGatewayRouteTable) :=
  match r with
  | Ok rt => MkF (tries s) (open_maps s) (vpc_outer s) (tgw_outer s) (seen s) (tgw_seen s ++ [rt]) (reads s)
  | Err _ => s
  end.
Definition note {R} (s : fstate) (e : fib_call R) (r : R) :=
  MkF (tries s) (open_maps s) (vpc_outer s) (tgw_outer s) (seen s) (tgw_seen s) (reads s ++ [Entry e r]).

(** The two layers as the packet programs find them. *)
Definition visible (l : layer) (s : fstate) : gmap Z trie := omap (fun h => tries s !! h) (fib_outer l s).

(** What a call may answer.  A call that fails has no effect, except that
    [close] gives up the handle; a write of a prefix longer than an address is
    refused.  The answers to reads of the API are arbitrary. *)
Definition fib_effect {R} (e : fib_call R) : fstate -> R -> fstate -> Prop :=
  match e in fib_call R return fstate -> R -> fstate -> Prop with
  | FibNewMap _ => fun s r s' => match r with
      | Ok h => tries s !! h = None /\ s' = set_open (set_tries s (<[h := ∅]> (tries s))) ({[h]} ∪ open_maps s)
      | Err _ => s' = s end
  | FibInnerUpdate h k v => fun s r s' => match r with
      | Ok _ => Prefixlen k <= 32 /\ s' = set_tries s (alter (<[lpm_prefix k := v]>) h (tries s))
      | Err _ => s' = s end
  | FibCloseMap h => fun s _ s' => s' = set_open s (open_maps s ∖ {[h]})
  | FibOuterUpdate l id h => fun s r s' => match r with
      | Ok _ => s' = set_outer l s (<[id := h]> (fib_outer l s)) | Err _ => s' = s end
  | FibOuterDelete l id => fun s r s' => match r with
      | Ok _ => s' = set_outer l s (delete id (fib_outer l s)) | Err _ => s' = s end
  | FibGetRouteTable n => fun s r s' => s' = note (see s r) (FibGetRouteTable n) r
  | FibGetTransitTable n => fun s r s' => s' = note (see_tgw s r) (FibGetTransitTable n) r
  | FibGetSubnet n => fun s r s' => s' = note s (FibGetSubnet n) r
  | FibGetL2Network n => fun s r s' => s' = note s (FibGetL2Network n) r
  | FibGetEndpoint ns n => fun s r s' => s' = note s (FibGetEndpoint ns n) r
  | FibGetNATGateway n => fun s r s' => s' = note s (FibGetNATGateway n) r
  | FibListRouteTables => fun s r s' => s' = note s FibListRouteTables r
  | FibListTransitTables => fun s r s' => s' = note s FibListTransitTables r
  end.

Definition fib_server : server fib_call fstate := fun R e => @fib_effect R e.

(** ** Whole tables *)

(** The prefix a destination stands for: its length and its first bits. *)
Definition dst_prefix (dst : string) : option prefix :=
  match ParseCIDR dst with
  | Some (ip, net) =>
      match Unmap ip with
      | Addr4 a => Some (net_Ones net, mask_val 32 (net_Ones net) a)
      | _ => None
      end
  | None => None
  end.

(** What one route adds to a table, given the values it may have: nothing when
    its destination does not parse or it has no value, else one entry. *)
Definition contributes (dst : string) (val : option FibVal -> Prop) (es : list (prefix * FibVal)) : Prop :=
  ParseCIDR dst = None /\ es = [] \/
  exists p, dst_prefix dst = Some p /\
  (val None /\ es = [] \/ exists v, val (Some v) /\ p.1 <= 32 /\ es = [(p, v)]).

(** A table filled from a list of routes, each adding its entries in turn. *)
Definition filled {R} (contrib : R -> list (prefix * FibVal) -> Prop) (routes : list R)
  (es : list (prefix * FibVal)) : Prop :=
  exists ess, Forall2 contrib routes ess /\ es = concat ess.

(** *** The value of a route

    As the API describes it, from the objects the route names, when they were
    read with the answers on the record [h]. *)

Definition drops : FibVal := MkFibVal fibRouteTypeBlackhole noMac noMac 0.

(** A Subnet was read: the segment of its VNI, and its gateway as the source. *)
Definition on_subnet (h : list (entry fib_call)) (name : string) (vni : Z) (smac : list Z) : Prop :=
  exists st, Entry (FibGetSubnet name) (Ok st) ∈ h /\ ss_VNI st = vni /\ macOf (ss_GatewayMAC st) = Some smac.

(** Reading a Subnet gave nothing usable: an error, or no gateway MAC. *)
Definition subnet_unusable (h : list (entry fib_call)) (name : string) : Prop :=
  exists r, Entry (FibGetSubnet name) r ∈ h /\ forall st, r = Ok st -> macOf (ss_GatewayMAC st) = None.

(** Reading an id gave an error or 0, which stands for not yet allocated. *)
Definition id_unusable (h : list (entry fib_call)) (e : fib_call (result api_error Z)) : Prop :=
  exists r, Entry e r ∈ h /\ forall id, r = Ok id -> id = 0.

(** A resolved endpoint route: frames for the MAC of the NetworkEndpoint the
    route names, from the gateway of its Subnet, in the segment of the Subnet. *)
Definition to_endpoint (h : list (entry fib_call)) (r : ResolvedRoute) (vni : Z) (dmac smac : list Z) : Prop :=
  on_subnet h (rr_Subnet r) vni smac /\
  exists ref mac, rr_NetworkEndpoint r = Some ref /\
  Entry (FibGetEndpoint (rne_Namespace ref) (rne_Name ref)) (Ok mac) ∈ h /\ macOf mac = Some dmac.

Definition resolves_to (h : list (entry fib_call)) (r : ResolvedRoute) (v : FibVal) : Prop :=
  match rv_Type (rr_Via r) with
  | ViaConnected =>
      if String.eqb (rr_L2Network r) ""
      then exists vni smac, on_subnet h (rr_Subnet r) vni smac /\ v = MkFibVal fibRouteTypeConnected noMac smac vni
      else exists vni, Entry (FibGetL2Network (rr_L2Network r)) (Ok vni) ∈ h /\ vni <> 0 /\
             v = MkFibVal fibRouteTypeL2Gateway noMac noMac vni
  | ViaVpcPeering =>
      exists vni smac, on_subnet h (rr_Subnet r) vni smac /\ v = MkFibVal fibRouteTypePeering noMac smac vni
  | ViaEndpoint =>
      exists vni dmac smac, to_endpoint h r vni dmac smac /\ v = MkFibVal fibRouteTypeEndpoint dmac smac vni
  | ViaNATGateway =>
      exists id, Entry (FibGetNATGateway (rv_NATGateway (rr_Via r))) (Ok id) ∈ h /\ id <> 0 /\
        v = MkFibVal fibRouteTypeNAPT noMac noMac id
  | ViaTransitGateway =>
      exists rt, Entry (FibGetTransitTable (rr_TransitGatewayRouteTable r)) (Ok rt) ∈ h /\
        tgs_TableID (tgrt_status rt) <> 0 /\
        v = MkFibVal fibRouteTypeTransit noMac noMac (tgs_TableID (tgrt_status rt))
  | ViaInternetGateway => v = MkFibVal fibRouteTypeInternetGateway noMac noMac 0
  | ViaService => v = MkFibVal fibRouteTypeService noMac noMac 0
  | ViaVpcEndpoint => v = MkFibVal fibRouteTypeVpcEndpoint noMac noMac 0
  | ViaBlackhole => v = drops
  | ViaUnknown _ => False
  end.

(** The objects a route names were read and do not give it a value. *)
Definition unresolved (h : list (entry fib_call)) (r : ResolvedRoute) : Prop :=
  match rv_Type (rr_Via r) with
  | ViaConnected =>
      if String.eqb (rr_L2Network r) "" then subnet_unusable h (rr_Subnet r)
      else id_unusable h (FibGetL2Network (rr_L2Network r))
  | ViaVpcPeering => subnet_unusable h (rr_Subnet r)
  | ViaEndpoint =>
      match rr_NetworkEndpoint r with
      | None => True
      | Some ref => subnet_unusable h (rr_Subnet r) \/
          exists a, Entry (FibGetEndpoint (rne_Namespace ref) (rne_Name ref)) a ∈ h /\
            forall mac, a = Ok mac -> macOf mac = None
      end
  | ViaNATGateway => id_unusable h (FibGetNATGateway (rv_NATGateway (rr_Via r)))
  | ViaTransitGateway =>
      exists a, Entry (FibGetTransitTable (rr_TransitGatewayRouteTable r)) a ∈ h /\
        forall rt, a = Ok rt -> tgs_TableID (tgrt_status rt) = 0
  | ViaUnknown _ => True
  | _ => False
  end.

(** The value of a route in the table: a blackhole drops; a route that
    resolves has its value; one that does not is left out, but an endpoint
    route drops instead. *)
Definition route_value (h : list (entry fib_call)) (r : ResolvedRoute) (v : option FibVal) : Prop :=
  if bool_decide (rr_State r = RouteStateBlackhole) then v = Some drops
  else match v with
       | Some x => resolves_to h r x \/ rv_Type (rr_Via r) = ViaEndpoint /\ unresolved h r /\ x = drops
       | None => rv_Type (rr_Via r) <> ViaEndpoint /\ unresolved h r
       end.

Definition transit_value (h : list (entry fib_call)) (r : ResolvedTransitGatewayRoute) (v : option FibVal) : Prop :=
  if rtg_Blackhole r then v = Some drops
  else match v with
       | Some x => exists vni smac, on_subnet h (rtg_Subnet r) vni smac /\ x = MkFibVal fibRouteTypeConnected noMac smac vni
       | None => subnet_unusable h (rtg_Subnet r)
       end.

Definition vpc_contrib (h : list (entry fib_call)) (r : ResolvedRoute) : list (prefix * FibVal) -> Prop :=
  contributes (rr_Dst r) (route_value h r).
Definition tgw_contrib (h : list (entry fib_call)) (r : ResolvedTransitGatewayRoute) : list (prefix * FibVal) -> Prop :=
  contributes (rtg_Dst r) (transit_value h r).

Lemma ParseCIDR_ones dst ip net : ParseCIDR dst = Some (ip, net) -> Addr_wf ip /\ 0 <= net_Ones net.
Proof.
  unfold ParseCIDR. intros Hp. split_match_in Hp. split; [by eapply ParseAddr_wf|by eapply dtoi_nonneg].
Qed.

(** The key the code writes is the prefix of the destination. *)
Lemma fibKey_prefix dst k : fibKey dst = Some (Ok k) -> dst_prefix dst = Some (lpm_prefix k).
Proof.
  unfold fibKey, dst_prefix, IPv4ToBPFNetworkOrder. destruct (ParseCIDR dst) as [[ip net]|] eqn:Hp; [|done].
  destruct (ParseCIDR_ones _ _ _ Hp) as [Hw _]. destruct (Unmap ip) as [|a|] eqn:Hu; [done| |done]. intros [= <-].
  unfold lpm_prefix. cbn. rewrite htonl_involutive; [done|].
  revert Hw Hu. unfold Unmap, Addr_wf. destruct ip as [|v|v z]; [done|by intros ? [= <-]|].
  destruct (Is4In6 _); [|done]. intros _ [= <-]. apply Z.mod_pos_bound. lia.
Qed.

Lemma fibKey_None dst : fibKey dst = None -> ParseCIDR dst = None.
Proof. unfold fibKey. by destruct (ParseCIDR dst) as [[ip net]|]. Qed.

Lemma contributes_mono dst (val val' : option FibVal -> Prop) es :
  (forall v, val v -> val' v) -> contributes dst val es -> contributes dst val' es.
Proof. intros Hv [?|(p & Hp & [[? ?]|(v & ? & ? & ?)])]; [by left|right; exists p..]; split; eauto 6. Qed.

Lemma contributes_ok dst val es : contributes dst val es -> Forall (fun e => prefix_ok e.1) es.
Proof.
  intros [[_ ->]|(p & Hp & [[_ ->]|(v & _ & Hl & ->)])]; [done|done|]. repeat constructor; [|done]. cbn.
  revert Hp. unfold dst_prefix. destruct (ParseCIDR dst) as [[ip net]|] eqn:Hc; [|done].
  destruct (Unmap ip); [done| |done]. intros [= <-]. cbn. by eapply ParseCIDR_ones.
Qed.

Lemma contributes_entry dst val es e : contributes dst val es -> e ∈ es -> dst_prefix dst = Some e.1 /\ val (Some e.2).
Proof.
  intros [[_ ->]|(p & Hp & [[_ ->]|(v & Hv & _ & ->)])] He; [by apply elem_of_nil in He..|].
  by apply list_elem_of_singleton in He as ->.
Qed.

Lemma route_value_mono h h' r v : h ⊆ h' -> route_value h r v -> route_value h' r v.
Proof.
  intros Hh. unfold route_value. case_bool_decide; [done|].
  assert (Hon : forall n vni smac, on_subnet h n vni smac -> on_subnet h' n vni smac).
  { intros n vni smac (st & ? & ?). exists st. auto. }
  assert (Hun : unresolved h r -> unresolved h' r).
  { assert (Hx : forall R (e : fib_call R) (Q : R -> Prop), (exists a, Entry e a ∈ h /\ Q a) -> exists a, Entry e a ∈ h' /\ Q a).
    { intros R e Q (a & ? & ?). exists a. auto. }
    unfold unresolved. destruct (rv_Type (rr_Via r)); try done; try apply Hx.
    - destruct (String.eqb _ _); apply Hx.
    - destruct (rr_NetworkEndpoint r); [|done]. intros [Hu|Hu]; [left|right]; revert Hu; apply Hx. }
  destruct v as [x|]; [|by intros [? ?]; auto]. intros [Hr|(? & ? & ?)]; [left|by right; auto]. revert Hr.
  unfold resolves_to, to_endpoint. destruct (rv_Type (rr_Via r)); try done; try (destruct (String.eqb (rr_L2Network r) "")).
  all: try (intros (id & ? & ?); exists id; by auto).
  all: try (intros (vni & smac & ? & ->); exists vni, smac; by auto).
  all: intros (vni & dmac & smac & (? & ref & mac & ? & ? & ?) & ->); exists vni, dmac, smac;
    split; [split; [by auto|exists ref, mac; auto]|done].
Qed.

Lemma transit_value_mono h h' r v : h ⊆ h' -> transit_value h r v -> transit_value h' r v.
Proof.
  intros Hh. unfold transit_value. destruct (rtg_Blackhole r); [done|]. destruct v as [x|].
  - intros (vni & smac & (st & ? & ?) & ?). exists vni, smac. split; [|done]. exists st. auto.
  - intros (a & ? & ?). exists a. auto.
Qed.

Lemma filled_mono {R} (contrib contrib' : R -> _ -> Prop) routes es :
  (forall r es, contrib r es -> contrib' r es) -> filled contrib routes es -> filled contrib' routes es.
Proof. intros Hc (ess & Hf & ->). exists ess. split; [|done]. by eapply Forall2_impl. Qed.

Lemma filled_snoc {R} (contrib : R -> _ -> Prop) routes es r es1 :
  filled contrib routes es -> contrib r es1 -> filled contrib (routes ++ [r]) (es ++ es1).
Proof.
  intros (ess & Hf & ->) Hr. exists (ess ++ [es1]). split; [by apply Forall2_app; [|constructor]|].
  rewrite concat_app. cbn. by rewrite app_nil_r.
Qed.

Lemma filled_ok {R} (dst : R -> string) (val : R -> option FibVal -> Prop) routes es :
  filled (fun r => contributes (dst r) (val r)) routes es -> Forall (fun e => prefix_ok e.1) es.
Proof.
  intros (ess & Hf & ->). apply Forall_concat. induction Hf; constructor; [by eapply contributes_ok|done].
Qed.

Lemma vpc_filled_ok h routes es : filled (vpc_contrib h) routes es -> Forall (fun e => prefix_ok e.1) es.
Proof. apply (filled_ok rr_Dst (route_value h)). Qed.

Lemma tgw_filled_ok h routes es : filled (tgw_contrib h) routes es -> Forall (fun e => prefix_ok e.1) es.
Proof. apply (filled_ok rtg_Dst (transit_value h)). Qed.

(** An entry of a table comes from one of its routes. *)
Lemma filled_entry {R} (contrib : R -> _ -> Prop) routes es e :
  filled contrib routes es -> e ∈ es -> exists r es1, r ∈ routes /\ contrib r es1 /\ e ∈ es1.
Proof.
  intros (ess & Hf & ->) He. apply list_elem_of_In, in_concat in He as (es1 & Hes1 & He).
  apply list_elem_of_In in Hes1, He. destruct (Forall2_elem_of_r _ _ _ _ Hf Hes1) as (r & ? & ?). eauto.
Qed.

(** A route of a table that contributes something has its entries there. *)
Lemma filled_route {R} (contrib : R -> _ -> Prop) routes es r :
  filled contrib routes es -> r ∈ routes -> exists es1, contrib r es1 /\ forall e, e ∈ es1 -> e ∈ es.
Proof.
  intros (ess & Hf & ->) Hr. destruct (Forall2_elem_of_l _ _ _ _ Hf Hr) as (es1 & Hin & Hc).
  exists es1. split; [done|]. intros e He. apply list_elem_of_In, in_concat. exists es1.
  by split; apply list_elem_of_In.
Qed.

(** ** The invariant *)

Definition whole (l : layer) (id : Z) (t : trie) (s : fstate) : Prop :=
  match l with
  | VpcLayer => exists rt es, rt ∈ seen s /\ rts_TableID (rtb_status rt) = id /\
                  filled (vpc_contrib (reads s)) (rts_Routes (rtb_status rt)) es /\ t = image es
  | TransitLayer => exists rt es, rt ∈ tgw_seen s /\ tgs_TableID (tgrt_status rt) = id /\ id <> 0 /\
                  filled (tgw_contrib (reads s)) (tgs_Routes (tgrt_status rt)) es /\ t = image es
  end.

Definition Inv (s : fstate) : Prop :=
  forall l id h, fib_outer l s !! id = Some h -> exists t, tries s !! h = Some t /\ whole l id t s.

(** An inner map that no packet can reach. *)
Definition unpublished (h : Z) (s : fstate) : Prop := forall l id, fib_outer l s !! id <> Some h.

(** A step that changes no map, only what has been read. *)
Definition only_read (s s' : fstate) : Prop :=
  tries s' = tries s /\ open_maps s' = open_maps s /\ (forall l, fib_outer l s' = fib_outer l s) /\
  seen s ⊆ seen s' /\ tgw_seen s ⊆ tgw_seen s' /\ reads s ⊆ reads s'.

#[global] Instance only_read_refl : Reflexive only_read.
Proof. by intros s; repeat split. Qed.
#[global] Instance only_read_trans : Transitive only_read.
Proof.
  intros s1 s2 s3 (A1 & A2 & A3 & A4 & A5 & A6) (B1 & B2 & B3 & B4 & B5 & B6).
  split_and!; [congruence|congruence|intros l; by rewrite B3, A3|set_solver..].
Qed.

Lemma whole_mono l id t s s' :
  seen s ⊆ seen s' -> tgw_seen s ⊆ tgw_seen s' -> reads s ⊆ reads s' -> whole l id t s -> whole l id t s'.
Proof.
  intros H1 H2 H3. destruct l; cbn.
  - intros (rt & es & Hin & ? & Hf & ?). exists rt, es. split_and!; [by apply H1|done| |done].
    eapply filled_mono; [|exact Hf]. intros r es'. apply contributes_mono. intros v. by apply route_value_mono.
  - intros (rt & es & Hin & ? & ? & Hf & ?). exists rt, es. split_and!; [by apply H2|done|done| |done].
    eapply filled_mono; [|exact Hf]. intros r es'. apply contributes_mono. intros v. by apply transit_value_mono.
Qed.

Lemma Inv_read s s' : only_read s s' -> Inv s -> Inv s'.
Proof.
  intros (Ht & _ & Ho & Hs & Hg & Hr) HI l id h Hl. rewrite Ho in Hl. destruct (HI l id h Hl) as (t & Hh & Hw).
  exists t. rewrite Ht. split; [done|]. by eapply whole_mono.
Qed.

(** Changing an unpublished inner map is not seen. *)
Lemma Inv_unpublished s h t' o :
  unpublished h s -> Inv s -> Inv (set_open (set_tries s (<[h := t']> (tries s))) o).
Proof.
  intros Hu HI l id h' Hl. replace (fib_outer l _) with (fib_outer l s) in Hl by (by destruct l).
  destruct (HI l id h' Hl) as (t & Ht & Hw). exists t. split; [|by destruct l].
  cbn. rewrite lookup_insert_ne; [done|]. intros ->. by eapply Hu.
Qed.

Lemma Inv_open s o : Inv s -> Inv (set_open s o).
Proof. intros HI [] id h Hl; (destruct (HI VpcLayer id h Hl) || destruct (HI TransitLayer id h Hl)); eauto. Qed.

Lemma unpublished_fresh s h : Inv s -> tries s !! h = None -> unpublished h s.
Proof. intros HI Hn l id Hl. destruct (HI l id h Hl) as (t & Ht & _). congruence. Qed.

Definition is_read R (e : fib_call R) : Prop :=
  match e with
  | FibGetRouteTable _ | FibGetTransitTable _ | FibGetSubnet _ | FibGetL2Network _ | FibGetEndpoint _ _
  | FibGetNATGateway _ | FibListRouteTables | FibListTransitTables => True
  | _ => False
  end.

Lemma note_read {R} s s1 (e : fib_call R) r :
  tries s1 = tries s -> open_maps s1 = open_maps s -> (forall l, fib_outer l s1 = fib_outer l s) ->
  seen s ⊆ seen s1 -> tgw_seen s ⊆ tgw_seen s1 -> reads s1 = reads s ->
  only_read s (note s1 e r) /\ Entry e r ∈ reads (note s1 e r).
Proof.
  intros H1 H2 H3 H4 H5 H6. split; [|cbn; apply elem_of_app; right; by constructor].
  split_and!; [done|done|by intros []; rewrite <- H3|done|done|].
  cbn. rewrite H6. intros x Hx. apply elem_of_app. by left.
Qed.

Lemma read_step R (e : fib_call R) s r s' :
  is_read R e -> fib_server R e s r s' -> only_read s s' /\ Entry e r ∈ reads s'.
Proof.
  destruct e; try done; cbn; intros _ ->; apply note_read; try done; destruct r as [rt|]; try done; try (by intros []);
    cbn; set_solver.
Qed.

(** Running reads: the maps stay, the result is what the record says. *)
Lemma wpi_reads {A} (p : prog fib_call A) s :
  only is_read p -> Inv s -> wpi fib_server Inv p (fun a s' => answered (reads s') p a /\ only_read s s') s.
Proof.
  intros Hp HI. apply (wpi_answered _ is_read); [done|apply _|apply _| | |].
  - intros. by eapply read_step.
  - by intros ? ? (_ & _ & _ & _ & _ & ?).
  - intros s' Hr. by eapply Inv_read.
Qed.

(** ** Filling a table *)

(** [h] is the map being filled: unpublished, with these entries so far, and
    the reads since [s0] only grew. *)
Definition filling (s0 : fstate) (h : Z) (es : list (prefix * FibVal)) (s : fstate) : Prop :=
  Inv s /\ unpublished h s /\ tries s !! h = Some (image es) /\
  seen s0 ⊆ seen s /\ tgw_seen s0 ⊆ tgw_seen s.

Lemma filling_read s0 h es s s' : only_read s s' -> filling s0 h es s -> filling s0 h es s'.
Proof.
  intros Hr (HI & Hu & Ht & H1 & H2). pose proof Hr as (Et & _ & Eo & E1 & E2 & _).
  split_and!; [by eapply Inv_read| |by rewrite Et|set_solver|set_solver].
  intros l id. rewrite Eo. apply Hu.
Qed.

Lemma filling_write s0 h es s k v :
  filling s0 h es s -> filling s0 h (es ++ [(lpm_prefix k, v)]) (set_tries s (alter (<[lpm_prefix k := v]>) h (tries s))).
Proof.
  intros (HI & Hu & Ht & H1 & H2).
  assert (Ha : alter (<[lpm_prefix k := v]>) h (tries s) = <[h := <[lpm_prefix k := v]> (image es)]> (tries s)).
  { apply map_eq. intros i. destruct (decide (i = h)) as [->|Hne].
    - by rewrite lookup_alter_eq, lookup_insert_eq, Ht.
    - by rewrite lookup_alter_ne, lookup_insert_ne. }
  split_and!; [| |cbn; by rewrite lookup_alter_eq, Ht, image_snoc|done|done].
  - rewrite Ha. by apply (Inv_unpublished s h _ (open_maps s)).
  - intros l id. replace (fib_outer l _) with (fib_outer l s) by (by destruct l). apply Hu.
Qed.

(** The body of both [populateRoute]s. *)
Definition populate (h : Z) (dst : string) (val : prog fib_call (option FibVal)) : prog fib_call (result fib_error unit) :=
  match fibKey dst with
  | None => Ret (Ok tt)
  | Some (Err e) => Ret (Err e)
  | Some (Ok key) => v <- val ;; installRoute h dst key v
  end.

Lemma populate_spec s0 h es dst val s :
  only is_read val -> filling s0 h es s ->
  wpi fib_server Inv (populate h dst val) (fun r s' => reads s ⊆ reads s' /\ match r with
    | Ok _ => exists es1, contributes dst (answered (reads s') val) es1 /\ filling s0 h (es ++ es1) s'
    | Err _ => exists es1, filling s0 h es1 s'
    end) s.
Proof.
  intros Hv Hf. pose proof Hf as (HI & _). unfold populate, contributes.
  destruct (fibKey dst) as [[k|e]|] eqn:Hk.
  - apply fibKey_prefix in Hk. apply wpi_bind. eapply wpi_mono; [by apply wpi_reads|].
    intros [v|] s1 _ [Hpos Hr]; pose proof Hr as (_ & _ & _ & _ & _ & Hrd); cbn;
      pose proof (filling_read _ _ _ _ _ Hr Hf) as Hf1; pose proof Hf1 as (HI1 & _); (split; [done|]).
    + intros [[]|e] s2; cbn.
      * intros [Hl ->]. pose proof (filling_write _ _ _ _ k v Hf1) as Hf2. pose proof Hf2 as (HI2 & _).
        split; [done|]. split; [done|]. exists [(lpm_prefix k, v)]. split; [|done].
        right. exists (lpm_prefix k). split; [done|]. right. by exists v.
      * intros ->. split; [done|]. split; [done|]. by exists es.
    + split; [done|]. exists []. rewrite app_nil_r. split; [|done]. right. exists (lpm_prefix k). split; [done|]. by left.
  - split; [done|]. split; [done|]. by exists es.
  - apply fibKey_None in Hk. split; [done|]. split; [done|]. exists []. rewrite app_nil_r. split; [by left|done].
Qed.

(** ** Publishing *)

(** The table under an id after a successful publication. *)
Definition published {R} (contrib : list (entry fib_call) -> R -> list (prefix * FibVal) -> Prop) (l : layer) (id : Z) (routes : list R) (s : fstate) : Prop :=
  exists es, filled (contrib (reads s)) routes es /\ visible l s !! id = Some (image es).

Lemma visible_Some l s id t :
  visible l s !! id = Some t <-> exists h, fib_outer l s !! id = Some h /\ tries s !! h = Some t.
Proof.
  unfold visible. rewrite lookup_omap. destruct (fib_outer l s !! id) as [h|] eqn:Ho; cbn.
  - split; [by exists h|]. by intros (h' & [= <-] & ?).
  - split; [done|]. by intros (h' & ? & _).
Qed.

Lemma fib_outer_set l l' s m : fib_outer l (set_outer l' s m) = if decide (l = l') then m else fib_outer l s.
Proof. by destruct l, l'. Qed.

Lemma set_outer_others l s m : tries (set_outer l s m) = tries s /\ seen (set_outer l s m) = seen s /\
  tgw_seen (set_outer l s m) = tgw_seen s /\ reads (set_outer l s m) = reads s.
Proof. by destruct l. Qed.

Lemma Inv_set_outer l s m :
  Inv s ->
  (forall id h, m !! id = Some h -> exists t, tries s !! h = Some t /\ whole l id t s) ->
  Inv (set_outer l s m).
Proof.
  intros HI Hm l' id h. rewrite fib_outer_set. destruct (set_outer_others l s m) as (Ht & Hs & Hg & Hr).
  assert (Hw : forall t, whole l' id t s -> whole l' id t (set_outer l s m)).
  { intros t. apply whole_mono; [by rewrite Hs|by rewrite Hg|by rewrite Hr]. }
  rewrite Ht. case_decide as Hl; [subst l'; intros Hh; destruct (Hm id h Hh) as (t & ? & ?); eauto|].
  intros Hh. destruct (HI l' id h Hh) as (t & ? & ?). eauto.
Qed.

Lemma publish_Inv s0 h es s l id :
  filling s0 h es s -> whole l id (image es) s -> Inv (set_outer l s (<[id := h]> (fib_outer l s))).
Proof.
  intros (HI & _ & Ht & _) Hw. apply Inv_set_outer; [done|]. intros id' h' Hl.
  destruct (decide (id' = id)) as [->|Hne].
  - rewrite lookup_insert_eq in Hl. injection Hl as <-. by exists (image es).
  - rewrite lookup_insert_ne in Hl by done. by apply HI.
Qed.

Lemma unpublish_Inv s l id : Inv s -> Inv (set_outer l s (delete id (fib_outer l s))).
Proof. intros HI. apply Inv_set_outer; [done|]. intros id' h' [_ Hl]%lookup_delete_Some. by apply HI. Qed.

(** Dropping what the table had before: neither the invariant nor the table
    just published is touched. *)
Lemma drop_old_spec l id t oldID oldH (b : bool) s (res : result fib_error unit * snapshots) :
  Inv s -> visible l s !! id = Some t -> b = (oldID =? id) ->
  wpi fib_server Inv (_ <- (if b then Ret (Ok tt) else call (FibOuterDelete l oldID)) ;; _ <- call (FibCloseMap oldH) ;; Ret res)
    (fun r s' => r = res /\ visible l s' !! id = Some t /\ reads s' = reads s) s.
Proof.
  intros HI Hv ->.
  assert (Hclose : forall s1, Inv s1 -> visible l s1 !! id = Some t -> reads s1 = reads s ->
    wpi fib_server Inv (_ <- call (FibCloseMap oldH) ;; Ret res)
      (fun r s' => r = res /\ visible l s' !! id = Some t /\ reads s' = reads s) s1).
  { intros s1 HI1 Hv1 Hr1. split; [done|]. intros r s2 ->. split; [by apply Inv_open|]. split; [done|]. split; [|done].
    revert Hv1. rewrite !visible_Some. by destruct l. }
  destruct (oldID =? id) eqn:Heq; cbn [bind call]; [by apply Hclose|]. to_prop. split; [done|].
  destruct (set_outer_others l s (delete oldID (fib_outer l s))) as (Et & _ & _ & Er).
  intros r s1. cbn. destruct r as [[]|]; intros ->; [|by apply Hclose].
  apply Hclose; [by apply unpublish_Inv| |done]. revert Hv. rewrite !visible_Some.
  rewrite fib_outer_set, decide_True by done. rewrite lookup_delete_ne by done. by rewrite Et.
Qed.

(** Both [upsert]s, for any description [spec] of the values that what the
    record answers to [val] fits. *)
Lemma publishFib_spec {R} l name id (routes : list R) (dst : R -> string) (val : R -> prog fib_call (option FibVal))
    (spec : list (entry fib_call) -> R -> option FibVal -> Prop) snaps s :
  (forall r, only is_read (val r)) -> Inv s ->
  (forall h r v, answered h (val r) v -> spec h r v) ->
  (forall h h' r v, h ⊆ h' -> spec h r v -> spec h' r v) ->
  (forall es s', seen s ⊆ seen s' -> tgw_seen s ⊆ tgw_seen s' ->
    filled (fun r => contributes (dst r) (spec (reads s') r)) routes es -> whole l id (image es) s') ->
  wpi fib_server Inv (publishFib l name id routes (fun h r => populate h (dst r) (val r)) snaps)
    (fun r s' => r.1 = Ok tt -> published (fun h r => contributes (dst r) (spec h r)) l id routes s') s.
Proof.
  intros Hval HI Hspec Hmono Hwhole. unfold publishFib. split; [done|]. intros [h|e] s1; cbn; [|by intros ->].
  intros [Hn ->].
  assert (Hf0 : filling s h [] (set_open (set_tries s (<[h := ∅]> (tries s))) ({[h]} ∪ open_maps s))).
  { pose proof (unpublished_fresh s h HI Hn) as Hu. split_and!; [by apply Inv_unpublished| |cbn; by rewrite lookup_insert_eq|done|done].
    intros l' id'. destruct l'; apply (Hu VpcLayer) || apply (Hu TransitLayer). }
  set (s1 := set_open _ _) in *. apply wpi_bind.
  apply (wpi_forTryP _ _ _ _ _ (fun pre _ s' => exists es,
    filled (fun r => contributes (dst r) (spec (reads s') r)) pre es /\ filling s h es s')).
  - exists []. split; [by exists []|done].
  - intros pre _ s' (es & _ & HI' & _). done.
  - intros pre r post _ s2 _ (es & Hes & Hf). eapply wpi_mono; [by apply (populate_spec s h es)|].
    intros [[]|e] s3 HI3; cbn; intros [Hrd Hp].
    + destruct Hp as (es1 & Hc & Hf1). exists (es ++ es1). split; [|done]. apply filled_snoc.
      * eapply filled_mono; [|exact Hes]. intros r' es'. apply contributes_mono. intros v. by apply Hmono.
      * eapply contributes_mono; [|exact Hc]. apply Hspec.
    + destruct Hp as (es1 & Hf1). split; [done|]. intros r1 s4 ->. split; [by apply Inv_open|done].
  - intros _ s2 (es & Hes & Hf). pose proof Hf as (HI2 & Hu & Ht & H1 & H2). cbn. split; [done|].
    intros [[]|e] s3; cbn.
    + intros ->. pose proof (Hwhole es s2 H1 H2 Hes) as Hw. pose proof (publish_Inv _ _ _ _ _ _ Hf Hw) as HI3.
      destruct (set_outer_others l s2 (<[id := h]> (fib_outer l s2))) as (Et & _ & _ & Er).
      set (s3 := set_outer _ _ _) in *.
      assert (Hv : visible l s3 !! id = Some (image es)).
      { apply visible_Some. exists h. unfold s3. rewrite fib_outer_set, decide_True, lookup_insert_eq by done.
        split; [done|]. fold s3. by rewrite Et. }
      assert (Hpub : forall s4, visible l s4 !! id = Some (image es) -> reads s4 = reads s3 ->
        published (fun h r => contributes (dst r) (spec h r)) l id routes s4).
      { intros s4 Hv4 Hr4. exists es. rewrite Hr4, Er. by split. }
      destruct (snaps !! name) as [[oldID oldH]|].
      * eapply wpi_mono; [by apply (drop_old_spec l id (image es) oldID oldH (oldID =? id))|].
        intros r s4 _ (-> & Hv' & Hr') _. by apply Hpub.
      * split; [done|]. intros _. by apply Hpub.
    + intros ->. split; [done|]. intros r1 s4 ->. split; [by apply Inv_open|done].
Qed.

Lemma deleteFib_spec l name snaps s :
  Inv s -> wpi fib_server Inv (deleteFib l name snaps) (fun _ _ => True) s.
Proof.
  intros HI. unfold deleteFib. destruct (snaps !! name) as [[oldID oldH]|]; [|by split].
  split; [done|]. intros r s1 Hs.
  assert (HI1 : Inv s1) by (destruct r as [[]|e]; cbn in Hs; subst; [by apply unpublish_Inv|done]).
  cbn [bind]. destruct (ignoreMissing r) as [[]|e]; cbn; (split; [done|]); [|done].
  intros r2 s2 ->. split; [by apply Inv_open|done].
Qed.

(** ** The operations *)

Lemma orError_reads {A B} (r : result api_error A) (k : A -> prog fib_call (option (option B))) :
  (forall a, only is_read (k a)) -> only is_read (orError r k).
Proof. intros Hk. destruct r; [apply Hk|done]. Qed.

Lemma fibValFor_reads route : only is_read (fibValFor route).
Proof.
  unfold fibValFor. apply only_bind; [|by intros [v|]]. unfold fib_buildFibVal.
  case_bool_decide; [done|]. destruct (rv_Type (rr_Via route)); try done.
  - destruct (negb _); (split; [done|]); intros r; by apply orError_reads.
  - destruct (rr_NetworkEndpoint route) as [ref|]; [|done]. split; [done|]. intros r. apply orError_reads.
    intros subnet. split; [done|]. intros r'. by apply orError_reads.
  - split; [done|]. intros r. by apply orError_reads.
  - split; [done|]. intros r. by apply orError_reads.
  - split; [done|]. intros r. by apply orError_reads.
Qed.

Lemma tgw_buildFibVal_reads route : only is_read (tgw_buildFibVal route).
Proof. unfold tgw_buildFibVal. destruct (rtg_Blackhole route); [done|]. split; [done|]. by intros [?|?]. Qed.

(** The values the reconcilers compute are the ones the API describes. *)
Lemma orError_answered {A B} h (e : fib_call (result api_error A)) (k : A -> prog fib_call (option (option B))) x :
  answered h (r <- call e ;; orError r k) x ->
  (exists err, Entry e (Err err) ∈ h /\ x = None) \/ exists a, Entry e (Ok a) ∈ h /\ answered h (k a) x.
Proof. intros ([a|err] & Hin & Hk); [right|left]; eauto. Qed.

Lemma subnet_answered h name (t : Z) x :
  answered h (r <- call (FibGetSubnet name) ;; orError r (fun subnet => Ret (Some <$> buildSubnetFibVal subnet t))) x ->
  match x with
  | Some v => exists vni smac, on_subnet h name vni smac /\ v = Some (MkFibVal t noMac smac vni)
  | None => subnet_unusable h name
  end.
Proof.
  intros [(err & Hin & ->)|(st & Hin & Hx)]%orError_answered; [by exists (Err err)|]. cbn in Hx. subst x.
  unfold buildSubnetFibVal. destruct (macOf (ss_GatewayMAC st)) as [smac|] eqn:Hm; cbn.
  - exists (ss_VNI st), smac. split; [|done]. by exists st.
  - exists (Ok st). split; [done|]. by intros st' [= <-].
Qed.

Lemma id_answered h (e : fib_call (result api_error Z)) (t : Z) x :
  answered h (r <- call e ;; orError r (fun id => Ret (Some (nonZero id (MkFibVal t noMac noMac id))))) x ->
  match x with
  | Some (Some v) => exists id, Entry e (Ok id) ∈ h /\ id <> 0 /\ v = MkFibVal t noMac noMac id
  | _ => id_unusable h e
  end.
Proof.
  intros [(err & Hin & ->)|(id & Hin & Hx)]%orError_answered; [by exists (Err err)|]. cbn in Hx. subst x.
  unfold nonZero. destruct (id =? 0) eqn:H0; to_prop; [|by exists id]. exists (Ok id). split; [done|]. by intros id' [= <-].
Qed.

Lemma endpoint_answered h r x :
  rv_Type (rr_Via r) = ViaEndpoint -> rr_State r <> RouteStateBlackhole -> answered h (fib_buildFibVal r) x ->
  match x with
  | Some v => exists y, v = Some y /\ resolves_to h r y
  | None => unresolved h r
  end.
Proof.
  intros Ht Hs. unfold fib_buildFibVal, resolves_to, unresolved. rewrite bool_decide_eq_false_2 by done. rewrite Ht.
  destruct (rr_NetworkEndpoint r) as [ref|] eqn:Hn; [|by intros ->].
  intros [(err & Hin & ->)|(st & Hin & Hx)]%orError_answered; [left; by exists (Err err)|].
  apply orError_answered in Hx as [(err & Hin2 & ->)|(mac & Hin2 & Hx)]; [right; by exists (Err err)|].
  cbn in Hx. subst x. unfold buildEndpointFibVal. destruct (macOf mac) as [dmac|] eqn:Hd; cbn.
  2: { right. exists (Ok mac). split; [done|]. by intros m [= <-]. }
  destruct (macOf (ss_GatewayMAC st)) as [smac|] eqn:Hm; cbn.
  - eexists. split; [done|]. exists (ss_VNI st), dmac, smac. split; [|done]. split; [by exists st|]. rewrite Hn. eauto.
  - left. exists (Ok st). split; [done|]. by intros st' [= <-].
Qed.

Lemma fibValFor_value h r v : answered h (fibValFor r) v -> route_value h r v.
Proof.
  unfold fibValFor. intros (x & Hx & Hv)%answered_bind. unfold route_value.
  destruct (bool_decide_reflect (rr_State r = RouteStateBlackhole)) as [Hs|Hs].
  { unfold fib_buildFibVal in Hx. rewrite bool_decide_eq_true_2 in Hx by done.
    cbn in Hx. subst x. exact Hv. }
  destruct (decide (rv_Type (rr_Via r) = ViaEndpoint)) as [Ht|Ht].
  { pose proof (endpoint_answered h r x Ht Hs Hx) as He. destruct x as [x|]; cbn in Hv; subst v.
    - destruct He as (y & -> & Hy). by left.
    - rewrite bool_decide_eq_true_2 by done. by right. }
  rewrite bool_decide_eq_false_2 in Hv by done. unfold fib_buildFibVal in Hx. rewrite bool_decide_eq_false_2 in Hx by done.
  unfold resolves_to, unresolved. destruct (rv_Type (rr_Via r)) eqn:Hty; try done;
    try (cbn in Hx; subst x; cbn in Hv; subst v; by (left || split)).
  - destruct (String.eqb (rr_L2Network r) ""); cbn [negb] in Hx.
    + apply subnet_answered in Hx. destruct x as [x|]; cbn in Hv; subst v; [|done].
      destruct Hx as (vni & smac & ? & ->). left. eauto.
    + apply id_answered in Hx. destruct x as [[x|]|]; cbn in Hv; subst v; [|done..]. by left.
  - apply id_answered in Hx. destruct x as [[x|]|]; cbn in Hv; subst v; [|done..]. by left.
  - apply subnet_answered in Hx. destruct x as [x|]; cbn in Hv; subst v; [|done].
    destruct Hx as (vni & smac & ? & ->). left. eauto.
  - apply orError_answered in Hx as [(err & Hin & ->)|(rt & Hin & Hx)]; cbn in Hv.
    + subst v. split; [done|]. by exists (Err err).
    + cbn in Hx. subst x. cbn in Hv. subst v. unfold nonZero. destruct (_ =? 0) eqn:H0; to_prop; [|left; eauto].
      split; [done|]. exists (Ok rt). split; [done|]. by intros rt' [= <-].
Qed.

Lemma tgw_buildFibVal_value h r v : answered h (tgw_buildFibVal r) v -> transit_value h r v.
Proof.
  unfold tgw_buildFibVal, transit_value. destruct (rtg_Blackhole r); [by intros ->|]. intros ([st|err] & Hin & Hv); cbn in Hv; subst v.
  - unfold buildConnectedFibVal, buildSubnetFibVal. destruct (macOf (ss_GatewayMAC st)) as [smac|] eqn:Hm; cbn.
    + exists (ss_VNI st), smac. split; [|done]. by exists st.
    + exists (Ok st). split; [done|]. by intros st' [= <-].
  - by exists (Err err).
Qed.

Lemma fib_upsert_spec name rt snaps s :
  Inv s -> rt ∈ seen s ->
  wpi fib_server Inv (fib_upsert name rt snaps) (fun r s' => r.1 = Ok tt ->
    published vpc_contrib VpcLayer (rts_TableID (rtb_status rt)) (rts_Routes (rtb_status rt)) s') s.
Proof.
  intros HI Hrt. unfold fib_upsert. apply (publishFib_spec _ _ _ _ rr_Dst fibValFor route_value).
  - apply fibValFor_reads.
  - done.
  - apply fibValFor_value.
  - apply route_value_mono.
  - intros es s' H1 H2 Hes. exists rt, es. split_and!; [by apply H1|done|done|done].
Qed.

Lemma fib_Reconcile_spec name snaps s :
  Inv s -> wpi fib_server Inv (fib_Reconcile name snaps) (fun _ _ => True) s.
Proof.
  intros HI. split; [done|]. intros r s1 Hs.
  assert (HI1 : Inv s1) by (eapply Inv_read; [|done]; by eapply read_step; [|exact Hs]). cbn [bind].
  destruct r as [rt|e].
  - cbn in Hs. subst. eapply wpi_mono; [apply fib_upsert_spec; [done|cbn; set_solver]|done].
  - destruct e; try (by split). by apply deleteFib_spec.
Qed.

Lemma tgw_Reconcile_spec name snaps s :
  Inv s -> wpi fib_server Inv (tgw_Reconcile name snaps) (fun _ _ => True) s.
Proof.
  intros HI. split; [done|]. intros r s1 Hs.
  assert (HI1 : Inv s1) by (eapply Inv_read; [|done]; by eapply read_step; [|exact Hs]). cbn [bind].
  destruct r as [rt|e]; [|destruct e; try (by split); by apply deleteFib_spec].
  cbn in Hs. subst. unfold tgw_upsert. destruct (_ =? 0) eqn:H0; [by split|]. to_prop.
  eapply wpi_mono; [apply (publishFib_spec _ _ _ _ rtg_Dst tgw_buildFibVal transit_value)|done].
  - apply tgw_buildFibVal_reads.
  - done.
  - apply tgw_buildFibVal_value.
  - apply transit_value_mono.
  - intros es s' Hseen Hg Hes. exists rt, es. split_and!; [apply Hg; cbn; set_solver|done|done|done|done].
Qed.

Lemma CloseAll_spec snaps s : Inv s -> wpi fib_server Inv (fib_CloseAll snaps) (fun _ _ => True) s.
Proof.
  intros HI. unfold fib_CloseAll. apply wpi_bind.
  eapply wpi_mono; [apply (wpi_forP_prefix _ _ _ _ _ (fun _ _ s' => Inv s'))|].
  - done.
  - done.
  - intros pre kv post errs s1 _ HI1. split; [done|]. intros r s2 ->. by split; apply Inv_open.
  - intros errs s1 HI1 _. by split.
Qed.

(** ** Histories *)

(** The operations of the two reconcilers, on their snapshots. *)
Inductive fib_operation :=
| ReconcileTable (name : string)
| ReconcileTransit (name : string)
| CloseTables
| CloseTransit.

Definition fib_run (op : fib_operation) (vs ts : snapshots) : prog fib_call (snapshots * snapshots) :=
  match op with
  | ReconcileTable name => r <- fib_Reconcile name vs ;; Ret (r.2, ts)
  | ReconcileTransit name => r <- tgw_Reconcile name ts ;; Ret (vs, r.2)
  | CloseTables => r <- fib_CloseAll vs ;; Ret (r.2, ts)
  | CloseTransit => r <- fib_CloseAll ts ;; Ret (vs, r.2)
  end.

(** The states between two operations. *)
Inductive settled : snapshots -> snapshots -> fstate -> Prop :=
| settled_start : settled ∅ ∅ (MkF ∅ ∅ ∅ ∅ [] [] [])
| settled_run vs ts s op vs' ts' s' :
    settled vs ts s -> exec fib_server s (fib_run op vs ts) (vs', ts') s' -> settled vs' ts' s'.

(** The states of the maps at any moment, also in the middle of an operation
    and after the daemon died there. *)
Definition moment (s : fstate) : Prop :=
  exists vs ts s0 op, settled vs ts s0 /\ passes fib_server s0 (fib_run op vs ts) s.

Lemma fib_run_spec op vs ts s : Inv s -> wpi fib_server Inv (fib_run op vs ts) (fun _ _ => True) s.
Proof.
  intros HI. destruct op; apply wpi_bind; (eapply wpi_mono; [|by intros r s' HI' _; split]).
  - by apply fib_Reconcile_spec.
  - by apply tgw_Reconcile_spec.
  - by apply CloseAll_spec.
  - by apply CloseAll_spec.
Qed.

Lemma settled_Inv vs ts s : settled vs ts s -> Inv s.
Proof.
  induction 1 as [|vs ts s op vs' ts' s' _ IH Hex]; [by intros []|].
  by destruct (wpi_exec _ _ _ _ _ _ _ (fib_run_spec op vs ts s IH) Hex).
Qed.

Lemma moment_Inv s : moment s -> Inv s.
Proof.
  intros (vs & ts & s0 & op & Hset & Hp).
  eapply wpi_passes; [apply fib_run_spec; by eapply settled_Inv|exact Hp].
Qed.
