(* ===== verification/RoutingTheorems.v ===== *)
(** * RoutingTheorems: from spec.routes to packets

    What the RouteTable controller publishes, what the FIB reconcilers make of
    it, and what a packet meets. *)

From stdpp Require Import base gmap strings list fin_maps.
From Stdlib Require Import ZArith Lia.
From S2P Require Import Prelude Effects Netip NetipFacts IPNet Kube PolicyEval PolicyStores OwnedAddr.
From S2P Require Import AllocationTypes AllocationAPI PodNetwork NetworkInterfaceReconciler ElasticIPReconciler.
From S2P Require Import AddressPlan RouteTypes RouteTable RouteTableWebhook Fib FibTables FibPublish.

Open Scope Z_scope.

(** ** Packets follow whole tables *)

(** The forwarding tables of a node as a packet finds them. *)
Definition tables_of (d : dataplane) (s : fstate) : Prop :=
  fib_map d = visible VpcLayer s /\ tgw_fib_map d = visible TransitLayer s.

Lemma visible_whole l s id t : moment s -> visible l s !! id = Some t -> whole l id t s.
Proof.
  intros Hm (h & Ho & Ht)%visible_Some. destruct (moment_Inv s Hm l id h Ho) as (t' & Ht' & Hw). congruence.
Qed.

(** Claim C8: at every moment of every history of the two FIB reconcilers,
    whichever calls fail and wherever the daemon stops, a packet that is
    routed by a table id finds no table, and is dropped, or meets the entries
    of one RouteTable that was read with that id: it takes the one of the
    longest prefix that covers its destination, the later one of two equal
    prefixes, and is dropped when none covers it.  Every route of that table
    has its entry, for its destination and with the value its objects had when
    they were read; the only routes left out are those whose destination is not
    a CIDR and those that are no endpoint or blackhole routes and whose Subnet,
    L2Network, NATGateway or transit table could not be read or was not yet
    usable (no valid gateway MAC, id 0), or that are of an unknown type.  The
    same holds for the second lookup in a transit table. *)
Theorem packets_meet_whole_tables s d id dst :
  moment s -> tables_of d s ->
  (fib_map d !! id = None /\ handle_l3 d id dst = Shot \/
   exists rt es, rt ∈ seen s /\ rts_TableID (rtb_status rt) = id /\
     filled (vpc_contrib (reads s)) (rts_Routes (rtb_status rt)) es /\
     handle_l3 d id dst = match longest es dst with Some e => route_action d e.2 dst | None => Shot end) /\
  (tgw_fib_map d !! id = None /\ handle_transit d id dst = Shot \/
   exists rt es, rt ∈ tgw_seen s /\ tgs_TableID (tgrt_status rt) = id /\
     filled (tgw_contrib (reads s)) (tgs_Routes (tgrt_status rt)) es /\
     handle_transit d id dst = match longest es dst with Some e => transit_action d e.2 dst | None => Shot end).
Proof.
  intros Hm [Hv Ht]. unfold handle_l3, handle_transit. split.
  - rewrite Hv. destruct (visible VpcLayer s !! id) as [t|] eqn:Hl; [right|by left].
    destruct (visible_whole _ _ _ _ Hm Hl) as (rt & es & Hin & Hid & Hf & ->). exists rt, es. split_and!; [done..|].
    rewrite lpm_image by (by eapply vpc_filled_ok). by destruct (longest es dst).
  - rewrite Ht. destruct (visible TransitLayer s !! id) as [t|] eqn:Hl; [right|by left].
    destruct (visible_whole _ _ _ _ Hm Hl) as (rt & es & Hin & Hid & _ & Hf & ->). exists rt, es. split_and!; [done..|].
    rewrite lpm_image by (by eapply tgw_filled_ok). by destruct (longest es dst).
Qed.

(** ** Routes a Ready table has *)

(** A route that keeps traffic from following another one: it leads to a
    workload, or drops. *)
Definition steering (via : RouteVia) : bool :=
  match rv_Type via with ViaEndpoint | ViaBlackhole => true | _ => false end.

(** A type the controller writes on its own. *)
Definition managed_type (t : RouteViaType) : bool :=
  match t with ViaConnected | ViaService | ViaVpcEndpoint => true | _ => false end.

(** Every entry of [spec.routes] has its destination in [status.routes]. *)
Definition resolved_in (routes : list Route) (status : list ResolvedRoute) : Prop :=
  forall route, route ∈ routes -> managed_type (rv_Type (route_Via route)) = false ->
  exists r, r ∈ status /\ rr_Dst r = route_Dst route.

Section Controller.
Context `{KubeLib}.

Definition is_ready (rt : RouteTable) : bool := IsStatusConditionTrue (rts_Conditions (rtb_status rt)) RouteTableStatusReady.

(** An endpoint route was resolved to the workload it names: of the interfaces
    of the allocation identity, one with the interface name of the route that is
    not being deleted and whose claim holds its lease, and the NetworkEndpoint
    of its Pod on that interface, with its Subnet. *)
Definition endpoint_holder (h : list (entry rt_call)) (r : ResolvedRoute) : Prop :=
  exists ref nics nic lease eps ep uid,
  rv_Endpoint (rr_Via r) = Some ref /\
  Entry (ListInterfacesOf (er_Namespace ref) (er_AllocationIdentity ref)) (Ok nics) ∈ h /\ nic ∈ nics /\
  pod_Interface (PodRef (nic_spec nic)) = er_Interface ref /\ IsDeleting (nic_meta nic) = false /\
  Entry (RouteTypes.GetLease (leaseNameForNetworkInterface nic)) (Ok lease) ∈ h /\
  cr_Name (ClaimRef (lease_spec lease)) = claimNameForNetworkInterface nic /\
  Time_IsZero (OwnerDeletionTimestamp (lease_spec lease)) = true /\
  Entry (ListEndpointsOf (Namespace (nic_meta nic)) (pod_UID (PodRef (nic_spec nic)))) (Ok eps) ∈ h /\ ep ∈ eps /\
  nwep_PodRef ep = Some (uid, er_Interface ref) /\
  rr_NetworkEndpoint r = Some (MkResolvedEndpoint (nwep_Namespace ep) (nwep_Name ep)) /\ rr_Subnet r = nwep_Subnet ep.

Definition endpoints_held (h : list (entry rt_call)) (routes : list ResolvedRoute) : Prop :=
  forall r, r ∈ routes -> rr_NetworkEndpoint r <> None -> endpoint_holder h r.

Lemma endpoints_held_mono h h' routes : h ⊆ h' -> endpoints_held h routes -> endpoints_held h' routes.
Proof.
  intros Hh He r Hr Hn. destruct (He r Hr Hn) as (ref & nics & nic & lease & eps & ep & uid & H1 & H2 & H3 & H4 & H5 & H6 & H7 & H8 & H9 & Hrest).
  exists ref, nics, nic, lease, eps, ep, uid. split_and!; try done; by apply Hh || apply Hrest.
Qed.

(** A status the controller writes as Ready has all of [spec.routes], and its
    endpoint routes lead to the workloads they name. *)
Definition status_account (h : list (entry rt_call)) (x : entry rt_call) : Prop :=
  match x with
  | @Entry _ R e _ =>
      match e with
      | UpdateRouteTableStatus rt => is_ready rt = true ->
          resolved_in (rtb_Routes rt) (rts_Routes (rtb_status rt)) /\ endpoints_held h (rts_Routes (rtb_status rt))
      | _ => True
      end
  end.

Lemma status_account_mono h h' x : h ⊆ h' -> status_account h x -> status_account h' x.
Proof.
  intros Hs. destruct x as [R e r]. destruct e; try done. cbn. intros Ha Hr. destruct (Ha Hr) as [? ?].
  split; [done|by eapply endpoints_held_mono].
Qed.

#[local] Abbreviation accounted := (accounts status_account).
#[local] Abbreviation sound h := (only (fun R e => forall r h', h ⊆ h' -> status_account h' (Entry e r))).

Lemma sound_run {A} (p : prog rt_call A) h : accounted h -> sound h p -> wpi recorder accounted p (fun _ _ => True) h.
Proof. intros Hh Hp. apply wpi_accounts; [apply status_account_mono|done|done]. Qed.

Lemma updateStatus_sound h resource routes id ready reason message :
  (ready = ConditionTrue -> resolved_in (rtb_Routes resource) routes /\ endpoints_held h routes) ->
  sound h (rt_updateStatus resource routes id ready reason message).
Proof.
  intros Hc. unfold rt_updateStatus. split; [done|]. intros t. cbn [bind call].
  destruct (_ && _); [done|]. split; [|by intros []]. intros r h' Hs. cbn. unfold is_ready, IsStatusConditionTrue. cbn.
  destruct (FindStatusCondition_Set t (rts_Conditions (rtb_status resource))
    (MkCondition RouteTableStatusReady ready reason message (Generation (rtb_meta resource)) 0)) as (c & Hfind & _ & Hst & _).
  cbn [Type_] in Hfind. rewrite Hfind, Hst. intros Hr. to_prop. destruct (Hc Hr). split; [done|by eapply endpoints_held_mono].
Qed.

Lemma failWith_sound h resource routes id message e : sound h (failWith resource routes id message e).
Proof. apply only_tryP; [by apply updateStatus_sound|done]. Qed.

Lemma waitWith_sound h resource routes id reason message res : sound h (waitWith resource routes id reason message res).
Proof. apply only_tryP; [by apply updateStatus_sound|done]. Qed.

Lemma publishTable_sound h resource routes :
  resolved_in (rtb_Routes resource) routes -> endpoints_held h routes -> sound h (publishTable resource routes).
Proof.
  intros Hc He. unfold publishTable.
  assert (Hp : forall id, sound h (_ <-? rt_updateStatus resource routes id ConditionTrue routeTableReasonReconcileSucceeded "" ;;
    Ret (Ok no_requeue))) by (intros id; apply only_tryP; [by apply updateStatus_sound|done]).
  destruct (negb _); [apply Hp|]. split; [done|]. intros r. cbn [bind].
  destruct r as [claim|e]; cbn [res_map_err]; [|apply failWith_sound].
  destruct (_ || _); [apply waitWith_sound|]. destruct (_ <? _); [apply waitWith_sound|apply Hp].
Qed.

(** *** Resolution keeps the destination *)

(** What the resolution of a route may return: its destination and its via,
    and for a steering route nothing but the endpoint or a blackhole. *)
Definition resolves (route : Route) (r : result route_error ResolvedRoute) : Prop :=
  match r with
  | Ok res => rr_Dst res = route_Dst route /\ rr_Via res = route_Via route
  | Err _ => True
  end.

Lemma endpoint_resolves rt route subnets : ensures (resolves route) (resolveEndpointRoute rt route subnets).
Proof.
  unfold resolveEndpointRoute. destruct (rv_Endpoint (route_Via route)) as [ref|]; [|done].
  apply ensures_tryP. unfold addressHolders. intros [nics|e]; [|done]. cbn [bind].
  eapply ensures_mono; [apply (ensures_forTryP (fun _ => True)); [done|]|].
  { intros nic hs _. destruct (_ || _); [done|]. apply ensures_tryP. intros [l|e]; [done|]. by destruct e. }
  intros [[|holder [|]]|e] _; try done. apply ensures_tryP. intros [eps|e]; [|done]. cbn [bind].
  destruct (List.filter _ eps) as [|ep [|]]; try done. cbn.
  destruct (empty (nwep_Subnet ep)); [done|]. destruct (negb _); [done|]. by destruct (empty (nwep_MACAddress ep)).
Qed.

Lemma specRoute_resolves rt route subnets :
  ensures (fun r => match r with
  | Ok None => managed_type (rv_Type (route_Via route)) = true
  | Ok (Some res) => rr_Dst res = route_Dst route /\ rr_Via res = route_Via route
  | Err _ => True
  end) (resolveSpecRoute rt route subnets).
Proof.
  unfold resolveSpecRoute. destruct (rv_Type (route_Via route)); try done; apply ensures_tryP.
  - eapply ensures_mono; [apply endpoint_resolves|]. by intros [res|e].
  - intros [ng|e]; [|by destruct e]. cbn. destruct (negb _); [done|]. by destruct (_ =? 0).
  - intros [po|e]; [|by destruct e]. cbn [bind]. destruct (negb _); [done|]. destruct (PeerOf _ _); [|done].
    intros [subs|e]; [|done]. cbn. by destruct (empty _).
  - intros [g|e]; [|by destruct e]. cbn [bind]. destruct (negb _); [done|]. intros [items|e]; [|done]. cbn.
    destruct (List.find _ items) as [a|]; [|done]. intros [t|e]; [|by destruct e]. cbn. by destruct (_ =? 0).
Qed.

(** *** Resolution finds the workload *)

(** The interfaces that hold the address of a workload. *)
Lemma holders_answered h ref holders nic :
  answered h (addressHolders ref) (Ok holders) -> nic ∈ holders ->
  exists nics lease, Entry (ListInterfacesOf (er_Namespace ref) (er_AllocationIdentity ref)) (Ok nics) ∈ h /\ nic ∈ nics /\
  pod_Interface (PodRef (nic_spec nic)) = er_Interface ref /\ IsDeleting (nic_meta nic) = false /\
  Entry (RouteTypes.GetLease (leaseNameForNetworkInterface nic)) (Ok lease) ∈ h /\
  cr_Name (ClaimRef (lease_spec lease)) = claimNameForNetworkInterface nic /\
  Time_IsZero (OwnerDeletionTimestamp (lease_spec lease)) = true.
Proof.
  intros ([nics|e] & Hin & Hloop) Hnic; [|done]. exists nics. revert nic Hnic.
  refine (answered_forTryP h (fun hs => forall nic, nic ∈ hs -> exists lease, _) nics [] holders _ _ _ Hloop).
  - intros nic Hn. by apply elem_of_nil in Hn.
  - intros x hs hs' Hx Hhs Hb nic Hn. destruct (_ || _) eqn:Hskip in Hb; [injection Hb as ->; by apply Hhs|].
    apply orb_false_iff in Hskip as [Hif Hdel]. apply negb_false_iff, String.eqb_eq in Hif.
    apply answered_tryP in Hb as (b & Hl & Hb). cbn in Hb. injection Hb as ->.
    destruct b; [|by apply Hhs]. apply elem_of_app in Hn as [Hn|Hn]; [by apply Hhs|].
    apply list_elem_of_singleton in Hn as ->. destruct Hl as ([lease|e] & Hlease & Hl); [|by destruct e].
    cbn in Hl. injection Hl as Hl. symmetry in Hl. apply andb_true_iff in Hl as [Hcr Hz]. apply String.eqb_eq in Hcr.
    exists lease. by split_and!.
Qed.

Lemma endpoint_answered_holder h rt route subnets r :
  answered h (resolveEndpointRoute rt route subnets) (Ok r) -> rr_NetworkEndpoint r <> None -> endpoint_holder h r.
Proof.
  unfold resolveEndpointRoute. destruct (rv_Endpoint (route_Via route)) as [ref|] eqn:Href; [|by intros [= ->]].
  intros (holders & Hh & Hr)%answered_tryP Hne. destruct holders as [|holder [|]]; [by injection Hr as ->| |by injection Hr as ->].
  destruct (holders_answered h ref [holder] holder Hh) as (nics & lease & Hn1 & Hn2 & Hn3 & Hn4 & Hn5 & Hn6 & Hn7); [by left|].
  apply answered_tryP in Hr as (found & ([eps|e] & Heps & Hf) & Hr); [|by cbn in Hf]. cbn in Hf.
  destruct (List.filter _ eps) as [|ep [|]] eqn:Hfl; injection Hf as ->; cbn in Hr; [by injection Hr as ->| |by injection Hr as ->].
  assert (Hep : In ep [ep]) by (by left). rewrite <- Hfl in Hep. apply filter_In in Hep as [Hep Hm].
  destruct (nwep_PodRef ep) as [[uid ifname]|] eqn:Hpr; [|done]. apply String.eqb_eq in Hm. subst ifname.
  destruct (empty (nwep_Subnet ep)); [by injection Hr as ->|]. destruct (negb _); [by injection Hr as ->|].
  destruct (empty (nwep_MACAddress ep)); [by injection Hr as ->|]. injection Hr as ->.
  exists ref, nics, holder, lease, eps, ep, uid. rewrite Hn3 in Hpr. apply list_elem_of_In in Hep. by split_and!.
Qed.

Lemma specRoute_answered h rt route subnets res :
  answered h (resolveSpecRoute rt route subnets) (Ok (Some res)) -> rr_NetworkEndpoint res <> None -> endpoint_holder h res.
Proof.
  assert (Hplain : forall (p : prog rt_call (result route_error ResolvedRoute)),
    ensures (fun r => forall x, r = Ok x -> rr_NetworkEndpoint x = None) p ->
    answered h (resolved <-? p ;; Ret (Ok (Some resolved))) (Ok (Some res)) -> rr_NetworkEndpoint res <> None -> False).
  { intros p Hp (x & Hx & Hr)%answered_tryP Hn. injection Hr as ->. apply Hn.
    by apply (ensures_possible _ _ _ Hp (answered_possible _ _ _ Hx)). }
  unfold resolveSpecRoute. destruct (rv_Type (route_Via route)); try done; try (intros [= ->]; done).
  - intros (x & Hx & Hr)%answered_tryP. injection Hr as ->. by apply (endpoint_answered_holder h rt route subnets).
  - intros Ha Hn. exfalso. eapply Hplain; [|exact Ha|exact Hn]. intros [ng|e]; [|by destruct e]. cbn.
    destruct (negb _); [done|]. destruct (_ =? 0); [done|]. by intros x [= <-].
  - intros Ha Hn. exfalso. eapply Hplain; [|exact Ha|exact Hn]. intros [po|e]; [|by destruct e]. cbn [bind].
    destruct (negb _); [done|]. destruct (PeerOf _ _); [|done].
    intros [subs|e]; [|done]. cbn. destruct (empty _); [done|]. by intros x [= <-].
  - intros Ha Hn. exfalso. eapply Hplain; [|exact Ha|exact Hn]. intros [g|e]; [|by destruct e]. cbn [bind].
    destruct (negb _); [done|]. intros [items|e]; [|done]. cbn.
    destruct (List.find _ items) as [a|]; [|done]. intros [t|e]; [|by destruct e]. cbn. destruct (_ =? 0); [done|]. by intros x [= <-].
Qed.

(** *** Resolution writes nothing *)

#[local] Abbreviation silent := (only (fun R e => forall h r, status_account h (Entry e r))).

Lemma specRoute_silent rt route subnets : silent (resolveSpecRoute rt route subnets).
Proof.
  unfold resolveSpecRoute. destruct (rv_Type (route_Via route)); try done; (apply only_tryP; [|done]).
  - unfold resolveEndpointRoute. destruct (rv_Endpoint _) as [ref|]; [|done].
    apply only_tryP.
    { split; [done|]. intros [nics|e]; [|done]. apply only_forTryP. intros nic hs. destruct (_ || _); [done|].
      apply only_tryP; [|done]. split; [done|]. intros [l|e]; [done|]. by destruct e. }
    intros [|holder [|]]; try done. apply only_tryP.
    { split; [done|]. intros [eps|e]; [|done]. cbn. by destruct (List.filter _ eps) as [|ep [|]]. }
    intros [ep|m]; [|done]. destruct (empty (nwep_Subnet ep)); [done|]. destruct (negb _); [done|].
    by destruct (empty (nwep_MACAddress ep)).
  - split; [done|]. intros [ng|e]; [|by destruct e]. cbn. destruct (negb _); [done|]. by destruct (_ =? 0).
  - split; [done|]. intros [po|e]; [|by destruct e]. cbn [bind]. destruct (negb _); [done|].
    destruct (PeerOf _ _); [|done]. split; [done|]. intros [subs|e]; [|done]. cbn. by destruct (empty _).
  - split; [done|]. intros [g|e]; [|by destruct e]. cbn [bind]. destruct (negb _); [done|].
    split; [done|]. intros [items|e]; [|done]. cbn. destruct (List.find _ items) as [a|]; [|done].
    split; [done|]. intros [t|e]; [|by destruct e]. cbn. by destruct (_ =? 0).
Qed.

(** *** The loop and the whole reconciliation *)

Lemma getRoute_Some routes dst r : getRoute routes dst = Some r -> r ∈ routes /\ rr_Dst r = dst.
Proof.
  unfold getRoute. intros [Hin Heq]%find_some. apply String.eqb_eq in Heq. split; [by apply list_elem_of_In|done].
Qed.

#[local] Abbreviation runs p h := (wpi recorder accounted p (fun _ _ => True) h).

Lemma resolveSpecRoutes_runs h resource subnets pre rest status :
  rtb_Routes resource = pre ++ rest -> resolved_in pre status -> endpoints_held h status -> accounted h ->
  runs (resolveSpecRoutes resource subnets rest status) h.
Proof.
  revert pre status h. induction rest as [|route rest IH]; intros pre status h Hr Hc He Hh; cbn [resolveSpecRoutes].
  { rewrite app_nil_r in Hr. subst. apply sound_run; [done|]. by apply publishTable_sound. }
  assert (Hnext : forall status' h', (forall r, r ∈ status -> r ∈ status') ->
    (managed_type (rv_Type (route_Via route)) = false -> exists r, r ∈ status' /\ rr_Dst r = route_Dst route) ->
    endpoints_held h' status' -> accounted h' -> runs (resolveSpecRoutes resource subnets rest status') h').
  { intros status' h' Hsub Hnew He' Hh'. apply (IH (pre ++ [route])); [by rewrite <- app_assoc| |done|done].
    intros x [Hx|Hx]%elem_of_app Hm; [destruct (Hc x Hx Hm) as (r & ? & ?); eauto|].
    apply list_elem_of_singleton in Hx as ->. by apply Hnew. }
  destruct (getRoute status (route_Dst route)) as [r|] eqn:Hg.
  { apply Hnext; [done| |done|done]. intros _. apply getRoute_Some in Hg. eauto. }
  apply wpi_bind. eapply wpi_mono.
  { apply (wpi_accounted status_account status_account_mono); [exact Hh|apply specRoute_silent]. }
  intros res h1 Hh1 [Ha Hs1].
  pose proof (ensures_possible _ _ _ (specRoute_resolves resource route subnets) (answered_possible _ _ _ Ha)) as Hres.
  destruct res as [res|[message|e]]; [|apply sound_run; [done|apply waitWith_sound]|apply sound_run; [done|apply failWith_sound]].
  apply Hnext; [set_solver| | |done].
  - intros Hm. destruct res as [res|]; [|congruence]. exists res. split; [set_solver|by apply Hres].
  - intros r [Hr0|Hr0]%elem_of_app Hn; [by apply (endpoints_held_mono h h1 status)|].
    destruct res as [res|]; [|by apply elem_of_nil in Hr0]. apply list_elem_of_singleton in Hr0 as ->.
    by apply (specRoute_answered h1 resource route subnets).
Qed.

(** The routes the controller writes on its own lead to no endpoint. *)
Definition plain (routes : list ResolvedRoute) : Prop := Forall (fun r => rr_NetworkEndpoint r = None) routes.

Lemma plain_held h routes : plain routes -> endpoints_held h routes.
Proof. intros Hf r Hr Hn. unfold plain in Hf. rewrite Forall_forall in Hf. by destruct Hn; apply Hf. Qed.

Lemma managed_plain vpc cidr subnets l2s :
  plain (attachedRoutes subnets l2s ++ serviceRoutes vpc cidr) /\
  (forall svcs, plain (externalIPRoutes (vpc_Name vpc) svcs)) /\ plain (vpcEndpointPoolRoutes (vpc_EndpointPool vpc)).
Proof.
  unfold plain, attachedRoutes, serviceRoutes, externalIPRoutes, vpcEndpointPoolRoutes. split_and!.
  - rewrite !Forall_app, !Forall_fmap. split_and!; [by apply Forall_forall..|].
    destruct cidr; [destruct (ServiceEnabled vpc)|]; by repeat constructor.
  - intros svcs. rewrite sortBy_perm. rewrite Forall_fmap. by apply Forall_forall.
  - rewrite sortBy_perm. rewrite Forall_fmap. by apply Forall_forall.
Qed.

Lemma reconcile_runs cidr name : runs (rt_Reconcile cidr name) [].
Proof.
  assert (H0 : accounted []) by (intros x Hx; by apply elem_of_nil in Hx).
  pose proof (accounts_snoc _ status_account_mono) as Hsnoc.
  assert (Hfail : forall h rs id m e resource, accounted h -> runs (failWith resource rs id m e) h).
  { intros. apply sound_run; [done|apply failWith_sound]. }
  assert (Hlist : forall h R (p : prog rt_call R), silent p -> accounted h -> forall Q, (forall a h', accounted h' -> Q a h') ->
    wpi recorder accounted p Q h).
  { intros h R p Hp Hh Q HQ. eapply wpi_mono; [apply (wpi_accounted _ status_account_mono); [exact Hh|exact Hp]|].
    intros a h' Hh' _. by apply HQ. }
  unfold rt_Reconcile. split; [done|]. intros r h ->. cbn [bind].
  assert (H1 := Hsnoc _ _ (GetRouteTable name) r H0 I). revert H1. generalize ([] ++ [Entry (GetRouteTable name) r]). intros h Hh.
  destruct r as [resource|e]; [|by destruct e].
  destruct (IsDeleting _); [apply sound_run; [done|apply waitWith_sound]|]. unfold rt_reconcileLive.
  apply wpi_bind, Hlist; [done|done|]. intros rv h1 Hh1.
  destruct (match rv with Err NotFound => Ok noVpc | _ => rv end) as [vpc|e]; [|by apply Hfail].
  apply wpi_bind, Hlist; [done|done|]. intros [subnets|e] h2 Hh2; [|by apply Hfail].
  apply wpi_bind, Hlist; [done|done|]. intros [l2s|e] h3 Hh3; [|by apply Hfail].
  destruct (managed_plain vpc cidr subnets l2s) as (Hbase & Hext & Hpool). apply wpi_bind.
  assert (Hrest : forall ext h4, plain ext -> accounted h4 -> forall rs, plain rs ->
    runs (resolveSpecRoutes resource (subnetNames subnets) (rtb_Routes resource)
      (((attachedRoutes subnets l2s ++ serviceRoutes vpc cidr) ++ ext ++ vpcEndpointPoolRoutes (vpc_EndpointPool vpc)) ++ rs)) h4).
  { intros ext h4 He Hh4 rs Hrs. apply (resolveSpecRoutes_runs h4 resource _ []); [done| | |done].
    - intros x Hx. by apply elem_of_nil in Hx.
    - apply plain_held. unfold plain in *. rewrite !Forall_app in *. naive_solver. }
  eapply wpi_mono; [apply (wpi_accounted _ status_account_mono); [exact Hh3|]|].
  { destruct (ServiceEnabled vpc); [split; [done|]; by intros []|done]. }
  intros r h4 Hh4 [Ha _].
  assert (Hr : forall ext, r = Ok ext -> plain ext).
  { intros ext ->. destruct (ServiceEnabled vpc); [|injection Ha as ->; constructor].
    destruct Ha as ([svcs|e] & _ & Ha); [|done]. injection Ha as ->. apply Hext. }
  destruct r as [ext|e]; [|by apply Hfail]. specialize (Hrest ext). specialize (Hr ext eq_refl).
  apply wpi_bind, Hlist; [by destruct (isDefaultTable resource)|done|]. intros [ng|e] h5 Hh5.
  - apply Hrest; [done|done|]. destruct (_ =? 0); by repeat constructor.
  - destruct e; try (by apply Hfail). pose proof (Hrest h5 Hr Hh5 [] (Forall_nil_2 _)) as Hgo. by rewrite app_nil_r in Hgo.
Qed.

(** ** Steering routes in the data plane *)

(** The status of a RouteTable is one the controller wrote as Ready in the run
    on the record [h], for the same [spec.routes]. *)
Definition published_in (h : list (entry rt_call)) (rt : RouteTable) : Prop :=
  exists cidr name rt' ans,
  passes recorder [] (rt_Reconcile cidr name) h /\ Entry (UpdateRouteTableStatus rt') ans ∈ h /\
  is_ready rt' = true /\ rtb_status rt = rtb_status rt' /\ rtb_Routes rt = rtb_Routes rt'.

(** No route the Vpc has by itself takes the destination of the route. *)
Definition own_destination (rt : RouteTable) (route : Route) : Prop :=
  forall r, r ∈ rts_Routes (rtb_status rt) -> rr_Dst r = route_Dst route -> rr_Via r = route_Via route.

Lemma published_resolved h rt :
  published_in h rt ->
  resolved_in (rtb_Routes rt) (rts_Routes (rtb_status rt)) /\ endpoints_held h (rts_Routes (rtb_status rt)).
Proof.
  intros (cidr & name & rt' & ans & Hp & He & Hr & -> & ->).
  by apply (wpi_passes _ _ _ _ _ _ (reconcile_runs cidr name) Hp _ He).
Qed.

(** A steering route always has a value: the endpoint it was resolved to, or
    to drop. *)
Lemma steering_value h r v :
  steering (rr_Via r) = true -> route_value h r v ->
  exists x, v = Some x /\ (x = drops \/ rr_NetworkEndpoint r <> None /\ exists vni dmac smac,
    to_endpoint h r vni dmac smac /\ x = MkFibVal fibRouteTypeEndpoint dmac smac vni).
Proof.
  unfold steering, route_value, resolves_to, unresolved. intros Hs. case_bool_decide; [intros ->; eauto|].
  destruct (rv_Type (rr_Via r)) eqn:Ht; try done; (destruct v as [x|]; [|by intros [? ?]]).
  - intros [(vni & dmac & smac & He & ->)|(_ & _ & ->)]; [|eauto]. eexists. split; [done|]. right.
    pose proof He as (_ & ref & mac & -> & _). split; [done|eauto 6].
  - intros [->|(? & _)]; [eauto|done].
Qed.

(** The entry a steering route leaves in the table. *)
Lemma steering_entry h r es p :
  steering (rr_Via r) = true -> dst_prefix (rr_Dst r) = Some p -> vpc_contrib h r es -> exists v, es = [(p, v)].
Proof.
  intros Hs Hp [[Hn _]|(q & Hq & [[Hn _]|(v & _ & _ & ->)])].
  - unfold dst_prefix in Hp. by rewrite Hn in Hp.
  - by destruct (steering_value h r _ Hs Hn) as (x & ? & _).
  - exists v. congruence.
Qed.

(** A packet was handed to the workload a route steers to: to the MAC of the
    NetworkEndpoint the route was resolved to, from the gateway of the Subnet
    of that endpoint, in the segment of that Subnet. *)
Definition reaches_workload (controller : list (entry rt_call)) (node : list (entry fib_call))
  (r : ResolvedRoute) (a : l3_action) : Prop :=
  endpoint_holder controller r /\
  exists vni dmac smac, to_endpoint node r vni dmac smac /\ a = ForwardL2 vni dmac smac.

(** Claim C9: a route through a workload (a firewall) or a blackhole fails
    closed.  Suppose the RouteTables the daemon has read with a table id were
    written as Ready by the controller, have the route in [spec.routes], and no
    route of the Vpc itself takes its destination.  Then at every moment of
    every history of the FIB reconcilers, whichever calls of the controller or
    the daemon fail, a packet to the destination is dropped or takes a route of
    one of these tables that is at least as specific, never a shorter one such
    as 0.0.0.0/0.  When the route it takes is itself a steering one, the packet
    is dropped or handed to the workload that route names: the controller read
    an interface of the allocation identity and interface name in the route
    that held its lease, and the NetworkEndpoint of its Pod; and the frame goes
    to the MAC read from that NetworkEndpoint, from the gateway MAC of its
    Subnet, in the VNI of that Subnet. *)
Theorem firewall_routes_fail_closed s d id dst route p0 (controller : RouteTable -> list (entry rt_call)) :
  moment s -> tables_of d s ->
  (forall rt, rt ∈ seen s -> rts_TableID (rtb_status rt) = id ->
    published_in (controller rt) rt /\ route ∈ rtb_Routes rt /\ own_destination rt route) ->
  steering (route_Via route) = true ->
  dst_prefix (route_Dst route) = Some p0 -> covers p0 dst = true ->
  handle_l3 d id dst = Shot \/
  exists rt r p v,
  rt ∈ seen s /\ rts_TableID (rtb_status rt) = id /\ r ∈ rts_Routes (rtb_status rt) /\
  dst_prefix (rr_Dst r) = Some p /\ covers p dst = true /\ p0.1 <= p.1 /\
  route_value (reads s) r (Some v) /\ handle_l3 d id dst = route_action d v dst /\
  (steering (rr_Via r) = true -> reaches_workload (controller rt) (reads s) r (handle_l3 d id dst)).
Proof.
  intros Hm [Hv _] Hrts Hs Hk Hcov. unfold handle_l3. rewrite Hv.
  destruct (visible VpcLayer s !! id) as [t|] eqn:Hl; [|by left].
  destruct (visible_whole _ _ _ _ Hm Hl) as (rt & es & Hin & Hid & Hf & ->).
  destruct (Hrts rt Hin Hid) as (Hpub & Hroute & Hown). destruct (published_resolved _ _ Hpub) as [Hres Hheld].
  rewrite lpm_image by (by eapply vpc_filled_ok). destruct (longest es dst) as [e|] eqn:He; [|by left].
  destruct (longest_Some _ _ _ He) as (Hine & Hcove & Hmax).
  destruct (filled_entry _ _ _ _ Hf Hine) as (r & es1 & Hr & Hc & He1).
  destruct (contributes_entry _ _ _ _ Hc He1) as (Hp & Hval). destruct e as [p v]. cbn [fst snd fmap option_fmap option_map] in *.
  destruct (decide (route_action d v dst = Shot)) as [Hshot|Hshot]; [by left|right].
  exists rt, r, p, v. split_and!; [done..| |done|done|].
  - destruct (Hres route Hroute) as (r0 & Hr0 & Hd0).
    { unfold managed_type. revert Hs. unfold steering. by destruct (rv_Type _). }
    destruct (filled_route _ _ _ _ Hf Hr0) as (es0 & Hc0 & Hsub).
    destruct (steering_entry (reads s) r0 es0 p0) as (v0 & ->); [by rewrite (Hown r0 Hr0 Hd0)|by rewrite Hd0|done|].
    apply (Hmax (p0, v0)); [apply Hsub; constructor|done].
  - intros Hsr. destruct (steering_value _ _ _ Hsr Hval) as (x & [= <-] & [->|(Hne & vni & dmac & smac & Hto & ->)]); [done|].
    split; [by apply Hheld|]. by exists vni, dmac, smac.
Qed.
End Controller.
