(* ===== verification/TransitGateway.v ===== *)
(** * TransitGateway: transit gateways and peerings

    The controllers [transitgatewayroutetable_controller.go],
    [transitgatewayattachment_controller.go], [transitgateway_controller.go] and
    [vpcpeering_controller.go].  An attachment publishes the Subnets of its Vpc
    as prefixes; a TransitGatewayRouteTable publishes the prefixes of the
    attachments that propagate into it and its static routes, which is what
    [tgw_fib.go] installs; a TransitGateway owns its default table, and a
    VpcPeering publishes whether two Vpcs can be routed to one another. *)

From stdpp Require Import base gmap strings list pretty.
From Stdlib Require Import ZArith Lia.
From S2P Require Import Prelude Effects Netip IPNet Kube AllocationTypes PodNetwork NetworkInterfaceReconciler.
From S2P Require Import ElasticIPReconciler AddressPlan RouteTypes RouteTable.

Open Scope Z_scope.
Open Scope go_scope.

Definition reasonDeleting : string := "Deleting".
Definition reasonReconcileFailed : string := "ReconcileFailed".
Definition reasonReconcileSucceeded : string := "ReconcileSucceeded".
Definition reasonNotReady : string := "NotReady".
Definition reasonTransitGatewayMissing : string := "TransitGatewayNotFound".
Definition reasonAmbiguousRoute : string := "AmbiguousRoute".
Definition reasonVpcNotFound : string := "VpcNotFound".
Definition reasonRouteTableNotFound : string := "RouteTableNotFound".
Definition reasonRouteTableForeign : string := "RouteTableForeign".
Definition reasonRouteTableMissing : string := "DefaultRouteTableMissing".
Definition reasonRouteTableNotReady : string := "DefaultRouteTableNotReady".
Definition reasonCIDRConflict : string := "CIDRConflict".
Definition requeueAfter : CtrlResult := MkCtrlResult false (100 * Millisecond).
Definition allocationPoolTransitGatewayRouteTable : string := "transit-gateway-route-table-id".
Definition TransitGatewayRouteTableStatusReady : string := "Ready".
Definition TransitGatewayAttachmentStatusReady : string := "Ready".

Definition ta_name (a : AttachmentObject) : string := Name (ta_meta a).

(** [updateStatus] as the four controllers have it: the status with the
    condition set, or [None] when nothing would change. *)
Section Status.
Context `{KubeLib}.

Definition readyCondition (t : Time) (conditions : list Condition) (type : string) (generation : Z)
  (ready : ConditionStatus) (reason message : string) : list Condition :=
  SetStatusCondition t conditions (MkCondition type ready reason message generation 0).
End Status.

(** [if updateErr := update; updateErr != nil {return updateErr}; return res, err] *)
Definition afterUpdate {E} (update : prog E (result goerr unit)) (res : result goerr CtrlResult)
  : prog E (result goerr CtrlResult) :=
  _ <-? update ;; Ret res.

(** ** transitgatewayroutetable_controller.go *)

(** The attachments that propagate into a table, by name. *)
Definition propagating (rt : TransitGatewayRouteTable) (attachments : list AttachmentObject) : list AttachmentObject :=
  sortBy ta_name (List.filter (fun a => String.eqb (tga_TransitGateway (ta_spec a)) (tgrt_TransitGateway rt) &&
                                        PropagatesInto (ta_spec a) (tgrt_name rt)) attachments).

Definition propagatedRoute (a : AttachmentObject) (px : TransitGatewayAttachmentPrefix) : ResolvedTransitGatewayRoute :=
  MkResolvedTGWRoute (px_CIDR px) (ta_name a) (px_Subnet px) false OriginPropagated.

(** One prefix of the loop over the attachments: the routes and the conflicts
    found so far. *)
Definition propagatePrefix (st : gmap string ResolvedTransitGatewayRoute * list string)
  (x : AttachmentObject * TransitGatewayAttachmentPrefix) : gmap string ResolvedTransitGatewayRoute * list string :=
  match st.1 !! px_CIDR x.2 with
  | Some existing =>
      (st.1, st.2 ++ [("destination " ++ quoted (px_CIDR x.2) ++ " is propagated by both TransitGatewayAttachment " ++
                       quoted (rtg_Attachment existing) ++ " and TransitGatewayAttachment " ++ quoted (ta_name x.1))%string])
  | None => (<[px_CIDR x.2 := propagatedRoute x.1 x.2]> st.1, st.2)
  end.

(** The prefixes in the order of the two loops. *)
Definition propagatedPrefixes (rt : TransitGatewayRouteTable) (attachments : list AttachmentObject)
  : list (AttachmentObject * TransitGatewayAttachmentPrefix) :=
  mjoin ((fun a => (fun px => (a, px)) <$> tas_Prefixes (ta_status a)) <$> propagating rt attachments).

Definition propagatedRoutes (rt : TransitGatewayRouteTable) (attachments : list AttachmentObject)
  : gmap string ResolvedTransitGatewayRoute * list string :=
  let '(routes, conflicts) := foldl propagatePrefix (∅, []) (propagatedPrefixes rt attachments) in
  (routes, sortBy id conflicts).

(** The resolved route, or why there is none. *)
Definition resolveStaticRoute (rt : TransitGatewayRouteTable) (route : TransitGatewayRoute) (attachments : list AttachmentObject)
  : ResolvedTransitGatewayRoute + string :=
  if tgr_Blackhole route then inl (MkResolvedTGWRoute (tgr_Dst route) "" "" true OriginStatic) else
  match List.find (fun a => String.eqb (ta_name a) (tgr_Attachment route)) attachments with
  | None => inr ("TransitGatewayAttachment " ++ quoted (tgr_Attachment route) ++ " not found")%string
  | Some a =>
      if negb (String.eqb (tga_TransitGateway (ta_spec a)) (tgrt_TransitGateway rt)) then
        inr ("TransitGatewayAttachment " ++ quoted (ta_name a) ++ " belongs to TransitGateway " ++
             quoted (tga_TransitGateway (ta_spec a)) ++ ", not " ++ quoted (tgrt_TransitGateway rt))%string
      else match List.find (fun px => String.eqb (px_CIDR px) (tgr_Dst route)) (tas_Prefixes (ta_status a)) with
           | Some px => inl (MkResolvedTGWRoute (tgr_Dst route) (ta_name a) (px_Subnet px) false OriginStatic)
           | None => inr ("no Subnet in Vpc " ++ quoted (tga_Vpc (ta_spec a)) ++ " has CIDR " ++ quoted (tgr_Dst route))%string
           end
  end.

(** The loop over [spec.routes]. *)
Fixpoint addStaticRoutes (rt : TransitGatewayRouteTable) (attachments : list AttachmentObject) (routes : list TransitGatewayRoute)
  (m : gmap string ResolvedTransitGatewayRoute) : gmap string ResolvedTransitGatewayRoute + string :=
  match routes with
  | [] => inl m
  | route :: rest =>
      match resolveStaticRoute rt route attachments with
      | inr message => inr message
      | inl resolved => addStaticRoutes rt attachments rest (<[tgr_Dst route := resolved]> m)
      end
  end.

Definition routesByDst (m : gmap string ResolvedTransitGatewayRoute) : list ResolvedTransitGatewayRoute :=
  sortBy rtg_Dst (snd <$> map_to_list m).

Section TransitTables.
Context `{KubeLib}.

Definition tgrt_updateStatus (resource : TransitGatewayRouteTable) (routes : list ResolvedTransitGatewayRoute) (tableID : Z)
  (ready : ConditionStatus) (reason message : string) : prog rt_call (result goerr unit) :=
  let st := tgrt_status resource in
  let generation := Generation (tgrt_meta resource) in
  t <- call RtNow ;;
  let conditions := readyCondition t (tgs_Conditions st) TransitGatewayRouteTableStatusReady generation ready reason message in
  if bool_decide (generation = tgs_ObservedGeneration st) && bool_decide (tableID = tgs_TableID st) &&
  bool_decide (routes = tgs_Routes st) && bool_decide (conditions = tgs_Conditions st)
  then Ret (Ok tt)
  else
  r <- call (UpdateTransitGatewayRouteTableStatus (with_tgrt_status resource (MkTGWRTStatus generation conditions tableID routes))) ;;
  Ret (res_map_err EApi r).

Definition tgrt_ensureNumberClaim (resource : TransitGatewayRouteTable) (poolName kind attribute : string)
  : prog rt_call (result goerr AllocationClaim) :=
  let desired := newAllocationClaim poolName GroupVersion kind "" (tgrt_name resource) attribute in
  r <- call (CreateOrUpdateClaim (claim_name desired) (fun claim =>
    res_map (fun m => MkClaim m (claim_spec desired) (claim_status claim))
    (SetControllerReference (tgrt_meta resource) (claim_meta claim)))) ;;
  Ret (res_map_err EApi r).

(** The end of [Reconcile]: the table id and the status of a resolved table. *)
Definition tgrt_publish (resource : TransitGatewayRouteTable) (routes : list ResolvedTransitGatewayRoute)
  : prog rt_call (result goerr CtrlResult) :=
  let publish tableID :=
  afterUpdate (tgrt_updateStatus resource routes tableID ConditionTrue reasonReconcileSucceeded "") (Ok no_requeue) in
  let tableID := tgs_TableID (tgrt_status resource) in
  let notReady reason message res := afterUpdate (tgrt_updateStatus resource routes tableID ConditionFalse reason message) res in
  if negb (tableID =? 0) then publish tableID else
  r <- tgrt_ensureNumberClaim resource allocationPoolTransitGatewayRouteTable "TransitGatewayRouteTable" "status.tableID" ;;
  match r with
  | Err e => notReady reasonReconcileFailed ("failed to ensure table ID allocation claim: " ++ goerr_text e)%string (Err e)
  | Ok claim =>
      let number := Number (cs_Value (claim_status claim)) in
      if negb (bool_decide (cs_Phase (claim_status claim) = ClaimPhaseAllocated)) || (number =? 0) then
      notReady reasonNotReady "waiting for table ID allocation" (Ok requeueAfter)
      else if 4294967295 <? number then
      notReady reasonReconcileFailed ("allocated table ID " ++ pretty number ++ " exceeds supported range")%string (Ok no_requeue)
      else publish (u32 number)
  end.

Definition tgrt_reconcileLive (resource : TransitGatewayRouteTable) : prog rt_call (result goerr CtrlResult) :=
  let st := tgrt_status resource in
  let keep reason message res :=
  afterUpdate (tgrt_updateStatus resource (tgs_Routes st) (tgs_TableID st) ConditionFalse reason message) res in
  let gateway := tgrt_TransitGateway resource in
  r <- call (GetTransitGateway gateway) ;;
  match r with
  | Err NotFound => keep reasonTransitGatewayMissing ("TransitGateway " ++ quoted gateway ++ " not found")%string (Ok no_requeue)
  | Err e => keep reasonReconcileFailed ("failed to get TransitGateway " ++ quoted gateway)%string (Err (EApi e))
  | Ok _ =>
      r <- call ListAttachments ;;
      match r with
      | Err e => keep reasonReconcileFailed "failed to list transit gateway attachments" (Err (EApi e))
      | Ok attachments =>
          let '(routes, conflicts) := propagatedRoutes resource attachments in
          match conflicts with
          | _ :: _ => keep reasonAmbiguousRoute (String.concat "; " conflicts) (Ok no_requeue)
          | [] =>
              match addStaticRoutes resource attachments (tgrt_Routes resource) routes with
              | inr message => keep reasonNotReady message (Ok no_requeue)
              | inl routes => tgrt_publish resource (routesByDst routes)
              end
          end
      end
  end.

Definition tgrt_Reconcile (name : string) : prog rt_call (result goerr CtrlResult) :=
  r <- call (GetTransitGatewayRouteTable name) ;;
  match r with
  | Err NotFound => Ret (Ok no_requeue)
  | Err e => Ret (Err (EApi e))
  | Ok resource =>
      if IsDeleting (tgrt_meta resource) then
      afterUpdate (tgrt_updateStatus resource (tgs_Routes (tgrt_status resource)) (tgs_TableID (tgrt_status resource))
        ConditionFalse reasonDeleting "transit gateway route table is being deleted") (Ok no_requeue)
      else tgrt_reconcileLive resource
  end.
End TransitTables.

(** *** Watches *)

Definition routeTablesOfTransitGateway (gateway : string) : prog rt_call (list string) :=
  r <- call ListTransitGatewayRouteTables ;;
  Ret (match r with
       | Ok items => tgrt_name <$> List.filter (fun rt => String.eqb (tgrt_TransitGateway rt) gateway) items
       | Err _ => []
       end).

Definition tgrt_mapTransitGatewayToRouteTables (g : TransitGateway) : prog rt_call (list string) :=
  routeTablesOfTransitGateway (tgw_name g).

Definition mapAttachmentToRouteTables (a : AttachmentObject) : prog rt_call (list string) :=
  if empty (tga_TransitGateway (ta_spec a)) then Ret [] else routeTablesOfTransitGateway (tga_TransitGateway (ta_spec a)).

Definition tgrt_mapClaimToRouteTables (claim : AllocationClaim) : list string :=
  let ref := ResourceRef (claim_spec claim) in
  if negb (String.eqb (rr_Kind ref) "TransitGatewayRouteTable") || empty (rr_Name ref) then [] else [rr_Name ref].

(** ** The calls of the other three controllers *)

(** [CreateOrUpdateTransitTable] answers whether the object was created or
    changed. *)
Record VpcPeeringObject := MkVpcPeeringObject {
  vpo_meta : ObjectMeta; vpo_spec : VpcPeering; vpo_ObservedGeneration : Z; vpo_Conditions : list Condition }.

Inductive tg_call : Type -> Type :=
| TgRtCall {R} (e : rt_call R) : tg_call R
| GetAttachmentObject (name : string) : tg_call (result api_error AttachmentObject)
| UpdateAttachmentStatus (a : AttachmentObject) : tg_call (result api_error unit)
| GetVpcID (name : string) : tg_call (result api_error Z)                     (* status.vpcID *)
| UpdateTransitGatewayStatus (g : TransitGateway) : tg_call (result api_error unit)
| CreateOrUpdateTransitTable (name : string) (mutate : TransitGatewayRouteTable -> result api_error TransitGatewayRouteTable)
  : tg_call (result api_error bool)
| GetPeeringObject (name : string) : tg_call (result api_error VpcPeeringObject)
| UpdatePeeringStatus (p : VpcPeeringObject) : tg_call (result api_error unit)
| ListPeeringObjects : tg_call (result api_error (list VpcPeeringObject)).

Section OtherControllers.
Context `{KubeLib}.

(** ** transitgatewayattachment_controller.go *)

Definition subnetPrefix (s : Subnet) : TransitGatewayAttachmentPrefix := MkTGWPrefix (sub_CIDR s) (sub_Name s).

Definition prefixesOf (subnets : list Subnet) : list TransitGatewayAttachmentPrefix :=
  sortBy px_CIDR (subnetPrefix <$> subnets).

Definition collectPrefixes (vpcName : string) : prog tg_call (result api_error (list TransitGatewayAttachmentPrefix)) :=
  subnets <-? call (TgRtCall (ListSubnets vpcName)) ;;
  Ret (Ok (prefixesOf subnets)).

Definition tga_updateStatus (resource : AttachmentObject) (prefixes : list TransitGatewayAttachmentPrefix)
  (ready : ConditionStatus) (reason message : string) : prog tg_call (result goerr unit) :=
  let st := ta_status resource in
  let generation := Generation (ta_meta resource) in
  t <- call (TgRtCall RtNow) ;;
  let conditions := readyCondition t (tas_Conditions st) TransitGatewayAttachmentStatusReady generation ready reason message in
  if bool_decide (generation = tas_ObservedGeneration st) && bool_decide (prefixes = tas_Prefixes st) &&
  bool_decide (conditions = tas_Conditions st)
  then Ret (Ok tt)
  else
  r <- call (UpdateAttachmentStatus (MkTGWA (ta_meta resource) (ta_spec resource) (MkTGWAStatus generation conditions prefixes))) ;;
  Ret (res_map_err EApi r).

(** A status that keeps the prefixes published so far. *)
Definition tga_keep (resource : AttachmentObject) (reason message : string) (res : result goerr CtrlResult)
  : prog tg_call (result goerr CtrlResult) :=
  afterUpdate (tga_updateStatus resource (tas_Prefixes (ta_status resource)) ConditionFalse reason message) res.

(** The loop over the tables of the attachment, then the prefixes. *)
Fixpoint tga_checkTables (resource : AttachmentObject) (tables : list string) : prog tg_call (result goerr CtrlResult) :=
  match tables with
  | [] =>
      r <- collectPrefixes (tga_Vpc (ta_spec resource)) ;;
      match r with
      | Err e => tga_keep resource reasonReconcileFailed
          ("failed to list subnets for Vpc " ++ quoted (tga_Vpc (ta_spec resource)))%string (Err (EApi e))
      | Ok prefixes =>
          afterUpdate (tga_updateStatus resource prefixes ConditionTrue reasonReconcileSucceeded "") (Ok no_requeue)
      end
  | name :: rest =>
      r <- call (TgRtCall (GetTransitGatewayRouteTable name)) ;;
      match r with
      | Err NotFound => tga_keep resource reasonRouteTableNotFound ("TransitGatewayRouteTable " ++ quoted name ++ " not found")%string (Ok no_requeue)
      | Err e => tga_keep resource reasonReconcileFailed ("failed to get TransitGatewayRouteTable " ++ quoted name)%string (Err (EApi e))
      | Ok rt =>
          if negb (String.eqb (tgrt_TransitGateway rt) (tga_TransitGateway (ta_spec resource))) then
          tga_keep resource reasonRouteTableForeign
          ("TransitGatewayRouteTable " ++ quoted name ++ " belongs to TransitGateway " ++ quoted (tgrt_TransitGateway rt) ++
            ", not " ++ quoted (tga_TransitGateway (ta_spec resource)))%string (Ok no_requeue)
          else tga_checkTables resource rest
      end
  end.

Definition tga_Reconcile (name : string) : prog tg_call (result goerr CtrlResult) :=
  r <- call (GetAttachmentObject name) ;;
  match r with
  | Err NotFound => Ret (Ok no_requeue)
  | Err e => Ret (Err (EApi e))
  | Ok resource =>
      if IsDeleting (ta_meta resource) then
      tga_keep resource reasonDeleting "transit gateway attachment is being deleted" (Ok no_requeue)
      else
      let gateway := tga_TransitGateway (ta_spec resource) in
      r <- call (TgRtCall (GetTransitGateway gateway)) ;;
      match r with
      | Err NotFound => tga_keep resource reasonTransitGatewayMissing ("TransitGateway " ++ quoted gateway ++ " not found")%string (Ok no_requeue)
      | Err e => tga_keep resource reasonReconcileFailed ("failed to get TransitGateway " ++ quoted gateway)%string (Err (EApi e))
      | Ok _ =>
          let vpc := tga_Vpc (ta_spec resource) in
          r <- call (GetVpcID vpc) ;;
          match r with
          | Err NotFound => tga_keep resource reasonVpcNotFound ("Vpc " ++ quoted vpc ++ " not found")%string (Ok no_requeue)
          | Err e => tga_keep resource reasonReconcileFailed ("failed to get Vpc " ++ quoted vpc)%string (Err (EApi e))
          | Ok vpcID =>
              if vpcID =? 0 then
              tga_keep resource reasonNotReady ("Vpc " ++ quoted vpc ++ " has not yet been assigned a vpcID")%string (Ok requeueAfter)
              else tga_checkTables resource (RouteTables (ta_spec resource))
          end
      end
  end.

Definition attachmentsMatching (match_ : TransitGatewayAttachment -> bool) : prog tg_call (list string) :=
  r <- call (TgRtCall ListAttachments) ;;
  Ret (match r with Ok items => ta_name <$> List.filter (fun a => match_ (ta_spec a)) items | Err _ => [] end).

Definition mapTransitGatewayToAttachments (g : TransitGateway) : prog tg_call (list string) :=
  attachmentsMatching (fun spec => String.eqb (tga_TransitGateway spec) (tgw_name g)).
Definition mapRouteTableToAttachments (rt : TransitGatewayRouteTable) : prog tg_call (list string) :=
  attachmentsMatching (fun spec => existsb (String.eqb (tgrt_name rt)) (RouteTables spec)).
Definition mapVpcToAttachments (vpc : string) : prog tg_call (list string) :=
  attachmentsMatching (fun spec => String.eqb (tga_Vpc spec) vpc).
Definition mapSubnetToAttachments (s : Subnet) : prog tg_call (list string) :=
  if empty (sub_Vpc s) then Ret [] else attachmentsMatching (fun spec => String.eqb (tga_Vpc spec) (sub_Vpc s)).

(** ** transitgateway_controller.go *)

Definition conditionStatusText (s : ConditionStatus) : string :=
  match s with ConditionTrue => "True" | ConditionFalse => "False" | ConditionUnknown => "Unknown" end.

Definition tgw_updateStatus (resource : TransitGateway) (defaultRouteTable : string) (ready : ConditionStatus) (reason message : string)
  : prog tg_call (result goerr unit) :=
  let st := tgw_status resource in
  let generation := Generation (tgw_meta resource) in
  t <- call (TgRtCall RtNow) ;;
  let conditions := readyCondition t (tgw_Conditions st) TransitGatewayStatusReady generation ready reason message in
  if bool_decide (generation = tgw_ObservedGeneration st) && bool_decide (defaultRouteTable = tgw_DefaultRouteTable st) &&
  bool_decide (conditions = tgw_Conditions st)
  then Ret (Ok tt)
  else
  r <- call (UpdateTransitGatewayStatus (MkTGW (tgw_meta resource) (MkTGWStatus generation conditions defaultRouteTable))) ;;
  Ret (res_map_err EApi r).

(** What the default table says about itself, when it is not Ready. *)
Definition notReadyMessage (name : string) (conditions : list Condition) : option string :=
  match FindStatusCondition conditions TransitGatewayRouteTableStatusReady with
  | None => Some ("default route table " ++ quoted name ++ " has no Ready condition")%string
  | Some ready =>
      if bool_decide (Status_ ready = ConditionTrue) then None else
      Some ("default route table " ++ quoted name ++ " is not ready: " ++
        (if empty (Message ready) then "reason=" ++ Reason ready ++ " status=" ++ conditionStatusText (Status_ ready)
          else Message ready))%string
  end.

Definition tgwc_Reconcile (name : string) : prog tg_call (result goerr CtrlResult) :=
  r <- call (TgRtCall (GetTransitGateway name)) ;;
  match r with
  | Err NotFound => Ret (Ok no_requeue)
  | Err e => Ret (Err (EApi e))
  | Ok resource =>
      let known := tgw_DefaultRouteTable (tgw_status resource) in
      let notReady table reason message res := afterUpdate (tgw_updateStatus resource table ConditionFalse reason message) res in
      if IsDeleting (tgw_meta resource) then notReady known reasonDeleting "transit gateway is being deleted"%string (Ok no_requeue) else
      let table := tgw_name resource in
      op <- call (CreateOrUpdateTransitTable table (fun rt =>
        res_map (fun m => MkTGWRT m (tgw_name resource) (tgrt_Routes rt) (tgrt_status rt))
        (SetControllerReference (tgw_meta resource) (tgrt_meta rt)))) ;;
      match op with
      | Err e => notReady known reasonReconcileFailed "failed to reconcile default route table"%string (Err (EApi e))
      | Ok true => Ret (Ok (MkCtrlResult true 0))
      | Ok false =>
          r <- call (TgRtCall (GetTransitGatewayRouteTable table)) ;;
          match r with
          | Err NotFound => notReady table reasonRouteTableMissing ("default route table " ++ quoted table ++ " not found")%string (Ok no_requeue)
          | Err e => notReady table reasonReconcileFailed "failed to fetch default route table"%string (Err (EApi e))
          | Ok rt =>
              match notReadyMessage table (tgs_Conditions (tgrt_status rt)) with
              | Some message => notReady table reasonRouteTableNotReady message (Ok no_requeue)
              | None => afterUpdate (tgw_updateStatus resource table ConditionTrue reasonReconcileSucceeded "") (Ok no_requeue)
              end
          end
      end
  end.

Definition mapRouteTableToTransitGateways (rt : TransitGatewayRouteTable) : list string :=
  if empty (tgrt_TransitGateway rt) then [] else [tgrt_TransitGateway rt].

(** ** vpcpeering_controller.go *)

Definition ipNetsOverlap (a b : IPNet) : bool := IPNet_Contains a (net_IP b) || IPNet_Contains b (net_IP a).

(** The pairs of Subnets that overlap, as text. *)
Definition overlapMessages (requester accepter : string) (as_ bs : list Subnet) : list string :=
  mjoin ((fun a =>
    match ParseNet (sub_CIDR a) with
    | None => []
    | Some aCIDR =>
        mjoin ((fun b =>
          match ParseNet (sub_CIDR b) with
          | None => []
          | Some bCIDR =>
              if negb (ipNetsOverlap aCIDR bCIDR) then [] else
              [("Subnet " ++ quoted (sub_Name a) ++ " (CIDR " ++ quoted (sub_CIDR a) ++ ") in Vpc " ++ quoted requester ++
                " overlaps with Subnet " ++ quoted (sub_Name b) ++ " (CIDR " ++ quoted (sub_CIDR b) ++ ") in Vpc " ++
                quoted accepter)%string]
          end) <$> bs)
    end) <$> as_).

Definition conflictingSubnets (requester accepter : string) : prog tg_call (result api_error (list string)) :=
  as_ <-? call (TgRtCall (ListSubnets requester)) ;;
  bs <-? call (TgRtCall (ListSubnets accepter)) ;;
  Ret (Ok (sortBy id (overlapMessages requester accepter as_ bs))).

Definition peering_updateStatus (resource : VpcPeeringObject) (ready : ConditionStatus) (reason message : string)
  : prog tg_call (result goerr unit) :=
  let generation := Generation (vpo_meta resource) in
  t <- call (TgRtCall RtNow) ;;
  let conditions := readyCondition t (vpo_Conditions resource) VpcPeeringStatusReady generation ready reason message in
  if bool_decide (generation = vpo_ObservedGeneration resource) && bool_decide (conditions = vpo_Conditions resource)
  then Ret (Ok tt)
  else
  r <- call (UpdatePeeringStatus (MkVpcPeeringObject (vpo_meta resource) (vpo_spec resource) generation conditions)) ;;
  Ret (res_map_err EApi r).

(** The end of [Reconcile]: both Vpcs have an id. *)
Definition peering_checkSubnets (resource : VpcPeeringObject) : prog tg_call (result goerr CtrlResult) :=
  r <- conflictingSubnets (Requester (vpo_spec resource)) (Accepter (vpo_spec resource)) ;;
  match r with
  | Err e => afterUpdate (peering_updateStatus resource ConditionFalse reasonReconcileFailed "failed to list subnets for peered VPCs") (Err (EApi e))
  | Ok (_ :: _ as conflicts) =>
      afterUpdate (peering_updateStatus resource ConditionFalse reasonCIDRConflict (String.concat "; " conflicts)) (Ok no_requeue)
  | Ok [] => afterUpdate (peering_updateStatus resource ConditionTrue reasonReconcileSucceeded "") (Ok no_requeue)
  end.

(** The loop over the two Vpcs. *)
Fixpoint peering_checkVpcs (resource : VpcPeeringObject) (vpcs : list string) : prog tg_call (result goerr CtrlResult) :=
  match vpcs with
  | [] => peering_checkSubnets resource
  | vpc :: rest =>
      r <- call (GetVpcID vpc) ;;
      match r with
      | Err NotFound => afterUpdate (peering_updateStatus resource ConditionFalse reasonVpcNotFound ("Vpc " ++ quoted vpc ++ " not found")%string) (Ok no_requeue)
      | Err e => afterUpdate (peering_updateStatus resource ConditionFalse reasonReconcileFailed ("failed to get Vpc " ++ quoted vpc)%string) (Err (EApi e))
      | Ok vpcID =>
          if vpcID =? 0 then
          afterUpdate (peering_updateStatus resource ConditionFalse reasonNotReady
            ("Vpc " ++ quoted vpc ++ " has not yet been assigned a vpcID")%string) (Ok requeueAfter)
          else peering_checkVpcs resource rest
      end
  end.

Definition peering_Reconcile (name : string) : prog tg_call (result goerr CtrlResult) :=
  r <- call (GetPeeringObject name) ;;
  match r with
  | Err NotFound => Ret (Ok no_requeue)
  | Err e => Ret (Err (EApi e))
  | Ok resource =>
      if IsDeleting (vpo_meta resource) then
      afterUpdate (peering_updateStatus resource ConditionFalse reasonDeleting "VPC peering is being deleted") (Ok no_requeue)
      else peering_checkVpcs resource [Requester (vpo_spec resource); Accepter (vpo_spec resource)]
  end.

Definition peeringsOfVpc (vpcName : string) : prog tg_call (list string) :=
  r <- call ListPeeringObjects ;;
  Ret (match r with
  | Ok items => (fun p => Name (vpo_meta p)) <$> List.filter (fun p => Connects (vpo_spec p) vpcName) items
  | Err _ => []
  end).

Definition mapVpcToVpcPeerings (vpc : string) : prog tg_call (list string) := peeringsOfVpc vpc.
Definition mapSubnetToVpcPeerings (s : Subnet) : prog tg_call (list string) :=
  if empty (sub_Vpc s) then Ret [] else peeringsOfVpc (sub_Vpc s).
End OtherControllers.
