(* ===== verification/TransitTheorems.v ===== *)
(** * TransitTheorems: what transit tables hold

    The table of a TransitGatewayRouteTable as a specification
    ([transit_table]), that the controller publishes nothing else, and what it
    means for a packet. *)

From stdpp Require Import base gmap strings list fin_maps.
From Stdlib Require Import ZArith Lia.
From S2P Require Import Prelude Effects Netip IPNet Kube PolicyEval PolicyStores OwnedAddr AllocationTypes PodNetwork.
From S2P Require Import NetworkInterfaceReconciler ElasticIPReconciler AddressPlan RouteTypes RouteTable.
From S2P Require Import Fib FibTables FibPublish RoutingTheorems TransitGateway.

Open Scope Z_scope.

(** ** The specification *)

Section Table.
Variable rt : TransitGatewayRouteTable.
Variable attachments : list AttachmentObject.

(** The attachment is on the gateway of the table. *)
Definition on_gateway (a : AttachmentObject) : Prop :=
  a ∈ attachments /\ tga_TransitGateway (ta_spec a) = tgrt_TransitGateway rt.

(** The attachment propagates the prefix into the table. *)
Definition propagates (a : AttachmentObject) (px : TransitGatewayAttachmentPrefix) : Prop :=
  on_gateway a /\ tgrt_name rt ∈ Propagations (ta_spec a) /\ px ∈ tas_Prefixes (ta_status a).

(** The route of a static entry. *)
Definition static_route (sr : TransitGatewayRoute) (r : ResolvedTransitGatewayRoute) : Prop :=
  if tgr_Blackhole sr then r = MkResolvedTGWRoute (tgr_Dst sr) "" "" true OriginStatic
  else exists a px, on_gateway a /\ ta_name a = tgr_Attachment sr /\ px ∈ tas_Prefixes (ta_status a) /\
  px_CIDR px = tgr_Dst sr /\ r = MkResolvedTGWRoute (tgr_Dst sr) (ta_name a) (px_Subnet px) false OriginStatic.

(** The entry of [spec.routes] in force for a destination: the last one. *)
Definition static_for (dst : string) : option TransitGatewayRoute :=
  List.find (fun sr => String.eqb (tgr_Dst sr) dst) (rev (tgrt_Routes rt)).

(** The route of a destination: the static one, or the propagated one. *)
Definition selected (dst : string) (r : ResolvedTransitGatewayRoute) : Prop :=
  match static_for dst with
  | Some sr => static_route sr r
  | None => exists a px, propagates a px /\ px_CIDR px = dst /\ r = propagatedRoute a px
  end.

(** One route per destination that has one, and no destination with two
    propagated routes. *)
Record transit_table (routes : list ResolvedTransitGatewayRoute) : Prop := {
  tt_sound : forall r, r ∈ routes -> selected (rtg_Dst r) r;
  tt_static : forall sr, sr ∈ tgrt_Routes rt -> exists r, r ∈ routes /\ rtg_Dst r = tgr_Dst sr;
  tt_propagated : forall a px, propagates a px -> exists r, r ∈ routes /\ rtg_Dst r = px_CIDR px;
  tt_single : NoDup (rtg_Dst <$> routes);
  tt_unambiguous : forall a px a' px', propagates a px -> propagates a' px' -> px_CIDR px = px_CIDR px' ->
  propagatedRoute a px = propagatedRoute a' px' }.
End Table.

(** ** The controller builds it *)

Lemma elem_of_propagatedPrefixes rt attachments a px :
  (a, px) ∈ propagatedPrefixes rt attachments <-> propagates rt attachments a px.
Proof.
  unfold propagatedPrefixes, propagates, on_gateway. rewrite list_elem_of_join. split.
  - intros (l & Hin & Hl). apply list_elem_of_fmap in Hl as (a' & -> & Ha').
    apply list_elem_of_fmap in Hin as (px' & [= -> ->] & Hpx). unfold propagating in Ha'. rewrite sortBy_perm in Ha'.
    apply list_elem_of_In, filter_In in Ha' as [Ha' Hc]. apply list_elem_of_In in Ha'. apply andb_true_iff in Hc as [Hg Hp].
    apply String.eqb_eq in Hg. unfold PropagatesInto in Hp. apply existsb_exists in Hp as (n & Hn & Heq).
    apply String.eqb_eq in Heq as <-. by apply list_elem_of_In in Hn.
  - intros ((Ha & Hg) & Hn & Hpx). exists ((fun px => (a, px)) <$> tas_Prefixes (ta_status a)). split; [by apply list_elem_of_fmap; exists px|].
    apply list_elem_of_fmap. exists a. split; [done|]. unfold propagating. rewrite sortBy_perm.
    apply list_elem_of_In, filter_In. split; [by apply list_elem_of_In|]. apply andb_true_iff. split; [by apply String.eqb_eq|].
    apply existsb_exists. exists (tgrt_name rt). split; [by apply list_elem_of_In|apply String.eqb_refl].
Qed.

(** The loop over the prefixes. *)
Lemma propagatePrefix_spec l m0 c0 m c :
  foldl propagatePrefix (m0, c0) l = (m, c) -> c = [] ->
  c0 = [] /\ NoDup ((px_CIDR ∘ snd) <$> l) /\
  forall dst, m !! dst = match m0 !! dst with
                         | Some r => Some r
                         | None => (fun x => propagatedRoute x.1 x.2) <$> List.find (fun x => String.eqb (px_CIDR x.2) dst) l
                         end /\ (is_Some (m0 !! dst) -> Forall (fun x => px_CIDR x.2 <> dst) l).
Proof.
  revert m0 c0. induction l as [|[a px] l IH]; intros m0 c0 Hf Hc.
  { cbn in Hf. simplify_eq. split; [done|]. split; [constructor|]. intros dst. split; [by destruct (m !! dst)|constructor]. }
  cbn [foldl] in Hf. unfold propagatePrefix at 2 in Hf. cbn [fst snd] in Hf.
  destruct (m0 !! px_CIDR px) as [ex|] eqn:Hex.
  { destruct (IH _ _ Hf Hc) as [Hnil _]. by destruct c0. }
  destruct (IH _ _ Hf Hc) as (-> & Hnd & Hm). split; [done|]. split.
  - rewrite fmap_cons. apply NoDup_cons. split; [|done]. intros Hin. apply list_elem_of_fmap in Hin as (x & Heq & Hx).
    destruct (Hm (px_CIDR px)) as [_ Hfa]. rewrite lookup_insert_eq in Hfa. specialize (Hfa ltac:(eauto)).
    rewrite Forall_forall in Hfa. by apply (Hfa x Hx).
  - intros dst. destruct (Hm dst) as [Hl Hfa]. cbn [List.find snd]. destruct (String.eqb_spec (px_CIDR px) dst) as [<-|Hne].
    + rewrite Hex. rewrite lookup_insert_eq in Hl. split; [by rewrite Hl|by intros [? [=]]].
    + rewrite lookup_insert_ne in Hl, Hfa by done. split; [done|]. intros Hs. constructor; [done|by apply Hfa].
Qed.

Lemma propagatedRoutes_spec rt attachments m :
  propagatedRoutes rt attachments = (m, []) ->
  (forall dst r, m !! dst = Some r <-> exists a px, propagates rt attachments a px /\ px_CIDR px = dst /\ r = propagatedRoute a px) /\
  (forall a px a' px', propagates rt attachments a px -> propagates rt attachments a' px' -> px_CIDR px = px_CIDR px' ->
     propagatedRoute a px = propagatedRoute a' px').
Proof.
  unfold propagatedRoutes. destruct (foldl _ _ _) as [m' c] eqn:Hf. intros [= -> Hc].
  assert (c = []) as ->. { pose proof (sortBy_perm id c) as Hp. rewrite Hc in Hp. by apply Permutation_nil_l in Hp. }
  destruct (propagatePrefix_spec _ _ _ _ _ Hf eq_refl) as (_ & Hnd & Hm).
  assert (Hiff : forall dst r, m !! dst = Some r <-> exists a px, propagates rt attachments a px /\ px_CIDR px = dst /\ r = propagatedRoute a px).
  { intros dst r. destruct (Hm dst) as [-> _]. rewrite lookup_empty. rewrite fmap_Some. split.
    - intros ([a px] & [Hin Heq]%find_some & ->). apply String.eqb_eq in Heq. apply list_elem_of_In in Hin. cbn in *.
      exists a, px. by rewrite <- elem_of_propagatedPrefixes.
    - intros (a & px & Hp & <- & ->). apply elem_of_propagatedPrefixes in Hp.
      destruct (List.find _ _) as [[a' px']|] eqn:Hfd.
      + apply find_some in Hfd as [Hin Heq]. apply String.eqb_eq in Heq. apply list_elem_of_In in Hin.
        exists (a', px'). split; [done|]. cbn in Heq. apply list_elem_of_lookup in Hp as [i Hi]. apply list_elem_of_lookup in Hin as [j Hj].
        assert (i = j) as <-; [|by simplify_eq].
        eapply (NoDup_lookup _ _ _ (px_CIDR px) Hnd); rewrite list_lookup_fmap; [by rewrite Hi|by rewrite Hj; cbn; rewrite Heq].
      + apply list_elem_of_In in Hp. apply (find_none _ _ Hfd) in Hp. cbn in Hp. by rewrite String.eqb_refl in Hp. }
  split; [done|]. intros a px a' px' H1 H2 Heq.
  assert (E1 : m !! px_CIDR px = Some (propagatedRoute a px)) by (apply Hiff; eauto).
  assert (E2 : m !! px_CIDR px = Some (propagatedRoute a' px')) by (apply Hiff; eauto). congruence.
Qed.

Lemma find_app {A} (f : A -> bool) l1 l2 :
  List.find f (l1 ++ l2) = match List.find f l1 with Some x => Some x | None => List.find f l2 end.
Proof. induction l1 as [|x l1 IH]; cbn; [done|]. by destruct (f x). Qed.

Lemma resolveStaticRoute_spec rt sr attachments r :
  resolveStaticRoute rt sr attachments = inl r -> static_route rt attachments sr r /\ rtg_Dst r = tgr_Dst sr.
Proof.
  unfold resolveStaticRoute, static_route. destruct (tgr_Blackhole sr); [by intros [= <-]|].
  destruct (List.find _ attachments) as [a|] eqn:Ha; [|done]. apply find_some in Ha as [Hin Hn]. apply String.eqb_eq in Hn.
  destruct (String.eqb_spec (tga_TransitGateway (ta_spec a)) (tgrt_TransitGateway rt)) as [Hg|]; [|done].
  destruct (List.find _ (tas_Prefixes _)) as [px|] eqn:Hp; [|done]. apply find_some in Hp as [Hpx Hc]. apply String.eqb_eq in Hc.
  intros [= <-]. split; [|done]. exists a, px. apply list_elem_of_In in Hin, Hpx. done.
Qed.

Lemma addStaticRoutes_spec rt attachments l m m' :
  addStaticRoutes rt attachments l m = inl m' ->
  forall dst, match List.find (fun sr => String.eqb (tgr_Dst sr) dst) (rev l) with
  | Some sr => exists r, m' !! dst = Some r /\ static_route rt attachments sr r /\ rtg_Dst r = dst
  | None => m' !! dst = m !! dst
  end.
Proof.
  revert m. induction l as [|sr l IH]; intros m Ha dst; [by cbn in Ha; simplify_eq|].
  cbn [addStaticRoutes] in Ha. destruct (resolveStaticRoute rt sr attachments) as [r|] eqn:Hr; [|done].
  apply resolveStaticRoute_spec in Hr as [Hs Hd]. specialize (IH _ Ha dst). cbn [rev]. rewrite find_app.
  destruct (List.find _ (rev l)) as [sr'|]; [done|]. cbn [List.find]. rewrite IH.
  destruct (String.eqb_spec (tgr_Dst sr) dst) as [<-|Hne]; [|by rewrite lookup_insert_ne].
  exists r. by rewrite lookup_insert_eq.
Qed.

Lemma elem_of_routesByDst m r : r ∈ routesByDst m <-> exists dst, m !! dst = Some r.
Proof.
  unfold routesByDst. rewrite sortBy_perm, list_elem_of_fmap. split.
  - intros ([dst r'] & -> & Hin%elem_of_map_to_list). eauto.
  - intros [dst Hd]. exists (dst, r). by rewrite elem_of_map_to_list.
Qed.

Lemma routesByDst_single m :
  (forall dst r, m !! dst = Some r -> rtg_Dst r = dst) -> NoDup (rtg_Dst <$> routesByDst m).
Proof.
  intros Hk. unfold routesByDst. rewrite sortBy_perm, <- list_fmap_compose.
  replace (rtg_Dst ∘ snd <$> map_to_list m) with ((map_to_list m).*1); [apply NoDup_fst_map_to_list|].
  apply list_fmap_ext. intros i [dst r] Hi. cbn. symmetry. apply Hk, elem_of_map_to_list. by eapply list_elem_of_lookup_2.
Qed.

(** What [Reconcile] computes from the attachments is the table. *)
Lemma computed_table rt attachments m m' :
  propagatedRoutes rt attachments = (m, []) -> addStaticRoutes rt attachments (tgrt_Routes rt) m = inl m' ->
  transit_table rt attachments (routesByDst m').
Proof.
  intros Hp Hs. destruct (propagatedRoutes_spec _ _ _ Hp) as [Hm Huniq].
  pose proof (addStaticRoutes_spec _ _ _ _ _ Hs) as Hst.
  assert (Hsel : forall dst r, m' !! dst = Some r -> rtg_Dst r = dst /\ selected rt attachments dst r).
  { intros dst r Hr. specialize (Hst dst). unfold selected, static_for. destruct (List.find _ _) as [sr|].
    - destruct Hst as (r' & Hr' & ? & ?). rewrite Hr in Hr'. by injection Hr' as <-.
    - rewrite Hst in Hr. apply Hm in Hr as (a & px & Hpx & <- & ->). split; [done|]. eauto. }
  split.
  - intros r [dst Hr]%elem_of_routesByDst. destruct (Hsel dst r Hr) as [<- ?]. done.
  - intros sr Hin. specialize (Hst (tgr_Dst sr)). destruct (List.find _ _) as [sr'|] eqn:Hf.
    + destruct Hst as (r & Hr & _ & Hd). exists r. split; [|done]. apply elem_of_routesByDst. eauto.
    + apply list_elem_of_In, in_rev, (find_none _ _ Hf) in Hin. by rewrite String.eqb_refl in Hin.
  - intros a px Hpx. specialize (Hst (px_CIDR px)).
    assert (exists r, m' !! px_CIDR px = Some r) as [r Hr].
    { destruct (List.find _ _) as [sr|]; [destruct Hst as (r & Hr & _); eauto|]. rewrite Hst. eexists. apply Hm. eauto. }
    exists r. split; [apply elem_of_routesByDst; eauto|]. by apply Hsel.
  - apply routesByDst_single. intros dst r Hr. by apply Hsel.
  - done.
Qed.

(** ** What the controller publishes *)

Section Published.
Context `{KubeLib}.

Definition tgrt_ready (rt : TransitGatewayRouteTable) : bool :=
  IsStatusConditionTrue (tgs_Conditions (tgrt_status rt)) TransitGatewayRouteTableStatusReady.

Lemma readyCondition_true t cs type generation ready reason message :
  IsStatusConditionTrue (readyCondition t cs type generation ready reason message) type = bool_decide (ready = ConditionTrue).
Proof.
  unfold IsStatusConditionTrue, readyCondition.
  destruct (FindStatusCondition_Set t cs (MkCondition type ready reason message generation 0)) as (c & Hfind & _ & Hst & _).
  cbn [Type_] in Hfind. by rewrite Hfind, Hst.
Qed.

(** A status written for [rt]: the routes it had, as not Ready, or routes that
    satisfy [ok]. *)
Definition written_for (rt : TransitGatewayRouteTable) (ok : list ResolvedTransitGatewayRoute -> Prop) (rt' : TransitGatewayRouteTable) : Prop :=
  tgrt_meta rt' = tgrt_meta rt /\ tgrt_TransitGateway rt' = tgrt_TransitGateway rt /\ tgrt_Routes rt' = tgrt_Routes rt /\
  (tgs_Routes (tgrt_status rt') = tgs_Routes (tgrt_status rt) /\ tgrt_ready rt' = false \/ ok (tgs_Routes (tgrt_status rt'))).

Definition writes (rt : TransitGatewayRouteTable) (ok : list ResolvedTransitGatewayRoute -> Prop) R (e : rt_call R) : Prop :=
  match e with UpdateTransitGatewayRouteTableStatus rt' => written_for rt ok rt' | _ => True end.

Lemma updateStatus_writes rt ok routes id ready reason message :
  ok routes \/ routes = tgs_Routes (tgrt_status rt) /\ ready = ConditionFalse ->
  only (writes rt ok) (tgrt_updateStatus rt routes id ready reason message).
Proof.
  intros Hc. unfold tgrt_updateStatus. split; [done|]. intros t. cbn [bind call].
  destruct (_ && _); [done|]. split; [|by intros []]. cbn. split_and!; [done..|]. cbn.
  destruct Hc as [Hok|[-> ->]]; [by right|left]. split; [done|]. unfold tgrt_ready. cbn. by rewrite readyCondition_true.
Qed.

Lemma keep_writes rt ok id reason message res :
  only (writes rt ok) (afterUpdate (tgrt_updateStatus rt (tgs_Routes (tgrt_status rt)) id ConditionFalse reason message) res).
Proof. apply only_tryP; [|done]. apply updateStatus_writes. by right. Qed.

Lemma publish_writes rt (ok : list ResolvedTransitGatewayRoute -> Prop) routes : ok routes -> only (writes rt ok) (tgrt_publish rt routes).
Proof.
  intros Hok. unfold tgrt_publish.
  assert (Hup : forall id ready reason message res, only (writes rt ok) (afterUpdate (tgrt_updateStatus rt routes id ready reason message) res))
    by (intros; apply only_tryP; [apply updateStatus_writes; by left|done]).
  destruct (negb _); [apply Hup|]. split; [done|]. intros r. cbn [bind].
  destruct r as [claim|e]; cbn [res_map_err]; [|apply Hup]. destruct (_ || _); [apply Hup|]. destruct (_ <? _); apply Hup.
Qed.

(** A status on the record is [written_for] the table that was read, from the
    attachments that were read. *)
Definition table_account (name : string) (h : list (entry rt_call)) (x : entry rt_call) : Prop :=
  match x with
  | @Entry _ R e _ =>
      match e with
      | UpdateTransitGatewayRouteTableStatus rt' =>
          exists rt, Entry (GetTransitGatewayRouteTable name) (Ok rt) ∈ h /\
          written_for rt (fun routes => exists attachments, Entry ListAttachments (Ok attachments) ∈ h /\
            transit_table rt attachments routes) rt'
      | _ => True
      end
  end.

Lemma table_account_mono name h h' x : h ⊆ h' -> table_account name h x -> table_account name h' x.
Proof.
  intros Hs. destruct x as [R e r]. destruct e; try done. intros (t & Hg & H1 & H2 & H3 & H4).
  exists t. split; [by apply Hs|]. split_and!; [done..|]. destruct H4 as [H4|(atts & Ha & Ht)]; [by left|right]. eauto.
Qed.

(** The rest of a run once the table was read. *)
Lemma accounts_rest {A} name h rt (ok : list ResolvedTransitGatewayRoute -> Prop) (p : prog rt_call A) :
  accounts (table_account name) h -> Entry (GetTransitGatewayRouteTable name) (Ok rt) ∈ h ->
  (forall routes, ok routes -> exists attachments, Entry ListAttachments (Ok attachments) ∈ h /\ transit_table rt attachments routes) ->
  only (writes rt ok) p -> wpi recorder (accounts (table_account name)) p (fun _ _ => True) h.
Proof.
  intros Hh Hget Hok Hp. apply wpi_accounts; [apply table_account_mono|done|].
  eapply only_impl; [|exact Hp]. intros R e Hw r h' Hs. destruct e; try done. destruct Hw as (H1 & H2 & H3 & H4).
  exists rt. split; [by apply Hs|]. split_and!; [done..|]. destruct H4 as [H4|H4]; [by left|right].
  destruct (Hok _ H4) as (atts & Ha & Ht). eauto.
Qed.

Lemma reconcile_accounted name : wpi recorder (accounts (table_account name)) (tgrt_Reconcile name) (fun _ _ => True) [].
Proof.
  assert (H0 : accounts (table_account name) []) by (intros x Hx; by apply elem_of_nil in Hx).
  pose proof (accounts_snoc _ (table_account_mono name)) as Hsnoc.
  unfold tgrt_Reconcile. split; [done|]. intros r h ->. cbn [bind].
  assert (H1 := Hsnoc _ _ (GetTransitGatewayRouteTable name) r H0 I).
  destruct r as [rt|e]; [|by destruct e]. destruct (IsDeleting (tgrt_meta rt)).
  { apply (accounts_rest name _ rt (fun _ => False)); [done|left|done|apply keep_writes]. }
  unfold tgrt_reconcileLive. split; [done|]. intros r h ->. cbn [bind].
  assert (H2 := Hsnoc _ _ (GetTransitGateway (tgrt_TransitGateway rt)) r H1 I).
  destruct r as [g|e].
  2: { apply (accounts_rest name _ rt (fun _ => False)); [done|left|done|]. destruct e; apply keep_writes. }
  split; [done|]. intros r h ->. cbn [bind]. assert (H3 := Hsnoc _ _ ListAttachments r H2 I).
  destruct r as [atts|e]; [|apply (accounts_rest name _ rt (fun _ => False)); [done|left|done|apply keep_writes]].
  apply (accounts_rest name _ rt (transit_table rt atts)); [done|left|intros routes Ht; exists atts; split; [do 2 right; left|done]|].
  destruct (propagatedRoutes rt atts) as [m [|conflict cs]] eqn:Hp; [|apply keep_writes].
  destruct (addStaticRoutes _ _ _ _) as [m'|message] eqn:Hs; [|apply keep_writes].
  apply publish_writes. by eapply computed_table.
Qed.

Lemma tables_accounted name h rt' ans :
  passes recorder [] (tgrt_Reconcile name) h -> Entry (UpdateTransitGatewayRouteTableStatus rt') ans ∈ h ->
  table_account name h (Entry (UpdateTransitGatewayRouteTableStatus rt') ans).
Proof. intros Hp He. by apply (wpi_passes _ _ _ _ _ _ (reconcile_accounted name) Hp). Qed.

(** Claim C32: a TransitGatewayRouteTable is published whole or not at all.
    Whatever the API server answers, every status a reconciliation writes is
    about the spec it read, and either keeps the routes the table had and is not
    Ready, or holds exactly the table of the attachments that were read: for
    each destination of a static entry the last such entry, resolved, for each
    other destination the one attachment that propagates it, one route each, and
    no destination that two attachments propagate. *)
Theorem transit_table_published name h rt' ans :
  passes recorder [] (tgrt_Reconcile name) h -> Entry (UpdateTransitGatewayRouteTableStatus rt') ans ∈ h ->
  exists rt, Entry (GetTransitGatewayRouteTable name) (Ok rt) ∈ h /\
  tgrt_meta rt' = tgrt_meta rt /\ tgrt_TransitGateway rt' = tgrt_TransitGateway rt /\ tgrt_Routes rt' = tgrt_Routes rt /\
  (tgs_Routes (tgrt_status rt') = tgs_Routes (tgrt_status rt) /\ tgrt_ready rt' = false \/
    exists attachments, Entry ListAttachments (Ok attachments) ∈ h /\
    transit_table rt attachments (tgs_Routes (tgrt_status rt'))).
Proof. apply tables_accounted. Qed.

(** ** From the attachments to a packet *)

(** The states of a table in the cluster: created without routes, written by
    the controller from a state it had, and edited by users, who write no
    status. *)
Inductive controlled : TransitGatewayRouteTable -> Prop :=
| controlled_new rt : tgs_Routes (tgrt_status rt) = [] -> controlled rt
| controlled_written name h rt' ans :
    passes recorder [] (tgrt_Reconcile name) h -> Entry (UpdateTransitGatewayRouteTableStatus rt') ans ∈ h ->
    (forall rt, Entry (GetTransitGatewayRouteTable name) (Ok rt) ∈ h -> controlled rt) -> controlled rt'
| controlled_edited rt rt' :
    controlled rt -> tgrt_name rt' = tgrt_name rt -> tgrt_status rt' = tgrt_status rt -> controlled rt'.

(** The route comes from an attachment: it was on the gateway of the table and
    had the prefix, and propagated into the table or was named by a static
    entry. *)
Definition admitted_by (name : string) (r : ResolvedTransitGatewayRoute) : Prop :=
  exists rt attachments a px, tgrt_name rt = name /\ on_gateway rt attachments a /\ px ∈ tas_Prefixes (ta_status a) /\
  px_CIDR px = rtg_Dst r /\ px_Subnet px = rtg_Subnet r /\ ta_name a = rtg_Attachment r /\
  (name ∈ Propagations (ta_spec a) \/
    exists sr, sr ∈ tgrt_Routes rt /\ tgr_Blackhole sr = false /\ tgr_Attachment sr = ta_name a /\ tgr_Dst sr = rtg_Dst r).

Lemma selected_admitted rt attachments r :
  selected rt attachments (rtg_Dst r) r -> rtg_Blackhole r = false -> admitted_by (tgrt_name rt) r.
Proof.
  unfold selected. destruct (static_for rt (rtg_Dst r)) as [sr|] eqn:Hsf.
  - apply find_some in Hsf as [Hin Hd]. apply in_rev, list_elem_of_In in Hin. apply String.eqb_eq in Hd.
    unfold static_route. destruct (tgr_Blackhole sr) eqn:Hb; [by intros ->|].
    intros (a & px & Hg & Hn & Hpx & Hc & Hr) _. exists rt, attachments, a, px. rewrite Hr in Hd |- *. cbn in *.
    split_and!; [done..|]. right. exists sr. by rewrite Hn.
  - intros (a & px & (Hg & Hn & Hpx) & Hc & Hr) _. exists rt, attachments, a, px. subst r. cbn in *.
    split_and!; [done..|by left].
Qed.

Lemma controlled_admitted rt r :
  controlled rt -> r ∈ tgs_Routes (tgrt_status rt) -> rtg_Blackhole r = false -> admitted_by (tgrt_name rt) r.
Proof.
  intros Hc. revert r. induction Hc as [rt Hn|name h rt' ans Hp He _ IH|rt rt' _ IH Hn Hs]; intros r Hr Hb.
  - rewrite Hn in Hr. by apply elem_of_nil in Hr.
  - destruct (tables_accounted _ _ _ _ Hp He) as (rt & Hget & Hm & _ & _ & Hor).
    unfold tgrt_name. rewrite Hm. destruct Hor as [[Hkeep _]|(atts & _ & Ht)].
    + rewrite Hkeep in Hr. by apply (IH rt Hget).
    + eapply selected_admitted; [|done]. by apply (tt_sound _ _ _ Ht).
  - rewrite Hn. rewrite Hs in Hr. by apply IH.
Qed.

(** A route that forwards is connected: it leads to the segment of its Subnet
    as that was read, from the gateway of the Subnet. *)
Lemma transit_forwards h r v d dst vni dmac smac :
  transit_value h r (Some v) -> transit_action d v dst = ForwardL2 vni dmac smac ->
  rtg_Blackhole r = false /\ on_subnet h (rtg_Subnet r) vni smac /\ arp_table d !! (vni, dst) = Some dmac.
Proof.
  unfold transit_value, transit_action, forwardNeighbor. destruct (rtg_Blackhole r); [by intros [= ->]|].
  intros (vni' & smac' & Hon & ->). cbn. destruct (arp_table d !! _) as [mac|] eqn:Ha; [|done].
  destruct (_ =? 0); [done|]. by intros [= <- <- <-].
Qed.

(** Claim C33: a packet crosses a transit gateway only into a Subnet that an
    attachment brought into its table.  At every moment of every history of the
    FIB reconcilers and the table controller, with any failures, when the second
    lookup forwards a packet, it takes a route of one table read with that id
    that covers its destination; the route was resolved from an attachment on
    the gateway of the table whose prefixes had that destination and that
    Subnet, and which propagated into the table or was named by one of its
    static routes; and the packet goes to the neighbour of its destination in
    the segment of that very Subnet, with the VNI and the gateway MAC (as the
    source) that were read from it. *)
Theorem transit_delivery_admitted s d id dst vni dmac smac :
  moment s -> tables_of d s ->
  (forall rt, rt ∈ tgw_seen s -> tgs_TableID (tgrt_status rt) = id -> controlled rt) ->
  handle_transit d id dst = ForwardL2 vni dmac smac ->
  exists rt r p,
  rt ∈ tgw_seen s /\ tgs_TableID (tgrt_status rt) = id /\ id <> 0 /\ r ∈ tgs_Routes (tgrt_status rt) /\
  dst_prefix (rtg_Dst r) = Some p /\ covers p dst = true /\
  admitted_by (tgrt_name rt) r /\
  on_subnet (reads s) (rtg_Subnet r) vni smac /\ arp_table d !! (vni, dst) = Some dmac.
Proof.
  intros Hm [_ Ht] Hc Hh. unfold handle_transit in Hh. rewrite Ht in Hh.
  destruct (visible TransitLayer s !! id) as [t|] eqn:Hl; [|done].
  destruct (visible_whole _ _ _ _ Hm Hl) as (rt & es & Hin & Hid & Hnz & Hf & ->).
  rewrite lpm_image in Hh by (by eapply tgw_filled_ok). destruct (longest es dst) as [e|] eqn:He; [|done]. cbn in Hh.
  destruct (longest_Some _ _ _ He) as (Hine & Hcov & _).
  destruct (filled_entry _ _ _ _ Hf Hine) as (r & es1 & Hr & Hcon & He1).
  destruct (contributes_entry _ _ _ _ Hcon He1) as (Hp & Hv).
  destruct (transit_forwards _ r e.2 d dst vni dmac smac Hv Hh) as (Hb & Hs & Ha).
  exists rt, r, e.1. split_and!; try done. by apply controlled_admitted; [apply Hc|..].
Qed.
End Published.
