(* ===== verification/LinkTheorems.v ===== *)
(** * LinkTheorems: what attachments and peerings publish

    The statuses the controllers of TransitGatewayAttachments and VpcPeerings
    write, against the answers they were given. *)

From stdpp Require Import base gmap strings list fin_maps.
From Stdlib Require Import ZArith Lia.
From S2P Require Import Prelude Effects Netip IPNet Kube AllocationTypes PodNetwork.
From S2P Require Import NetworkInterfaceReconciler ElasticIPReconciler AddressPlan RouteTypes RouteTable TransitGateway TransitTheorems.

Open Scope Z_scope.

Section Links.
Context `{KubeLib}.

(** ** Attachments *)

Definition tga_ready (a : AttachmentObject) : bool :=
  IsStatusConditionTrue (tas_Conditions (ta_status a)) TransitGatewayAttachmentStatusReady.

(** The tables of the attachment were read and are on its gateway. *)
Definition tables_checked (h : list (entry tg_call)) (spec : TransitGatewayAttachment) (tables : list string) : Prop :=
  forall t, t ∈ tables -> exists rt, Entry (TgRtCall (GetTransitGatewayRouteTable t)) (Ok rt) ∈ h /\
  tgrt_TransitGateway rt = tga_TransitGateway spec.

(** The prefixes are the Subnets of the Vpc as they were listed. *)
Definition prefixes_read (h : list (entry tg_call)) (spec : TransitGatewayAttachment) (prefixes : list TransitGatewayAttachmentPrefix) : Prop :=
  exists subnets, Entry (TgRtCall (ListSubnets (tga_Vpc spec))) (Ok subnets) ∈ h /\ prefixes = prefixesOf subnets /\
  tables_checked h spec (RouteTables spec).

Definition tga_account (name : string) (h : list (entry tg_call)) (x : entry tg_call) : Prop :=
  match x with
  | @Entry _ R e _ =>
      match e with
      | UpdateAttachmentStatus a' =>
          exists a, Entry (GetAttachmentObject name) (Ok a) ∈ h /\ ta_meta a' = ta_meta a /\ ta_spec a' = ta_spec a /\
          (tas_Prefixes (ta_status a') = tas_Prefixes (ta_status a) /\ tga_ready a' = false \/
            prefixes_read h (ta_spec a) (tas_Prefixes (ta_status a')))
      | _ => True
      end
  end.

Lemma prefixes_read_mono h h' spec prefixes : h ⊆ h' -> prefixes_read h spec prefixes -> prefixes_read h' spec prefixes.
Proof.
  intros Hs (subnets & Hl & Hp & Ht). exists subnets. split_and!; [by apply Hs|done|]. intros t Hin.
  destruct (Ht t Hin) as (rt & Hrt & Hg). exists rt. split; [by apply Hs|done].
Qed.

Lemma tga_account_mono name h h' x : h ⊆ h' -> tga_account name h x -> tga_account name h' x.
Proof.
  intros Hs. destruct x as [R e r]. destruct e; try done. intros (t & Hg & H1 & H2 & H3).
  exists t. split_and!; [by apply Hs|done..|]. destruct H3 as [H3|H3]; [by left|right; by eapply prefixes_read_mono].
Qed.

(** A status that is written once the attachment was read. *)
Lemma tga_update_accounts name h a prefixes ready reason message res :
  accounts (tga_account name) h -> Entry (GetAttachmentObject name) (Ok a) ∈ h ->
  prefixes_read h (ta_spec a) prefixes \/ prefixes = tas_Prefixes (ta_status a) /\ ready = ConditionFalse ->
  wpi recorder (accounts (tga_account name)) (afterUpdate (tga_updateStatus a prefixes ready reason message) res) (fun _ _ => True) h.
Proof.
  intros Hh Hget Hc. apply wpi_accounts; [apply tga_account_mono|done|]. apply only_tryP; [|done].
  split; [done|]. intros t. cbn [bind call]. destruct (_ && _); [done|]. split; [|by intros []].
  intros r h' Hs. exists a. split_and!; [by apply Hs|done..|]. cbn. destruct Hc as [Hc|[-> ->]]; [right; by eapply prefixes_read_mono|left].
  split; [done|]. unfold tga_ready. cbn. by rewrite readyCondition_true.
Qed.

Lemma tga_keep_accounts name h a reason message res :
  accounts (tga_account name) h -> Entry (GetAttachmentObject name) (Ok a) ∈ h ->
  wpi recorder (accounts (tga_account name)) (tga_keep a reason message res) (fun _ _ => True) h.
Proof. intros Hh Hget. apply tga_update_accounts; [done|done|by right]. Qed.

Lemma tga_tables_accounts name a rest pre h :
  accounts (tga_account name) h -> Entry (GetAttachmentObject name) (Ok a) ∈ h ->
  RouteTables (ta_spec a) = pre ++ rest -> tables_checked h (ta_spec a) pre ->
  wpi recorder (accounts (tga_account name)) (tga_checkTables a rest) (fun _ _ => True) h.
Proof.
  revert pre h. induction rest as [|t rest IH]; intros pre h Hh Hget Hsplit Hpre; cbn [tga_checkTables].
  - split; [done|]. intros r h' ->. cbn [bind]. assert (Hh1 := accounts_snoc _ (tga_account_mono name) _ _ (TgRtCall (ListSubnets (tga_Vpc (ta_spec a)))) r Hh I).
    destruct r as [subnets|e]; cbn [res_map]; [|apply tga_keep_accounts; [done|set_solver]].
    apply tga_update_accounts; [done|set_solver|left]. rewrite app_nil_r in Hsplit. exists subnets.
    split_and!; [set_solver|done|]. rewrite Hsplit. intros t Ht. destruct (Hpre t Ht) as (rt & ? & ?). exists rt. set_solver.
  - split; [done|]. intros r h' ->. cbn [bind]. assert (Hh1 := accounts_snoc _ (tga_account_mono name) _ _ (TgRtCall (GetTransitGatewayRouteTable t)) r Hh I).
    destruct r as [rt|e]; [|destruct e; (apply tga_keep_accounts; [done|set_solver])].
    destruct (String.eqb_spec (tgrt_TransitGateway rt) (tga_TransitGateway (ta_spec a))) as [Hg|Hg]; [|apply tga_keep_accounts; [done|set_solver]].
    apply (IH (pre ++ [t])); [done|set_solver|by rewrite <- app_assoc|].
    intros t' [Ht'|Ht']%elem_of_app; [destruct (Hpre t' Ht') as (rt' & ? & ?); exists rt'; set_solver|].
    apply list_elem_of_singleton in Ht' as ->. exists rt. set_solver.
Qed.

Lemma tga_Reconcile_accounts name : wpi recorder (accounts (tga_account name)) (tga_Reconcile name) (fun _ _ => True) [].
Proof.
  assert (H0 : accounts (tga_account name) []) by (intros x Hx; by apply elem_of_nil in Hx).
  pose proof (accounts_snoc _ (tga_account_mono name)) as Hsnoc.
  unfold tga_Reconcile. split; [done|]. intros r h ->. cbn [bind]. assert (H1 := Hsnoc _ _ (GetAttachmentObject name) r H0 I).
  destruct r as [a|e]; [|by destruct e]. destruct (IsDeleting _); [apply tga_keep_accounts; [done|left]|].
  split; [done|]. intros r h ->. cbn [bind]. assert (H2 := Hsnoc _ _ (TgRtCall (GetTransitGateway (tga_TransitGateway (ta_spec a)))) r H1 I).
  destruct r as [g|e]; [|destruct e; (apply tga_keep_accounts; [done|left])].
  split; [done|]. intros r h ->. cbn [bind]. assert (H3 := Hsnoc _ _ (GetVpcID (tga_Vpc (ta_spec a))) r H2 I).
  destruct r as [id|e]; [|destruct e; (apply tga_keep_accounts; [done|left])].
  destruct (id =? 0); [apply tga_keep_accounts; [done|left]|].
  apply (tga_tables_accounts name a _ []); [done|left|done|]. intros t Ht. by apply elem_of_nil in Ht.
Qed.

Lemma distinct_names_complete seen names t : t ∈ names -> t <> ""%string -> t ∈ seen \/ t ∈ distinct_names seen names.
Proof.
  revert seen. induction names as [|n names IH]; intros seen Ht Hne; [by apply elem_of_nil in Ht|]. cbn.
  destruct (String.eqb_spec n "") as [->|Hn]; cbn.
  { apply elem_of_cons in Ht as [->|Ht]; [done|]. by apply IH. }
  case_bool_decide as Hs.
  - apply elem_of_cons in Ht as [->|Ht]; [by left|]. by apply IH.
  - apply elem_of_cons in Ht as [->|Ht]; [right; left|]. destruct (IH (n :: seen) Ht Hne) as [Hin|Hin]; set_solver.
Qed.

(** Claim C35: an attachment advertises the Subnets of its Vpc and nothing else.
    Whatever the API server answers, every status a reconciliation of a
    TransitGatewayAttachment writes keeps the prefixes it had and is not Ready,
    or lists exactly the Subnets of its Vpc as they were read, after every route
    table it associates with or propagates into was read and found on the
    gateway of the attachment. *)
Theorem attachment_published name h a' ans :
  passes recorder [] (tga_Reconcile name) h -> Entry (UpdateAttachmentStatus a') ans ∈ h ->
  exists a, Entry (GetAttachmentObject name) (Ok a) ∈ h /\ ta_meta a' = ta_meta a /\ ta_spec a' = ta_spec a /\
  (tas_Prefixes (ta_status a') = tas_Prefixes (ta_status a) /\ tga_ready a' = false \/
    exists subnets : list Subnet, Entry (TgRtCall (ListSubnets (tga_Vpc (ta_spec a)))) (Ok subnets) ∈ h /\
    tas_Prefixes (ta_status a') ≡ₚ subnetPrefix <$> subnets /\
    forall t, t ∈ Association (ta_spec a) :: Propagations (ta_spec a) -> t <> ""%string ->
    exists rt, Entry (TgRtCall (GetTransitGatewayRouteTable t)) (Ok rt) ∈ h /\
    tgrt_TransitGateway rt = tga_TransitGateway (ta_spec a)).
Proof.
  intros Hp He. destruct (wpi_passes _ _ _ _ _ _ (tga_Reconcile_accounts name) Hp _ He) as (a & Hget & Hm & Hs & Hor).
  exists a. split_and!; [done..|]. destruct Hor as [Hor|(subnets & Hl & -> & Ht)]; [by left|right].
  exists subnets. split_and!; [done|apply sortBy_perm|]. intros t Hin Hne. apply Ht.
  by destruct (distinct_names_complete [] _ t Hin Hne) as [?%elem_of_nil|].
Qed.

(** ** Peerings *)

Definition peering_ready (p : VpcPeeringObject) : bool := IsStatusConditionTrue (vpo_Conditions p) VpcPeeringStatusReady.

(** What must have been read before a peering is Ready: ids of both Vpcs, and
    Subnets that are apart. *)
Definition vpc_has_id (h : list (entry tg_call)) (vpc : string) : Prop :=
  exists id, Entry (GetVpcID vpc) (Ok id) ∈ h /\ id <> 0.

Definition subnets_apart (h : list (entry tg_call)) (requester accepter : string) : Prop :=
  exists as_ bs : list Subnet,
  Entry (TgRtCall (ListSubnets requester)) (Ok as_) ∈ h /\ Entry (TgRtCall (ListSubnets accepter)) (Ok bs) ∈ h /\
  forall a b na nb ip, a ∈ as_ -> b ∈ bs -> ParseNet (sub_CIDR a) = Some na -> ParseNet (sub_CIDR b) = Some nb ->
  IPNet_Contains na ip = true -> IPNet_Contains nb ip = true -> False.

Definition peering_account (h : list (entry tg_call)) (x : entry tg_call) : Prop :=
  match x with
  | @Entry _ R e _ =>
      match e with
      | UpdatePeeringStatus p =>
          peering_ready p = true ->
          vpc_has_id h (Requester (vpo_spec p)) /\ vpc_has_id h (Accepter (vpo_spec p)) /\
          subnets_apart h (Requester (vpo_spec p)) (Accepter (vpo_spec p))
      | _ => True
      end
  end.

Lemma vpc_has_id_mono h h' vpc : h ⊆ h' -> vpc_has_id h vpc -> vpc_has_id h' vpc.
Proof. intros Hs (id & Hin & Hne). exists id. split; [by apply Hs|done]. Qed.

Lemma peering_account_mono h h' x : h ⊆ h' -> peering_account h x -> peering_account h' x.
Proof.
  intros Hs. destruct x as [R e r]. destruct e; try done. intros Hp Hr.
  destruct (Hp Hr) as (H1 & H2 & as_ & bs & Ha & Hb & Hap).
  split_and!; [by eapply vpc_has_id_mono|by eapply vpc_has_id_mono|]. exists as_, bs. split_and!; [by apply Hs|by apply Hs|done].
Qed.

(** The messages name every overlap. *)
Lemma overlapMessages_nil requester accepter as_ bs a b na nb ip :
  overlapMessages requester accepter as_ bs = [] -> a ∈ as_ -> b ∈ bs ->
  ParseNet (sub_CIDR a) = Some na -> ParseNet (sub_CIDR b) = Some nb ->
  IPNet_Contains na ip = true -> IPNet_Contains nb ip = true -> False.
Proof.
  intros Hnil Ha Hb Hna Hnb Hia Hib.
  assert (Hov : ipNetsOverlap na nb = true).
  { apply (cidrsOverlap_iff na nb); [by eapply ParseNet_wf|by eapply ParseNet_wf|eauto]. }
  assert (Hjoin : forall A B (f : A -> list B) l x, mjoin (f <$> l) = [] -> x ∈ l -> f x = []).
  { intros A B f l x Hj Hx. destruct (f x) as [|y ys] eqn:Hfx; [done|]. exfalso. eapply (not_elem_of_nil y). rewrite <- Hj.
    apply list_elem_of_join. exists (f x). split; [rewrite Hfx; left|]. by apply list_elem_of_fmap_2. }
  pose proof (Hjoin _ _ _ _ a Hnil Ha) as H1. cbn beta in H1. rewrite Hna in H1.
  pose proof (Hjoin _ _ _ _ b H1 Hb) as H2. cbn beta in H2. by rewrite Hnb, Hov in H2.
Qed.

Lemma peering_update_accounts h p ready reason message res :
  accounts peering_account h ->
  (ready = ConditionTrue -> vpc_has_id h (Requester (vpo_spec p)) /\ vpc_has_id h (Accepter (vpo_spec p)) /\
    subnets_apart h (Requester (vpo_spec p)) (Accepter (vpo_spec p))) ->
  wpi recorder (accounts peering_account) (afterUpdate (peering_updateStatus p ready reason message) res) (fun _ _ => True) h.
Proof.
  intros Hh Hc. apply wpi_accounts; [apply peering_account_mono|done|]. apply only_tryP; [|done].
  split; [done|]. intros t. cbn [bind call]. destruct (_ && _); [done|]. split; [|by intros []].
  intros r h' Hs. eapply peering_account_mono; [exact Hs|]. cbn. unfold peering_ready. cbn. rewrite readyCondition_true.
  intros Hr. to_prop. by apply Hc.
Qed.

Lemma peering_subnets_accounts h p :
  accounts peering_account h -> vpc_has_id h (Requester (vpo_spec p)) -> vpc_has_id h (Accepter (vpo_spec p)) ->
  wpi recorder (accounts peering_account) (peering_checkSubnets p) (fun _ _ => True) h.
Proof.
  intros Hh Hr Ha. unfold peering_checkSubnets, conflictingSubnets. split; [done|]. intros r h1 ->. cbn [bind].
  assert (H1 := accounts_snoc _ peering_account_mono _ _ (TgRtCall (ListSubnets (Requester (vpo_spec p)))) r Hh I).
  destruct r as [as_|e]; cbn; [|by apply peering_update_accounts]. split; [done|]. intros r h2 ->. cbn [bind].
  assert (H2 := accounts_snoc _ peering_account_mono _ _ (TgRtCall (ListSubnets (Accepter (vpo_spec p)))) r H1 I).
  destruct r as [bs|e]; cbn; [|by apply peering_update_accounts].
  destruct (sortBy id _) as [|m ms] eqn:Hm; [|by apply peering_update_accounts].
  apply peering_update_accounts; [done|]. intros _.
  split_and!; [by eapply vpc_has_id_mono; [|exact Hr]; set_solver|by eapply vpc_has_id_mono; [|exact Ha]; set_solver|].
  exists as_, bs. split_and!; [set_solver|set_solver|]. intros a b na nb ip. apply overlapMessages_nil with (requester := Requester (vpo_spec p)) (accepter := Accepter (vpo_spec p)).
  pose proof (sortBy_perm id (overlapMessages (Requester (vpo_spec p)) (Accepter (vpo_spec p)) as_ bs)) as Hp. rewrite Hm in Hp.
  by apply Permutation_nil_l in Hp.
Qed.

Lemma peering_vpcs_accounts p rest pre h :
  accounts peering_account h -> [Requester (vpo_spec p); Accepter (vpo_spec p)] = pre ++ rest ->
  (forall vpc, vpc ∈ pre -> vpc_has_id h vpc) ->
  wpi recorder (accounts peering_account) (peering_checkVpcs p rest) (fun _ _ => True) h.
Proof.
  revert pre h. induction rest as [|vpc rest IH]; intros pre h Hh Hsplit Hpre; cbn [peering_checkVpcs].
  { rewrite app_nil_r in Hsplit. apply peering_subnets_accounts; [done|apply Hpre; rewrite <- Hsplit; set_solver..]. }
  split; [done|]. intros r h' ->. cbn [bind]. assert (H1 := accounts_snoc _ peering_account_mono _ _ (GetVpcID vpc) r Hh I).
  destruct r as [id|e]; [|destruct e; by apply peering_update_accounts].
  destruct (Z.eqb_spec id 0) as [|Hne]; [by apply peering_update_accounts|].
  apply (IH (pre ++ [vpc])); [done|by rewrite <- app_assoc|]. intros v [Hv|Hv]%elem_of_app.
  - eapply vpc_has_id_mono; [|by apply Hpre]. set_solver.
  - apply list_elem_of_singleton in Hv as ->. exists id. set_solver.
Qed.

Lemma peering_Reconcile_accounts name : wpi recorder (accounts peering_account) (peering_Reconcile name) (fun _ _ => True) [].
Proof.
  assert (H0 : accounts peering_account []) by (intros x Hx; by apply elem_of_nil in Hx).
  unfold peering_Reconcile. split; [done|]. intros r h ->. cbn [bind].
  assert (H1 := accounts_snoc _ peering_account_mono _ _ (GetPeeringObject name) r H0 I).
  destruct r as [p|e]; [|by destruct e]. destruct (IsDeleting _); [by apply peering_update_accounts|].
  apply (peering_vpcs_accounts p _ []); [done|done|]. intros v Hv. by apply elem_of_nil in Hv.
Qed.

(** Claim C36: a VpcPeering is Ready only between Vpcs that can be told apart.
    Whatever the API server answers, when a reconciliation writes a peering as
    Ready it has read both Vpcs with an id, and has listed the Subnets of both
    without an address that lies in a Subnet of each. *)
Theorem peering_ready_apart name h p ans :
  passes recorder [] (peering_Reconcile name) h -> Entry (UpdatePeeringStatus p) ans ∈ h -> peering_ready p = true ->
  vpc_has_id h (Requester (vpo_spec p)) /\ vpc_has_id h (Accepter (vpo_spec p)) /\
  subnets_apart h (Requester (vpo_spec p)) (Accepter (vpo_spec p)).
Proof. intros Hp He. exact (wpi_passes _ _ _ _ _ _ (peering_Reconcile_accounts name) Hp _ He). Qed.
End Links.
