(* ===== verification/RoutingWitness.v ===== *)
(** * RoutingWitness: routing evaluated

    A cluster that answers the controller, a node that answers the FIB
    reconcilers, runs of both on concrete tables, and the cases where the code
    falls short of its intent. *)

From stdpp Require Import base gmap strings list fin_maps.
From Stdlib Require Import ZArith Lia.
From S2P Require Import Prelude Effects Netip NetipFacts IPNet Kube PolicyEval PolicyStores OwnedAddr.
From S2P Require Import AllocationTypes AllocationAPI PodNetwork NetworkInterfaceReconciler ElasticIPReconciler.
From S2P Require Import AddressPlan RouteTypes RouteTable RouteTableWebhook Fib FibTables FibPublish RoutingTheorems.

Open Scope Z_scope.

(** ** A cluster *)

Record cluster := MkCluster {
  c_vpc : Vpc;
  c_subnets : list Subnet;
  c_natGateways : list NATGateway;
  c_interfaces : list NetworkInterface;
  c_leases : list AllocationLease;
  c_endpoints : list NetworkEndpoint;
}.

Definition found {A} (o : option A) : result api_error A := match o with Some a => Ok a | None => Err NotFound end.

(** The answers of an API server on which nothing fails; the state is the
    stored RouteTable. *)
Definition controller_server (c : cluster) : handler rt_call RouteTable :=
  fun R e rt =>
  match e in rt_call R return R * RouteTable with
  | GetRouteTable name => (if String.eqb name (rtb_name rt) then Ok rt else Err NotFound, rt)
  | UpdateRouteTableStatus rt' => (Ok tt, rt')
  | ListRouteTables => (Ok [rt], rt)
  | ListTablesWithEndpointsIn ns => (Ok [rt], rt)
  | GetVpc name => (if String.eqb name (vpc_Name (c_vpc c)) then Ok (c_vpc c) else Err NotFound, rt)
  | ListSubnets vpc => (Ok (List.filter (fun s => String.eqb (sub_Vpc s) vpc) (c_subnets c)), rt)
  | ListL2Networks _ => (Ok [], rt)
  | ListServices => (Ok [], rt)
  | GetNATGateway name => (found (List.find (fun g => String.eqb (ng_Name g) name) (c_natGateways c)), rt)
  | GetVpcPeering _ => (Err NotFound, rt)
  | ListVpcPeerings => (Ok [], rt)
  | GetTransitGateway _ => (Err NotFound, rt)
  | GetTransitGatewayRouteTable _ => (Err NotFound, rt)
  | ListAttachments => (Ok [], rt)
  | ListInterfacesOf ns identity =>
      (Ok (List.filter (fun n => String.eqb (Namespace (nic_meta n)) ns &&
                                 String.eqb (nic_AllocationIdentity (nic_spec n)) identity) (c_interfaces c)), rt)
  | ListEndpointsOf ns uid =>
      (Ok (List.filter (fun ep => String.eqb (nwep_Namespace ep) ns &&
              match nwep_PodRef ep with Some (u, _) => String.eqb u uid | None => false end) (c_endpoints c)), rt)
  | GetLease name => (found (List.find (fun l => String.eqb (lease_name l) name) (c_leases c)), rt)
  | GetClaim _ => (Err NotFound, rt)
  | CreateOrUpdateClaim name mutate =>
      (mutate (newAllocationClaim "" "" "" "" "" ""), rt)
  | UpdateTransitGatewayRouteTableStatus _ => (Ok tt, rt)
  | ListTransitGatewayRouteTables => (Ok [], rt)
  | RtNow => (0, rt)
  end.

(** The RouteTable after one reconciliation. *)
Definition reconciled (c : cluster) (rt : RouteTable) : RouteTable :=
  (run (controller_server c) (rt_Reconcile None (rtb_name rt)) rt).2.

(** ** A node *)

(** What the daemon reads: the RouteTables, and for every other object one
    answer. *)
Record node_api := MkNodeApi {
  n_tables : list RouteTable; n_subnets : list (string * SubnetStatus);
  n_endpoints : list (string * string * string); n_gateways : list (string * Z) }.

Definition noted {R} (s : fstate) (e : fib_call R) (r : R) : R * fstate := (r, note s e r).

Definition node_server (api : node_api) : handler fib_call fstate :=
  fun R e s =>
  match e in fib_call R return R * fstate with
  | FibNewMap _ =>
      let h := Z.of_nat (size (tries s)) in
      match tries s !! h with
      | Some _ => (Err (BpfError "EMFILE"), s)
      | None => (Ok h, set_open (set_tries s (<[h := ∅]> (tries s))) ({[h]} ∪ open_maps s))
      end
  | FibInnerUpdate h k v =>
      if Prefixlen k <=? 32 then (Ok tt, set_tries s (alter (<[lpm_prefix k := v]>) h (tries s)))
      else (Err (BpfError "EINVAL"), s)
  | FibCloseMap h => (Ok tt, set_open s (open_maps s ∖ {[h]}))
  | FibOuterUpdate l id h => (Ok tt, set_outer l s (<[id := h]> (fib_outer l s)))
  | FibOuterDelete l id => (Ok tt, set_outer l s (delete id (fib_outer l s)))
  | FibGetRouteTable name =>
      let r := found (List.find (fun rt => String.eqb (rtb_name rt) name) (n_tables api)) in
      (r, note (see s r) (FibGetRouteTable name) r)
  | FibGetTransitTable name => (Err NotFound, note s (FibGetTransitTable name) (Err NotFound))
  | FibGetSubnet name => noted s (FibGetSubnet name) (found (snd <$> List.find (fun x => String.eqb x.1 name) (n_subnets api)))
  | FibGetL2Network name => noted s (FibGetL2Network name) (Err NotFound)
  | FibGetEndpoint ns name => noted s (FibGetEndpoint ns name)
      (found (snd <$> List.find (fun x => String.eqb x.1.1 ns && String.eqb x.1.2 name) (n_endpoints api)))
  | FibGetNATGateway name =>
      noted s (FibGetNATGateway name) (found (snd <$> List.find (fun x => String.eqb x.1 name) (n_gateways api)))
  | FibListRouteTables => noted s FibListRouteTables (Ok (rtb_name <$> n_tables api))
  | FibListTransitTables => noted s FibListTransitTables (Ok [])
  end.

Lemma node_server_ok api R (e : fib_call R) s r s' : server_of (node_server api) R e s r s' -> fib_server R e s r s'.
Proof.
  unfold server_of, fib_server. destruct e; cbn [node_server fib_effect]; try (by intros [= <- <-]).
  - destruct (tries s !! _) eqn:Ht; by intros [= <- <-].
  - destruct (Prefixlen k <=? 32) eqn:Hl; intros [= <- <-]; [|done]. to_prop. done.
Qed.

(** A reconciliation of the FIB on the node. *)
Definition node_run (api : node_api) (op : fib_operation) (st : snapshots * snapshots * fstate)
  : snapshots * snapshots * fstate :=
  let '(vs, ts, s) := st in run (node_server api) (fib_run op vs ts) s.

Definition node_start : snapshots * snapshots * fstate := (∅, ∅, MkF ∅ ∅ ∅ ∅ [] [] []).

Definition node_settled (st : snapshots * snapshots * fstate) : Prop := settled st.1.1 st.1.2 st.2.

Lemma node_run_settled api op st : node_settled st -> node_settled (node_run api op st).
Proof.
  destruct st as [[vs ts] s]. unfold node_settled, node_run. cbn [fst snd]. intros Hs.
  pose proof (run_exec (node_server api) (fib_run op vs ts) s) as Hex.
  destruct (run (node_server api) (fib_run op vs ts) s) as [[vs' ts'] s']. cbn [fst snd] in *.
  eapply settled_run; [exact Hs|]. eapply exec_mono; [|exact Hex]. apply node_server_ok.
Qed.

Lemma settled_moment vs ts s : settled vs ts s -> moment s.
Proof. intros Hs. exists vs, ts, s, CloseTables. split; [done|constructor]. Qed.

(** The packet programs of the node, with neighbours. *)
Definition node_dataplane (s : fstate) (arp : gmap (Z * Z) (list Z)) : dataplane :=
  MkDataplane (visible VpcLayer s) (visible TransitLayer s) arp ∅.

Lemma node_tables s arp : tables_of (node_dataplane s arp) s.
Proof. by split. Qed.

(** ** A Vpc with a firewall *)

Definition a_vpc : Vpc := MkVpc "v" None None false None.
Definition apps : Subnet := MkSubnet "apps" None "v" "10.0.1.0/24" "" "".
Definition dmz : Subnet := MkSubnet "dmz" None "v" "10.0.2.0/24" "" "".
Definition a_gateway : NATGateway := MkNATGateway "gw" "v" 7.

Definition fw_nic : NetworkInterface :=
  MkNIC (MkMeta "fw.eth0" "infra" "" "" 1 [] None []) 0
    (MkNICSpec (MkPodRef "uid-1" "fw" "eth0") "" "dmz" "" "" "" [] "firewall" None)
    (MkNICStatus [] 0 NetworkInterfacePhaseNone "" "" [] [] None).
Definition fw_lease : AllocationLease :=
  MkLease (NewMeta (leaseNameForNetworkInterface fw_nic))
    (MkLeaseSpec "subnet-ip-dmz" (MkValue 0 "10.0.2.5") (MkClaimRef (claimNameForNetworkInterface fw_nic) "u")
       None None None None)
    (MkLeaseStatus 0 LeasePhaseActive None None []).
Definition fw_endpoint : NetworkEndpoint := MkNetworkEndpoint "infra" "ep-fw" (Some ("uid-1", "eth0")%string) "dmz" "02:00:00:00:00:05".

Definition default_route : Route := MkSpecRoute "0.0.0.0/0" (via_only ViaInternetGateway).
Definition gateway_route : Route := MkSpecRoute "10.9.0.0/16" (MkRouteVia ViaNATGateway None "gw" "" "").
Definition firewall_route : Route :=
  MkSpecRoute "203.0.113.0/24" (MkRouteVia ViaEndpoint (Some (MkEndpointRef "infra" "firewall" "eth0")) "" "" "").

Definition new_table (name vpc : string) (id : Z) (routes : list Route) : RouteTable :=
  MkRT (MkMeta name "" "" "" 1 [] None []) vpc routes (MkRTStatus 0 [] [] id).

Definition a_table : RouteTable := new_table "main" "v" 5 [default_route; gateway_route; firewall_route].

Definition a_cluster (gateways : list NATGateway) : cluster :=
  MkCluster a_vpc [apps; dmz] gateways [fw_nic] [fw_lease] [fw_endpoint].

(** The controller resolves every route; then the NATGateway goes away. *)
Definition table_before : RouteTable := reconciled (a_cluster [a_gateway]) a_table.
Definition table_after : RouteTable := reconciled (a_cluster []) table_before.

Definition a_node (tables : list RouteTable) : node_api :=
  MkNodeApi tables [("apps", MkSubnetStatus "02:00:00:00:01:01" 11); ("dmz", MkSubnetStatus "02:00:00:00:02:01" 12);
     ("others", MkSubnetStatus "02:00:00:00:03:01" 21)]%string
    [("infra", "ep-fw", "02:00:00:00:00:05")]%string [("gw", 7)]%string.

Definition node_before := node_run (a_node [table_before]) (ReconcileTable "main") node_start.
Definition node_after := node_run (a_node [table_after]) (ReconcileTable "main") node_before.

Definition protected_dst : Z := 3405803783. (* 203.0.113.7 *)

Example node_before_firewall :
  handle_l3 (node_dataplane node_before.2 ∅) 5 protected_dst = ForwardL2 12 [2; 0; 0; 0; 0; 5] [2; 0; 0; 0; 2; 1].
Proof. vm_compute. reflexivity. Qed.

Lemma node_before_settled : node_settled node_before.
Proof. apply node_run_settled. constructor. Qed.

Lemma node_after_settled : node_settled node_after.
Proof. apply node_run_settled, node_before_settled. Qed.

Lemma packets_meet_whole_tables_witness :
  exists rt es, rt ∈ seen node_before.2 /\ rts_TableID (rtb_status rt) = 5 /\
    filled (vpc_contrib (reads node_before.2)) (rts_Routes (rtb_status rt)) es /\
    ForwardL2 12 [2; 0; 0; 0; 0; 5] [2; 0; 0; 0; 2; 1] =
      match longest es protected_dst with
      | Some e => route_action (node_dataplane node_before.2 ∅) e.2 protected_dst
      | None => Shot
      end.
Proof.
  rewrite <- node_before_firewall.
  destruct (packets_meet_whole_tables node_before.2 (node_dataplane node_before.2 ∅) 5 protected_dst)
    as [[[Hn _]|Hr] _]; [eapply settled_moment, node_before_settled|apply node_tables|by vm_compute in Hn|exact Hr].
Defined.

(** The calls of the first reconciliation, and the status it wrote. *)
Definition calls_before : list (entry rt_call) :=
  replay (controller_server (a_cluster [a_gateway])) (rt_Reconcile None "main") a_table [].

Lemma before_published : published_in calls_before table_before.
Proof.
  exists None, "main"%string, table_before, (Ok tt). split_and!; [apply replay_passes| |done|done|done].
  vm_compute. repeat (apply elem_of_cons; (left; reflexivity) || right).
Qed.

Lemma firewall_routes_fail_closed_witness :
  exists rt r p v,
    rt ∈ seen node_before.2 /\ rts_TableID (rtb_status rt) = 5 /\ r ∈ rts_Routes (rtb_status rt) /\
    dst_prefix (rr_Dst r) = Some p /\ covers p protected_dst = true /\ 24 <= p.1 /\
    route_value (reads node_before.2) r (Some v) /\
    handle_l3 (node_dataplane node_before.2 ∅) 5 protected_dst = route_action (node_dataplane node_before.2 ∅) v protected_dst /\
    (steering (rr_Via r) = true ->
      reaches_workload calls_before (reads node_before.2) r (handle_l3 (node_dataplane node_before.2 ∅) 5 protected_dst)).
Proof.
  destruct (firewall_routes_fail_closed node_before.2 (node_dataplane node_before.2 ∅) 5 protected_dst firewall_route
    (24, 3405803776) (fun _ => calls_before)) as [Hshot|Hr]; [..|by vm_compute in Hshot|exact Hr].
  - eapply settled_moment, node_before_settled.
  - apply node_tables.
  - intros rt Hrt _. assert (rt = table_before) as ->.
    { apply list_elem_of_singleton. exact Hrt. }
    split_and!; [apply before_published|vm_compute; do 2 right; left|].
    intros r Hr Hd. vm_compute in Hr.
    repeat (apply elem_of_cons in Hr as [->|Hr]; [by vm_compute in Hd|]). by apply elem_of_nil in Hr.
  - reflexivity.
  - vm_compute. reflexivity.
  - vm_compute. reflexivity.
Defined.

(** ** Where the code falls short *)

(** A route of spec.routes that is not ready takes down the routes
    after it.  The controller publishes the routes it has resolved so far and
    drops the rest, a firewall route among them, while an earlier default route
    stays; the daemon installs the shorter table, and the traffic the
    firewall route held leaves through the internet gateway.  Here the only
    change is the deletion of a NATGateway that another route names. *)
Theorem not_ready_route_bypasses_firewall :
  rtb_Routes table_after = rtb_Routes table_before /\ firewall_route ∈ rtb_Routes table_after /\
  is_ready table_before = true /\ is_ready table_after = false /\
  node_settled node_before /\ node_settled node_after /\
  seen node_before.2 = [table_before] /\ seen node_after.2 = [table_before; table_after] /\
  handle_l3 (node_dataplane node_before.2 ∅) 5 protected_dst = ForwardL2 12 [2; 0; 0; 0; 0; 5] [2; 0; 0; 0; 2; 1] /\
  handle_l3 (node_dataplane node_after.2 ∅) 5 protected_dst = HandleSnat.
Proof.
  split_and!; [done|vm_compute; do 2 right; left|done|done|apply node_before_settled|apply node_after_settled|done|done| |];
    vm_compute; reflexivity.
Qed.

Definition ipv6_route : Route := MkSpecRoute "::/0" (via_only ViaInternetGateway).
Definition ipv6_table : RouteTable := new_table "main" "v" 5 [ipv6_route; firewall_route].

(** A table with such a destination is never published. *)
Lemma panicking_table_unpublished name rt snaps s r :
  r ∈ rts_Routes (rtb_status rt) -> fibKey (rr_Dst r) = Some (Err Panicked) ->
  wp fib_server (fib_upsert name rt snaps)
    (fun res s' => (exists e, res.1 = Err e) /\ vpc_outer s' = vpc_outer s /\ res.2 = snaps) s.
Proof.
  intros Hr Hk. unfold fib_upsert, publishFib. intros [h|e] s1; cbn [bind].
  2: { intros ->. cbn. eauto. }
  intros [_ ->]. set (s1 := set_open _ _). apply wp_bind.
  apply (wp_forTryP _ _ _ _ (fun pre _ s' => r ∉ pre /\ vpc_outer s' = vpc_outer s)).
  - split; [apply not_elem_of_nil|done].
  - intros pre x post _ s2 _ [Hpre Ho]. unfold fib_populateRoute.
    destruct (decide (x = r)) as [->|Hne].
    { rewrite Hk. cbn. intros r2 s3 ->. cbn. eauto. }
    destruct (fibKey (rr_Dst x)) as [[k|e]|].
    + apply wp_bind. eapply wp_mono; [eapply wpi_wp, (wpi_possible _ is_read (fun _ => True) (fun a b => vpc_outer b = vpc_outer a));
        [apply fibValFor_reads|intros ??? -> ->; done|done| |done]|].
      { intros R e s3 r3 s4 Hread Hst. destruct (read_step _ _ _ _ _ Hread Hst) as [(_ & _ & Hout & _) _]. apply (Hout VpcLayer). }
      intros [v|] s3 [_ H3]; cbn; [|split; [set_solver|congruence]].
      intros [[]|e] s4; cbn; [intros [_ ->]|intros ->]; [split; [set_solver|cbn; congruence]|].
      intros r5 s5 ->. cbn. split; [eauto|]. split; [congruence|done].
    + cbn. intros r3 s3 ->. cbn. eauto.
    + cbn. split; [set_solver|done].
  - intros _ s2 [Hn _]. done.
Qed.

(** An IPv6 destination passes the admission webhook and the
    controller, and makes the daemon panic; neither this table nor any table
    with an IPv6 destination is ever installed. *)
Theorem ipv6_destination_panics :
  (forall r, list_Subnets r = Ok [apps; dmz] -> rt_ValidateCreate r ipv6_table = Ok []) /\
  is_ready (reconciled (a_cluster []) ipv6_table) = true /\
  (run (node_server (a_node [reconciled (a_cluster []) ipv6_table])) (fib_Reconcile "main" ∅) node_start.2).1
    = (Err Panicked, ∅) /\
  (forall name rt snaps s r, r ∈ rts_Routes (rtb_status rt) -> fibKey (rr_Dst r) = Some (Err Panicked) ->
     wp fib_server (fib_upsert name rt snaps)
       (fun res s' => (exists e, res.1 = Err e) /\ vpc_outer s' = vpc_outer s /\ res.2 = snaps) s).
Proof.
  split_and!; [|done|vm_compute; reflexivity|apply panicking_table_unpublished].
  intros r Hr. unfold rt_ValidateCreate, validateRouteTableSpec, listConnectedRoutes. cbn [ipv6_table new_table rtb_meta rtb_Vpc].
  cbn -[list_Subnets]. rewrite Hr. vm_compute. reflexivity.
Qed.
