(* ===== verification/OwnedAddrTheorems.v ===== *)
(** * OwnedAddrTheorems: the map is the union of the claims

    The class [PoolServer] states what the store relies on of the kernel map;
    [apply_spec] is the behaviour of one [apply] under any failures, and
    [owned_map_is_union] the contract of the store over histories of calls. *)

From stdpp Require Import base gmap strings list sorting.
From Stdlib Require Import ZArith Lia.
From S2P Require Import Prelude Effects PolicyStores OwnedAddr.

Open Scope Z_scope.

(** ** The union, and the order of visit *)

(** [r] is the merged value of the deliveries that satisfy [P]: none when there
    is none, and [DeliveredHere] wins. *)
Definition picked (P : Z -> Prop) (r : option Z) : Prop :=
  match r with
  | None => forall v, ~ P v
  | Some v => P v /\ (v = DeliveredHere \/ ~ P DeliveredHere)
  end.

Definition valid_delivery (v : Z) : Prop := v = DeliveredHere \/ v = DeliveredElsewhere.

#[global] Instance picked_proper : Proper (pointwise_relation Z iff ==> eq ==> iff) picked.
Proof. intros P Q HPQ r r' <-. destruct r as [v|]; cbn; [by rewrite !(HPQ _)|by setoid_rewrite HPQ]. Qed.

Lemma picked_unique P r r' :
  (forall v, P v -> valid_delivery v) -> picked P r -> picked P r' -> r = r'.
Proof.
  intros Hv. unfold picked. destruct r as [v|], r' as [w|]; [|naive_solver..].
  intros [H1 H2] [H3 H4]. destruct (Hv v H1), (Hv w H3); naive_solver.
Qed.

Lemma prefer_picked l k :
  (forall kv, kv ∈ l -> valid_delivery kv.2) -> picked (fun v => (k, v) ∈ l) (foldl prefer ∅ l !! k).
Proof.
  induction l as [|[k' v'] l IH] using rev_ind; intros Hv; [cbn; rewrite lookup_empty; intros v H; by apply elem_of_nil in H|].
  rewrite foldl_snoc. unfold prefer at 1. cbn [fst snd].
  specialize (IH (fun kv H => Hv kv (proj2 (elem_of_app _ _ _) (or_introl H)))).
  setoid_rewrite elem_of_app in Hv. setoid_rewrite list_elem_of_singleton in Hv.
  pose proof (Hv (k', v') (or_intror eq_refl)) as Hv'. cbn in Hv'.
  assert (Hin : forall v, (k, v) ∈ l ++ [(k', v')] <-> (k, v) ∈ l \/ (k = k' /\ v = v')).
  { intros v. rewrite elem_of_app, list_elem_of_singleton. naive_solver. }
  destruct (decide (k' = k)) as [->|Hne].
  - rewrite lookup_insert_eq. unfold preferredDelivery.
    destruct (Z.eqb_spec v' DeliveredHere) as [->|Hv1].
    { rewrite orb_true_r. cbn [picked]. rewrite Hin. split; [by right|by left]. }
    rewrite orb_false_r. destruct (foldl prefer ∅ l !! k) as [c|]; cbn [default from_option picked] in *; unfold id.
    + destruct IH as [Hc Hor]. destruct (Z.eqb_spec c DeliveredHere) as [->|Hc1]; cbn [picked]; rewrite !Hin.
      * split; [by left|by left].
      * split; [by right|]. right. naive_solver.
    + change (0 =? DeliveredHere) with false. cbn [picked]. rewrite !Hin. split; [by right|]. right. naive_solver.
  - rewrite lookup_insert_ne by done. eapply picked_proper; [|done|exact IH].
    intros v. rewrite Hin. naive_solver.
Qed.

Lemma desiredOf_flat order : desiredOf order = foldl prefer ∅ (mjoin (map_to_list <$> order)).
Proof.
  unfold desiredOf, addClaims. generalize (∅ : gmap Key Z). induction order as [|c order IH]; intros d; [done|].
  rewrite fmap_cons. cbn [mjoin list_join foldl]. rewrite foldl_app. apply IH.
Qed.

(** The order of visit does not matter. *)
Lemma desiredOf_picked (claims : gmap owner (gmap Key Z)) order k :
  order ≡ₚ (map_to_list claims).*2 ->
  (forall o c, claims !! o = Some c -> map_Forall (fun _ => valid_delivery) c) ->
  picked (fun v => exists o c, claims !! o = Some c /\ c !! k = Some v) (desiredOf order !! k).
Proof.
  intros Ho Hv. rewrite desiredOf_flat.
  assert (Hmem : forall k v, (k, v) ∈ mjoin (map_to_list <$> order) <-> exists o c, claims !! o = Some c /\ c !! k = Some v).
  { intros k' v. rewrite list_elem_of_join. split.
    - intros (l & Hin & (c & -> & Hc)%list_elem_of_fmap). rewrite Ho in Hc.
      apply list_elem_of_fmap in Hc as ([o c'] & -> & Hoc%elem_of_map_to_list). apply elem_of_map_to_list in Hin. eauto.
    - intros (o & c & Hoc & Hk). exists (map_to_list c). split; [by apply elem_of_map_to_list|].
      apply list_elem_of_fmap. exists c. split; [done|]. rewrite Ho. apply list_elem_of_fmap. exists (o, c).
      split; [done|]. by apply elem_of_map_to_list. }
  eapply picked_proper; [|done|apply prefer_picked].
  - intros v. by rewrite Hmem.
  - intros [k' v] (o & c & Hoc & Hk)%Hmem. by apply (Hv o c Hoc k').
Qed.

(** ** The kernel map *)

Class PoolServer {E : Type -> Type} {S : Type} (srv : server E S)
    (pool_update : Key -> Z -> E (result bpf_error unit)) (pool_delete : Key -> E (result bpf_error unit))
    (pool : S -> gmap Key Z) (set_pool : gmap Key Z -> S -> S) := {
  pool_set : forall m s, pool (set_pool m s) = m;
  set_set : forall m m' s, set_pool m (set_pool m' s) = set_pool m s;
  set_same : forall s, set_pool (pool s) s = s;
  update_done : forall k v s r s', srv _ (pool_update k v) s r s' ->
    s' = match r with Ok _ => set_pool (<[k := v]> (pool s)) s | Err _ => s end;
  delete_done : forall k s r s', srv _ (pool_delete k) s r s' ->
    match r with
    | Ok _ => s' = set_pool (delete k (pool s)) s
    | Err e => s' = s /\ (e = ErrKeyNotExist -> pool s !! k = None)
    end;
}.

Lemma elem_of_sortedKeys m k : k ∈ sortedKeys m <-> is_Some (m !! k).
Proof.
  unfold sortedKeys. rewrite merge_sort_Permutation, list_elem_of_fmap. split.
  - intros ([k' v] & -> & Hin%elem_of_map_to_list). by eexists.
  - intros [v Hv]. exists (k, v). split; [done|]. by apply elem_of_map_to_list.
Qed.

Section Apply.
Context {E : Type -> Type} {S : Type} (srv : server E S).
Context (pool_update : Key -> Z -> E (result bpf_error unit)) (pool_delete : Key -> E (result bpf_error unit)).
Context (pool : S -> gmap Key Z) (set_pool : gmap Key Z -> S -> S).
Context `{HP : !PoolServer srv pool_update pool_delete pool set_pool}.

(** Only the pool changes, each key from its old to its desired value. *)
Definition between (desired : gmap Key Z) (s s' : S) : Prop :=
  exists m, s' = set_pool m s /\ forall k, m !! k = pool s !! k \/ m !! k = desired !! k.

(** A key that is not as desired is named by an error. *)
Definition settled (desired : gmap Key Z) (s : S) (errs : list apply_error) (m : gmap Key Z) : Prop :=
  forall k, m !! k = desired !! k \/ (m !! k = pool s !! k /\ k ∈ error_key <$> errs).

(** Keys not visited yet are as they were. *)
Definition deleting (desired : gmap Key Z) (s : S) (pre : list Key) (st : list apply_error * gmap Key Z) (s' : S) : Prop :=
  s' = set_pool st.2 s /\
  (forall k, st.2 !! k = pool s !! k \/ (st.2 !! k = None /\ desired !! k = None)) /\
  (forall k, k ∈ pre -> desired !! k = None -> st.2 !! k = None \/ k ∈ error_key <$> st.1).

Definition writing (desired : gmap Key Z) (s : S) (pre : list Key) (st : list apply_error * gmap Key Z) (s' : S) : Prop :=
  s' = set_pool st.2 s /\
  (forall k, st.2 !! k = pool s !! k \/ st.2 !! k = desired !! k) /\
  (forall k, k ∈ pre \/ desired !! k = None -> st.2 !! k = desired !! k \/ k ∈ error_key <$> st.1).

Lemma deleting_between desired s pre st s' : deleting desired s pre st s' -> between desired s s'.
Proof. intros (-> & Hk & _). exists st.2. split; [done|]. intros k. destruct (Hk k) as [?|[-> ->]]; auto. Qed.

Lemma writing_between desired s pre st s' : writing desired s pre st s' -> between desired s s'.
Proof. intros (-> & Hk & _). by exists st.2. Qed.

Lemma deleteStale_spec desired s pre key st s' :
  deleting desired s pre st s' ->
  wpi srv (between desired s) (deleteStale pool_delete desired key st) (deleting desired s (pre ++ [key])) s'.
Proof.
  intros HJ. pose proof (deleting_between _ _ _ _ _ HJ) as HI. destruct HJ as (-> & Hold & Hpre). unfold deleteStale.
  case_bool_decide as Hd.
  { split; [done|]. split_and!; [done|done|]. intros k [Hk| ->%list_elem_of_singleton]%elem_of_app Hn; [by apply Hpre|].
    rewrite Hn in Hd. by destruct Hd. }
  apply eq_None_not_Some in Hd. split; [done|]. intros r s1 Hr%delete_done. rewrite pool_set, set_set in Hr.
  assert (Hnone : deleting desired s (pre ++ [key]) (st.1, delete key st.2) (set_pool (delete key st.2) s)).
  { split_and!; [done| |]; cbn [fst snd]; intros k.
    - destruct (decide (k = key)) as [->|]; [right; by rewrite lookup_delete_eq|rewrite lookup_delete_ne by done; apply Hold].
    - intros Hk Hn. destruct (decide (k = key)) as [->|]; [left; apply lookup_delete_eq|]. rewrite lookup_delete_ne by done.
      apply Hpre; [set_solver|done]. }
  destruct r as [[]|[|t]]; cbn [ignoreMissing].
  - subst s1. split; [by eapply deleting_between|done].
  - destruct Hr as [-> Habs]. rewrite (delete_id st.2 key) in * by auto. split; [done|done].
  - destruct Hr as [-> _]. split; [done|]. split_and!; [done|done|]. cbn [fst snd].
    intros k [Hk| ->%list_elem_of_singleton]%elem_of_app Hn.
    + destruct (Hpre k Hk Hn); [by left|right]. rewrite fmap_app. set_solver.
    + right. rewrite fmap_app. set_solver.
Qed.

Lemma writeDesired_spec desired s pre key st s' :
  is_Some (desired !! key) -> writing desired s pre st s' ->
  wpi srv (between desired s) (writeDesired pool_update desired key st) (writing desired s (pre ++ [key])) s'.
Proof.
  intros [v Hv] HJ. pose proof (writing_between _ _ _ _ _ HJ) as HI. destruct HJ as (-> & Hold & Hpre).
  unfold writeDesired. rewrite Hv. change (default 0 (Some v)) with v. case_bool_decide as Hd.
  { split; [done|]. split_and!; [done|done|]. intros k [[Hk| ->%list_elem_of_singleton]%elem_of_app|Hn];
    [by apply Hpre; left|left; congruence|by apply Hpre; right]. }
  split; [done|]. intros r s1 ->%update_done. rewrite pool_set, set_set. destruct r as [[]|e].
  - assert (HJ : writing desired s (pre ++ [key]) (st.1, <[key := v]> st.2) (set_pool (<[key := v]> st.2) s)).
    { split_and!; [done| |]; cbn [fst snd]; intros k.
      - destruct (decide (k = key)) as [->|]; [right; by rewrite lookup_insert_eq|rewrite lookup_insert_ne by done; apply Hold].
      - intros Hk. destruct (decide (k = key)) as [->|]; [left; by rewrite lookup_insert_eq|]. rewrite lookup_insert_ne by done.
        apply Hpre. set_solver. }
    split; [by eapply writing_between|done].
  - split; [done|]. split_and!; [done|done|]. cbn [fst snd]. intros k Hk. destruct (decide (k = key)) as [->|].
    + right. rewrite fmap_app. set_solver.
    + destruct (Hpre k) as [?|?]; [set_solver|by left|]. right. rewrite fmap_app. set_solver.
Qed.

(** One [apply]: whatever fails, the field [installed] keeps mirroring the
    map, and each key is as desired or unchanged and named by an error. *)
Lemma apply_spec order st s :
  pool s = s_installed st ->
  wpi srv (between (desiredOf order) s) (apply_store pool_update pool_delete order st)
  (fun r s' => s_claims r.2 = s_claims st /\ s' = set_pool (s_installed r.2) s /\
    settled (desiredOf order) s r.1 (s_installed r.2)) s.
Proof.
  intros Hp. unfold apply_store. set (desired := desiredOf order). apply wpi_bind.
  eapply wpi_mono; [apply (wpi_forP_prefix srv _ _ _ _ (deleting desired s))|].
  - split_and!; cbn [fst snd]; [by rewrite <- Hp, set_same|intros k; left; by rewrite Hp|].
    intros k H. by apply elem_of_nil in H.
  - intros pre st' s'. apply deleting_between.
  - intros pre key post st' s' _. apply deleteStale_spec.
  - intros [errs m] s1 _ (-> & Hold & Hpre). cbn [fst snd] in *. apply wpi_bind.
    eapply wpi_mono; [apply (wpi_forP_prefix srv _ _ _ _ (writing desired s))|].
    + split_and!; [done| |]; cbn [fst snd]; intros k.
      * destruct (Hold k) as [?|[-> ->]]; auto.
      * intros [H|Hn]; [by apply elem_of_nil in H|]. destruct (decide (k ∈ sortedKeys (s_installed st))) as [Hk|Hk].
        { rewrite Hn. by apply Hpre. }
        left. rewrite Hn. rewrite elem_of_sortedKeys, <- eq_None_not_Some, <- Hp in Hk. destruct (Hold k) as [->|[-> _]]; done.
    + intros pre st' s'. apply writing_between.
    + intros pre key post st' s' Hk. apply writeDesired_spec. apply elem_of_sortedKeys. rewrite Hk. set_solver.
    + intros [errs' m'] s2 HI (-> & Hold' & Hpre'). split; [done|]. split_and!; [done|done|]. cbn [fst snd s_installed] in *.
      intros k. destruct (decide (k ∈ sortedKeys desired)) as [Hk|Hk].
      * destruct (Hpre' k (or_introl Hk)) as [?|?]; [by left|]. destruct (Hold' k); [by right|by left].
      * rewrite elem_of_sortedKeys, <- eq_None_not_Some in Hk.
        destruct (Hpre' k (or_intror Hk)) as [?|?]; [by left|]. destruct (Hold' k); [by right|by left].
Qed.
End Apply.

(** ** Histories of the store *)

Inductive store_op :=
| OpSet (scope name : string) (keys : list Key)
| OpSetClaims (scope name : string) (claims : list Claim)
| OpRelease (scope name : string)
| OpReleaseAll (scope : string).

(** What an owner claims after a history: its last set, unless its scope was
    released since. *)
Definition op_claims (op : store_op) (sp : owner -> list Claim) (o : owner) : list Claim :=
  match op with
  | OpSet scope name keys => if decide (o = (scope, name)) then (fun k => MkClaim k DeliveredHere) <$> keys else sp o
  | OpSetClaims scope name claims => if decide (o = (scope, name)) then claims else sp o
  | OpRelease scope name => if decide (o = (scope, name)) then [] else sp o
  | OpReleaseAll scope => if decide (o.1 = scope) then [] else sp o
  end.

Definition claims_after (h : list store_op) : owner -> list Claim :=
  foldl (fun sp op => op_claims op sp) (fun _ => []) h.

(** After [h], [k] is claimed with delivery [v]. *)
Definition claimed_in (h : list store_op) (k : Key) (v : Z) : Prop := exists o, MkClaim k v ∈ claims_after h o.

Definition valid_op (op : store_op) : Prop :=
  match op with OpSetClaims _ _ claims => Forall (fun c => valid_delivery (claim_Delivery c)) claims | _ => True end.

(** An order of visit lists the claims of every owner once. *)
Definition visits (order : visit) : Prop := forall claims, order claims ≡ₚ (map_to_list claims).*2.

Definition stored (sp : owner -> list Claim) (claims : gmap owner (gmap Key Z)) : Prop :=
  forall o, claims !! o = match sp o with [] => None | cs => Some (claimedOf cs) end.

Definition valid_claims (sp : owner -> list Claim) : Prop :=
  forall o c, c ∈ sp o -> valid_delivery (claim_Delivery c).

Lemma claimedOf_picked cs k :
  (forall c, c ∈ cs -> valid_delivery (claim_Delivery c)) -> picked (fun v => MkClaim k v ∈ cs) (claimedOf cs !! k).
Proof.
  intros Hv. set (pairs := (fun c => (claim_Key c, claim_Delivery c)) <$> cs).
  assert (Heq : claimedOf cs = foldl prefer ∅ pairs).
  { unfold claimedOf, pairs. generalize (∅ : gmap Key Z). clear. induction cs as [|c cs IH]; intros m; [done|]. apply IH. }
  rewrite Heq. eapply picked_proper; [|done|apply (prefer_picked pairs k)].
  - intros v. unfold pairs. rewrite list_elem_of_fmap. split.
    + intros H. by exists (MkClaim k v).
    + intros ([k' v'] & Hc & H). by simplify_eq/=.
  - intros kv (c & -> & Hc)%list_elem_of_fmap. by apply Hv.
Qed.

Lemma claimedOf_valid cs :
  (forall c, c ∈ cs -> valid_delivery (claim_Delivery c)) -> map_Forall (fun _ => valid_delivery) (claimedOf cs).
Proof.
  intros Hv k v Hk. pose proof (claimedOf_picked cs k Hv) as Hp. rewrite Hk in Hp. destruct Hp as [Hin _]. by apply Hv in Hin.
Qed.

Lemma stored_valid sp claims o c :
  stored sp claims -> valid_claims sp -> claims !! o = Some c -> map_Forall (fun _ => valid_delivery) c.
Proof.
  intros Hs Hv Hc. rewrite Hs in Hc. destruct (sp o) as [|x l] eqn:Hsp; [done|]. injection Hc as <-.
  apply claimedOf_valid. rewrite <- Hsp. apply Hv.
Qed.

(** The union of what is stored is the union of what is claimed. *)
Lemma stored_picked sp claims order k :
  stored sp claims -> valid_claims sp -> visits order ->
  picked (fun v => exists o, MkClaim k v ∈ sp o) (desiredOf (order claims) !! k).
Proof.
  intros Hs Hv Ho. pose proof (desiredOf_picked claims (order claims) k (Ho claims)
    (fun o c => stored_valid sp claims o c Hs Hv)) as Hp.
  assert (Hsp : forall o, picked (fun v => MkClaim k v ∈ sp o) (claimedOf (sp o) !! k)) by (intros o; apply claimedOf_picked, Hv).
  assert (Hst : forall o c, c ∈ sp o -> claims !! o = Some (claimedOf (sp o))).
  { intros o c Hc. rewrite Hs. destruct (sp o); [by apply elem_of_nil in Hc|done]. }
  assert (Hback : forall o c v, claims !! o = Some c -> c !! k = Some v -> MkClaim k v ∈ sp o).
  { intros o c v Hoc Hk. rewrite Hs in Hoc. specialize (Hsp o). destruct (sp o); [done|]. injection Hoc as <-.
    rewrite Hk in Hsp. by destruct Hsp. }
  destruct (desiredOf (order claims) !! k) as [v|]; cbn [picked] in *.
  - destruct Hp as [(o & c & Hoc & Hk) Hor]. split; [by exists o; eapply Hback|].
    destruct Hor as [?|Hor]; [by left|]. right. intros [o' Ho']. apply Hor. exists o', (claimedOf (sp o')).
    split; [by eapply Hst|]. specialize (Hsp o'). destruct (claimedOf (sp o') !! k) as [w|]; cbn in Hsp; [|by apply Hsp in Ho'].
    by destruct Hsp as [_ [->|?]].
  - intros v [o Ho']. specialize (Hsp o). destruct (claimedOf (sp o) !! k) as [w|] eqn:Hk; [|by apply Hsp in Ho'].
    apply (Hp w). exists o, (claimedOf (sp o)). split; [by eapply Hst|done].
Qed.

Section History.
Context {E : Type -> Type} {S : Type}.
Context (pool_update : Key -> Z -> E (result bpf_error unit)) (pool_delete : Key -> E (result bpf_error unit)).
Context (pool : S -> gmap Key Z) (set_pool : gmap Key Z -> S -> S).

Definition run_store_op (order : visit) (op : store_op) (st : Store) : prog E (list apply_error * Store) :=
  match op with
  | OpSet scope name keys => Scope_Set pool_update pool_delete order scope name keys st
  | OpSetClaims scope name claims => Scope_SetClaims pool_update pool_delete order scope name claims st
  | OpRelease scope name => Scope_Release pool_update pool_delete order scope name st
  | OpReleaseAll scope => Scope_ReleaseAll pool_update pool_delete order scope st
  end.

(** The claims after an operation, which then applies the union. *)
Definition op_store (op : store_op) (st : Store) : Store :=
  let setTo o claims := MkStore (match claims with
  | [] => delete o (s_claims st)
  | _ => <[o := claimedOf claims]> (s_claims st)
  end) (s_installed st) in
  match op with
  | OpSet scope name keys => setTo (scope, name) ((fun k => MkClaim k DeliveredHere) <$> keys)
  | OpSetClaims scope name claims => setTo (scope, name) claims
  | OpRelease scope name => setTo (scope, name) []
  | OpReleaseAll scope => MkStore (filter (fun oc => oc.1.1 <> scope) (s_claims st)) (s_installed st)
  end.

Lemma run_store_op_apply order op st :
  run_store_op order op st =
  apply_store pool_update pool_delete (order (s_claims (op_store op st))) (op_store op st).
Proof. by destruct op. Qed.

Lemma set_stored sp claims o cs :
  stored sp claims ->
  stored (fun o' => if decide (o' = o) then cs else sp o')
  (match cs with [] => delete o claims | _ => <[o := claimedOf cs]> claims end).
Proof.
  intros Hs o'. destruct (decide (o' = o)) as [->|Hne].
  - destruct cs; [apply lookup_delete_eq|by rewrite lookup_insert_eq].
  - destruct cs; [rewrite lookup_delete_ne by done|rewrite lookup_insert_ne by done]; apply Hs.
Qed.

Lemma op_store_stored op st sp : stored sp (s_claims st) -> stored (op_claims op sp) (s_claims (op_store op st)).
Proof.
  intros Hs. destruct op as [scope name keys|scope name claims|scope name|scope]; cbn [op_store s_claims];
    [exact (set_stored sp _ (scope, name) _ Hs)..|].
  intros o. unfold op_claims. rewrite map_lookup_filter. rewrite Hs. destruct (decide (o.1 = scope)) as [Heq|Hne].
  - destruct (sp o); [done|]. cbn. by rewrite option_guard_False by (cbn; tauto).
  - destruct (sp o); [done|]. cbn. by rewrite option_guard_True.
Qed.

Lemma op_claims_valid op sp : valid_op op -> valid_claims sp -> valid_claims (op_claims op sp).
Proof.
  intros Hop Hv o c. destruct op as [scope name keys|scope name claims|scope name|scope]; cbn [op_claims]; case_decide;
    try apply Hv; try (intros H'; by apply elem_of_nil in H').
  - intros (k & -> & _)%list_elem_of_fmap. by left.
  - intros Hc. cbn in Hop. rewrite Forall_forall in Hop. by apply Hop.
Qed.

Lemma claims_after_snoc h op : claims_after (h ++ [op]) = op_claims op (claims_after h).
Proof. unfold claims_after. by rewrite foldl_snoc. Qed.

Section Run.
Context (srv : server E S) `{HP : !PoolServer srv pool_update pool_delete pool set_pool}.

(** A run of the store: operations in any order, with any answers; between
    them the rest of the world moves on its own. *)
Inductive owned_history : list store_op -> Store -> S -> list apply_error -> Prop :=
| history_start s : pool s = ∅ -> owned_history [] NewStore s []
| history_other h st s s' errs : owned_history h st s errs -> pool s' = pool s -> owned_history h st s' errs
| history_op h st s errs order op errs' st' s' :
    owned_history h st s errs -> visits order -> exec srv s (run_store_op order op st) (errs', st') s' ->
    owned_history (h ++ [op]) st' s' errs'.

(** One operation on a store that is in sync. *)
Lemma op_spec sp order op st s errs st' s' :
  pool s = s_installed st -> stored sp (s_claims st) -> valid_claims sp -> valid_op op -> visits order ->
  exec srv s (run_store_op order op st) (errs, st') s' ->
  pool s' = s_installed st' /\ stored (op_claims op sp) (s_claims st') /\ valid_claims (op_claims op sp) /\
  forall k, picked (fun v => exists o, MkClaim k v ∈ op_claims op sp o) (pool s' !! k) \/ k ∈ error_key <$> errs.
Proof.
  intros Hp Hs Hv Hop Ho Hex. rewrite run_store_op_apply in Hex.
  pose proof (op_store_stored op st sp Hs) as Hs'. pose proof (op_claims_valid op sp Hop Hv) as Hv'.
  assert (Hp' : pool s = s_installed (op_store op st)) by (by destruct op).
  pose proof (apply_spec srv pool_update pool_delete pool set_pool
    (order (s_claims (op_store op st))) _ s Hp') as Hspec.
  apply (wpi_exec _ _ _ _ _ _ _ Hspec) in Hex as [_ (Hc & -> & Hset)]. cbn [fst snd] in *.
  rewrite pool_set, Hc. split_and!; [done|done|done|]. intros k. destruct (Hset k) as [Hk|[_ Hk]]; [left|by right].
  rewrite Hk. by apply stored_picked.
Qed.

Lemma history_spec h st s errs :
  owned_history h st s errs -> Forall valid_op h ->
  pool s = s_installed st /\ stored (claims_after h) (s_claims st) /\ valid_claims (claims_after h) /\
  forall k, picked (claimed_in h k) (pool s !! k) \/ k ∈ error_key <$> errs.
Proof.
  induction 1 as [s Hp|h st s s' errs _ IH Hp|h st s errs order op errs' st' s' _ IH Ho Hex]; intros Hall.
  - split_and!; [done|done|intros o c Hc; by apply elem_of_nil in Hc|]. intros k. left. rewrite Hp, lookup_empty.
    intros v [o Hc]. by apply elem_of_nil in Hc.
  - destruct (IH Hall) as (? & ? & ? & Hk). rewrite Hp. done.
  - apply Forall_app in Hall as [Hall [Hop _]%Forall_cons]. destruct (IH Hall) as (Hp & Hs & Hv & _).
    unfold claimed_in. rewrite claims_after_snoc. by eapply op_spec.
Qed.
End Run.

(** No call fails. *)
Definition reliable (srv : server E S) : Prop :=
  (forall k v s r s', srv _ (pool_update k v) s r s' -> r = Ok tt) /\
  (forall k s r s', srv _ (pool_delete k) s r s' -> r = Ok tt \/ r = Err ErrKeyNotExist).

Lemma reliable_clean srv order st s :
  reliable srv -> wp srv (apply_store pool_update pool_delete order st) (fun r _ => r.1 = []) s.
Proof.
  intros [Hu Hd]. unfold apply_store. apply wp_bind.
  eapply wp_mono; [apply (wp_forP srv _ _ _ (fun st _ => st.1 = [])); [done|]|].
  - intros k st' s' _ He. unfold deleteStale. case_bool_decide; [done|]. cbn [bind call wp].
    intros r s1 [-> | ->]%Hd; by rewrite ?He.
  - intros st1 s1 He. apply wp_bind. eapply wp_mono; [apply (wp_forP srv _ _ _ (fun st _ => st.1 = [])); [done|]|done].
    intros k st' s' _ He'. unfold writeDesired. case_bool_decide; [done|]. cbn [bind call wp].
    intros r s2 ->%Hu. by rewrite ?He'.
Qed.
End History.

(** ** The contract of the store *)

(** Claim C16: the map is the union of the claims.  After any history of calls
    through any scopes, whichever map calls failed and in whatever order the
    owners were visited, each prefix has in [external_address_pools] exactly the
    merged delivery of the claims on it ([DeliveredHere] wins, none when nobody
    claims it) unless the last call returned an error that names it; and the
    next operation during which no map call fails returns no error and leaves
    the map equal to the union, whatever failed before. *)
Theorem owned_map_is_union {E : Type -> Type} {S : Type} (srv : server E S) pool_update pool_delete pool set_pool
    (HP : PoolServer srv pool_update pool_delete pool set_pool) h st s errs :
  owned_history pool_update pool_delete pool srv h st s errs -> Forall valid_op h ->
  (forall k, picked (claimed_in h k) (pool s !! k) \/ k ∈ error_key <$> errs) /\
  (forall srv' order op r s', PoolServer srv' pool_update pool_delete pool set_pool -> reliable pool_update pool_delete srv' ->
     valid_op op -> visits order -> exec srv' s (run_store_op pool_update pool_delete order op st) r s' ->
     r.1 = [] /\ forall k, picked (claimed_in (h ++ [op]) k) (pool s' !! k)).
Proof.
  intros Hh Hall. destruct (history_spec _ _ _ _ srv h st s errs Hh Hall) as (Hp & Hs & Hv & Hk). split; [exact Hk|].
  intros srv' order op [errs' st'] s' HP' Hrel Hop Ho Hex.
  assert (Hclean : errs' = []).
  { rewrite run_store_op_apply in Hex. exact (wp_exec _ _ _ _ _ _ (reliable_clean _ _ _ _ _ _ Hrel) Hex). }
  subst errs'. split; [done|]. intros k. unfold claimed_in. rewrite claims_after_snoc.
  destruct (op_spec _ _ _ _ srv' _ order op st s [] st' s' Hp Hs Hv Hop Ho Hex) as (_ & _ & _ & Hk').
  destruct (Hk' k) as [?|H]; [done|by apply elem_of_nil in H].
Qed.

(** A map alone. *)
Inductive pool_event : Type -> Type :=
| PoolUpdate (k : Key) (v : Z) : pool_event (result bpf_error unit)
| PoolDelete (k : Key) : pool_event (result bpf_error unit).

Definition pool_effect {R} (e : pool_event R) (m : gmap Key Z) : R -> gmap Key Z -> Prop :=
  match e in pool_event R return R -> gmap Key Z -> Prop with
  | PoolUpdate k v => fun r m' => m' = match r with Ok _ => <[k := v]> m | Err _ => m end
  | PoolDelete k => fun r m' => match r with
      | Ok _ => m' = delete k m | Err e => m' = m /\ (e = ErrKeyNotExist -> m !! k = None) end
  end.

Definition pool_server : server pool_event (gmap Key Z) := fun R e m r m' => pool_effect e m r m'.

#[global] Instance pool_server_ok : PoolServer pool_server PoolUpdate PoolDelete id (fun m _ => m).
Proof.
  split; [done..| |]; intros *; cbn; intros H; [done|]. by destruct r.
Qed.

(** A map whose writes of [bad] fail. *)
Definition pool_handler (bad : option Key) : handler pool_event (gmap Key Z) := fun R e m =>
  match e in pool_event R return R * gmap Key Z with
  | PoolUpdate k v => if bool_decide (bad = Some k) then (Err (BpfError "full"), m) else (Ok tt, <[k := v]> m)
  | PoolDelete k => if bool_decide (is_Some (m !! k)) then (Ok tt, delete k m) else (Err ErrKeyNotExist, m)
  end.

Lemma pool_handler_ok bad R (e : pool_event R) m r m' : server_of (pool_handler bad) R e m r m' -> pool_server R e m r m'.
Proof.
  unfold server_of, pool_server. destruct e as [k v|k]; cbn; case_bool_decide as Hk; intros [= <- <-]; [done|done|done|].
  split; [done|]. intros _. by apply eq_None_not_Some.
Qed.

Lemma pool_run {A} bad (p : prog pool_event A) m :
  exec pool_server m p (run (pool_handler bad) p m).1 (run (pool_handler bad) p m).2.
Proof. eapply exec_mono; [apply pool_handler_ok|apply run_exec]. Qed.

Definition by_owner : visit := fun claims => (map_to_list claims).*2.
Lemma by_owner_visits : visits by_owner.
Proof. by intros claims. Qed.

(** Two reconcilers claim one /32; the second write fails at first; then the
    first reconciler lets go. *)
Definition ex_key : Key := MkKey 32 16777226.
Definition ex_history : list store_op := [OpSet "napt" "att" [ex_key]; OpSet "arp" "adv" [ex_key]].

Lemma owned_map_is_union_witness :
  exists st m errs,
    owned_history PoolUpdate PoolDelete id pool_server ex_history st m errs /\
    picked (claimed_in (ex_history ++ [OpReleaseAll "napt"]) ex_key)
      ((run (pool_handler None) (run_store_op PoolUpdate PoolDelete by_owner (OpReleaseAll "napt") st) m).2 !! ex_key) /\
    (run (pool_handler None) (run_store_op PoolUpdate PoolDelete by_owner (OpReleaseAll "napt") st) m).2 !! ex_key = Some DeliveredHere.
Proof.
  pose (op1 := run (pool_handler (Some ex_key)) (run_store_op PoolUpdate PoolDelete by_owner (OpSet "napt" "att" [ex_key]) NewStore) ∅).
  pose (op2 := run (pool_handler None) (run_store_op PoolUpdate PoolDelete by_owner (OpSet "arp" "adv" [ex_key]) op1.1.2) op1.2).
  assert (Hh : owned_history PoolUpdate PoolDelete id pool_server ex_history op2.1.2 op2.2 op2.1.1).
  { apply (history_op PoolUpdate PoolDelete id pool_server [OpSet "napt" "att" [ex_key]] op1.1.2 op1.2 op1.1.1 by_owner
             (OpSet "arp" "adv" [ex_key])); [|exact by_owner_visits|rewrite <- surjective_pairing; apply pool_run].
    apply (history_op PoolUpdate PoolDelete id pool_server [] NewStore ∅ [] by_owner (OpSet "napt" "att" [ex_key]));
      [by apply history_start|exact by_owner_visits|rewrite <- surjective_pairing; apply pool_run]. }
  exists op2.1.2, op2.2, op2.1.1. split; [exact Hh|]. split; [|vm_compute; reflexivity].
  assert (Hrel : reliable PoolUpdate PoolDelete (server_of (pool_handler None))).
  { split; intros *; unfold server_of; cbn.
    - intros [= <- _]. reflexivity.
    - case_bool_decide; intros [= <- _]; [by left|by right]. }
  assert (HP : PoolServer (server_of (pool_handler None)) PoolUpdate PoolDelete id (fun m _ => m)).
  { split; [done..| |]; intros * Hs%pool_handler_ok; cbn in Hs; [done|]. by destruct r. }
  destruct (owned_map_is_union pool_server PoolUpdate PoolDelete id (fun m _ => m) _ ex_history _ _ _ Hh) as [_ Hnext].
  { repeat constructor. }
  apply (Hnext (server_of (pool_handler None)) by_owner (OpReleaseAll "napt") _ _ HP Hrel I by_owner_visits (run_exec _ _ _)).
Defined.
