(* ===== verification/ExternalAddr.v ===== *)
(** * ExternalAddr: the reconcilers that claim external addresses

    [daemon/internal/daemon/dataplane/reconciler]: [elastic_ip_direct.go],
    [external_arp.go], [napt.go], [bgp_pool.go] and [endpoint_network.go], with
    the API types they read.  Each reconciler programs a BPF map of its own and
    claims prefixes through the store of [OwnedAddr].

    The fields of a reconciler and the store are explicit state.  A reconciler
    holds its lock, or is the only one to call the store under its scope, so its
    operations are taken one after the other.  [SplitMetaNamespaceKey] of
    client-go is a parameter. *)

From stdpp Require Import base gmap strings list sorting pretty.
From Stdlib Require Import ZArith Lia Ascii.
From S2P Require Import Prelude Effects Netip NetipFacts IPNet Kube PolicyEval PolicyStores.
From S2P Require Import OwnedAddr.

Open Scope Z_scope.
Open Scope go_scope.

(** ** API types *)

Record NetworkEndpoint := MkNetworkEndpoint {
  ne_Namespace : string; ne_Name : string;
  ne_Subnet : string; ne_L2Network : string; ne_ExternalNetwork : string; ne_Address : string }.
Record ExternalNetwork := MkExternalNetwork { en_Name : string; en_Type : string; en_NetworkID : Z }.
Record ARPAdvertisement := MkARPAdvertisement {
  arp_Name : string; arp_ExternalNetwork : string; arp_Address : string; arp_NodeName : string }.
Record ExternalNetworkAttachment := MkExternalNetworkAttachment {
  ena_Name : string; ena_ExternalNetwork : string; ena_NodeName : string; ena_AssignedIP : string }.
Record NATGateway := MkNATGateway { ng_ExternalNetwork : string; ng_GatewayID : Z }.
Record AddressPool := MkAddressPool { ap_Name : string; ap_AdvertiseMode : string; ap_Addresses : list string }.
Record BGPAdvertisement := MkBGPAdvertisement {
  bgp_Name : string; bgp_AddressPools : list string; bgp_NodeName : string; bgp_Prefix : string }.

(** The key of [external_arp_table]. *)
Record ArpKey := MkArpKey { Ifindex : Z; Ipaddr : Z }.
#[global] Instance ArpKey_eq_dec : EqDecision ArpKey.
Proof. solve_decision. Defined.
#[global] Instance ArpKey_countable : Countable ArpKey.
Proof. by apply (inj_countable' (fun k => (Ifindex k, Ipaddr k)) (fun p => MkArpKey p.1 p.2)); intros []. Defined.

(** ** Calls *)

Inductive ext_event : Type -> Type :=
| ExtPoolUpdate (k : Key) (v : Z) : ext_event (result bpf_error unit)
| ExtPoolDelete (k : Key) : ext_event (result bpf_error unit)
| DirectUpdate (addr networkID : Z) : ext_event (result bpf_error unit)
| DirectDelete (addr : Z) : ext_event (result bpf_error unit)
| ArpUpdate (k : ArpKey) (mac : list Z) : ext_event (result bpf_error unit)
| ArpDelete (k : ArpKey) : ext_event (result bpf_error unit)
| NaptUpdate (id hostIP : Z) : ext_event (result bpf_error unit)
| NaptDelete (id : Z) : ext_event (result bpf_error unit)
| GetEndpoint (namespace name : string) : ext_event (result api_error NetworkEndpoint)
| GetSubnetVNI (name : string) : ext_event (result api_error Z)
| GetExternalNetwork (name : string) : ext_event (result api_error ExternalNetwork)
| GetARPAdvertisement (name : string) : ext_event (result api_error ARPAdvertisement)
| GetAttachment (name : string) : ext_event (result api_error ExternalNetworkAttachment)
| ListEndpoints : ext_event (result api_error (list NetworkEndpoint))
| ListARPAdvertisements : ext_event (result api_error (list ARPAdvertisement))
| ListAttachments : ext_event (result api_error (list ExternalNetworkAttachment))
| ListNATGateways : ext_event (result api_error (list NATGateway))
| ListAddressPools : ext_event (result api_error (list AddressPool))
| ListBGPAdvertisements : ext_event (result api_error (list BGPAdvertisement)).

Inductive ext_error :=
| BadMetaKey
| ApiFailed (e : api_error)
| NamesNoNetwork
| NoOverlaySegment
| NotOneAddress
| CarriedOnOtherNetwork (holder : string) (networkID : Z)
| DirectFailed (e : bpf_error)
| OwnedFailed (errs : list apply_error)
| ArpFailed (e : bpf_error)
| WrongNetworkType
| NaptFailed (e : bpf_error)
| JoinedErrors (errs : list ext_error).

(** [errors.Join]: no error when there is none. *)
Definition ownedErr (errs : list apply_error) : result ext_error unit :=
  match errs with [] => Ok tt | _ => Err (OwnedFailed errs) end.
Definition joinErr (errs : list ext_error) : result ext_error unit :=
  match errs with [] => Ok tt | _ => Err (JoinedErrors errs) end.
Definition errOf (r : result ext_error unit) : list ext_error :=
  match r with Ok _ => [] | Err e => [e] end.

#[local] Abbreviation ownedSet := (Scope_Set ExtPoolUpdate ExtPoolDelete).
#[local] Abbreviation ownedSetClaims := (Scope_SetClaims ExtPoolUpdate ExtPoolDelete).
#[local] Abbreviation ownedRelease := (Scope_Release ExtPoolUpdate ExtPoolDelete).
#[local] Abbreviation ownedReleaseAll := (Scope_ReleaseAll ExtPoolUpdate ExtPoolDelete).

(** ** endpoint_network.go *)

Inductive endpointNetwork := endpointOnSubnet | endpointOnL2Network | endpointOnExternalNetwork.
#[global] Instance endpointNetwork_eq_dec : EqDecision endpointNetwork.
Proof. solve_decision. Defined.

Definition endpointNetworkOf (nwep : NetworkEndpoint) : result ext_error endpointNetwork :=
  if negb (String.eqb (ne_Subnet nwep) "") then Ok endpointOnSubnet
  else if negb (String.eqb (ne_L2Network nwep) "") then Ok endpointOnL2Network
  else if negb (String.eqb (ne_ExternalNetwork nwep) "") then Ok endpointOnExternalNetwork
  else Err NamesNoNetwork.

(** The segment, or [None] while it is not ready. *)
Definition overlaySegmentID (nwep : NetworkEndpoint) (network : endpointNetwork)
  : prog ext_event (result ext_error (option Z)) :=
  match network with
  | endpointOnSubnet =>
      r <- call (GetSubnetVNI (ne_Subnet nwep)) ;;
      match r with Ok vni => Ret (Ok (Some vni)) | Err e => Ret (Err (ApiFailed e)) end
  | endpointOnExternalNetwork =>
      r <- call (GetExternalNetwork (ne_ExternalNetwork nwep)) ;;
      match r with
      | Err NotFound => Ret (Ok None)
      | Err e => Ret (Err (ApiFailed e))
      | Ok network => if en_NetworkID network =? 0 then Ret (Ok None) else Ret (Ok (Some (en_NetworkID network)))
      end
  | endpointOnL2Network => Ret (Err NoOverlaySegment)
  end.

(** For an event about the ExternalNetwork [name]. *)
Definition externalNetworkEndpointKeys (name : string) : prog ext_event (list string) :=
  r <- call ListEndpoints ;;
  match r with
  | Err _ => Ret []
  | Ok items => Ret (map (fun e => (ne_Namespace e ++ "/" ++ ne_Name e)%string)
                       (List.filter (fun e => String.eqb (ne_ExternalNetwork e) name) items))
  end.

(** ** elastic_ip_direct.go *)

Definition elasticIPDirectScope : string := "elastic-ip-direct".

Record elasticIPDirectClaim := MkDirectClaim { dc_address : Z; dc_prefix : Key; dc_networkID : Z }.
Record ElasticIPDirect := MkDirect { d_claims : gmap string elasticIPDirectClaim; d_installed : gmap Z Z }.

Definition newElasticIPDirect : ElasticIPDirect := MkDirect ∅ ∅.

Definition newElasticIPDirectClaim (address : string) (networkID : Z) : result ext_error elasticIPDirectClaim :=
  let prefix := match Netip.ParsePrefix address with
                | Ok p => Some p
                | Err _ => match ParseAddr address with
                           | Ok addr => Some (PrefixFrom addr (BitLen addr))
                           | Err _ => None
                           end
                end in
  match prefix with
  | None => Err NotOneAddress
  | Some p =>
      if negb (Is4 (pfx_addr p)) || negb (pfx_bits p =? 32) then Err NotOneAddress
      else match IPv4ToUint32 (pfx_addr p), ParsePrefix (Prefix_String p) with
           | Some hostOrder, Ok key => Ok (MkDirectClaim hostOrder key networkID)
           | _, _ => Err NotOneAddress
           end
  end.

Definition string_le (a b : string) : Prop := String.leb a b = true.
#[global] Instance string_le_dec a b : Decision (string_le a b).
Proof. unfold string_le. apply _. Defined.

Definition sortedNames (claims : gmap string elasticIPDirectClaim) : list string :=
  merge_sort string_le (map_to_list claims).*1.

Definition otherNetworkFor (key : string) (claim : elasticIPDirectClaim) (d : ElasticIPDirect) : option (string * Z) :=
  option_bind _ _ (fun holder => option_map (fun other => (holder, dc_networkID other)) (d_claims d !! holder))
    (List.find (fun holder => match d_claims d !! holder with
                              | Some other => negb (String.eqb holder key) && (dc_address other =? dc_address claim) &&
                                              negb (dc_networkID other =? dc_networkID claim)
                              | None => false
                              end) (sortedNames (d_claims d))).

Definition direct_install (address networkID : Z) (d : ElasticIPDirect)
  : prog ext_event (result ext_error unit * ElasticIPDirect) :=
  if bool_decide (d_installed d !! address = Some networkID) then Ret (Ok tt, d) else
  r <- call (DirectUpdate address networkID) ;;
  match r with
  | Err e => Ret (Err (DirectFailed e), d)
  | Ok _ => Ret (Ok tt, MkDirect (d_claims d) (<[address := networkID]> (d_installed d)))
  end.

Definition uninstallUnclaimed (address : Z) (d : ElasticIPDirect)
  : prog ext_event (result ext_error unit * ElasticIPDirect) :=
  if existsb (fun kc => dc_address kc.2 =? address) (map_to_list (d_claims d)) then Ret (Ok tt, d) else
  r <- call (DirectDelete address) ;;
  match ignoreMissing r with
  | Err e => Ret (Err (DirectFailed e), d)
  | Ok _ => Ret (Ok tt, MkDirect (d_claims d) (delete address (d_installed d)))
  end.

Section Direct.
Variable SplitMetaNamespaceKey : string -> option (string * string).
Variable order : visit.

#[local] Abbreviation mem := (ElasticIPDirect * Store)%type.

Definition direct_claim (key : string) (claim : elasticIPDirectClaim) (m : mem)
  : prog ext_event (result ext_error unit * mem) :=
  match otherNetworkFor key claim m.1 with
  | Some (holder, networkID) => Ret (Err (CarriedOnOtherNetwork holder networkID), m)
  | None =>
      let previous := d_claims m.1 !! key in
      rd <- direct_install (dc_address claim) (dc_networkID claim) m.1 ;;
      match rd.1 with
      | Err e => Ret (Err e, (rd.2, m.2))
      | Ok _ =>
          let d := MkDirect (<[key := claim]> (d_claims rd.2)) (d_installed rd.2) in
          rs <- ownedSet order elasticIPDirectScope key [dc_prefix claim] m.2 ;;
          match ownedErr rs.1, previous with
          | Err e, _ => Ret (Err e, (d, rs.2))
          | Ok _, Some p =>
              if negb (dc_address p =? dc_address claim)
              then ru <- uninstallUnclaimed (dc_address p) d ;; Ret (ru.1, (ru.2, rs.2))
              else Ret (Ok tt, (d, rs.2))
          | Ok _, None => Ret (Ok tt, (d, rs.2))
          end
      end
  end.

Definition direct_release (key : string) (m : mem) : prog ext_event (result ext_error unit * mem) :=
  match d_claims m.1 !! key with
  | None => Ret (Ok tt, m)
  | Some previous =>
      rs <- ownedRelease order elasticIPDirectScope key m.2 ;;
      match ownedErr rs.1 with
      | Err e => Ret (Err e, (m.1, rs.2))
      | Ok _ =>
          let d := MkDirect (delete key (d_claims m.1)) (d_installed m.1) in
          ru <- uninstallUnclaimed (dc_address previous) d ;; Ret (ru.1, (ru.2, rs.2))
      end
  end.

Definition direct_Reconcile (key : string) (m : mem) : prog ext_event (result ext_error unit * mem) :=
  match SplitMetaNamespaceKey key with
  | None => Ret (Err BadMetaKey, m)
  | Some (namespace, name) =>
      r <- call (GetEndpoint namespace name) ;;
      match r with
      | Err NotFound => direct_release key m
      | Err e => Ret (Err (ApiFailed e), m)
      | Ok nwep =>
          match endpointNetworkOf nwep with
          | Err e => Ret (Err e, m)
          | Ok network =>
              if negb (bool_decide (network = endpointOnExternalNetwork)) then direct_release key m else
              id <- overlaySegmentID nwep network ;;
              match id with
              | Err e => Ret (Err e, m)
              | Ok None => direct_release key m
              | Ok (Some networkID) =>
                  match newElasticIPDirectClaim (ne_Address nwep) networkID with
                  | Err e => Ret (Err e, m)
                  | Ok claim => direct_claim key claim m
                  end
              end
          end
      end
  end.

(** [CloseAll]; the addresses are visited in the order of the model's map. *)
Definition direct_CloseAll (m : mem) : prog ext_event (result ext_error unit * mem) :=
  rs <- ownedReleaseAll order elasticIPDirectScope m.2 ;;
  let d := MkDirect ∅ (d_installed m.1) in
  st <- forP (map_to_list (d_installed m.1)).*1 (errOf (ownedErr rs.1), d) (fun address st =>
    ru <- uninstallUnclaimed address st.2 ;; Ret (st.1 ++ errOf ru.1, ru.2)) ;;
  Ret (joinErr st.1, (st.2, rs.2)).
End Direct.

(** ** external_arp.go *)

Definition externalArpScope : string := "external-arp".
Definition ExternalNetworkTypeARP : string := "arp".

Record externalArpResponder := MkResponder { resp_ifindex : Z; resp_mac : list Z }.

Definition newExternalArpResponder (ifindex : Z) (mac : list Z) : option externalArpResponder :=
  if ifindex <=? 0 then None
  else option_map (MkResponder (u32 ifindex)) (HardwareAddrToUint8Array mac).

Definition buildEntry (responder : externalArpResponder) (address : string) : result ext_error (ArpKey * Key) :=
  match ParseIP address with
  | None => Err NotOneAddress
  | Some ip =>
      match IPv4ToUint32 ip, ParsePrefix address with
      | Some ipaddr, Ok poolKey => Ok (MkArpKey (resp_ifindex responder) ipaddr, poolKey)
      | _, _ => Err NotOneAddress
      end
  end.

Definition checkExternalNetwork (adv : ARPAdvertisement) : prog ext_event (result ext_error unit) :=
  r <- call (GetExternalNetwork (arp_ExternalNetwork adv)) ;;
  match r with
  | Err e => Ret (Err (ApiFailed e))
  | Ok network => if negb (String.eqb (en_Type network) ExternalNetworkTypeARP) then Ret (Err WrongNetworkType) else Ret (Ok tt)
  end.

Definition arp_deleteEntry (entry : ArpKey) : prog ext_event (result ext_error unit) :=
  r <- call (ArpDelete entry) ;;
  match ignoreMissing r with Err e => Ret (Err (ArpFailed e)) | Ok _ => Ret (Ok tt) end.

Section Arp.
Variable responder : externalArpResponder.
Variable nodeName : string.
Variable order : visit.

(** The field [installed] and the store. *)
#[local] Abbreviation mem := (gmap string ArpKey * Store)%type.

Definition arp_program (name : string) (adv : ARPAdvertisement) (m : mem) : prog ext_event (result ext_error unit * mem) :=
  rc <- checkExternalNetwork adv ;;
  match rc with
  | Err e => Ret (Err e, m)
  | Ok _ =>
      match buildEntry responder (TrimSpace (arp_Address adv)) with
      | Err e => Ret (Err e, m)
      | Ok (desired, poolKey) =>
          let stale := m.1 !! name in
          rd <- match stale with
          | Some entry => if bool_decide (entry = desired) then Ret (Ok tt) else arp_deleteEntry entry
          | None => Ret (Ok tt)
          end ;;
          match rd with
          | Err e => Ret (Err e, m)
          | Ok _ =>
              rs <- ownedSet order externalArpScope name [poolKey] m.2 ;;
              match ownedErr rs.1 with
              | Err e => Ret (Err e, (m.1, rs.2))
              | Ok _ =>
                  r <- call (ArpUpdate desired (resp_mac responder)) ;;
                  match r with
                  | Err e => Ret (Err (ArpFailed e), (m.1, rs.2))
                  | Ok _ => Ret (Ok tt, (<[name := desired]> m.1, rs.2))
                  end
              end
          end
      end
  end.

Definition arp_release (name : string) (m : mem) : prog ext_event (result ext_error unit * mem) :=
  rd <- match m.1 !! name with Some entry => arp_deleteEntry entry | None => Ret (Ok tt) end ;;
  rs <- ownedRelease order externalArpScope name m.2 ;;
  Ret (joinErr (errOf rd ++ errOf (ownedErr rs.1)), (delete name m.1, rs.2)).

Definition arp_Reconcile (key : string) (m : mem) : prog ext_event (result ext_error unit * mem) :=
  r <- call (GetARPAdvertisement key) ;;
  match r with
  | Err NotFound => arp_release key m
  | Err e => Ret (Err (ApiFailed e), m)
  | Ok adv => if negb (String.eqb (arp_NodeName adv) nodeName) then arp_release key m else arp_program key adv m
  end.

Definition arp_CloseAll (m : mem) : prog ext_event (result ext_error unit * mem) :=
  errs <- forP (map_to_list m.1) [] (fun ne errs => rd <- arp_deleteEntry ne.2 ;; Ret (errs ++ errOf rd)) ;;
  rs <- ownedReleaseAll order externalArpScope m.2 ;;
  Ret (joinErr (errs ++ errOf (ownedErr rs.1)), (∅, rs.2)).

(** For an event about the ExternalNetwork [network]. *)
Definition FanOutExternalNetworkToAdvertisements (network : string) : prog ext_event (list string) :=
  r <- call ListARPAdvertisements ;;
  match r with
  | Err _ => Ret []
  | Ok items => Ret (map arp_Name (List.filter (fun a => String.eqb (arp_ExternalNetwork a) network) items))
  end.
End Arp.

(** ** napt.go *)

Definition naptScope : string := "napt".

Definition parseAssignedIPForBPF (address : string) : option Z :=
  match ParseIP address with
  | Some ip => IPv4ToBPFNetworkOrder ip
  | None => match (if has_slash address then ParseCIDR address else None) with
            | Some (ip, _) => IPv4ToBPFNetworkOrder ip
            | None => None
            end
  end.

Section Napt.
Variable nodeName : string.
Variable order : visit.

(** The field [srcInstalled] and the store. *)
#[local] Abbreviation mem := (gmap string (gset Z) * Store)%type.

Definition claimExternalAddress (name address : string) (s : Store) : prog ext_event (result ext_error unit * Store) :=
  match ParsePrefix address with
  | Err _ => Ret (Err NotOneAddress, s)
  | Ok key => rs <- ownedSet order naptScope name [key] s ;; Ret (ownedErr rs.1, rs.2)
  end.

Definition desiredGateways (attachment : ExternalNetworkAttachment) (items : list NATGateway) : gset Z :=
  list_to_set (map ng_GatewayID (List.filter (fun ng =>
    String.eqb (ng_ExternalNetwork ng) (ena_ExternalNetwork attachment) && negb (ng_GatewayID ng =? 0)) items)).

Definition naptUpdateAll (ids : list Z) (hostIP : Z) : prog ext_event (result ext_error unit) :=
  forTryP ids tt (fun id _ =>
    r <- call (NaptUpdate id hostIP) ;;
    match r with Err e => Ret (Err (NaptFailed e)) | Ok _ => Ret (Ok tt) end).

Definition naptDeleteStale (ids : list Z) (desired : gset Z) : prog ext_event (result ext_error unit) :=
  forTryP ids tt (fun id _ =>
    if bool_decide (id ∈ desired) then Ret (Ok tt) else
    r <- call (NaptDelete id) ;;
    match ignoreMissing r with Err e => Ret (Err (NaptFailed e)) | Ok _ => Ret (Ok tt) end).

Definition upsertNaptSrc (name : string) (attachment : ExternalNetworkAttachment) (address : string)
  (srcInstalled : gmap string (gset Z)) : prog ext_event (result ext_error unit * gmap string (gset Z)) :=
  match parseAssignedIPForBPF address with
  | None => Ret (Err NotOneAddress, srcInstalled)
  | Some hostIP =>
      r <- call ListNATGateways ;;
      match r with
      | Err e => Ret (Err (ApiFailed e), srcInstalled)
      | Ok items =>
          let desired := desiredGateways attachment items in
          ru <- naptUpdateAll (elements desired) hostIP ;;
          match ru with
          | Err e => Ret (Err e, srcInstalled)
          | Ok _ =>
              rd <- naptDeleteStale (elements (default ∅ (srcInstalled !! name))) desired ;;
              match rd with
              | Err e => Ret (Err e, srcInstalled)
              | Ok _ => Ret (Ok tt, <[name := desired]> srcInstalled)
              end
          end
      end
  end.

Definition deleteNaptSrc (ids : list Z) : prog ext_event (list ext_error) :=
  forP ids [] (fun id errs =>
    r <- call (NaptDelete id) ;;
    match ignoreMissing r with Err e => Ret (errs ++ [NaptFailed e]) | Ok _ => Ret errs end).

Definition napt_delete (name : string) (m : mem) : prog ext_event (result ext_error unit * mem) :=
  let srcKeys := default ∅ (m.1 !! name) in
  rs <- ownedRelease order naptScope name m.2 ;;
  errs <- deleteNaptSrc (elements srcKeys) ;;
  Ret (joinErr (errOf (ownedErr rs.1) ++ errs), (delete name m.1, rs.2)).

Definition napt_Reconcile (key : string) (m : mem) : prog ext_event (result ext_error unit * mem) :=
  r <- call (GetAttachment key) ;;
  match r with
  | Err NotFound => napt_delete key m
  | Err e => Ret (Err (ApiFailed e), m)
  | Ok attachment =>
      if negb (String.eqb (ena_NodeName attachment) nodeName) then napt_delete key m else
      let address := TrimSpace (ena_AssignedIP attachment) in
      if String.eqb address "" then napt_delete key m else
      rc <- claimExternalAddress key address m.2 ;;
      match rc.1 with
      | Err e => Ret (Err e, (m.1, rc.2))
      | Ok _ => ru <- upsertNaptSrc key attachment address m.1 ;; Ret (ru.1, (ru.2, rc.2))
      end
  end.

Definition napt_CloseAll (m : mem) : prog ext_event (result ext_error unit * mem) :=
  rs <- ownedReleaseAll order naptScope m.2 ;;
  errs <- forP (map_to_list m.1) (errOf (ownedErr rs.1)) (fun ns errs => e <- deleteNaptSrc (elements ns.2) ;; Ret (errs ++ e)) ;;
  Ret (joinErr errs, (∅, rs.2)).

Definition FanOutAllAttachments : prog ext_event (list string) :=
  r <- call ListAttachments ;;
  match r with
  | Err _ => Ret []
  | Ok items => Ret (map ena_Name (List.filter (fun a => String.eqb (ena_NodeName a) nodeName) items))
  end.
End Napt.

(** ** bgp_pool.go *)

Definition bgpPoolScope : string := "bgp-pool".
Definition bgpPoolOwner : string := "address-pools".
Definition AddressPoolAdvertiseModeBGP : string := "bgp".

Section Bgp.
Variable nodeName : string.

Definition deliveryOf (adv : BGPAdvertisement) : Z :=
  if String.eqb (bgp_NodeName adv) "" || String.eqb (bgp_NodeName adv) nodeName then DeliveredHere else DeliveredElsewhere.

Definition claimedPrefixes (adv : BGPAdvertisement) (pool : AddressPool) (delivery : Z) : list string :=
  if (delivery =? DeliveredElsewhere) && negb (String.eqb (TrimSpace (bgp_Prefix adv)) "")
  then [bgp_Prefix adv] else ap_Addresses pool.

(** The last pool of a name; names of a list are distinct. *)
Definition poolsByName (pools : list AddressPool) : gmap string AddressPool :=
  foldl (fun m p => <[ap_Name p := p]> m) ∅ pools.

Inductive warning := MissingPool (name : string) | NotBgp (pool mode : string) | BadAddress (pool raw : string).
#[global] Instance warning_eq_dec : EqDecision warning.
Proof. solve_decision. Defined.

(** The desired claims and the warnings so far. *)
Definition bgp_state : Type := gmap Key Z * list warning.

Definition warn (w : warning) (st : bgp_state) : bgp_state :=
  if bool_decide (w ∈ st.2) then st else (st.1, st.2 ++ [w]).

Definition claimPrefix (pool : AddressPool) (delivery : Z) (st : bgp_state) (raw : string) : bgp_state :=
  match ParsePrefix raw with
  | Err _ => warn (BadAddress (ap_Name pool) raw) st
  | Ok key => if bool_decide (st.1 !! key = Some DeliveredHere) then st else (<[key := delivery]> st.1, st.2)
  end.

Definition claimPool (pools : gmap string AddressPool) (adv : BGPAdvertisement) (st : bgp_state) (poolName : string) : bgp_state :=
  let poolName := TrimSpace poolName in
  if String.eqb poolName "" then st
  else match pools !! poolName with
  | None => warn (MissingPool poolName) st
  | Some pool =>
      if negb (String.eqb (ap_AdvertiseMode pool) AddressPoolAdvertiseModeBGP)
      then warn (NotBgp (ap_Name pool) (ap_AdvertiseMode pool)) st
      else foldl (claimPrefix pool (deliveryOf adv)) st (claimedPrefixes adv pool (deliveryOf adv))
  end.

Definition claimAdvertisement (pools : gmap string AddressPool) (st : bgp_state) (adv : BGPAdvertisement) : bgp_state :=
  foldl (claimPool pools adv) st (bgp_AddressPools adv).

Definition adv_le (a b : BGPAdvertisement) : Prop := string_le (bgp_Name a) (bgp_Name b).
#[global] Instance adv_le_dec a b : Decision (adv_le a b).
Proof. unfold adv_le. apply _. Defined.

Definition claim_le (a b : Claim) : Prop := string_le (Key_String (claim_Key a)) (Key_String (claim_Key b)).
#[global] Instance claim_le_dec a b : Decision (claim_le a b).
Proof. unfold claim_le. apply _. Defined.

Definition desiredClaims (pools : list AddressPool) (advs : list BGPAdvertisement) : list Claim * list warning :=
  let st := foldl (claimAdvertisement (poolsByName pools)) (∅, []) (merge_sort adv_le advs) in
  (merge_sort claim_le ((fun kv => MkClaim kv.1 kv.2) <$> map_to_list st.1), st.2).

Definition buildDesired : prog ext_event (result ext_error (list Claim * list warning)) :=
  r <- call ListAddressPools ;;
  match r with
  | Err e => Ret (Err (ApiFailed e))
  | Ok pools =>
      r <- call ListBGPAdvertisements ;;
      match r with
      | Err e => Ret (Err (ApiFailed e))
      | Ok advs => Ret (Ok (desiredClaims pools advs))
      end
  end.

(** The warnings are logged. *)
Definition bgp_Reconcile (order : visit) (s : Store) : prog ext_event (result ext_error unit * Store) :=
  r <- buildDesired ;;
  match r with
  | Err e => Ret (Err e, s)
  | Ok desired =>
      rs <- ownedSetClaims order bgpPoolScope bgpPoolOwner desired.1 s ;;
      Ret (ownedErr rs.1, rs.2)
  end.
End Bgp.
