(* ===== verification/NodeTables.v ===== *)
(** * NodeTables: subnets and neighbours on a node

    [daemon/internal/daemon/dataplane/reconciler]: [subnet.go], which writes
    [subnet_map] and the neighbour entry of the DNS address of a Subnet,
    [arp.go] and [fdb.go], which write one entry per NetworkEndpoint into
    [arp_table] and into the forwarding database.  Each reconciler runs one
    operation at a time; the snapshots it keeps between operations are
    explicit state.  Reads they share with the reconcilers of external
    addresses are the events of [ExternalAddr]. *)

From stdpp Require Import base gmap strings list.
From Stdlib Require Import ZArith Lia.
From S2P Require Import Prelude Effects Netip IPNet Kube PolicyEval PolicyStores OwnedAddr.
From S2P Require Import AddressPlan RouteTypes Fib ExternalAddr.

Open Scope Z_scope.
Open Scope go_scope.

(** ** Types *)

(** The objects [subnet.go] reads. [so_ACLID] is [status.networkACL.aclID], 0
    when there is none. *)
Record SubnetObject := MkSubnetObject {
  so_Name : string; so_Vpc : string; so_CIDR : string; so_RouteTable : string; so_NetworkACL : string;
  so_VNI : Z; so_Gateway : string; so_GatewayMAC : string; so_DNS : string; so_DNSMAC : string; so_ACLID : Z }.
Record VpcStatus := MkVpcStatus { vs_VpcID : Z; vs_MainRouteTable : string }.

(** [bpf.PodEgressSubnetVal] *)
Record SubnetVal := MkSubnetVal {
  sv_TableId : Z; sv_VpcId : Z; sv_GwMac : list Z; sv_GwAddr : Z; sv_Mask : Z; sv_AclId : Z }.

(** A NetworkEndpoint with the fields [arp.go] and [fdb.go] read;
    [eo_Attachment] is the ifindex of [spec.attachment]. *)
Record EndpointObject := MkEndpointObject {
  eo_endpoint : ExternalAddr.NetworkEndpoint;
  eo_MACAddress : string; eo_NodeName : string; eo_Attachment : option Z; eo_NodeIP : string }.

(** [bpf.PodEgressFdbVal] *)
Record FdbVal := MkFdbVal { fdb_Ifindex : Z; fdb_VtepIp : Z }.

(** ** Calls *)

Inductive node_call : Type -> Type :=
| ExtCall {R} (e : ext_event R) : node_call R
| GetSubnetObject (name : string) : node_call (result api_error SubnetObject)
| GetVpcStatus (name : string) : node_call (result api_error VpcStatus)
| GetTableID (name : string) : node_call (result api_error Z)          (* status.tableID of a RouteTable *)
| GetEndpointObject (namespace name : string) : node_call (result api_error EndpointObject)
| ListSubnetObjects : node_call (result api_error (list SubnetObject))
| ListSubnetObjectsOf (vpc : string) : node_call (result api_error (list SubnetObject))
| SubnetMapUpdate (vni : Z) (v : SubnetVal) : node_call (result bpf_error unit)
| SubnetMapDelete (vni : Z) : node_call (result bpf_error unit)
| ArpTableUpdate (k : Z * Z) (mac : list Z) : node_call (result bpf_error unit)
| ArpTableDelete (k : Z * Z) : node_call (result bpf_error unit)
| FdbUpdate (isLocal : bool) (k : Z * list Z) (v : FdbVal) : node_call (result bpf_error unit)
| FdbDelete (isLocal : bool) (k : Z * list Z) : node_call (result bpf_error unit).

Inductive node_error :=
| NodeApi (e : api_error)
| NodeExt (e : ext_error)
| BadKey
| BadMAC | BadCIDR | BadAddress | BadMask
| MapFailed (e : bpf_error).

(** A program of [ExternalAddr] as one of this file. *)
Definition ext_prog {A} (p : prog ext_event A) : prog node_call A := embed (@ExtCall) p.

Definition mapCall (e : node_call (result bpf_error unit)) : prog node_call (result node_error unit) :=
  r <- call e ;; Ret (res_map_err MapFailed r).

(** A delete that accepts a missing key. *)
Definition mapDelete (e : node_call (result bpf_error unit)) : prog node_call (result node_error unit) :=
  r <- call e ;; Ret (res_map_err MapFailed (ignoreMissing r)).

(** ** subnet.go *)

Record subnetSnapshot := MkSubnetSnapshot { snap_vni : Z; snap_dnsIP : Z; snap_aclID : Z }.

(** The address and the MAC of a DNS entry, [None] when the Subnet has none. *)
Definition dnsEntry (subnet : SubnetObject) : result node_error (option (Z * list Z)) :=
  if String.eqb (so_DNS subnet) "" || String.eqb (so_DNSMAC subnet) "" then Ok None else
  match ParseIP (so_DNS subnet) with
  | None => Err BadAddress
  | Some dnsAddr =>
      match IPv4ToUint32 dnsAddr with
      | None => Err BadAddress
      | Some dnsHost => match macOf (so_DNSMAC subnet) with None => Err BadMAC | Some mac => Ok (Some (dnsHost, mac)) end
      end
  end.

Definition upsertDNSARP (subnet : SubnetObject) : prog node_call (result node_error Z) :=
  match dnsEntry subnet with
  | Err e => Ret (Err e)
  | Ok None => Ret (Ok 0)
  | Ok (Some (dnsHost, mac)) => _ <-? mapCall (ArpTableUpdate (so_VNI subnet, dnsHost) mac) ;; Ret (Ok dnsHost)
  end.

Definition deleteDNSARP (vni dnsHost : Z) : prog node_call (result node_error unit) :=
  if (vni =? 0) || (dnsHost =? 0) then Ret (Ok tt) else mapDelete (ArpTableDelete (vni, dnsHost)).

(** The bytes of an IPv4 mask. *)
Definition maskBytes (ones : Z) : list Z := As4 (mask_val 32 ones 4294967295).

(** The value written into [subnet_map]; the ids come from the Vpc and from the
    effective RouteTable. *)
Definition subnetVal (subnet : SubnetObject) (vpc : VpcStatus) (tableID : Z) : result node_error SubnetVal :=
  match macOf (so_GatewayMAC subnet) with
  | None => Err BadMAC
  | Some gwmac =>
      match ParseCIDR (so_CIDR subnet) with
      | None => Err BadCIDR
      | Some (_, ipnet) =>
          match ParseIP (so_Gateway subnet) with
          | None => Err BadAddress
          | Some netgwaddr =>
              match IPv4ToUint32 netgwaddr with
              | None => Err BadAddress
              | Some gwaddr =>
                  match (if Is4 (net_IP ipnet) then IPMaskToUint32 (maskBytes (net_Ones ipnet)) else None) with
                  | None => Err BadMask
                  | Some mask => Ok (MkSubnetVal tableID (vs_VpcID vpc) gwmac gwaddr mask (so_ACLID subnet))
                  end
              end
          end
      end
  end.

Definition effectiveRouteTable (subnet : SubnetObject) (vpc : VpcStatus) : string :=
  if String.eqb (so_RouteTable subnet) "" then vs_MainRouteTable vpc else so_RouteTable subnet.

Definition subnet_upsert (subnet : SubnetObject) (snaps : gmap string subnetSnapshot)
  : prog node_call (result node_error unit * gmap string subnetSnapshot) :=
  r <- call (GetVpcStatus (so_Vpc subnet)) ;;
  match r with
  | Err e => Ret (Err (NodeApi e), snaps)
  | Ok vpc =>
      r <- call (GetTableID (effectiveRouteTable subnet vpc)) ;;
      match r with
      | Err e => Ret (Err (NodeApi e), snaps)
      | Ok tableID =>
          match subnetVal subnet vpc tableID with
          | Err e => Ret (Err e, snaps)
          | Ok val =>
              r <- (_ <-? mapCall (SubnetMapUpdate (so_VNI subnet) val) ;; upsertDNSARP subnet) ;;
              match r with
              | Err e => Ret (Err e, snaps)
              | Ok dnsIP =>
                  let prev := default (MkSubnetSnapshot 0 0 0) (snaps !! so_Name subnet) in
                  let snaps' := <[so_Name subnet := MkSubnetSnapshot (so_VNI subnet) dnsIP (so_ACLID subnet)]> snaps in
                  if negb (snap_dnsIP prev =? 0) &&
                     (negb (snap_vni prev =? so_VNI subnet) || negb (snap_dnsIP prev =? dnsIP))
                  then r <- deleteDNSARP (snap_vni prev) (snap_dnsIP prev) ;; Ret (r, snaps')
                  else Ret (Ok tt, snaps')
              end
          end
      end
  end.

Definition subnet_delete (name : string) (snaps : gmap string subnetSnapshot)
  : prog node_call (result node_error unit * gmap string subnetSnapshot) :=
  match snaps !! name with
  | None => Ret (Ok tt, snaps)
  | Some snap =>
      r <- (_ <-? mapDelete (SubnetMapDelete (snap_vni snap)) ;; deleteDNSARP (snap_vni snap) (snap_dnsIP snap)) ;;
      match r with
      | Err e => Ret (Err e, snaps)
      | Ok _ => Ret (Ok tt, delete name snaps)
      end
  end.

Definition subnet_Reconcile (name : string) (snaps : gmap string subnetSnapshot)
  : prog node_call (result node_error unit * gmap string subnetSnapshot) :=
  r <- call (GetSubnetObject name) ;;
  match r with
  | Err NotFound => subnet_delete name snaps
  | Err e => Ret (Err (NodeApi e), snaps)
  | Ok subnet => subnet_upsert subnet snaps
  end.

Definition subnetsWhere (p : SubnetObject -> bool) (r : result api_error (list SubnetObject)) : list string :=
  match r with Ok items => so_Name <$> List.filter p items | Err _ => [] end.

Definition FanOutNetworkACLToSubnets (acl : string) : prog node_call (list string) :=
  r <- call ListSubnetObjects ;; Ret (subnetsWhere (fun s => String.eqb (so_NetworkACL s) acl) r).

Definition FanOutVpcToSubnets (vpc : string) : prog node_call (list string) :=
  r <- call (ListSubnetObjectsOf vpc) ;; Ret (subnetsWhere (fun _ => true) r).

(** A Vpc that cannot be read counts as having no main RouteTable. *)
Definition FanOutRouteTableToSubnets (rt : RouteTypes.RouteTable) : prog node_call (list string) :=
  r <- call (ListSubnetObjectsOf (rtb_Vpc rt)) ;;
  match r with
  | Err _ => Ret []
  | Ok items =>
      v <- call (GetVpcStatus (rtb_Vpc rt)) ;;
      let isMain := match v with Ok vpc => String.eqb (vs_MainRouteTable vpc) (rtb_name rt) | Err _ => String.eqb "" (rtb_name rt) end in
      Ret (subnetsWhere (fun s => String.eqb (so_RouteTable s) (rtb_name rt) ||
                                  (String.eqb (so_RouteTable s) "" && isMain)) (Ok items))
  end.

(** ** arp.go and fdb.go *)

Section Endpoints.
Variable SplitMetaNamespaceKey : string -> option (string * string).

(** The part of [Reconcile] both reconcilers have: the endpoint and its
    segment, or what to do instead. *)
Definition endpoint_Reconcile {S} (key : string)
  (upsert : EndpointObject -> Z -> S -> prog node_call (result node_error unit * S))
  (release : S -> prog node_call (result node_error unit * S)) (st : S)
  : prog node_call (result node_error unit * S) :=
  match SplitMetaNamespaceKey key with
  | None => Ret (Err BadKey, st)
  | Some (namespace, name) =>
      r <- call (GetEndpointObject namespace name) ;;
      match r with
      | Err NotFound => release st
      | Err e => Ret (Err (NodeApi e), st)
      | Ok nwep =>
          match endpointNetworkOf (eo_endpoint nwep) with
          | Err e => Ret (Err (NodeExt e), st)
          | Ok network =>
              if bool_decide (network = endpointOnL2Network) then release st else
              r <- ext_prog (overlaySegmentID (eo_endpoint nwep) network) ;;
              match r with
              | Err e => Ret (Err (NodeExt e), st)
              | Ok None => release st
              | Ok (Some vni) => upsert nwep vni st
              end
          end
      end
  end.

(** *** arp.go: snapshots are the keys of the entries written *)

Definition arpAddress (nwep : EndpointObject) : result node_error Z :=
  match ParseCIDR (ne_Address (eo_endpoint nwep)) with
  | None => Err BadCIDR
  | Some (netaddr, _) => match IPv4ToUint32 netaddr with None => Err BadAddress | Some a => Ok a end
  end.

Definition arp_upsert (key : string) (nwep : EndpointObject) (vni : Z) (snaps : gmap string (Z * Z))
  : prog node_call (result node_error unit * gmap string (Z * Z)) :=
  match arpAddress nwep, macOf (eo_MACAddress nwep) with
  | Err e, _ => Ret (Err e, snaps)
  | Ok _, None => Ret (Err BadMAC, snaps)
  | Ok addr, Some mac =>
      let desired := (vni, addr) in
      r <- (match snaps !! key with
      | Some old => if bool_decide (old = desired) then Ret (Ok tt) else mapDelete (ArpTableDelete old)
      | None => Ret (Ok tt)
      end) ;;
      match r with
      | Err e => Ret (Err e, snaps)
      | Ok _ =>
          r <- mapCall (ArpTableUpdate desired mac) ;;
          match r with
          | Err e => Ret (Err e, snaps)
          | Ok _ => Ret (Ok tt, <[key := desired]> snaps)
          end
      end
  end.

Definition arp_delete (key : string) (snaps : gmap string (Z * Z))
  : prog node_call (result node_error unit * gmap string (Z * Z)) :=
  match snaps !! key with
  | None => Ret (Ok tt, snaps)
  | Some snap =>
      r <- mapDelete (ArpTableDelete snap) ;;
      match r with
      | Err e => Ret (Err e, snaps)
      | Ok _ => Ret (Ok tt, delete key snaps)
      end
  end.

Definition arp_Reconcile (key : string) : gmap string (Z * Z) -> prog node_call (result node_error unit * gmap string (Z * Z)) :=
  endpoint_Reconcile key (arp_upsert key) (arp_delete key).

(** *** fdb.go: snapshots are the map and the key of the entries written *)

Record fdbSnapshot := MkFdbSnapshot { fs_vni : Z; fs_mac : list Z; fs_isLocal : bool }.

#[global] Instance fdbSnapshot_eq_dec : EqDecision fdbSnapshot.
Proof. solve_decision. Defined.

Variable nodeName : string.

(** [desired], nil while there is nothing to write. *)
Definition fdbDesired (nwep : EndpointObject) (vni : Z) (mac : list Z) : result node_error (option (fdbSnapshot * FdbVal)) :=
  if String.eqb (eo_NodeName nwep) nodeName then
  Ok match eo_Attachment nwep with
  | Some ifindex => Some (MkFdbSnapshot vni mac true, MkFdbVal (u32 ifindex) 0)
  | None => None
  end
  else if String.eqb (eo_NodeIP nwep) "" then Ok None
  else match ParseIP (eo_NodeIP nwep) with
  | None => Err BadAddress
  | Some netNodeAddr =>
      match IPv4ToUint32 netNodeAddr with
      | None => Err BadAddress
      | Some nodeAddr => Ok (Some (MkFdbSnapshot vni mac false, MkFdbVal 0 nodeAddr))
      end
  end.

Definition fdb_deleteEntry (snap : fdbSnapshot) : prog node_call (result node_error unit) :=
  mapDelete (FdbDelete (fs_isLocal snap) (fs_vni snap, fs_mac snap)).

Definition fdb_upsert (key : string) (nwep : EndpointObject) (vni : Z) (snaps : gmap string fdbSnapshot)
  : prog node_call (result node_error unit * gmap string fdbSnapshot) :=
  match macOf (eo_MACAddress nwep) with
  | None => Ret (Err BadMAC, snaps)
  | Some mac =>
      match fdbDesired nwep vni mac with
      | Err e => Ret (Err e, snaps)
      | Ok desired =>
          let stale := match snaps !! key with
          | Some old => if bool_decide (Some old = fst <$> desired) then None else Some old
          | None => None
          end in
          r <- (match stale with Some old => fdb_deleteEntry old | None => Ret (Ok tt) end) ;;
          match r with
          | Err e => Ret (Err e, snaps)
          | Ok _ =>
              let snaps := match stale with Some _ => delete key snaps | None => snaps end in
              match desired with
              | None => Ret (Ok tt, snaps)
              | Some (snap, val) =>
                  r <- mapCall (FdbUpdate (fs_isLocal snap) (fs_vni snap, fs_mac snap) val) ;;
                  match r with
                  | Err e => Ret (Err e, snaps)
                  | Ok _ => Ret (Ok tt, <[key := snap]> snaps)
                  end
              end
          end
      end
  end.

Definition fdb_delete (key : string) (snaps : gmap string fdbSnapshot)
  : prog node_call (result node_error unit * gmap string fdbSnapshot) :=
  match snaps !! key with
  | None => Ret (Ok tt, snaps)
  | Some snap =>
      r <- fdb_deleteEntry snap ;;
      match r with
      | Err e => Ret (Err e, snaps)
      | Ok _ => Ret (Ok tt, delete key snaps)
      end
  end.

Definition fdb_Reconcile (key : string) : gmap string fdbSnapshot -> prog node_call (result node_error unit * gmap string fdbSnapshot) :=
  endpoint_Reconcile key (fdb_upsert key) (fdb_delete key).
End Endpoints.

(** For an event about an ExternalNetwork. *)
Definition FanOutExternalNetworkToEndpoints (network : string) : prog node_call (list string) :=
  ext_prog (externalNetworkEndpointKeys network).
