(* ===== verification/Neighbors.v ===== *)
(** * Neighbors: one entry per endpoint

    The tables [arp_table] and [fdb] against the NetworkEndpoints they are
    written from: the contract of the maps and of the API server
    ([neighbor_server]), and the invariant that every entry is the entry of
    exactly one endpoint the reconciler remembers ([tracks]). *)

From stdpp Require Import base gmap strings list fin_maps.
From Stdlib Require Import ZArith Lia.
From S2P Require Import Prelude Effects Netip IPNet Kube PolicyEval PolicyStores OwnedAddr.
From S2P Require Import AddressPlan RouteTypes Fib ExternalAddr NodeTables.

Open Scope Z_scope.

(** ** Tables with owners *)

Section Tracking.
Context {K V : Type} `{Countable K}.
Implicit Types (snaps : gmap string K) (m : gmap K V).
Variable foreign : K -> Prop.   (* the keys other writers of the table use *)

(** Every entry is at the key some owner remembers or at one of the other
    writers, and no two owners remember the same key. *)
Record tracks snaps m : Prop := {
  tracks_owned : forall k, is_Some (m !! k) -> foreign k \/ exists o, snaps !! o = Some k;
  tracks_own : forall o k, snaps !! o = Some k -> ~ foreign k;
  tracks_inj : forall o o' k, snaps !! o = Some k -> snaps !! o' = Some k -> o = o' }.

(** No other owner remembers the key, and no other writer uses it. *)
Definition undisputed (o : string) (k : K) snaps : Prop :=
  ~ foreign k /\ forall o', snaps !! o' = Some k -> o' = o.

(** A key somebody other than [o] has. *)
Definition others (o : string) snaps (k : K) : Prop := foreign k \/ exists o', o' <> o /\ snaps !! o' = Some k.

Definition others_kept (o : string) snaps m m' : Prop := forall k, others o snaps k -> m' !! k = m !! k.

Lemma tracks_empty : tracks ∅ ∅.
Proof. split; [by intros k [v Hv]|done|done]. Qed.

Lemma tracks_drop o k snaps m :
  tracks snaps m -> snaps !! o = Some k ->
  tracks snaps (delete k m) /\ tracks (delete o snaps) (delete k m) /\ others_kept o snaps m (delete k m).
Proof.
  intros [Ho Hn Hi] Hk. split_and!.
  - split; [|done|done]. intros k' [v [_ Hv]%lookup_delete_Some]. apply Ho. eauto.
  - split.
    + intros k' [v [Hne Hv]%lookup_delete_Some]. destruct (Ho k' ltac:(eauto)) as [Hf|[o' Ho']]; [by left|right; exists o'].
      rewrite lookup_delete_ne; [done|]. intros ->. congruence.
    + intros o1 k' [_ H1]%lookup_delete_Some. by eapply Hn.
    + intros o1 o2 k' [_ H1]%lookup_delete_Some [_ H2]%lookup_delete_Some. by eapply Hi.
  - intros k' Hk'. rewrite lookup_delete_ne; [done|]. intros <-.
    destruct Hk' as [Hf|(o' & Hne & Ho')]; [by apply (Hn o k)|apply Hne; by eapply Hi].
Qed.

(** [o] moves to a key nobody else remembers, having left its old one. *)
Lemma tracks_put o k v snaps m :
  tracks snaps m -> undisputed o k snaps ->
  (forall old, snaps !! o = Some old -> old <> k -> m !! old = None) ->
  tracks (<[o := k]> snaps) (<[k := v]> m) /\ others_kept o snaps m (<[k := v]> m).
Proof.
  intros [Ho Hn Hi] [Hf Hu] Hold. split.
  - split.
    + intros k' [v' Hv]. destruct (decide (k' = k)) as [->|Hne]; [right; exists o; apply lookup_insert_eq|].
      rewrite lookup_insert_ne in Hv by done. destruct (Ho k' ltac:(eauto)) as [Hf'|[o' Ho']]; [by left|right].
      exists o'. rewrite lookup_insert_ne; [done|]. intros <-. specialize (Hold k' Ho' Hne). congruence.
    + intros o1 k' [[<- <-]|[Hn1 H1]]%lookup_insert_Some; [done|by eapply Hn].
    + intros o1 o2 k' [[<- <-]|[Hn1 H1]]%lookup_insert_Some [[<- ?]|[Hn2 H2]]%lookup_insert_Some; [done| |subst|by eapply Hi].
      * symmetry. by apply Hu.
      * by apply Hu.
  - intros k' Hk'. rewrite lookup_insert_ne; [done|]. intros <-.
    destruct Hk' as [Hf'|(o' & Hne & Ho')]; [done|apply Hne; by apply Hu].
Qed.

(** Another writer works on its own keys. *)
Lemma tracks_foreign snaps m m' : tracks snaps m -> (forall k, foreign k \/ m' !! k = m !! k) -> tracks snaps m'.
Proof.
  intros [Ho Hn Hi] Hm. split; [|done|done]. intros k Hk. destruct (Hm k) as [Hf|Heq]; [by left|].
  rewrite Heq in Hk. by apply Ho.
Qed.

Lemma others_kept_trans o snaps m1 m2 m3 : others_kept o snaps m1 m2 -> others_kept o snaps m2 m3 -> others_kept o snaps m1 m3.
Proof. intros H1 H2 k Hk. by rewrite (H2 k Hk), (H1 k Hk). Qed.
End Tracking.
Arguments tracks {K V _ _} foreign snaps m.
Arguments others {K} foreign o snaps k.
Arguments others_kept {K V _ _} foreign o snaps m m'.
Arguments undisputed {K} foreign o k snaps.

(** ** The outside world *)

Record nstate := MkN {
  arp_entries : gmap (Z * Z) (list Z);
  fdb_entries : gmap (Z * list Z) FdbVal;
  endpoints : gmap (string * string) EndpointObject;
  subnet_vni : gmap string Z;
  network_id : gmap string Z;
}.

Definition set_arp (s : nstate) x := MkN x (fdb_entries s) (endpoints s) (subnet_vni s) (network_id s).
Definition set_fdb (s : nstate) x := MkN (arp_entries s) x (endpoints s) (subnet_vni s) (network_id s).

(** A write that fails has no effect. *)
Definition map_write {K V} `{Countable K} (k : K) (v : V) (m : gmap K V) (r : result bpf_error unit) (m' : gmap K V) : Prop :=
  match r with Ok _ => m' = <[k := v]> m | Err _ => m' = m end.
Definition map_delete {K V} `{Countable K} (k : K) (m : gmap K V) (r : result bpf_error unit) (m' : gmap K V) : Prop :=
  match r with Ok _ => m' = delete k m | Err ErrKeyNotExist => m !! k = None /\ m' = m | Err _ => m' = m end.

(** A read answers with the stored object, [NotFound] only when there is none,
    or fails.  The forwarding database is one pinned map, whichever program it is
    reached through.  The other calls are those of other reconcilers. *)
Definition answers {A} (stored : option A) (r : result api_error A) : Prop :=
  match r with Ok a => stored = Some a | Err NotFound => stored = None | Err _ => True end.

Definition neighbor_effect {R} (e : node_call R) : nstate -> R -> nstate -> Prop :=
  match e in node_call R return nstate -> R -> nstate -> Prop with
  | ArpTableUpdate k mac => fun s r s' => exists m, map_write k mac (arp_entries s) r m /\ s' = set_arp s m
  | ArpTableDelete k => fun s r s' => exists m, map_delete k (arp_entries s) r m /\ s' = set_arp s m
  | FdbUpdate _ k v => fun s r s' => exists m, map_write k v (fdb_entries s) r m /\ s' = set_fdb s m
  | FdbDelete _ k => fun s r s' => exists m, map_delete k (fdb_entries s) r m /\ s' = set_fdb s m
  | GetEndpointObject ns name => fun s r s' => answers (endpoints s !! (ns, name)) r /\ s' = s
  | @ExtCall R e => fun s r s' => s' = s /\
      match e in ext_event R return R -> Prop with
      | GetSubnetVNI name => fun r => answers (subnet_vni s !! name) r
      | GetExternalNetwork name => fun r => answers (network_id s !! name) (res_map en_NetworkID r)
      | _ => fun _ => True
      end r
  | _ => fun s _ s' => s' = s
  end.

Definition neighbor_server : server node_call nstate := fun R e => @neighbor_effect R e.

(** ** What an endpoint wants *)

Section Reconcilers.
Variable SplitMetaNamespaceKey : string -> option (string * string).
Variable nodeName : string.
Variable foreign_arp : Z * Z -> Prop.   (* the keys of [arp_table] other reconcilers write *)
Definition foreign_fdb (k : Z * list Z) : Prop := False.

(** The segment of an endpoint, when it is on one that is ready: the VNI of its
    Subnet, or the id of its ExternalNetwork once it has one; none for an
    endpoint on an L2Network. *)
Definition segment (s : nstate) (nwep : EndpointObject) : option Z :=
  let ep := eo_endpoint nwep in
  if decide (ne_Subnet ep <> ""%string) then subnet_vni s !! ne_Subnet ep
  else if decide (ne_L2Network ep = ""%string /\ ne_ExternalNetwork ep <> ""%string) then
    id ← network_id s !! ne_ExternalNetwork ep; if decide (id = 0) then None else Some id
  else None.

(** The endpoint behind a key, with its segment. *)
Definition placed_endpoint (s : nstate) (key : string) : option (EndpointObject * Z) :=
  nsname ← SplitMetaNamespaceKey key;
  nwep ← endpoints s !! nsname;
  vni ← segment s nwep;
  Some (nwep, vni).

(** The IPv4 address of a text, as an integer. *)
Definition ipv4_value (ip : Addr) : option Z := match Unmap ip with Addr4 a => Some a | _ => None end.

(** The neighbour entry of an endpoint: its segment and address, and its MAC. *)
Definition arp_wanted (s : nstate) (key : string) : option (Z * Z * list Z) :=
  '(nwep, vni) ← placed_endpoint s key;
  '(ip, _) ← ParseCIDR (ne_Address (eo_endpoint nwep));
  addr ← ipv4_value ip;
  mac ← macOf (eo_MACAddress nwep);
  Some (vni, addr, mac).

(** Where frames for an endpoint go: on its own node to the interface it is
    attached to, on other nodes to the tunnel address of its node; nowhere while
    that is not known. *)
Definition reached_through (nwep : EndpointObject) : option (bool * FdbVal) :=
  if decide (eo_NodeName nwep = nodeName) then
    ifindex ← eo_Attachment nwep; Some (true, {| fdb_Ifindex := u32 ifindex; fdb_VtepIp := 0 |})
  else
    ip ← ParseIP (eo_NodeIP nwep);
    addr ← ipv4_value ip;
    Some (false, {| fdb_Ifindex := 0; fdb_VtepIp := addr |}).

(** The entry of the forwarding database: segment and MAC of the endpoint, and
    where it is reached. *)
Definition fdb_wanted (s : nstate) (key : string) : option (fdbSnapshot * FdbVal) :=
  '(nwep, vni) ← placed_endpoint s key;
  mac ← macOf (eo_MACAddress nwep);
  '(local, val) ← reached_through nwep;
  Some (MkFdbSnapshot vni mac local, val).

(** The code computes these. *)
Lemma arpAddress_wanted s key nwep vni :
  placed_endpoint s key = Some (nwep, vni) ->
  arp_wanted s key = match arpAddress nwep, macOf (eo_MACAddress nwep) with
    | Ok addr, Some mac => Some (vni, addr, mac) | _, _ => None end.
Proof.
  intros Hp. unfold arp_wanted, arpAddress, ipv4_value, IPv4ToUint32. rewrite Hp. cbn.
  destruct (ParseCIDR _) as [[ip net]|]; [|done]. cbn. by destruct (Unmap ip); cbn; destruct (macOf (eo_MACAddress nwep)).
Qed.

Lemma fdbDesired_wanted s key nwep vni :
  placed_endpoint s key = Some (nwep, vni) ->
  fdb_wanted s key = (mac ← macOf (eo_MACAddress nwep);
    match fdbDesired nodeName nwep vni mac with Ok desired => desired | Err _ => None end).
Proof.
  intros Hp. unfold fdb_wanted, reached_through, fdbDesired, ipv4_value, IPv4ToUint32. rewrite Hp. cbn.
  destruct (macOf _) as [mac|]; [|done]. cbn. destruct (String.eqb_spec (eo_NodeName nwep) nodeName) as [He|He].
  - rewrite decide_True by done. by destruct (eo_Attachment nwep).
  - rewrite decide_False by done. destruct (String.eqb_spec (eo_NodeIP nwep) "") as [->|_]; [done|].
    destruct (ParseIP _) as [ip|]; [|done]. cbn. by destruct (Unmap ip).
Qed.

Definition fdb_key (snap : fdbSnapshot) : Z * list Z := (fs_vni snap, fs_mac snap).

(** ** One operation *)

(** The owner has its entry and no other. *)
Definition settled {K V S} `{Countable K} (proj : S -> K) (o : string) (wanted : option (S * V)) (snaps : gmap string S) (m : gmap K V) : Prop :=
  match wanted with
  | Some (k, v) => snaps !! o = Some k /\ m !! proj k = Some v
  | None => snaps !! o = None
  end.

(** What an operation of [o] leaves: the table still tracks the owners, the
    other owners and their entries are as before, and after a success the
    owner has its entry and no other. *)
Definition reconciles {K V S} `{Countable K} (foreign : K -> Prop) (proj : S -> K) (o : string) (wanted : option (S * V))
  (snaps : gmap string S) (m : gmap K V) (r : result node_error unit) (snaps' : gmap string S) (m' : gmap K V) : Prop :=
  tracks foreign (proj <$> snaps') m' /\ others_kept foreign o (proj <$> snaps) m m' /\ delete o snaps' = delete o snaps /\
  snaps' !! o ∈ [snaps !! o; None; fst <$> wanted] /\
  (r = Ok tt -> settled proj o wanted snaps' m').

Definition undisputed_in {K V S} `{Countable K} (foreign : K -> Prop) (proj : S -> K) (o : string) (wanted : option (S * V)) (snaps : gmap string S) : Prop :=
  match wanted with Some (k, _) => undisputed foreign o (proj k) (proj <$> snaps) | None => True end.

Lemma reconciles_nothing {K V S} `{Countable K} foreign (proj : S -> K) o (wanted : option (S * V)) snaps m e :
  tracks foreign (proj <$> snaps) m -> reconciles foreign proj o wanted snaps m (Err e) snaps m.
Proof. intros Ht. split_and!; try done. by left. Qed.

Lemma map_delete_gone {K V} `{Countable K} (k : K) (m m' : gmap K V) r :
  map_delete k m r m' -> ignoreMissing r = Ok tt -> m' = delete k m.
Proof. destruct r as [[]|[|t]]; cbn; [done| |done]. intros [Hn ->] _. by rewrite delete_id. Qed.

Lemma map_delete_failed {K V} `{Countable K} (k : K) (m m' : gmap K V) r e :
  map_delete k m r m' -> ignoreMissing r = Err e -> m' = m.
Proof. destruct r as [[]|[|t]]; cbn; try done. Qed.

(** The owner gives up its entry. *)
Lemma reconciles_release {K V S} `{Countable K} foreign (proj : S -> K) o snaps k (m : gmap K V) :
  tracks foreign (proj <$> snaps) m -> snaps !! o = Some k ->
  reconciles foreign proj o None snaps m (Ok tt) (delete o snaps) (delete (proj k) m).
Proof.
  intros Ht Hk. destruct (tracks_drop foreign o (proj k) _ _ Ht) as (_ & H2 & H3); [by rewrite lookup_fmap, Hk|].
  split_and!; [by rewrite fmap_delete|done|by rewrite delete_delete_eq| |intros _; apply lookup_delete_eq].
  rewrite lookup_delete_eq. set_solver.
Qed.

(** The owner puts its entry, at the key it has or a new one. *)
Lemma reconciles_put {K V S} `{Countable K} foreign (proj : S -> K) o snaps k v (m : gmap K V) :
  tracks foreign (proj <$> snaps) m -> undisputed foreign o (proj k) (proj <$> snaps) ->
  (forall old, snaps !! o = Some old -> proj old <> proj k -> m !! proj old = None) ->
  reconciles foreign proj o (Some (k, v)) snaps m (Ok tt) (<[o := k]> snaps) (<[proj k := v]> m).
Proof.
  intros Ht Hu Hold. destruct (tracks_put foreign o (proj k) v _ _ Ht Hu) as [H1 H2].
  { intros old. rewrite lookup_fmap. destruct (snaps !! o) as [old'|] eqn:Ho; [|done]. cbn. intros [= <-] Hne. by apply Hold. }
  split_and!; [by rewrite fmap_insert|done|by rewrite delete_insert_eq| |intros _; cbn; by rewrite !lookup_insert_eq].
  rewrite lookup_insert_eq. set_solver.
Qed.

Lemma endpointNetworkOf_segment s nwep :
  segment s nwep = match endpointNetworkOf (eo_endpoint nwep) with
  | Ok endpointOnSubnet => subnet_vni s !! ne_Subnet (eo_endpoint nwep)
  | Ok endpointOnExternalNetwork =>
      match network_id s !! ne_ExternalNetwork (eo_endpoint nwep) with
      | Some id => if id =? 0 then None else Some id
      | None => None
      end
  | _ => None
  end.
Proof.
  unfold segment, endpointNetworkOf. destruct (String.eqb_spec (ne_Subnet (eo_endpoint nwep)) "") as [->|Hs]; cbn [negb].
  2: by rewrite decide_True.
  rewrite decide_False by (by intros []). destruct (String.eqb_spec (ne_L2Network (eo_endpoint nwep)) "") as [->|Hl]; cbn [negb].
  2: by rewrite decide_False by (by intros [? _]).
  destruct (String.eqb_spec (ne_ExternalNetwork (eo_endpoint nwep)) "") as [->|He]; cbn [negb].
  - by rewrite decide_False by (by intros [_ []]).
  - rewrite decide_True by done. destruct (network_id s !! _) as [id|]; [|done]. cbn.
    destruct (Z.eqb_spec id 0); by case_decide.
Qed.

(** The reads both reconcilers begin with. *)
Lemma endpoint_Reconcile_spec {S} key upsert release (st : S) s (Q : result node_error unit * S -> nstate -> Prop) :
  (forall e, Q (Err e, st) s) ->
  (placed_endpoint s key = None -> wp neighbor_server (release st) Q s) ->
  (forall nwep vni, placed_endpoint s key = Some (nwep, vni) -> wp neighbor_server (upsert nwep vni st) Q s) ->
  wp neighbor_server (endpoint_Reconcile SplitMetaNamespaceKey key upsert release st) Q s.
Proof.
  intros HE HR HU. unfold endpoint_Reconcile, placed_endpoint in *.
  destruct (SplitMetaNamespaceKey key) as [[ns name]|]; [|by apply HE]. cbn [mbind option_bind] in *.
  intros r s1 [Ha ->]. cbn [bind].
  destruct r as [nwep|e]; [|destruct e; try apply HE; cbn in Ha; rewrite Ha in HR; by apply HR].
  cbn in Ha. rewrite Ha in HR, HU. cbn [mbind option_bind] in *.
  rewrite endpointNetworkOf_segment in HR, HU.
 
  destruct (endpointNetworkOf (eo_endpoint nwep)) as [network|e]; [|apply HE].
  destruct network; cbn [bool_decide decide_rel]; rewrite ?bool_decide_eq_false_2, ?bool_decide_eq_true_2 by done.
  - intros r s1 [-> Hr]. destruct r as [vni|e]; cbn in Hr |- *; [|apply HE]. rewrite Hr in HU. by apply HU.
  - by apply HR.
  - intros r s1 [-> Hr]. destruct r as [net|e]; cbn in Hr |- *.
    + rewrite Hr in HR, HU. destruct (en_NetworkID net =? 0); [by apply HR|by apply HU].
    + destruct e; try apply HE. rewrite Hr in HR. by apply HR.
Qed.

(** *** arp.go *)

Definition arp_post (key : string) (snaps : gmap string (Z * Z)) (s : nstate) (r : result node_error unit * gmap string (Z * Z)) (s' : nstate) : Prop :=
  reconciles foreign_arp id key (arp_wanted s key) snaps (arp_entries s) r.1 r.2 (arp_entries s') /\ s' = set_arp s (arp_entries s').

Lemma arp_delete_spec key snaps s :
  tracks foreign_arp (id <$> snaps) (arp_entries s) -> arp_wanted s key = None ->
  wp neighbor_server (arp_delete key snaps) (arp_post key snaps s) s.
Proof.
  intros Ht Hw. unfold arp_post. rewrite Hw. unfold arp_delete. destruct (snaps !! key) as [k|] eqn:Hk.
  2: { cbn. split; [|by destruct s]. split_and!; try done. by left. }
  intros r s1 (m & Hm & ->). cbn [bind]. destruct (ignoreMissing r) as [[]|e] eqn:Hr; cbn.
  - apply map_delete_gone in Hm as ->; [|done]. split; [|done]. by apply (reconciles_release foreign_arp id).
  - apply (map_delete_failed _ _ _ _ _ Hm) in Hr as ->. split; [by apply reconciles_nothing|done].
Qed.

Lemma arp_post_error key snaps s e :
  tracks foreign_arp (id <$> snaps) (arp_entries s) -> arp_post key snaps s (Err e, snaps) s.
Proof. intros Ht. split; [by apply reconciles_nothing|by destruct s]. Qed.

(** The second half of [arp_upsert], once the old entry is gone. *)
Lemma arp_put_spec key snaps s addr mac vni m :
  arp_wanted s key = Some (vni, addr, mac) -> undisputed foreign_arp key (vni, addr) (id <$> snaps) ->
  tracks foreign_arp (id <$> snaps) m -> others_kept foreign_arp key (id <$> snaps) (arp_entries s) m ->
  (forall old, snaps !! key = Some old -> old <> (vni, addr) -> m !! old = None) ->
  wp neighbor_server (r <- mapCall (ArpTableUpdate (vni, addr) mac) ;; match r with
  | Ok _ => Ret (Ok tt, <[key := (vni, addr)]> snaps) | Err e => Ret (Err e, snaps) end)
  (arp_post key snaps s) (set_arp s m).
Proof.
  intros Hw Hu Htm Hom Hold r s1 (m' & Hm & ->). unfold arp_post. rewrite Hw.
  destruct r as [[]|e]; cbn in Hm |- *; subst m'; (split; [|done]); [|split_and!; set_solver].
  destruct (reconciles_put foreign_arp id key snaps (vni, addr) mac m Htm Hu Hold) as (H1 & H2 & H3 & H4 & H5).
  split_and!; [done|by eapply others_kept_trans|done|done|done].
Qed.

Lemma arp_upsert_spec key snaps s nwep vni :
  tracks foreign_arp (id <$> snaps) (arp_entries s) -> placed_endpoint s key = Some (nwep, vni) ->
  undisputed_in foreign_arp id key (arp_wanted s key) snaps ->
  wp neighbor_server (arp_upsert key nwep vni snaps) (arp_post key snaps s) s.
Proof.
  intros Ht Hp. unfold arp_upsert. pose proof (arp_put_spec key snaps s) as Hput.
  rewrite (arpAddress_wanted _ _ _ _ Hp) in Hput |- * at 1.
  destruct (arpAddress nwep) as [addr|e]; [|by intros _; apply arp_post_error].
  destruct (macOf (eo_MACAddress nwep)) as [mac|]; [|by intros _; apply arp_post_error]. cbn [undisputed_in id]. intros Hu.
  specialize (Hput addr mac vni).
  assert (Hs : s = set_arp s (arp_entries s)) by (by destruct s).
  destruct (snaps !! key) as [old|] eqn:Ho; [|cbn [bind]; specialize (Hput (arp_entries s)); rewrite <- Hs in Hput; by apply Hput].
  destruct (bool_decide (old = (vni, addr))) eqn:Heq; to_prop.
  { cbn [bind]. specialize (Hput (arp_entries s)). rewrite <- Hs in Hput. apply Hput; [done|done|done|done|]. by intros ? [= <-]. }
  intros r s1 (m & Hm & ->). cbn [bind]. destruct (ignoreMissing r) as [[]|e] eqn:Hr; cbn [res_map_err].
  - apply map_delete_gone in Hm as ->; [|done].
    destruct (tracks_drop foreign_arp key old _ _ Ht) as (H1 & _ & H3); [by rewrite lookup_fmap, Ho|].
    apply Hput; [done|done|done|done|]. intros ? [= <-] _. apply lookup_delete_eq.
  - apply (map_delete_failed _ _ _ _ _ Hm) in Hr as ->. rewrite <- Hs. by apply arp_post_error.
Qed.

Lemma arp_Reconcile_spec key snaps s :
  tracks foreign_arp (id <$> snaps) (arp_entries s) -> undisputed_in foreign_arp id key (arp_wanted s key) snaps ->
  wp neighbor_server (arp_Reconcile SplitMetaNamespaceKey key snaps) (arp_post key snaps s) s.
Proof.
  intros Ht Hu. apply endpoint_Reconcile_spec.
  - intros e. by apply arp_post_error.
  - intros Hn. apply arp_delete_spec; [done|]. unfold arp_wanted. by rewrite Hn.
  - intros nwep vni Hp. by apply arp_upsert_spec.
Qed.

(** *** fdb.go *)

Definition fdb_post (key : string) (snaps : gmap string fdbSnapshot) (s : nstate)
  (r : result node_error unit * gmap string fdbSnapshot) (s' : nstate) : Prop :=
  reconciles foreign_fdb fdb_key key (fdb_wanted s key) snaps (fdb_entries s) r.1 r.2 (fdb_entries s') /\ s' = set_fdb s (fdb_entries s').

Lemma fdb_post_error key snaps s e :
  tracks foreign_fdb (fdb_key <$> snaps) (fdb_entries s) -> fdb_post key snaps s (Err e, snaps) s.
Proof. intros Ht. split; [by apply reconciles_nothing|by destruct s]. Qed.

Lemma fdb_delete_spec key snaps s :
  tracks foreign_fdb (fdb_key <$> snaps) (fdb_entries s) -> fdb_wanted s key = None ->
  wp neighbor_server (fdb_delete key snaps) (fdb_post key snaps s) s.
Proof.
  intros Ht Hw. unfold fdb_post. rewrite Hw. unfold fdb_delete. destruct (snaps !! key) as [k|] eqn:Hk.
  2: { cbn. split; [|by destruct s]. split_and!; try done. by left. }
  intros r s1 (m & Hm & ->). cbn [bind]. destruct (ignoreMissing r) as [[]|e] eqn:Hr; cbn.
  - apply map_delete_gone in Hm as ->; [|done]. split; [|done]. by apply (reconciles_release foreign_fdb fdb_key).
  - apply (map_delete_failed _ _ _ _ _ Hm) in Hr as ->. split; [by apply reconciles_nothing|done].
Qed.

(** The second half of [fdb_upsert], from the snapshots and the map the first
    half leaves. *)
Lemma fdb_put_spec key snaps s snap val snaps1 m :
  fdb_wanted s key = Some (snap, val) -> undisputed foreign_fdb key (fdb_key snap) (fdb_key <$> snaps1) ->
  delete key snaps1 = delete key snaps -> snaps1 !! key ∈ [snaps !! key; None] ->
  tracks foreign_fdb (fdb_key <$> snaps1) m -> others_kept foreign_fdb key (fdb_key <$> snaps) (fdb_entries s) m ->
  (forall old, snaps1 !! key = Some old -> fdb_key old <> fdb_key snap -> m !! fdb_key old = None) ->
  wp neighbor_server (r <- mapCall (FdbUpdate (fs_isLocal snap) (fs_vni snap, fs_mac snap) val) ;; match r with
  | Ok _ => Ret (Ok tt, <[key := snap]> snaps1) | Err e => Ret (Err e, snaps1) end)
  (fdb_post key snaps s) (set_fdb s m).
Proof.
  intros Hw Hu Hd Hin Htm Hom Hold r s1 (m' & Hm & ->). unfold fdb_post. rewrite Hw.
  destruct r as [[]|e]; cbn in Hm |- *; subst m'; (split; [|done]); [|split_and!; set_solver].
  destruct (reconciles_put foreign_fdb fdb_key key snaps1 snap val m Htm Hu Hold) as (H1 & H2 & H3 & H4 & H5).
  split_and!; [done| |by rewrite H3|rewrite lookup_insert_eq; set_solver|done].
  intros k Hk. transitivity (m !! k); [|by apply Hom]. apply H2. destruct Hk as [Hf|(o & Hne & Ho)]; [by left|right; exists o].
  split; [done|]. rewrite lookup_fmap in Ho |- *. rewrite <- (lookup_delete_ne snaps1 key o), Hd, lookup_delete_ne; done.
Qed.

Lemma fdb_upsert_spec key snaps s nwep vni :
  tracks foreign_fdb (fdb_key <$> snaps) (fdb_entries s) -> placed_endpoint s key = Some (nwep, vni) ->
  undisputed_in foreign_fdb fdb_key key (fdb_wanted s key) snaps ->
  wp neighbor_server (fdb_upsert nodeName key nwep vni snaps) (fdb_post key snaps s) s.
Proof.
  intros Ht Hp. unfold fdb_upsert. pose proof (fdb_put_spec key snaps s) as Hput.
  assert (Hpost : forall e w snaps', fdb_wanted s key = w -> reconciles foreign_fdb fdb_key key w snaps (fdb_entries s) e snaps' (fdb_entries s) ->
    fdb_post key snaps s (e, snaps') s) by (intros e w snaps' <- Hr; split; [done|by destruct s]).
  rewrite (fdbDesired_wanted _ _ _ _ Hp) in Hput, Hpost |- * at 1.
  destruct (macOf (eo_MACAddress nwep)) as [mac|] eqn:Hmac; [|by intros _; apply fdb_post_error]. cbn [mbind option_bind] in Hput, Hpost |- *.
  destruct (fdbDesired nodeName nwep vni mac) as [desired|e] eqn:Hdes; [|by intros _; apply fdb_post_error]. intros Hu.
  assert (Hs : s = set_fdb s (fdb_entries s)) by (by destruct s).
  destruct (snaps !! key) as [old|] eqn:Ho.
  2: { cbn [bind]. destruct desired as [[snap val]|]; [|eapply Hpost; [done|split_and!; try done; rewrite Ho; by left]].
    specialize (Hput snap val snaps (fdb_entries s)). rewrite <- Hs in Hput. apply Hput; try done; [by rewrite Ho; left|by rewrite Ho]. }
  destruct (bool_decide (Some old = fst <$> desired)) eqn:Heq; to_prop.
  { cbn [bind]. destruct desired as [[snap val]|]; [|done]. injection Heq as <-.
    specialize (Hput old val snaps (fdb_entries s)). rewrite <- Hs in Hput. apply Hput; try done; [by rewrite Ho; left|]. rewrite Ho. by intros ? [= <-]. }
  intros r s1 (m & Hm & ->). cbn [bind]. destruct (ignoreMissing r) as [[]|e] eqn:Hr; cbn [res_map_err].
  2: { apply (map_delete_failed _ _ _ _ _ Hm) in Hr as ->. rewrite <- Hs. by apply fdb_post_error. }
  apply map_delete_gone in Hm as ->; [|done].
  destruct (reconciles_release foreign_fdb fdb_key key snaps old (fdb_entries s) Ht Ho) as (H1 & H2 & H3 & H4 & H5).
  destruct desired as [[snap val]|].
  - apply Hput; try done; [|rewrite lookup_delete_eq; set_solver|by rewrite lookup_delete_eq].
    destruct Hu as [Hf Hu]. split; [done|]. intros o'. rewrite lookup_fmap, fmap_Some. intros (k & [_ Hk]%lookup_delete_Some & Hk'). apply Hu. rewrite lookup_fmap, Hk. by cbn; f_equal.
  - split; [|done]. rewrite (fdbDesired_wanted _ _ _ _ Hp), Hmac. cbn [mbind option_bind]. by rewrite Hdes.
Qed.

Lemma fdb_Reconcile_spec key snaps s :
  tracks foreign_fdb (fdb_key <$> snaps) (fdb_entries s) -> undisputed_in foreign_fdb fdb_key key (fdb_wanted s key) snaps ->
  wp neighbor_server (fdb_Reconcile SplitMetaNamespaceKey nodeName key snaps) (fdb_post key snaps s) s.
Proof.
  intros Ht Hu. apply endpoint_Reconcile_spec.
  - intros e. by apply fdb_post_error.
  - intros Hn. apply fdb_delete_spec; [done|]. unfold fdb_wanted. by rewrite Hn.
  - intros nwep vni Hp. by apply fdb_upsert_spec.
Qed.
End Reconcilers.
