(* ===== verification/NeighborTheorems.v ===== *)
(** * NeighborTheorems: the tables follow the endpoints

    Histories of a node on which the reconcilers of [arp.go] and [fdb.go] run
    and the cluster changes, visits of a list of keys, and what the tables hold
    after them. *)

From stdpp Require Import base gmap strings list fin_maps.
From Stdlib Require Import ZArith Lia.
From S2P Require Import Prelude Effects Netip IPNet Kube PolicyEval PolicyStores OwnedAddr.
From S2P Require Import AddressPlan RouteTypes Fib ExternalAddr NodeTables Neighbors.

Open Scope Z_scope.

(** A worker takes the keys of its queue one after the other. *)
Fixpoint visit_all {S} (reconcile : string -> S -> prog node_call (result node_error unit * S)) (keys : list string) (st : S)
  : prog node_call (list (string * result node_error unit) * S) :=
  match keys with
  | [] => Ret ([], st)
  | key :: rest =>
      r <- reconcile key st ;;
      q <- visit_all reconcile rest r.2 ;;
      Ret ((key, r.1) :: q.1, q.2)
  end.

(** The objects of the cluster, without the tables. *)
Definition world (s : nstate) := (endpoints s, subnet_vni s, network_id s).

(** ** Visits *)

Section Visits.
Context {K V S : Type} `{Countable K} (foreign : K -> Prop) (proj : S -> K).
Implicit Types (snaps : gmap string S) (m : gmap K V) (wanted : string -> option (S * V)).

(** No endpoint wants the key of another one, the key another one still has,
    or the key of another writer. *)
Record no_takeover wanted snaps : Prop := {
  nt_distinct : forall o o' k v k' v', wanted o = Some (k, v) -> wanted o' = Some (k', v') -> proj k = proj k' -> o = o';
  nt_free : forall o, undisputed_in foreign proj o (wanted o) snaps }.

(** What the keys of [keys] and the others have after a visit. *)
Record visited wanted (keys : list string) snaps m (results : list (string * result node_error unit)) snaps' m' : Prop := {
  vi_tracks : tracks foreign (proj <$> snaps') m';
  vi_keys : results.*1 = keys;
  vi_settled : forall o, (o, Ok tt) ∈ results -> settled proj o (wanted o) snaps' m';
  vi_others : forall o, o ∉ keys -> snaps' !! o = snaps !! o;
  vi_entries : forall o k, o ∉ keys -> snaps !! o = Some k -> m' !! proj k = m !! proj k;
  vi_foreign : forall k, foreign k -> m' !! k = m !! k }.

Lemma reconciles_others (w : option (S * V)) o snaps m r snaps' m' o' :
  reconciles foreign proj o w snaps m r snaps' m' -> o' <> o ->
  snaps' !! o' = snaps !! o' /\ (forall k, snaps !! o' = Some k -> m' !! proj k = m !! proj k).
Proof.
  intros (_ & Hk & Hd & _) Hne. split.
  - by rewrite <- (lookup_delete_ne snaps' o o'), Hd, lookup_delete_ne.
  - intros k Ho. apply Hk. right. exists o'. by rewrite lookup_fmap, Ho.
Qed.

Lemma no_takeover_step wanted o snaps m r snaps' m' :
  no_takeover wanted snaps -> reconciles foreign proj o (wanted o) snaps m r snaps' m' -> no_takeover wanted snaps'.
Proof.
  intros [Hd Hf] Hr. split; [done|]. intros o1. specialize (Hf o1). unfold undisputed_in in *.
  destruct (wanted o1) as [[k1 v1]|] eqn:H1; [|done]. destruct Hf as [Hn Hu]. split; [done|].
  intros o' Ho'. destruct (decide (o' = o)) as [->|Hne].
  2: { apply Hu. rewrite lookup_fmap in Ho' |- *. by rewrite <- (proj1 (reconciles_others _ _ _ _ _ _ _ o' Hr Hne)). }
  rewrite lookup_fmap in Ho'. destruct Hr as (_ & _ & _ & Hin & _).
  rewrite !elem_of_cons in Hin. destruct Hin as [Hin|[Hin|[Hin|Hin]]]; [| | |by apply not_elem_of_nil in Hin].
  - apply Hu. by rewrite lookup_fmap, <- Hin.
  - by rewrite Hin in Ho'.
  - rewrite Hin in Ho'. destruct (wanted o) as [[k v]|] eqn:Hw; [|done]. cbn in Ho'. injection Ho' as Ho'. by eapply Hd.
Qed.

Lemma visited_nil wanted snaps m : tracks foreign (proj <$> snaps) m -> visited wanted [] snaps m [] snaps m.
Proof. intros Ht. split; try done. by intros o Ho%not_elem_of_nil. Qed.

Lemma visited_cons wanted key keys snaps m r snaps1 m1 results snaps' m' :
  key ∉ keys -> reconciles foreign proj key (wanted key) snaps m r snaps1 m1 ->
  visited wanted keys snaps1 m1 results snaps' m' ->
  visited wanted (key :: keys) snaps m ((key, r) :: results) snaps' m'.
Proof.
  intros Hn Hr [Ht Hk Hs Ho He Hf]. pose proof Hr as (_ & Hothers & _ & _ & Hok). split.
  - done.
  - cbn. by rewrite Hk.
  - intros o [[= -> <-]|Hin]%elem_of_cons; [|by apply Hs]. specialize (Hok eq_refl).
    unfold settled in *. destruct (wanted key) as [[k v]|]; [|by rewrite Ho].
    destruct Hok as [Hsn Hm]. split; [by rewrite Ho|]. by rewrite (He key k).
  - intros o [Hne Hni]%not_elem_of_cons. rewrite Ho by done. by apply (reconciles_others _ _ _ _ _ _ _ _ Hr).
  - intros o k [Hne Hni]%not_elem_of_cons Hsn. destruct (reconciles_others _ _ _ _ _ _ _ o Hr Hne) as [H1 H2].
    rewrite (He o k Hni) by (by rewrite H1). by apply H2.
  - intros k Hk'. rewrite (Hf k Hk'). apply Hothers. by left.
Qed.

(** When every key was visited with success, the table holds what the
    endpoints want and nothing else. *)
Lemma visited_exact wanted keys snaps m results snaps' m' k v :
  visited wanted keys snaps m results snaps' m' -> ~ foreign k ->
  (forall o, o ∉ keys -> wanted o = None /\ snaps !! o = None) ->
  Forall (fun x => x.2 = Ok tt) results ->
  m' !! k = Some v <-> exists o k0, wanted o = Some (k0, v) /\ proj k0 = k.
Proof.
  intros [Ht Hk Hs Ho He _] Hnf Hcover Hall.
  assert (Hset : forall o, settled proj o (wanted o) snaps' m').
  { intros o. destruct (decide (o ∈ keys)) as [Hin|Hni].
    - apply Hs. rewrite <- Hk in Hin. apply list_elem_of_fmap in Hin as ([o' r] & -> & Hin).
      rewrite Forall_forall in Hall. specialize (Hall _ Hin). cbn in *. by subst r.
    - destruct (Hcover o Hni) as [-> Hsn]. cbn. by rewrite Ho. }
  split.
  - intros Hm. destruct (tracks_owned _ _ _ Ht k ltac:(eauto)) as [Hf|[o Hsn]]; [done|].
    rewrite lookup_fmap in Hsn. specialize (Hset o). unfold settled in Hset. destruct (wanted o) as [[k0 v0]|] eqn:Hw.
    + destruct Hset as [Hsn' Hm']. rewrite Hsn' in Hsn. cbn in Hsn. injection Hsn as <-. exists o, k0. by simplify_eq.
    + by rewrite Hset in Hsn.
  - intros (o & k0 & Hw & <-). specialize (Hset o). rewrite Hw in Hset. by destruct Hset.
Qed.

(** *** A reconciler visits *)

Variable table : nstate -> gmap K V.
Variable wants : nstate -> string -> option (S * V).
Variable reconcile : string -> gmap string S -> prog node_call (result node_error unit * gmap string S).
Hypothesis wants_world : forall s s', world s' = world s -> wants s' = wants s.
Hypothesis reconcile_spec : forall key snaps s,
  tracks foreign (proj <$> snaps) (table s) -> undisputed_in foreign proj key (wants s key) snaps ->
  wp neighbor_server (reconcile key snaps)
  (fun r s' => reconciles foreign proj key (wants s key) snaps (table s) r.1 r.2 (table s') /\ world s' = world s) s.

Lemma visit_all_spec keys snaps s :
  NoDup keys -> tracks foreign (proj <$> snaps) (table s) -> no_takeover (wants s) snaps ->
  wp neighbor_server (visit_all reconcile keys snaps)
  (fun q s' => visited (wants s) keys snaps (table s) q.1 q.2 (table s') /\ world s' = world s) s.
Proof.
  revert snaps s. induction keys as [|key keys IH]; intros snaps s Hnd Ht Hto; [split; [by apply visited_nil|done]|].
  apply NoDup_cons in Hnd as [Hni Hnd]. cbn. apply wp_bind. eapply wp_mono; [by apply reconcile_spec; [|apply Hto]|].
  intros [r snaps1] s1 [Hr Hw]. cbn in Hr |- *. apply wp_bind. pose proof (wants_world _ _ Hw) as Hww.
  eapply wp_mono; [apply IH; [done|apply Hr|rewrite Hww; by eapply no_takeover_step]|].
  intros [results snaps'] s' [Hv Hw']. cbn in Hv |- *. split; [|by rewrite Hw'].
  eapply visited_cons; [done|done|]. by rewrite Hww in Hv.
Qed.
End Visits.

(** ** Histories *)

Section Histories.
Variable SplitMetaNamespaceKey : string -> option (string * string).
Variable nodeName : string.
Variable foreign_arp : Z * Z -> Prop.

Abbreviation arp_wants := (arp_wanted SplitMetaNamespaceKey).
Abbreviation fdb_wants := (fdb_wanted SplitMetaNamespaceKey nodeName).

(** The maps are created empty when the daemon starts ([Manager.Start] removes
    the pins).  Afterwards the objects change, other reconcilers write their
    keys of [arp_table], and keys are reconciled in any order, with any failures,
    while no other endpoint holds the key an endpoint is moved to. *)
Inductive history : nstate -> gmap string (Z * Z) -> gmap string fdbSnapshot -> Prop :=
| history_start s : arp_entries s = ∅ -> fdb_entries s = ∅ -> history s ∅ ∅
| history_world s s' a f :
    history s a f -> (forall k, foreign_arp k \/ arp_entries s' !! k = arp_entries s !! k) ->
    fdb_entries s' = fdb_entries s -> history s' a f
| history_arp s a f key r a' s' :
    history s a f -> undisputed_in foreign_arp id key (arp_wants s key) a ->
    exec neighbor_server s (arp_Reconcile SplitMetaNamespaceKey key a) (r, a') s' -> history s' a' f
| history_fdb s a f key r f' s' :
    history s a f -> undisputed_in foreign_fdb fdb_key key (fdb_wants s key) f ->
    exec neighbor_server s (fdb_Reconcile SplitMetaNamespaceKey nodeName key f) (r, f') s' -> history s' a f'.

Lemma wants_same s s' : world s' = world s -> arp_wants s' = arp_wants s /\ fdb_wants s' = fdb_wants s.
Proof. destruct s, s'. unfold world. cbn. by intros [= -> -> ->]. Qed.

Lemma history_tracks s a f :
  history s a f -> tracks foreign_arp (id <$> a) (arp_entries s) /\ tracks foreign_fdb (fdb_key <$> f) (fdb_entries s).
Proof.
  induction 1 as [s -> ->|s s' a f _ [IHa IHf] Ha ->|s a f key r a' s' _ [IHa IHf] Hu He|s a f key r f' s' _ [IHa IHf] Hu He].
  - rewrite !fmap_empty. split; apply tracks_empty.
  - split; [by eapply tracks_foreign|done].
  - pose proof (wp_exec _ _ _ _ _ _ (arp_Reconcile_spec _ _ key a s IHa Hu) He) as [Hr ->]. split; [apply Hr|done].
  - pose proof (wp_exec _ _ _ _ _ _ (fdb_Reconcile_spec _ _ key f s IHf Hu) He) as [Hr ->]. split; [done|apply Hr].
Qed.

(** Visits of the two reconcilers. *)
Lemma arp_visits keys a s :
  NoDup keys -> tracks foreign_arp (id <$> a) (arp_entries s) -> no_takeover foreign_arp id (arp_wants s) a ->
  wp neighbor_server (visit_all (arp_Reconcile SplitMetaNamespaceKey) keys a)
  (fun q s' => visited foreign_arp id (arp_wants s) keys a (arp_entries s) q.1 q.2 (arp_entries s') /\ world s' = world s) s.
Proof.
  apply visit_all_spec; [intros s1 s2 Hw; by apply wants_same|]. intros key snaps s1 Ht Hu.
  eapply wp_mono; [by apply arp_Reconcile_spec|]. intros r s2 [Hr Hs]. split; [done|by rewrite Hs].
Qed.

Lemma fdb_visits keys f s :
  NoDup keys -> tracks foreign_fdb (fdb_key <$> f) (fdb_entries s) -> no_takeover foreign_fdb fdb_key (fdb_wants s) f ->
  wp neighbor_server (visit_all (fdb_Reconcile SplitMetaNamespaceKey nodeName) keys f)
  (fun q s' => visited foreign_fdb fdb_key (fdb_wants s) keys f (fdb_entries s) q.1 q.2 (fdb_entries s') /\ world s' = world s) s.
Proof.
  apply visit_all_spec; [intros s1 s2 Hw; by apply wants_same|]. intros key snaps s1 Ht Hu.
  eapply wp_mono; [by apply fdb_Reconcile_spec|]. intros r s2 [Hr Hs]. split; [done|by rewrite Hs].
Qed.

(** Claim C31: after any history of changes and failures, one visit of the keys
    brings the two tables in line with the NetworkEndpoints, as long as no
    endpoint is given the address or the MAC another one still has: a key whose
    visit succeeds has its entry whatever fails on the others, and when all
    succeed [arp_table] maps exactly the segment and address of each placed
    endpoint to its MAC (beside the entries of other reconcilers), and the
    forwarding database exactly the segment and MAC of each to its interface or
    its node. *)
Theorem neighbors_follow_endpoints s a f keys :
  history s a f -> NoDup keys ->
  (forall results a' s',
    no_takeover foreign_arp id (arp_wants s) a ->
    exec neighbor_server s (visit_all (arp_Reconcile SplitMetaNamespaceKey) keys a) (results, a') s' ->
    (forall o k mac, (o, Ok tt) ∈ results -> arp_wants s o = Some (k, mac) -> arp_entries s' !! k = Some mac) /\
    ((forall o, o ∉ keys -> arp_wants s o = None /\ a !! o = None) -> Forall (fun x => x.2 = Ok tt) results ->
      forall k mac, ~ foreign_arp k ->
      arp_entries s' !! k = Some mac <-> exists o, arp_wants s o = Some (k, mac))) /\
  (forall results f' s',
    no_takeover foreign_fdb fdb_key (fdb_wants s) f ->
    exec neighbor_server s (visit_all (fdb_Reconcile SplitMetaNamespaceKey nodeName) keys f) (results, f') s' ->
    (forall o snap val, (o, Ok tt) ∈ results -> fdb_wants s o = Some (snap, val) -> fdb_entries s' !! fdb_key snap = Some val) /\
    ((forall o, o ∉ keys -> fdb_wants s o = None /\ f !! o = None) -> Forall (fun x => x.2 = Ok tt) results ->
      forall k val,
      fdb_entries s' !! k = Some val <-> exists o snap, fdb_wants s o = Some (snap, val) /\ fdb_key snap = k)).
Proof.
  intros [Hta Htf]%history_tracks Hnd. split.
  - intros results a' s' Hnt He. apply (wp_exec _ _ _ _ _ _ (arp_visits keys a s Hnd Hta Hnt)) in He as [Hv _]. split.
    + intros o k mac Hin Hw. pose proof (vi_settled _ _ _ _ _ _ _ _ _ Hv o Hin) as Hs. rewrite Hw in Hs. apply Hs.
    + intros Hc Hall k mac Hf. rewrite (visited_exact _ _ _ _ _ _ _ _ _ k mac Hv Hf Hc Hall). cbn.
      split; [intros (o & k0 & Hw & <-)|intros [o Hw]]; eauto.
  - intros results f' s' Hnt He. apply (wp_exec _ _ _ _ _ _ (fdb_visits keys f s Hnd Htf Hnt)) in He as [Hv _]. split.
    + intros o snap val Hin Hw. pose proof (vi_settled _ _ _ _ _ _ _ _ _ Hv o Hin) as Hs. rewrite Hw in Hs. apply Hs.
    + intros Hc Hall k val. apply (visited_exact _ _ _ _ _ _ _ _ _ k val Hv); [by intros []|done|done].
Qed.
End Histories.
