(* ===== verification/NeighborWitness.v ===== *)
(** * NeighborWitness: the neighbour tables evaluated

    A node that answers the reconcilers of [arp.go] and [fdb.go], a run of both
    on two endpoints, and an address that moves between endpoints. *)

From stdpp Require Import base gmap strings list fin_maps.
From Stdlib Require Import ZArith Lia.
From S2P Require Import Prelude Effects Netip IPNet Kube PolicyEval PolicyStores OwnedAddr.
From S2P Require Import AddressPlan RouteTypes Fib ExternalAddr NodeTables Neighbors NeighborTheorems.

Open Scope Z_scope.

(** ** A node on which nothing fails *)

Definition stored {A} (o : option A) : result api_error A := match o with Some a => Ok a | None => Err NotFound end.

Definition missing_key {K V} `{Countable K} (k : K) (m : gmap K V) : result bpf_error unit :=
  match m !! k with Some _ => Ok tt | None => Err ErrKeyNotExist end.

Definition neighbor_node : handler node_call nstate :=
  fun R e s =>
  match e in node_call R return R * nstate with
  | ArpTableUpdate k mac => (Ok tt, set_arp s (<[k := mac]> (arp_entries s)))
  | ArpTableDelete k => (missing_key k (arp_entries s), set_arp s (delete k (arp_entries s)))
  | FdbUpdate _ k v => (Ok tt, set_fdb s (<[k := v]> (fdb_entries s)))
  | FdbDelete _ k => (missing_key k (fdb_entries s), set_fdb s (delete k (fdb_entries s)))
  | GetEndpointObject ns name => (stored (endpoints s !! (ns, name)), s)
  | GetSubnetObject _ => (Err NotFound, s)
  | GetVpcStatus _ => (Err NotFound, s)
  | GetTableID _ => (Err NotFound, s)
  | ListSubnetObjects => (Ok [], s)
  | ListSubnetObjectsOf _ => (Ok [], s)
  | SubnetMapUpdate _ _ => (Ok tt, s)
  | SubnetMapDelete _ => (Ok tt, s)
  | @ExtCall R e =>
      (match e in ext_event R return R with
       | GetSubnetVNI name => stored (subnet_vni s !! name)
       | GetExternalNetwork name => stored (MkExternalNetwork name "" <$> network_id s !! name)
       | ExtPoolUpdate _ _ | ExtPoolDelete _ | DirectUpdate _ _ | DirectDelete _ | ArpUpdate _ _ | ArpDelete _
       | NaptUpdate _ _ | NaptDelete _ => Ok tt
       | GetEndpoint _ _ | GetARPAdvertisement _ | GetAttachment _ => Err NotFound
       | ListEndpoints | ListARPAdvertisements | ListAttachments | ListNATGateways | ListAddressPools
       | ListBGPAdvertisements => Ok []
       end, s)
  end.

Lemma missing_key_ok {K V} `{Countable K} (k : K) (m : gmap K V) : map_delete k m (missing_key k m) (delete k m).
Proof. unfold missing_key. destruct (m !! k) eqn:Hk; cbn; [done|]. by rewrite delete_id. Qed.

Lemma neighbor_node_ok R (e : node_call R) s r s' : server_of neighbor_node R e s r s' -> neighbor_server R e s r s'.
Proof.
  unfold server_of, neighbor_server. destruct e; cbn [neighbor_node neighbor_effect]; intros [= <- <-]; try done.
  - split; [done|]. destruct e; try done; cbn; by destruct (_ !! name).
  - cbn. by destruct (_ !! (namespace, name)).
  - by eexists.
  - eexists. split; [apply missing_key_ok|done].
  - by eexists.
  - eexists. split; [apply missing_key_ok|done].
Qed.

Lemma node_exec {A} (p : prog node_call A) s :
  exec neighbor_server s p (run neighbor_node p s).1 (run neighbor_node p s).2.
Proof. eapply exec_mono; [apply neighbor_node_ok|apply run_exec]. Qed.

(** ** Two endpoints *)

(** The keys of the two endpoints below. *)
Definition two_keys (key : string) : option (string * string) :=
  if String.eqb key "infra/a" then Some ("infra", "a")%string
  else if String.eqb key "infra/b" then Some ("infra", "b")%string else None.

Definition on_apps (name address : string) : ExternalAddr.NetworkEndpoint :=
  ExternalAddr.MkNetworkEndpoint "infra" name "apps" "" "" address.

(** An interface of this node, and one of another node. *)
Definition ep_a : EndpointObject := MkEndpointObject (on_apps "a" "10.0.1.9/24") "02:00:00:00:00:0a" "n1" (Some 4) "192.0.2.1".
Definition ep_b : EndpointObject := MkEndpointObject (on_apps "b" "10.0.1.10/24") "02:00:00:00:00:0b" "n2" None "192.0.2.2".

Definition with_endpoints (l : list (string * string * EndpointObject)) (s : nstate) : nstate :=
  MkN (arp_entries s) (fdb_entries s) (list_to_map l) (subnet_vni s) (network_id s).
Definition fresh_node : nstate := MkN ∅ ∅ ∅ {[ "apps" := 11 ]} ∅.
Definition two_endpoints : nstate := with_endpoints [("infra", "a", ep_a); ("infra", "b", ep_b)]%string fresh_node.

Definition both : list string := ["infra/a"; "infra/b"]%string.
Definition arp_run (keys : list string) (a : gmap string (Z * Z)) (s : nstate) :=
  run neighbor_node (visit_all (arp_Reconcile two_keys) keys a) s.
Definition fdb_run (keys : list string) (f : gmap string fdbSnapshot) (s : nstate) :=
  run neighbor_node (visit_all (fdb_Reconcile two_keys "n1") keys f) s.
Definition no_foreign (k : Z * Z) : Prop := False.

Definition addr_9 : Z := 167772425.   (* 10.0.1.9 *)
Definition addr_10 : Z := 167772426.

Lemma two_keys_other o : o ∉ both -> two_keys o = None.
Proof.
  intros [Ha [Hb _]%not_elem_of_cons]%not_elem_of_cons. unfold two_keys.
  by rewrite (proj2 (String.eqb_neq _ _) Ha), (proj2 (String.eqb_neq _ _) Hb).
Qed.

Lemma arp_wants_other o : o ∉ both -> arp_wanted two_keys two_endpoints o = None.
Proof. intros Ho. unfold arp_wanted, placed_endpoint. by rewrite two_keys_other. Qed.

Lemma fdb_wants_other o : o ∉ both -> fdb_wanted two_keys "n1" two_endpoints o = None.
Proof. intros Ho. unfold fdb_wanted, placed_endpoint. by rewrite two_keys_other. Qed.

Lemma no_takeover_fresh {K V S} `{Countable K} (foreign : K -> Prop) (proj : S -> K) (wanted : string -> option (S * V)) ka va kb vb :
  (forall k, ~ foreign k) -> (forall o, o ∉ both -> wanted o = None) ->
  wanted "infra/a"%string = Some (ka, va) -> wanted "infra/b"%string = Some (kb, vb) -> proj ka <> proj kb ->
  no_takeover foreign proj wanted ∅.
Proof.
  intros Hf Ho Ha Hb Hne.
  assert (Hcase : forall o k v, wanted o = Some (k, v) -> o = "infra/a"%string /\ k = ka \/ o = "infra/b"%string /\ k = kb).
  { intros o k v Hw. destruct (decide (o = "infra/a"%string)) as [->|Hna]; [left; by simplify_eq|].
    destruct (decide (o = "infra/b"%string)) as [->|Hnb]; [right; by simplify_eq|].
    rewrite Ho in Hw by (unfold both; set_solver). done. }
  split.
  - intros o o' k v k' v' [[-> ->]|[-> ->]]%Hcase [[-> ->]|[-> ->]]%Hcase; by intros.
  - intros o. unfold undisputed_in. destruct (wanted o) as [[k v]|]; [|done]. split; [done|]. intros o'. by rewrite fmap_empty.
Qed.

Lemma neighbors_follow_endpoints_witness :
  (forall k mac, arp_entries (arp_run both ∅ two_endpoints).2 !! k = Some mac <->
     exists o, arp_wanted two_keys two_endpoints o = Some (k, mac)) /\
  arp_entries (arp_run both ∅ two_endpoints).2 !! (11, addr_9) = Some [2; 0; 0; 0; 0; 10] /\
  (forall k val, fdb_entries (fdb_run both ∅ two_endpoints).2 !! k = Some val <->
     exists o snap, fdb_wanted two_keys "n1" two_endpoints o = Some (snap, val) /\ fdb_key snap = k).
Proof.
  assert (Hh : history two_keys "n1" no_foreign two_endpoints ∅ ∅) by (by apply history_start).
  assert (Hnd : NoDup both) by (apply (bool_decide_unpack _); vm_compute; exact I).
  assert (Hna : no_takeover no_foreign id (arp_wanted two_keys two_endpoints) ∅).
  { eapply (no_takeover_fresh _ _ _ (11, addr_9) [2; 0; 0; 0; 0; 10] (11, addr_10)).
    - by intros k [].
    - apply arp_wants_other.
    - vm_compute. reflexivity.
    - vm_compute. reflexivity.
    - discriminate. }
  assert (Hnf : no_takeover foreign_fdb fdb_key (fdb_wanted two_keys "n1" two_endpoints) ∅).
  { eapply (no_takeover_fresh _ _ _ (MkFdbSnapshot 11 [2; 0; 0; 0; 0; 10] true) _ (MkFdbSnapshot 11 [2; 0; 0; 0; 0; 11] false)).
    - by intros k [].
    - apply fdb_wants_other.
    - vm_compute. reflexivity.
    - vm_compute. reflexivity.
    - discriminate. }
  destruct (neighbors_follow_endpoints two_keys "n1" no_foreign two_endpoints ∅ ∅ both Hh Hnd) as [Ha Hf].
  pose proof (Ha _ _ _ Hna (node_exec _ _)) as [Hs He]. split_and!.
  - intros k mac. apply He; [|vm_compute; by repeat constructor|by intros []].
    intros o Ho. split; [by apply arp_wants_other|apply lookup_empty].
  - apply (Hs "infra/a"%string); vm_compute; [left|reflexivity].
  - intros k val. apply (Hf _ _ _ Hnf (node_exec _ _)); [|vm_compute; by repeat constructor].
    intros o Ho. split; [by apply fdb_wants_other|apply lookup_empty].
Defined.

(** ** An address that moves *)

(** "a" goes away and "b" is given its address. *)
Definition ep_b_moved : EndpointObject :=
  MkEndpointObject (on_apps "b" "10.0.1.9/24") "02:00:00:00:00:0b" "n1" (Some 5) "192.0.2.1".
Definition only_a : nstate := with_endpoints [("infra", "a", ep_a)]%string fresh_node.
Definition only_b (s : nstate) : nstate := with_endpoints [("infra", "b", ep_b_moved)]%string s.

(** The order of the keys decides whether an address survives the
    change of its endpoint.  The endpoint that had 10.0.1.9 is deleted and another
    one is created with the address.  When the deleted one is reconciled first,
    the neighbour entry is the one of the new endpoint; when it comes second
    (a requeued key, or a list after a broken watch) its entry is deleted without
    looking at who wrote it, every reconciliation reports success, and the
    address of the new endpoint has no neighbour entry. *)
Theorem neighbor_takeover_lost :
  let start := arp_run ["infra/a"]%string ∅ only_a in
  let s := only_b start.2 in
  let in_order := arp_run ["infra/a"; "infra/b"]%string start.1.2 s in
  let late := arp_run ["infra/b"; "infra/a"]%string start.1.2 s in
  arp_wanted two_keys s "infra/b" = Some (11, addr_9, [2; 0; 0; 0; 0; 11]) /\
  in_order.1.1 = [("infra/a"%string, Ok tt); ("infra/b"%string, Ok tt)] /\
  arp_entries in_order.2 !! (11, addr_9) = Some [2; 0; 0; 0; 0; 11] /\
  late.1.1 = [("infra/b"%string, Ok tt); ("infra/a"%string, Ok tt)] /\
  arp_entries late.2 !! (11, addr_9) = None /\
  late.1.2 !! "infra/b"%string = Some (11, addr_9).
Proof. vm_compute. by split_and!. Qed.
