(* ===== verification/PolicyReconcilers.v ===== *)
(** * PolicyReconcilers: from API objects to the policy stores

    [daemon/internal/daemon/dataplane/reconciler]: [networkacl.go],
    [securitygroup.go] and [sg_membership.go], which expand NetworkACLs,
    SecurityGroups and the groups of NetworkInterfaces and hand them to the
    stores of [PolicyStores].  Each runs one operation at a time (one worker);
    what it remembers between operations is explicit state, and the memory of
    its store is a part of it. *)

From stdpp Require Import base gmap strings list.
From Stdlib Require Import ZArith Lia.
From S2P Require Import Prelude Effects Netip IPNet Kube AllocationTypes PodNetwork AddressPlan OwnedAddr.
From S2P Require Import PolicyRules PolicyEval PolicyStores.

Open Scope Z_scope.

Inductive policy_error :=
| PolicyGet (e : api_error)
| PolicyKey
| PolicyExpand (name : string) (e : expand_error)
| PolicyStore (e : store_error).

(** [Apply] answered nil, or nothing but directions over capacity, which are
    installed fail-closed. *)
Definition appliedOrOver (r : result store_error unit) : result policy_error unit :=
  match r with
  | Ok _ => Ok tt
  | Err (Capacity e) => match CapacityErrorsFrom (Some e) with [] => Err (PolicyStore (Capacity e)) | _ => Ok tt end
  | Err e => Err (PolicyStore e)
  end.

(** ** networkacl.go *)

Inductive acl_call : Type -> Type :=
| AclStoreCall {R} (e : map_event AclRule AclMeta R) : acl_call R
| GetNetworkACL (name : string) : acl_call (result api_error NetworkACL).

Record acl_state := MkAclState { acl_memory : memory; acl_snapshots : gmap string Z }.

Definition acl_upsert (acl : NetworkACL) (st : acl_state) : prog acl_call (result policy_error unit * acl_state) :=
  if acl_ID acl =? 0 then Ret (Ok tt, st) else
  match ExpandNetworkACL acl with
  | Err e => Ret (Err (PolicyExpand (acl_Name acl) e), st)
  | Ok rs =>
      rm <- embed (@AclStoreCall) (ACLStore_Apply rs (acl_memory st)) ;;
      match appliedOrOver rm.1 with
      | Err e => Ret (Err e, MkAclState rm.2 (acl_snapshots st))
      | Ok _ => Ret (Ok tt, MkAclState rm.2 (<[acl_Name acl := acl_ID acl]> (acl_snapshots st)))
      end
  end.

Definition acl_delete (name : string) (st : acl_state) : prog acl_call (result policy_error unit * acl_state) :=
  let snapshots' := delete name (acl_snapshots st) in
  match acl_snapshots st !! name with
  | None => Ret (Ok tt, MkAclState (acl_memory st) snapshots')
  | Some aclID =>
      if aclID =? 0 then Ret (Ok tt, MkAclState (acl_memory st) snapshots') else
      rm <- embed (@AclStoreCall) (ACLStore_Delete aclID (acl_memory st)) ;;
      Ret (res_map_err PolicyStore rm.1, MkAclState rm.2 snapshots')
  end.

Definition acl_Reconcile (key : string) (st : acl_state) : prog acl_call (result policy_error unit * acl_state) :=
  r <- call (GetNetworkACL key) ;;
  match r with
  | Err NotFound => acl_delete key st
  | Err e => Ret (Err (PolicyGet e), st)
  | Ok acl => acl_upsert acl st
  end.

(** ** securitygroup.go *)

Inductive sg_call : Type -> Type :=
| SgStoreCall {R} (e : map_event SgRule SgMeta R) : sg_call R
| GetSecurityGroup (name : string) : sg_call (result api_error SecurityGroup)
| ListSecurityGroups : sg_call (result api_error (list SecurityGroup)).

Record sg_state := MkSgState { sg_memory : memory; nameToID : gmap string Z; sg_snapshots : gmap string Z }.

(** The copy taken under the lock. *)
Definition resolverSnapshot (st : sg_state) : MapPeerResolver := nameToID st.

Definition sg_upsert (sg : SecurityGroup) (st : sg_state) : prog sg_call (result policy_error unit * sg_state) :=
  if sg_GroupID sg =? 0 then Ret (Ok tt, st) else
  match ExpandSecurityGroup sg (resolverSnapshot st) with
  | Err e => Ret (Err (PolicyExpand (sg_Name sg) e), st)
  | Ok rs =>
      rm <- embed (@SgStoreCall) (SGStore_Apply rs (sg_memory st)) ;;
      match appliedOrOver rm.1 with
      | Err e => Ret (Err e, MkSgState rm.2 (nameToID st) (sg_snapshots st))
      | Ok _ => Ret (Ok tt, MkSgState rm.2 (<[sg_Name sg := sg_GroupID sg]> (nameToID st))
                                           (<[sg_Name sg := sg_GroupID sg]> (sg_snapshots st)))
      end
  end.

Definition sg_delete (name : string) (st : sg_state) : prog sg_call (result policy_error unit * sg_state) :=
  let forget mem := MkSgState mem (delete name (nameToID st)) (delete name (sg_snapshots st)) in
  let gid := default 0 (sg_snapshots st !! name) in
  if gid =? 0 then Ret (Ok tt, forget (sg_memory st)) else
  rm <- embed (@SgStoreCall) (SGStore_Delete gid (sg_memory st)) ;;
  Ret (res_map_err PolicyStore rm.1, forget rm.2).

Definition sg_Reconcile (key : string) (st : sg_state) : prog sg_call (result policy_error unit * sg_state) :=
  r <- call (GetSecurityGroup key) ;;
  match r with
  | Err NotFound => sg_delete key st
  | Err e => Ret (Err (PolicyGet e), st)
  | Ok sg => sg_upsert sg st
  end.

Definition FanOutVpcPeers (sg : SecurityGroup) : prog sg_call (list string) :=
  r <- call ListSecurityGroups ;;
  Ret (match r with
       | Ok items => sg_Name <$> List.filter (fun other => negb (String.eqb (sg_Name other) (sg_Name sg)) &&
                                                           String.eqb (sg_Vpc other) (sg_Vpc sg)) items
       | Err _ => []
       end).

(** ** sg_membership.go *)

Inductive sgm_call : Type -> Type :=
| MemberStoreCall {R} (e : member_event R) : sgm_call R
| GetInterface (namespace name : string) : sgm_call (result api_error NetworkInterface)
| SgmGetL2Network (name : string) : sgm_call (result api_error L2Network)
| SgmGetSubnet (name : string) : sgm_call (result api_error Subnet)
| SgmGetVpcID (name : string) : sgm_call (result api_error Z)      (* status.vpcID *)
| ListInterfaces : sgm_call (result api_error (list NetworkInterface))
| SgmListSubnets : sgm_call (result api_error (list Subnet))
| SgmListL2Networks : sgm_call (result api_error (list L2Network)).

(** [policy.IPv4ToBE] *)
Definition IPv4ToBE (ip : Addr) : option Z := IPv4ToBPFNetworkOrder ip.

(** The address of a status: bare, or with a prefix length. *)
Definition interfaceAddress (address : string) : option Z :=
  if String.eqb address "" then None else
  match ParseIP address with
  | Some ip => IPv4ToBE ip
  | None => match ParseCIDR address with Some (ip, _) => IPv4ToBE ip | None => None end
  end.

(** The name of the Vpc of the network of an interface, [None] when the
    interface is left out. *)
Definition networkVpcName (iface : NetworkInterface) : prog sgm_call (result api_error (option string)) :=
  if negb (String.eqb (nic_L2Network (nic_spec iface)) "") then
    r <- call (SgmGetL2Network (nic_L2Network (nic_spec iface))) ;;
    Ret (match r with
         | Ok network => Ok (match l2_Gateway network with None => None | Some _ => Some (l2_Vpc network) end)
         | Err NotFound => Ok None
         | Err e => Err e
         end)
  else if negb (String.eqb (nic_Subnet (nic_spec iface)) "") then
    r <- call (SgmGetSubnet (nic_Subnet (nic_spec iface))) ;;
    Ret (match r with
         | Ok subnet => Ok (Some (sub_Vpc subnet))
         | Err NotFound => Ok None
         | Err e => Err e
         end)
  else Ret (Ok None).

(** The id of that Vpc, [None] while it has none. *)
Definition networkVpc (iface : NetworkInterface) : prog sgm_call (result api_error (option Z)) :=
  r <- networkVpcName iface ;;
  match r with
  | Err e => Ret (Err e)
  | Ok None => Ret (Ok None)
  | Ok (Some vpcName) =>
      r <- call (SgmGetVpcID vpcName) ;;
      Ret (match r with
           | Ok id => Ok (if id =? 0 then None else Some id)
           | Err NotFound => Ok None
           | Err e => Err e
           end)
  end.

Definition effectiveGroupIDs (iface : NetworkInterface) : list Z :=
  List.filter (fun id => negb (id =? 0)) (esg_GroupID <$> default [] (nic_EffectiveSecurityGroups (nic_status iface))).

Definition sgm_store (p : prog member_event (result store_error unit * member_memory))
  : prog sgm_call (result policy_error unit * member_memory) :=
  rm <- embed (@MemberStoreCall) p ;; Ret (res_map_err PolicyStore rm.1, rm.2).

Section Membership.
Variable SplitMetaNamespaceKey : string -> option (string * string).

Definition sgm_Reconcile (key : string) (mem : member_memory) : prog sgm_call (result policy_error unit * member_memory) :=
  match SplitMetaNamespaceKey key with
  | None => Ret (Err PolicyKey, mem)
  | Some (namespace, name) =>
      r <- call (GetInterface namespace name) ;;
      match r with
      | Err NotFound => sgm_store (Membership_Delete key mem)
      | Err e => Ret (Err (PolicyGet e), mem)
      | Ok iface =>
          match interfaceAddress (nic_Address (nic_status iface)) with
          | None => sgm_store (Membership_Delete key mem)
          | Some ipBE =>
              r <- networkVpc iface ;;
              match r with
              | Err e => Ret (Err (PolicyGet e), mem)
              | Ok None => sgm_store (Membership_Delete key mem)
              | Ok (Some vpcID) =>
                  match effectiveGroupIDs iface with
                  | [] => sgm_store (Membership_Delete key mem)
                  | gids => sgm_store (Membership_Apply key (MkMKey vpcID ipBE) gids mem)
                  end
              end
          end
      end
  end.
End Membership.

Definition interfaceKey (iface : NetworkInterface) : string := (Namespace (nic_meta iface) ++ "/" ++ nic_name iface)%string.

Definition interfacesWhere (p : NetworkInterface -> bool) (r : result api_error (list NetworkInterface)) : list string :=
  match r with Ok items => interfaceKey <$> List.filter p items | Err _ => [] end.

(** The Vpc of each network by name, L2Networks over Subnets. *)
Definition networkVpcs (subnets : list Subnet) (l2s : list L2Network) : gmap string string :=
  foldl (fun m l => <[l2_Name l := l2_Vpc l]> m) (foldl (fun m s => <[sub_Name s := sub_Vpc s]> m) ∅ subnets) l2s.

Definition FanOutVpcToInterfaces (vpc : string) : prog sgm_call (list string) :=
  ifaces <- call ListInterfaces ;;
  match ifaces with
  | Err _ => Ret []
  | Ok ifaces =>
      subnets <- call SgmListSubnets ;;
      match subnets with
      | Err _ => Ret []
      | Ok subnets =>
          l2s <- call SgmListL2Networks ;;
          match l2s with
          | Err _ => Ret []
          | Ok l2s =>
              Ret (interfacesWhere (fun iface =>
                     let name := if negb (String.eqb (nic_L2Network (nic_spec iface)) "") then nic_L2Network (nic_spec iface)
                                 else nic_Subnet (nic_spec iface) in
                     String.eqb (default ""%string (networkVpcs subnets l2s !! name)) vpc) (Ok ifaces))
          end
      end
  end.

Definition FanOutL2NetworkToInterfaces (network : string) : prog sgm_call (list string) :=
  r <- call ListInterfaces ;; Ret (interfacesWhere (fun iface => String.eqb (nic_L2Network (nic_spec iface)) network) r).

Definition FanOutSubnetToInterfaces (subnet : string) : prog sgm_call (list string) :=
  r <- call ListInterfaces ;; Ret (interfacesWhere (fun iface => String.eqb (nic_Subnet (nic_spec iface)) subnet) r).

Definition FanOutSGToInterfaces (sg : string) : prog sgm_call (list string) :=
  r <- call ListInterfaces ;;
  Ret (interfacesWhere (fun iface => existsb (String.eqb sg) (nic_SecurityGroups (nic_spec iface))) r).
