(* ===== verification/PolicyReconcilerTheorems.v ===== *)
(** * PolicyReconcilerTheorems: the SecurityGroup reconciler, across groups

    The rules of a group name other groups, which the reconciler resolves
    with the ids of the groups it has installed so far.  Two passes over the
    groups install every reference; one does not. *)

From stdpp Require Import base gmap strings list relations fin_maps.
From Stdlib Require Import ZArith Lia.
From S2P Require Import Prelude Effects Netip NetipFacts AddressRange Kube Protocol PolicyRules.
From S2P Require Import PolicyEval PolicyACL PolicySG PolicyStores PolicyPublish PolicyTheorems PolicyReconcilers.

Open Scope Z_scope.

#[local] Arguments wrapU : simpl never.

#[local] Abbreviation sg_world := (world SgRule SgMeta).
#[local] Abbreviation sg_faults := (forall R, map_event SgRule SgMeta R -> bool).

(** The groups of the API server by name.  A read may fail. *)
Definition sg_server (objs : gmap string SecurityGroup) (faulty : sg_faults) : server sg_call sg_world :=
  fun R e => match e in sg_call R return sg_world -> R -> sg_world -> Prop with
  | SgStoreCall e => map_server faulty _ e
  | GetSecurityGroup name => fun w r w' => w' = w /\
      match r with
      | Ok sg => objs !! name = Some sg
      | Err NotFound => objs !! name = None
      | Err _ => True
      end
  | ListSecurityGroups => fun w r w' => w' = w /\ match r with Ok l => l ≡ₚ (map_to_list objs).*2 | Err _ => True end
  end.

(** The state of the reconciler and the data plane it writes. *)
Definition sg_node : Type := sg_state * sg_world.

(** One run of [Reconcile], with its error. *)
Inductive sg_run (objs : gmap string SecurityGroup) (faulty : sg_faults) (key : string)
  : sg_node -> result policy_error unit -> sg_node -> Prop :=
| sg_run_intro st w r st' w' :
    exec (sg_server objs faulty) w (sg_Reconcile key st) (r, st') w' -> sg_run objs faulty key (st, w) r (st', w').

(** Any run, whatever the API server holds and whichever calls fail. *)
Definition sg_any_run (s s' : sg_node) : Prop :=
  exists objs faulty key r, map_Forall (fun name sg => sg_Name sg = name) objs /\ sg_run objs faulty key s r s'.

(** Runs of these keys, one after the other, all answering [nil]. *)
Inductive sg_pass (objs : gmap string SecurityGroup) (faulty : sg_faults) : list string -> sg_node -> sg_node -> Prop :=
| sg_pass_nil s : sg_pass objs faulty [] s s
| sg_pass_cons key keys s s1 s2 :
    sg_run objs faulty key s (Ok tt) s1 -> sg_pass objs faulty keys s1 s2 -> sg_pass objs faulty (key :: keys) s s2.

Definition sg_boot (e : Z) : sg_node := (MkSgState (MkMemory ∅ ∅ e) ∅ ∅, MkWorld ∅ ∅ ∅ ∅ e).

(** The ids of the groups. *)
Definition sg_ids (objs : gmap string SecurityGroup) : MapPeerResolver := sg_GroupID <$> objs.

Lemma sg_ids_lookup objs n : sg_ids objs !! n = sg_GroupID <$> objs !! n.
Proof. exact (lookup_fmap sg_GroupID objs n). Qed.

Lemma ExpandSecurityGroup_id sg resolver rs : ExpandSecurityGroup sg resolver = Ok rs -> GroupID rs = sg_GroupID sg.
Proof. unfold ExpandSecurityGroup, res_bind. intros Hx. by repeat case_match; simplify_eq/=. Qed.

(** ** One run *)

Section Run.
Variables (objs : gmap string SecurityGroup) (faulty : sg_faults).
Hypothesis named : map_Forall (fun name sg => sg_Name sg = name) objs.

#[local] Abbreviation published := (published faulty SecurityGroupMaxEntriesPerDirection encodeSgRule encodeSgMeta).

Record sg_consistent (s : sg_node) : Prop := {
  consistent_owned : owned (sg_memory s.1) s.2;
  consistent_names : nameToID s.1 = sg_snapshots s.1 }.

(** What a run that answered [nil] did. *)
Definition sg_synced (key : string) (st : sg_state) (w : sg_world) (st' : sg_state) (w' : sg_world) : Prop :=
  match objs !! key with
  | None => nameToID st' = delete key (nameToID st) /\ (nameToID st !! key = None -> w' = w)
  | Some sg => sg_GroupID sg <> 0 ->
      nameToID st' = <[key := sg_GroupID sg]> (nameToID st) /\
      exists rs, ExpandSecurityGroup sg (nameToID st) = Ok rs /\
      published (GroupID rs) (fitRuleSet "securitygroup" rs SecurityGroupMaxEntriesPerDirection).1 w w'
  end.

Lemma wp_sg_store {A} (p : prog (map_event SgRule SgMeta) A) Q w :
  wp (map_server faulty) p Q w -> wp (sg_server objs faulty) (embed (@SgStoreCall) p) Q w.
Proof.
  intros Hp. apply (wp_embed (map_server faulty) _ _ id (fun _ x => x)); [done..| |done].
  intros R e s r s' Hs. by exists s'.
Qed.

Lemma sg_Reconcile_wp key st w :
  sg_consistent (st, w) ->
  wp (sg_server objs faulty) (sg_Reconcile key st)
  (fun rs w' => sg_consistent (rs.2, w') /\ (rs.1 = Ok tt -> sg_synced key st w rs.2 w')) w.
Proof.
  intros [Ho Hn]. cbn in Ho, Hn. unfold sg_Reconcile, sg_synced. cbn [bind call wp].
  intros r w1 [-> Hr]. destruct r as [sg|e].
  - rewrite Hr. apply named in Hr. unfold sg_upsert. destruct (Z.eqb_spec (sg_GroupID sg) 0) as [Hz|Hz]; [by cbn|].
    unfold resolverSnapshot. destruct (ExpandSecurityGroup sg (nameToID st)) as [rs|e]; [|by cbn].
    apply wp_bind, wp_sg_store. eapply wp_mono; [by apply Store_Apply_wp|].
    intros [r mem] w2 [Ho2 Hout]. cbn [fst snd] in *. destruct (appliedOrOver r) as [[]|e] eqn:Ha; cbn [wp fst snd]; [|by split].
    split; [split; cbn; [done|by rewrite Hn]|]. intros _ _. cbn. rewrite Hr. split; [done|]. exists rs. split; [done|].
    destruct r as [[]|[]]; try done; apply Hout.
  - destruct (decide (e = NotFound)) as [->|Hne]; [|destruct e; by cbn].
    rewrite Hr. unfold sg_delete, default. rewrite <- Hn. destruct (nameToID st !! key) as [gid|] eqn:Hk; cbv beta iota zeta.
    + unfold id. destruct (gid =? 0); [cbn; split; [by split; cbn; rewrite ?Hn|done]|].
      apply wp_bind, wp_sg_store. eapply wp_mono; [by apply Store_Delete_wp|].
      intros [r mem] w2 [Ho2 _]. cbn in *. split; [by split; cbn; rewrite ?Hn|done].
    + cbn. split; [by split; cbn; rewrite ?Hn|done].
Qed.

Lemma sg_run_spec key s r s' :
  sg_run objs faulty key s r s' -> sg_consistent s ->
  sg_consistent s' /\ (r = Ok tt -> sg_synced key s.1 s.2 s'.1 s'.2).
Proof.
  intros [st w r0 st' w' Hex] Hc. exact (wp_exec _ _ _ _ _ _ (sg_Reconcile_wp key st w Hc) Hex).
Qed.
End Run.

Lemma sg_any_run_consistent s s' : rtc sg_any_run s s' -> sg_consistent s -> sg_consistent s'.
Proof.
  induction 1 as [|s s1 s' (objs & faulty & key & r & Hn & Hrun) _ IH]; [done|].
  intros Hc. apply IH. by apply (sg_run_spec _ _ Hn _ _ _ _ Hrun).
Qed.

Lemma sg_boot_consistent e : sg_consistent (sg_boot e).
Proof. split; [|done]. exact (proj1 (start_ok SecurityGroupMaxEntriesPerDirection encodeSgRule encodeSgMeta e)). Qed.

(** ** Two passes *)

Section Passes.
Context `{KubeLib}.
Variables (get_vpc : string -> result api_error unit) (get_sg : string -> result api_error SecurityGroup).
Variables (objs : gmap string SecurityGroup) (faulty : sg_faults).
Hypothesis named : map_Forall (fun name sg => sg_Name sg = name) objs.
Hypothesis admitted : map_Forall (fun _ sg => sg_admitted get_vpc get_sg sg) objs.
Hypothesis distinct : forall n n' sg sg', objs !! n = Some sg -> objs !! n' = Some sg' -> sg_GroupID sg = sg_GroupID sg' -> n = n'.
Hypothesis meta_reliable : forall id m, faulty _ (MetaUpdate id m) = false.

(** A run sets the id of its own name only, to that of the live group. *)
Lemma run_names key s s' :
  sg_run objs faulty key s (Ok tt) s' -> sg_consistent s ->
  nameToID s'.1 !! key = sg_ids objs !! key /\
  (forall n, n <> key -> nameToID s'.1 !! n = nameToID s.1 !! n).
Proof.
  intros Hrun Hc. destruct (sg_run_spec _ _ named _ _ _ _ Hrun Hc) as [_ Hs]. specialize (Hs eq_refl).
  unfold sg_synced in *. rewrite sg_ids_lookup. destruct (objs !! key) as [sg|] eqn:Hk; cbn.
  - destruct (admitted _ _ Hk) as (_ & Hid & _). destruct (Hs Hid) as [-> _]. rewrite lookup_insert_eq.
    split; [done|]. intros n Hne. by rewrite lookup_insert_ne.
  - destruct Hs as [-> _]. rewrite lookup_delete_eq. split; [done|]. intros n Hne. by rewrite lookup_delete_ne.
Qed.

Lemma pass_names keys s s' :
  sg_pass objs faulty keys s s' -> sg_consistent s ->
  sg_consistent s' /\
  forall n, nameToID s'.1 !! n = if bool_decide (n ∈ keys) then sg_ids objs !! n else nameToID s.1 !! n.
Proof.
  induction 1 as [s|key keys s s1 s2 Hrun _ IH]; intros Hc; [by split|].
  destruct (run_names _ _ _ Hrun Hc) as [Hk Hother].
  destruct (IH (proj1 (sg_run_spec _ _ named _ _ _ _ Hrun Hc))) as [Hc2 Hn]. split; [done|].
  intros n. rewrite Hn. destruct (decide (n = key)) as [->|Hne].
  - rewrite (bool_decide_eq_true_2 (key ∈ key :: keys)) by apply list_elem_of_here. by case_bool_decide.
  - rewrite Hother by done. rewrite (bool_decide_ext (n ∈ key :: keys) (n ∈ keys)); [done|]. rewrite elem_of_cons. tauto.
Qed.

(** The first pass leaves the ids of the live groups, and nothing else. *)
Lemma pass_resolves keys s s' :
  sg_pass objs faulty keys s s' -> sg_consistent s ->
  (forall n, is_Some (objs !! n) \/ is_Some (nameToID s.1 !! n) -> n ∈ keys) ->
  sg_consistent s' /\ nameToID s'.1 = sg_ids objs.
Proof.
  intros Hp Hc Hall. destruct (pass_names _ _ _ Hp Hc) as [Hc' Hn]. split; [done|]. apply map_eq. intros n. rewrite Hn.
  case_bool_decide as Hin; [done|]. rewrite sg_ids_lookup.
  destruct (objs !! n) eqn:Ho; [exfalso; eauto|]. destruct (nameToID s.1 !! n) eqn:Hi; [exfalso; eauto|done].
Qed.

(** The data plane holds the group as it resolves now. *)
Definition sg_current (w : sg_world) (sg : SecurityGroup) : Prop := sg_image (sg_ids objs) (metas w) (table w) sg.

(** Once the ids are those of the live groups, a run makes its group current
    and keeps the others. *)
Lemma run_current key s s' :
  sg_run objs faulty key s (Ok tt) s' -> sg_consistent s -> nameToID s.1 = sg_ids objs ->
  nameToID s'.1 = sg_ids objs /\
  forall n sg, objs !! n = Some sg -> n = key \/ sg_current s.2 sg -> sg_current s'.2 sg.
Proof.
  intros Hrun Hc Hids. destruct (sg_run_spec _ _ named _ _ _ _ Hrun Hc) as [_ Hs]. specialize (Hs eq_refl).
  unfold sg_synced in Hs. destruct (objs !! key) as [sg|] eqn:Hk.
  - destruct (admitted _ _ Hk) as ([old Hv] & Hid & Hports). destruct (Hs Hid) as [Hn (rs & Hx & Hpub)].
    rewrite Hids in Hn, Hx. split.
    { rewrite Hn. unfold sg_ids. by rewrite <- fmap_insert, insert_id. }
    destruct (sg_validate_expands get_vpc get_sg (sg_ids objs) sg old Hv Hid) as (rs' & Hx' & Hfit).
    rewrite Hx in Hx'. injection Hx' as <-. rewrite fitRuleSet_id in Hpub by done.
    destruct Hpub as [Ht Hm]. destruct Hm as [Hm|[_ Hm]]; [|by rewrite meta_reliable in Hm]. cbn [fst] in *.
    assert (Hg : GroupID rs = sg_GroupID sg) by by eapply ExpandSecurityGroup_id.
    rewrite Hg in *. intros n sg' Ho Hcase. unfold sg_current, sg_image. rewrite Ht, Hm.
    destruct (decide (n = key)) as [->|Hne].
    + simplify_eq. split; [done|]. exists rs. by rewrite !lookup_insert_eq.
    + destruct Hcase as [|Hcur]; [done|]. rewrite !lookup_insert_ne by (intros ?; apply Hne; by eapply distinct). done.
  - destruct Hs as [Hn Hw]. assert (Hnone : sg_ids objs !! key = None) by by rewrite sg_ids_lookup, Hk.
    rewrite Hids in *. rewrite Hn, (Hw Hnone), delete_id by done. split; [done|].
    intros n sg Ho [->|Hcur]; [congruence|done].
Qed.

Lemma pass_current keys s s' :
  sg_pass objs faulty keys s s' -> sg_consistent s -> nameToID s.1 = sg_ids objs ->
  forall n sg, objs !! n = Some sg -> n ∈ keys \/ sg_current s.2 sg -> sg_current s'.2 sg.
Proof.
  induction 1 as [s|key keys s s1 s2 Hrun _ IH]; intros Hc Hids n sg Ho Hcase.
  - destruct Hcase as [Hin|]; [|done]. by apply not_elem_of_nil in Hin.
  - destruct (run_current _ _ _ Hrun Hc Hids) as [Hids1 Hcur].
    apply (IH (proj1 (sg_run_spec _ _ named _ _ _ _ Hrun Hc)) Hids1 n sg Ho).
    destruct Hcase as [[->|Hin]%elem_of_cons|Hold]; eauto.
Qed.
End Passes.

(** ** Runs that answer *)

Lemma Store_Delete_live {V M} (faulty : forall R, map_event V M R -> bool) id mem w :
  (forall R e, faulty R e = false) -> wp (map_server faulty) (Store_Delete id mem) (fun rm _ => rm.1 = Ok tt) w.
Proof.
  intros Hnf. assert (Hok : forall R (e : map_event V M R) w r w', map_server faulty R e w r w' -> fails e r = false).
  { intros R e w0 r w' [_ Hf]. destruct (fails e r); [|done]. by rewrite Hnf in Hf; specialize (Hf eq_refl). }
  unfold Store_Delete. apply wp_bind. apply wp_mono with (Q := fun rm _ => rm.1 = Ok tt).
  - unfold Rotator_Delete. destruct (id =? 0); [done|]. cbn [bind call wp]. intros r w1 H1%Hok. cbn in H1.
    destruct (ignoreMissing r); [|done]. cbn [bind call wp]. intros r2 w2 H2%Hok. cbn in H2.
    destruct (ignoreMissing r2); [|done]. by destruct (snapshots mem !! id).
  - intros [r mem1] w1; cbn [fst]; intros ->. unfold deleted, bump, Bump. cbn [bind call wp].
    intros [[]|e] w2 H2; [done|by apply Hok in H2].
Qed.

(** Without faults of the maps, a run fails only when its read did. *)
Lemma sg_Reconcile_live `{KubeLib} get_vpc get_sg objs faulty key st w :
  map_Forall (fun _ sg => sg_admitted get_vpc get_sg sg) objs -> (forall R e, faulty R e = false) ->
  wp (sg_server objs faulty) (sg_Reconcile key st)
    (fun rs _ => rs.1 = Ok tt \/ exists e, e <> NotFound /\ rs.1 = Err (PolicyGet e)) w.
Proof.
  intros Hadm Hnf. unfold sg_Reconcile. cbn [bind call wp]. intros r w1 [-> Hr]. destruct r as [sg|e].
  - destruct (Hadm _ _ Hr) as ([old Hv] & Hid & _). unfold sg_upsert. rewrite (proj2 (Z.eqb_neq _ _) Hid).
    destruct (sg_validate_expands get_vpc get_sg (nameToID st) sg old Hv Hid) as (rs & Hx & Hfit).
    unfold resolverSnapshot. rewrite Hx. apply wp_bind, wp_sg_store.
    eapply wp_mono; [apply Store_Apply_live; [done|by rewrite (ExpandSecurityGroup_id _ _ _ Hx)]|].
    intros [r mem] w2. cbn [fst snd]. rewrite fitRuleSet_id by done. cbn [snd]. intros ->. cbn. by left.
  - destruct (decide (e = NotFound)) as [->|Hne]; [|destruct e; [done|cbn; eauto..]].
    unfold sg_delete. case_match; [by left|]. apply wp_bind, wp_sg_store.
    eapply wp_mono; [by apply Store_Delete_live|]. intros [r mem] w2; cbn [fst]; intros ->. by left.
Qed.

(** Claim C4: whatever a SecurityGroup reconciler did since the daemon
    started, against any contents of the API server and any failing calls: let
    the groups be [objs], admitted by the webhook, with distinct ids, and let
    it reconcile every group and every name it remembers, and then every group
    again, each run answering [nil], where no meta write of the two passes
    fails (a run answers [nil] after a failed one too). Then every packet of
    an interface in one or two of the groups is decided as the specs say, with
    every reference to another group resolved. Without faults of the maps a
    run does answer [nil] unless its read failed. *)
Theorem sg_two_passes_enforce `{KubeLib} (get_vpc : string -> result api_error unit)
    (get_sg : string -> result api_error SecurityGroup) (objs : gmap string SecurityGroup) (faulty : sg_faults)
    (e : Z) (s s1 s2 : sg_node) (keys1 keys2 : list string)
    (Hnamed : map_Forall (fun name sg => sg_Name sg = name) objs)
    (Hadm : map_Forall (fun _ sg => sg_admitted get_vpc get_sg sg) objs)
    (Hids : forall n n' sg sg', objs !! n = Some sg -> objs !! n' = Some sg' -> sg_GroupID sg = sg_GroupID sg' -> n = n')
    (Hmeta : forall id m, faulty _ (MetaUpdate id m) = false)
    (Hreach : rtc sg_any_run (sg_boot e) s)
    (Hfirst : sg_pass objs faulty keys1 s s1)
    (Hkeys1 : forall n, is_Some (objs !! n) \/ is_Some (nameToID s.1 !! n) -> n ∈ keys1)
    (Hsecond : sg_pass objs faulty keys2 s1 s2)
    (Hkeys2 : forall n, is_Some (objs !! n) -> n ∈ keys2) :
  (forall groups dir proto dport a peer,
     Forall (fun sg => objs !! sg_Name sg = Some sg) groups -> (1 <= length groups <= MAX_SGS_PER_NIC)%nat ->
     0 <= a < 2 ^ 32 ->
     sg_eval (metas s2.2) (table s2.2) dir (Some (membershipVal (map sg_GroupID groups))) proto dport (htonl a) peer =
       sg_verdict proto dport a peer (sg_ids objs) dir groups) /\
  ((forall R e, faulty R e = false) -> forall key r s3, sg_run objs faulty key s2 r s3 ->
     r = Ok tt \/ exists e, e <> NotFound /\ r = Err (PolicyGet e)).
Proof.
  pose proof (sg_any_run_consistent _ _ Hreach (sg_boot_consistent e)) as Hc.
  destruct (pass_resolves _ _ _ _ Hnamed Hadm _ _ _ Hfirst Hc Hkeys1) as [Hc1 Hn1]. split.
  - intros groups dir proto dport a peer Hg Hlen Ha.
    assert (Hl : length (map sg_GroupID groups) = length groups) by apply length_map.
    apply sg_eval_groups; [done| |apply members_membershipVal; lia|].
    + eapply Forall_impl; [exact Hg|]. intros sg Ho. cbn in Ho.
      apply (pass_current _ _ _ _ Hnamed Hadm Hids Hmeta _ _ _ Hsecond Hc1 Hn1 _ _ Ho). left. by apply Hkeys2.
    + cbn [mb_count membershipVal]. unfold MAX_SGS_PER_NIC in *. rewrite Hl, wrapU_id by (unfold fitsU; lia). lia.
  - intros Hnf key r s3 [st w r0 st' w' Hex].
    exact (wp_exec _ _ _ _ _ _ (sg_Reconcile_live get_vpc get_sg objs faulty key st w Hadm Hnf) Hex).
Qed.

(** ** A node to evaluate on *)

Definition sg_handler (objs : gmap string SecurityGroup) : handler sg_call sg_world := fun R e =>
  match e in sg_call R return sg_world -> R * sg_world with
  | SgStoreCall e => map_handler no_faults _ e
  | GetSecurityGroup name => fun w => (match objs !! name with Some sg => Ok sg | None => Err NotFound end, w)
  | ListSecurityGroups => fun w => (Ok (map_to_list objs).*2, w)
  end.

Definition sg_do (objs : gmap string SecurityGroup) (key : string) (s : sg_node) : sg_node :=
  let out := run (sg_handler objs) (sg_Reconcile key s.1) s.2 in (out.1.2, out.2).

Lemma sg_handler_ok objs R (e : sg_call R) w r w' :
  sg_handler objs R e w = (r, w') -> sg_server objs no_faults R e w r w'.
Proof.
  destruct e as [R e|name|]; cbn; [apply map_handler_ok| |by intros [= <- <-]].
  intros [= <- <-]. split; [done|]. by destruct (objs !! name).
Qed.

Lemma sg_do_run objs key s :
  (run (sg_handler objs) (sg_Reconcile key s.1) s.2).1.1 = Ok tt ->
  sg_run objs no_faults key s (Ok tt) (sg_do objs key s).
Proof.
  destruct s as [st w]. intros Hr. unfold sg_do. cbn [fst snd] in *. constructor. rewrite <- Hr, <- surjective_pairing.
  eapply exec_mono; [|apply run_exec]. intros R e s r s'. apply sg_handler_ok.
Qed.

(** The database lets the web servers in, the web servers each other. *)
Definition ex_web : SecurityGroup :=
  MkSG "web" "vpc-a" [MkSGRule [MkPeer "" (Some "web")]%string (Some (StrVal "tcp")) [MkPort (Some 8080) None]] None 4 1 None.
Definition ex_objs : gmap string SecurityGroup := {[ "web" := ex_web; "db" := ex_sg ]}%string.
Definition get_ex (name : string) : result api_error SecurityGroup :=
  match ex_objs !! name with Some sg => Ok sg | None => Err NotFound end.

Lemma ex_objs_cases n sg : ex_objs !! n = Some sg -> n = sg_Name sg /\ (sg = ex_web \/ sg = ex_sg).
Proof. unfold ex_objs. intros [[<- <-]|[_ [<- <-]%lookup_singleton_Some]]%lookup_insert_Some; auto. Qed.

Lemma ex_objs_admitted : map_Forall (fun _ sg => sg_admitted any_vpc get_ex sg) ex_objs.
Proof.
  intros n sg Hn. destruct (ex_objs_cases _ _ Hn) as [_ [-> | ->]];
    (split_and!; [exists None; vm_compute; reflexivity|done|]);
    repeat constructor; intros; simplify_eq/=; lia.
Qed.

Definition ex_pass (s : sg_node) : sg_node := sg_do ex_objs "web" (sg_do ex_objs "db" s).

(** After the passes over [db] and [web], [web] members reach each other and
    the database. *)
Lemma sg_two_passes_enforce_witness :
  let s2 := ex_pass (ex_pass (sg_boot 0)) in
  sg_eval (metas s2.2) (table s2.2) DirIngress (Some (membershipVal [4])) 6 8080 (htonl 3232235521)
    (Some (membershipVal [4])) = PAllow /\
  sg_eval (metas s2.2) (table s2.2) DirIngress (Some (membershipVal [3])) 6 5432 (htonl 3232235521)
    (Some (membershipVal [4])) = PAllow.
Proof.
  intros s2.
  assert (Hpass : forall s, (run (sg_handler ex_objs) (sg_Reconcile "db" s.1) s.2).1.1 = Ok tt ->
    (run (sg_handler ex_objs) (sg_Reconcile "web" (sg_do ex_objs "db" s).1) (sg_do ex_objs "db" s).2).1.1 = Ok tt ->
    sg_pass ex_objs no_faults ["db"; "web"]%string s (ex_pass s)).
  { intros s H1 H2. eapply sg_pass_cons; [by apply sg_do_run|]. eapply sg_pass_cons; [by apply sg_do_run|]. constructor. }
  assert (Hnames : forall n, is_Some (ex_objs !! n) -> n ∈ ["db"; "web"]%string).
  { intros n [sg Hn]. destruct (ex_objs_cases _ _ Hn) as [-> [-> | ->]]; set_solver. }
  destruct (sg_two_passes_enforce any_vpc get_ex ex_objs no_faults 0 (sg_boot 0) (ex_pass (sg_boot 0)) s2
              ["db"; "web"]%string ["db"; "web"]%string) as [Hev _].
  - intros n sg Hn. symmetry. apply (ex_objs_cases _ _ Hn).
  - exact ex_objs_admitted.
  - intros n n' sg sg' Hn Hn' Hid. destruct (ex_objs_cases _ _ Hn) as [-> [-> | ->]];
      destruct (ex_objs_cases _ _ Hn') as [-> [-> | ->]]; done.
  - done.
  - constructor.
  - apply Hpass; vm_compute; reflexivity.
  - intros n [Hn|Hn]; [by apply Hnames|]. by destruct Hn.
  - apply Hpass; vm_compute; reflexivity.
  - exact Hnames.
  - split; (etransitivity; [|vm_compute; reflexivity]).
    + apply (Hev [ex_web]); [by repeat constructor|cbn; unfold MAX_SGS_PER_NIC; lia|lia].
    + apply (Hev [ex_sg]); [by repeat constructor|cbn; unfold MAX_SGS_PER_NIC; lia|lia].
Defined.

(** ** One pass *)

(** One pass does not do.  Let [web] be the only group, admitted,
    and let it admit its own members.  The first run answers [nil] and
    resolves the group with the ids installed before it, its own not among
    them, so the data plane refuses one member to the other, which the spec
    allows; and an event of the group enqueues the other groups of the Vpc,
    of which there are none, so nothing runs again until another event. *)
Theorem self_reference_not_installed :
  let objs := {[ "web" := ex_web ]}%string in
  let s1 := sg_do objs "web" (sg_boot 0) in
  sg_admitted any_vpc get_ex ex_web /\
  sg_pass objs no_faults ["web"]%string (sg_boot 0) s1 /\
  (forall r w, exec (sg_server objs no_faults) s1.2 (FanOutVpcPeers ex_web) r w -> r = []) /\
  sg_eval (metas s1.2) (table s1.2) DirIngress (Some (membershipVal [4])) 6 8080 (htonl 3232235521)
    (Some (membershipVal [4])) = PDeny /\
  sg_verdict 6 8080 3232235521 (Some (membershipVal [4])) (sg_ids objs) DirIngress [ex_web] = PAllow.
Proof.
  intros objs s1. split_and!; [| | |vm_compute; reflexivity..].
  - by apply (ex_objs_admitted "web").
  - eapply sg_pass_cons; [apply sg_do_run; vm_compute; reflexivity|constructor].
  - intros r w Hex. assert (Hwp : wp (sg_server objs no_faults) (FanOutVpcPeers ex_web) (fun r _ => r = []) s1.2).
    { unfold FanOutVpcPeers. cbn [bind call wp]. intros l w1 [_ Hl]. destruct l as [l|e]; [|done].
      unfold objs in Hl. rewrite map_to_list_singleton in Hl. apply Permutation_singleton_r in Hl as ->. done. }
    exact (wp_exec _ _ _ _ _ _ Hwp Hex).
Qed.
