(* ===== verification/ServiceTypes.v ===== *)
(** * ServiceTypes: Kubernetes Services and the policy they carry

    The fields of [corev1.Service] and [discoveryv1.EndpointSlice] the daemon
    reads, and package [daemon/internal/daemon/svcpolicy]: which Vpc owns a
    Service, which Vpcs may call it, and how a backend is chosen. *)

From stdpp Require Import base gmap strings list.
From Stdlib Require Import ZArith Lia Ascii.
From S2P Require Import Prelude Netip Kube.

Open Scope Z_scope.

(** ** Objects *)

(** [TargetPort] is kept as its text. *)
Record ServicePort := MkServicePort {
  sp_Name : string; sp_Protocol : string; sp_AppProtocol : option string;
  sp_Port : Z; sp_TargetPort : string; sp_NodePort : Z }.

#[global] Instance ServicePort_eq_dec : EqDecision ServicePort.
Proof. solve_decision. Defined.
#[global] Instance ServicePort_countable : Countable ServicePort.
Proof.
  refine (inj_countable' (fun p => (sp_Name p, sp_Protocol p, sp_AppProtocol p, sp_Port p, sp_TargetPort p, sp_NodePort p))
    (fun '(a, b, c, d, e, f) => MkServicePort a b c d e f) _). by intros [].
Defined.

(** [svc_TimeoutSeconds] is [sessionAffinityConfig.clientIP.timeoutSeconds]. *)
Record Service := MkService {
  svc_Namespace : string; svc_Name : string; svc_Annotations : gmap string string;
  svc_Type : string; svc_ClusterIP : string; svc_ClusterIPs : list string; svc_ExternalIPs : list string;
  svc_Ports : list ServicePort; svc_InternalTrafficPolicy : option string;
  svc_SessionAffinity : string; svc_TimeoutSeconds : option Z }.

Record ObjectReference := MkObjectReference { ref_Kind : string; ref_Namespace : string; ref_Name : string }.

Record Endpoint := MkServiceEndpoint {
  ep_Addresses : list string; ep_Ready : option bool; ep_Serving : option bool; ep_Terminating : option bool;
  ep_NodeName : option string; ep_TargetRef : option ObjectReference }.

(** The ports of a slice: name and number. *)
Record EndpointSlice := MkEndpointSlice {
  es_Namespace : string; es_ServiceLabel : string; es_AddressType : string;
  es_Endpoints : list Endpoint; es_Ports : list (option string * option Z) }.

(** ** policy.go *)

Definition AnnotationVpc : string := "juneau.loutres.me/vpc".
Definition AnnotationShared : string := "juneau.loutres.me/shared-service".
Definition AnnotationAllowedConsumerVpcs : string := "juneau.loutres.me/shared-service-allowed-consumer-vpcs".
Definition DefaultVpc : string := "default".

Definition OwningVpc (svc : Service) : string :=
  match svc_Annotations svc !! AnnotationVpc with
  | Some v => if String.eqb v "" then DefaultVpc else v
  | None => DefaultVpc
  end.

Definition IsShared (svc : Service) : bool :=
  String.eqb (default ""%string (svc_Annotations svc !! AnnotationShared)) "true".

Definition AllowedConsumerVpcs (svc : Service) : list string :=
  match svc_Annotations svc !! AnnotationAllowedConsumerVpcs with
  | None => []
  | Some raw => List.filter (fun p => negb (String.eqb p "")) (TrimSpace <$> split_on ","%char raw)
  end.

Definition HasConsumerACL (svc : Service) : bool := negb (Nat.eqb (length (AllowedConsumerVpcs svc)) 0).

Definition IsAllowedConsumer (svc : Service) (callerVpc : string) : bool :=
  match AllowedConsumerVpcs svc with
  | [] => true
  | allowed => existsb (String.eqb callerVpc) allowed
  end.

Record CallerVpc := MkCallerVpc { caller_Name : string; caller_ServiceEnabled : bool; caller_Consume : bool }.

Definition ResolvableFrom (svc : Service) (caller : CallerVpc) : bool :=
  if negb (caller_ServiceEnabled caller) then false
  else if String.eqb (OwningVpc svc) (caller_Name caller) then true
  else if negb (caller_Consume caller) then false
  else if negb (IsShared svc) then false
  else IsAllowedConsumer svc (caller_Name caller).

(** ** selection.go *)

Definition Hour : Z := 3600 * Second.
Definition DefaultClientIPAffinityTimeout : Z := 3 * Hour.

Inductive AffinityMode := AffinityNone | AffinityClientIP.

#[global] Instance AffinityMode_eq_dec : EqDecision AffinityMode.
Proof. solve_decision. Defined.

Record AffinityPolicy := MkAffinity { aff_Mode : AffinityMode; aff_Timeout : Z }.
Record BackendSelectionPolicy := MkSelection { InternalLocal : bool; Affinity : AffinityPolicy }.

Definition IsClusterInternal (p : BackendSelectionPolicy) : bool := negb (InternalLocal p).

(** [time.Duration] is a 64-bit count of nanoseconds. *)
Definition affinityPolicyOf (svc : Service) : AffinityPolicy :=
  if negb (String.eqb (svc_SessionAffinity svc) "ClientIP") then MkAffinity AffinityNone 0
  else MkAffinity AffinityClientIP
         match svc_TimeoutSeconds svc with
         | Some t => if 0 <? t then i64 (t * Second) else DefaultClientIPAffinityTimeout
         | None => DefaultClientIPAffinityTimeout
         end.

Definition SelectionPolicyOf (svc : Service) : BackendSelectionPolicy :=
  MkSelection (match svc_InternalTrafficPolicy svc with Some itp => String.eqb itp "Local" | None => false end)
              (affinityPolicyOf svc).
