(* ===== verification/ServiceReconciler.v ===== *)
(** * ServiceReconciler: the Service maps of a node

    [daemon/internal/daemon/dataplane/reconciler/service]: [resolve.go] turns
    EndpointSlices into backend candidates, [filter.go] applies the selection
    policy, [program.go] writes [service_map], [backend_map] and
    [service_acl_map], and [reconciler.go] drives them.  One worker runs one
    operation at a time; the snapshots the reconciler keeps are explicit
    state.  The fingerprint of a backend set ([crypto/sha256] of the standard
    library) is a parameter. *)

From stdpp Require Import base gmap strings list.
From Stdlib Require Import ZArith Lia Ascii.
From S2P Require Import Prelude Effects Netip IPNet Kube PodNetwork PolicyStores AddressPlan NodeTables ServiceTypes.

Open Scope Z_scope.
Open Scope go_scope.

(** ** The maps *)

(** [bpf.PodEgressServiceKey], [ServiceVal], [BackendKey], [BackendVal] and
    [ServiceAclKey]; padding is zero. *)
Record ServiceKey := MkServiceKey { sk_ClusterIp : Z; sk_Port : Z; sk_Proto : Z }.
Record ServiceVal := MkServiceVal {
  sv_OwnerVpcId : Z; sv_BackendCount : Z; sv_AffinitySec : Z; sv_Flags : Z; sv_Gen : Z }.
Record BackendKey := MkBackendKey { bk_service : ServiceKey; bk_Index : Z }.
Record BackendVal := MkBackendVal { bv_Ip : Z; bv_Port : Z; bv_Kind : Z; bv_SubnetId : Z }.
Record ServiceAclKey := MkAclKey { ak_service : ServiceKey; ak_CallerVpcId : Z }.

#[global] Instance ServiceKey_eq_dec : EqDecision ServiceKey.
Proof. solve_decision. Defined.
#[global] Instance ServiceVal_eq_dec : EqDecision ServiceVal.
Proof. solve_decision. Defined.
#[global] Instance BackendKey_eq_dec : EqDecision BackendKey.
Proof. solve_decision. Defined.
#[global] Instance BackendVal_eq_dec : EqDecision BackendVal.
Proof. solve_decision. Defined.
#[global] Instance ServiceAclKey_eq_dec : EqDecision ServiceAclKey.
Proof. solve_decision. Defined.
#[global] Instance ServiceKey_countable : Countable ServiceKey.
Proof.
  refine (inj_countable' (fun k => (sk_ClusterIp k, sk_Port k, sk_Proto k)) (fun '(a, b, c) => MkServiceKey a b c) _). by intros [].
Defined.
#[global] Instance BackendKey_countable : Countable BackendKey.
Proof. refine (inj_countable' (fun k => (bk_service k, bk_Index k)) (fun '(a, b) => MkBackendKey a b) _). by intros []. Defined.
#[global] Instance ServiceAclKey_countable : Countable ServiceAclKey.
Proof. refine (inj_countable' (fun k => (ak_service k, ak_CallerVpcId k)) (fun '(a, b) => MkAclKey a b) _). by intros []. Defined.

(** ** Calls *)

(** A Vpc is its spec and its status. *)
Inductive svc_call : Type -> Type :=
| GetService (namespace name : string) : svc_call (result api_error Service)
| SvcGetVpc (name : string) : svc_call (result api_error (AddressPlan.Vpc * VpcStatus))
| ListEndpointSlices (namespace service : string) : svc_call (result api_error (list EndpointSlice))
| ListPodInterfaces (namespace pod : string) : svc_call (result api_error (list NetworkInterface))
| SvcGetSubnet (name : string) : svc_call (result api_error SubnetObject)
| SvcListServices : svc_call (result api_error (list Service))
| ServiceMapUpdate (k : ServiceKey) (v : ServiceVal) : svc_call (result bpf_error unit)
| ServiceMapDelete (k : ServiceKey) : svc_call (result bpf_error unit)
| BackendMapUpdate (k : BackendKey) (v : BackendVal) : svc_call (result bpf_error unit)
| BackendMapDelete (k : BackendKey) : svc_call (result bpf_error unit)
| ServiceAclMapUpdate (k : ServiceAclKey) : svc_call (result bpf_error unit)
| ServiceAclMapDelete (k : ServiceAclKey) : svc_call (result bpf_error unit).

Inductive svc_error :=
| SvcBadKey
| SvcApi (e : api_error)
| SvcNoNetwork (namespace name : string)
| SvcUpdate (e : bpf_error).

(** ** resolve.go *)

Definition backendSubnetIDUnderlay : Z := 0.
Definition backendKindPod : Z := 0.
Definition backendKindHostRemote : Z := 1.
Definition backendKindHostLocal : Z := 2.

Record endpointInfo := MkEndpointInfo {
  ei_address : string; ei_port : Z; ei_portName : string; ei_targetRef : option ObjectReference;
  ei_nodeName : string; ei_ready : bool; ei_serving : bool; ei_terminating : bool }.

Record resolvedBackend := MkResolved {
  rb_port : ServicePort; rb_val : BackendVal; rb_nodeName : string;
  rb_ready : bool; rb_serving : bool; rb_terminating : bool }.

Definition condBool (p : option bool) (def : bool) : bool := default def p.
Definition portValue (p : option Z) : Z := default 0 p.
Definition portName (p : option string) : string := default ""%string p.

(** The rows of one endpoint of a slice. *)
Definition endpointRows (slice : EndpointSlice) (ep : Endpoint) : list endpointInfo :=
  let ready := condBool (ep_Ready ep) true in
  let serving := condBool (ep_Serving ep) ready in
  let terminating := condBool (ep_Terminating ep) false in
  let node := default ""%string (ep_NodeName ep) in
  addr ← ep_Addresses ep;
  p ← es_Ports slice;
  [MkEndpointInfo addr (portValue p.2) (portName p.1) (ep_TargetRef ep) node ready serving terminating].

Definition collectRows (slices : list EndpointSlice) : list endpointInfo :=
  slice ← slices;
  if String.eqb (es_AddressType slice) "IPv4" then ep ← es_Endpoints slice; endpointRows slice ep else [].

Definition collectEndpoints (svc : Service) : prog svc_call (result svc_error (list endpointInfo)) :=
  r <- call (ListEndpointSlices (svc_Namespace svc) (svc_Name svc)) ;;
  match r with
  | Err e => Ret (Err (SvcApi e))
  | Ok slices => Ret (Ok (collectRows slices))
  end.

Definition matchEndpointsForPort (endpoints : list endpointInfo) (svcPort : ServicePort) : list endpointInfo :=
  List.filter (fun ep => String.eqb (sp_Name svcPort) "" || String.eqb (ei_portName ep) (sp_Name svcPort)) endpoints.

Definition findPrimaryInterfaceForPod (namespace podName : string) : prog svc_call (result svc_error (option NetworkInterface)) :=
  r <- call (ListPodInterfaces namespace podName) ;;
  Ret (match r with Ok items => Ok (head items) | Err e => Err (SvcApi e) end).

(** [net.ParseIP(s).To4()], in host order. *)
Definition ipv4Of (s : string) : option Z :=
  match ParseIP s with
  | Some ip => match Unmap ip with Addr4 v => Some v | _ => None end
  | None => None
  end.

(** The interface of the Pod an endpoint names. *)
Definition endpointInterface (ep : endpointInfo) : prog svc_call (result svc_error (option NetworkInterface)) :=
  match ei_targetRef ep with
  | Some ref => if String.eqb (ref_Kind ref) "Pod" then findPrimaryInterfaceForPod (ref_Namespace ref) (ref_Name ref)
                else Ret (Ok None)
  | None => Ret (Ok None)
  end.

(** The keys a Service has been given, and the last backend set. *)
Record programSnapshot := MkSnapshot {
  serviceKeys : list ServiceKey; backendKeys : list BackendKey; aclKeys : list ServiceAclKey;
  backendSig : string; snap_gen : Z }.

Definition noSnapshot : programSnapshot := MkSnapshot [] [] [] "" 0.

Abbreviation svc_state := (gmap string programSnapshot).

(** [map[corev1.ServicePort][]resolvedBackend] *)
Abbreviation backendMap := (gmap ServicePort (list resolvedBackend)).

Section Node.
(** [r.nodeIP], nil when the address given is not IPv4, and [r.nodeName]. *)
Variables (nodeIP : option Z) (nodeName : string).

(** The kind and the segment of a backend, [None] when it is left out. *)
Definition backendSegment (vpcName : string) (ip : Z) (iface : option NetworkInterface)
  : prog svc_call (result svc_error (option (Z * Z))) :=
  match iface with
  | None =>
      Ret (Ok (Some (if bool_decide (nodeIP = Some ip) then backendKindHostLocal else backendKindHostRemote,
                     backendSubnetIDUnderlay)))
  | Some iface =>
      if negb (String.eqb (nic_ElasticIP (nic_spec iface)) "") || negb (String.eqb (nic_L2Network (nic_spec iface)) "")
      then Ret (Ok None)
      else if String.eqb (nic_Subnet (nic_spec iface)) ""
      then Ret (Err (SvcNoNetwork (Namespace (nic_meta iface)) (nic_name iface)))
      else
        r <- call (SvcGetSubnet (nic_Subnet (nic_spec iface))) ;;
        Ret (match r with
             | Err NotFound => Ok None
             | Err e => Err (SvcApi e)
             | Ok subnet =>
                 if negb (String.eqb (so_Vpc subnet) vpcName) then Ok None
                 else if so_VNI subnet =? 0 then Ok None
                 else Ok (Some (backendKindPod, so_VNI subnet))
             end)
  end.

(** One turn of the inner loop. *)
Definition resolveBackend (vpcName : string) (port : ServicePort) (ep : endpointInfo)
  : prog svc_call (result svc_error (option resolvedBackend)) :=
  if String.eqb (ei_address ep) "" then Ret (Ok None) else
  match ipv4Of (ei_address ep) with
  | None => Ret (Ok None)
  | Some ip =>
      iface <-? endpointInterface ep ;;
      seg <-? backendSegment vpcName ip iface ;;
      Ret (Ok (option_map (fun '(kind, subnetID) =>
        MkResolved port (MkBackendVal ip (u16 (ei_port ep)) kind subnetID) (ei_nodeName ep)
                   (ei_ready ep) (ei_serving ep) (ei_terminating ep)) seg))
  end.

Definition backendsOf (m : backendMap) (port : ServicePort) : list resolvedBackend := default [] (m !! port).

Definition resolveBackends (svc : Service) (vpcName : string) (endpoints : list endpointInfo)
  : prog svc_call (result svc_error backendMap) :=
  forTryP (svc_Ports svc) (∅ : backendMap) (fun port out =>
    forTryP (matchEndpointsForPort endpoints port) out (fun ep out =>
      rb <-? resolveBackend vpcName port ep ;;
      Ret (Ok match rb with
              | None => out
              | Some rb => <[port := backendsOf out port ++ [rb]]> out
              end))).

(** ** filter.go *)

Definition admitByConditions (backends : list resolvedBackend) : list resolvedBackend :=
  match List.filter rb_ready backends with
  | [] => List.filter (fun b => negb (rb_ready b) && (rb_serving b && negb (rb_terminating b))) backends
  | ready => ready
  end.

Definition retainLocal (backends : list resolvedBackend) (localNode : string) : list resolvedBackend :=
  if String.eqb localNode "" then []
  else List.filter (fun b => String.eqb (rb_nodeName b) localNode) backends.

Definition applyPolicy (input : backendMap) (policy : BackendSelectionPolicy) (localNode : string) : backendMap :=
  (fun backends => admitByConditions (if InternalLocal policy then retainLocal backends localNode else backends)) <$> input.

(** ** program.go *)

Definition svcFlagShared : Z := Z.shiftl 1 0.
Definition svcFlagHasACL : Z := Z.shiftl 1 1.
Definition svcFlagAffinityClientIP : Z := Z.shiftl 1 2.
Definition svcFlagInternalLocal : Z := Z.shiftl 1 3.

Definition protoToU8 (proto : string) : Z :=
  if String.eqb proto "TCP" || String.eqb proto "" then 6
  else if String.eqb proto "UDP" then 17 else 0.

Definition serviceFlags (svc : Service) (policy : BackendSelectionPolicy) (hasACL : bool) : Z :=
  let bit b f flags := if b : bool then Z.lor flags f else flags in
  bit (InternalLocal policy) svcFlagInternalLocal
    (bit (bool_decide (aff_Mode (Affinity policy) = AffinityClientIP)) svcFlagAffinityClientIP
      (bit hasACL svcFlagHasACL (bit (IsShared svc) svcFlagShared 0))).

(** [p.Timeout.Seconds()] is exact for whole seconds, which is what a policy
    holds. *)
Definition affinitySecondsClamp (p : AffinityPolicy) : Z :=
  if negb (bool_decide (aff_Mode p = AffinityClientIP)) || (aff_Timeout p <=? 0) then 0
  else let secs := aff_Timeout p / Second in
       if secs <? 1 then 1 else if 2 ^ 32 - 1 <? secs then 2 ^ 32 - 1 else secs.

(** [binary.Write] in big-endian order. *)
Definition be16 (v : Z) : list Z := [Z.land (Z.shiftr v 8) 255; Z.land v 255].
Definition be32 (v : Z) : list Z :=
  [Z.land (Z.shiftr v 24) 255; Z.land (Z.shiftr v 16) 255; Z.land (Z.shiftr v 8) 255; Z.land v 255].

(** The order of [sort.SliceStable] in [backendSignature]. *)
Definition backendLess (a b : resolvedBackend) : bool :=
  let a := rb_val a in
  let b := rb_val b in
  if negb (bv_Ip a =? bv_Ip b) then bv_Ip a <? bv_Ip b
  else if negb (bv_Port a =? bv_Port b) then bv_Port a <? bv_Port b
  else bv_SubnetId a <? bv_SubnetId b.

(** A stable sort: an element goes before the first that is not less. *)
Fixpoint insertBackend (x : resolvedBackend) (l : list resolvedBackend) : list resolvedBackend :=
  match l with
  | [] => [x]
  | y :: l' => if backendLess y x then y :: insertBackend x l' else x :: l
  end.

Definition sortBackends (l : list resolvedBackend) : list resolvedBackend := foldr insertBackend [] l.

Definition backendBytes (rb : resolvedBackend) : list Z :=
  be32 (bv_Ip (rb_val rb)) ++ be16 (bv_Port (rb_val rb)) ++ [bv_Kind (rb_val rb)] ++ be32 (bv_SubnetId (rb_val rb)).

Variable sha256 : list Z -> string.

Definition portBytes (m : backendMap) (port : ServicePort) : list Z :=
  be16 (u16 (sp_Port port)) ++ [protoToU8 (sp_Protocol port)] ++ be32 (u32 (Z.of_nat (length (backendsOf m port)))) ++
  (rb ← sortBackends (backendsOf m port); backendBytes rb).

Definition backendSignature (svc : Service) (flags affinitySec : Z) (m : backendMap) : string :=
  sha256 (be32 flags ++ be32 affinitySec ++ (port ← svc_Ports svc; portBytes m port)).

(** The IPv4 addresses of [externalIPs] after those already seen. *)
Definition vipsForService (svc : Service) (primaryHost : Z) : list Z :=
  foldl (fun vips raw => match ipv4Of raw with
                         | Some host => if bool_decide (host ∈ vips) then vips else vips ++ [host]
                         | None => vips
                         end) [primaryHost] (svc_ExternalIPs svc).

Definition mapUpdate (e : svc_call (result bpf_error unit)) : prog svc_call (result svc_error unit) :=
  r <- call e ;; Ret (res_map_err SvcUpdate r).

(** One port of one address. *)
Definition programPort (vpcID affinitySec flags gen : Z) (m : backendMap) (allowedVpcIDs : list Z) (hasACL : bool)
  (vip : Z) (port : ServicePort) (out : programSnapshot) : prog svc_call (result svc_error programSnapshot) :=
  let proto := protoToU8 (sp_Protocol port) in
  if proto =? 0 then Ret (Ok out) else
  let key := MkServiceKey vip (u16 (sp_Port port)) proto in
  let val := MkServiceVal vpcID (u32 (Z.of_nat (length (backendsOf m port)))) affinitySec flags gen in
  _ <-? mapUpdate (ServiceMapUpdate key val) ;;
  let out := MkSnapshot (serviceKeys out ++ [key]) (backendKeys out) (aclKeys out) (backendSig out) (snap_gen out) in
  out <-? forTryP (imap (fun idx rb => (MkBackendKey key (u32 (Z.of_nat idx)), rb_val rb)) (backendsOf m port)) out (fun kv out =>
    _ <-? mapUpdate (BackendMapUpdate kv.1 kv.2) ;;
    Ret (Ok (MkSnapshot (serviceKeys out) (backendKeys out ++ [kv.1]) (aclKeys out) (backendSig out) (snap_gen out)))) ;;
  if hasACL then
    forTryP allowedVpcIDs out (fun callerVpcID out =>
      let ak := MkAclKey key callerVpcID in
      _ <-? mapUpdate (ServiceAclMapUpdate ak) ;;
      Ret (Ok (MkSnapshot (serviceKeys out) (backendKeys out) (aclKeys out ++ [ak]) (backendSig out) (snap_gen out))))
  else Ret (Ok out).

Definition programService (svc : Service) (clusterIPHost vpcID : Z) (policy : BackendSelectionPolicy) (m : backendMap)
  (allowedVpcIDs : list Z) (hasACL : bool) (prev : programSnapshot) : prog svc_call (result svc_error programSnapshot) :=
  let flags := serviceFlags svc policy hasACL in
  let affinitySec := affinitySecondsClamp (Affinity policy) in
  let sig := backendSignature svc flags affinitySec m in
  let gen := if String.eqb sig (backendSig prev) then snap_gen prev else u32 (snap_gen prev + 1) in
  forTryP (vipsForService svc clusterIPHost) (MkSnapshot [] [] [] sig gen) (fun vip out =>
    forTryP (svc_Ports svc) out (programPort vpcID affinitySec flags gen m allowedVpcIDs hasACL vip)).

(** A delete whose error is logged. *)
Definition deleteEach {K} (del : K -> svc_call (result bpf_error unit)) (keys : list K) : prog svc_call unit :=
  forP keys tt (fun k _ => _ <- call (del k) ;; Ret tt).

Definition containsServiceKey (set : list ServiceKey) (k : ServiceKey) : bool := existsb (fun x => bool_decide (x = k)) set.
Definition containsBackendKey (set : list BackendKey) (k : BackendKey) : bool := existsb (fun x => bool_decide (x = k)) set.
Definition containsServiceAclKey (set : list ServiceAclKey) (k : ServiceAclKey) : bool := existsb (fun x => bool_decide (x = k)) set.

Definition pruneStale (prev current : programSnapshot) : prog svc_call unit :=
  _ <- deleteEach ServiceMapDelete (List.filter (fun k => negb (containsServiceKey (serviceKeys current) k)) (serviceKeys prev)) ;;
  _ <- deleteEach BackendMapDelete (List.filter (fun k => negb (containsBackendKey (backendKeys current) k)) (backendKeys prev)) ;;
  deleteEach ServiceAclMapDelete (List.filter (fun k => negb (containsServiceAclKey (aclKeys current) k)) (aclKeys prev)).

Definition deleteSnapshot (snap : programSnapshot) : prog svc_call unit :=
  _ <- deleteEach ServiceMapDelete (serviceKeys snap) ;;
  _ <- deleteEach BackendMapDelete (backendKeys snap) ;;
  deleteEach ServiceAclMapDelete (aclKeys snap).

(** ** reconciler.go *)

Definition svc_delete (key : string) (snaps : svc_state) : prog svc_call (result svc_error unit * svc_state) :=
  match snaps !! key with
  | None => Ret (Ok tt, snaps)
  | Some prev => _ <- deleteSnapshot prev ;; Ret (Ok tt, delete key snaps)
  end.

(** The ids of the Vpcs of the annotation, and whether there is one. *)
Definition resolveAllowedConsumerVpcIDs (svc : Service) : prog svc_call (result svc_error (list Z * bool)) :=
  match AllowedConsumerVpcs svc with
  | [] => Ret (Ok ([], false))
  | allowed =>
      ids <-? forTryP allowed [] (fun name out =>
        r <- call (SvcGetVpc name) ;;
        Ret (match r with
             | Err NotFound => Ok out
             | Err e => Err (SvcApi e)
             | Ok vpc => Ok (if vs_VpcID vpc.2 =? 0 then out else out ++ [vs_VpcID vpc.2])
             end)) ;;
      Ret (Ok (ids, true))
  end.

(** What [upsert] computes before it writes. *)
Definition svc_desired (svc : Service) (vpcName : string)
  : prog svc_call (result svc_error (backendMap * (list Z * bool))) :=
  endpoints <-? collectEndpoints svc ;;
  resolved <-? resolveBackends svc vpcName endpoints ;;
  acl <-? resolveAllowedConsumerVpcIDs svc ;;
  Ret (Ok (applyPolicy resolved (SelectionPolicyOf svc) nodeName, acl)).

Definition svc_upsert (key : string) (svc : Service) (snaps : svc_state) : prog svc_call (result svc_error unit * svc_state) :=
  if String.eqb (svc_Type svc) "ExternalName" then svc_delete key snaps
  else if Nat.eqb (length (svc_ClusterIPs svc)) 0 || String.eqb (svc_ClusterIP svc) "None" || String.eqb (svc_ClusterIP svc) ""
  then svc_delete key snaps
  else
  r <- call (SvcGetVpc (OwningVpc svc)) ;;
  match r with
  | Err NotFound => svc_delete key snaps
  | Err e => Ret (Err (SvcApi e), snaps)
  | Ok (spec, status) =>
      if vs_VpcID status =? 0 then Ret (Ok tt, snaps)
      else if negb (ServiceEnabled spec) then svc_delete key snaps
      else match ipv4Of (svc_ClusterIP svc) with
           | None => svc_delete key snaps
           | Some clusterIPHost =>
               r <- svc_desired svc (OwningVpc svc) ;;
               match r with
               | Err e => Ret (Err e, snaps)
               | Ok (filtered, (allowedVpcIDs, hasACL)) =>
                   let prev := default noSnapshot (snaps !! key) in
                   r <- programService svc clusterIPHost (vs_VpcID status) (SelectionPolicyOf svc) filtered
                          allowedVpcIDs hasACL prev ;;
                   match r with
                   | Err e => Ret (Err e, snaps)
                   | Ok written => _ <- pruneStale prev written ;; Ret (Ok tt, <[key := written]> snaps)
                   end
               end
           end
  end.

Definition svc_Reconcile (key : string) (snaps : svc_state) : prog svc_call (result svc_error unit * svc_state) :=
  match cut_first "/"%char key with
  | None => Ret (Err SvcBadKey, snaps)
  | Some (ns, name) =>
      r <- call (GetService ns name) ;;
      match r with
      | Err NotFound => svc_delete key snaps
      | Err e => Ret (Err (SvcApi e), snaps)
      | Ok svc => svc_upsert key svc snaps
      end
  end.
End Node.

Definition FanOutEndpointSliceToService (es : EndpointSlice) : list string :=
  if String.eqb (es_ServiceLabel es) "" then [] else [(es_Namespace es ++ "/" ++ es_ServiceLabel es)%string].

Definition FanOutAllServices : prog svc_call (list string) :=
  r <- call SvcListServices ;;
  Ret (match r with Ok items => map (fun svc => (svc_Namespace svc ++ "/" ++ svc_Name svc)%string) items | Err _ => [] end).
