(* ===== verification/ServiceDataplane.v ===== *)
(** * ServiceDataplane: what happens to a packet for a Service

    [daemon/bpf/pod_egress.c]: [hash_tuple], [select_backend_index] and
    [handle_service] up to the choice of the backend and of the path that
    rewrites the packet.  Addresses and ports are in host order. *)

From stdpp Require Import base gmap strings list.
From Stdlib Require Import ZArith Lia.
From S2P Require Import Prelude Conntrack ServiceReconciler.

Open Scope Z_scope.

(** The maps [handle_service] reads; [vpc_endpoint_map] is keyed by Vpc,
    address, port and protocol, [service_affinity_map] by Service and client. *)
Record svc_world := MkSvcWorld {
  service_map : gmap ServiceKey ServiceVal;
  backend_map : gmap BackendKey BackendVal;
  service_acl_map : gset ServiceAclKey;
  vpc_endpoint_map : gmap (Z * ServiceKey) Z;
  service_affinity_map : gmap (ServiceKey * Z) Affinity.affinityVal }.

(** The packet of a Pod: the Vpc of its Subnet, its addresses and ports, and
    whether the route was that of an endpoint pool. *)
Record svc_packet := MkSvcPacket {
  pk_vpc : Z; pk_saddr : Z; pk_daddr : Z; pk_sport : Z; pk_dport : Z; pk_proto : Z; pk_via_pool : bool }.

Inductive svc_path := HostLocal | HostRemote | CrossVpc | SameVpc.
Inductive svc_action := SvcDrop | SvcTo (bv : BackendVal) (path : svc_path).

#[global] Instance svc_path_eq_dec : EqDecision svc_path.
Proof. solve_decision. Defined.
#[global] Instance svc_action_eq_dec : EqDecision svc_action.
Proof. solve_decision. Defined.

Definition hash_tuple (saddr daddr sport dport proto : Z) : Z :=
  let h := Z.lxor saddr (u32 (daddr * 0x9e3779b1)) in
  let h := Z.lxor h (Z.lor (Z.shiftl sport 16) dport) in
  let h := Z.lxor h (u32 (proto * 0x85ebca6b)) in
  Z.lxor h (Z.shiftr h 16).

Definition NSEC_PER_SEC : Z := 1000000000.

Definition flagged (flags f : Z) : bool := negb (Z.land flags f =? 0).

(** The index, and the affinity map it leaves. *)
Definition select_backend_index (pk : svc_packet) (sk : ServiceKey) (sv : ServiceVal)
  (now : Z) (affinity : gmap (ServiceKey * Z) Affinity.affinityVal) : Z * gmap (ServiceKey * Z) Affinity.affinityVal :=
  let idx := hash_tuple (pk_saddr pk) (pk_daddr pk) (pk_sport pk) (pk_dport pk) (pk_proto pk) mod sv_BackendCount sv in
  if negb (flagged (sv_Flags sv) svcFlagAffinityClientIP) || (sv_AffinitySec sv =? 0) then (idx, affinity) else
  let ak := (sk, pk_saddr pk) in
  let ttl_ns := u64 (sv_AffinitySec sv * NSEC_PER_SEC) in
  let fresh idx := (idx, <[ak := Affinity.MkVal idx (sv_Gen sv) (u64 (now + ttl_ns))]> affinity) in
  match affinity !! ak with
  | Some cached =>
      if (Affinity.BackendGen cached =? sv_Gen sv) && (Affinity.BackendIndex cached <? sv_BackendCount sv) &&
         (now <? Affinity.ExpiresAtNs cached)
      then fresh (Affinity.BackendIndex cached) else fresh idx
  | None => fresh idx
  end.

(** The tuple looked up in [service_map]: a VpcEndpoint stands for the cluster
    address of its Service. *)
Definition service_key_of (w : svc_world) (pk : svc_packet) : option ServiceKey :=
  let sk := MkServiceKey (pk_daddr pk) (pk_dport pk) (pk_proto pk) in
  if pk_via_pool pk then option_map (fun ip => MkServiceKey ip (pk_dport pk) (pk_proto pk)) (vpc_endpoint_map w !! (pk_vpc pk, sk))
  else Some sk.

(** The checks on the caller. *)
Definition caller_admitted (w : svc_world) (pk : svc_packet) (sk : ServiceKey) (sv : ServiceVal) : bool :=
  let is_shared := flagged (sv_Flags sv) svcFlagShared in
  if negb (sv_OwnerVpcId sv =? pk_vpc pk) && negb is_shared && negb (pk_via_pool pk) then false
  else if negb (pk_via_pool pk) && is_shared && negb (sv_OwnerVpcId sv =? pk_vpc pk) && flagged (sv_Flags sv) svcFlagHasACL
  then bool_decide (MkAclKey sk (pk_vpc pk) ∈ service_acl_map w)
  else true.

Definition path_of (pk : svc_packet) (sv : ServiceVal) (bv : BackendVal) : svc_path :=
  if bv_Kind bv =? backendKindHostLocal then HostLocal
  else if (bv_Kind bv =? backendKindHostRemote) || ((bv_Kind bv =? backendKindPod) && (bv_SubnetId bv =? backendSubnetIDUnderlay))
  then HostRemote
  else if negb (sv_OwnerVpcId sv =? pk_vpc pk) then CrossVpc else SameVpc.

Definition handle_service (w : svc_world) (pk : svc_packet) (now : Z) : svc_action * gmap (ServiceKey * Z) Affinity.affinityVal :=
  let drop := (SvcDrop, service_affinity_map w) in
  match service_key_of w pk with
  | None => drop
  | Some sk =>
      match service_map w !! sk with
      | None => drop
      | Some sv =>
          if negb (caller_admitted w pk sk sv) then drop
          else if sv_BackendCount sv =? 0 then drop
          else
            let '(idx, affinity) := select_backend_index pk sk sv now (service_affinity_map w) in
            match backend_map w !! MkBackendKey sk idx with
            | None => (SvcDrop, affinity)
            | Some bv => (SvcTo bv (path_of pk sv bv), affinity)
            end
      end
  end.
