(* ===== verification/ServiceMaps.v ===== *)
(** * ServiceMaps: what a run of the Service reconciler leaves in the maps

    [svc_server]: the objects of the API server and the documented behaviour
    of BPF hash maps.  The writes of [programService] and the deletes of
    [pruneStale], as changes of the maps, and what [upsert] reads. *)

From stdpp Require Import base gmap strings list fin_maps.
From Stdlib Require Import ZArith Lia.
From S2P Require Import Prelude Effects Kube PodNetwork PolicyStores AddressPlan NodeTables ServiceTypes.
From S2P Require Import ServiceReconciler ServiceDataplane.

Open Scope Z_scope.

#[local] Arguments wrapU : simpl never.

(** ** The outside world *)

Record svc_api := MkSvcApi {
  api_service : gmap (string * string) Service;
  api_vpc : gmap string (AddressPlan.Vpc * VpcStatus);
  api_slices : string -> string -> list EndpointSlice;
  api_interfaces : string -> string -> list NetworkInterface;
  api_subnet : gmap string SubnetObject }.

Definition set_service (w : svc_world) m : svc_world :=
  MkSvcWorld m (backend_map w) (service_acl_map w) (vpc_endpoint_map w) (service_affinity_map w).
Definition set_backend (w : svc_world) m : svc_world :=
  MkSvcWorld (service_map w) m (service_acl_map w) (vpc_endpoint_map w) (service_affinity_map w).
Definition set_acl (w : svc_world) m : svc_world :=
  MkSvcWorld (service_map w) (backend_map w) m (vpc_endpoint_map w) (service_affinity_map w).

(** Any read may fail; an object that is reported missing is. *)
Definition reads {A} (x : option A) (r : result api_error A) : Prop :=
  match r with Ok a => x = Some a | Err NotFound => x = None | Err _ => True end.

(** A call that fails has no effect; a delete that finds no entry has none
    either. *)
Definition updates (w w1 : svc_world) (faulty : bool) (r : result bpf_error unit) (w' : svc_world) : Prop :=
  match r with Ok _ => w' = w1 | Err _ => w' = w /\ faulty = true end.
Definition deletes (w w1 : svc_world) (faulty : bool) (r : result bpf_error unit) (w' : svc_world) : Prop :=
  match r with Ok _ => w' = w1 | Err ErrKeyNotExist => w1 = w /\ w' = w | Err _ => w' = w /\ faulty = true end.

Section Server.
Variables (api : svc_api) (faulty : forall R, svc_call R -> bool).

Definition svc_server : server svc_call svc_world := fun R e w =>
  match e in svc_call R return R -> svc_world -> Prop with
  | GetService ns name => fun r w' => w' = w /\ reads (api_service api !! (ns, name)) r
  | SvcGetVpc name => fun r w' => w' = w /\ reads (api_vpc api !! name) r
  | ListEndpointSlices ns name => fun r w' => w' = w /\ match r with Ok l => l = api_slices api ns name | Err _ => True end
  | ListPodInterfaces ns pod => fun r w' => w' = w /\ match r with Ok l => l = api_interfaces api ns pod | Err _ => True end
  | SvcGetSubnet name => fun r w' => w' = w /\ reads (api_subnet api !! name) r
  | SvcListServices => fun r w' => w' = w
  | ServiceMapUpdate k v => updates w (set_service w (<[k := v]> (service_map w))) (faulty _ (ServiceMapUpdate k v))
  | ServiceMapDelete k => deletes w (set_service w (delete k (service_map w))) (faulty _ (ServiceMapDelete k))
  | BackendMapUpdate k v => updates w (set_backend w (<[k := v]> (backend_map w))) (faulty _ (BackendMapUpdate k v))
  | BackendMapDelete k => deletes w (set_backend w (delete k (backend_map w))) (faulty _ (BackendMapDelete k))
  | ServiceAclMapUpdate k => updates w (set_acl w ({[k]} ∪ service_acl_map w)) (faulty _ (ServiceAclMapUpdate k))
  | ServiceAclMapDelete k => deletes w (set_acl w (service_acl_map w ∖ {[k]})) (faulty _ (ServiceAclMapDelete k))
  end.
End Server.

(** ** Entries *)

Definition insert_all {K V} `{Countable K} (l : list (K * V)) (m : gmap K V) : gmap K V :=
  foldl (fun m kv => <[kv.1 := kv.2]> m) m l.

Lemma insert_all_app {K V} `{Countable K} (l l' : list (K * V)) m : insert_all (l ++ l') m = insert_all l' (insert_all l m).
Proof. unfold insert_all. by rewrite foldl_app. Qed.

Lemma insert_all_notin {K V} `{Countable K} (l : list (K * V)) m k : k ∉ l.*1 -> insert_all l m !! k = m !! k.
Proof.
  revert m. induction l as [|[k' v] l IH]; intros m Hk; cbn; [done|]. cbn in Hk. apply not_elem_of_cons in Hk as [Hne Hk].
  unfold insert_all in IH. rewrite IH by done. by rewrite lookup_insert_ne.
Qed.

(** A key the list gives one value gets it. *)
Lemma insert_all_in {K V} `{EqDecision V, Countable K} (l : list (K * V)) m k v :
  (forall v', (k, v') ∈ l -> v' = v) -> (k, v) ∈ l -> insert_all l m !! k = Some v.
Proof.
  revert m. induction l as [|[k' v'] l IH]; intros m Hf Hin; [by apply elem_of_nil in Hin|].
  destruct (decide ((k, v) ∈ l)) as [Hl|Hl].
  { apply (IH (<[k' := v']> m)); [|done]. intros u Hu. apply Hf. by constructor. }
  apply elem_of_cons in Hin as [[= -> ->]|Hin]; [|done].
  change (insert_all l (<[k' := v']> m) !! k' = Some v'). rewrite insert_all_notin; [by rewrite lookup_insert_eq|].
  intros [[k u] [-> Hu]]%list_elem_of_fmap. cbn in Hl. apply Hl. rewrite <- (Hf u) at 1; [done|by constructor].
Qed.

#[global] Arguments insert_all : simpl never.

Record entries := MkEntries { e_services : list (ServiceKey * ServiceVal); e_backends : list (BackendKey * BackendVal); e_acls : list ServiceAclKey }.

Definition no_entries : entries := MkEntries [] [] [].
Definition entries_app (a b : entries) : entries :=
  MkEntries (e_services a ++ e_services b) (e_backends a ++ e_backends b) (e_acls a ++ e_acls b).
Definition entries_of {X} (f : X -> entries) (l : list X) : entries := foldr (fun x => entries_app (f x)) no_entries l.

Definition write (e : entries) (w : svc_world) : svc_world :=
  MkSvcWorld (insert_all (e_services e) (service_map w)) (insert_all (e_backends e) (backend_map w))
    (list_to_set (e_acls e) ∪ service_acl_map w) (vpc_endpoint_map w) (service_affinity_map w).

Lemma entries_app_assoc a b c : entries_app a (entries_app b c) = entries_app (entries_app a b) c.
Proof. unfold entries_app. cbn. by rewrite !app_assoc. Qed.

Lemma entries_app_nil a : entries_app a no_entries = a.
Proof. unfold entries_app, no_entries. cbn. rewrite !app_nil_r. by destruct a. Qed.

Lemma entries_of_snoc {X} (f : X -> entries) l x : entries_of f (l ++ [x]) = entries_app (entries_of f l) (f x).
Proof.
  induction l as [|y l IH]; cbn.
  - by rewrite entries_app_nil; destruct (f x).
  - unfold entries_of in IH. by rewrite IH, entries_app_assoc.
Qed.

Lemma write_app a b w : write b (write a w) = write (entries_app a b) w.
Proof.
  unfold write, entries_app. cbn. rewrite !insert_all_app, list_to_set_app_L. f_equal. set_solver.
Qed.

Lemma write_none w : write no_entries w = w.
Proof. unfold write. cbn. destruct w; cbn. f_equal. set_solver. Qed.

Lemma entries_of_services {X} (f : X -> entries) l : e_services (entries_of f l) = x ← l; e_services (f x).
Proof. induction l as [|x l IH]; cbn; [done|]. unfold entries_of in IH. by rewrite IH. Qed.
Lemma entries_of_backends {X} (f : X -> entries) l : e_backends (entries_of f l) = x ← l; e_backends (f x).
Proof. induction l as [|x l IH]; cbn; [done|]. unfold entries_of in IH. by rewrite IH. Qed.
Lemma entries_of_acls {X} (f : X -> entries) l : e_acls (entries_of f l) = x ← l; e_acls (f x).
Proof. induction l as [|x l IH]; cbn; [done|]. unfold entries_of in IH. by rewrite IH. Qed.

(** The record of the entries in a snapshot. *)
Definition snap_add (s : programSnapshot) (e : entries) : programSnapshot :=
  MkSnapshot (serviceKeys s ++ (e_services e).*1) (backendKeys s ++ (e_backends e).*1) (aclKeys s ++ e_acls e)
    (backendSig s) (snap_gen s).

Lemma snap_add_app s a b : snap_add (snap_add s a) b = snap_add s (entries_app a b).
Proof. unfold snap_add, entries_app. cbn. by rewrite !fmap_app, !app_assoc. Qed.

Lemma snap_add_none s : snap_add s no_entries = s.
Proof. unfold snap_add. cbn. rewrite !app_nil_r. by destruct s. Qed.

(** ** programService *)

Section Program.
Variables (api : svc_api) (faulty : forall R, svc_call R -> bool).
Hypothesis reliable : forall R e, faulty R e = false.

#[local] Abbreviation srv := (svc_server api faulty).

(** The entries of one port of one address. *)
Definition port_entries (vpcID affinitySec flags gen : Z) (m : backendMap) (allowed : list Z) (hasACL : bool)
  (vip : Z) (port : ServicePort) : entries :=
  let proto := protoToU8 (sp_Protocol port) in
  if proto =? 0 then no_entries else
  let key := MkServiceKey vip (u16 (sp_Port port)) proto in
  MkEntries [(key, MkServiceVal vpcID (u32 (Z.of_nat (length (backendsOf m port)))) affinitySec flags gen)]
    (imap (fun idx rb => (MkBackendKey key (u32 (Z.of_nat idx)), rb_val rb)) (backendsOf m port))
    (if hasACL then MkAclKey key <$> allowed else []).

Definition service_entries (svc : Service) (vips : list Z) (vpcID affinitySec flags gen : Z) (m : backendMap)
  (allowed : list Z) (hasACL : bool) : entries :=
  entries_of (fun vip => entries_of (port_entries vpcID affinitySec flags gen m allowed hasACL vip) (svc_Ports svc)) vips.

Lemma updates_ok w w1 R (e : svc_call R) r w' : updates w w1 (faulty _ e) r w' -> r = Ok tt /\ w' = w1.
Proof. destruct r as [[]|]; cbn; [done|]. intros [_ H]. by rewrite reliable in H. Qed.

Lemma deletes_ok w w1 R (e : svc_call R) r w' : deletes w w1 (faulty _ e) r w' -> w' = w1.
Proof. destruct r as [[]|[|]]; cbn; [done|by intros [-> ->]|]. intros [_ H]. by rewrite reliable in H. Qed.

(** A loop that writes one piece per element. *)
Lemma writes_loop {X} (f : X -> entries) (l : list X) out (body : X -> programSnapshot -> prog svc_call (result svc_error programSnapshot)) w :
  (forall x out w, x ∈ l -> wp srv (body x out) (fun r w' => r = Ok (snap_add out (f x)) /\ w' = write (f x) w) w) ->
  wp srv (forTryP l out body) (fun r w' => r = Ok (snap_add out (entries_of f l)) /\ w' = write (entries_of f l) w) w.
Proof.
  intros Hb. apply (wp_forTryP _ _ _ _ (fun pre out' w' => out' = snap_add out (entries_of f pre) /\ w' = write (entries_of f pre) w)).
  - by rewrite snap_add_none, write_none.
  - intros pre x post out' w' Hl [-> ->]. eapply wp_mono; [apply Hb; rewrite Hl; set_solver|].
    intros r w' [-> ->]. by rewrite snap_add_app, write_app, entries_of_snoc.
  - by intros out' w' [-> ->].
Qed.

Lemma programPort_wp vpcID aff flags gen m allowed hasACL vip port out w :
  wp srv (programPort vpcID aff flags gen m allowed hasACL vip port out)
    (fun r w' => r = Ok (snap_add out (port_entries vpcID aff flags gen m allowed hasACL vip port)) /\
                 w' = write (port_entries vpcID aff flags gen m allowed hasACL vip port) w) w.
Proof.
  unfold programPort, port_entries. destruct (protoToU8 (sp_Protocol port) =? 0) eqn:Hp.
  { cbn. by rewrite snap_add_none, write_none. }
  set (key := MkServiceKey vip (u16 (sp_Port port)) (protoToU8 (sp_Protocol port))).
  set (val := MkServiceVal vpcID _ aff flags gen).
  set (bs := imap _ _). cbn [tryP bind mapUpdate call wp]. intros r w1 [-> ->]%updates_ok. cbn [res_map_err].
  set (out1 := MkSnapshot _ _ _ _ _).
  apply wp_tryP. eapply wp_mono.
  { apply (writes_loop (fun kv => MkEntries [] [kv] []) bs out1). intros [k v] o w1 _. cbn [tryP bind mapUpdate call wp].
    intros r w2 [-> ->]%updates_ok. cbn. split; [unfold snap_add; cbn; by rewrite !app_nil_r|].
    unfold write, set_backend. cbn. f_equal. set_solver. }
  intros r w2 [-> ->]. set (eb := entries_of _ bs).
  assert (Heb : eb = MkEntries [] bs []).
  { unfold eb. clear. induction bs as [|b bs IH]; cbn; [done|]. unfold entries_of in IH. by rewrite IH. }
  rewrite Heb. clear Heb eb. destruct hasACL.
  - eapply wp_mono.
    { apply (writes_loop (fun v => MkEntries [] [] [MkAclKey key v]) allowed). intros v o w3 _. cbn [tryP bind mapUpdate call wp].
      intros r w4 [-> ->]%updates_ok. cbn. split; [unfold snap_add; cbn; by rewrite !app_nil_r|].
      unfold write, set_acl. cbn. f_equal. set_solver. }
    intros r w3 [-> ->]. set (ea := entries_of _ allowed).
    assert (Hea : ea = MkEntries [] [] (MkAclKey key <$> allowed)).
    { unfold ea. clear. induction allowed as [|b bs IH]; cbn; [done|]. unfold entries_of in IH. by rewrite IH. }
    rewrite Hea. unfold snap_add, write, set_service. cbn. rewrite !app_nil_r. split; [done|]. f_equal. set_solver.
  - cbn. unfold snap_add, write, set_service. cbn. rewrite !app_nil_r. split; [done|]. f_equal.
Qed.

(** The new generation of the backend set. *)
Definition next_gen (sig : string) (prev : programSnapshot) : Z :=
  if String.eqb sig (backendSig prev) then snap_gen prev else u32 (snap_gen prev + 1).

Definition service_sig (sha256 : list Z -> string) (svc : Service) (m : backendMap) (hasACL : bool) : string :=
  backendSignature sha256 svc (serviceFlags svc (SelectionPolicyOf svc) hasACL)
    (affinitySecondsClamp (Affinity (SelectionPolicyOf svc))) m.

(** Everything the maps are to hold of a Service. *)
Definition desired_entries (sha256 : list Z -> string) (svc : Service) (clusterIP vpcID : Z) (m : backendMap) (allowed : list Z) (hasACL : bool)
  (prev : programSnapshot) : entries :=
  service_entries svc (vipsForService svc clusterIP) vpcID (affinitySecondsClamp (Affinity (SelectionPolicyOf svc)))
    (serviceFlags svc (SelectionPolicyOf svc) hasACL) (next_gen (service_sig sha256 svc m hasACL) prev) m allowed hasACL.

Lemma programService_wp sha256 svc clusterIP vpcID m allowed hasACL prev w :
  let e := desired_entries sha256 svc clusterIP vpcID m allowed hasACL prev in
  let sig := service_sig sha256 svc m hasACL in
  wp srv (programService sha256 svc clusterIP vpcID (SelectionPolicyOf svc) m allowed hasACL prev)
    (fun r w' => r = Ok (snap_add (MkSnapshot [] [] [] sig (next_gen sig prev)) e) /\ w' = write e w) w.
Proof.
  unfold programService, desired_entries, service_entries. cbv zeta. fold (service_sig sha256 svc m hasACL).
  fold (next_gen (service_sig sha256 svc m hasACL) prev).
  apply writes_loop. intros vip out w1 _. apply writes_loop. intros port out' w2 _. apply programPort_wp.
Qed.

(** ** Deletes *)

Definition remove_keys (sks : list ServiceKey) (bks : list BackendKey) (aks : list ServiceAclKey) (w : svc_world) : svc_world :=
  MkSvcWorld (filter (fun kv => kv.1 ∉ sks) (service_map w)) (filter (fun kv => kv.1 ∉ bks) (backend_map w))
    (service_acl_map w ∖ list_to_set aks) (vpc_endpoint_map w) (service_affinity_map w).

Lemma deleteEach_wp {K} (del : K -> svc_call (result bpf_error unit)) (rm : K -> svc_world -> svc_world) keys w :
  (forall k w r w', srv _ (del k) w r w' -> w' = rm k w) ->
  wp srv (deleteEach del keys) (fun _ w' => w' = foldl (fun w k => rm k w) w keys) w.
Proof.
  intros Hd. unfold deleteEach. apply (wp_forP_prefix _ _ _ _ (fun pre _ w' => w' = foldl (fun w k => rm k w) w pre)); [done|].
  intros pre k post _ w' _ ->. cbn [bind call wp]. intros r w1 Hr. rewrite foldl_app. cbn. by eapply Hd.
Qed.

Lemma filter_notin_nil {K V} `{Countable K} (m : gmap K V) : filter (fun kv => kv.1 ∉ ([] : list K)) m = m.
Proof. apply map_filter_id. intros i x _. apply not_elem_of_nil. Qed.

Lemma filter_notin_delete {K V} `{Countable K} (m : gmap K V) k ks :
  filter (fun kv => kv.1 ∉ ks) (delete k m) = filter (fun kv => kv.1 ∉ k :: ks) m.
Proof.
  apply map_eq. intros i. apply option_eq. intros x. rewrite !map_lookup_filter_Some. cbn. rewrite lookup_delete_Some, not_elem_of_cons. naive_solver.
Qed.

Lemma remove_all sks bks aks w :
  foldl (fun w k => set_acl w (service_acl_map w ∖ {[k]}))
    (foldl (fun w k => set_backend w (delete k (backend_map w)))
      (foldl (fun w k => set_service w (delete k (service_map w))) w sks) bks) aks = remove_keys sks bks aks w.
Proof.
  assert (H1 : forall sks w, foldl (fun w k => set_service w (delete k (service_map w))) w sks =
    set_service w (filter (fun kv => kv.1 ∉ sks) (service_map w))).
  { clear. induction sks as [|k sks IH]; intros w; cbn; [rewrite filter_notin_nil; by destruct w|]. rewrite IH. unfold set_service. cbn.
    by rewrite filter_notin_delete. }
  assert (H2 : forall bks w, foldl (fun w k => set_backend w (delete k (backend_map w))) w bks =
    set_backend w (filter (fun kv => kv.1 ∉ bks) (backend_map w))).
  { clear. induction bks as [|k sks IH]; intros w; cbn; [rewrite filter_notin_nil; by destruct w|]. rewrite IH. unfold set_backend. cbn.
    by rewrite filter_notin_delete. }
  assert (H3 : forall aks w, foldl (fun w k => set_acl w (service_acl_map w ∖ {[k]})) w aks =
    set_acl w (service_acl_map w ∖ list_to_set aks)).
  { clear. induction aks as [|k sks IH]; intros w; cbn; [destruct w; cbn; unfold set_acl; cbn; f_equal; set_solver|]. rewrite IH.
    unfold set_acl. cbn. f_equal. set_solver. }
  by rewrite H1, H2, H3.
Qed.

Lemma delete_lists_wp sks bks aks w :
  wp srv (bind (deleteEach ServiceMapDelete sks) (fun _ => bind (deleteEach BackendMapDelete bks) (fun _ =>
    deleteEach ServiceAclMapDelete aks))) (fun _ w' => w' = remove_keys sks bks aks w) w.
Proof.
  apply wp_bind. eapply wp_mono; [apply (deleteEach_wp _ (fun k w => set_service w (delete k (service_map w))));
    intros k w0 r w' Hr; by apply deletes_ok in Hr|]. intros _ w1 ->.
  apply wp_bind. eapply wp_mono; [apply (deleteEach_wp _ (fun k w => set_backend w (delete k (backend_map w))));
    intros k w0 r w' Hr; by apply deletes_ok in Hr|]. intros _ w1 ->.
  eapply wp_mono; [apply (deleteEach_wp _ (fun k w => set_acl w (service_acl_map w ∖ {[k]})));
    intros k w0 r w' Hr; by apply deletes_ok in Hr|]. intros _ w1 ->. apply remove_all.
Qed.
End Program.
