(* ===== verification/ServiceBackends.v ===== *)
(** * ServiceBackends: which endpoints become backends

    The backends of a Service port as its objects define them, and that
    [svc_desired] computes exactly those. *)

From stdpp Require Import base gmap strings list fin_maps.
From Stdlib Require Import ZArith Lia.
From S2P Require Import Prelude Effects Kube PodNetwork PolicyStores AddressPlan NodeTables ServiceTypes.
From S2P Require Import ServiceReconciler ServiceDataplane ServiceMaps.

Open Scope Z_scope.

#[local] Arguments wrapU : simpl never.

Section Backends.
Variables (api : svc_api) (nodeIP : option Z) (nodeName : string).

(** The primary interface of the Pod behind an endpoint. *)
Definition pod_interface (ep : endpointInfo) : option NetworkInterface :=
  match ei_targetRef ep with
  | Some ref => if String.eqb (ref_Kind ref) "Pod" then head (api_interfaces api (ref_Namespace ref) (ref_Name ref)) else None
  | None => None
  end.

(** Where an endpoint is reached: on the underlay when no interface of a Pod
    stands behind it, in the segment of a Subnet of the Vpc otherwise. *)
Definition segment (vpcName : string) (ip : Z) (ep : endpointInfo) : option (Z * Z) :=
  match pod_interface ep with
  | None => Some (if bool_decide (nodeIP = Some ip) then backendKindHostLocal else backendKindHostRemote, backendSubnetIDUnderlay)
  | Some nic =>
      if bool_decide (nic_ElasticIP (nic_spec nic) = EmptyString /\ nic_L2Network (nic_spec nic) = EmptyString) then
        match api_subnet api !! nic_Subnet (nic_spec nic) with
        | Some s => if bool_decide (so_Vpc s = vpcName /\ so_VNI s <> 0) then Some (backendKindPod, so_VNI s) else None
        | None => None
        end
      else None
  end.

Definition candidate (vpcName : string) (port : ServicePort) (ep : endpointInfo) : option resolvedBackend :=
  match ipv4Of (ei_address ep) with
  | None => None
  | Some ip =>
      match segment vpcName ip ep with
      | None => None
      | Some (kind, subnetID) =>
          Some (MkResolved port (MkBackendVal ip (u16 (ei_port ep)) kind subnetID) (ei_nodeName ep)
                  (ei_ready ep) (ei_serving ep) (ei_terminating ep))
      end
  end.

Definition svc_rows (svc : Service) : list endpointInfo := collectRows (api_slices api (svc_Namespace svc) (svc_Name svc)).

(** The reachable endpoints of a port, those of this node under
    [internalTrafficPolicy: Local]. *)
Definition reachable (svc : Service) (port : ServicePort) : list resolvedBackend :=
  let all := omap (candidate (OwningVpc svc) port) (matchEndpointsForPort (svc_rows svc) port) in
  if InternalLocal (SelectionPolicyOf svc) then retainLocal all nodeName else all.

Definition svc_backends (svc : Service) (port : ServicePort) : list resolvedBackend := admitByConditions (reachable svc port).

(** A backend is a reachable endpoint that is ready, or one that still serves
    and does not terminate when no reachable endpoint is ready. *)
Lemma svc_backends_spec svc port rb :
  rb ∈ svc_backends svc port <->
  rb ∈ reachable svc port /\
  (rb_ready rb = true \/
   (forall rb', rb' ∈ reachable svc port -> rb_ready rb' = false) /\ rb_serving rb = true /\ rb_terminating rb = false).
Proof.
  unfold svc_backends, admitByConditions.
  assert (Hin : forall f (l : list resolvedBackend) x, x ∈ List.filter f l <-> x ∈ l /\ f x = true).
  { intros f l x. rewrite !list_elem_of_In. apply filter_In. }
  destruct (List.filter rb_ready (reachable svc port)) as [|r l] eqn:Hf.
  - assert (Hnone : forall rb', rb' ∈ reachable svc port -> rb_ready rb' = false).
    { intros rb' H. destruct (rb_ready rb') eqn:Hr; [|done].
      assert (Hx : rb' ∈ List.filter rb_ready (reachable svc port)) by by apply Hin. rewrite Hf in Hx. by apply elem_of_nil in Hx. }
    rewrite Hin, !andb_true_iff, !negb_true_iff. split.
    + intros (H1 & H2 & H3 & H4). auto.
    + intros [H1 [H2|(H2 & H3 & H4)]]; [by rewrite Hnone in H2|]. auto.
  - rewrite <- Hf, Hin. split.
    + intros [H1 H2]. auto.
    + intros [H1 [H2|(H2 & _)]]; [done|]. exfalso.
      assert (Hr : r ∈ List.filter rb_ready (reachable svc port)) by (rewrite Hf; constructor). apply Hin in Hr as [Hr1 Hr2].
      by rewrite H2 in Hr2.
Qed.

(** ** The backends the objects give *)

(** A port of a slice serves the port of the Service that has its name, or
    has none. *)
Definition port_named (port : ServicePort) (p : option string * option Z) : Prop :=
  sp_Name port = ""%string \/ default ""%string p.1 = sp_Name port.

(** The first interface of the Pod an endpoint names. *)
Definition interface_of (target : option ObjectReference) (nic : NetworkInterface) : Prop :=
  exists ref nics, target = Some ref /\ ref_Kind ref = "Pod"%string /\
    api_interfaces api (ref_Namespace ref) (ref_Name ref) = nic :: nics.

(** Where an endpoint with an address is reached: at this node or on the
    underlay when no interface stands behind it, and in the segment of its
    Subnet when that is of the Vpc; no other endpoint is reached. *)
Inductive reached_at (vpcName : string) (ip : Z) (target : option ObjectReference) : Z -> Z -> Prop :=
| at_this_node : (forall nic, ~ interface_of target nic) -> nodeIP = Some ip ->
    reached_at vpcName ip target backendKindHostLocal backendSubnetIDUnderlay
| on_the_underlay : (forall nic, ~ interface_of target nic) -> nodeIP <> Some ip ->
    reached_at vpcName ip target backendKindHostRemote backendSubnetIDUnderlay
| in_the_subnet nic s :
    interface_of target nic -> nic_ElasticIP (nic_spec nic) = ""%string -> nic_L2Network (nic_spec nic) = ""%string ->
    api_subnet api !! nic_Subnet (nic_spec nic) = Some s -> so_Vpc s = vpcName -> so_VNI s <> 0 ->
    reached_at vpcName ip target backendKindPod (so_VNI s).

(** An IPv4 slice of the Service offers an endpoint for a port, at one of the
    addresses of the endpoint; under [internalTrafficPolicy: Local] the
    endpoint is of this node. *)
Definition offers (svc : Service) (port : ServicePort) (ep : Endpoint) (bv : BackendVal) : Prop :=
  exists slice address p ip kind subnetID,
    slice ∈ api_slices api (svc_Namespace svc) (svc_Name svc) /\ es_AddressType slice = "IPv4"%string /\
    ep ∈ es_Endpoints slice /\ address ∈ ep_Addresses ep /\ p ∈ es_Ports slice /\ port_named port p /\
    ipv4Of address = Some ip /\ reached_at (OwningVpc svc) ip (ep_TargetRef ep) kind subnetID /\
    (svc_InternalTrafficPolicy svc = Some "Local"%string -> nodeName <> ""%string /\ ep_NodeName ep = Some nodeName) /\
    bv = MkBackendVal ip (u16 (default 0 p.2)) kind subnetID.

(** The conditions of an endpoint, as [discovery.k8s.io] defaults them. *)
Definition is_ready (ep : Endpoint) : Prop := ep_Ready ep <> Some false.
Definition is_serving (ep : Endpoint) : Prop := ep_Serving ep = Some true \/ ep_Serving ep = None /\ is_ready ep.
Definition is_terminating (ep : Endpoint) : Prop := ep_Terminating ep = Some true.

(** A backend is an endpoint on offer that is ready or, when none is, one that
    still serves and does not terminate. *)
Definition is_backend (svc : Service) (port : ServicePort) (bv : BackendVal) : Prop :=
  exists ep, offers svc port ep bv /\
    (is_ready ep \/
     (forall ep' bv', offers svc port ep' bv' -> ~ is_ready ep') /\ is_serving ep /\ ~ is_terminating ep).

Lemma pod_interface_spec ep nic : pod_interface ep = Some nic <-> interface_of (ei_targetRef ep) nic.
Proof.
  unfold pod_interface, interface_of. destruct (ei_targetRef ep) as [ref|]; [|naive_solver].
  destruct (String.eqb_spec (ref_Kind ref) "Pod") as [Hk|Hk]; [|naive_solver].
  destruct (api_interfaces api (ref_Namespace ref) (ref_Name ref)) as [|n l] eqn:Hl; cbn; split.
  1, 3: by intros [= <-]; exists ref, l.
  all: intros (r & nics & [= <-] & _ & Hr); congruence.
Qed.

Lemma segment_spec vpcName ip ep kind subnetID :
  segment vpcName ip ep = Some (kind, subnetID) <-> reached_at vpcName ip (ei_targetRef ep) kind subnetID.
Proof.
  unfold segment. destruct (pod_interface ep) as [nic|] eqn:Hp.
  - apply pod_interface_spec in Hp. split.
    + case_bool_decide as He; [|done]. destruct (api_subnet api !! _) as [s|] eqn:Hs; [|done].
      case_bool_decide as Hv; [|done]. intros [= <- <-]. destruct He, Hv. by eapply in_the_subnet.
    + intros H. inversion H as [Hn|Hn|nic' s Hi He H2 Hs Hv Hz]; subst; try (by destruct (Hn nic)).
      apply pod_interface_spec in Hi, Hp. assert (nic' = nic) as -> by congruence.
      by rewrite bool_decide_eq_true_2, Hs, bool_decide_eq_true_2 by done.
  - assert (Hn : forall nic, ~ interface_of (ei_targetRef ep) nic) by (intros nic Hi%pod_interface_spec; congruence). split.
    + case_bool_decide; intros [= <- <-]; by constructor.
    + intros H. inversion H as [? Hip|? Hip|nic s Hi]; subst; [by rewrite bool_decide_eq_true_2|by rewrite bool_decide_eq_false_2|].
      by destruct (Hn nic).
Qed.

(** The row of an endpoint for an address and a port of its slice. *)
Definition row_of (ep : Endpoint) (address : string) (p : option string * option Z) : endpointInfo :=
  MkEndpointInfo address (portValue p.2) (portName p.1) (ep_TargetRef ep) (default ""%string (ep_NodeName ep))
    (condBool (ep_Ready ep) true) (condBool (ep_Serving ep) (condBool (ep_Ready ep) true)) (condBool (ep_Terminating ep) false).

Lemma svc_rows_spec svc row :
  row ∈ svc_rows svc <->
  exists slice ep address p, slice ∈ api_slices api (svc_Namespace svc) (svc_Name svc) /\ es_AddressType slice = "IPv4"%string /\
    ep ∈ es_Endpoints slice /\ address ∈ ep_Addresses ep /\ p ∈ es_Ports slice /\ row = row_of ep address p.
Proof.
  unfold svc_rows, collectRows. rewrite list_elem_of_bind. split.
  - intros (slice & Hin & Hs). destruct (String.eqb_spec (es_AddressType slice) "IPv4") as [Ht|]; [|by apply elem_of_nil in Hin].
    apply list_elem_of_bind in Hin as (ep & Hin & He). apply list_elem_of_bind in Hin as (address & Hin & Ha).
    apply list_elem_of_bind in Hin as (p & Hin & Hp). apply list_elem_of_singleton in Hin as ->. by exists slice, ep, address, p.
  - intros (slice & ep & address & p & Hs & Ht & He & Ha & Hp & ->). exists slice. split; [|done].
    rewrite (proj2 (String.eqb_eq _ _) Ht). apply list_elem_of_bind. exists ep. split; [|done].
    apply list_elem_of_bind. exists address. split; [|done]. apply list_elem_of_bind. exists p. split; [|done]. by constructor.
Qed.

(** What the code resolves an offer to. *)
Definition resolved (port : ServicePort) (ep : Endpoint) (bv : BackendVal) : resolvedBackend :=
  MkResolved port bv (default ""%string (ep_NodeName ep)) (condBool (ep_Ready ep) true)
    (condBool (ep_Serving ep) (condBool (ep_Ready ep) true)) (condBool (ep_Terminating ep) false).

Lemma is_local_spec svc : InternalLocal (SelectionPolicyOf svc) = true <-> svc_InternalTrafficPolicy svc = Some "Local"%string.
Proof. cbn. destruct (svc_InternalTrafficPolicy svc) as [s|]; [|done]. rewrite String.eqb_eq. naive_solver. Qed.

Lemma retainLocal_spec l rb : rb ∈ retainLocal l nodeName <-> rb ∈ l /\ nodeName <> ""%string /\ rb_nodeName rb = nodeName.
Proof.
  unfold retainLocal. destruct (String.eqb_spec nodeName "") as [He|Hne].
  - split; [by intros ?%elem_of_nil|naive_solver].
  - rewrite !list_elem_of_In, filter_In, String.eqb_eq. naive_solver.
Qed.

Lemma candidates_spec svc port rb :
  rb ∈ omap (candidate (OwningVpc svc) port) (matchEndpointsForPort (svc_rows svc) port) <->
  exists slice ep address p ip kind subnetID,
    slice ∈ api_slices api (svc_Namespace svc) (svc_Name svc) /\ es_AddressType slice = "IPv4"%string /\
    ep ∈ es_Endpoints slice /\ address ∈ ep_Addresses ep /\ p ∈ es_Ports slice /\ port_named port p /\
    ipv4Of address = Some ip /\ reached_at (OwningVpc svc) ip (ep_TargetRef ep) kind subnetID /\
    rb = resolved port ep (MkBackendVal ip (u16 (default 0 p.2)) kind subnetID).
Proof.
  rewrite list_elem_of_omap. unfold matchEndpointsForPort. setoid_rewrite list_elem_of_In. setoid_rewrite filter_In.
  setoid_rewrite <- list_elem_of_In. setoid_rewrite svc_rows_spec. unfold candidate, port_named. split.
  - intros (row & [(slice & ep & address & p & Hs & Ht & He & Ha & Hp & ->) Hn] & Hc). cbn in Hn, Hc.
    destruct (ipv4Of address) as [ip|] eqn:Hip; [|done].
    destruct (segment _ ip _) as [[kind subnetID]|] eqn:Hseg; [|done]. injection Hc as <-. apply segment_spec in Hseg.
    exists slice, ep, address, p, ip, kind, subnetID. split_and!; try done. by rewrite orb_true_iff, !String.eqb_eq in Hn.
  - intros (slice & ep & address & p & ip & kind & subnetID & Hs & Ht & He & Ha & Hp & Hn & Hip & Hr & ->).
    exists (row_of ep address p). split; [split; [by exists slice, ep, address, p|by rewrite orb_true_iff, !String.eqb_eq]|].
    cbn. rewrite Hip. apply (segment_spec _ _ (row_of ep address p)) in Hr. by rewrite Hr.
Qed.

Lemma reachable_spec svc port rb :
  rb ∈ reachable svc port <-> exists ep bv, offers svc port ep bv /\ rb = resolved port ep bv.
Proof.
  unfold reachable, offers. destruct (InternalLocal (SelectionPolicyOf svc)) eqn:Hloc.
  - apply is_local_spec in Hloc. rewrite retainLocal_spec, candidates_spec. split.
    + intros [(slice & ep & address & p & ip & kind & subnetID & H1 & H2 & H3 & H4 & H5 & H6 & H7 & H8 & ->) [Hne Hn]].
      exists ep, (MkBackendVal ip (u16 (default 0 p.2)) kind subnetID). split; [|done].
      exists slice, address, p, ip, kind, subnetID. split_and!; try done. cbn in Hn. by destruct (ep_NodeName ep); cbn in Hn; subst.
    + intros (ep & bv & (slice & address & p & ip & kind & subnetID & H1 & H2 & H3 & H4 & H5 & H6 & H7 & H8 & H9 & ->) & ->).
      destruct (H9 Hloc) as [Hne Hn]. split; [|cbn; by rewrite Hn]. by exists slice, ep, address, p, ip, kind, subnetID.
  - assert (Hnl : svc_InternalTrafficPolicy svc <> Some "Local"%string) by (intros H%is_local_spec; congruence). rewrite candidates_spec. split.
    + intros (slice & ep & address & p & ip & kind & subnetID & H1 & H2 & H3 & H4 & H5 & H6 & H7 & H8 & ->).
      exists ep, (MkBackendVal ip (u16 (default 0 p.2)) kind subnetID). split; [|done].
      by exists slice, address, p, ip, kind, subnetID.
    + intros (ep & bv & (slice & address & p & ip & kind & subnetID & H1 & H2 & H3 & H4 & H5 & H6 & H7 & H8 & H9 & ->) & ->).
      by exists slice, ep, address, p, ip, kind, subnetID.
Qed.

Lemma resolved_ready port ep bv : rb_ready (resolved port ep bv) = true <-> is_ready ep.
Proof. unfold is_ready. cbn. by destruct (ep_Ready ep) as [[]|]. Qed.

(** The backends of a port are exactly those. *)
Lemma svc_backends_exact svc port bv : bv ∈ rb_val <$> svc_backends svc port <-> is_backend svc port bv.
Proof.
  assert (Hnone : (forall rb, rb ∈ reachable svc port -> rb_ready rb = false) <-> forall ep bv, offers svc port ep bv -> ~ is_ready ep).
  { split.
    - intros H ep bv' Ho Hr%(resolved_ready port ep bv'). rewrite H in Hr; [done|]. apply reachable_spec. by exists ep, bv'.
    - intros H rb (ep & bv' & Ho & ->)%reachable_spec. apply not_true_is_false. rewrite resolved_ready. by eapply H. }
  rewrite list_elem_of_fmap. setoid_rewrite svc_backends_spec. setoid_rewrite Hnone. setoid_rewrite reachable_spec. unfold is_backend. split.
  - intros (rb & -> & (ep & bv' & Ho & ->) & Hc). exists ep. split; [done|]. rewrite resolved_ready in Hc.
    destruct Hc as [|(Hn & Hs & Ht)]; [by left|right]. split; [done|]. specialize (Hn _ _ Ho). cbn in Hs, Ht.
    unfold is_serving, is_terminating, is_ready in *.
    destruct (ep_Ready ep) as [[]|], (ep_Serving ep) as [[]|], (ep_Terminating ep) as [[]|]; cbn in *; try done; naive_solver.
  - intros (ep & Ho & Hc). exists (resolved port ep bv). split; [done|]. split; [by exists ep, bv|]. rewrite resolved_ready.
    destruct Hc as [|(Hn & Hs & Ht)]; [by left|right]. split; [done|]. specialize (Hn _ _ Ho). cbn.
    unfold is_serving, is_terminating, is_ready in *.
    destruct (ep_Ready ep) as [[]|], (ep_Serving ep) as [[]|], (ep_Terminating ep) as [[]|]; cbn in *; try done; naive_solver.
Qed.

(** ** What the reconciler reads *)

Variable faulty : forall R, svc_call R -> bool.
#[local] Abbreviation srv := (svc_server api faulty).

(** A computation that only reads: a result without error is [x], and an
    error is not one of a map. *)
Definition read_failed (e : svc_error) : Prop := match e with SvcUpdate _ => False | _ => True end.

Definition computes {A} (p : prog svc_call (result svc_error A)) (x : A) (w : svc_world) : Prop :=
  wp srv p (fun r w' => w' = w /\ match r with Ok a => a = x | Err e => read_failed e end) w.

Lemma computes_tryP {A B} (p : prog svc_call (result svc_error A)) (k : A -> prog svc_call (result svc_error B)) x y w :
  computes p x w -> computes (k x) y w -> computes (tryP p k) y w.
Proof.
  intros Hp Hk. apply wp_tryP. eapply wp_mono; [exact Hp|]. intros [a|e] w' [-> Ha]; [by subst a|done].
Qed.

Lemma computes_forTryP {S X} (l : list X) (s : S) (body : X -> S -> prog svc_call (result svc_error S)) (f : S -> X -> S) w :
  (forall x s, x ∈ l -> computes (body x s) (f s x) w) -> computes (forTryP l s body) (foldl f s l) w.
Proof.
  intros Hb. unfold computes. apply (wp_forTryP _ _ _ _ (fun pre s' w' => w' = w /\ s' = foldl f s pre)); [done| |].
  - intros pre x post s' w' Hl [-> ->]. eapply wp_mono; [apply Hb; rewrite Hl; set_solver|].
    intros [a|e] w' [-> Ha]; [|done]. rewrite foldl_app. cbn. by subst a.
  - intros s' w' [-> ->]. done.
Qed.

Lemma resolveBackend_computes vpcName port ep w :
  computes (resolveBackend nodeIP vpcName port ep) (candidate vpcName port ep) w.
Proof.
  unfold resolveBackend, candidate. destruct (String.eqb_spec (ei_address ep) "") as [->|Hne].
  { cbn. done. }
  destruct (ipv4Of (ei_address ep)) as [ip|]; [|cbn; done].
  eapply (computes_tryP _ _ (pod_interface ep)).
  { unfold endpointInterface, pod_interface, findPrimaryInterfaceForPod. destruct (ei_targetRef ep) as [ref|]; [|done].
    destruct (String.eqb (ref_Kind ref) "Pod"); [|done].
    cbn [bind call]. unfold computes. cbn [wp]. intros [l|e] w' [-> Hl]; [|done]. subst l. done. }
  eapply (computes_tryP _ _ (segment vpcName ip ep)).
  { unfold backendSegment, segment. destruct (pod_interface ep) as [nic|]; [|done].
    destruct (String.eqb_spec (nic_ElasticIP (nic_spec nic)) "") as [He|He];
      destruct (String.eqb_spec (nic_L2Network (nic_spec nic)) "") as [H2|H2]; cbn [negb orb].
    2,3,4: rewrite bool_decide_eq_false_2 by tauto; done.
    rewrite bool_decide_eq_true_2 by done.
    destruct (String.eqb_spec (nic_Subnet (nic_spec nic)) "") as [Hs|Hs]; [by cbn|].
    unfold computes. cbn [bind call wp]. intros [s|e] w' [-> Hr]; cbn in Hr.
    - rewrite Hr. destruct (String.eqb_spec (so_Vpc s) vpcName) as [Hv|Hv]; cbn [negb].
      + destruct (Z.eqb_spec (so_VNI s) 0) as [Hz|Hz]; (split; [done|]).
        * by rewrite bool_decide_eq_false_2 by tauto.
        * by rewrite bool_decide_eq_true_2 by tauto.
      + split; [done|]. by rewrite bool_decide_eq_false_2 by tauto.
    - destruct e; try done. rewrite Hr. done. }
  cbn. split; [done|]. by destruct (segment vpcName ip ep) as [[kind id]|].
Qed.

(** The map [resolveBackends] builds. *)
Definition add_backend (port : ServicePort) (vpcName : string) (out : backendMap) (ep : endpointInfo) : backendMap :=
  match candidate vpcName port ep with None => out | Some rb => <[port := backendsOf out port ++ [rb]]> out end.

Definition all_backends (svc : Service) (vpcName : string) (rows : list endpointInfo) : backendMap :=
  foldl (fun out port => foldl (add_backend port vpcName) out (matchEndpointsForPort rows port)) ∅ (svc_Ports svc).

Lemma resolveBackends_computes svc vpcName rows w :
  computes (resolveBackends nodeIP svc vpcName rows) (all_backends svc vpcName rows) w.
Proof.
  unfold resolveBackends, all_backends. apply computes_forTryP. intros port out _. apply computes_forTryP. intros ep out' _.
  eapply computes_tryP; [apply resolveBackend_computes|]. unfold add_backend. cbn. done.
Qed.

Lemma add_backends_lookup port vpcName eps out p :
  backendsOf (foldl (add_backend port vpcName) out eps) p =
  if bool_decide (p = port) then backendsOf out p ++ omap (candidate vpcName port) eps else backendsOf out p.
Proof.
  revert out. induction eps as [|ep eps IH]; intros out; cbn.
  - case_bool_decide; [by rewrite app_nil_r|done].
  - rewrite IH. unfold add_backend, backendsOf. destruct (candidate vpcName port ep) as [rb|] eqn:Hc; rewrite ?Hc; [|done].
    case_bool_decide as Hp; [subst; rewrite lookup_insert_eq; cbn; by rewrite <- app_assoc|]. by rewrite lookup_insert_ne.
Qed.

Lemma all_backends_lookup svc vpcName rows port :
  NoDup (svc_Ports svc) -> port ∈ svc_Ports svc ->
  backendsOf (all_backends svc vpcName rows) port = omap (candidate vpcName port) (matchEndpointsForPort rows port).
Proof.
  intros Hd Hin. unfold all_backends.
  enough (Hgen : forall l out, NoDup l ->
    backendsOf (foldl (fun out port => foldl (add_backend port vpcName) out (matchEndpointsForPort rows port)) out l) port =
    backendsOf out port ++ if bool_decide (port ∈ l) then omap (candidate vpcName port) (matchEndpointsForPort rows port) else []).
  { rewrite Hgen by done. rewrite bool_decide_eq_true_2 by done. unfold backendsOf. by rewrite lookup_empty. }
  induction l as [|q l IH]; intros out Hdl; cbn; [by rewrite app_nil_r|]. apply NoDup_cons in Hdl as [Hq Hdl].
  rewrite IH, add_backends_lookup by done. destruct (decide (port = q)) as [->|Hp].
  - rewrite (bool_decide_eq_true_2 (q = q)), (bool_decide_eq_false_2 (q ∈ l)), (bool_decide_eq_true_2 (q ∈ q :: l)) by set_solver.
    by rewrite app_nil_r.
  - rewrite (bool_decide_eq_false_2 (port = q)) by done. f_equal. rewrite (bool_decide_ext (port ∈ q :: l) (port ∈ l)); [done|]. rewrite elem_of_cons. tauto.
Qed.

Lemma applyPolicy_backends svc m port :
  backendsOf (applyPolicy m (SelectionPolicyOf svc) nodeName) port =
  admitByConditions (if InternalLocal (SelectionPolicyOf svc) then retainLocal (backendsOf m port) nodeName else backendsOf m port).
Proof.
  unfold applyPolicy, backendsOf. rewrite lookup_fmap. destruct (m !! port) as [l|]; [done|].
  unfold retainLocal. by destruct (InternalLocal (SelectionPolicyOf svc)), (String.eqb nodeName "").
Qed.

(** The consumers of the annotation that have an id. *)
Definition consumer_ids (svc : Service) : list Z :=
  foldl (fun out name => match api_vpc api !! name with
                         | Some vpc => if vs_VpcID vpc.2 =? 0 then out else out ++ [vs_VpcID vpc.2]
                         | None => out
                         end) [] (AllowedConsumerVpcs svc).

Lemma resolveAllowed_computes svc w :
  computes (resolveAllowedConsumerVpcIDs svc) (consumer_ids svc, HasConsumerACL svc) w.
Proof.
  unfold resolveAllowedConsumerVpcIDs, HasConsumerACL. destruct (AllowedConsumerVpcs svc) as [|n l] eqn:Hl.
  { unfold consumer_ids. rewrite Hl. cbn. done. }
  eapply (computes_tryP _ _ (consumer_ids svc)).
  - unfold consumer_ids. rewrite Hl. apply computes_forTryP. intros name out _. unfold computes. cbn [bind call wp].
    intros [vpc|e] w' [-> Hr]; cbn in Hr; [rewrite Hr; done|].
    destruct e; try done. rewrite Hr. done.
  - cbn. done.
Qed.

(** What the maps are to be written from. *)
Definition desired_backends (svc : Service) : backendMap :=
  applyPolicy (all_backends svc (OwningVpc svc) (svc_rows svc)) (SelectionPolicyOf svc) nodeName.

Lemma svc_desired_computes svc w :
  computes (svc_desired nodeIP nodeName svc (OwningVpc svc)) (desired_backends svc, (consumer_ids svc, HasConsumerACL svc)) w.
Proof.
  unfold svc_desired. eapply (computes_tryP _ _ (svc_rows svc)).
  { unfold collectEndpoints, computes. cbn [bind call wp]. intros [l|e] w' [-> Hl]; [|done]. subst l. done. }
  eapply computes_tryP; [apply resolveBackends_computes|]. eapply computes_tryP; [apply resolveAllowed_computes|].
  cbn. done.
Qed.

Lemma desired_backends_lookup svc port :
  NoDup (svc_Ports svc) -> port ∈ svc_Ports svc -> backendsOf (desired_backends svc) port = svc_backends svc port.
Proof.
  intros Hd Hin. unfold desired_backends. rewrite applyPolicy_backends, all_backends_lookup by done. reflexivity.
Qed.
End Backends.
