(* ===== verification/ServiceTheorems.v ===== *)
(** * ServiceTheorems: a Service reaches its backends

    What a run of the reconciler does to the maps, the invariant that every
    entry is recorded, and the verdict on a packet for a Service in terms of
    the Service, its EndpointSlices and the Vpcs. *)

From stdpp Require Import base gmap strings list fin_maps.
From Stdlib Require Import ZArith Lia Ascii.
From S2P Require Import Prelude Effects Netip Kube PodNetwork PolicyStores AddressPlan NodeTables Conntrack ServiceTypes.
From S2P Require Import ServiceReconciler ServiceDataplane ServiceMaps ServiceBackends.

Open Scope Z_scope.

#[local] Arguments wrapU : simpl never.

Definition no_fault : forall R, svc_call R -> bool := fun _ _ => false.

(** ** Services that are served *)

(** [upsert] reaches the maps: the Service has a cluster address, and its Vpc
    has an id and routes Services. *)
Record served (api : svc_api) (svc : Service) (ip : Z) (spec : AddressPlan.Vpc) (status : VpcStatus) : Prop := {
  served_type : svc_Type svc <> "ExternalName"%string;
  served_ips : svc_ClusterIPs svc <> [];
  served_ip : svc_ClusterIP svc <> "None"%string /\ svc_ClusterIP svc <> ""%string;
  served_vpc : api_vpc api !! OwningVpc svc = Some (spec, status);
  served_id : vs_VpcID status <> 0;
  served_enabled : ServiceEnabled spec = true;
  served_v4 : ipv4Of (svc_ClusterIP svc) = Some ip }.

(** Ports are told apart by number and protocol, as Kubernetes ensures. *)
Definition port_id (p : ServicePort) : Z * Z := (u16 (sp_Port p), protoToU8 (sp_Protocol p)).
Definition ports_apart (svc : Service) : Prop := NoDup (port_id <$> svc_Ports svc).

Lemma ports_apart_inj svc p q : ports_apart svc -> p ∈ svc_Ports svc -> q ∈ svc_Ports svc -> port_id p = port_id q -> p = q.
Proof.
  intros Hd [i Hi]%list_elem_of_lookup_1 [j Hj]%list_elem_of_lookup_1 Heq.
  assert (i = j); [|congruence]. eapply NoDup_lookup; [exact Hd| |]; rewrite list_lookup_fmap.
  - by rewrite Hi.
  - rewrite Hj. cbn. by rewrite Heq.
Qed.

(** ** The invariant *)

(** Every entry is recorded by the Service it belongs to, and no address by
    two. *)
Record svc_ok (snaps : svc_state) (w : svc_world) : Prop := {
  ok_service : forall k, is_Some (service_map w !! k) -> exists key snap, snaps !! key = Some snap /\ k ∈ serviceKeys snap;
  ok_backend : forall k, is_Some (backend_map w !! k) -> exists key snap, snaps !! key = Some snap /\ k ∈ backendKeys snap;
  ok_acl : forall k, k ∈ service_acl_map w -> exists key snap, snaps !! key = Some snap /\ k ∈ aclKeys snap;
  ok_backend_in : forall key snap k, snaps !! key = Some snap -> k ∈ backendKeys snap -> bk_service k ∈ serviceKeys snap;
  ok_acl_in : forall key snap k, snaps !! key = Some snap -> k ∈ aclKeys snap -> ak_service k ∈ serviceKeys snap;
  ok_apart : forall key key' snap snap' k, snaps !! key = Some snap -> snaps !! key' = Some snap' ->
    k ∈ serviceKeys snap -> k ∈ serviceKeys snap' -> key = key' }.

(** No other Service the node has recorded uses an address of the one to be
    reconciled. *)
Definition exclusive (api : svc_api) (key : string) (snaps : svc_state) : Prop :=
  forall ns name svc ip key' snap k, cut_first "/"%char key = Some (ns, name) -> api_service api !! (ns, name) = Some svc ->
  ipv4Of (svc_ClusterIP svc) = Some ip -> key' <> key -> snaps !! key' = Some snap -> k ∈ serviceKeys snap ->
  sk_ClusterIp k ∉ vipsForService svc ip.

(** *** Entries of a Service *)

Section Entries.
Context (sha256 : list Z -> string) (svc : Service) (ip vpcID : Z) (m : backendMap) (allowed : list Z) (hasACL : bool) (prev : programSnapshot).
#[local] Abbreviation E := (desired_entries sha256 svc ip vpcID m allowed hasACL prev).
#[local] Abbreviation val_of port := (MkServiceVal vpcID (u32 (Z.of_nat (length (backendsOf m port))))
  (affinitySecondsClamp (Affinity (SelectionPolicyOf svc))) (serviceFlags svc (SelectionPolicyOf svc) hasACL)
  (next_gen (service_sig sha256 svc m hasACL) prev)).

Definition key_of (vip : Z) (port : ServicePort) : ServiceKey := MkServiceKey vip (u16 (sp_Port port)) (protoToU8 (sp_Protocol port)).

Definition exposed (vip : Z) (port : ServicePort) : Prop :=
  vip ∈ vipsForService svc ip /\ port ∈ svc_Ports svc /\ protoToU8 (sp_Protocol port) <> 0.

Lemma entries_services k v : (k, v) ∈ e_services E <-> exists vip port, exposed vip port /\ k = key_of vip port /\ v = val_of port.
Proof.
  unfold desired_entries, service_entries, exposed. rewrite entries_of_services. setoid_rewrite list_elem_of_bind. split.
  - intros (vip & Hin & Hv). rewrite entries_of_services in Hin. apply list_elem_of_bind in Hin as (port & Hin & Hp).
    unfold port_entries in Hin. destruct (Z.eqb_spec (protoToU8 (sp_Protocol port)) 0); [by apply elem_of_nil in Hin|].
    apply list_elem_of_singleton in Hin as [= -> ->]. by exists vip, port.
  - intros (vip & port & (Hv & Hp & Hz) & -> & ->). exists vip. split; [|done]. rewrite entries_of_services.
    apply list_elem_of_bind. exists port. split; [|done]. unfold port_entries. rewrite (proj2 (Z.eqb_neq _ _) Hz). by constructor.
Qed.

Lemma entries_backends k v :
  (k, v) ∈ e_backends E <->
  exists vip port i rb, exposed vip port /\ k = MkBackendKey (key_of vip port) (u32 (Z.of_nat i)) /\
    backendsOf m port !! i = Some rb /\ v = rb_val rb.
Proof.
  unfold desired_entries, service_entries, exposed. rewrite entries_of_backends. setoid_rewrite list_elem_of_bind. split.
  - intros (vip & Hin & Hv). rewrite entries_of_backends in Hin. apply list_elem_of_bind in Hin as (port & Hin & Hp).
    unfold port_entries in Hin. destruct (Z.eqb_spec (protoToU8 (sp_Protocol port)) 0); [by apply elem_of_nil in Hin|].
    apply elem_of_lookup_imap_1 in Hin as (i & rb & [= -> ->] & Hl). by exists vip, port, i, rb.
  - intros (vip & port & i & rb & (Hv & Hp & Hz) & -> & Hl & ->). exists vip. split; [|done]. rewrite entries_of_backends.
    apply list_elem_of_bind. exists port. split; [|done]. unfold port_entries. rewrite (proj2 (Z.eqb_neq _ _) Hz). cbn.
    apply elem_of_lookup_imap. by exists i, rb.
Qed.

Lemma entries_acls k :
  k ∈ e_acls E <-> exists vip port v, exposed vip port /\ hasACL = true /\ v ∈ allowed /\ k = MkAclKey (key_of vip port) v.
Proof.
  unfold desired_entries, service_entries, exposed. rewrite entries_of_acls. setoid_rewrite list_elem_of_bind. split.
  - intros (vip & Hin & Hv). rewrite entries_of_acls in Hin. apply list_elem_of_bind in Hin as (port & Hin & Hp).
    unfold port_entries in Hin. destruct (Z.eqb_spec (protoToU8 (sp_Protocol port)) 0); [by apply elem_of_nil in Hin|].
    cbn in Hin. destruct hasACL; [|by apply elem_of_nil in Hin]. apply list_elem_of_fmap in Hin as (v & -> & Hl). by exists vip, port, v.
  - intros (vip & port & v & (Hv & Hp & Hz) & Ha & Hl & ->). exists vip. split; [|done]. rewrite entries_of_acls.
    apply list_elem_of_bind. exists port. split; [|done]. unfold port_entries. rewrite (proj2 (Z.eqb_neq _ _) Hz), Ha. cbn.
    by apply list_elem_of_fmap_2.
Qed.

Lemma key_of_inj vip port vip' port' :
  ports_apart svc -> exposed vip port -> exposed vip' port' -> key_of vip port = key_of vip' port' -> vip = vip' /\ port = port'.
Proof.
  intros Hd (_ & Hp & _) (_ & Hp' & _) [= -> H1 H2]. split; [done|]. eapply ports_apart_inj; [done..|]. unfold port_id. by rewrite H1, H2.
Qed.

Lemma entries_service_lookup vip port mp :
  ports_apart svc -> exposed vip port -> insert_all (e_services E) mp !! key_of vip port = Some (val_of port).
Proof.
  intros Hd He. apply insert_all_in; [|apply entries_services; eauto].
  intros v (vip' & port' & He' & Hk & ->)%entries_services. by destruct (key_of_inj _ _ _ _ Hd He He' Hk) as [_ ->].
Qed.

Lemma entries_backend_lookup vip port i rb mp :
  ports_apart svc -> exposed vip port -> Z.of_nat (length (backendsOf m port)) < 2 ^ 32 -> backendsOf m port !! i = Some rb ->
  insert_all (e_backends E) mp !! MkBackendKey (key_of vip port) (Z.of_nat i) = Some (rb_val rb).
Proof.
  intros Hd He Hlen Hl.
  assert (Hi : u32 (Z.of_nat i) = Z.of_nat i) by (apply wrapU_id; apply lookup_lt_Some in Hl; unfold fitsU; lia).
  apply insert_all_in; [|apply entries_backends; exists vip, port, i, rb; by rewrite Hi].
  intros v (vip' & port' & j & rb' & He' & Heq & Hl' & ->)%entries_backends.
  pose proof (f_equal bk_service Heq) as Hk. pose proof (f_equal bk_Index Heq) as Hj. cbn [bk_service bk_Index] in Hk, Hj.
  destruct (key_of_inj _ _ _ _ Hd He He' Hk) as [_ <-].
  rewrite (wrapU_id 32 (Z.of_nat j)) in Hj by (apply lookup_lt_Some in Hl'; unfold fitsU; lia).
  apply Nat2Z.inj in Hj as ->. congruence.
Qed.

Lemma entries_key_vip k v : (k, v) ∈ e_services E -> sk_ClusterIp k ∈ vipsForService svc ip.
Proof. intros (vip & port & (Hv & _) & -> & _)%entries_services. done. Qed.

Lemma entries_service_key k : k ∈ (e_services E).*1 <-> exists vip port, exposed vip port /\ k = key_of vip port.
Proof.
  rewrite list_elem_of_fmap. split.
  - intros ([k' v] & -> & (vip & port & He & -> & _)%entries_services). eauto.
  - intros (vip & port & He & ->). exists (key_of vip port, val_of port). split; [done|]. apply entries_services. eauto.
Qed.
End Entries.

(** ** One run *)

Section Run.
Context (nodeIP : option Z) (nodeName : string) (sha256 : list Z -> string) (api : svc_api).
#[local] Abbreviation srv := (svc_server api no_fault).

Definition pruned (prev cur : programSnapshot) (w : svc_world) : svc_world :=
  remove_keys (List.filter (fun k => negb (containsServiceKey (serviceKeys cur) k)) (serviceKeys prev))
    (List.filter (fun k => negb (containsBackendKey (backendKeys cur) k)) (backendKeys prev))
    (List.filter (fun k => negb (containsServiceAclKey (aclKeys cur) k)) (aclKeys prev)) w.

Lemma stale_spec {K} `{EqDecision K} (prev cur : list K) k :
  k ∈ List.filter (fun k => negb (existsb (fun x => bool_decide (x = k)) cur)) prev <-> k ∈ prev /\ k ∉ cur.
Proof.
  rewrite list_elem_of_In, filter_In, <- list_elem_of_In, negb_true_iff, <- not_true_iff_false, existsb_elem_of.
  split; intros [H1 H2]; (split; [done|]); intros H3; apply H2.
  - exists k. split; [done|]. by apply bool_decide_eq_true.
  - destruct H3 as (x & Hx & ->%bool_decide_eq_true). done.
Qed.

Lemma pruned_service prev cur w k v :
  service_map (pruned prev cur w) !! k = Some v <-> service_map w !! k = Some v /\ (k ∈ serviceKeys prev -> k ∈ serviceKeys cur).
Proof.
  unfold pruned, remove_keys. cbn. rewrite map_lookup_filter_Some. cbn. unfold containsServiceKey. rewrite stale_spec.
  destruct (decide (k ∈ serviceKeys cur)); naive_solver.
Qed.

Lemma pruned_backend prev cur w k v :
  backend_map (pruned prev cur w) !! k = Some v <-> backend_map w !! k = Some v /\ (k ∈ backendKeys prev -> k ∈ backendKeys cur).
Proof.
  unfold pruned, remove_keys. cbn. rewrite map_lookup_filter_Some. cbn. unfold containsBackendKey. rewrite stale_spec.
  destruct (decide (k ∈ backendKeys cur)); naive_solver.
Qed.

Lemma pruned_acl prev cur w k :
  k ∈ service_acl_map (pruned prev cur w) <-> k ∈ service_acl_map w /\ (k ∈ aclKeys prev -> k ∈ aclKeys cur).
Proof.
  unfold pruned, remove_keys. cbn. rewrite elem_of_difference, elem_of_list_to_set. unfold containsServiceAclKey. rewrite stale_spec.
  destruct (decide (k ∈ aclKeys cur)); naive_solver.
Qed.

(** The snapshot and the maps after a run that wrote [svc]. *)
Definition entries_for (svc : Service) (ip : Z) (status : VpcStatus) (prev : programSnapshot) : entries :=
  desired_entries sha256 svc ip (vs_VpcID status) (desired_backends api nodeIP nodeName svc) (consumer_ids api svc) (HasConsumerACL svc) prev.

Lemma for_service_key svc ip status prev k :
  k ∈ (e_services (entries_for svc ip status prev)).*1 <-> exists vip port, exposed svc ip vip port /\ k = key_of vip port.
Proof. unfold entries_for. apply entries_service_key. Qed.

Lemma for_backends svc ip status prev k v :
  (k, v) ∈ e_backends (entries_for svc ip status prev) <->
  exists vip port i rb, exposed svc ip vip port /\ k = MkBackendKey (key_of vip port) (u32 (Z.of_nat i)) /\
    backendsOf (desired_backends api nodeIP nodeName svc) port !! i = Some rb /\ v = rb_val rb.
Proof. unfold entries_for. apply entries_backends. Qed.

Lemma for_acls svc ip status prev k :
  k ∈ e_acls (entries_for svc ip status prev) <->
  exists vip port v, exposed svc ip vip port /\ HasConsumerACL svc = true /\ v ∈ consumer_ids api svc /\ k = MkAclKey (key_of vip port) v.
Proof. unfold entries_for. apply entries_acls. Qed.

Definition written_snapshot (svc : Service) (ip : Z) (status : VpcStatus) (prev : programSnapshot) : programSnapshot :=
  let sig := service_sig sha256 svc (desired_backends api nodeIP nodeName svc) (HasConsumerACL svc) in
  snap_add (MkSnapshot [] [] [] sig (next_gen sig prev)) (entries_for svc ip status prev).

Definition written_world (svc : Service) (ip : Z) (status : VpcStatus) (prev : programSnapshot) (w : svc_world) : svc_world :=
  pruned prev (written_snapshot svc ip status prev) (write (entries_for svc ip status prev) w).

Inductive svc_outcome (key : string) (snaps : svc_state) (w : svc_world) : result svc_error unit -> svc_state -> svc_world -> Prop :=
| out_same r : match r with Ok _ => True | Err e => read_failed e end -> svc_outcome key snaps w r snaps w
| out_deleted prev : snaps !! key = Some prev ->
    svc_outcome key snaps w (Ok tt) (delete key snaps) (remove_keys (serviceKeys prev) (backendKeys prev) (aclKeys prev) w)
| out_written ns name svc ip spec status :
    cut_first "/"%char key = Some (ns, name) -> api_service api !! (ns, name) = Some svc -> served api svc ip spec status ->
    svc_outcome key snaps w (Ok tt) (<[key := written_snapshot svc ip status (default noSnapshot (snaps !! key))]> snaps)
      (written_world svc ip status (default noSnapshot (snaps !! key)) w).

(** A Service that is served is written. *)
Definition is_written (key : string) (svc : Service) (snaps : svc_state) (w : svc_world) (snaps' : svc_state) (w' : svc_world) : Prop :=
  forall ip spec status, served api svc ip spec status ->
    snaps' = <[key := written_snapshot svc ip status (default noSnapshot (snaps !! key))]> snaps /\
    w' = written_world svc ip status (default noSnapshot (snaps !! key)) w.

Lemma svc_delete_outcome key snaps w :
  wp srv (svc_delete key snaps) (fun rs w' => rs.1 = Ok tt /\ svc_outcome key snaps w rs.1 rs.2 w') w.
Proof.
  unfold svc_delete. destruct (snaps !! key) as [prev|] eqn:Hk; [|cbn; split; [done|]; by apply out_same].
  apply wp_bind. eapply wp_mono; [by apply delete_lists_wp|]. intros _ w' ->. cbn. split; [done|]. by apply out_deleted.
Qed.

Lemma served_det svc ip spec status ip' spec' status' :
  served api svc ip spec status -> served api svc ip' spec' status' -> ip = ip' /\ spec = spec' /\ status = status'.
Proof. intros H1 H2. pose proof (served_vpc _ _ _ _ _ H1). pose proof (served_vpc _ _ _ _ _ H2).
  pose proof (served_v4 _ _ _ _ _ H1). pose proof (served_v4 _ _ _ _ _ H2). split_and!; congruence. Qed.

Lemma svc_upsert_outcome key ns name svc snaps w :
  cut_first "/"%char key = Some (ns, name) -> api_service api !! (ns, name) = Some svc ->
  wp srv (svc_upsert nodeIP nodeName sha256 key svc snaps)
    (fun rs w' => svc_outcome key snaps w rs.1 rs.2 w' /\ (rs.1 = Ok tt -> is_written key svc snaps w rs.2 w')) w.
Proof.
  intros Hkey Hsvc.
  assert (Hdel : (forall ip spec status, ~ served api svc ip spec status) ->
    wp srv (svc_delete key snaps)
      (fun rs w' => svc_outcome key snaps w rs.1 rs.2 w' /\ (rs.1 = Ok tt -> is_written key svc snaps w rs.2 w')) w).
  { intros Hno. eapply wp_mono; [apply svc_delete_outcome|]. intros [r s] w' [_ Ho]. split; [done|]. intros _ ip spec status Hs. by apply Hno in Hs. }
  unfold svc_upsert. destruct (String.eqb_spec (svc_Type svc) "ExternalName") as [Ht|Ht].
  { apply Hdel. intros ? ? ? []. done. }
  destruct (Nat.eqb_spec (length (svc_ClusterIPs svc)) 0) as [Hl|Hl]; [apply Hdel; intros ? ? ? []; by apply length_zero_iff_nil in Hl|].
  destruct (String.eqb_spec (svc_ClusterIP svc) "None") as [Hn|Hn]; [apply Hdel; intros ? ? ? []; tauto|].
  destruct (String.eqb_spec (svc_ClusterIP svc) "") as [Hem|Hem]; [apply Hdel; intros ? ? ? []; tauto|].
  cbn [orb bind call wp]. intros [[spec status]|e] w1 [-> Hr]; cbn in Hr.
  2:{ destruct (decide (e = NotFound)) as [->|He]; [apply Hdel; intros ? ? ? []; congruence|].
      destruct e; try done; cbn; (split; [by apply out_same|done]). }
  destruct (Z.eqb_spec (vs_VpcID status) 0) as [Hz|Hz].
  { cbn. split; [by apply out_same|]. intros _ ip sp st [_ _ _ Hv Hid]. rewrite Hr in Hv. injection Hv as <- <-. done. }
  destruct (ServiceEnabled spec) eqn:Hen; cbn [negb].
  2:{ apply Hdel. intros ip sp st [_ _ _ Hv _ Hen' _]. rewrite Hr in Hv. injection Hv as <- <-. congruence. }
  destruct (ipv4Of (svc_ClusterIP svc)) as [ip|] eqn:Hip; [|apply Hdel; intros ? ? ? []; congruence].
  assert (Hserved : served api svc ip spec status). { constructor; try done. intros Hnil. by rewrite Hnil in Hl. }
  apply wp_bind. eapply wp_mono; [apply svc_desired_computes|]. intros [[m acl]|e] w1 [-> Hd].
  2:{ cbn. split; [|done]. by apply out_same. }
  injection Hd as -> ->. apply wp_bind.
  eapply wp_mono; [by apply programService_wp|]. intros r w1 [-> ->]. apply wp_bind.
  eapply wp_mono; [by apply delete_lists_wp|]. intros _ w1 ->. cbn [wp fst snd]. split; [exact (out_written _ _ _ _ _ _ _ _ _ Hkey Hsvc Hserved)|].
  intros _ ip' spec' status' Hs'. destruct (served_det _ _ _ _ _ _ _ Hserved Hs') as (<- & <- & <-). done.
Qed.

Lemma svc_Reconcile_outcome key snaps w :
  wp srv (svc_Reconcile nodeIP nodeName sha256 key snaps)
    (fun rs w' => svc_outcome key snaps w rs.1 rs.2 w' /\
       (forall ns name svc, cut_first "/"%char key = Some (ns, name) -> api_service api !! (ns, name) = Some svc ->
          rs.1 = Ok tt -> is_written key svc snaps w rs.2 w')) w.
Proof.
  unfold svc_Reconcile. destruct (cut_first "/"%char key) as [[ns name]|] eqn:Hkey; [|cbn; split; [by apply out_same|done]].
  cbn [bind call wp]. intros [svc|e] w1 [-> Hr]; cbn in Hr.
  - eapply wp_mono; [by eapply svc_upsert_outcome|]. intros [r s] w1 [Ho Hw]. split; [done|].
    intros ns' name' svc' [= <- <-] Hs'. rewrite Hr in Hs'. injection Hs' as <-. done.
  - destruct (decide (e = NotFound)) as [->|He].
    + eapply wp_mono; [apply svc_delete_outcome|]. intros [r s] w1 [_ Ho]. split; [done|]. intros ? ? ? [= <- <-]. congruence.
    + destruct e; try done; cbn; (split; [by apply out_same|done]).
Qed.

(** *** The invariant is kept *)

Lemma deleted_ok key snaps prev w :
  snaps !! key = Some prev -> svc_ok snaps w ->
  svc_ok (delete key snaps) (remove_keys (serviceKeys prev) (backendKeys prev) (aclKeys prev) w).
Proof.
  intros Hk [H1 H2 H3 H4 H5 H6].
  assert (Hkeep : forall (P : programSnapshot -> Prop), (exists key0 snap, snaps !! key0 = Some snap /\ P snap) -> ~ P prev ->
    exists key0 snap, delete key snaps !! key0 = Some snap /\ P snap).
  { intros P (key0 & snap & Hs & HP) Hn. exists key0, snap. split; [|done]. apply lookup_delete_Some. split; [|done].
    intros ->. rewrite Hk in Hs. by injection Hs as ->. }
  constructor.
  - intros k [v Hv]. unfold remove_keys in Hv. cbn in Hv. apply map_lookup_filter_Some in Hv as [Hv Hn].
    apply (Hkeep (fun snap => k ∈ serviceKeys snap)); [|exact Hn]. apply H1. by exists v.
  - intros k [v Hv]. unfold remove_keys in Hv. cbn in Hv. apply map_lookup_filter_Some in Hv as [Hv Hn].
    apply (Hkeep (fun snap => k ∈ backendKeys snap)); [|exact Hn]. apply H2. by exists v.
  - intros k [Hv Hn]%elem_of_difference. rewrite elem_of_list_to_set in Hn.
    apply (Hkeep (fun snap => k ∈ aclKeys snap)); [|exact Hn]. by apply H3.
  - intros key0 snap k [_ Hs]%lookup_delete_Some. by eapply H4.
  - intros key0 snap k [_ Hs]%lookup_delete_Some. by eapply H5.
  - intros key0 key1 snap snap' k [_ Hs]%lookup_delete_Some [_ Hs']%lookup_delete_Some. by eapply H6.
Qed.

Lemma written_keys svc ip status prev :
  serviceKeys (written_snapshot svc ip status prev) = (e_services (entries_for svc ip status prev)).*1 /\
  backendKeys (written_snapshot svc ip status prev) = (e_backends (entries_for svc ip status prev)).*1 /\
  aclKeys (written_snapshot svc ip status prev) = e_acls (entries_for svc ip status prev).
Proof. done. Qed.

(** A recorded key is still recorded, unless the run dropped it. *)
Lemma recorded_after {K} (f : programSnapshot -> list K) key (snaps : svc_state) new k :
  (exists key0 snap, snaps !! key0 = Some snap /\ k ∈ f snap) ->
  (forall snap, snaps !! key = Some snap -> k ∈ f snap -> k ∈ f new) ->
  exists key0 snap, <[key := new]> snaps !! key0 = Some snap /\ k ∈ f snap.
Proof.
  intros (key0 & snap & Hs & Hk) Hn. destruct (decide (key0 = key)) as [->|Hne].
  - exists key, new. rewrite lookup_insert_eq. split; [done|]. by eapply Hn.
  - exists key0, snap. by rewrite lookup_insert_ne.
Qed.

Lemma written_ok key ns name svc ip spec status snaps w :
  cut_first "/"%char key = Some (ns, name) -> api_service api !! (ns, name) = Some svc -> served api svc ip spec status ->
  exclusive api key snaps -> svc_ok snaps w ->
  svc_ok (<[key := written_snapshot svc ip status (default noSnapshot (snaps !! key))]> snaps)
    (written_world svc ip status (default noSnapshot (snaps !! key)) w).
Proof.
  intros Hkey Hsvc Hserved Hex [H1 H2 H3 H4 H5 H6]. set (prev := default noSnapshot (snaps !! key)). set (new := written_snapshot svc ip status prev).
  destruct (written_keys svc ip status prev) as (Ks & Kb & Ka). fold new in Ks, Kb, Ka.
  assert (Hprev : forall snap, snaps !! key = Some snap -> snap = prev) by (intros snap Hs; unfold prev; by rewrite Hs).
  assert (Hvip : forall k, k ∈ serviceKeys new -> sk_ClusterIp k ∈ vipsForService svc ip).
  { intros k. rewrite Ks, list_elem_of_fmap. intros ([k' v] & -> & Hin). by eapply entries_key_vip. }
  assert (Happ : forall key' snap k, key' <> key -> snaps !! key' = Some snap -> k ∈ serviceKeys snap -> k ∈ serviceKeys new -> False).
  { intros key' snap k Hne Hs Hin Hnew. eapply Hex; [exact Hkey|exact Hsvc|apply Hserved|exact Hne|exact Hs|exact Hin|by apply Hvip]. }
  constructor.
  - intros k [v Hv]. apply pruned_service in Hv as [Hv Hst]. cbn in Hv. fold new in Hst.
    destruct (decide (k ∈ serviceKeys new)) as [Hin|Hin]; [exists key, new; by rewrite lookup_insert_eq|].
    rewrite insert_all_notin in Hv by by rewrite <- Ks. apply recorded_after; [apply H1; by exists v|].
    intros snap ->%Hprev. apply Hst.
  - intros k [v Hv]. apply pruned_backend in Hv as [Hv Hst]. cbn in Hv. fold new in Hst.
    destruct (decide (k ∈ backendKeys new)) as [Hin|Hin]; [exists key, new; by rewrite lookup_insert_eq|].
    rewrite insert_all_notin in Hv by by rewrite <- Kb. apply recorded_after; [apply H2; by exists v|].
    intros snap ->%Hprev. apply Hst.
  - intros k [Hv Hst]%pruned_acl. cbn in Hv. fold new in Hst.
    destruct (decide (k ∈ aclKeys new)) as [Hin|Hin]; [exists key, new; by rewrite lookup_insert_eq|].
    apply recorded_after; [apply H3|intros snap ->%Hprev; apply Hst].
    apply elem_of_union in Hv as [Hv|Hv]; [|done]. rewrite elem_of_list_to_set, <- Ka in Hv. done.
  - intros key0 snap k [[<- <-]|[Hne Hs]]%lookup_insert_Some; [|by eapply H4]. rewrite Kb, Ks, list_elem_of_fmap.
    intros ([k' v] & -> & (vip & port & i & rb & He & -> & _)%for_backends). apply for_service_key. eauto.
  - intros key0 snap k [[<- <-]|[Hne Hs]]%lookup_insert_Some; [|by eapply H5]. rewrite Ka, Ks.
    intros (vip & port & v & He & _ & _ & ->)%for_acls. apply for_service_key. eauto.
  - intros key0 key1 snap snap' k [[<- <-]|[Hne Hs]]%lookup_insert_Some [[<- <-]|[Hne' Hs']]%lookup_insert_Some Hk Hk'; [done| | |by eapply H6].
    + exfalso. by eapply (Happ key1 snap').
    + exfalso. by eapply (Happ key0 snap).
Qed.

Lemma svc_outcome_ok key snaps w r snaps' w' :
  svc_outcome key snaps w r snaps' w' -> exclusive api key snaps -> svc_ok snaps w -> svc_ok snaps' w'.
Proof. intros [r0 _|prev Hp|ns name svc ip spec status Hk Hs Hsv] Hex Hok; [done|by apply deleted_ok|by eapply written_ok]. Qed.
End Run.

(** ** Verdicts *)

Lemma flags_shared svc p acl : flagged (serviceFlags svc p acl) svcFlagShared = IsShared svc.
Proof. unfold serviceFlags. destruct (IsShared svc), acl, (bool_decide (aff_Mode (Affinity p) = AffinityClientIP)), (InternalLocal p); reflexivity. Qed.
Lemma flags_acl svc p acl : flagged (serviceFlags svc p acl) svcFlagHasACL = acl.
Proof. unfold serviceFlags. destruct (IsShared svc), acl, (bool_decide (aff_Mode (Affinity p) = AffinityClientIP)), (InternalLocal p); reflexivity. Qed.
Lemma flags_affinity svc p acl :
  flagged (serviceFlags svc p acl) svcFlagAffinityClientIP = bool_decide (aff_Mode (Affinity p) = AffinityClientIP).
Proof. unfold serviceFlags. destruct (IsShared svc), acl, (bool_decide (aff_Mode (Affinity p) = AffinityClientIP)), (InternalLocal p); reflexivity. Qed.

(** What the reconciler writes to [service_acl_map] admits: a caller of the Vpc
    of the Service, or of another Vpc when the Service is shared and, if it
    names its consumers, names that Vpc. *)
Definition caller_passes (api : svc_api) (svc : Service) (vpcID caller : Z) : Prop :=
  caller = vpcID \/ IsShared svc = true /\ (AllowedConsumerVpcs svc = [] \/ caller ∈ consumer_ids api svc).

(** The caller is of the Vpc of the Service, or of one with an id that the
    policy of the repository lets resolve the Service: the Vpc consumes
    Services, and the Service is shared with it. *)
Definition caller_entitled (api : svc_api) (svc : Service) (vpcID caller : Z) : Prop :=
  caller = vpcID \/
  exists name spec status service, api_vpc api !! name = Some (spec, status) /\ vs_VpcID status = caller /\ caller <> 0 /\
    vpc_Service spec = Some service /\ ResolvableFrom svc (MkCallerVpc name (ServiceEnabled spec) (Consume service)) = true.

(** The caller is of another Vpc, and the Service is not shared, or names its
    consumers and none of those has the id. *)
Definition caller_excluded (api : svc_api) (svc : Service) (vpcID caller : Z) : Prop :=
  caller <> vpcID /\
  (IsShared svc = false \/
   AllowedConsumerVpcs svc <> [] /\
   forall name spec status, name ∈ AllowedConsumerVpcs svc -> api_vpc api !! name = Some (spec, status) -> vs_VpcID status <> caller).

Lemma consumer_ids_spec api svc caller :
  caller ∈ consumer_ids api svc <->
  exists name spec status, name ∈ AllowedConsumerVpcs svc /\ api_vpc api !! name = Some (spec, status) /\ vs_VpcID status = caller /\ caller <> 0.
Proof.
  unfold consumer_ids. generalize (AllowedConsumerVpcs svc) as names.
  enough (Hgen : forall names out, caller ∈ foldl (fun out name => match api_vpc api !! name with
      | Some vpc => if vs_VpcID vpc.2 =? 0 then out else out ++ [vs_VpcID vpc.2] | None => out end) out names <->
    caller ∈ out \/ exists name spec status, name ∈ names /\ api_vpc api !! name = Some (spec, status) /\ vs_VpcID status = caller /\ caller <> 0).
  { intros names. rewrite Hgen. split; [by intros [?%elem_of_nil|]|by right]. }
  induction names as [|n names IH]; intros out; cbn [foldl].
  { split; [by left|]. intros [|(? & ? & ? & ?%elem_of_nil & _)]; done. }
  rewrite IH. setoid_rewrite elem_of_cons. destruct (api_vpc api !! n) as [[spec status]|] eqn:Hn; cbn [snd]; [|naive_solver].
  destruct (Z.eqb_spec (vs_VpcID status) 0) as [Hz|Hz]; [naive_solver|]. rewrite elem_of_app, list_elem_of_singleton. split.
  - intros [[?| ->]|(name & sp & st & ? & ?)]; [by left|right; by exists n, spec, status; auto|right; exists name, sp, st; tauto].
  - intros [|(name & sp & st & [->|Hin] & Hl & Hs & Hc)]; [tauto| |].
    + assert (st = status) as -> by congruence. left. right. done.
    + right. by exists name, sp, st.
Qed.

(** Who is entitled passes, who is excluded does not. *)
Lemma entitled_passes api svc ip spec status caller :
  served api svc ip spec status -> caller_entitled api svc (vs_VpcID status) caller -> caller_passes api svc (vs_VpcID status) caller.
Proof.
  intros Hs [->|(name & sp & st & service & Hv & Hid & Hz & _ & Hr)]; [by left|]. unfold ResolvableFrom in Hr. cbn in Hr.
  destruct (ServiceEnabled sp); [|done]. cbn [negb] in Hr. destruct (String.eqb_spec (OwningVpc svc) name) as [Hn|Hn].
  { left. pose proof (served_vpc _ _ _ _ _ Hs) as Hv'. rewrite Hn, Hv in Hv'. by injection Hv' as <- <-. }
  destruct (Consume service); [|done]. destruct (IsShared svc) eqn:Hsh; [|done]. cbn in Hr. right. split; [done|].
  unfold IsAllowedConsumer in Hr. destruct (AllowedConsumerVpcs svc) as [|n l] eqn:Hl; [by left|right].
  apply consumer_ids_spec. exists name, sp, st. split_and!; try done. rewrite Hl.
  apply existsb_exists in Hr as (x & Hx & ->%String.eqb_eq). by apply list_elem_of_In.
Qed.

Lemma excluded_fails api svc vpcID caller : caller_excluded api svc vpcID caller -> ~ caller_passes api svc vpcID caller.
Proof.
  intros [Hne Hex] [|[Hsh Hc]]; [done|]. destruct Hex as [Hno|[Hnil Hex]]; [congruence|]. destruct Hc as [|Hc]; [done|].
  apply consumer_ids_spec in Hc as (name & spec & status & Hn & Hv & Hid & _). by eapply Hex.
Qed.

(** The tuple of a packet for a port of an address. *)
Definition addressed (pk : svc_packet) (vip : Z) (port : ServicePort) : Prop :=
  pk_daddr pk = vip /\ pk_dport pk = u16 (sp_Port port) /\ pk_proto pk = protoToU8 (sp_Protocol port) /\ pk_via_pool pk = false.

(** The way to a backend: on the underlay, or in the overlay of the Vpc of the
    Service, across Vpcs when the caller is of another. *)
Definition path_for (vpcID caller : Z) (bv : BackendVal) (path : svc_path) : Prop :=
  match path with
  | HostLocal => bv_Kind bv = backendKindHostLocal
  | HostRemote => bv_Kind bv = backendKindHostRemote
  | CrossVpc => bv_Kind bv = backendKindPod /\ caller <> vpcID
  | SameVpc => bv_Kind bv = backendKindPod /\ caller = vpcID
  end.

(** The packet goes to one of the backends, chosen by the hash of its tuple
    unless the Service asks for affinity; it is dropped when there is none. *)
Definition reaches (svc : Service) (vpcID : Z) (backends : list BackendVal) (pk : svc_packet) (act : svc_action) : Prop :=
  if decide (backends = []) then act = SvcDrop
  else exists i bv path, backends !! i = Some bv /\ act = SvcTo bv path /\ path_for vpcID (pk_vpc pk) bv path /\
    (svc_SessionAffinity svc <> "ClientIP"%string ->
     Z.of_nat i = hash_tuple (pk_saddr pk) (pk_daddr pk) (pk_sport pk) (pk_dport pk) (pk_proto pk) mod Z.of_nat (length backends)).

(** What is to happen to the packet of a caller. *)
Definition service_verdict (api : svc_api) (svc : Service) (vpcID : Z) (backends : list BackendVal) (pk : svc_packet) (act : svc_action) : Prop :=
  (caller_entitled api svc vpcID (pk_vpc pk) -> reaches svc vpcID backends pk act) /\
  (caller_excluded api svc vpcID (pk_vpc pk) -> act = SvcDrop).

Lemma path_of_for api nodeIP nodeName svc port pk sv bv :
  is_backend api nodeIP nodeName svc port bv -> path_for (sv_OwnerVpcId sv) (pk_vpc pk) bv (path_of pk sv bv).
Proof.
  intros (ep & (slice & address & p & ip & kind & subnetID & _ & _ & _ & _ & _ & _ & _ & Hr & _ & ->) & _).
  unfold path_of. cbn. destruct Hr as [_ _|_ _|nic s _ _ _ _ _ Hz]; cbn; [done..|]. unfold backendSubnetIDUnderlay.
  rewrite (proj2 (Z.eqb_neq _ _) Hz). cbn. destruct (Z.eqb_spec (sv_OwnerVpcId sv) (pk_vpc pk)) as [He|He]; cbn; by split.
Qed.

Definition sane_affinity (w : svc_world) : Prop := map_Forall (fun _ v => 0 <= Affinity.BackendIndex v) (service_affinity_map w).

Lemma select_in_range pk sk sv now aff :
  0 < sv_BackendCount sv -> map_Forall (fun _ v => 0 <= Affinity.BackendIndex v) aff ->
  0 <= (select_backend_index pk sk sv now aff).1 < sv_BackendCount sv.
Proof.
  intros Hc Ha. unfold select_backend_index. pose proof (Z.mod_pos_bound (hash_tuple (pk_saddr pk) (pk_daddr pk) (pk_sport pk) (pk_dport pk) (pk_proto pk)) _ Hc).
  destruct (_ || _); [done|]. destruct (aff !! (sk, pk_saddr pk)) as [c|] eqn:Hl; [|done]. apply Ha in Hl.
  destruct (_ && _) eqn:Hv; [|done]. to_prop. cbn. lia.
Qed.

Section Verdict.
Context (nodeIP : option Z) (nodeName : string) (sha256 : list Z -> string) (api : svc_api).
Context (key ns name : string) (svc : Service) (ip : Z) (spec : AddressPlan.Vpc) (status : VpcStatus) (snaps : svc_state) (w : svc_world).
Hypothesis Hkey : cut_first "/"%char key = Some (ns, name).
Hypothesis Hsvc : api_service api !! (ns, name) = Some svc.
Hypothesis Hserved : served api svc ip spec status.
Hypothesis Hports : ports_apart svc.
Hypothesis Hlen : forall port, Z.of_nat (length (svc_backends api nodeIP nodeName svc port)) < 2 ^ 32.
Hypothesis Hex : exclusive api key snaps.
Hypothesis Hok : svc_ok snaps w.

#[local] Abbreviation prev := (default noSnapshot (snaps !! key)).
#[local] Abbreviation new := (written_snapshot nodeIP nodeName sha256 api svc ip status prev).
#[local] Abbreviation w' := (written_world nodeIP nodeName sha256 api svc ip status prev w).

Lemma written_backends port : port ∈ svc_Ports svc -> backendsOf (desired_backends api nodeIP nodeName svc) port = svc_backends api nodeIP nodeName svc port.
Proof. apply desired_backends_lookup. eapply NoDup_fmap_1. exact Hports. Qed.

Lemma written_service vip port :
  exposed svc ip vip port ->
  exists sv, service_map w' !! key_of vip port = Some sv /\ sv_OwnerVpcId sv = vs_VpcID status /\
    sv_BackendCount sv = Z.of_nat (length (svc_backends api nodeIP nodeName svc port)) /\
    sv_Flags sv = serviceFlags svc (SelectionPolicyOf svc) (HasConsumerACL svc).
Proof.
  intros He. eexists. split.
  - apply pruned_service. split; [by apply entries_service_lookup|]. intros _. apply for_service_key. eauto.
  - cbn. rewrite written_backends by apply He. split_and!; [done| |done]. apply wrapU_id. unfold fitsU. specialize (Hlen port). lia.
Qed.

Lemma written_backend vip port i rb :
  exposed svc ip vip port -> svc_backends api nodeIP nodeName svc port !! i = Some rb ->
  backend_map w' !! MkBackendKey (key_of vip port) (Z.of_nat i) = Some (rb_val rb).
Proof.
  intros He Hl. pose proof (written_backends port ltac:(apply He)) as Hb. apply pruned_backend. split.
  - apply entries_backend_lookup; [done|done|rewrite Hb; apply Hlen|by rewrite Hb].
  - intros _. change (backendKeys new) with (e_backends (entries_for nodeIP nodeName sha256 api svc ip status prev)).*1.
    rewrite list_elem_of_fmap. eexists (_, rb_val rb). split; [done|]. apply for_backends. exists vip, port, i, rb. rewrite Hb.
    split_and!; [done| |done|done]. f_equal. symmetry. apply wrapU_id. apply lookup_lt_Some in Hl. specialize (Hlen port). unfold fitsU. lia.
Qed.

Lemma written_acl vip port v :
  exposed svc ip vip port ->
  MkAclKey (key_of vip port) v ∈ service_acl_map w' <-> HasConsumerACL svc = true /\ v ∈ consumer_ids api svc.
Proof.
  intros He. pose proof (written_ok nodeIP nodeName sha256 api key ns name svc ip spec status snaps w Hkey Hsvc Hserved Hex Hok) as Hok'.
  assert (Hnew : MkAclKey (key_of vip port) v ∈ aclKeys new <-> HasConsumerACL svc = true /\ v ∈ consumer_ids api svc).
  { change (aclKeys new) with (e_acls (entries_for nodeIP nodeName sha256 api svc ip status prev)). rewrite for_acls. split.
    - intros (vip' & port' & v' & He' & Ha & Hv & [= _ _ _ ->]). done.
    - intros [Ha Hv]. exists vip, port, v. done. }
  rewrite <- Hnew. split.
  - intros Hin. destruct (ok_acl _ _ Hok' _ Hin) as (key0 & snap & Hs & Hk).
    assert (Hk0 : key_of vip port ∈ serviceKeys snap) by exact (ok_acl_in _ _ Hok' _ _ _ Hs Hk).
    assert (key0 = key) as ->.
    { eapply (ok_apart _ _ Hok'); [exact Hs|by rewrite lookup_insert_eq|exact Hk0|]. apply for_service_key. eauto. }
    rewrite lookup_insert_eq in Hs. by injection Hs as <-.
  - intros Hin. apply pruned_acl. split; [|done]. cbn. apply elem_of_union. left. rewrite elem_of_list_to_set. exact Hin.
Qed.

Lemma caller_admitted_spec vip port pk sv :
  exposed svc ip vip port -> pk_via_pool pk = false -> sv_OwnerVpcId sv = vs_VpcID status ->
  sv_Flags sv = serviceFlags svc (SelectionPolicyOf svc) (HasConsumerACL svc) ->
  caller_admitted w' pk (key_of vip port) sv = true <-> caller_passes api svc (vs_VpcID status) (pk_vpc pk).
Proof.
  intros He Hp Ho Hf. unfold caller_admitted, caller_passes. rewrite Ho, Hf, flags_shared, flags_acl, Hp.
  assert (Hno : HasConsumerACL svc = false <-> AllowedConsumerVpcs svc = []).
  { unfold HasConsumerACL. rewrite negb_false_iff, Nat.eqb_eq. apply length_zero_iff_nil. }
  destruct (Z.eqb_spec (vs_VpcID status) (pk_vpc pk)) as [->|Hne]; cbn.
  { destruct (IsShared svc); cbn; tauto. }
  destruct (IsShared svc); cbn; [|split; [done|intros [?|[? _]]; [congruence|done]]].
  destruct (HasConsumerACL svc) eqn:Ha.
  - rewrite bool_decide_eq_true, written_acl by done. split.
    + intros [_ Hv]. right. auto.
    + intros [?|[_ [Hnil|Hv]]]; [congruence|apply Hno in Hnil; congruence|done].
  - split; [|done]. intros _. right. split; [done|]. left. by apply Hno.
Qed.

(** Once the tuple and the caller are settled: a backend, by the hash without
    affinity, also when VpcEndpoints and traffic changed the other maps. *)
Lemma written_chosen vip port pk now ep aff :
  let W := MkSvcWorld (service_map w') (backend_map w') (service_acl_map w') ep aff in
  exposed svc ip vip port -> sane_affinity W -> service_key_of W pk = Some (key_of vip port) ->
  (forall sv, service_map w' !! key_of vip port = Some sv -> caller_admitted W pk (key_of vip port) sv = true) ->
  reaches svc (vs_VpcID status) (rb_val <$> svc_backends api nodeIP nodeName svc port) pk (handle_service W pk now).1.
Proof.
  intros W He Haff Hsk Hadm. unfold reaches. rewrite length_fmap. set (backends := svc_backends api nodeIP nodeName svc port). destruct (written_service vip port He) as (sv & Hsv & Ho & Hc & Hf).
  unfold handle_service. rewrite Hsk. change (service_map W) with (service_map w'). rewrite Hsv, (Hadm sv Hsv). cbn [negb]. fold backends in Hc.
  case_decide as Hnil; [apply fmap_nil_inv in Hnil; by rewrite Hc, Hnil|].
  assert (Hpos : 0 < sv_BackendCount sv). { rewrite Hc. destruct backends; [done|cbn; lia]. }
  rewrite (proj2 (Z.eqb_neq _ _)) by lia.
  pose proof (select_in_range pk (key_of vip port) sv now _ Hpos Haff) as Hr.
  destruct (select_backend_index pk (key_of vip port) sv now (service_affinity_map W)) as [idx aff'] eqn:Hsel. cbn in Hr.
  destruct (lookup_lt_is_Some_2 backends (Z.to_nat idx)) as [rb Hrb]; [lia|].
  pose proof (written_backend vip port _ _ He Hrb) as Hb. rewrite Z2Nat.id in Hb by lia.
  change (backend_map W) with (backend_map w'). rewrite Hb. cbn.
  exists (Z.to_nat idx), (rb_val rb), (path_of pk sv (rb_val rb)). split_and!; [by rewrite list_lookup_fmap, Hrb|done| |].
  { rewrite <- Ho. apply (path_of_for api nodeIP nodeName svc port). apply svc_backends_exact, list_elem_of_fmap.
    exists rb. split; [done|]. by eapply list_elem_of_lookup_2. }
  intros Hna.
  unfold select_backend_index in Hsel. rewrite Hf, flags_affinity in Hsel. cbn in Hsel. unfold affinityPolicyOf in Hsel.
  rewrite (proj2 (String.eqb_neq _ _) Hna) in Hsel. cbn in Hsel. injection Hsel as <- _. rewrite Z2Nat.id by lia. by rewrite Hc.
Qed.

Lemma written_verdict vip port pk now :
  exposed svc ip vip port -> addressed pk vip port -> sane_affinity w ->
  service_verdict api svc (vs_VpcID status) (rb_val <$> svc_backends api nodeIP nodeName svc port) pk (handle_service w' pk now).1.
Proof.
  intros He (Hd & Hdp & Hpr & Hvia) Haff. destruct (written_service vip port He) as (sv & Hsv & Ho & Hc & Hf).
  assert (Hsk : service_key_of w' pk = Some (key_of vip port)) by (unfold service_key_of; by rewrite Hvia, Hd, Hdp, Hpr).
  pose proof (caller_admitted_spec vip port pk sv He Hvia Ho Hf) as Hadm. split.
  - intros Hent%(entitled_passes _ _ _ _ _ _ Hserved)%Hadm.
    pose proof (written_chosen vip port pk now (vpc_endpoint_map w') (service_affinity_map w') He Haff Hsk) as Hch.
    destruct w' as [m1 m2 m3 m4 m5] eqn:Hw'. cbn in *. apply Hch. intros sv'. congruence.
  - intros Hexc%excluded_fails. unfold handle_service. rewrite Hsk, Hsv. destruct (caller_admitted w' pk (key_of vip port) sv); [|done].
    destruct Hexc. by apply Hadm.
Qed.

(** A tuple that neither was nor is one of the Service. *)
Lemma written_elsewhere pk now sk :
  service_key_of w pk = Some sk -> sk ∉ serviceKeys prev -> sk_ClusterIp sk ∉ vipsForService svc ip ->
  handle_service w' pk now = handle_service w pk now.
Proof.
  intros Hsk Hp Hv.
  assert (Hnew : sk ∉ serviceKeys new).
  { intros (vip & port & (Hvip & _) & ->)%for_service_key. by apply Hv. }
  assert (Hpb : forall i, MkBackendKey sk i ∉ backendKeys prev).
  { intros i Hin. destruct (snaps !! key) as [snap|] eqn:Hs; [|by apply elem_of_nil in Hin]. by apply (ok_backend_in _ _ Hok _ _ _ Hs) in Hin. }
  assert (Hpa : forall v, MkAclKey sk v ∉ aclKeys prev).
  { intros i Hin. destruct (snaps !! key) as [snap|] eqn:Hs; [|by apply elem_of_nil in Hin]. by apply (ok_acl_in _ _ Hok _ _ _ Hs) in Hin. }
  assert (E1 : service_map w' !! sk = service_map w !! sk).
  { apply option_eq. intros v. unfold written_world. rewrite pruned_service. cbn. rewrite insert_all_notin by exact Hnew. split; [tauto|]. intros ?. split; [done|]. intros Hin. by apply Hp in Hin. }
  assert (E2 : forall i, backend_map w' !! MkBackendKey sk i = backend_map w !! MkBackendKey sk i).
  { intros i. apply option_eq. intros v. unfold written_world. rewrite pruned_backend. cbn. rewrite insert_all_notin.
    - split; [tauto|]. intros ?. split; [done|]. intros Hin. by apply Hpb in Hin.
    - intros ([k u] & Hk & (vip & port & j & rb & (Hvip & _) & -> & _)%for_backends)%list_elem_of_fmap. cbn in Hk. injection Hk as -> _. by apply Hv. }
  assert (E3 : forall v, MkAclKey sk v ∈ service_acl_map w' <-> MkAclKey sk v ∈ service_acl_map w).
  { intros v. unfold written_world. rewrite pruned_acl. cbn. rewrite elem_of_union, elem_of_list_to_set. split.
    - intros [[Hin|]_]; [|done]. apply for_acls in Hin as (vip & port & u & (Hvip & _) & _ & _ & [= -> _]). by destruct Hv.
    - intros Hin. split; [by right|]. intros Hin'. by apply Hpa in Hin'. }
  unfold handle_service, caller_admitted. change (service_key_of w' pk) with (service_key_of w pk). rewrite Hsk, E1.
  destruct (service_map w !! sk) as [sv|]; [|done]. rewrite (bool_decide_ext _ _ (E3 (pk_vpc pk))).
  change (service_affinity_map w') with (service_affinity_map w).
  destruct (select_backend_index pk sk sv now (service_affinity_map w)) as [idx aff]. by rewrite E2.
Qed.
End Verdict.

(** ** Histories *)

Section History.
Context (nodeIP : option Z) (nodeName : string) (sha256 : list Z -> string).

(** From empty maps, runs against any objects, with reads that may fail, while
    no two Services share an address; traffic and VpcEndpoints change the
    other maps. *)
Inductive svc_history : svc_state -> svc_world -> Prop :=
| sh_start ep aff : svc_history ∅ (MkSvcWorld ∅ ∅ ∅ ep aff)
| sh_run api key snaps w r snaps' w' :
    svc_history snaps w -> exclusive api key snaps ->
    exec (svc_server api no_fault) w (svc_Reconcile nodeIP nodeName sha256 key snaps) (r, snaps') w' -> svc_history snaps' w'
| sh_traffic snaps w ep aff :
    svc_history snaps w -> svc_history snaps (MkSvcWorld (service_map w) (backend_map w) (service_acl_map w) ep aff).

Lemma svc_history_ok snaps w : svc_history snaps w -> svc_ok snaps w.
Proof.
  induction 1 as [ep aff|api key snaps w r snaps' w' _ IH Hex Hrun|snaps w ep aff _ IH].
  - constructor; try (intros ? ? ? Hs; by rewrite lookup_empty in Hs).
    + intros k [v Hv]. cbn in Hv. by apply lookup_empty_Some in Hv.
    + intros k [v Hv]. cbn in Hv. by apply lookup_empty_Some in Hv.
    + intros k Hk. cbn in Hk. set_solver.
    + intros ? ? ? ? ? Hs. by rewrite lookup_empty in Hs.
  - destruct (wp_exec _ _ _ _ _ _ (svc_Reconcile_outcome nodeIP nodeName sha256 api key snaps w) Hrun) as [Ho _]. by eapply svc_outcome_ok.
  - by destruct IH.
Qed.
End History.

(** What a run that answers [nil] leaves of a Service that is served. *)
Lemma run_written nodeIP nodeName sha256 api key ns name svc ip spec status snaps snaps' w w' :
  cut_first "/"%char key = Some (ns, name) -> api_service api !! (ns, name) = Some svc -> served api svc ip spec status ->
  exec (svc_server api no_fault) w (svc_Reconcile nodeIP nodeName sha256 key snaps) (Ok tt, snaps') w' ->
  w' = written_world nodeIP nodeName sha256 api svc ip status (default noSnapshot (snaps !! key)) w.
Proof.
  intros Hkey Hsvc Hserved Hrun.
  destruct (wp_exec _ _ _ _ _ _ (svc_Reconcile_outcome nodeIP nodeName sha256 api key snaps w) Hrun) as [_ Hw].
  by destruct (Hw _ _ _ Hkey Hsvc eq_refl _ _ _ Hserved) as [_ ->].
Qed.

(** Claim C11: let a node have run any history of Service reconciliations in
    which no call of a map fails and no two Services have an address at once,
    and let it reconcile a Service of a Vpc that routes Services.  If the run
    answers [nil] (it does unless a read failed), then the backends of each
    port are exactly those the EndpointSlices, Pods, interfaces and Subnets
    give it, and a packet for that port of the cluster address or of an
    external address goes to one of them, on the path its place asks for and
    by the hash of its tuple unless the Service asks for affinity, when the
    caller is of the Vpc of the Service, or of one that consumes Services and
    that the Service is shared with.  It is dropped when the caller is of
    another Vpc and the Service is not shared, or names its consumers and none
    has that Vpc's id.  Packets for other tuples are treated as before. *)
Theorem service_decides (nodeIP : option Z) (nodeName : string) (sha256 : list Z -> string) (api : svc_api)
    (key ns name : string) (svc : Service) (ip : Z) (spec : AddressPlan.Vpc) (status : VpcStatus)
    (snaps snaps' : svc_state) (w w' : svc_world) (r : result svc_error unit)
    (Hhist : svc_history nodeIP nodeName sha256 snaps w)
    (Hkey : cut_first "/"%char key = Some (ns, name)) (Hsvc : api_service api !! (ns, name) = Some svc)
    (Hserved : served api svc ip spec status) (Hports : ports_apart svc)
    (Hlen : forall port, Z.of_nat (length (svc_backends api nodeIP nodeName svc port)) < 2 ^ 32)
    (Hex : exclusive api key snaps) (Haff : sane_affinity w)
    (Hrun : exec (svc_server api no_fault) w (svc_Reconcile nodeIP nodeName sha256 key snaps) (r, snaps') w') :
  match r with
  | Err e => read_failed e /\ w' = w /\ snaps' = snaps
  | Ok _ =>
      (forall port, exists backends,
         (forall bv, bv ∈ backends <-> is_backend api nodeIP nodeName svc port bv) /\
         (forall vip pk now, exposed svc ip vip port -> addressed pk vip port ->
            service_verdict api svc (vs_VpcID status) backends pk (handle_service w' pk now).1)) /\
      (forall pk now sk, service_key_of w pk = Some sk -> sk_ClusterIp sk ∉ vipsForService svc ip ->
         sk ∉ serviceKeys (default noSnapshot (snaps !! key)) -> handle_service w' pk now = handle_service w pk now)
  end.
Proof.
  pose proof (svc_history_ok _ _ _ _ _ Hhist) as Hok.
  destruct r as [[]|e].
  - rewrite (run_written _ _ _ _ _ _ _ _ _ _ _ _ _ _ _ Hkey Hsvc Hserved Hrun). split.
    + intros port. exists (rb_val <$> svc_backends api nodeIP nodeName svc port). split; [apply svc_backends_exact|].
      intros vip pk now He Hpk. by eapply written_verdict.
    + intros pk now sk Hsk Hv Hp. by eapply written_elsewhere.
  - destruct (wp_exec _ _ _ _ _ _ (svc_Reconcile_outcome nodeIP nodeName sha256 api key snaps w) Hrun) as [Ho _].
    inversion Ho as [r0 Hr0| |]; subst. done.
Qed.

(** ** Every moment *)

Section Moments.
Context (nodeIP : option Z) (nodeName : string) (sha256 : list Z -> string) (api : svc_api) (faulty : forall R, svc_call R -> bool).
Context (key : string) (w0 : svc_world).
#[local] Abbreviation srv := (svc_server api faulty).

(** A backend entry the objects ask for. *)
Definition wanted_backend (k : BackendKey) (bv : BackendVal) : Prop :=
  exists ns name svc ip spec status vip port i rb,
    cut_first "/"%char key = Some (ns, name) /\ api_service api !! (ns, name) = Some svc /\ served api svc ip spec status /\
    exposed svc ip vip port /\ k = MkBackendKey (key_of vip port) (u32 (Z.of_nat i)) /\
    backendsOf (desired_backends api nodeIP nodeName svc) port !! i = Some rb /\ bv = rb_val rb.

Definition old_or_wanted (w : svc_world) : Prop :=
  forall k bv, backend_map w !! k = Some bv -> backend_map w0 !! k = Some bv \/ wanted_backend k bv.

(** Calls that write no backend but a wanted one. *)
Definition harmless R (e : svc_call R) : Prop := match e with BackendMapUpdate k v => wanted_backend k v | _ => True end.

Lemma harmless_step R (e : svc_call R) w r w' : harmless R e -> srv R e w r w' -> old_or_wanted w -> old_or_wanted w'.
Proof.
  intros He Hs Hw.
  assert (Hup : forall w1 f r0, updates w w1 f r0 w' -> (old_or_wanted w1) -> old_or_wanted w').
  { intros w1 f r0. unfold updates. destruct r0; [by intros ->|by intros [-> _]]. }
  assert (Hde : forall w1 f r0, deletes w w1 f r0 w' -> (old_or_wanted w1) -> old_or_wanted w').
  { intros w1 f r0. unfold deletes. destruct r0 as [|[|]]; [by intros ->|by intros [_ ->]|by intros [-> _]]. }
  destruct e; cbn in Hs, He; try (destruct Hs as [-> _]; done); try (subst; done);
    try (eapply Hup; [exact Hs|]); try (eapply Hde; [exact Hs|]); try exact Hw; intros k' bv Hk'; cbn in Hk'.
  - apply lookup_insert_Some in Hk' as [[<- <-]|[_ Hk']]; [by right|by apply Hw].
  - apply lookup_delete_Some in Hk' as [_ Hk']. by apply Hw.
Qed.

Lemma harmless_wpi {A} (p : prog svc_call A) Q w : only harmless p -> old_or_wanted w -> wp srv p Q w -> wpi srv old_or_wanted p Q w.
Proof. intros Hp Hw. by apply (wpi_of_wp srv harmless); [|apply harmless_step|]. Qed.

Lemma wp_true {A} (p : prog svc_call A) w : wp srv p (fun _ _ => True) w.
Proof. revert w. induction p as [a|R e k IH]; cbn; [done|]. intros w r w' _. apply IH. Qed.

Lemma deletes_harmless sks bks aks :
  only harmless (bind (deleteEach ServiceMapDelete sks) (fun _ => bind (deleteEach BackendMapDelete bks) (fun _ => deleteEach ServiceAclMapDelete aks))).
Proof. repeat (apply only_bind; [|intros _]); apply only_forP; intros k s; by cbn. Qed.

Lemma svc_delete_moments snaps w : old_or_wanted w -> wpi srv old_or_wanted (svc_delete key snaps) (fun _ _ => True) w.
Proof.
  intros Hw. apply harmless_wpi; [|done|apply wp_true]. unfold svc_delete. destruct (snaps !! key) as [prev|]; [|done].
  apply only_bind; [apply deletes_harmless|done].
Qed.

Lemma desired_harmless svc : only harmless (svc_desired nodeIP nodeName svc (OwningVpc svc)).
Proof.
  unfold svc_desired, collectEndpoints, resolveBackends. apply only_tryP; [by cbn; split; [|intros []]|]. intros eps.
  apply only_tryP.
  - apply only_forTryP. intros port out. apply only_forTryP. intros ep out'. apply only_tryP; [|done].
    unfold resolveBackend. destruct (String.eqb (ei_address ep) ""); [done|]. destruct (ipv4Of (ei_address ep)); [|done].
    apply only_tryP.
    + unfold endpointInterface, findPrimaryInterfaceForPod. destruct (ei_targetRef ep); [|done]. by destruct (String.eqb _ _).
    + intros iface. apply only_tryP; [|done]. unfold backendSegment. destruct iface; [|done]. destruct (_ || _); [done|]. by destruct (String.eqb _ _).
  - intros m. apply only_tryP; [|done]. unfold resolveAllowedConsumerVpcIDs. destruct (AllowedConsumerVpcs svc); [done|].
    apply only_tryP; [|done]. apply only_forTryP. intros vpc ids. by cbn.
Qed.

Lemma program_harmless ns name svc ip spec status allowed hasACL prev :
  cut_first "/"%char key = Some (ns, name) -> api_service api !! (ns, name) = Some svc -> served api svc ip spec status ->
  only harmless (programService sha256 svc ip (vs_VpcID status) (SelectionPolicyOf svc) (desired_backends api nodeIP nodeName svc) allowed hasACL prev).
Proof.
  intros Hkey Hsvc Hserved. unfold programService. cbv zeta.
  assert (Hloop : forall {X} (l : list X) (s : programSnapshot) (body : X -> programSnapshot -> prog svc_call (result svc_error programSnapshot)),
    (forall x s', x ∈ l -> only harmless (body x s')) -> only harmless (forTryP l s body)).
  { intros X l s body. revert s. induction l as [|x l IH]; intros s Hb; [done|]. cbn. apply only_tryP; [apply Hb; constructor|].
    intros s'. apply IH. intros y s'' Hy. apply Hb. by constructor. }
  apply Hloop. intros vip out Hvip. apply Hloop. intros port out' Hport. unfold programPort.
  destruct (Z.eqb_spec (protoToU8 (sp_Protocol port)) 0) as [|Hz]; [done|]. apply only_tryP; [by cbn|]. intros _.
  apply only_tryP.
  - apply Hloop. intros kv out2 Hin. apply only_tryP; [|done]. cbn. split; [|done].
    apply elem_of_lookup_imap_1 in Hin as (i & rb & -> & Hl). cbn. exists ns, name, svc, ip, spec, status, vip, port, i, rb. done.
  - intros out2. destruct hasACL; [|done]. apply Hloop. intros v out3 _. apply only_tryP; [by cbn|done].
Qed.

Lemma svc_upsert_moments ns name svc snaps w :
  cut_first "/"%char key = Some (ns, name) -> api_service api !! (ns, name) = Some svc -> old_or_wanted w ->
  wpi srv old_or_wanted (svc_upsert nodeIP nodeName sha256 key svc snaps) (fun _ _ => True) w.
Proof.
  intros Hkey Hsvc Hw. unfold svc_upsert.
  destruct (String.eqb_spec (svc_Type svc) "ExternalName") as [|Ht]; [by apply svc_delete_moments|].
  destruct (Nat.eqb_spec (length (svc_ClusterIPs svc)) 0) as [|Hl]; [by apply svc_delete_moments|].
  destruct (String.eqb_spec (svc_ClusterIP svc) "None") as [|Hn]; [by apply svc_delete_moments|].
  destruct (String.eqb_spec (svc_ClusterIP svc) "") as [|Hem]; [by apply svc_delete_moments|].
  cbn [orb bind call]. split; [done|]. intros [[spec status]|e] w1 [-> Hr]; cbn in Hr; [|destruct e; try (by split); by apply svc_delete_moments].
  destruct (Z.eqb_spec (vs_VpcID status) 0) as [|Hz]; [by split|]. destruct (ServiceEnabled spec) eqn:Hen; cbn [negb]; [|by apply svc_delete_moments].
  destruct (ipv4Of (svc_ClusterIP svc)) as [ip|] eqn:Hip; [|by apply svc_delete_moments].
  assert (Hserved : served api svc ip spec status). { constructor; try done. intros Hnil. by rewrite Hnil in Hl. }
  apply wpi_bind. eapply wpi_mono; [apply harmless_wpi; [apply desired_harmless|done|apply svc_desired_computes]|].
  intros [[m acl]|e] w1 Hi1 [-> Hd]; [|by split]. injection Hd as -> ->.
  apply wpi_bind. eapply wpi_mono; [apply harmless_wpi; [by eapply program_harmless|done|apply wp_true]|].
  intros [written|e] w1 Hi2 _; [|by split]. apply wpi_bind.
  eapply wpi_mono; [apply harmless_wpi; [apply deletes_harmless|done|apply wp_true]|]. intros _ w2 Hi3 _. by split.
Qed.

Lemma svc_Reconcile_moments snaps : wpi srv old_or_wanted (svc_Reconcile nodeIP nodeName sha256 key snaps) (fun _ _ => True) w0.
Proof.
  assert (Hw : old_or_wanted w0) by by intros k bv; left. unfold svc_Reconcile. destruct (cut_first "/"%char key) as [[ns name]|] eqn:Hkey; [|by split].
  cbn [bind call]. split; [done|]. intros [svc|e] w1 [-> Hr]; cbn in Hr; [by eapply svc_upsert_moments|].
  destruct e; try (by split). by apply svc_delete_moments.
Qed.
End Moments.

(** Claim C5: at every moment of a reconciliation of a Service, whichever
    calls fail and wherever it stops, a packet for a Service that is not
    dropped goes to a backend its tuple had before the reconciliation began,
    or to one of the backends the objects give the Service being reconciled,
    for a tuple of that Service: never to a backend of another Service. *)
Theorem service_moments (nodeIP : option Z) (nodeName : string) (sha256 : list Z -> string) (api : svc_api)
    (faulty : forall R, svc_call R -> bool) (key : string) (snaps : svc_state) (w w1 : svc_world)
    (pk : svc_packet) (now : Z) (bv : BackendVal) (path : svc_path)
    (Hports : map_Forall (fun _ svc => ports_apart svc) (api_service api))
    (Hpass : passes (svc_server api faulty) w (svc_Reconcile nodeIP nodeName sha256 key snaps) w1)
    (Hto : (handle_service w1 pk now).1 = SvcTo bv path) :
  exists sk, service_key_of w1 pk = Some sk /\
    ((exists i, backend_map w !! MkBackendKey sk i = Some bv) \/
     exists ns name svc ip spec status vip port,
       cut_first "/"%char key = Some (ns, name) /\ api_service api !! (ns, name) = Some svc /\ served api svc ip spec status /\
       exposed svc ip vip port /\ sk = key_of vip port /\ is_backend api nodeIP nodeName svc port bv).
Proof.
  pose proof (wpi_passes _ _ _ _ _ _ (svc_Reconcile_moments nodeIP nodeName sha256 api faulty key w snaps) Hpass) as Hinv.
  unfold handle_service in Hto. destruct (service_key_of w1 pk) as [sk|]; [|done]. exists sk. split; [done|].
  destruct (service_map w1 !! sk) as [sv|]; [|done]. destruct (caller_admitted w1 pk sk sv); [|done]. cbn [negb] in Hto.
  destruct (sv_BackendCount sv =? 0); [done|].
  destruct (select_backend_index pk sk sv now (service_affinity_map w1)) as [idx aff].
  destruct (backend_map w1 !! MkBackendKey sk idx) as [bv'|] eqn:Hb; [|done]. cbn in Hto. injection Hto as <- _.
  destruct (Hinv _ _ Hb) as [Hold|(ns & name & svc & ip & spec & status & vip & port & i & rb & H1 & H2 & H3 & H4 & Hk & H6 & ->)]; [left; eauto|].
  right. exists ns, name, svc, ip, spec, status, vip, port. split; [done|]. split; [done|]. split; [done|]. split; [done|]. split.
  - exact (f_equal bk_service Hk).
  - rewrite desired_backends_lookup in H6; [|eapply NoDup_fmap_1, (Hports _ _ H2)|apply H4].
    apply svc_backends_exact, list_elem_of_fmap. exists rb. split; [done|]. by eapply list_elem_of_lookup_2.
Qed.
