(* ===== verification/ServiceWitness.v ===== *)
(** * ServiceWitness: Services on a node to evaluate on

    A Vpc [shop] with the Service [web] and two Pods behind it, the witnesses
    of [ServiceTheorems], and runs in which the code falls short of its
    intent: a Vpc that does not consume calls a shared Service, and a client
    with affinity changes its backend. *)

From stdpp Require Import base gmap strings list fin_maps.
From Stdlib Require Import ZArith Lia Ascii.
From S2P Require Import Prelude Effects Netip Kube PodNetwork PolicyStores AddressPlan NodeTables Conntrack ServiceTypes.
From S2P Require Import ServiceReconciler ServiceDataplane ServiceMaps ServiceBackends ServiceTheorems.
From S2P Require RouteTypes RouteTable.

Open Scope Z_scope.

(** ** A node *)

Definition reads_of {A} (x : option A) : result api_error A := match x with Some a => Ok a | None => Err NotFound end.

Definition svc_handler (api : svc_api) : handler svc_call svc_world := fun R e w =>
  match e in svc_call R return R * svc_world with
  | GetService ns name => (reads_of (api_service api !! (ns, name)), w)
  | SvcGetVpc name => (reads_of (api_vpc api !! name), w)
  | ListEndpointSlices ns name => (Ok (api_slices api ns name), w)
  | ListPodInterfaces ns pod => (Ok (api_interfaces api ns pod), w)
  | SvcGetSubnet name => (reads_of (api_subnet api !! name), w)
  | SvcListServices => (Ok (map_to_list (api_service api)).*2, w)
  | ServiceMapUpdate k v => (Ok tt, set_service w (<[k := v]> (service_map w)))
  | ServiceMapDelete k => (Ok tt, set_service w (delete k (service_map w)))
  | BackendMapUpdate k v => (Ok tt, set_backend w (<[k := v]> (backend_map w)))
  | BackendMapDelete k => (Ok tt, set_backend w (delete k (backend_map w)))
  | ServiceAclMapUpdate k => (Ok tt, set_acl w ({[k]} ∪ service_acl_map w))
  | ServiceAclMapDelete k => (Ok tt, set_acl w (service_acl_map w ∖ {[k]}))
  end.

Lemma svc_handler_ok api R (e : svc_call R) w r w' : svc_handler api R e w = (r, w') -> svc_server api no_fault R e w r w'.
Proof.
  destruct e; cbn; intros [= <- <-]; try done; unfold reads_of; (split; [done|]); by case_match.
Qed.

(** 192.168.1.1 *)
Definition node_ip : option Z := Some 3232235777.

Section Runs.
Variable sha256 : list Z -> string.
#[local] Abbreviation node_run api key s := (run (svc_handler api) (svc_Reconcile node_ip "n1" sha256 key s.1) s.2).

Definition svc_do (api : svc_api) (key : string) (s : svc_state * svc_world) : svc_state * svc_world :=
  let out := node_run api key s in (out.1.2, out.2).

Lemma svc_do_exec api key s :
  exec (svc_server api no_fault) s.2 (svc_Reconcile node_ip "n1" sha256 key s.1) (node_run api key s).1 (svc_do api key s).2.
Proof. eapply exec_mono; [|apply run_exec]. intros R e st r st'. apply svc_handler_ok. Qed.
End Runs.

Definition svc_empty : svc_state * svc_world := (∅, MkSvcWorld ∅ ∅ ∅ ∅ ∅).

(** A fingerprint without collisions: the bytes themselves. *)
Definition digest (bytes : list Z) : string := foldr (fun b s => String (ascii_of_N (Z.to_N b)) s) EmptyString bytes.

(** ** Objects *)

Definition shop_vpc : AddressPlan.Vpc * VpcStatus :=
  (AddressPlan.MkVpc "shop" None (Some (MkVpcService (Some "nat"%string) true)) false None, MkVpcStatus 1 "main").
(** A Vpc that offers Services and does not consume those of others. *)
Definition lab_vpc : AddressPlan.Vpc * VpcStatus :=
  (AddressPlan.MkVpc "lab" None (Some (MkVpcService (Some "nat"%string) false)) false None, MkVpcStatus 2 "main").

Definition http : ServicePort := MkServicePort "" "TCP" None 80 "8080" 0.

Definition web_service (annotations : gmap string string) (affinity : string) : Service :=
  MkService "prod" "web" (<[AnnotationVpc := "shop"%string]> annotations) "ClusterIP" "10.96.0.10" ["10.96.0.10"]%string [] [http] None affinity None.

Definition pod_nic (pod : string) : NetworkInterface :=
  MkNIC (MkMeta pod "prod" "" "" 1 [] None []) 0 (MkNICSpec (MkPodRef "" pod "eth0") "n1" "front" "" "" "" [] "" None)
    (MkNICStatus [] 1 NetworkInterfacePhaseReady "" "" [] [] None).

Definition pod_endpoint (pod address : string) : Endpoint :=
  MkServiceEndpoint [address] (Some true) None None (Some "n1"%string) (Some (MkObjectReference "Pod" "prod" pod)).

Definition front_subnet : SubnetObject := MkSubnetObject "front" "shop" "10.0.0.0/24" "" "" 100 "10.0.0.1" "" "" "" 0.

Definition web_api (svc : Service) (endpoints : list Endpoint) : svc_api :=
  MkSvcApi {[ ("prod", "web")%string := svc ]} {[ "shop"%string := shop_vpc; "lab"%string := lab_vpc ]}
    (fun _ _ => [MkEndpointSlice "prod" "web" "IPv4" endpoints [(None, Some 8080)]])
    (fun _ pod => [pod_nic pod]) {[ "front"%string := front_subnet ]}.

Definition ex_endpoints : list Endpoint := [pod_endpoint "a" "10.0.0.5"; pod_endpoint "b" "10.0.0.6"].
Definition web : Service := web_service ∅ "None".
Definition ex_api : svc_api := web_api web ex_endpoints.

(** A packet of a Pod of the Vpc to the cluster address, 10.96.0.10. *)
Definition web_packet (vpc : Z) : svc_packet := MkSvcPacket vpc 167772200 174063626 40000 80 6 false.

Definition backend_a : BackendVal := MkBackendVal 167772165 8080 0 100.
Definition backend_b : BackendVal := MkBackendVal 167772166 8080 0 100.

Lemma web_served annotations affinity endpoints :
  OwningVpc (web_service annotations affinity) = "shop"%string ->
  served (web_api (web_service annotations affinity) endpoints) (web_service annotations affinity) 174063626 shop_vpc.1 shop_vpc.2.
Proof. intros Hv. constructor; try done. by rewrite Hv. Qed.

Lemma ex_exclusive api key : exclusive api key ∅.
Proof. intros ns name svc ip key' snap k _ _ _ _ Hs. by rewrite lookup_empty in Hs. Qed.

Lemma ex_backends port : (length (svc_backends ex_api node_ip "n1" web port) <= 2)%nat.
Proof.
  unfold svc_backends, admitByConditions, reachable.
  assert (Hf : forall (f : resolvedBackend -> bool) l, (length (List.filter f l) <= length l)%nat) by apply filter_length_le.
  assert (Hr : (length (omap (candidate ex_api node_ip (OwningVpc web) port) (matchEndpointsForPort (svc_rows ex_api web) port)) <= 2)%nat).
  { etransitivity; [|exact (filter_length_le (fun ep => String.eqb (sp_Name port) "" || String.eqb (ei_portName ep) (sp_Name port)) (svc_rows ex_api web))].
    unfold matchEndpointsForPort. induction (List.filter _ _) as [|ep l IH]; cbn; [lia|]. destruct (candidate _ _ _ _ _); cbn; lia. }
  cbn [InternalLocal SelectionPolicyOf web web_service svc_InternalTrafficPolicy]. set (l := omap _ _) in *.
  destruct (List.filter rb_ready l) eqn:He; [etransitivity; [apply Hf|exact Hr]|]. rewrite <- He. etransitivity; [apply Hf|exact Hr].
Qed.

(** A Pod of the Vpc reaches one of the two Pods, one of another Vpc none. *)
Lemma service_decides_witness :
  let w' := (svc_do digest ex_api "prod/web" svc_empty).2 in
  (exists backends, (forall bv, bv ∈ backends <-> is_backend ex_api node_ip "n1" web http bv) /\
     service_verdict ex_api web 1 backends (web_packet 1) (handle_service w' (web_packet 1) 0).1 /\
     service_verdict ex_api web 1 backends (web_packet 2) (handle_service w' (web_packet 2) 0).1) /\
  (handle_service w' (web_packet 1) 0).1 = SvcTo backend_a SameVpc /\ (handle_service w' (web_packet 2) 0).1 = SvcDrop.
Proof.
  intros w'. split; [|split; vm_compute; reflexivity].
  pose proof (service_decides node_ip "n1" digest ex_api "prod/web" "prod" "web" web 174063626 shop_vpc.1 shop_vpc.2
    ∅ (svc_do digest ex_api "prod/web" svc_empty).1 svc_empty.2 w' (Ok tt)) as Hmain.
  destruct Hmain as [Hv _].
  - apply sh_start.
  - reflexivity.
  - reflexivity.
  - by apply web_served.
  - unfold ports_apart. cbn. apply NoDup_singleton.
  - intros port. pose proof (ex_backends port). lia.
  - apply ex_exclusive.
  - intros k v Hk. cbn in Hk. by apply lookup_empty_Some in Hk.
  - pose proof (svc_do_exec digest ex_api "prod/web" svc_empty) as He. rewrite (surjective_pairing (run _ _ _).1) in He.
    exact He.
  - destruct (Hv http) as (backends & Hb & Hall). exists backends. split; [exact Hb|].
    assert (He : exposed web 174063626 174063626 http) by (split_and!; [cbn; set_solver|vm_compute; set_solver|done]).
    split; by apply (Hall 174063626).
Defined.

(** The packet of [service_decides_witness] goes to a backend of [web]. *)
Lemma service_moments_witness :
  is_backend ex_api node_ip "n1" web http backend_a.
Proof.
  pose proof (svc_do_exec digest ex_api "prod/web" svc_empty) as He.
  destruct (service_moments node_ip "n1" digest ex_api no_fault "prod/web" ∅ svc_empty.2 (svc_do digest ex_api "prod/web" svc_empty).2
              (web_packet 1) 0 backend_a SameVpc) as (sk & Hsk & [[i Hold]|Hnew]).
  - intros k svc Hk. cbn in Hk. apply lookup_singleton_Some in Hk as [_ <-]. unfold ports_apart. cbn. apply NoDup_singleton.
  - by eapply exec_passes.
  - vm_compute. reflexivity.
  - cbn in Hold. by apply lookup_empty_Some in Hold.
  - destruct Hnew as (ns & name & svc & ip & spec & status & vip & port & _ & Hs & _ & (_ & Hp & _) & _ & Hb).
    cbn in Hs. apply lookup_singleton_Some in Hs as [_ <-].
    apply list_elem_of_singleton in Hp as ->. exact Hb.
Defined.

(** ** Where the data plane and the policy differ *)

Definition shared_web : Service := web_service {[ AnnotationShared := "true"%string ]} "None".

(** A Vpc that routes Services without consuming those of other
    Vpcs ([spec.service.provider] alone) has the route of the Service range,
    and the packets of its Pods are sent to the backends of a shared Service
    of another Vpc, although [svcpolicy.ResolvableFrom] refuses it: no map
    holds whether a Vpc consumes. *)
Theorem consume_not_enforced :
  let w' := (svc_do digest (web_api shared_web ex_endpoints) "prod/web" svc_empty).2 in
  let caller := MkCallerVpc (vpc_Name lab_vpc.1) (ServiceEnabled lab_vpc.1) false in
  vpc_Service lab_vpc.1 = Some (MkVpcService (Some "nat"%string) (caller_Consume caller)) /\
  ResolvableFrom shared_web caller = false /\
  (forall cidr, RouteTypes.rr_Dst <$> RouteTable.serviceRoutes lab_vpc.1 (Some cidr) = [IPNet.IPNet_String cidr]) /\
  (handle_service w' (web_packet 2) 0).1 = SvcTo backend_a CrossVpc.
Proof. intros w' caller. split_and!; try done; vm_compute; reflexivity. Qed.

(** ** Affinity *)

Definition sticky_web : Service := web_service ∅ "ClientIP".
Definition sticky_api (endpoints : list Endpoint) : svc_api := web_api sticky_web endpoints.

(** A client of a Service with affinity changes its backend when the
    endpoints are only listed in another order.  The generation follows a
    fingerprint that does not depend on the order, whatever the digest, while
    the binding of a client is an index into the list: the two Pods stay the
    same, and the client of one is sent to the other well within the timeout. *)
Theorem affinity_follows_the_index :
  let s1 := svc_do digest (sticky_api ex_endpoints) "prod/web" svc_empty in
  let first := handle_service s1.2 (web_packet 1) 1000 in
  let w1 := MkSvcWorld (service_map s1.2) (backend_map s1.2) (service_acl_map s1.2) ∅ first.2 in
  let s2 := svc_do digest (sticky_api (rev ex_endpoints)) "prod/web" (s1.1, w1) in
  (forall sha256, service_sig sha256 sticky_web (desired_backends (sticky_api (rev ex_endpoints)) node_ip "n1" sticky_web) false =
                  service_sig sha256 sticky_web (desired_backends (sticky_api ex_endpoints) node_ip "n1" sticky_web) false) /\
  first.1 = SvcTo backend_a SameVpc /\
  (handle_service w1 (web_packet 1) 2000).1 = SvcTo backend_a SameVpc /\
  (handle_service s2.2 (web_packet 1) 2000).1 = SvcTo backend_b SameVpc.
Proof.
  intros s1 first w1 s2. split_and!; vm_compute; reflexivity.
Qed.
