(* ===== verification/VpcEndpoint.v ===== *)
(** * VpcEndpoint: a Service behind an address of a Vpc

    A VpcEndpoint gives a Service an address out of the endpoint pool of a
    Vpc; callers that use it skip the isolation between Vpcs and the allow
    list of the Service.
    [controller/internal/controller/vpcendpoint_controller.go] allocates the
    address and decides whether the Service may be fronted,
    [controller/internal/webhook/v1alpha1/vpcendpoint_webhook.go] admits the
    object, and [daemon/internal/daemon/dataplane/reconciler/vpcendpoint.go]
    writes [vpc_endpoint_map], which [ServiceDataplane] reads. *)

From stdpp Require Import base gmap strings list.
From Stdlib Require Import ZArith Lia.
From S2P Require Import Prelude Effects Netip Kube AllocationTypes AllocationAPI AllocationClaimReconciler PodNetwork.
From S2P Require Import PolicyRules PolicyStores ElasticIPReconciler AddressPlan RouteTypes NodeTables ServiceTypes ServiceReconciler.

Open Scope Z_scope.
Open Scope go_scope.

(** ** vpcendpoint_types.go *)

Record VpcEndpointServiceReference := MkServiceRef { vsr_Namespace : string; vsr_Name : string }.
Record VpcEndpointSpec := MkVpeSpec { vpe_Vpc : string; vpe_Service : VpcEndpointServiceReference }.
Record VpcEndpointStatus := MkVpeStatus {
  vpe_ObservedGeneration : Z; vpe_Conditions : list Condition; vpe_Address : string; vpe_AllocationClaim : string }.
Record VpcEndpointObject := MkVpcEndpoint { vpe_meta : ObjectMeta; vpe_spec : VpcEndpointSpec; vpe_status : VpcEndpointStatus }.

#[global] Instance VpcEndpointStatus_eq_dec : EqDecision VpcEndpointStatus.
Proof. solve_decision. Defined.

Definition VpcEndpointConditionAddressAllocated : string := "AddressAllocated".
Definition VpcEndpointConditionServiceAccepted : string := "ServiceAccepted".
Definition VpcEndpointConditionReady : string := "Ready".

Definition vpe_name (e : VpcEndpointObject) : string := Name (vpe_meta e).

(** ** vpcendpoint_controller.go *)

Definition vpcEndpointAllocationAttribute : string := "status.address".
Definition vpcEndpointServiceVpcAnnotation : string := "juneau.loutres.me/vpc".
Definition vpcEndpointReasonVpcUnavailable : string := "VpcUnavailable".
Definition vpcEndpointReasonEndpointPoolNotConfigured : string := "EndpointPoolNotConfigured".
Definition vpcEndpointReasonAllocating : string := "Allocating".
Definition vpcEndpointReasonAllocated : string := "Allocated".
Definition vpcEndpointReasonServiceNotFound : string := "ServiceNotFound".
Definition vpcEndpointReasonClusterIPUnavailable : string := "ClusterIPUnavailable".
Definition vpcEndpointReasonServiceVpcNotFound : string := "ServiceVpcNotFound".
Definition vpcEndpointReasonServiceRoutingDisabled : string := "ServiceRoutingDisabled".
Definition vpcEndpointReasonNotAServiceProvider : string := "NotAServiceProvider".
Definition vpcEndpointReasonAccepted : string := "Accepted".
Definition vpcEndpointReasonAddressPending : string := "AddressPending".
Definition vpcEndpointReasonServiceNotAccepted : string := "ServiceNotAccepted".
Definition vpcEndpointReasonBackendUnavailable : string := "BackendUnavailable".
Definition vpcEndpointReasonReady : string := "Ready".
Definition vpcEndpointIPAllocationPoolPrefix : string := "vpc-endpoint-ip-".
Definition VpcEndpointIPAllocationPoolName (vpcName : string) : string := (vpcEndpointIPAllocationPoolPrefix ++ vpcName)%string.

Record vpcEndpointCondition := MkVpeCondition { vc_Status : ConditionStatus; vc_Reason : string; vc_Message : string }.

Definition vpcEndpointConditionTrue (reason message : string) : vpcEndpointCondition := MkVpeCondition ConditionTrue reason message.
Definition vpcEndpointConditionFalse (reason message : string) : vpcEndpointCondition := MkVpeCondition ConditionFalse reason message.

Record vpcEndpointDesiredStatus := MkVpeDesired {
  vd_Address : string; vd_AllocationClaim : string;
  vd_AddressAllocated : vpcEndpointCondition; vd_ServiceAccepted : vpcEndpointCondition; vd_Ready : vpcEndpointCondition }.

Definition vpcEndpointBlocked (reason message : string) : vpcEndpointDesiredStatus :=
  let blocked := vpcEndpointConditionFalse reason message in MkVpeDesired "" "" blocked blocked blocked.

Inductive vpe_call : Type -> Type :=
| GetVpcEndpoint (name : string) : vpe_call (result api_error VpcEndpointObject)
| VpeGetVpc (name : string) : vpe_call (result api_error AddressPlan.Vpc)
| VpeGetService (namespace name : string) : vpe_call (result api_error ServiceTypes.Service)
| VpeListSlices (namespace service : string) : vpe_call (result api_error (list EndpointSlice))
| VpeEnsureClaim (name : string) (mutate : AllocationClaim -> result api_error AllocationClaim)
  : vpe_call (result api_error AllocationClaim)
| VpeNow : vpe_call Time
| UpdateVpcEndpointStatus (endpoint : VpcEndpointObject) : vpe_call (result api_error unit)
| VpeListEndpoints : vpe_call (result api_error (list VpcEndpointObject)).

Section Controller.
Context `{KubeLib}.

(** [r.Get], an error returned as it is except for a missing object. *)
Definition getOr {A B} (c : vpe_call (result api_error A)) (missing : B) (k : A -> prog vpe_call (result goerr B))
  : prog vpe_call (result goerr B) :=
  r <- call c ;;
  match r with
  | Ok a => k a
  | Err NotFound => Ret (Ok missing)
  | Err e => Ret (Err (EApi e))
  end.

Definition ownerVpcNameOf (svc : ServiceTypes.Service) : string :=
  let value := default ""%string (ServiceTypes.svc_Annotations svc !! vpcEndpointServiceVpcAnnotation) in
  if negb (String.eqb value "") then value else defaultVpcName.

Definition IsProviderOf (s : option VpcServiceSpec) : bool := match s with Some s => IsProvider s | None => false end.

Definition serviceAccepted (endpoint : VpcEndpointObject) : prog vpe_call (result goerr vpcEndpointCondition) :=
  let ref := vpe_Service (vpe_spec endpoint) in
  let id := (vsr_Namespace ref ++ "/" ++ vsr_Name ref)%string in
  let no reason message := vpcEndpointConditionFalse reason message in
  getOr (VpeGetService (vsr_Namespace ref) (vsr_Name ref))
    (no vpcEndpointReasonServiceNotFound ("Service " ++ id ++ " does not exist yet")%string) (fun svc =>
  if String.eqb (svc_ClusterIP svc) "" || String.eqb (svc_ClusterIP svc) "None"
  then Ret (Ok (no vpcEndpointReasonClusterIPUnavailable "backend Service has no ClusterIP"%string)) else
  let ownerVpcName := ownerVpcNameOf svc in
  let about := ("backend Service Vpc " ++ quoted ownerVpcName)%string in
  getOr (VpeGetVpc ownerVpcName) (no vpcEndpointReasonServiceVpcNotFound (about ++ " does not exist")%string) (fun ownerVpc =>
  Ret (Ok (if negb (ServiceEnabled ownerVpc)
           then no vpcEndpointReasonServiceRoutingDisabled (about ++ " does not have Service routing enabled")%string
           else if negb (String.eqb ownerVpcName (vpe_Vpc (vpe_spec endpoint))) && negb (IsProviderOf (vpc_Service ownerVpc))
           then no vpcEndpointReasonNotAServiceProvider (about ++ " is not a Service provider")%string
           else vpcEndpointConditionTrue vpcEndpointReasonAccepted ("backend Service " ++ id ++ " is accepted")%string)))).

Definition vpe_ensureClaim (endpoint : VpcEndpointObject) : prog vpe_call (result goerr AllocationClaim) :=
  let desired := newAllocationClaim (VpcEndpointIPAllocationPoolName (vpe_Vpc (vpe_spec endpoint))) GroupVersion
                   "VpcEndpoint" "" (vpe_name endpoint) vpcEndpointAllocationAttribute in
  r <- call (VpeEnsureClaim (claim_name desired) (fun claim =>
    res_map (fun m => MkClaim m (claim_spec desired) (claim_status claim))
            (SetControllerReference (vpe_meta endpoint) (claim_meta claim)))) ;;
  Ret (res_map_err (fun e => EWrap "ensure endpoint AllocationClaim" (EApi e)) r).

Definition backendsReady (endpoint : VpcEndpointObject) : prog vpe_call (result goerr (bool * string)) :=
  let ref := vpe_Service (vpe_spec endpoint) in
  r <- call (VpeListSlices (vsr_Namespace ref) (vsr_Name ref)) ;;
  Ret (match r with
       | Err e => Err (EApi e)
       | Ok slices =>
           Ok (if existsb (fun slice => existsb (fun ep => default true (ep_Ready ep)) (es_Endpoints slice)) slices
               then (true, "endpoint address and backend Service are ready"%string)
               else (false, "backend Service has no ready endpoints"%string))
       end).

(** [buildStatus] from the judgement of the Service on. *)
Definition buildJudged (endpoint : VpcEndpointObject) (vpc : AddressPlan.Vpc) (accepted : vpcEndpointCondition)
  : prog vpe_call (result goerr vpcEndpointDesiredStatus) :=
  if negb (Configured (vpc_EndpointPool vpc)) then
    let c := vpcEndpointConditionFalse vpcEndpointReasonEndpointPoolNotConfigured
               ("Vpc " ++ quoted (vpc_Name vpc) ++ " does not declare spec.endpointPool")%string in
    Ret (Ok (MkVpeDesired "" "" c accepted c))
  else
  claim <-? vpe_ensureClaim endpoint ;;
  let address := IP (cs_Value (claim_status claim)) in
  if negb (bool_decide (cs_Phase (claim_status claim) = ClaimPhaseAllocated)) || String.eqb address "" then
    Ret (Ok (MkVpeDesired "" (claim_name claim)
               (vpcEndpointConditionFalse vpcEndpointReasonAllocating "endpoint address allocation is pending") accepted
               (vpcEndpointConditionFalse vpcEndpointReasonAddressPending "endpoint address has not been allocated")))
  else
  let desired ready := Ok (MkVpeDesired address (claim_name claim)
    (vpcEndpointConditionTrue vpcEndpointReasonAllocated
       ("allocated " ++ address ++ " from the endpoint pool of Vpc " ++ quoted (vpc_Name vpc))%string) accepted ready) in
  if negb (bool_decide (vc_Status accepted = ConditionTrue))
  then Ret (desired (vpcEndpointConditionFalse vpcEndpointReasonServiceNotAccepted (vc_Message accepted)))
  else
  ready <-? backendsReady endpoint ;;
  Ret (desired (if ready.1 then vpcEndpointConditionTrue vpcEndpointReasonReady ready.2
                else vpcEndpointConditionFalse vpcEndpointReasonBackendUnavailable ready.2)).

Definition buildStatus (endpoint : VpcEndpointObject) : prog vpe_call (result goerr vpcEndpointDesiredStatus) :=
  let vpcName := vpe_Vpc (vpe_spec endpoint) in
  getOr (VpeGetVpc vpcName)
    (vpcEndpointBlocked vpcEndpointReasonVpcUnavailable ("Vpc " ++ quoted vpcName ++ " does not exist")%string) (fun vpc =>
  accepted <-? serviceAccepted endpoint ;;
  buildJudged endpoint vpc accepted).

(** [meta.SetStatusCondition] reads the clock. *)
Definition setVpcEndpointCondition (conditions : list Condition) (conditionType : string) (desired : vpcEndpointCondition)
    (generation : Z) : prog vpe_call (list Condition) :=
  t <- call VpeNow ;;
  Ret (SetStatusCondition t conditions
         (MkCondition conditionType (vc_Status desired) (vc_Reason desired) (vc_Message desired) generation zeroTime)).

Definition vpe_updateStatus (endpoint : VpcEndpointObject) (desired : vpcEndpointDesiredStatus) : prog vpe_call (result goerr unit) :=
  let generation := Generation (vpe_meta endpoint) in
  let set cs t c := setVpcEndpointCondition cs t c generation in
  cs <- set (vpe_Conditions (vpe_status endpoint)) VpcEndpointConditionAddressAllocated (vd_AddressAllocated desired) ;;
  cs <- set cs VpcEndpointConditionServiceAccepted (vd_ServiceAccepted desired) ;;
  cs <- set cs VpcEndpointConditionReady (vd_Ready desired) ;;
  let updated := MkVpeStatus generation cs (vd_Address desired) (vd_AllocationClaim desired) in
  if bool_decide (updated = vpe_status endpoint) then Ret (Ok tt) else
  r <- call (UpdateVpcEndpointStatus (MkVpcEndpoint (vpe_meta endpoint) (vpe_spec endpoint) updated)) ;;
  Ret (res_map_err EApi r).

Definition vpe_Reconcile (name : string) : prog vpe_call (result goerr CtrlResult) :=
  r <- call (GetVpcEndpoint name) ;;
  match r with
  | Err NotFound => Ret (Ok no_requeue)
  | Err e => Ret (Err (EApi e))
  | Ok endpoint =>
      if IsDeleting (vpe_meta endpoint) then Ret (Ok no_requeue) else
      desired <-? buildStatus endpoint ;;
      _ <-? vpe_updateStatus endpoint desired ;;
      Ret (Ok no_requeue)
  end.

(** *** Watches *)

(** The names of the VpcEndpoints that satisfy a test, none when the list
    fails. *)
Definition endpointsWhere (test : VpcEndpointObject -> bool) : prog vpe_call (list string) :=
  r <- call VpeListEndpoints ;;
  Ret (match r with Ok items => map vpe_name (List.filter test items) | Err _ => [] end).

Definition requestsForService (namespace name : string) : prog vpe_call (list string) :=
  if String.eqb namespace "" || String.eqb name "" then Ret [] else
  endpointsWhere (fun e => String.eqb (vsr_Namespace (vpe_Service (vpe_spec e))) namespace &&
                           String.eqb (vsr_Name (vpe_Service (vpe_spec e))) name).

Definition vpe_mapService (svc : ServiceTypes.Service) : prog vpe_call (list string) :=
  requestsForService (svc_Namespace svc) (svc_Name svc).
Definition vpe_mapEndpointSlice (slice : EndpointSlice) : prog vpe_call (list string) :=
  requestsForService (es_Namespace slice) (es_ServiceLabel slice).
Definition vpe_mapVpc (vpcName : string) : prog vpe_call (list string) :=
  endpointsWhere (fun e => String.eqb (vpe_Vpc (vpe_spec e)) vpcName).
End Controller.

(** ** vpcendpoint_webhook.go *)

Definition validateVpcEndpointVpc (r : Reader) (endpoint : VpcEndpointObject) (path : string) : result api_error (list field_error) :=
  or_missing (get_Vpc r (vpe_Vpc (vpe_spec endpoint))) [FieldInvalid path "referenced Vpc does not exist"] (fun vpc =>
    Ok (when (negb (Configured (vpc_EndpointPool vpc))) (FieldInvalid path "the Vpc has no spec.endpointPool"))).

Definition vpe_ValidateCreate (r : Reader) (endpoint : VpcEndpointObject) : result api_error (list field_error) :=
  if shouldCheckReferences (DeletionTimestamp (vpe_meta endpoint)) then validateVpcEndpointVpc r endpoint "spec.vpc" else Ok [].

Definition vpe_ValidateUpdate (old endpoint : VpcEndpointObject) : list field_error :=
  when (negb (String.eqb (vpe_Vpc (vpe_spec endpoint)) (vpe_Vpc (vpe_spec old)))) (FieldInvalid "spec.vpc" "spec.vpc is immutable").

(** ** reconciler/vpcendpoint.go *)

(** [bpf.PodEgressVpcEndpointKey]: the Vpc, and address, port and protocol;
    the value is the cluster address. *)
Abbreviation VpcEndpointKey := (Z * ServiceKey)%type.

Record vpcEndpointSnapshot := MkVpeSnapshot { vsn_keys : list VpcEndpointKey; vsn_value : Z }.

Abbreviation vpe_state := (gmap string vpcEndpointSnapshot).

Inductive vpd_call : Type -> Type :=
| VpdGetEndpoint (name : string) : vpd_call (result api_error VpcEndpointObject)
| VpdGetVpc (name : string) : vpd_call (result api_error VpcStatus)
| VpdGetService (namespace name : string) : vpd_call (result api_error ServiceTypes.Service)
| VpdListEndpoints : vpd_call (result api_error (list VpcEndpointObject))
| VpcEndpointMapUpdate (k : VpcEndpointKey) (v : Z) : vpd_call (result bpf_error unit)
| VpcEndpointMapDelete (k : VpcEndpointKey) : vpd_call (result bpf_error unit).

Inductive vpd_error :=
| VpdApi (e : api_error)
| VpdUpdate (e : bpf_error)
| VpdDelete (es : list bpf_error).     (** [errors.Join] *)

Definition vpcEndpointProtocol (protocol : string) : Z :=
  if String.eqb protocol "TCP" || String.eqb protocol "" then 6
  else if String.eqb protocol "UDP" then 17
  else if String.eqb protocol "SCTP" then 132 else 0.

Definition vpe_programSnapshot (snapshot : vpcEndpointSnapshot) : prog vpd_call (result vpd_error unit) :=
  forTryP (vsn_keys snapshot) tt (fun k _ =>
    r <- call (VpcEndpointMapUpdate k (vsn_value snapshot)) ;;
    Ret (res_map_err VpdUpdate r)).

(** Delete the keys one by one; the errors other than a missing key are
    joined. *)
Definition deleteKeys (keys : list VpcEndpointKey) : prog vpd_call (result vpd_error unit) :=
  errs <- forP keys [] (fun k errs =>
    r <- call (VpcEndpointMapDelete k) ;;
    Ret (match r with Ok _ | Err ErrKeyNotExist => errs | Err e => errs ++ [e] end)) ;;
  Ret (match errs with [] => Ok tt | _ => Err (VpdDelete errs) end).

Definition containsVpcEndpointKey (keys : list VpcEndpointKey) (target : VpcEndpointKey) : bool :=
  existsb (fun k => bool_decide (k = target)) keys.

Definition pruneSnapshot (previous desired : vpcEndpointSnapshot) : prog vpd_call (result vpd_error unit) :=
  deleteKeys (List.filter (fun k => negb (containsVpcEndpointKey (vsn_keys desired) k)) (vsn_keys previous)).

Definition vpe_deleteSnapshot (snapshot : vpcEndpointSnapshot) : prog vpd_call (result vpd_error unit) :=
  deleteKeys (vsn_keys snapshot).

Definition vpe_delete (key : string) (snaps : vpe_state) : prog vpd_call (result vpd_error unit * vpe_state) :=
  match snaps !! key with
  | None => Ret (Ok tt, snaps)
  | Some snapshot => r <- vpe_deleteSnapshot snapshot ;; Ret (r, delete key snaps)
  end.

(** The keys of the loop over the ports of the Service. *)
Definition portKeys (vpcID address : Z) (ports : list ServicePort) : list VpcEndpointKey :=
  port ← ports;
  let proto := vpcEndpointProtocol (sp_Protocol port) in
  if (proto =? 0) || (sp_Port port <? 1) || (65535 <? sp_Port port) then []
  else [(vpcID, MkServiceKey address (u16 (sp_Port port)) proto)].

(** The end of [upsert]: the map brought from the snapshot before to the
    desired one. *)
Definition vpe_install (key : string) (desired : vpcEndpointSnapshot) (snaps : vpe_state)
  : prog vpd_call (result vpd_error unit * vpe_state) :=
  let previous := snaps !! key in
  r <- vpe_programSnapshot desired ;;
  match r with
  | Err e =>
      _ <- vpe_deleteSnapshot desired ;;
      match previous with
      | Some previous => _ <- vpe_programSnapshot previous ;; Ret (Err e, snaps)
      | None => Ret (Err e, snaps)
      end
  | Ok _ =>
      match previous with
      | Some previous =>
          r <- pruneSnapshot previous desired ;;
          match r with
          | Err e => Ret (Err e, snaps)
          | Ok _ => Ret (Ok tt, <[key := desired]> snaps)
          end
      | None => Ret (Ok tt, <[key := desired]> snaps)
      end
  end.

Section Daemon.
Context `{KubeLib}.

Definition vpe_upsert (key : string) (endpoint : VpcEndpointObject) (snaps : vpe_state)
  : prog vpd_call (result vpd_error unit * vpe_state) :=
  if negb (IsStatusConditionTrue (vpe_Conditions (vpe_status endpoint)) VpcEndpointConditionServiceAccepted)
  then vpe_delete key snaps else
  match ipv4Of (vpe_Address (vpe_status endpoint)) with
  | None => vpe_delete key snaps
  | Some address =>
      r <- call (VpdGetVpc (vpe_Vpc (vpe_spec endpoint))) ;;
      match r with
      | Err e => Ret (Err (VpdApi e), snaps)
      | Ok vpc =>
          if vs_VpcID vpc =? 0 then Ret (Ok tt, snaps) else
          let ref := vpe_Service (vpe_spec endpoint) in
          r <- call (VpdGetService (vsr_Namespace ref) (vsr_Name ref)) ;;
          match r with
          | Err NotFound => vpe_delete key snaps
          | Err e => Ret (Err (VpdApi e), snaps)
          | Ok service =>
              match ipv4Of (svc_ClusterIP service) with
              | None => vpe_delete key snaps
              | Some clusterIP =>
                  match portKeys (vs_VpcID vpc) address (svc_Ports service) with
                  | [] => vpe_delete key snaps
                  | keys => vpe_install key (MkVpeSnapshot keys clusterIP) snaps
                  end
              end
          end
      end
  end.

Definition vpd_Reconcile (key : string) (snaps : vpe_state) : prog vpd_call (result vpd_error unit * vpe_state) :=
  r <- call (VpdGetEndpoint key) ;;
  match r with
  | Err NotFound => vpe_delete key snaps
  | Err e => Ret (Err (VpdApi e), snaps)
  | Ok endpoint => vpe_upsert key endpoint snaps
  end.
End Daemon.

Definition vpe_FanOutAll : prog vpd_call (list string) :=
  r <- call VpdListEndpoints ;;
  Ret (match r with Ok items => map vpe_name items | Err _ => [] end).

Definition vpe_FanOutService (service : ServiceTypes.Service) : prog vpd_call (list string) :=
  r <- call VpdListEndpoints ;;
  Ret (match r with
       | Ok items => map vpe_name (List.filter (fun e =>
           String.eqb (vsr_Namespace (vpe_Service (vpe_spec e))) (svc_Namespace service) &&
           String.eqb (vsr_Name (vpe_Service (vpe_spec e))) (svc_Name service)) items)
       | Err _ => []
       end).
