(* ===== verification/VpcEndpointTheorems.v ===== *)
(** * VpcEndpointTheorems: who may use the address of a VpcEndpoint

    What the controller accepts, what the daemon writes from it, and that a
    packet reaches a Service through a VpcEndpoint only after an acceptance.
    Then what a run does to the map when no map call fails, the invariant that
    the map holds what the snapshots say, and the way of a packet through the
    endpoint to a backend of the Service. *)

From stdpp Require Import base gmap strings list fin_maps.
From Stdlib Require Import ZArith Lia Ascii.
From S2P Require Import Prelude Effects Netip Kube AllocationTypes AllocationAPI AllocationClaimReconciler PodNetwork.
From S2P Require Import PolicyRules PolicyStores ElasticIPReconciler AddressPlan RouteTypes NodeTables Conntrack ServiceTypes.
From S2P Require Import ServiceReconciler ServiceDataplane ServiceMaps ServiceBackends ServiceTheorems VpcEndpoint.

Open Scope Z_scope.

#[local] Arguments wrapU : simpl never.

(** ** The controller *)

(** The controller and the daemon read the owner of a Service alike. *)
Lemma ownerVpcName_OwningVpc svc : ownerVpcNameOf svc = OwningVpc svc.
Proof.
  unfold ownerVpcNameOf, OwningVpc, AnnotationVpc, vpcEndpointServiceVpcAnnotation.
  destruct (ServiceTypes.svc_Annotations svc !! _) as [v|]; [|done]. cbn. by destruct (String.eqb v "").
Qed.

(** The Service may be fronted from a Vpc: it has a cluster address, its Vpc
    routes Services, and is that Vpc or a provider. *)
Record acceptable (vpc : string) (svc : ServiceTypes.Service) (owner : AddressPlan.Vpc) : Prop := {
  acc_ip : svc_ClusterIP svc <> ""%string /\ svc_ClusterIP svc <> "None"%string;
  acc_routed : ServiceEnabled owner = true;
  acc_owner : OwningVpc svc = vpc \/ IsProviderOf (vpc_Service owner) = true }.

Section Controller.
Context `{KubeLib}.

Definition vpe_accepted (e : VpcEndpointObject) : bool :=
  IsStatusConditionTrue (vpe_Conditions (vpe_status e)) VpcEndpointConditionServiceAccepted.

(** The record of a run shows why the Service of a spec was accepted. *)
Definition accepted_on (h : list (entry vpe_call)) (spec : VpcEndpointSpec) : Prop :=
  exists svc owner,
    Entry (VpeGetService (vsr_Namespace (vpe_Service spec)) (vsr_Name (vpe_Service spec))) (Ok svc) ∈ h /\
    Entry (VpeGetVpc (OwningVpc svc)) (Ok owner) ∈ h /\ acceptable (vpe_Vpc spec) svc owner.

(** ... or why it was not. *)
Definition refused_on (h : list (entry vpe_call)) (spec : VpcEndpointSpec) : Prop :=
  Entry (VpeGetVpc (vpe_Vpc spec)) (Err NotFound) ∈ h \/
  Entry (VpeGetService (vsr_Namespace (vpe_Service spec)) (vsr_Name (vpe_Service spec))) (Err NotFound) ∈ h \/
  exists svc, Entry (VpeGetService (vsr_Namespace (vpe_Service spec)) (vsr_Name (vpe_Service spec))) (Ok svc) ∈ h /\
    (Entry (VpeGetVpc (OwningVpc svc)) (Err NotFound) ∈ h \/
     (svc_ClusterIP svc = ""%string \/ svc_ClusterIP svc = "None"%string) \/
     exists owner, Entry (VpeGetVpc (OwningVpc svc)) (Ok owner) ∈ h /\ ~ acceptable (vpe_Vpc spec) svc owner).

Definition judged_on (h : list (entry vpe_call)) (spec : VpcEndpointSpec) (accepted : bool) : Prop :=
  if accepted then accepted_on h spec else refused_on h spec.

Lemma judged_on_mono h h' spec b : h ⊆ h' -> judged_on h spec b -> judged_on h' spec b.
Proof.
  intros Hs. destruct b; cbn.
  - intros (svc & owner & H1 & H2 & H3). exists svc, owner. auto.
  - intros [H1|[H1|(svc & H1 & [H2|[H2|(owner & H2 & H3)]])]]; [left; auto|right; left; auto|right; right; exists svc; split; auto..].
    right. right. eauto.
Qed.

(** A status written for [e]. *)
Definition vpe_written (e : VpcEndpointObject) (accepted : bool) (e' : VpcEndpointObject) : Prop :=
  vpe_meta e' = vpe_meta e /\ vpe_spec e' = vpe_spec e /\ vpe_ObservedGeneration (vpe_status e') = Generation (vpe_meta e) /\
  vpe_accepted e' = accepted.

Definition vpe_writes (e : VpcEndpointObject) (accepted : bool) R (c : vpe_call R) : Prop :=
  match c with UpdateVpcEndpointStatus e' => vpe_written e accepted e' | _ => True end.

Lemma update_writes e d :
  only (vpe_writes e (bool_decide (vc_Status (vd_ServiceAccepted d) = ConditionTrue))) (vpe_updateStatus e d).
Proof.
  unfold vpe_updateStatus, setVpcEndpointCondition. cbn [bind call]. do 3 (split; [done|]; intros ?). cbn [bind].
  destruct (bool_decide (_ = vpe_status e)); [done|]. split; [|done]. cbn. split_and!; [done..|]. unfold vpe_accepted, IsStatusConditionTrue. cbn.
  rewrite FindStatusCondition_Set_ne by done.
  match goal with |- context [FindStatusCondition (SetStatusCondition ?t ?cs ?c) _] =>
    destruct (FindStatusCondition_Set t cs c) as (c' & Hf & _ & Hs & _) end.
  cbn in Hf. rewrite Hf. cbn in Hs. by rewrite Hs.
Qed.

Definition vpe_account (name : string) (h : list (entry vpe_call)) (x : entry vpe_call) : Prop :=
  match x with
  | @Entry _ R c _ =>
      match c with
      | UpdateVpcEndpointStatus e' =>
          exists e b, Entry (GetVpcEndpoint name) (Ok e) ∈ h /\ vpe_written e b e' /\ judged_on h (vpe_spec e) b
      | _ => True
      end
  end.

Lemma vpe_account_mono name h h' x : h ⊆ h' -> vpe_account name h x -> vpe_account name h' x.
Proof.
  intros Hs. destruct x as [R c r]. destruct c; try done. intros (e & b & H1 & H2 & H3). exists e, b.
  split_and!; [auto|done|]. by eapply judged_on_mono.
Qed.

(** The rest of a run once the Service was judged. *)
Lemma judged_rest {A} name h e b (p : prog vpe_call A) :
  accounts (vpe_account name) h -> Entry (GetVpcEndpoint name) (Ok e) ∈ h -> judged_on h (vpe_spec e) b ->
  only (vpe_writes e b) p -> wpi recorder (accounts (vpe_account name)) p (fun _ _ => True) h.
Proof.
  intros Hh Hg Hj Hp. apply wpi_accounts; [apply vpe_account_mono|done|]. eapply only_impl; [|exact Hp].
  intros R c Hw r h' Hs. destruct c; try done. exists e, b. split_and!; [by apply Hs|done|]. by eapply judged_on_mono.
Qed.

(** The end of [Reconcile]. *)
Definition publishStatus (e : VpcEndpointObject) (desired : vpcEndpointDesiredStatus) : prog vpe_call (result goerr CtrlResult) :=
  tryP (vpe_updateStatus e desired) (fun _ => Ret (Ok no_requeue)).

Lemma vpe_publish_writes e d : only (vpe_writes e (bool_decide (vc_Status (vd_ServiceAccepted d) = ConditionTrue))) (publishStatus e d).
Proof. apply only_tryP; [apply update_writes|done]. Qed.

Lemma judged_writes e vpc accepted :
  only (vpe_writes e (bool_decide (vc_Status accepted = ConditionTrue))) (tryP (buildJudged e vpc accepted) (publishStatus e)).
Proof.
  pose proof (vpe_publish_writes e) as Hup. unfold buildJudged.
  destruct (negb (Configured _)); [by refine (Hup (MkVpeDesired _ _ _ _ _))|]. split; [done|]. intros [claim|er]; [|done]. cbn [bind res_map_err].
  destruct (_ || _); [by refine (Hup (MkVpeDesired _ _ _ _ _))|]. destruct (negb _); [by refine (Hup (MkVpeDesired _ _ _ _ _))|].
  split; [done|]. intros [slices|er]; [|done]. by refine (Hup (MkVpeDesired _ _ _ _ _)).
Qed.

Lemma vpe_Reconcile_accounted name : wpi recorder (accounts (vpe_account name)) (vpe_Reconcile name) (fun _ _ => True) [].
Proof.
  assert (H0 : accounts (vpe_account name) []) by (intros x Hx; by apply elem_of_nil in Hx).
  pose proof (accounts_snoc _ (vpe_account_mono name)) as Hsnoc.
  unfold vpe_Reconcile. split; [done|]. intros r h ->. cbn [bind].
  assert (H1 := Hsnoc _ _ (GetVpcEndpoint name) r H0 I). destruct r as [e|er]; [|by destruct er].
  destruct (IsDeleting _); [done|]. fold (publishStatus e). unfold buildStatus, getOr. split; [done|]. intros r h ->. cbn [bind].
  assert (H2 := Hsnoc _ _ (VpeGetVpc (vpe_Vpc (vpe_spec e))) r H1 I).
  destruct r as [vpc|er].
  2:{ destruct er; try done. eapply judged_rest; [done|left| |apply vpe_publish_writes]. left. right. left. }
  unfold serviceAccepted, getOr. cbv zeta. split; [done|]. intros r h ->. cbn [bind].
  assert (H3 := Hsnoc _ _ (VpeGetService (vsr_Namespace (vpe_Service (vpe_spec e))) (vsr_Name (vpe_Service (vpe_spec e)))) r H2 I).
  destruct r as [svc|er].
  2:{ destruct er; try done. eapply judged_rest; [done|left| |apply judged_writes]. right. left. do 2 right. left. }
  destruct (String.eqb_spec (svc_ClusterIP svc) "") as [Hem|Hem]; cbn [orb].
  { eapply judged_rest; [done|left| |apply judged_writes]. right. right. exists svc. split; [do 2 right; left|]. right. left. by left. }
  destruct (String.eqb_spec (svc_ClusterIP svc) "None") as [Hno|Hno].
  { eapply judged_rest; [done|left| |apply judged_writes]. right. right. exists svc. split; [do 2 right; left|]. right. left. by right. }
  rewrite ownerVpcName_OwningVpc. split; [done|]. intros r h ->. cbn [bind].
  assert (H4 := Hsnoc _ _ (VpeGetVpc (OwningVpc svc)) r H3 I).
  destruct r as [owner|er].
  2:{ destruct er; try done. eapply judged_rest; [done|left| |apply judged_writes]. right. right. exists svc. split; [do 2 right; left|]. left. do 3 right. left. }
  assert (Hno' : ~ acceptable (vpe_Vpc (vpe_spec e)) svc owner -> refused_on
    ([] ++ [Entry (GetVpcEndpoint name) (Ok e)] ++ [Entry (VpeGetVpc (vpe_Vpc (vpe_spec e))) (Ok vpc)] ++
      [Entry (VpeGetService (vsr_Namespace (vpe_Service (vpe_spec e))) (vsr_Name (vpe_Service (vpe_spec e)))) (Ok svc)] ++
      [Entry (VpeGetVpc (OwningVpc svc)) (Ok owner)]) (vpe_spec e)).
  { intros Hn. right. right. exists svc. split; [do 2 right; left|]. right. right. exists owner. split; [do 3 right; left|done]. }
  destruct (ServiceEnabled owner) eqn:Hen; cbn [negb].
  2:{ eapply judged_rest; [done|left| |apply judged_writes]. apply Hno'. intros []. congruence. }
  destruct (_ && _) eqn:Ho.
  { eapply judged_rest; [done|left| |apply judged_writes]. apply Hno'. intros [_ _ Ha].
    apply andb_true_iff in Ho as [Ho Hp]. rewrite negb_true_iff in Ho, Hp. apply String.eqb_neq in Ho. destruct Ha; congruence. }
  eapply judged_rest; [done|left| |apply judged_writes]. exists svc, owner. split_and!; [do 2 right; left|do 3 right; left|].
  constructor; [done..|]. apply andb_false_iff in Ho as [Ho|Ho]; rewrite negb_false_iff in Ho; [left; by apply String.eqb_eq|by right].
Qed.

Lemma vpe_status_accounted name h e' ans :
  passes recorder [] (vpe_Reconcile name) h -> Entry (UpdateVpcEndpointStatus e') ans ∈ h ->
  exists e b, Entry (GetVpcEndpoint name) (Ok e) ∈ h /\ vpe_written e b e' /\ judged_on h (vpe_spec e) b.
Proof. intros Hp He. exact (wpi_passes _ _ _ _ _ _ (vpe_Reconcile_accounted name) Hp (Entry (UpdateVpcEndpointStatus e') ans) He). Qed.

(** *** The versions of a VpcEndpoint

    Created without a status, written by the controller from a version it
    read, and edited by users through the webhook, who write no status; a
    change of the spec moves the generation. *)
Inductive vpe_controlled : VpcEndpointObject -> Prop :=
| vpe_new e : vpe_accepted e = false -> vpe_controlled e
| vpe_published name h e' ans :
    passes recorder [] (vpe_Reconcile name) h -> Entry (UpdateVpcEndpointStatus e') ans ∈ h ->
    (forall e, Entry (GetVpcEndpoint name) (Ok e) ∈ h -> vpe_controlled e) -> vpe_controlled e'
| vpe_edited e e' :
    vpe_controlled e -> vpe_name e' = vpe_name e -> vpe_status e' = vpe_status e -> vpe_ValidateUpdate e e' = [] ->
    (vpe_spec e' = vpe_spec e /\ Generation (vpe_meta e') = Generation (vpe_meta e) \/
     Generation (vpe_meta e) < Generation (vpe_meta e')) -> vpe_controlled e'.

(** The controller accepted a Service for the Vpc of [e]: the one [e] names
    now, when the status of [e] is of its present generation. *)
Definition vpe_approved (e : VpcEndpointObject) : Prop :=
  exists name h spec, passes recorder [] (vpe_Reconcile name) h /\ accepted_on h spec /\ vpe_Vpc spec = vpe_Vpc (vpe_spec e) /\
    vpe_ObservedGeneration (vpe_status e) <= Generation (vpe_meta e) /\
    (vpe_ObservedGeneration (vpe_status e) = Generation (vpe_meta e) -> spec = vpe_spec e).

Lemma controlled_approved e : vpe_controlled e -> vpe_accepted e = true -> vpe_approved e.
Proof.
  induction 1 as [e Hn|name h e' ans Hp He _ _|e e' _ IH Hn Hs Hv Hg]; intros Ha; [congruence| |].
  - destruct (vpe_status_accounted _ _ _ _ Hp He) as (e & b & _ & (Hm & Hsp & Ho & Hb) & Hj).
    rewrite Ha in Hb. subst b. exists name, h, (vpe_spec e). rewrite Ho, Hm, Hsp. split_and!; [done..|lia|done].
  - unfold vpe_accepted in *. rewrite Hs in Ha. destruct (IH Ha) as (name & h & spec & Hp & Hacc & Hvpc & Hle & Heq).
    exists name, h, spec. rewrite Hs. unfold vpe_ValidateUpdate in Hv. apply when_nil, negb_false_iff, String.eqb_eq in Hv.
    split_and!; [done|done|congruence|destruct Hg as [[_ ?]|?]; lia|]. intros Hcur. destruct Hg as [[-> Hgen]|Hgen]; [apply Heq|]; lia.
Qed.
End Controller.

(** ** The daemon *)

(** The map and the objects the daemon has been given. *)
Record vpd_world := MkVpdWorld {
  vw_map : gmap VpcEndpointKey Z;
  vw_endpoints : list VpcEndpointObject;
  vw_vpcs : list (string * VpcStatus);
  vw_services : list (string * string * ServiceTypes.Service) }.

Definition set_map (w : vpd_world) (m : gmap VpcEndpointKey Z) : vpd_world :=
  MkVpdWorld m (vw_endpoints w) (vw_vpcs w) (vw_services w).

(** Reads answer anything; a map call that fails changes nothing, and fails
    only where [faulty] says so. *)
Definition vpd_server (faulty : forall R, vpd_call R -> bool) : server vpd_call vpd_world := fun R c w =>
  match c in vpd_call R0 return R0 -> vpd_world -> Prop with
  | VpdGetEndpoint name => fun r w' =>
      w' = match r with
           | Ok e => MkVpdWorld (vw_map w) (e :: vw_endpoints w) (vw_vpcs w) (vw_services w)
           | Err _ => w
           end
  | VpdGetVpc name => fun r w' =>
      w' = match r with
           | Ok v => MkVpdWorld (vw_map w) (vw_endpoints w) ((name, v) :: vw_vpcs w) (vw_services w)
           | Err _ => w
           end
  | VpdGetService ns name => fun r w' =>
      w' = match r with
           | Ok s => MkVpdWorld (vw_map w) (vw_endpoints w) (vw_vpcs w) ((ns, name, s) :: vw_services w)
           | Err _ => w
           end
  | VpdListEndpoints => fun _ w' => w' = w
  | VpcEndpointMapUpdate k v => fun r w' =>
      match r with
      | Ok _ => w' = set_map w (<[k := v]> (vw_map w))
      | Err _ => w' = w /\ faulty _ (VpcEndpointMapUpdate k v) = true
      end
  | VpcEndpointMapDelete k => fun r w' =>
      match r with
      | Ok _ => w' = set_map w (delete k (vw_map w))
      | Err ErrKeyNotExist => w' = w /\ vw_map w !! k = None
      | Err _ => w' = w /\ faulty _ (VpcEndpointMapDelete k) = true
      end
  end.

Section Grants.
Context `{KubeLib} (faulty : forall R, vpd_call R -> bool).
#[local] Abbreviation srv := (vpd_server faulty).

(** What an entry stands for: an accepted endpoint in the Vpc with that id, at
    that address, for a port of its Service. *)
Definition vpe_grants (w : vpd_world) (e : VpcEndpointObject) (svc : ServiceTypes.Service) (k : VpcEndpointKey) (ip : Z) : Prop :=
  let ref := vpe_Service (vpe_spec e) in
  exists vpc address, e ∈ vw_endpoints w /\ vpe_accepted e = true /\
    (vpe_Vpc (vpe_spec e), vpc) ∈ vw_vpcs w /\ (vsr_Namespace ref, vsr_Name ref, svc) ∈ vw_services w /\
    ipv4Of (vpe_Address (vpe_status e)) = Some address /\ ipv4Of (svc_ClusterIP svc) = Some ip /\
    vs_VpcID vpc <> 0 /\ k ∈ portKeys (vs_VpcID vpc) address (svc_Ports svc).

Definition granted (w : vpd_world) (k : VpcEndpointKey) (ip : Z) : Prop := exists e svc, vpe_grants w e svc k ip.

(** Every entry, and every entry a snapshot could bring back. *)
Definition grants_ok (w : vpd_world) : Prop := forall k ip, vw_map w !! k = Some ip -> granted w k ip.
Definition snaps_ok (snaps : vpe_state) (w : vpd_world) : Prop :=
  forall key s k, snaps !! key = Some s -> k ∈ vsn_keys s -> granted w k (vsn_value s).

(** The daemon has been given more. *)
Record knows_more (w w' : vpd_world) : Prop := {
  more_endpoints : vw_endpoints w ⊆ vw_endpoints w';
  more_vpcs : vw_vpcs w ⊆ vw_vpcs w';
  more_services : vw_services w ⊆ vw_services w' }.

#[global] Instance knows_more_preorder : PreOrder knows_more.
Proof. split; [by intros w|]. intros w1 w2 w3 [] []. split; by etransitivity. Qed.

Lemma granted_more w w' k ip : knows_more w w' -> granted w k ip -> granted w' k ip.
Proof.
  intros [H1 H2 H3] (e & svc & vpc & address & Ha). exists e, svc, vpc, address. destruct_and! Ha. split_and!; auto.
Qed.

Lemma snaps_more snaps w w' : knows_more w w' -> snaps_ok snaps w -> snaps_ok snaps w'.
Proof. intros Hm Hs key s k Hk Hin. by eapply granted_more, Hs. Qed.

(** Calls that write no entry but a granted one. *)
Definition grants_only (w : vpd_world) R (c : vpd_call R) : Prop :=
  match c with VpcEndpointMapUpdate k v => granted w k v | _ => True end.

Lemma grants_step w0 R (c : vpd_call R) w r w' :
  grants_only w0 R c -> srv R c w r w' -> (grants_ok w /\ knows_more w0 w) -> grants_ok w' /\ knows_more w0 w'.
Proof.
  intros Hc Hs [Hg Hm].
  assert (Hread : knows_more w w' -> vw_map w' = vw_map w -> grants_ok w' /\ knows_more w0 w').
  { intros Hm' Heq. split; [|by transitivity w]. intros k ip. rewrite Heq. intros Hk. by eapply granted_more, Hg. }
  assert (Hset : forall m, (forall k ip, m !! k = Some ip -> vw_map w !! k = Some ip \/ granted w0 k ip) ->
    w' = set_map w m -> grants_ok w' /\ knows_more w0 w').
  { intros m Hin ->. split; [|by destruct Hm]. intros k ip Hk. destruct (Hin _ _ Hk) as [Hk'|Hk']; [by apply Hg|].
    by apply (granted_more w0); [destruct Hm|]. }
  destruct c as [name|name|ns name| |k v|k]; cbn in Hs, Hc.
  1-3: destruct r; subst w'; apply Hread; try done; split; cbn; try done; by apply list_subseteq_cons.
  - by subst w'.
  - destruct r as [u|er]; [|by destruct Hs as [-> _]]. eapply Hset; [|exact Hs].
    intros k0 ip [[<- <-]|[_ Hk]]%lookup_insert_Some; auto.
  - destruct r as [u|[|]]; [|by destruct Hs as [-> _]..]. eapply Hset; [|exact Hs].
    intros k0 ip [_ Hk]%lookup_delete_Some; auto.
Qed.

Lemma ensures_after {A B} (Q : B -> Prop) (p : prog vpd_call A) (f : A -> prog vpd_call B) :
  (forall a, ensures Q (f a)) -> ensures Q (bind p f).
Proof. intros Hf. induction p as [a|R c k IH]; cbn; auto. Qed.

(** A program that writes only what was granted when it began. *)
Lemma granting (p : prog vpd_call (result vpd_error unit * vpe_state)) w :
  only (grants_only w) p -> ensures (fun a => snaps_ok a.2 w) p -> grants_ok w ->
  wpi srv grants_ok p (fun a w' => snaps_ok a.2 w') w.
Proof.
  intros Hp Hs Hg.
  eapply wpi_mono; [apply (wpi_possible srv (grants_only w) grants_ok
    (fun s s' => grants_ok s /\ knows_more w s -> grants_ok s' /\ knows_more w s')); [done| |done| |]|].
  - intros x y z Hxy Hyz. auto.
  - intros R c s r s' Hc Hs' Hi. by eapply grants_step.
  - intros s' Hi. by apply Hi.
  - intros a s' _ [Hpos Hi]. apply (snaps_more _ w); [by apply Hi|]. exact (ensures_possible _ _ _ Hs Hpos).
Qed.

Lemma delete_grants w keys : only (grants_only w) (deleteKeys keys).
Proof. apply only_bind; [apply only_forP; intros k errs; by cbn|done]. Qed.

Lemma program_grants w s : (forall k, k ∈ vsn_keys s -> granted w k (vsn_value s)) -> only (grants_only w) (vpe_programSnapshot s).
Proof.
  intros Hk. unfold vpe_programSnapshot. generalize tt. revert Hk. generalize (vsn_value s). induction (vsn_keys s) as [|k ks IH]; intros v Hk u; [done|].
  cbn [forTryP]. apply only_tryP; [split; [apply Hk; constructor|done]|]. intros u'. apply IH. intros k' Hk'. apply Hk. by constructor.
Qed.

Lemma vpe_delete_granting key snaps w : snaps_ok snaps w -> grants_ok w -> wpi srv grants_ok (vpe_delete key snaps) (fun a w' => snaps_ok a.2 w') w.
Proof.
  intros Hs Hg. unfold vpe_delete. destruct (snaps !! key) as [s|] eqn:Hk; [|by split]. apply granting; [| |done].
  - apply only_bind; [apply delete_grants|done].
  - apply ensures_after. intros r. cbn. intros key' s' k [_ Hl]%lookup_delete_Some. by eapply Hs.
Qed.

Lemma vpe_install_granting key desired snaps w :
  (forall k, k ∈ vsn_keys desired -> granted w k (vsn_value desired)) -> snaps_ok snaps w -> grants_ok w ->
  wpi srv grants_ok (vpe_install key desired snaps) (fun a w' => snaps_ok a.2 w') w.
Proof.
  intros Hd Hs Hg.
  assert (Hnew : snaps_ok (<[key := desired]> snaps) w).
  { intros key' s k [[<- <-]|[_ Hl]]%lookup_insert_Some; [apply Hd|by eapply Hs]. }
  apply granting; [| |done]; unfold vpe_install.
  - apply only_bind; [by apply program_grants|]. intros [u|er].
    + destruct (snaps !! key) as [prev|]; [|done]. apply only_bind; [apply delete_grants|]. by intros [].
    + apply only_bind; [apply delete_grants|]. intros _. destruct (snaps !! key) as [prev|] eqn:Hk; [|done].
      apply only_bind; [|done]. apply program_grants. intros k. by eapply Hs.
  - apply ensures_after. intros [u|er].
    + destruct (snaps !! key); [|done]. apply ensures_after. by intros [].
    + apply ensures_after. intros _. destruct (snaps !! key); [|done]. by apply ensures_after.
Qed.

Lemma vpd_Reconcile_granting key snaps w :
  snaps_ok snaps w -> grants_ok w -> wpi srv grants_ok (vpd_Reconcile key snaps) (fun a w' => snaps_ok a.2 w') w.
Proof.
  intros Hs Hg.
  assert (Hread : forall R (c : vpd_call R) w r w', grants_only w R c -> srv R c w r w' -> snaps_ok snaps w /\ grants_ok w -> knows_more w w' /\ snaps_ok snaps w' /\ grants_ok w').
  { intros R c w1 r w2 Hc Hstep [H1 H2]. destruct (grants_step w1 R c w1 r w2 Hc Hstep) as [H3 H4]; [done|]. split_and!; [done|by eapply snaps_more|done]. }
  unfold vpd_Reconcile. split; [done|]. intros r w1 H1. destruct (Hread _ (VpdGetEndpoint key) _ _ _ I H1) as (Hm1 & Hs1 & Hg1); [done|].
  destruct r as [e|er]; [|destruct er; try (by split); by apply vpe_delete_granting]. cbn in H1. cbn [bind].
  unfold vpe_upsert. fold (vpe_accepted e). destruct (vpe_accepted e) eqn:Hacc; cbn [negb]; [|by apply vpe_delete_granting].
  destruct (ipv4Of (vpe_Address (vpe_status e))) as [address|] eqn:Haddr; [|by apply vpe_delete_granting].
  split; [done|]. intros r w2 H2. destruct (Hread _ (VpdGetVpc _) _ _ _ I H2) as (Hm2 & Hs2 & Hg2); [done|].
  cbn [bind]. destruct r as [vpc|er]; [|by split]. cbn in H2. destruct (Z.eqb_spec (vs_VpcID vpc) 0) as [|Hid]; [by split|].
  split; [done|]. intros r w3 H3. destruct (Hread _ (VpdGetService _ _) _ _ _ I H3) as (Hm3 & Hs3 & Hg3); [done|].
  cbn [bind]. destruct r as [svc|er]; [|destruct er; try (by split); by apply vpe_delete_granting]. cbn in H3.
  destruct (ipv4Of (svc_ClusterIP svc)) as [ip|] eqn:Hip; [|by apply vpe_delete_granting].
  destruct (portKeys _ _ _) as [|k0 ks] eqn:Hkeys; [by apply vpe_delete_granting|].
  apply vpe_install_granting; [|done..]. intros k Hk. cbn in Hk. rewrite <- Hkeys in Hk.
  exists e, svc, vpc, address. subst w3 w2 w1. cbn. split_and!; try done; set_solver.
Qed.

(** *** Histories *)

(** Between two runs: from empty maps, by runs, and by restarts, also in the
    middle of a run, after which the snapshots are gone.  [Manager.Start]
    removes the pins and loads the map anew, empty ([vpd_reload]); runs on a
    map that was kept are covered as well. *)
Inductive vpd_history : vpe_state -> vpd_world -> Prop :=
| vpd_start : vpd_history ∅ (MkVpdWorld ∅ [] [] [])
| vpd_run key snaps w a w' :
    vpd_history snaps w -> exec srv w (vpd_Reconcile key snaps) a w' -> vpd_history a.2 w'
| vpd_restart key snaps w w' :
    vpd_history snaps w -> passes srv w (vpd_Reconcile key snaps) w' -> vpd_history ∅ w'
| vpd_reload snaps w : vpd_history snaps w -> vpd_history ∅ (set_map w ∅).

Definition vpd_moment (w : vpd_world) : Prop :=
  exists key snaps w0, vpd_history snaps w0 /\ passes srv w0 (vpd_Reconcile key snaps) w.

Lemma vpd_history_ok snaps w : vpd_history snaps w -> snaps_ok snaps w /\ grants_ok w.
Proof.
  induction 1 as [|key snaps w a w' _ [H1 H2] Hr|key snaps w w' _ [H1 H2] Hr|snaps w _ _].
  - split; [intros key s k Hk|intros k ip Hk]; cbn in Hk; by apply lookup_empty_Some in Hk.
  - destruct (wpi_exec _ _ _ _ _ _ _ (vpd_Reconcile_granting key snaps w H1 H2) Hr). done.
  - split; [intros key' s k Hk; by apply lookup_empty_Some in Hk|]. exact (wpi_passes _ _ _ _ _ _ (vpd_Reconcile_granting key snaps w H1 H2) Hr).
  - split; [intros key s k Hk|intros k ip Hk]; cbn in Hk; by apply lookup_empty_Some in Hk.
Qed.

Lemma vpd_moment_ok w : vpd_moment w -> grants_ok w.
Proof.
  intros (key & snaps & w0 & [H1 H2]%vpd_history_ok & Hp). exact (wpi_passes _ _ _ _ _ _ (vpd_Reconcile_granting key snaps w0 H1 H2) Hp).
Qed.
End Grants.

(** The ports a VpcEndpoint serves. *)
Definition fronted (svc : ServiceTypes.Service) (port proto : Z) : Prop :=
  exists p, p ∈ svc_Ports svc /\ sp_Port p = port /\ 1 <= port <= 65535 /\ vpcEndpointProtocol (sp_Protocol p) = proto /\ proto <> 0.

Lemma elem_of_portKeys vpcID address svc k :
  k ∈ portKeys vpcID address (svc_Ports svc) <->
  k.1 = vpcID /\ sk_ClusterIp k.2 = address /\ fronted svc (sk_Port k.2) (sk_Proto k.2).
Proof.
  unfold portKeys. rewrite list_elem_of_bind. split.
  - intros (p & Hk & Hp). destruct (Z.eqb_spec (vpcEndpointProtocol (sp_Protocol p)) 0) as [|Hz]; [by apply elem_of_nil in Hk|].
    destruct (Z.ltb_spec (sp_Port p) 1); [by apply elem_of_nil in Hk|]. destruct (Z.ltb_spec 65535 (sp_Port p)); [by apply elem_of_nil in Hk|].
    cbn in Hk. apply list_elem_of_singleton in Hk as ->. cbn. split_and!; [done..|]. exists p.
    rewrite (wrapU_id 16) by (unfold fitsU; lia). split_and!; [done..|lia|lia|done|done].
  - destruct k as [id [a port proto]]. cbn. intros (-> & -> & p & Hp & <- & Hr & <- & Hz). exists p. split; [|done].
    rewrite (proj2 (Z.eqb_neq _ _) Hz), (proj2 (Z.ltb_ge _ _)), (proj2 (Z.ltb_ge _ _)) by lia. cbn.
    rewrite (wrapU_id 16) by (unfold fitsU; lia). constructor.
Qed.

(** The backend a packet is sent to is an entry of the key it looked up. *)
Lemma handle_service_backend W pk now bv path :
  (handle_service W pk now).1 = SvcTo bv path -> exists sk i, service_key_of W pk = Some sk /\ backend_map W !! MkBackendKey sk i = Some bv.
Proof.
  unfold handle_service. destruct (service_key_of W pk) as [sk|]; [|done]. destruct (service_map W !! sk) as [sv|]; [|done].
  destruct (negb _); [done|]. destruct (_ =? _); [done|]. destruct (select_backend_index _ _ _ _ _) as [i aff].
  destruct (backend_map W !! MkBackendKey sk i) as [b|] eqn:Hb; [|done]. intros [= -> _]. eauto.
Qed.

(** Claim C13: a packet passes the isolation of a Service through a VpcEndpoint
    only when the controller accepted that.  At every moment of every history
    of the reconciler of a node, whatever fails and however often the daemon
    restarts, when a packet on the route of an endpoint pool is sent to a
    backend, the daemon has been given a VpcEndpoint of the Vpc of the caller,
    with the destination as its address, and its Service with the cluster
    address, protocol and port whose backend the packet got; and the controller
    had read a Service with a cluster address whose Vpc routes Services and is
    the Vpc of the caller or a provider, and it is the Service of this
    VpcEndpoint when the status it published is of the present generation. *)
Theorem endpoint_grant_accepted `{KubeLib} (faulty : forall R, vpd_call R -> bool) (w : vpd_world) (W : svc_world)
    (pk : svc_packet) (now : Z) (bv : BackendVal) (path : svc_path)
    (Hmoment : vpd_moment faulty w) (Hmap : vpc_endpoint_map W = vw_map w)
    (Hcontrolled : Forall vpe_controlled (vw_endpoints w)) (Hpool : pk_via_pool pk = true)
    (Hto : (handle_service W pk now).1 = SvcTo bv path) :
  exists e svc vpc ip i,
    e ∈ vw_endpoints w /\ (vpe_Vpc (vpe_spec e), vpc) ∈ vw_vpcs w /\ vs_VpcID vpc = pk_vpc pk /\
    ipv4Of (vpe_Address (vpe_status e)) = Some (pk_daddr pk) /\
    (vsr_Namespace (vpe_Service (vpe_spec e)), vsr_Name (vpe_Service (vpe_spec e)), svc) ∈ vw_services w /\
    ipv4Of (svc_ClusterIP svc) = Some ip /\ fronted svc (pk_dport pk) (pk_proto pk) /\
    backend_map W !! MkBackendKey (MkServiceKey ip (pk_dport pk) (pk_proto pk)) i = Some bv /\
    vpe_approved e.
Proof.
  destruct (handle_service_backend _ _ _ _ _ Hto) as (sk & i & Hsk & Hb). unfold service_key_of in Hsk. rewrite Hpool, Hmap in Hsk.
  destruct (vw_map w !! _) as [ip|] eqn:Hl; [|done]. injection Hsk as <-.
  destruct (vpd_moment_ok _ _ Hmoment _ _ Hl) as (e & svc & vpc & address & He & Ha & Hv & Hs & Haddr & Hip & _ & Hk).
  apply elem_of_portKeys in Hk as (Hid & Hd & Hf). cbn in Hid, Hd, Hf. subst address.
  exists e, svc, vpc, ip, i. split_and!; try done. apply controlled_approved; [|done]. by eapply Forall_forall in Hcontrolled.
Qed.

(** ** Runs without failing map calls *)

(** *** Objects *)

Record vpe_api := MkVpeApi {
  api_endpoints : gmap string VpcEndpointObject;
  api_vpcs : gmap string VpcStatus;
  api_services : gmap (string * string) ServiceTypes.Service }.

(** A read gives the stored object, reports that there is none, or fails. *)
Definition reads {A} (stored : option A) (r : result api_error A) : Prop :=
  match r with Ok a => stored = Some a | Err NotFound => stored = None | Err _ => True end.

(** The map alone, with reads of stored objects and map calls that succeed. *)
Definition vpm_server (api : vpe_api) : server vpd_call (gmap VpcEndpointKey Z) := fun R c m =>
  match c in vpd_call R0 return R0 -> gmap VpcEndpointKey Z -> Prop with
  | VpdGetEndpoint name => fun r m' => m' = m /\ reads (api_endpoints api !! name) r
  | VpdGetVpc name => fun r m' => m' = m /\ reads (api_vpcs api !! name) r
  | VpdGetService ns name => fun r m' => m' = m /\ reads (api_services api !! (ns, name)) r
  | VpdListEndpoints => fun _ m' => m' = m
  | VpcEndpointMapUpdate k v => fun r m' => r = Ok tt /\ m' = <[k := v]> m
  | VpcEndpointMapDelete k => fun r m' =>
      match m !! k with Some _ => r = Ok tt /\ m' = delete k m | None => r = Err ErrKeyNotExist /\ m' = m end
  end.

(** *** The effect of a run *)

(** The keys of [prev] are replaced by those of [new], at [v]. *)
Definition replaced (prev new : list VpcEndpointKey) (v : Z) (m m' : gmap VpcEndpointKey Z) : Prop :=
  forall k, (k ∈ new -> m' !! k = Some v) /\ (k ∉ new -> k ∈ prev -> m' !! k = None) /\ (k ∉ new -> k ∉ prev -> m' !! k = m !! k).

Definition keysOf (snaps : vpe_state) (key : string) : list VpcEndpointKey :=
  match snaps !! key with Some s => vsn_keys s | None => [] end.

Definition with_snapshot (snaps : vpe_state) (key : string) (s : option vpcEndpointSnapshot) : vpe_state :=
  match s with Some s => <[key := s]> snaps | None => delete key snaps end.

Section Run.
Context `{KubeLib} (api : vpe_api).
#[local] Abbreviation srv := (vpm_server api).

(** The endpoint [key] fronts a Service: it is accepted and has an address, its
    Vpc has an id, and the Service a cluster address. *)
Record fronts (key : string) (e : VpcEndpointObject) (svc : ServiceTypes.Service) (vpcID address ip : Z) : Prop := {
  fr_endpoint : api_endpoints api !! key = Some e;
  fr_accepted : vpe_accepted e = true;
  fr_address : ipv4Of (vpe_Address (vpe_status e)) = Some address;
  fr_vpc : vs_VpcID <$> api_vpcs api !! vpe_Vpc (vpe_spec e) = Some vpcID;
  fr_id : vpcID <> 0;
  fr_service : api_services api !! (vsr_Namespace (vpe_Service (vpe_spec e)), vsr_Name (vpe_Service (vpe_spec e))) = Some svc;
  fr_ip : ipv4Of (svc_ClusterIP svc) = Some ip }.

Lemma fronts_det key e svc vpcID address ip e' svc' vpcID' address' ip' :
  fronts key e svc vpcID address ip -> fronts key e' svc' vpcID' address' ip' ->
  e = e' /\ svc = svc' /\ vpcID = vpcID' /\ address = address' /\ ip = ip'.
Proof.
  intros [] []. assert (e = e') as <- by congruence. assert (svc = svc') as <- by congruence. split_and!; congruence.
Qed.

(** The snapshot the objects ask for. *)
Definition wanted (key : string) (s : option vpcEndpointSnapshot) : Prop :=
  match s with
  | Some s => exists e svc vpcID address ip, fronts key e svc vpcID address ip /\ s = MkVpeSnapshot (portKeys vpcID address (svc_Ports svc)) ip
  | None => forall e svc vpcID address ip, fronts key e svc vpcID address ip -> portKeys vpcID address (svc_Ports svc) = []
  end.

(** The Vpc of an accepted endpoint waits for its id. *)
Definition pending (key : string) : Prop :=
  exists e vpc, api_endpoints api !! key = Some e /\ vpe_accepted e = true /\ api_vpcs api !! vpe_Vpc (vpe_spec e) = Some vpc /\ vs_VpcID vpc = 0.

Inductive vpe_outcome (key : string) (snaps : vpe_state) (m : gmap VpcEndpointKey Z)
  : result vpd_error unit -> vpe_state -> gmap VpcEndpointKey Z -> Prop :=
| vo_failed er : vpe_outcome key snaps m (Err (VpdApi er)) snaps m
| vo_pending : pending key -> vpe_outcome key snaps m (Ok tt) snaps m
| vo_set s m' :
    wanted key s ->
    replaced (keysOf snaps key) (match s with Some s => vsn_keys s | None => [] end) (match s with Some s => vsn_value s | None => 0 end) m m' ->
    vpe_outcome key snaps m (Ok tt) (with_snapshot snaps key s) m'.

Lemma deleteKeys_wp keys m :
  wp srv (deleteKeys keys) (fun r m' => r = Ok tt /\ replaced keys [] 0 m m') m.
Proof.
  apply wp_bind. eapply wp_mono.
  - apply (wp_forP_prefix srv keys [] _ (fun pre errs m' => errs = [] /\ replaced pre [] 0 m m')).
    { split; [done|]. intros k. split_and!; set_solver. }
    intros pre k post errs m1 _ [-> Hm] r m2 Hs. cbn in Hs. cbn.
    assert (Hl : m2 !! k = None /\ (forall k', k' <> k -> m2 !! k' = m1 !! k')).
    { destruct (m1 !! k) eqn:Hk; destruct Hs as [_ ->]; [|done]. split; [by rewrite lookup_delete_eq|]. intros k' Hne. by rewrite lookup_delete_ne. }
    split; [by destruct (m1 !! k); destruct Hs as [-> _]|]. intros k'. destruct (Hm k') as (_ & H2 & H3), Hl as [Hl1 Hl2]. split_and!; [set_solver| |].
    + intros Hn [Hin|Hin]%elem_of_app; [|apply list_elem_of_singleton in Hin as ->; done].
      destruct (decide (k' = k)) as [->|]; [done|]. rewrite Hl2 by done. auto.
    + intros Hn Hin. rewrite Hl2 by set_solver. apply H3; set_solver.
  - by intros errs m' [-> Hm].
Qed.

Lemma program_wp s m :
  wp srv (vpe_programSnapshot s) (fun r m' => r = Ok tt /\ replaced [] (vsn_keys s) (vsn_value s) m m') m.
Proof.
  eapply (wp_forTryP srv _ _ _ (fun pre _ m' => replaced [] pre (vsn_value s) m m')).
  - intros k. split_and!; set_solver.
  - intros pre k post [] m1 _ Hm r m2 [-> ->]. cbn. intros k'. destruct (Hm k') as (H1 & _ & H3). split_and!; [|set_solver|].
    + intros [Hin|Hin]%elem_of_app; [|apply list_elem_of_singleton in Hin as ->; by rewrite lookup_insert_eq].
      destruct (decide (k' = k)) as [->|]; [by rewrite lookup_insert_eq|]. rewrite lookup_insert_ne by done. auto.
    + intros Hn _. rewrite lookup_insert_ne by set_solver. apply H3; set_solver.
  - by intros [] m' Hm.
Qed.

Lemma vpe_delete_outcome key snaps m :
  wanted key None -> wp srv (vpe_delete key snaps) (fun a m' => vpe_outcome key snaps m a.1 a.2 m') m.
Proof.
  intros Hw. unfold vpe_delete. destruct (snaps !! key) as [s|] eqn:Hs; cbn.
  - apply wp_bind. eapply wp_mono; [apply deleteKeys_wp|]. intros r m' [-> Hr]. cbn.
    apply (vo_set _ _ _ None); [done|]. unfold keysOf. by rewrite Hs.
  - replace snaps with (with_snapshot snaps key None) at 2 by (cbn; by apply delete_id).
    apply vo_set; [done|]. unfold keysOf. rewrite Hs. intros k. split_and!; set_solver.
Qed.

Lemma vpe_install_outcome key s snaps m :
  wanted key (Some s) -> wp srv (vpe_install key s snaps) (fun a m' => vpe_outcome key snaps m a.1 a.2 m') m.
Proof.
  intros Hw. unfold vpe_install. apply wp_bind. eapply wp_mono; [apply program_wp|]. intros r m1 [-> H1]. unfold keysOf in *.
  destruct (snaps !! key) as [prev|] eqn:Hs.
  - apply wp_bind. eapply wp_mono; [apply deleteKeys_wp|]. intros r m2 [-> H2]. cbn.
    apply (vo_set _ _ _ (Some s)); [done|]. unfold keysOf. rewrite Hs. intros k. destruct (H1 k) as (A1 & _ & A3), (H2 k) as (_ & B2 & B3).
    assert (Hin : k ∈ List.filter (fun k => negb (containsVpcEndpointKey (vsn_keys s) k)) (vsn_keys prev) <-> k ∈ vsn_keys prev /\ k ∉ vsn_keys s).
    { rewrite !list_elem_of_In, filter_In, negb_true_iff, <- not_true_iff_false. unfold containsVpcEndpointKey.
      rewrite existsb_exists. setoid_rewrite bool_decide_eq_true. rewrite <- list_elem_of_In. split; intros [Hp Hn]; (split; [done|]).
      - intros Hk. apply Hn. by exists k.
      - by intros (x & Hx & ->). }
    split_and!.
    + intros Hk. rewrite B3 by (rewrite ?Hin; first [apply not_elem_of_nil|tauto]). auto.
    + intros Hk Hp. apply B2; [set_solver|]. by apply Hin.
    + intros Hk Hp. rewrite B3 by (rewrite ?Hin; first [apply not_elem_of_nil|tauto]). apply A3; [done|apply not_elem_of_nil].
  - apply (vo_set _ _ _ (Some s)); [done|]. unfold keysOf. by rewrite Hs.
Qed.

Lemma vpd_Reconcile_outcome key snaps m :
  wp srv (vpd_Reconcile key snaps) (fun a m' => vpe_outcome key snaps m a.1 a.2 m') m.
Proof.
  assert (Herr : forall er m', m' = m -> vpe_outcome key snaps m (Err (VpdApi er)) snaps m') by (intros er m' ->; constructor).
  unfold vpd_Reconcile. intros r m1 [-> Hr]. cbn [bind]. destruct r as [e|er]; cbn in Hr.
  2:{ destruct er; try (by apply Herr). apply vpe_delete_outcome. intros e ? ? ? ? []. congruence. }
  unfold vpe_upsert. fold (vpe_accepted e).
  destruct (vpe_accepted e) eqn:Hacc; cbn [negb]; [|apply vpe_delete_outcome; intros e' ? ? ? ? []; congruence].
  destruct (ipv4Of (vpe_Address (vpe_status e))) as [address|] eqn:Haddr; [|apply vpe_delete_outcome; intros e' ? ? ? ? []; congruence].
  intros r m1 [-> Hv]. cbn [bind]. destruct r as [vpc|er]; cbn in Hv; [|by apply Herr].
  destruct (Z.eqb_spec (vs_VpcID vpc) 0) as [Hz|Hz]; [apply vo_pending; by exists e, vpc|].
  intros r m1 [-> Hsv]. cbn [bind]. destruct r as [svc|er]; cbn in Hsv.
  2:{ destruct er; try (by apply Herr). apply vpe_delete_outcome. intros e' ? ? ? ? []. congruence. }
  destruct (ipv4Of (svc_ClusterIP svc)) as [ip|] eqn:Hip; [|apply vpe_delete_outcome; intros e' ? ? ? ? []; congruence].
  assert (Hfr : fronts key e svc (vs_VpcID vpc) address ip) by (constructor; try done; by rewrite Hv).
  destruct (portKeys (vs_VpcID vpc) address (svc_Ports svc)) as [|k ks] eqn:Hk.
  - apply vpe_delete_outcome. intros e' svc' vpcID address' ip' Hfr'. destruct (fronts_det _ _ _ _ _ _ _ _ _ _ _ Hfr Hfr') as (<- & <- & <- & <- & <-). done.
  - apply vpe_install_outcome. exists e, svc, (vs_VpcID vpc), address, ip. split; [done|]. by rewrite Hk.
Qed.
End Run.

(** *** Histories *)

(** The map holds what the snapshots say, and no key belongs to two. *)
Record vpe_exact (snaps : vpe_state) (m : gmap VpcEndpointKey Z) : Prop := {
  ex_entry : forall k v, m !! k = Some v -> exists key s, snaps !! key = Some s /\ k ∈ vsn_keys s;
  ex_snap : forall key s k, snaps !! key = Some s -> k ∈ vsn_keys s -> m !! k = Some (vsn_value s);
  ex_apart : forall key key' s s' k, snaps !! key = Some s -> snaps !! key' = Some s' -> k ∈ vsn_keys s -> k ∈ vsn_keys s' -> key = key' }.

Section History.
Context `{KubeLib}.

(** No other VpcEndpoint the node has recorded has the address. *)
Definition alone (api : vpe_api) (key : string) (snaps : vpe_state) : Prop :=
  forall e svc vpcID address ip key' s k, fronts api key e svc vpcID address ip -> key' <> key -> snaps !! key' = Some s ->
  k ∈ vsn_keys s -> k.1 = vpcID -> sk_ClusterIp k.2 = address -> False.

(** Runs against any objects, with reads that may fail. *)
Inductive vpe_history : vpe_state -> gmap VpcEndpointKey Z -> Prop :=
| vh_start : vpe_history ∅ ∅
| vh_run api key snaps m a m' :
    vpe_history snaps m -> alone api key snaps -> exec (vpm_server api) m (vpd_Reconcile key snaps) a m' -> vpe_history a.2 m'.

Lemma wanted_keys api key s k :
  wanted api key (Some s) -> k ∈ vsn_keys s ->
  exists e svc vpcID address ip, fronts api key e svc vpcID address ip /\ k.1 = vpcID /\ sk_ClusterIp k.2 = address.
Proof.
  intros (e & svc & vpcID & address & ip & Hf & ->) (H1 & H2 & _)%elem_of_portKeys. exists e, svc, vpcID, address, ip. done.
Qed.

Lemma set_exact api key s snaps m m' :
  vpe_exact snaps m -> alone api key snaps -> wanted api key s ->
  replaced (keysOf snaps key) (match s with Some s => vsn_keys s | None => [] end) (match s with Some s => vsn_value s | None => 0 end) m m' ->
  vpe_exact (with_snapshot snaps key s) m'.
Proof.
  intros [H1 H2 H3] Hal Hw Hr.
  assert (Hother : forall key0 s0, key0 <> key -> with_snapshot snaps key s !! key0 = Some s0 <-> snaps !! key0 = Some s0).
  { intros key0 s0 Hne. destruct s; cbn; [by rewrite lookup_insert_ne by done|by rewrite lookup_delete_ne by done]. }
  assert (Hsame : forall s0, with_snapshot snaps key s !! key = Some s0 <-> s = Some s0).
  { intros s0. destruct s; cbn; [by rewrite lookup_insert_eq|by rewrite lookup_delete_eq]. }
  assert (Hnew : forall key0 s0 k, key0 <> key -> snaps !! key0 = Some s0 -> k ∈ vsn_keys s0 -> k ∉ match s with Some s => vsn_keys s | None => [] end).
  { intros key0 s0 k Hne Hs Hk Hin. destruct s as [s|]; [|by apply elem_of_nil in Hin].
    destruct (wanted_keys _ _ _ _ Hw Hin) as (e & svc & vpcID & address & ip & Hf & Hi & Ha). by eapply Hal. }
  constructor.
  - intros k v Hk. destruct (Hr k) as (R1 & R2 & R3).
    destruct (decide (k ∈ match s with Some s => vsn_keys s | None => [] end)) as [Hin|Hin].
    { destruct s as [s|]; [|by apply elem_of_nil in Hin]. exists key, s. split; [by apply Hsame|done]. }
    destruct (decide (k ∈ keysOf snaps key)) as [Hp|Hp]; [rewrite R2 in Hk by done; done|]. rewrite R3 in Hk by done.
    destruct (H1 _ _ Hk) as (key0 & s0 & Hs & Hks). exists key0, s0. split; [|done]. apply Hother; [|done].
    intros ->. apply Hp. unfold keysOf. by rewrite Hs.
  - intros key0 s0 k Hs Hk. destruct (Hr k) as (R1 & R2 & R3). destruct (decide (key0 = key)) as [->|Hne].
    { apply Hsame in Hs as ->. auto. }
    apply Hother in Hs; [|done]. rewrite R3; [by eapply H2|by eapply Hnew|]. unfold keysOf.
    destruct (snaps !! key) as [sp|] eqn:Hp; [|apply not_elem_of_nil]. intros Hin. apply Hne. by eapply H3.
  - intros key0 key1 s0 s1 k Hs0 Hs1 Hk0 Hk1. destruct (decide (key0 = key)) as [->|Hn0], (decide (key1 = key)) as [->|Hn1]; [done| | |].
    + apply Hsame in Hs0 as ->. apply Hother in Hs1; [|done]. by destruct (Hnew _ _ _ Hn1 Hs1 Hk1).
    + apply Hsame in Hs1 as ->. apply Hother in Hs0; [|done]. by destruct (Hnew _ _ _ Hn0 Hs0 Hk0).
    + apply Hother in Hs0; [|done]. apply Hother in Hs1; [|done]. by eapply H3.
Qed.

Lemma outcome_exact api key snaps m r snaps' m' :
  vpe_exact snaps m -> alone api key snaps -> vpe_outcome api key snaps m r snaps' m' -> vpe_exact snaps' m'.
Proof. intros He Hal [er|Hp|s m1 Hw Hr]; [done..|]. by eapply set_exact. Qed.

Lemma vpe_history_exact snaps m : vpe_history snaps m -> vpe_exact snaps m.
Proof.
  induction 1 as [|api key snaps m a m' _ IH Hal Hrun].
  - constructor; intros *; by rewrite ?lookup_empty.
  - eapply outcome_exact; [done..|]. exact (wp_exec _ _ _ _ _ _ (vpd_Reconcile_outcome api key snaps m) Hrun).
Qed.
End History.

(** *** Packets *)

Lemma protocols_agree proto : protoToU8 proto <> 0 -> vpcEndpointProtocol proto = protoToU8 proto.
Proof. unfold protoToU8, vpcEndpointProtocol. destruct (_ || _); [done|]. by destruct (String.eqb proto "UDP"). Qed.

Lemma exposed_fronted svc ip port :
  exposed svc ip ip port -> 1 <= sp_Port port <= 65535 -> fronted svc (sp_Port port) (protoToU8 (sp_Protocol port)).
Proof. intros (_ & Hp & Hz) Hr. exists port. split_and!; [done..|lia|lia|by apply protocols_agree|done]. Qed.

Section Endpoint.
Context `{KubeLib} (api : vpe_api) (key : string) (e : VpcEndpointObject) (svc : ServiceTypes.Service) (vpcID address ip : Z).
Context (snaps snaps' : vpe_state) (m m' : gmap VpcEndpointKey Z).
Hypothesis Hfr : fronts api key e svc vpcID address ip.
Hypothesis Hexact : vpe_exact snaps m.
Hypothesis Halone : alone api key snaps.
Hypothesis Hout : vpe_outcome api key snaps m (Ok tt) snaps' m'.

(** The entries at the address are the ports of the Service. *)
Lemma endpoint_entries port proto :
  (fronted svc port proto -> m' !! (vpcID, MkServiceKey address port proto) = Some ip) /\
  (~ fronted svc port proto -> m' !! (vpcID, MkServiceKey address port proto) = None).
Proof.
  pose proof (outcome_exact _ _ _ _ _ _ _ Hexact Halone Hout) as Hexact'.
  inversion Hout as [|(e' & vpc & He & _ & Hv & Hz)|s m1 Hw Hr]; subst.
  { destruct Hfr. assert (e' = e) as -> by congruence. rewrite Hv in fr_vpc0. cbn in fr_vpc0. congruence. }
  assert (Hs : forall k, k ∈ match s with Some s => vsn_keys s | None => [] end <-> k ∈ portKeys vpcID address (svc_Ports svc)).
  { intros k. destruct s as [s|]; [|by rewrite (Hw _ _ _ _ _ Hfr)].
    destruct Hw as (e' & svc' & vpcID' & address' & ip' & Hf' & ->). by destruct (fronts_det _ _ _ _ _ _ _ _ _ _ _ _ Hfr Hf') as (<- & <- & <- & <- & <-). }
  destruct (Hr (vpcID, MkServiceKey address port proto)) as (R1 & R2 & R3). split; intros Hf.
  - rewrite R1 by (apply Hs, elem_of_portKeys; done). destruct s as [s|].
    + destruct Hw as (e' & svc' & vpcID' & address' & ip' & Hf' & ->). by destruct (fronts_det _ _ _ _ _ _ _ _ _ _ _ _ Hfr Hf') as (_ & _ & _ & _ & <-).
    + assert (Hin : (vpcID, MkServiceKey address port proto) ∈ portKeys vpcID address (svc_Ports svc)) by (apply elem_of_portKeys; done).
      apply Hs in Hin. by apply elem_of_nil in Hin.
  - destruct (m' !! _) as [v|] eqn:Hl; [|done]. destruct (ex_entry _ _ Hexact' _ _ Hl) as (key0 & s0 & Hs0 & Hk).
    destruct (decide (key0 = key)) as [->|Hne].
    + exfalso. apply Hf. assert (s = Some s0) as ->.
      { destruct s; cbn in Hs0; [by rewrite lookup_insert_eq in Hs0|by rewrite lookup_delete_eq in Hs0]. }
      apply Hs, elem_of_portKeys in Hk as (_ & _ & Hk). exact Hk.
    + exfalso. eapply Halone; [exact Hfr|exact Hne| |exact Hk|done|done].
      destruct s; cbn in Hs0; [by rewrite lookup_insert_ne in Hs0 by done|by rewrite lookup_delete_ne in Hs0 by done].
Qed.
End Endpoint.

(** Claim C12: the address of a VpcEndpoint stands for its Service.  Let a node
    have reconciled the Service, which is served, and then a VpcEndpoint, after
    any histories of both reconcilers in which no call of a map fails, no two
    Services have an address and no two VpcEndpoints of a Vpc have one; no
    other recorded Service or VpcEndpoint has an address of these two either.
    If both runs answer [nil] and the VpcEndpoint fronts the Service (it is
    accepted and has an address, its Vpc an id, the Service a cluster
    address), then a packet of that Vpc on the route of the pool for the
    address and a port of the Service goes to one of exactly the backends the
    EndpointSlices, Pods, interfaces and Subnets give the port, whichever Vpc
    owns the Service and whether or not it is shared; a packet for any other
    port is dropped.  The entries of a VpcEndpoint that fronts nothing any more
    are gone, except while it is accepted and its Vpc has lost its id: then
    the run answers [nil] and the entries stay.  The other entries are
    untouched.  A run of the VpcEndpoint answers an error only when a read
    did, and leaves everything as it was. *)
Theorem endpoint_decides `{KubeLib} (nodeIP : option Z) (nodeName : string) (sha256 : list Z -> string) (sapi : svc_api)
    (skey ns name : string) (svc : ServiceTypes.Service) (ip : Z) (spec : AddressPlan.Vpc) (status : VpcStatus)
    (ssnaps ssnaps' : svc_state) (w w' : svc_world)
    (vapi : vpe_api) (key : string) (snaps snaps' : vpe_state) (m m' : gmap VpcEndpointKey Z) (r : result vpd_error unit)
    (Hhist : svc_history nodeIP nodeName sha256 ssnaps w)
    (Hkey : cut_first "/"%char skey = Some (ns, name)) (Hsvc : api_service sapi !! (ns, name) = Some svc)
    (Hserved : served sapi svc ip spec status) (Hports : ports_apart svc)
    (Hlen : forall port, Z.of_nat (length (svc_backends sapi nodeIP nodeName svc port)) < 2 ^ 32)
    (Hex : exclusive sapi skey ssnaps)
    (Hrun : exec (svc_server sapi no_fault) w (svc_Reconcile nodeIP nodeName sha256 skey ssnaps) (Ok tt, ssnaps') w')
    (Hvhist : vpe_history snaps m) (Halone : alone vapi key snaps)
    (Hvrun : exec (vpm_server vapi) m (vpd_Reconcile key snaps) (r, snaps') m') :
  match r with
  | Err er => (exists a, er = VpdApi a) /\ m' = m /\ snaps' = snaps
  | Ok _ =>
      (forall e vpcID address, fronts vapi key e svc vpcID address ip ->
         forall port, exists backends,
         (forall bv, bv ∈ backends <-> is_backend sapi nodeIP nodeName svc port bv) /\
         forall pk now aff,
         let W := MkSvcWorld (service_map w') (backend_map w') (service_acl_map w') m' aff in
         sane_affinity W -> pk_via_pool pk = true -> pk_vpc pk = vpcID -> pk_daddr pk = address ->
         (exposed svc ip ip port -> 1 <= sp_Port port <= 65535 -> pk_dport pk = sp_Port port ->
            pk_proto pk = protoToU8 (sp_Protocol port) ->
            reaches svc (vs_VpcID status) backends pk (handle_service W pk now).1) /\
         (~ fronted svc (pk_dport pk) (pk_proto pk) -> (handle_service W pk now).1 = SvcDrop)) /\
      ((forall e svc vpcID address ip, ~ fronts vapi key e svc vpcID address ip) -> ~ pending vapi key ->
         forall k, k ∈ keysOf snaps key -> m' !! k = None) /\
      (forall k, k ∉ keysOf snaps key ->
         (forall e svc vpcID address ip, fronts vapi key e svc vpcID address ip -> k.1 = vpcID -> sk_ClusterIp k.2 <> address) ->
         m' !! k = m !! k)
  end.
Proof.
  pose proof (wp_exec _ _ _ _ _ _ (vpd_Reconcile_outcome vapi key snaps m) Hvrun) as Hout. cbn [fst snd] in Hout.
  destruct r as [[]|er]; [|inversion Hout; subst; eauto]. pose proof (vpe_history_exact _ _ Hvhist) as Hexact. split_and!.
  - intros e vpcID address Hfr port. exists (rb_val <$> svc_backends sapi nodeIP nodeName svc port).
    split; [apply svc_backends_exact|]. intros pk now aff W Haff Hvia Hpv Hpd.
    pose proof (endpoint_entries _ _ _ _ _ _ _ _ _ _ _ Hfr Hexact Halone Hout (pk_dport pk) (pk_proto pk)) as [Hyes Hno].
    assert (Hsk : service_key_of W pk = option_map (fun ip => MkServiceKey ip (pk_dport pk) (pk_proto pk)) (m' !! (vpcID, MkServiceKey address (pk_dport pk) (pk_proto pk)))).
    { unfold service_key_of. by rewrite Hvia, Hpv, Hpd. }
    split.
    + intros Hexp Hr Hdp Hpr. pose proof (exposed_fronted _ _ _ Hexp Hr) as Hf. rewrite <- Hdp, <- Hpr in Hf. rewrite (Hyes Hf) in Hsk.
      assert (Hk : MkServiceKey ip (pk_dport pk) (pk_proto pk) = key_of ip port) by (unfold key_of; rewrite wrapU_id by (unfold fitsU; lia); congruence).
      cbn in Hsk. rewrite Hk in Hsk. subst W. rewrite (run_written _ _ _ _ _ _ _ _ _ _ _ _ _ _ _ Hkey Hsvc Hserved Hrun) in *.
      eapply written_chosen; try done. intros sv _. unfold caller_admitted. rewrite Hvia. cbn. by rewrite !andb_false_r.
    + intros Hf. rewrite (Hno Hf) in Hsk. unfold handle_service. by rewrite Hsk.
  - intros Hnone Hpend k Hk. inversion Hout as [|Hp|s m1 Hw Hr]; subst; [done|]. destruct (Hr k) as (_ & R2 & _). apply R2; [|done].
    destruct s as [s|]; [|apply not_elem_of_nil]. destruct Hw as (e & svc' & vpcID & address & ip' & Hf & _). by apply Hnone in Hf.
  - intros k Hk Hnot. inversion Hout as [|Hp|s m1 Hw Hr]; subst; [done|]. destruct (Hr k) as (_ & _ & R3). apply R3; [|done].
    destruct s as [s|]; [|apply not_elem_of_nil]. intros Hin. destruct (wanted_keys _ _ _ _ Hw Hin) as (e & svc' & vpcID & address & ip' & Hf & H1 & H2).
    by eapply Hnot.
Qed.
