(* ===== verification/VpcEndpointWitness.v ===== *)
(** * VpcEndpointWitness: VpcEndpoints to evaluate on

    The Vpc [lab] reaches the Service [web] of the provider [shop] through the
    VpcEndpoint [web-ep], from the run of the controller to the packet; and
    runs in which an acceptance outlives what it was given for. *)

From stdpp Require Import base gmap strings list fin_maps.
From Stdlib Require Import ZArith Lia Ascii.
From S2P Require Import Prelude Effects Netip Kube AllocationTypes AllocationAPI PodNetwork.
From S2P Require Import PolicyStores AddressPlan RouteTypes NodeTables Conntrack ServiceTypes.
From S2P Require Import ServiceReconciler ServiceDataplane ServiceMaps ServiceBackends ServiceTheorems ServiceWitness.
From S2P Require Import VpcEndpoint VpcEndpointTheorems.

Open Scope Z_scope.

(** ** The cluster *)

Definition lab_pool : AddressPlan.Vpc := AddressPlan.MkVpc "lab" None None false (Some ["10.2.0.0/24"]%string).
Definition bank_vpc : AddressPlan.Vpc := AddressPlan.MkVpc "bank" None (Some (MkVpcService None true)) false None.

(** A Service of [bank], which routes Services and offers none to others. *)
Definition vault : ServiceTypes.Service :=
  MkService "prod" "vault" {[ AnnotationVpc := "bank"%string ]} "ClusterIP" "10.96.0.20" ["10.96.0.20"]%string [] [http] None "None" None.

Definition web_ref : VpcEndpointServiceReference := MkServiceRef "prod" "web".
Definition vault_ref : VpcEndpointServiceReference := MkServiceRef "prod" "vault".

Definition new_endpoint : VpcEndpointObject :=
  MkVpcEndpoint (MkMeta "web-ep" "" "" "" 1 [] None []) (MkVpeSpec "lab" web_ref) (MkVpeStatus 0 [] "" "").

Definition endpoint_claim : AllocationClaim :=
  MkClaim (NewMeta "claim") (claim_spec (newAllocationClaim "" "" "" "" "" "")) (MkClaimStatus 1 [] ClaimPhaseAllocated (MkValue 0 "10.2.0.5")).

Definition cluster (e : VpcEndpointObject) (shop : AddressPlan.Vpc) : handler vpe_call unit := fun R c s =>
  match c in vpe_call R return R * unit with
  | GetVpcEndpoint _ => (Ok e, s)
  | VpeGetVpc name => (reads_of (({[ "lab" := lab_pool; "shop" := shop; "bank" := bank_vpc ]}%string : gmap string AddressPlan.Vpc) !! name), s)
  | VpeGetService ns name =>
      (reads_of (({[ ("prod", "web") := web; ("prod", "vault") := vault ]}%string : gmap (string * string) ServiceTypes.Service) !! (ns, name)), s)
  | VpeListSlices ns name => (Ok [MkEndpointSlice ns name "IPv4" ex_endpoints []], s)
  | VpeEnsureClaim _ _ => (Ok endpoint_claim, s)
  | VpeNow => (0, s)
  | UpdateVpcEndpointStatus _ => (Ok tt, s)
  | VpeListEndpoints => (Ok [e], s)
  end.

(** The record of a run of the controller, and the status it writes. *)
Definition calls_on (e : VpcEndpointObject) (shop : AddressPlan.Vpc) : list (entry vpe_call) :=
  replay (cluster e shop) (vpe_Reconcile "web-ep") tt [].

Definition update_of (x : entry vpe_call) : option VpcEndpointObject :=
  match x with @Entry _ R c _ => match c with UpdateVpcEndpointStatus e => Some e | _ => None end end.
Definition read_of (x : entry vpe_call) : option VpcEndpointObject :=
  match x with
  | @Entry _ R c r =>
      match c in vpe_call R return R -> option VpcEndpointObject with
      | GetVpcEndpoint _ => fun r => match r with Ok e => Some e | Err _ => None end
      | _ => fun _ => None
      end r
  end.

Definition published (e : VpcEndpointObject) (shop : AddressPlan.Vpc) : VpcEndpointObject :=
  default e (head (omap update_of (calls_on e shop))).

Definition web_ep : VpcEndpointObject := published new_endpoint shop_vpc.1.

Example web_ep_status :
  vpe_accepted web_ep = true /\ vpe_Address (vpe_status web_ep) = "10.2.0.5"%string /\
  IsStatusConditionTrue (vpe_Conditions (vpe_status web_ep)) VpcEndpointConditionReady = true.
Proof. split_and!; vm_compute; reflexivity. Qed.

Lemma web_ep_controlled : vpe_controlled web_ep.
Proof.
  apply (vpe_published "web-ep" (calls_on new_endpoint shop_vpc.1) _ (Ok tt)); [apply replay_passes| |].
  - vm_compute. repeat (apply elem_of_cons; (left; reflexivity) || right).
  - intros e Hin. apply (list_elem_of_fmap_2 read_of) in Hin. cbn [read_of] in Hin. apply vpe_new.
    assert (Hl : omap read_of (calls_on new_endpoint shop_vpc.1) = [new_endpoint]) by (vm_compute; reflexivity).
    assert (Hin' : e ∈ omap read_of (calls_on new_endpoint shop_vpc.1)).
    { apply list_elem_of_fmap in Hin as (x & Hx & Hin). apply list_elem_of_omap. by exists x. }
    rewrite Hl in Hin'. apply list_elem_of_singleton in Hin' as ->. vm_compute. reflexivity.
Qed.

(** ** The node *)

Definition vpd_node (e : VpcEndpointObject) : handler vpd_call vpd_world := fun R c w =>
  match c in vpd_call R return R * vpd_world with
  | VpdGetEndpoint _ => (Ok e, MkVpdWorld (vw_map w) (e :: vw_endpoints w) (vw_vpcs w) (vw_services w))
  | VpdGetVpc name => let v := MkVpcStatus 2 "main" in (Ok v, MkVpdWorld (vw_map w) (vw_endpoints w) ((name, v) :: vw_vpcs w) (vw_services w))
  | VpdGetService ns name =>
      let svc := if String.eqb name "vault" then vault else web in
      (Ok svc, MkVpdWorld (vw_map w) (vw_endpoints w) (vw_vpcs w) ((ns, name, svc) :: vw_services w))
  | VpdListEndpoints => (Ok [e], w)
  | VpcEndpointMapUpdate k v => (Ok tt, set_map w (<[k := v]> (vw_map w)))
  | VpcEndpointMapDelete k => (Ok tt, set_map w (delete k (vw_map w)))
  end.

Definition vpd_empty : vpd_world := MkVpdWorld ∅ [] [] [].
Definition vpd_do (e : VpcEndpointObject) (s : vpe_state * vpd_world) : vpe_state * vpd_world :=
  let out := run (vpd_node e) (vpd_Reconcile "web-ep" s.1) s.2 in (out.1.2, out.2).

Lemma vpd_do_exec e s :
  exec (vpd_server (fun _ _ => false)) s.2 (vpd_Reconcile "web-ep" s.1) (run (vpd_node e) (vpd_Reconcile "web-ep" s.1) s.2).1 (vpd_do e s).2.
Proof. eapply exec_mono; [|apply run_exec]. intros R c w r w'. unfold server_of. destruct c; cbn; by intros [= <- <-]. Qed.

(** A packet of a Pod of [lab] to 10.2.0.5, on the route of the pool. *)
Definition endpoint_packet : svc_packet := MkSvcPacket 2 167772200 167903237 40000 80 6 true.

(** The maps of both reconcilers together. *)
Definition together (w : svc_world) (m : gmap VpcEndpointKey Z) : svc_world :=
  MkSvcWorld (service_map w) (backend_map w) (service_acl_map w) m ∅.

Definition web_node : svc_world := together (svc_do digest ex_api "prod/web" svc_empty).2 (vw_map (vpd_do web_ep (∅, vpd_empty)).2).

Example web_ep_works : (handle_service web_node endpoint_packet 0).1 = SvcTo backend_a CrossVpc.
Proof. vm_compute. reflexivity. Qed.

(** ** Witnesses *)

(** The packet that reaches [web] was accepted for [lab]. *)
Lemma endpoint_grant_accepted_witness :
  (handle_service web_node endpoint_packet 0).1 = SvcTo backend_a CrossVpc /\
  exists e, e ∈ [web_ep] /\ ipv4Of (vpe_Address (vpe_status e)) = Some 167903237 /\ vpe_approved e.
Proof.
  split; [vm_compute; reflexivity|].
  destruct (endpoint_grant_accepted (fun _ _ => false) (vpd_do web_ep (∅, vpd_empty)).2 web_node endpoint_packet 0 backend_a CrossVpc)
    as (e & svc & vpc & ip & i & He & _ & _ & Ha & _ & _ & _ & _ & Hap).
  - exists "web-ep"%string, ∅, vpd_empty. split; [apply vpd_start|]. eapply exec_passes. exact (vpd_do_exec web_ep (∅, vpd_empty)).
  - reflexivity.
  - assert (Hl : vw_endpoints (vpd_do web_ep (∅, vpd_empty)).2 = [web_ep]) by (vm_compute; reflexivity).
    rewrite Hl. apply Forall_singleton. apply web_ep_controlled.
  - reflexivity.
  - vm_compute. reflexivity.
  - exists e. split_and!; [exact He|exact Ha|exact Hap].
Defined.

(** The objects of the node as a store. *)
Definition ex_vapi : vpe_api :=
  MkVpeApi {[ "web-ep"%string := web_ep ]} {[ "lab"%string := MkVpcStatus 2 "main" ]} {[ ("prod", "web")%string := web ]}.

Definition vpm_node (api : vpe_api) : handler vpd_call (gmap VpcEndpointKey Z) := fun R c m =>
  match c in vpd_call R return R * gmap VpcEndpointKey Z with
  | VpdGetEndpoint name => (reads_of (api_endpoints api !! name), m)
  | VpdGetVpc name => (reads_of (api_vpcs api !! name), m)
  | VpdGetService ns name => (reads_of (api_services api !! (ns, name)), m)
  | VpdListEndpoints => (Ok (map_to_list (api_endpoints api)).*2, m)
  | VpcEndpointMapUpdate k v => (Ok tt, <[k := v]> m)
  | VpcEndpointMapDelete k => (match m !! k with Some _ => Ok tt | None => Err ErrKeyNotExist end, delete k m)
  end.

Lemma vpm_node_ok api R (c : vpd_call R) m r m' : vpm_node api R c m = (r, m') -> vpm_server api R c m r m'.
Proof.
  destruct c as [name|name|ns name| |k v|k]; cbn [vpm_node vpm_server]; intros [= <- <-]; unfold reads_of, reads.
  1-3: split; [done|]; match goal with |- context [?a !! ?b] => by destruct (a !! b) end.
  - done.
  - done.
  - destruct (m !! k) eqn:Hk; [done|]. split; [done|]. by apply delete_id.
Qed.

Lemma web_fronts : fronts ex_vapi "web-ep" web_ep web 2 167903237 174063626.
Proof. constructor; vm_compute; done. Qed.

Lemma endpoint_decides_witness :
  let m' := (run (vpm_node ex_vapi) (vpd_Reconcile "web-ep" ∅) ∅).2 in
  let w' := (svc_do digest ex_api "prod/web" svc_empty).2 in
  (handle_service (together w' m') endpoint_packet 0).1 = SvcTo backend_a CrossVpc /\
  exists backends, (forall bv, bv ∈ backends <-> is_backend ex_api node_ip "n1" web http bv) /\
    reaches web 1 backends endpoint_packet (handle_service (together w' m') endpoint_packet 0).1.
Proof.
  intros m' w'. split; [vm_compute; reflexivity|].
  pose proof (endpoint_decides node_ip "n1" digest ex_api "prod/web" "prod" "web" web 174063626 shop_vpc.1 shop_vpc.2
    ∅ (svc_do digest ex_api "prod/web" svc_empty).1 svc_empty.2 w'
    ex_vapi "web-ep" ∅ (run (vpm_node ex_vapi) (vpd_Reconcile "web-ep" ∅) ∅).1.2 ∅ m' (Ok tt)) as Hmain.
  destruct Hmain as [Hv _].
  - apply sh_start.
  - reflexivity.
  - reflexivity.
  - by apply web_served.
  - unfold ports_apart. cbn. apply NoDup_singleton.
  - intros port. pose proof (ex_backends port). lia.
  - apply ex_exclusive.
  - pose proof (svc_do_exec digest ex_api "prod/web" svc_empty) as He. rewrite (surjective_pairing (run _ _ _).1) in He. exact He.
  - apply vh_start.
  - intros e svc vpcID address ip key' s k _ _ Hs. by apply lookup_empty_Some in Hs.
  - assert (He : exec (vpm_server ex_vapi) ∅ (vpd_Reconcile "web-ep" ∅) (run (vpm_node ex_vapi) (vpd_Reconcile "web-ep" ∅) ∅).1 m').
    { eapply exec_mono; [|apply run_exec]. intros R c m r m1. apply vpm_node_ok. }
    rewrite (surjective_pairing (run _ _ _).1) in He. exact He.
  - destruct (Hv web_ep 2 167903237 web_fronts http) as (backends & Hb & Hp). exists backends. split; [exact Hb|].
    destruct (Hp endpoint_packet 0 ∅) as [Hr _]; [|done..|].
    + intros k v Hk. cbn in Hk. by apply lookup_empty_Some in Hk.
    + apply Hr; [|cbn; lia|done|done]. split_and!; [vm_compute; set_solver|cbn; set_solver|done].
Defined.

(** ** Acceptances that outlive their reason *)

Definition vault_vpc : AddressPlan.Vpc * VpcStatus := (bank_vpc, MkVpcStatus 3 "main").
Definition vault_api : svc_api :=
  MkSvcApi {[ ("prod", "vault")%string := vault ]} {[ "bank"%string := vault_vpc ]}
    (fun _ _ => [MkEndpointSlice "prod" "vault" "IPv4" [pod_endpoint "v" "10.3.0.5"] [(None, Some 8080)]])
    (fun _ pod => [pod_nic pod]) {[ "front"%string := MkSubnetObject "front" "bank" "10.3.0.0/24" "" "" 300 "10.3.0.1" "" "" "" 0 ]}.
Definition backend_v : BackendVal := MkBackendVal 167968773 8080 0 300.

(** The user points the VpcEndpoint at [vault]. *)
Definition retargeted : VpcEndpointObject :=
  MkVpcEndpoint (MkMeta "web-ep" "" "" "" 2 [] None []) (MkVpeSpec "lab" vault_ref) (vpe_status web_ep).

(** An acceptance is used for a Service it was not given for.  A user
    points an accepted VpcEndpoint at a Service of a Vpc that is not a provider,
    which the webhook admits; the reconciler of the node, which asks for the
    condition and not for its generation, writes the entry, and packets of the
    Vpc reach the Service, which is dropped to them otherwise and which the
    controller refuses in its next run. *)
Theorem retarget_before_acceptance :
  let s := vpd_do retargeted (vpd_do web_ep (∅, vpd_empty)) in
  let w := (svc_do digest vault_api "prod/vault" svc_empty).2 in
  vpe_ValidateUpdate web_ep retargeted = [] /\
  vpe_ObservedGeneration (vpe_status retargeted) < Generation (vpe_meta retargeted) /\
  (handle_service (together w (vw_map s.2)) (MkSvcPacket 2 167772200 174063636 40000 80 6 false) 0).1 = SvcDrop /\
  (handle_service (together w (vw_map s.2)) endpoint_packet 0).1 = SvcTo backend_v CrossVpc /\
  vpe_accepted (published retargeted shop_vpc.1) = false.
Proof. intros s w. split_and!; vm_compute; reflexivity. Qed.

(** [shop] no longer offers Services to other Vpcs. *)
Definition shop_private : AddressPlan.Vpc := AddressPlan.MkVpc "shop" None (Some (MkVpcService None true)) false None.

(** A Vpc that stops being a provider is not noticed.  The watch on
    Vpcs wakes the VpcEndpoints of that Vpc and not those that front one of its
    Services, so the acceptance stays published, and the Vpc of the
    VpcEndpoint keeps reaching the Service, until some other event runs the
    controller, which then refuses. *)
Theorem revoked_provider_keeps_grant :
  (run (cluster web_ep shop_private) (vpe_mapVpc "shop") tt).1 = [] /\
  (run (cluster web_ep shop_private) (vpe_mapService web) tt).1 = ["web-ep"%string] /\
  vpe_accepted (published web_ep shop_private) = false /\
  (handle_service web_node endpoint_packet 0).1 = SvcTo backend_a CrossVpc.
Proof. split_and!; vm_compute; reflexivity. Qed.
