(* ===== verification/UnallocatedTables.v ===== *)
(** * UnallocatedTables: RouteTables before their table id

    The RouteTable controller, the FIB reconciler, the Subnet reconciler and the
    packet program put together on two Vpcs whose RouteTables have no table id
    yet. *)

From stdpp Require Import base gmap strings list fin_maps.
From Stdlib Require Import ZArith Lia.
From S2P Require Import Prelude Effects Netip IPNet Kube PolicyEval PolicyStores OwnedAddr.
From S2P Require Import ExternalAddr NodeTables.
From S2P Require Import AddressPlan RouteTypes RouteTable Fib FibTables FibPublish RoutingTheorems RoutingWitness.

Open Scope Z_scope.

(** Two Vpcs with the same addresses, each with a new RouteTable. *)
Definition vpc_w : Vpc := MkVpc "w" None None false None.
Definition others_subnet : Subnet := MkSubnet "others" None "w" "10.0.1.0/24" "" "".
Definition cluster_v : cluster := MkCluster a_vpc [apps; others_subnet] [] [] [] [].
Definition cluster_w : cluster := MkCluster vpc_w [apps; others_subnet] [] [] [] [].
Definition table_v : RouteTable := reconciled cluster_v (new_table "main-v" "v" 0 []).
Definition table_w : RouteTable := reconciled cluster_w (new_table "main-w" "w" 0 []).

(** The FIB reconciler sees the table of "v", and later the table of "w". *)
Definition api_vw : node_api := a_node [table_v; table_w].
Definition node_v := node_run api_vw (ReconcileTable "main-v") node_start.
Definition node_vw := node_run api_vw (ReconcileTable "main-w") node_v.

(** The Subnet reconciler on the Subnet "apps" of "v"; the state is [subnet_map]. *)
Definition apps_object : SubnetObject :=
  MkSubnetObject "apps" "v" "10.0.1.0/24" "" "" 11 "10.0.1.1" "02:00:00:00:01:01" "" "" 0.
Definition subnet_node : handler node_call (gmap Z SubnetVal) :=
  fun R e m =>
  match e in node_call R return R * gmap Z SubnetVal with
  | GetSubnetObject name => (if String.eqb name "apps" then Ok apps_object else Err NotFound, m)
  | GetVpcStatus name => (if String.eqb name "v" then Ok (MkVpcStatus 1 "main-v") else Err NotFound, m)
  | GetTableID name =>
      (found (rts_TableID ∘ rtb_status <$> List.find (fun rt => String.eqb (rtb_name rt) name) (n_tables api_vw)), m)
  | SubnetMapUpdate vni v => (Ok tt, <[vni := v]> m)
  | SubnetMapDelete vni => (Ok tt, delete vni m)
  | GetEndpointObject _ _ => (Err NotFound, m)
  | ListSubnetObjects | ListSubnetObjectsOf _ => (Ok [], m)
  | ArpTableUpdate _ _ | ArpTableDelete _ | FdbUpdate _ _ _ | FdbDelete _ _ => (Ok tt, m)
  | @ExtCall R e =>
      (match e in ext_event R return R with
       | ExtPoolUpdate _ _ | ExtPoolDelete _ | DirectUpdate _ _ | DirectDelete _ | ArpUpdate _ _ | ArpDelete _
       | NaptUpdate _ _ | NaptDelete _ => Ok tt
       | GetSubnetVNI _ | GetExternalNetwork _ | GetEndpoint _ _ | GetARPAdvertisement _ | GetAttachment _ => Err NotFound
       | ListEndpoints | ListARPAdvertisements | ExternalAddr.ListAttachments | ExternalAddr.ListNATGateways | ListAddressPools
       | ListBGPAdvertisements => Ok []
       end, m)
  end.

Definition subnets_written : gmap Z SubnetVal := (run subnet_node (subnet_Reconcile "apps" ∅) ∅).2.

(** 10.0.1.7 is a neighbour in both Vpcs. *)
Definition addr_7 : Z := 167772423.
Definition neighbours : gmap (Z * Z) (list Z) :=
  {[ (11, addr_7) := [2; 0; 0; 0; 0; 17]; (21, addr_7) := [2; 0; 0; 0; 0; 33] ]}.

(** What the program does with a packet of the Subnet with the VNI 11 to
    10.0.1.7. *)
Definition packet_of_v (s : fstate) : option l3_action :=
  (fun v => handle_l3 (node_dataplane s neighbours) (sv_TableId v) addr_7) <$> subnets_written !! 11.

(** RouteTables that wait for their table id share the table 0.  The
    controller publishes the routes of a table before its id is allocated; the
    FIB reconciler installs such a table under the id 0, the one of another Vpc
    over it, and the Subnet reconciler sends the packets of the Subnet to the
    table 0.  Here a packet in Vpc "v" to its own neighbour 10.0.1.7 is delivered
    to the one at that address in Vpc "w". *)
Theorem unallocated_tables_share_id :
  rtb_Vpc table_v <> rtb_Vpc table_w /\
  rts_TableID (rtb_status table_v) = 0 /\ rts_TableID (rtb_status table_w) = 0 /\
  is_ready table_v = false /\ is_ready table_w = false /\
  node_settled node_v /\ node_settled node_vw /\
  sv_TableId <$> subnets_written !! 11 = Some 0 /\
  packet_of_v node_v.2 = Some (ForwardL2 11 [2; 0; 0; 0; 0; 17] [2; 0; 0; 0; 1; 1]) /\
  packet_of_v node_vw.2 = Some (ForwardL2 21 [2; 0; 0; 0; 0; 33] [2; 0; 0; 0; 3; 1]).
Proof.
  assert (Hv : node_settled node_v) by (apply node_run_settled; constructor).
  split_and!; [done|done|done|done|done|exact Hv|exact (node_run_settled _ _ _ Hv)|..]; vm_compute; reflexivity.
Qed.
