(* ===== verification/TransitWitness.v ===== *)
(** * TransitWitness: transit gateways evaluated

    Two Vpcs behind a transit gateway: runs of the controllers and of a node,
    to which the theorems are applied. *)

From stdpp Require Import base gmap strings list fin_maps.
From Stdlib Require Import ZArith Lia.
From S2P Require Import Prelude Effects Netip IPNet Kube PolicyEval PolicyStores OwnedAddr AllocationTypes PodNetwork.
From S2P Require Import NetworkInterfaceReconciler ElasticIPReconciler AddressPlan RouteTypes RouteTable.
From S2P Require Import Fib FibTables FibPublish RoutingTheorems RoutingWitness TransitGateway TransitTheorems LinkTheorems.

Open Scope Z_scope.

(** ** Objects *)

Definition meta_named (name : string) : ObjectMeta := MkMeta name "" "" "" 1 [] None [].
Definition a_tgw : TransitGateway := MkTGW (meta_named "tgw") (MkTGWStatus 0 [] "").
Definition attachment_of (name vpc : string) (prefixes : list TransitGatewayAttachmentPrefix) : AttachmentObject :=
  MkTGWA (meta_named name) (MkAttachment name None "tgw" vpc "tgw" ["tgw"]%string) (MkTGWAStatus 0 [] prefixes).
Definition subnet_w : Subnet := MkSubnet "others" None "w" "10.1.0.0/24" "" "".
Definition att_v : AttachmentObject := attachment_of "att-v" "v" [MkTGWPrefix "10.0.1.0/24" "apps"; MkTGWPrefix "10.0.2.0/24" "dmz"].
Definition att_w : AttachmentObject := attachment_of "att-w" "w" [MkTGWPrefix "10.1.0.0/24" "others"].

(** The default table, with a static entry that cuts the Subnet "dmz" off. *)
Definition table_new : TransitGatewayRouteTable :=
  MkTGWRT (meta_named "tgw") "tgw" [MkTGWRoute "10.0.2.0/24" "" true] (MkTGWRTStatus 0 [] 3 []).

(** ** The table controller *)

(** The state is the stored table. *)
Definition transit_cluster : handler rt_call TransitGatewayRouteTable :=
  fun R e t =>
  match e in rt_call R return R * TransitGatewayRouteTable with
  | GetTransitGatewayRouteTable name => (if String.eqb name "tgw" then Ok t else Err NotFound, t)
  | UpdateTransitGatewayRouteTableStatus t' => (Ok tt, t')
  | GetTransitGateway name => (if String.eqb name "tgw" then Ok a_tgw else Err NotFound, t)
  | ListAttachments => (Ok [att_v; att_w], t)
  | e' => ((controller_server (a_cluster []) _ e' a_table).1, t)
  end.

Definition table_calls : list (entry rt_call) := replay transit_cluster (tgrt_Reconcile "tgw") table_new [].
Definition table_done : TransitGatewayRouteTable := (run transit_cluster (tgrt_Reconcile "tgw") table_new).2.

Lemma table_recorded : passes recorder [] (tgrt_Reconcile "tgw") table_calls.
Proof. apply replay_passes. Qed.

Lemma table_written : Entry (UpdateTransitGatewayRouteTableStatus table_done) (Ok tt) ∈ table_calls.
Proof. vm_compute. repeat (apply elem_of_cons; (left; reflexivity) || right). Qed.

Example table_done_routes :
  tgs_Routes (tgrt_status table_done) =
    [MkResolvedTGWRoute "10.0.1.0/24" "att-v" "apps" false OriginPropagated;
     MkResolvedTGWRoute "10.0.2.0/24" "" "" true OriginStatic;
     MkResolvedTGWRoute "10.1.0.0/24" "att-w" "others" false OriginPropagated].
Proof. vm_compute. reflexivity. Qed.

Lemma transit_table_published_witness :
  exists rt, Entry (GetTransitGatewayRouteTable "tgw") (Ok rt) ∈ table_calls /\
    tgrt_meta table_done = tgrt_meta rt /\ tgrt_TransitGateway table_done = tgrt_TransitGateway rt /\
    tgrt_Routes table_done = tgrt_Routes rt /\
    (tgs_Routes (tgrt_status table_done) = tgs_Routes (tgrt_status rt) /\ tgrt_ready table_done = false \/
     exists attachments, Entry ListAttachments (Ok attachments) ∈ table_calls /\
       transit_table rt attachments (tgs_Routes (tgrt_status table_done))).
Proof. apply (transit_table_published "tgw" table_calls table_done (Ok tt)); [apply table_recorded|apply table_written]. Defined.

(** The tables on the record of a run. *)
Definition table_read (x : entry rt_call) : option TransitGatewayRouteTable :=
  match x with
  | @Entry _ R e r =>
      match e in rt_call R return R -> option TransitGatewayRouteTable with
      | GetTransitGatewayRouteTable _ => fun r => match r with Ok rt => Some rt | Err _ => None end
      | _ => fun _ => None
      end r
  end.

Lemma table_done_controlled : controlled table_done.
Proof.
  eapply controlled_written; [apply table_recorded|apply table_written|]. intros rt Hin.
  apply (list_elem_of_fmap_2 table_read) in Hin. cbn [table_read] in Hin. apply controlled_new.
  assert (Hl : table_read <$> table_calls = [Some table_new; None; None; None; None]) by (vm_compute; reflexivity).
  rewrite Hl in Hin. rewrite !elem_of_cons in Hin.
  destruct Hin as [[= ->]|[?|[?|[?|[?|?%elem_of_nil]]]]]; done.
Qed.

(** ** A node *)

Definition transit_node : handler fib_call fstate :=
  fun R e s =>
  match e in fib_call R return R * fstate with
  | FibGetTransitTable name =>
      let r := if String.eqb name "tgw" then Ok table_done else Err NotFound in
      (r, note (see_tgw s r) (FibGetTransitTable name) r)
  | e' => node_server (a_node []) _ e' s
  end.

Lemma transit_node_ok R (e : fib_call R) s r s' : server_of transit_node R e s r s' -> fib_server R e s r s'.
Proof.
  destruct e; try (apply (node_server_ok (a_node []))).
  unfold server_of, fib_server. cbn [transit_node fib_effect]. by intros [= <- <-].
Qed.

Definition transit_run : snapshots * snapshots * fstate := run transit_node (fib_run (ReconcileTransit "tgw") ∅ ∅) node_start.2.

Lemma transit_moment : moment transit_run.2.
Proof.
  pose proof (run_exec transit_node (fib_run (ReconcileTransit "tgw") ∅ ∅) node_start.2) as He. fold transit_run in He.
  destruct transit_run as [[vs ts] s]. cbn [fst snd] in *. apply (settled_moment vs ts). eapply settled_run.
  - apply settled_start.
  - eapply exec_mono; [apply transit_node_ok|exact He].
Qed.

Definition addr_w : Z := 167837703.   (* 10.1.0.7 *)
Definition transit_dataplane : dataplane := node_dataplane transit_run.2 {[ (21, addr_w) := [2; 0; 0; 0; 0; 33] ]}.

Lemma transit_delivery_admitted_witness :
  exists rt r p,
    rt ∈ tgw_seen transit_run.2 /\ tgs_TableID (tgrt_status rt) = 3 /\ 3 <> 0 /\ r ∈ tgs_Routes (tgrt_status rt) /\
    dst_prefix (rtg_Dst r) = Some p /\ covers p addr_w = true /\
    admitted_by (tgrt_name rt) r /\
    on_subnet (reads transit_run.2) (rtg_Subnet r) 21 [2; 0; 0; 0; 3; 1] /\
    arp_table transit_dataplane !! (21, addr_w) = Some [2; 0; 0; 0; 0; 33].
Proof.
  apply (transit_delivery_admitted transit_run.2 transit_dataplane 3 addr_w 21 [2; 0; 0; 0; 0; 33] [2; 0; 0; 0; 3; 1]).
  - apply transit_moment.
  - apply node_tables.
  - intros rt Hin _. assert (Hs : tgw_seen transit_run.2 = [table_done]) by (vm_compute; reflexivity).
    rewrite Hs in Hin. apply list_elem_of_singleton in Hin as ->. apply table_done_controlled.
  - vm_compute. reflexivity.
Defined.

(** ** Attachments and peerings *)

Definition new_attachment : AttachmentObject := attachment_of "att-w" "w" [].
Definition a_peering : VpcPeeringObject := MkVpcPeeringObject (meta_named "vw") (MkPeering "vw" "v" "w") 0 [].

(** The answers of a cluster with the Vpcs "v" and "w"; nothing is stored. *)
Definition link_cluster : handler tg_call unit :=
  fun R e s =>
  (match e in tg_call R return R with
   | @TgRtCall R e =>
       match e in rt_call R return R with
       | ListSubnets vpc => Ok (List.filter (fun s => String.eqb (sub_Vpc s) vpc) [apps; dmz; subnet_w])
       | e' => (transit_cluster _ e' table_new).1
       end
   | GetAttachmentObject name => if String.eqb name "att-w" then Ok new_attachment else Err NotFound
   | UpdateAttachmentStatus _ => Ok tt
   | GetVpcID vpc => Ok (if String.eqb vpc "v" then 1 else 2)
   | UpdateTransitGatewayStatus _ => Ok tt
   | CreateOrUpdateTransitTable _ _ => Ok false
   | GetPeeringObject name => if String.eqb name "vw" then Ok a_peering else Err NotFound
   | UpdatePeeringStatus _ => Ok tt
   | ListPeeringObjects => Ok [a_peering]
   end, s).

Definition attachment_calls : list (entry tg_call) := replay link_cluster (tga_Reconcile "att-w") tt [].
Definition peering_calls : list (entry tg_call) := replay link_cluster (peering_Reconcile "vw") tt [].

(** The statuses the two runs write. *)
Definition ready_conditions (type : string) : list Condition :=
  readyCondition 0 [] type 1 ConditionTrue reasonReconcileSucceeded "".
Definition attachment_done : AttachmentObject :=
  MkTGWA (ta_meta new_attachment) (ta_spec new_attachment)
    (MkTGWAStatus 1 (ready_conditions TransitGatewayAttachmentStatusReady) [MkTGWPrefix "10.1.0.0/24" "others"]).
Definition peering_done : VpcPeeringObject :=
  MkVpcPeeringObject (vpo_meta a_peering) (vpo_spec a_peering) 1 (ready_conditions VpcPeeringStatusReady).

Lemma attachment_published_witness :
  exists a, Entry (GetAttachmentObject "att-w") (Ok a) ∈ attachment_calls /\
    ta_meta attachment_done = ta_meta a /\ ta_spec attachment_done = ta_spec a /\
    (tas_Prefixes (ta_status attachment_done) = tas_Prefixes (ta_status a) /\ tga_ready attachment_done = false \/
     exists subnets : list Subnet, Entry (TgRtCall (ListSubnets (tga_Vpc (ta_spec a)))) (Ok subnets) ∈ attachment_calls /\
       tas_Prefixes (ta_status attachment_done) ≡ₚ subnetPrefix <$> subnets /\
       forall t, t ∈ Association (ta_spec a) :: Propagations (ta_spec a) -> t <> ""%string ->
         exists rt, Entry (TgRtCall (GetTransitGatewayRouteTable t)) (Ok rt) ∈ attachment_calls /\
           tgrt_TransitGateway rt = tga_TransitGateway (ta_spec a)).
Proof.
  apply (attachment_published "att-w" attachment_calls attachment_done (Ok tt)); [apply replay_passes|].
  vm_compute. repeat (apply elem_of_cons; (left; reflexivity) || right).
Defined.

Lemma peering_ready_apart_witness :
  vpc_has_id peering_calls "v" /\ vpc_has_id peering_calls "w" /\ subnets_apart peering_calls "v" "w".
Proof.
  apply (peering_ready_apart "vw" peering_calls peering_done (Ok tt)); [apply replay_passes| |vm_compute; reflexivity].
  vm_compute. repeat (apply elem_of_cons; (left; reflexivity) || right).
Defined.
