(* ===== verification/ExternalAddrTheorems.v ===== *)
(** * ExternalAddrTheorems: the gate never opens before its entry

    [external_address_pools] is the gate [node_ingress] checks first;
    [elastic_ip_direct] is where it then looks an address up.  The theorems are
    about the kernel maps ([ext_world]) under any answers of the API server and
    any failures of map calls. *)

From stdpp Require Import base gmap strings list sorting pretty.
From Stdlib Require Import ZArith Lia.
From S2P Require Import Prelude Effects Netip NetipFacts IPNet Kube PolicyEval PolicyStores.
From S2P Require Import OwnedAddr OwnedKey OwnedAddrTheorems ExternalAddr.

Open Scope Z_scope.

(** ** The kernel maps *)

Record ext_world := MkExtWorld {
  w_pool : gmap Key Z; w_direct : gmap Z Z; w_arp : gmap ArpKey (list Z); w_napt : gmap Z Z }.

Definition set_w_pool (m : gmap Key Z) (w : ext_world) := MkExtWorld m (w_direct w) (w_arp w) (w_napt w).
Definition set_w_direct (m : gmap Z Z) (w : ext_world) := MkExtWorld (w_pool w) m (w_arp w) (w_napt w).
Definition set_w_arp (m : gmap ArpKey (list Z)) (w : ext_world) := MkExtWorld (w_pool w) (w_direct w) m (w_napt w).
Definition set_w_napt (m : gmap Z Z) (w : ext_world) := MkExtWorld (w_pool w) (w_direct w) (w_arp w) m.

(** A write or a removal on one map. *)
Definition written (w done : ext_world) (r : result bpf_error unit) (w' : ext_world) : Prop :=
  w' = match r with Ok _ => done | Err _ => w end.
Definition removed (w done : ext_world) (absent : Prop) (r : result bpf_error unit) (w' : ext_world) : Prop :=
  match r with Ok _ => w' = done | Err e => w' = w /\ (e = ErrKeyNotExist -> absent) end.

(** The API server may answer anything; reading changes no map. *)
Definition ext_server : server ext_event ext_world := fun R e w =>
  match e in ext_event R return R -> ext_world -> Prop with
  | ExtPoolUpdate k v => written w (set_w_pool (<[k := v]> (w_pool w)) w)
  | ExtPoolDelete k => removed w (set_w_pool (delete k (w_pool w)) w) (w_pool w !! k = None)
  | DirectUpdate a n => written w (set_w_direct (<[a := n]> (w_direct w)) w)
  | DirectDelete a => removed w (set_w_direct (delete a (w_direct w)) w) (w_direct w !! a = None)
  | ArpUpdate k mac => written w (set_w_arp (<[k := mac]> (w_arp w)) w)
  | ArpDelete k => removed w (set_w_arp (delete k (w_arp w)) w) (w_arp w !! k = None)
  | NaptUpdate i h => written w (set_w_napt (<[i := h]> (w_napt w)) w)
  | NaptDelete i => removed w (set_w_napt (delete i (w_napt w)) w) (w_napt w !! i = None)
  | _ => fun _ w' => w' = w
  end.

#[global] Instance ext_pool_server : PoolServer ext_server ExtPoolUpdate ExtPoolDelete w_pool set_w_pool.
Proof. split; [done|done|by intros []| |]; intros * H; exact H. Qed.

(** ** What the reconciler and the store remember *)

Definition key32 (a : Z) : Key := MkKey 32 (htonl a).
Definition address (a : Z) : Prop := 0 <= a < 2 ^ 32.

(** A packet for [k] that passes the gate finds its entry, unless another
    reconciler has claimed [k]. *)
Definition open_ok (foreign : gset Key) (w : ext_world) : Prop :=
  forall k, is_Some (w_pool w !! k) ->
    k ∈ foreign \/ exists a, address a /\ k = key32 a /\ is_Some (w_direct w !! a).

Record gate_state (foreign : gset Key) (d : ElasticIPDirect) (st : Store) (w : ext_world) : Prop := {
  g_pool : w_pool w = s_installed st;
  g_direct : w_direct w = d_installed d;
  g_claims : forall name c, d_claims d !! name = Some c ->
    address (dc_address c) /\ dc_prefix c = key32 (dc_address c) /\ d_installed d !! dc_address c = Some (dc_networkID c);
  g_store : forall name m, s_claims st !! (elasticIPDirectScope, name) = Some m ->
    exists c, d_claims d !! name = Some c /\ m = {[dc_prefix c := DeliveredHere]};
  g_foreign : forall o m k, o.1 <> elasticIPDirectScope -> s_claims st !! o = Some m -> is_Some (m !! k) -> k ∈ foreign;
  g_open : open_ok foreign w;
}.

Lemma prefer_dom l k : is_Some (foldl prefer ∅ l !! k) -> exists v, (k, v) ∈ l.
Proof.
  induction l as [|[k' v] l IH] using rev_ind; [cbn; rewrite lookup_empty; by intros [v Hv]|].
  rewrite foldl_snoc. unfold prefer at 1. cbn [fst snd]. destruct (decide (k' = k)) as [->|Hne].
  - intros _. exists v. apply elem_of_app. right. by apply list_elem_of_singleton.
  - rewrite lookup_insert_ne by done. intros [w Hw]%IH. exists w. apply elem_of_app. by left.
Qed.

Lemma desiredOf_dom order claims k :
  visits order -> is_Some (desiredOf (order claims) !! k) -> exists o m, claims !! o = Some m /\ is_Some (m !! k).
Proof.
  intros Ho. rewrite desiredOf_flat. intros [v (l & Hin & (m & -> & Hm)%list_elem_of_fmap)%list_elem_of_join]%prefer_dom.
  rewrite (Ho claims) in Hm. apply list_elem_of_fmap in Hm as ([o m'] & -> & Hom%elem_of_map_to_list).
  exists o, m'. split; [done|]. apply elem_of_map_to_list in Hin. by eexists.
Qed.

(** A claimed key is another reconciler's or has its entry. *)
Lemma claimed_open foreign d st w o m k :
  gate_state foreign d st w -> s_claims st !! o = Some m -> is_Some (m !! k) ->
  k ∈ foreign \/ exists name c, d_claims d !! name = Some c /\ k = key32 (dc_address c).
Proof.
  intros [_ _ Hc Hs Hf _] Ho Hk. destruct o as [scope name]. destruct (decide (scope = elasticIPDirectScope)) as [->|Hne].
  - right. destruct (Hs _ _ Ho) as (c & Hd & ->). exists name, c. split; [done|].
    destruct (Hc _ _ Hd) as (_ & <- & _). destruct Hk as [v [? _]%lookup_singleton_Some]. done.
  - left. by eapply (Hf (scope, name)).
Qed.

Lemma installed_open foreign d st w name c :
  gate_state foreign d st w -> d_claims d !! name = Some c ->
  address (dc_address c) /\ is_Some (w_direct w !! dc_address c).
Proof. intros [_ Hd Hc _ _ _] Hn. destruct (Hc _ _ Hn) as (? & _ & Hi). rewrite Hd, Hi. split; [done|by eexists]. Qed.

(** Applying the claims keeps the gate. *)
Lemma apply_gate foreign d st w order :
  gate_state foreign d st w -> visits order ->
  wpi ext_server (open_ok foreign) (apply_store ExtPoolUpdate ExtPoolDelete (order (s_claims st)) st)
    (fun r w' => gate_state foreign d r.2 w' /\ s_claims r.2 = s_claims st /\
       (r.1 = [] -> forall k, is_Some (w_pool w' !! k) -> exists o m, s_claims st !! o = Some m /\ is_Some (m !! k))) w.
Proof.
  intros Hg Ho. pose proof (apply_spec ext_server ExtPoolUpdate ExtPoolDelete w_pool set_w_pool
    (order (s_claims st)) st w (g_pool _ _ _ _ Hg)) as Hs.
  assert (Hopen : forall w', between w_pool set_w_pool (desiredOf (order (s_claims st))) w w' -> open_ok foreign w').
  { intros w' (m & -> & Hm) k. cbn. destruct (Hm k) as [->| ->]; [apply (g_open _ _ _ _ Hg)|].
    intros (o & c & Hoc & Hk)%(desiredOf_dom order _ _ Ho).
    destruct (claimed_open _ _ _ _ _ _ _ Hg Hoc Hk) as [?|(name & c' & Hn & ->)]; [by left|right].
    destruct (installed_open _ _ _ _ _ _ Hg Hn). by exists (dc_address c'). }
  eapply wpi_mono; [eapply wpi_impl; [exact Hs|exact Hopen]|].
  intros [errs st'] w' HI (Hc & -> & Hset). cbn [fst snd] in *. split_and!; [|done|].
  - destruct Hg as [_ Hd Hcl Hst Hf _]. split; try done; by rewrite Hc.
  - intros -> k. cbn. destruct (Hset k) as [->|[_ H]]; [|by apply elem_of_nil in H]. by apply desiredOf_dom.
Qed.

Lemma existsb_claims (claims : gmap string elasticIPDirectClaim) a :
  existsb (fun kc => dc_address kc.2 =? a) (map_to_list claims) = false ->
  forall name c, claims !! name = Some c -> dc_address c <> a.
Proof.
  intros He name c Hn Heq. apply not_true_iff_false in He. apply He. apply existsb_exists.
  exists (name, c). split; [by apply list_elem_of_In, elem_of_map_to_list|]. by apply Z.eqb_eq.
Qed.

(** Removing an entry nobody carries, once the gate holds claimed keys only. *)
Lemma uninstall_gate foreign d st w a :
  gate_state foreign d st w ->
  (forall k, is_Some (w_pool w !! k) -> exists o m, s_claims st !! o = Some m /\ is_Some (m !! k)) ->
  wpi ext_server (open_ok foreign) (uninstallUnclaimed a d) (fun r w' => gate_state foreign r.2 st w') w.
Proof.
  intros Hg Hall. pose proof (g_open _ _ _ _ Hg) as HI. unfold uninstallUnclaimed.
  destruct (existsb _ _) eqn:He; [by split|]. pose proof (existsb_claims _ _ He) as Hne.
  split; [done|]. intros r w' Hr. cbn in Hr.
  assert (Hdone : gate_state foreign (MkDirect (d_claims d) (delete a (d_installed d))) st
                    (set_w_direct (delete a (w_direct w)) w)).
  { destruct Hg as [Hp Hd Hc Hs Hf _]. split; cbn; [done|by rewrite Hd| |done|done|].
    - intros name c Hn. rewrite lookup_delete_ne; [by eapply Hc|]. intros Heq. by apply (Hne name c).
    - intros k Hk. cbn in Hk. destruct (Hall k Hk) as ([scope name] & m & Ho & Hm).
      destruct (decide (scope = elasticIPDirectScope)) as [->|Hsc]; [right|left; by eapply (Hf (scope, name))].
      destruct (Hs _ _ Ho) as (c & Hn & ->). destruct Hm as [v [<- _]%lookup_singleton_Some].
      destruct (Hc _ _ Hn) as (Ha & -> & Hi). exists (dc_address c). split_and!; [done|done|]. cbn.
      rewrite Hd, lookup_delete_ne, Hi; [by eexists|]. intros Heq. by apply (Hne name c). }
  unfold removed in Hr. destruct r as [[]|[|t]]; cbn [ignoreMissing].
  - subst w'. split; [exact (g_open _ _ _ _ Hdone)|done].
  - destruct Hr as [-> Habs]. split; [done|]. cbn [snd].
    replace w with (set_w_direct (delete a (w_direct w)) w); [done|].
    rewrite delete_id by auto. by destruct w.
  - destruct Hr as [-> _]. by split.
Qed.

Lemma ParsePrefix_32 v : address v -> ParsePrefix (net_text v 32) = Ok (key32 v).
Proof.
  intros Hv. unfold address in Hv. rewrite (ParsePrefix_CIDR _ (Addr4 v) 32 v); [done|].
  rewrite net_text_trim by (unfold octet; lia). rewrite ParseCIDR_net_text by lia.
  rewrite mask_val_spec by lia. by rewrite Z.mod_1_r, Z.sub_0_r.
Qed.

Lemma newElasticIPDirectClaim_wf text n c :
  newElasticIPDirectClaim text n = Ok c -> address (dc_address c) /\ dc_prefix c = key32 (dc_address c).
Proof.
  unfold newElasticIPDirectClaim. intros H.
  assert (Hwf : forall p, match Netip.ParsePrefix text with
                          | Ok p => Some p
                          | Err _ => match ParseAddr text with
                                     | Ok addr => Some (PrefixFrom addr (BitLen addr))
                                     | Err _ => None
                                     end
                          end = Some p -> Is4 (pfx_addr p) = true -> exists v, pfx_addr p = Addr4 v /\ address v).
  { intros p Hp H4. assert (Ha : Addr_wf (pfx_addr p)).
    { destruct (Netip.ParsePrefix text) as [q|] eqn:Hq; [injection Hp as ->; by apply ParsePrefix_wf in Hq as [? _]|].
      destruct (ParseAddr text) as [a|] eqn:Ht; [|done]. injection Hp as <-. apply ParseAddr_wf in Ht as [Ht _].
      destruct a; cbn in *; done. }
    destruct (pfx_addr p) as [|v|]; try done. exists v. split; [done|]. cbn in Ha. unfold address. lia. }
  destruct (match Netip.ParsePrefix text with Ok p => _ | Err _ => _ end) as [p|]; [|done].
  destruct (Is4 (pfx_addr p)) eqn:H4; [|done]. destruct (Hwf p eq_refl H4) as (v & Hpa & Hv).
  destruct (Z.eqb_spec (pfx_bits p) 32) as [Hb|]; [|done]. cbn [negb orb] in H.
  unfold Prefix_String in H. rewrite Hpa, Hb in H. change (pretty 32) with "32"%string in H.
  change (Addr_String (Addr4 v) +:+ "/" +:+ "32") with (net_text v 32) in H.
  rewrite ParsePrefix_32 in H by done. cbn in H. injection H as <-. done.
Qed.

(** ** The operations keep the gate *)

Lemma otherNetworkFor_none key claim d name c :
  otherNetworkFor key claim d = None -> d_claims d !! name = Some c -> name <> key -> dc_address c = dc_address claim ->
  dc_networkID c = dc_networkID claim.
Proof.
  unfold otherNetworkFor. intros Hn Hc Hne Ha. destruct (List.find _ _) as [holder|] eqn:Hf.
  - apply List.find_some in Hf as [_ Hf]. cbn in Hn. destruct (d_claims d !! holder); [done|done].
  - assert (Hin : In name (sortedNames (d_claims d))).
    { apply list_elem_of_In. unfold sortedNames. rewrite merge_sort_Permutation. apply list_elem_of_fmap.
      exists (name, c). split; [done|]. by apply elem_of_map_to_list. }
    pose proof (List.find_none _ _ Hf name Hin) as Hx. cbn beta in Hx. rewrite Hc in Hx.
    rewrite (proj2 (String.eqb_neq _ _) Hne), (proj2 (Z.eqb_eq _ _) Ha) in Hx. cbn in Hx.
    by apply negb_false_iff, Z.eqb_eq in Hx.
Qed.

(** The entry of a new claim is in place before its prefix is claimed. *)
Lemma claim_installed foreign d st w key claim w1 inst :
  gate_state foreign d st w -> address (dc_address claim) -> dc_prefix claim = key32 (dc_address claim) ->
  otherNetworkFor key claim d = None ->
  inst = <[dc_address claim := dc_networkID claim]> (d_installed d) -> w1 = set_w_direct inst w ->
  gate_state foreign (MkDirect (<[key := claim]> (d_claims d)) inst)
    (op_store (OpSet elasticIPDirectScope key [dc_prefix claim]) st) w1.
Proof.
  intros [Hp Hd Hc Hs Hf Ho] Ha Hpre Hnone -> ->. split; cbn; [done|done| | | |].
  - intros name c. rewrite lookup_insert_Some. intros [[<- <-]|[Hne Hn]]; [by rewrite lookup_insert_eq|].
    destruct (Hc _ _ Hn) as (Hca & Hcp & Hci). split_and!; [done|done|]. destruct (decide (dc_address c = dc_address claim)) as [Heq|].
    + rewrite Heq, lookup_insert_eq. f_equal. symmetry. by eapply otherNetworkFor_none.
    + by rewrite lookup_insert_ne.
  - intros name m. rewrite lookup_insert_Some. intros [[[= <-] <-]|[Hne Hm]].
    + exists claim. by rewrite lookup_insert_eq.
    + rewrite lookup_insert_ne; [by apply Hs|]. intros ->. done.
  - intros o m k Hsc. rewrite lookup_insert_Some. intros [[<- _]|[_ Hm]]; [done|by eapply Hf].
  - intros k Hk. cbn in Hk. destruct (Ho k Hk) as [?|(a & Haa & -> & Hi)]; [by left|right]. exists a. split_and!; [done|done|].
    cbn. rewrite Hd in Hi. apply lookup_insert_is_Some. destruct (decide (dc_address claim = a)); auto.
Qed.

Lemma direct_claim_gate foreign order key claim m w :
  gate_state foreign m.1 m.2 w -> visits order -> address (dc_address claim) -> dc_prefix claim = key32 (dc_address claim) ->
  wpi ext_server (open_ok foreign) (direct_claim order key claim m) (fun r w' => gate_state foreign r.2.1 r.2.2 w') w.
Proof.
  destruct m as [d st]. cbn [fst snd]. intros Hg Ho Ha Hpre. pose proof (g_open _ _ _ _ Hg) as HI. unfold direct_claim. cbn [fst snd].
  destruct (otherNetworkFor key claim d) as [[holder n]|] eqn:Hnone; [by split|].
  (* the rest of the operation, once the entry is in place *)
  assert (Hrest : forall inst w1, inst = <[dc_address claim := dc_networkID claim]> (d_installed d) -> w1 = set_w_direct inst w ->
    wpi ext_server (open_ok foreign)
      (bind (Scope_Set ExtPoolUpdate ExtPoolDelete order elasticIPDirectScope key [dc_prefix claim] st) (fun rs =>
         match ownedErr rs.1, d_claims d !! key with
         | Err e, _ => Ret (Err e, (MkDirect (<[key := claim]> (d_claims d)) inst, rs.2))
         | Ok _, Some p =>
             if negb (dc_address p =? dc_address claim)
             then bind (uninstallUnclaimed (dc_address p) (MkDirect (<[key := claim]> (d_claims d)) inst))
                    (fun ru => Ret (ru.1, (ru.2, rs.2)))
             else Ret (Ok tt, (MkDirect (<[key := claim]> (d_claims d)) inst, rs.2))
         | Ok _, None => Ret (Ok tt, (MkDirect (<[key := claim]> (d_claims d)) inst, rs.2))
         end)) (fun r w' => gate_state foreign r.2.1 r.2.2 w') w1).
  { intros inst w1 Hinst Hw1. pose proof (claim_installed _ _ _ _ _ _ _ _ Hg Ha Hpre Hnone Hinst Hw1) as Hg1.
    apply wpi_bind. eapply wpi_mono; [exact (apply_gate _ _ _ _ order Hg1 Ho)|].
    intros [errs st'] w2 HI2 (Hg2 & Hcl & Hall). cbn [fst snd] in *. destruct errs as [|e errs]; [|by split]. cbn [ownedErr].
    specialize (Hall eq_refl). rewrite <- Hcl in Hall. destruct (d_claims d !! key) as [p|]; [|by split].
    destruct (negb _); [|by split]. apply wpi_bind. eapply wpi_mono; [exact (uninstall_gate _ _ _ _ _ Hg2 Hall)|].
    intros [r d'] w3 HI3 Hg3. by split. }
  apply wpi_bind. unfold direct_install. case_bool_decide as Hi.
  - split; [done|]. cbn [fst snd d_claims d_installed]. apply (Hrest (d_installed d)).
    + by rewrite insert_id.
    + destruct Hg as [_ Hd _ _ _ _]. rewrite <- Hd. by destruct w.
  - split; [done|]. intros [[]|e] w1 ->; cbn [bind fst snd d_claims d_installed].
    + assert (Hopen : open_ok foreign (set_w_direct (<[dc_address claim := dc_networkID claim]> (w_direct w)) w)).
      { intros k Hk. cbn in Hk. destruct (HI k Hk) as [?|(a & ? & ? & Hs)]; [by left|right]. exists a. split_and!; [done|done|].
        cbn. apply lookup_insert_is_Some. destruct (decide (dc_address claim = a)); auto. }
      split; [done|]. apply Hrest; [done|]. by rewrite (g_direct _ _ _ _ Hg).
    + by split.
Qed.

Lemma direct_release_gate foreign order key m w :
  gate_state foreign m.1 m.2 w -> visits order ->
  wpi ext_server (open_ok foreign) (direct_release order key m) (fun r w' => gate_state foreign r.2.1 r.2.2 w') w.
Proof.
  destruct m as [d st]. cbn [fst snd]. intros Hg Ho. pose proof (g_open _ _ _ _ Hg) as HI. unfold direct_release. cbn [fst snd].
  destruct (d_claims d !! key) as [previous|] eqn:Hprev; [|by split].
  assert (Hg1 : gate_state foreign d (op_store (OpRelease elasticIPDirectScope key) st) w).
  { destruct Hg as [Hp Hd Hc Hs Hf Hop]. split; cbn; [done|done|done| | |done].
    - intros name m0 [_ Hm]%lookup_delete_Some. by apply Hs.
    - intros o m0 k Hsc [_ Hm]%lookup_delete_Some. by eapply Hf. }
  apply wpi_bind. eapply wpi_mono; [exact (apply_gate _ _ _ _ order Hg1 Ho)|].
  intros [errs st'] w2 HI2 (Hg2 & Hcl & Hall). cbn [fst snd] in *. destruct errs as [|e errs]; [|by split]. cbn [ownedErr].
  specialize (Hall eq_refl). rewrite <- Hcl in Hall.
  assert (Hg3 : gate_state foreign (MkDirect (delete key (d_claims d)) (d_installed d)) st' w2).
  { destruct Hg2 as [Hp Hd Hc Hs Hf Hop]. split; cbn; [done|done| | |done|done].
    - intros name c [_ Hn]%lookup_delete_Some. by eapply Hc.
    - intros name m0 Hm. rewrite Hcl in Hm. cbn in Hm. apply lookup_delete_Some in Hm as [Hne Hm].
      rewrite lookup_delete_ne by congruence. apply (Hs name). by rewrite Hcl; cbn; rewrite lookup_delete_ne. }
  apply wpi_bind. eapply wpi_mono; [exact (uninstall_gate _ _ _ _ _ Hg3 Hall)|]. intros [r d'] w3 HI3 Hg4. by split.
Qed.

Lemma direct_Reconcile_gate split foreign order key m w :
  gate_state foreign m.1 m.2 w -> visits order ->
  wpi ext_server (open_ok foreign) (direct_Reconcile split order key m) (fun r w' => gate_state foreign r.2.1 r.2.2 w') w.
Proof.
  intros Hg Ho. pose proof (g_open _ _ _ _ Hg) as HI.
  pose proof (direct_release_gate foreign order key m w Hg Ho) as Hrel.
  unfold direct_Reconcile. destruct (split key) as [[ns name]|]; [|by split].
  split; [done|]. intros r w' ->. destruct r as [nwep|e]; cbn [bind call]; [|by destruct e].
  destruct (endpointNetworkOf nwep) as [network|]; [|by split]. case_bool_decide as Hn; [|done]. subst network. cbn [negb].
  split; [done|]. intros r w' ->. destruct r as [network|e]; cbn [bind call]; [|by destruct e].
  destruct (en_NetworkID network =? 0); [done|]. cbn [bind].
  destruct (newElasticIPDirectClaim _ _) as [claim|] eqn:Hc; [|by split].
  apply newElasticIPDirectClaim_wf in Hc as [Ha Hp]. by apply direct_claim_gate.
Qed.

(** The keys another reconciler claims with an operation. *)
Definition op_keys (op : store_op) : gset Key :=
  match op with
  | OpSet _ _ keys => list_to_set keys
  | OpSetClaims _ _ claims => list_to_set (claim_Key <$> claims)
  | _ => ∅
  end.
Definition op_scope (op : store_op) : string :=
  match op with OpSet s _ _ | OpSetClaims s _ _ | OpRelease s _ | OpReleaseAll s => s end.

Lemma claimedOf_dom claims k : is_Some (claimedOf claims !! k) -> k ∈ claim_Key <$> claims.
Proof.
  intros Hk. enough (Hgen : forall m, is_Some (foldl (fun m c => prefer m (claim_Key c, claim_Delivery c)) m claims !! k) ->
    is_Some (m !! k) \/ k ∈ claim_Key <$> claims).
  { destruct (Hgen ∅ Hk) as [[v Hv]|?]; [by rewrite lookup_empty in Hv|done]. }
  clear Hk. induction claims as [|c claims IH]; intros m; cbn [foldl]; [by left|].
  intros [Hk|?]%IH; [|right; rewrite fmap_cons; set_solver]. unfold prefer in Hk. cbn in Hk.
  apply lookup_insert_is_Some in Hk as [Heq|[_ ?]]; [right; rewrite fmap_cons, Heq; by constructor|by left].
Qed.

Lemma op_store_foreign foreign d st w op :
  gate_state foreign d st w -> op_scope op <> elasticIPDirectScope ->
  gate_state (foreign ∪ op_keys op) d (op_store op st) w.
Proof.
  intros [Hp Hd Hc Hs Hf Ho] Hsc.
  assert (Hopen : open_ok (foreign ∪ op_keys op) w).
  { intros k Hk. destruct (Ho k Hk) as [?|?]; [left; set_solver|by right]. }
  assert (Hset : forall name claims, (forall k, k ∈ claim_Key <$> claims -> k ∈ op_keys op) ->
    gate_state (foreign ∪ op_keys op) d
      (MkStore (match claims with [] => delete (op_scope op, name) (s_claims st)
                | _ => <[(op_scope op, name) := claimedOf claims]> (s_claims st) end) (s_installed st)) w).
  { intros name claims Hkeys. split; cbn [s_claims s_installed]; [done|done|done| | |done].
    - intros name' m Hm. apply Hs. destruct claims; [by apply lookup_delete_Some in Hm as [_ ?]|].
      rewrite lookup_insert_ne in Hm; [done|]. congruence.
    - intros o m k Hoc Hm Hk. destruct claims as [|c claims].
      + apply lookup_delete_Some in Hm as [_ Hm]. apply elem_of_union_l. by eapply Hf.
      + apply lookup_insert_Some in Hm as [[_ <-]|[_ Hm]]; [|apply elem_of_union_l; by eapply Hf].
        apply elem_of_union_r, Hkeys. by apply claimedOf_dom. }
  destruct op as [scope name keys|scope name claims|scope name|scope]; cbn [op_store op_scope op_keys] in *.
  - apply Hset. intros k Hk. rewrite <- list_fmap_compose in Hk. unfold compose in Hk. cbn in Hk. rewrite list_fmap_id in Hk. set_solver.
  - apply Hset. set_solver.
  - refine (Hset name [] _). intros k Hk. by apply elem_of_nil in Hk.
  - split; cbn [s_claims s_installed]; [done|done|done| | |done].
    + intros name m [Hm _]%map_lookup_filter_Some. by apply Hs.
    + intros o m k Hoc [Hm _]%map_lookup_filter_Some Hk. apply elem_of_union_l. by eapply Hf.
Qed.

(** ** Runs *)

(** The reconciler of elastic IPs and the others share the store; [foreign]
    collects what the others have claimed. *)
Inductive gate_reach (split : string -> option (string * string))
  : gset Key -> ElasticIPDirect -> Store -> ext_world -> Prop :=
| gate_start w : w_pool w = ∅ -> w_direct w = ∅ -> gate_reach split ∅ newElasticIPDirect NewStore w
| gate_reconcile foreign d st w order key r d' st' w' :
    gate_reach split foreign d st w -> visits order ->
    exec ext_server w (direct_Reconcile split order key (d, st)) (r, (d', st')) w' -> gate_reach split foreign d' st' w'
| gate_others foreign d st w order op errs st' w' :
    gate_reach split foreign d st w -> visits order -> op_scope op <> elasticIPDirectScope ->
    exec ext_server w (run_store_op ExtPoolUpdate ExtPoolDelete order op st) (errs, st') w' ->
    gate_reach split (foreign ∪ op_keys op) d st' w'
| gate_world foreign d st w w' :
    gate_reach split foreign d st w -> w_pool w' = w_pool w -> w_direct w' = w_direct w -> gate_reach split foreign d st w'.

Lemma gate_reach_state split foreign d st w : gate_reach split foreign d st w -> gate_state foreign d st w.
Proof.
  induction 1 as [w Hp Hd|foreign d st w order key r d' st' w' _ IH Ho Hex
    |foreign d st w order op errs st' w' _ IH Ho Hsc Hex|foreign d st w w' _ IH Hp Hd].
  - split; cbn; try done. intros k Hk. rewrite Hp, lookup_empty in Hk. by destruct Hk.
  - pose proof (direct_Reconcile_gate split foreign order key (d, st) w IH Ho) as Hwp.
    by apply (wpi_exec _ _ _ _ _ _ _ Hwp) in Hex as [_ Hg].
  - rewrite run_store_op_apply in Hex. pose proof (op_store_foreign _ _ _ _ _ IH Hsc) as Hg.
    pose proof (apply_gate _ _ _ _ order Hg Ho) as Hwp. by apply (wpi_exec _ _ _ _ _ _ _ Hwp) in Hex as [_ [? _]].
  - destruct IH as [H1 H2 H3 H4 H5 H6]. split; [by rewrite Hp|by rewrite Hd|done|done|done|].
    intros k. rewrite Hp, Hd. apply H6.
Qed.

(** Claim C17: the gate never opens before its entry.  In any run of the elastic
    IP reconciler beside the other users of the store, whatever the API server
    answers and whichever map call fails, at every moment of a reconciliation:
    a prefix in [external_address_pools] that no other reconciler has claimed is
    the /32 of an address that [elastic_ip_direct] holds. *)
Theorem gate_opens_after_entry split foreign d st w order key w' :
  gate_reach split foreign d st w -> visits order ->
  passes ext_server w (direct_Reconcile split order key (d, st)) w' ->
  forall k, is_Some (w_pool w' !! k) ->
    k ∈ foreign \/ exists a, address a /\ k = key32 a /\ is_Some (w_direct w' !! a).
Proof.
  intros Hr Ho Hp. apply gate_reach_state in Hr.
  exact (wpi_passes _ _ _ _ _ _ (direct_Reconcile_gate split foreign order key (d, st) w Hr Ho) Hp).
Qed.

(** ** A concrete node *)

(** One object of each kind, deleted when [gone]; removals from the reconcilers'
    own maps fail when [failing]. *)
Definition ex_remove (failing : bool) (done w : ext_world) : result bpf_error unit * ext_world :=
  if failing then (Err (BpfError "EBUSY"), w) else (Ok tt, done).

Definition ext_handler (gone failing : bool) : handler ext_event ext_world := fun R e w =>
  match e in ext_event R return R * ext_world with
  | ExtPoolUpdate k v => (Ok tt, set_w_pool (<[k := v]> (w_pool w)) w)
  | ExtPoolDelete k => (Ok tt, set_w_pool (delete k (w_pool w)) w)
  | DirectUpdate a n => (Ok tt, set_w_direct (<[a := n]> (w_direct w)) w)
  | DirectDelete a => ex_remove failing (set_w_direct (delete a (w_direct w)) w) w
  | ArpUpdate k mac => (Ok tt, set_w_arp (<[k := mac]> (w_arp w)) w)
  | ArpDelete k => ex_remove failing (set_w_arp (delete k (w_arp w)) w) w
  | NaptUpdate i h => (Ok tt, set_w_napt (<[i := h]> (w_napt w)) w)
  | NaptDelete i => ex_remove failing (set_w_napt (delete i (w_napt w)) w) w
  | GetEndpoint _ _ => (if gone then Err NotFound else Ok (MkNetworkEndpoint "ns" "pod" "" "" "ext" "192.0.2.5/32"), w)
  | GetSubnetVNI _ => (Err NotFound, w)
  | GetExternalNetwork _ => (Ok (MkExternalNetwork "ext" "arp" 7), w)
  | GetARPAdvertisement _ => (if gone then Err NotFound else Ok (MkARPAdvertisement "adv" "ext" "192.0.2.5" "node"), w)
  | GetAttachment _ => (if gone then Err NotFound else Ok (MkExternalNetworkAttachment "att" "ext" "node" "192.0.2.5"), w)
  | ListEndpoints => (Ok [], w)
  | ListARPAdvertisements => (Ok [], w)
  | ListAttachments => (Ok [], w)
  | ListNATGateways => (Ok [MkNATGateway "ext" 3], w)
  | ListAddressPools => (Ok [], w)
  | ListBGPAdvertisements => (Ok [], w)
  end.

Lemma ext_handler_ok gone failing R (e : ext_event R) w r w' :
  server_of (ext_handler gone failing) R e w r w' -> ext_server R e w r w'.
Proof.
  unfold server_of. destruct e; cbn; unfold ex_remove; destruct gone, failing; intros [= <- <-]; done.
Qed.

Lemma ext_run {A} gone failing (p : prog ext_event A) w :
  exec ext_server w p (run (ext_handler gone failing) p w).1 (run (ext_handler gone failing) p w).2.
Proof. eapply exec_mono; [apply ext_handler_ok|apply run_exec]. Qed.

Definition ex_split : string -> option (string * string) := fun _ => Some ("ns", "pod")%string.
Definition no_maps : ext_world := MkExtWorld ∅ ∅ ∅ ∅.
Definition ex_addr : Z := 3221225989.

Lemma gate_opens_after_entry_witness :
  let direct := direct_Reconcile ex_split by_owner "ns/pod" (newElasticIPDirect, NewStore) in
  let w' := (run (ext_handler false false) direct no_maps).2 in
  w_pool w' !! key32 ex_addr = Some DeliveredHere /\
  (key32 ex_addr ∈ (∅ : gset Key) \/ exists a, address a /\ key32 ex_addr = key32 a /\ is_Some (w_direct w' !! a)).
Proof.
  cbv zeta. set (p := direct_Reconcile ex_split by_owner "ns/pod" (newElasticIPDirect, NewStore)).
  assert (Hk : w_pool (run (ext_handler false false) p no_maps).2 !! key32 ex_addr = Some DeliveredHere) by (vm_compute; reflexivity).
  split; [exact Hk|].
  apply (gate_opens_after_entry ex_split ∅ newElasticIPDirect NewStore no_maps by_owner "ns/pod"
           (run (ext_handler false false) p no_maps).2).
  - apply gate_start; reflexivity.
  - exact by_owner_visits.
  - exact (exec_passes _ _ _ _ _ (ext_run _ _ _ _)).
  - rewrite Hk. eexists. reflexivity.
Defined.

(** Three reconciliations: the object is there; it is gone and the removal of its
    map entry fails; it is still gone and nothing fails.  The second reports an
    error, the third reports success, and the entry is still in the map. *)
Definition entry_left {M} (reconcile : M -> prog ext_event (result ext_error unit * M)) (m0 : M)
    (present : ext_world -> Prop) : Prop :=
  let run1 := run (ext_handler false false) (reconcile m0) no_maps in
  let run2 := run (ext_handler true true) (reconcile run1.1.2) run1.2 in
  let run3 := run (ext_handler true false) (reconcile run2.1.2) run2.2 in
  run1.1.1 = Ok tt /\ (exists e, run2.1.1 = Err e) /\ run3.1.1 = Ok tt /\ present run3.2.

(** A removal that fails is forgotten.  When the kernel refuses to
    remove the entry of an object that is gone, the elastic IP, the external ARP
    and the NAPT reconcilers report an error, but have already dropped their own
    record of the entry: the retry finds nothing to do, reports success, and
    the entry stays in its map. *)
Theorem failed_removal_forgotten :
  entry_left (direct_Reconcile ex_split by_owner "ns/pod") (newElasticIPDirect, NewStore)
    (fun w => w_direct w !! ex_addr = Some 7) /\
  entry_left (arp_Reconcile (MkResponder 2 [2; 0; 0; 0; 0; 1]) "node" by_owner "adv") (∅, NewStore)
    (fun w => w_arp w !! MkArpKey 2 ex_addr = Some [2; 0; 0; 0; 0; 1]) /\
  entry_left (napt_Reconcile "node" by_owner "att") (∅, NewStore)
    (fun w => w_napt w !! 3 = Some (htonl ex_addr)).
Proof.
  unfold entry_left. cbv zeta. split_and!; try (vm_compute; reflexivity); eexists; vm_compute; reflexivity.
Qed.

(** ** What the BGP advertisements make this node claim *)

Section Bgp.
Variable nodeName : string.

(** What the advertisement [adv] says about the prefix [k]. *)
Definition advertises (pools : list AddressPool) (adv : BGPAdvertisement) (k : Key) : Prop :=
  exists name pool raw,
  name ∈ bgp_AddressPools adv /\ TrimSpace name <> EmptyString /\ poolsByName pools !! TrimSpace name = Some pool /\
  ap_AdvertiseMode pool = AddressPoolAdvertiseModeBGP /\
  raw ∈ claimedPrefixes adv pool (deliveryOf nodeName adv) /\ ParsePrefix raw = Ok k.

(** The claims the loops make, in order. *)
Definition prefixEvents (delivery : Z) (raws : list string) : list (Key * Z) :=
  omap (fun raw => match ParsePrefix raw with Ok k => Some (k, delivery) | Err _ => None end) raws.

Definition poolEvents (pools : gmap string AddressPool) (adv : BGPAdvertisement) (name : string) : list (Key * Z) :=
  if String.eqb (TrimSpace name) "" then []
  else match pools !! TrimSpace name with
  | None => []
  | Some pool => if negb (String.eqb (ap_AdvertiseMode pool) AddressPoolAdvertiseModeBGP) then []
      else prefixEvents (deliveryOf nodeName adv) (claimedPrefixes adv pool (deliveryOf nodeName adv))
  end.

Definition advEvents (pools : gmap string AddressPool) (adv : BGPAdvertisement) : list (Key * Z) :=
  mjoin (poolEvents pools adv <$> bgp_AddressPools adv).

Lemma warn_claims w (st : bgp_state) : (warn w st).1 = st.1.
Proof. unfold warn. by case_bool_decide. Qed.

Lemma claimPrefix_prefer pool delivery st raw :
  (claimPrefix pool delivery st raw).1 = foldl prefer st.1 (prefixEvents delivery [raw]).
Proof.
  unfold claimPrefix, prefixEvents. cbn [omap list_omap]. destruct (ParsePrefix raw) as [k|]; [|apply warn_claims].
  cbn [foldl]. unfold prefer. cbn [fst snd]. case_bool_decide as Hk.
  - rewrite Hk. cbn. by rewrite insert_id.
  - cbn [fst]. f_equal. unfold preferredDelivery.
    destruct (st.1 !! k) as [c|]; cbn [default from_option]; unfold id.
    + destruct (Z.eqb_spec c DeliveredHere) as [->|]; [done|]. cbn [orb]. by destruct (Z.eqb_spec delivery DeliveredHere).
    + cbn [Z.eqb orb]. by destruct (Z.eqb_spec delivery DeliveredHere).
Qed.

Lemma claimPrefixes_prefer pool delivery raws st :
  (foldl (claimPrefix pool delivery) st raws).1 = foldl prefer st.1 (prefixEvents delivery raws).
Proof.
  revert st. induction raws as [|raw raws IH]; intros st; [done|]. cbn [foldl]. rewrite IH, claimPrefix_prefer, <- foldl_app.
  f_equal. unfold prefixEvents. cbn [omap list_omap]. by destruct (ParsePrefix raw).
Qed.

Lemma claimPool_prefer pools adv st name :
  (claimPool nodeName pools adv st name).1 = foldl prefer st.1 (poolEvents pools adv name).
Proof.
  unfold claimPool, poolEvents. destruct (String.eqb (TrimSpace name) ""); [done|].
  destruct (pools !! TrimSpace name) as [pool|]; [|apply warn_claims].
  destruct (negb _); [apply warn_claims|apply claimPrefixes_prefer].
Qed.

Lemma claimAdvertisement_prefer pools st adv :
  (claimAdvertisement nodeName pools st adv).1 = foldl prefer st.1 (advEvents pools adv).
Proof.
  unfold claimAdvertisement, advEvents. revert st. induction (bgp_AddressPools adv) as [|name names IH]; intros st; [done|].
  rewrite fmap_cons. cbn [foldl mjoin list_join]. by rewrite foldl_app, IH, claimPool_prefer.
Qed.

Lemma claims_prefer pools advs st :
  (foldl (claimAdvertisement nodeName pools) st advs).1 = foldl prefer st.1 (mjoin (advEvents pools <$> advs)).
Proof.
  revert st. induction advs as [|adv advs IH]; intros st; [done|].
  rewrite fmap_cons. cbn [foldl mjoin list_join]. by rewrite foldl_app, IH, claimAdvertisement_prefer.
Qed.

Lemma elem_of_advEvents pools adv k v :
  (k, v) ∈ advEvents (poolsByName pools) adv <-> v = deliveryOf nodeName adv /\ advertises pools adv k.
Proof.
  unfold advEvents. rewrite list_elem_of_join. split.
  - intros (l & Hin & (name & -> & Hname)%list_elem_of_fmap). unfold poolEvents in Hin.
    destruct (String.eqb_spec (TrimSpace name) "") as [|Hne]; [by apply elem_of_nil in Hin|].
    destruct (poolsByName pools !! TrimSpace name) as [pool|] eqn:Hp; [|by apply elem_of_nil in Hin].
    destruct (String.eqb_spec (ap_AdvertiseMode pool) AddressPoolAdvertiseModeBGP) as [Hm|]; [|by apply elem_of_nil in Hin].
    apply list_elem_of_omap in Hin as (raw & Hraw & Heq). destruct (ParsePrefix raw) as [k'|] eqn:Hk; [|done].
    injection Heq as -> <-. split; [done|]. by exists name, pool, raw.
  - intros [-> (name & pool & raw & Hname & Hne & Hp & Hm & Hraw & Hk)].
    eexists. split; [|apply list_elem_of_fmap; by exists name]. unfold poolEvents.
    rewrite (proj2 (String.eqb_neq _ _) Hne), Hp, (proj2 (String.eqb_eq _ _) Hm). cbn [negb].
    apply list_elem_of_omap. exists raw. by rewrite Hk.
Qed.

Lemma deliveryOf_valid adv : valid_delivery (deliveryOf nodeName adv).
Proof. unfold deliveryOf. destruct (_ || _); [by left|by right]. Qed.

(** The deliveries the loops settle on. *)
Lemma claims_picked pools advs k v :
  MkClaim k v ∈ (desiredClaims nodeName pools advs).1 <->
  (exists adv, adv ∈ advs /\ v = deliveryOf nodeName adv /\ advertises pools adv k) /\
  (v = DeliveredHere \/ ~ exists adv, adv ∈ advs /\ deliveryOf nodeName adv = DeliveredHere /\ advertises pools adv k).
Proof.
  unfold desiredClaims. cbn [fst]. rewrite merge_sort_Permutation, list_elem_of_fmap.
  set (P := fun v => exists adv, adv ∈ advs /\ v = deliveryOf nodeName adv /\ advertises pools adv k).
  assert (Hin : forall k v, (k, v) ∈ mjoin (advEvents (poolsByName pools) <$> merge_sort adv_le advs) <->
    exists adv, adv ∈ advs /\ v = deliveryOf nodeName adv /\ advertises pools adv k).
  { intros k' v'. rewrite list_elem_of_join. split.
    - intros (l & Hl & (adv & -> & Ha)%list_elem_of_fmap). rewrite merge_sort_Permutation in Ha. exists adv.
      split; [done|]. by apply elem_of_advEvents.
    - intros (adv & Ha & H). exists (advEvents (poolsByName pools) adv). split; [by apply elem_of_advEvents|].
      apply list_elem_of_fmap. exists adv. split; [done|]. by rewrite merge_sort_Permutation. }
  assert (Hvalid : forall v, P v -> valid_delivery v) by (intros v' (adv & _ & -> & _); apply deliveryOf_valid).
  assert (Hp : picked P ((foldl (claimAdvertisement nodeName (poolsByName pools)) (∅, []) (merge_sort adv_le advs)).1 !! k)).
  { rewrite claims_prefer. eapply picked_proper; [|done|apply prefer_picked].
    - intros v'. unfold P. by rewrite Hin.
    - intros [k' v'] H%Hin. destruct H as (adv & _ & -> & _). apply deliveryOf_valid. }
  assert (Hhere : (exists adv, adv ∈ advs /\ deliveryOf nodeName adv = DeliveredHere /\ advertises pools adv k) <-> P DeliveredHere).
  { unfold P. naive_solver. }
  rewrite Hhere. change ((exists adv, adv ∈ advs /\ v = deliveryOf nodeName adv /\ advertises pools adv k)) with (P v). split.
  - intros ([k' v'] & [= -> ->] & Hm%elem_of_map_to_list). cbn in Hm. by rewrite Hm in Hp.
  - intros Hv. exists (k, v). split; [done|]. apply elem_of_map_to_list.
    exact (picked_unique P _ (Some v) Hvalid Hp Hv).
Qed.
(** An advertisement for every node, or for this one. *)
Definition for_this_node (adv : BGPAdvertisement) : Prop := bgp_NodeName adv = ""%string \/ bgp_NodeName adv = nodeName.

#[local] Instance for_this_node_dec adv : Decision (for_this_node adv).
Proof. unfold for_this_node. apply _. Defined.

(** A pool in BGP mode that the advertisement names. *)
Definition names_pool (pools : list AddressPool) (adv : BGPAdvertisement) (pool : AddressPool) : Prop :=
  exists name, name ∈ bgp_AddressPools adv /\ TrimSpace name <> ""%string /\ pool ∈ pools /\ ap_Name pool = TrimSpace name /\
    ap_AdvertiseMode pool = "bgp"%string.

(** What this node serves of an advertisement: every address of its pools. *)
Definition serves (pools : list AddressPool) (adv : BGPAdvertisement) (k : Key) : Prop :=
  exists pool raw, names_pool pools adv pool /\ raw ∈ ap_Addresses pool /\ ParsePrefix raw = Ok k.

(** What another node announces: the prefix of the advertisement when it has
    one, every address of its pools otherwise. *)
Definition announces (pools : list AddressPool) (adv : BGPAdvertisement) (k : Key) : Prop :=
  exists pool raw, names_pool pools adv pool /\ ParsePrefix raw = Ok k /\
    if decide (TrimSpace (bgp_Prefix adv) = ""%string) then raw ∈ ap_Addresses pool else raw = bgp_Prefix adv.

Lemma deliveryOf_here adv : deliveryOf nodeName adv = DeliveredHere <-> for_this_node adv.
Proof.
  unfold deliveryOf, for_this_node. destruct (String.eqb_spec (bgp_NodeName adv) ""), (String.eqb_spec (bgp_NodeName adv) nodeName);
    cbn; split; try tauto; done.
Qed.

Lemma deliveryOf_elsewhere adv : deliveryOf nodeName adv = DeliveredElsewhere <-> ~ for_this_node adv.
Proof.
  rewrite <- deliveryOf_here. destruct (deliveryOf_valid adv) as [-> | ->]; by split.
Qed.

Lemma poolsByName_lookup pools name pool :
  NoDup (ap_Name <$> pools) -> poolsByName pools !! name = Some pool <-> pool ∈ pools /\ ap_Name pool = name.
Proof.
  intros Hd. unfold poolsByName. induction pools as [|p pools IH] using rev_ind.
  { cbn. rewrite lookup_empty. split; [done|]. by intros [?%elem_of_nil _]. }
  rewrite fmap_app in Hd. apply NoDup_app in Hd as (Hd & Hp & _).
  rewrite foldl_app. cbn. rewrite elem_of_app, list_elem_of_singleton. destruct (decide (ap_Name p = name)) as [<-|Hne].
  - rewrite lookup_insert_eq. split; [intros [= ->]; tauto|]. intros [[Hin| ->] Heq]; [|done].
    destruct (Hp (ap_Name pool)); [by apply list_elem_of_fmap_2|]. rewrite Heq. by apply list_elem_of_fmap_2, list_elem_of_singleton.
  - rewrite lookup_insert_ne, IH by done. naive_solver.
Qed.

Lemma advertises_spec pools adv k :
  NoDup (ap_Name <$> pools) ->
  advertises pools adv k <-> if decide (for_this_node adv) then serves pools adv k else announces pools adv k.
Proof.
  intros Hd. unfold advertises, serves, announces, names_pool, claimedPrefixes. setoid_rewrite (poolsByName_lookup pools _ _ Hd).
  case_decide as Hh.
  - apply deliveryOf_here in Hh. rewrite Hh. cbn. split.
    + intros (name & pool & raw & H1 & H2 & [H3 H4] & H5 & H6 & H7). exists pool, raw. split; [by exists name|done].
    + intros (pool & raw & (name & H1 & H2 & H3 & H4 & H5) & H6 & H7). by exists name, pool, raw.
  - apply deliveryOf_elsewhere in Hh. rewrite Hh. cbn.
    assert (Hin : forall pool raw, raw ∈ (if negb (String.eqb (TrimSpace (bgp_Prefix adv)) "") then [bgp_Prefix adv] else ap_Addresses pool) <->
      if decide (TrimSpace (bgp_Prefix adv) = ""%string) then raw ∈ ap_Addresses pool else raw = bgp_Prefix adv).
    { intros pool raw. case_decide as He; [by rewrite He|]. rewrite (proj2 (String.eqb_neq _ _) He). cbn. apply list_elem_of_singleton. }
    setoid_rewrite Hin. split.
    + intros (name & pool & raw & H1 & H2 & [H3 H4] & H5 & H6 & H7). exists pool, raw. split; [by exists name|done].
    + intros (pool & raw & (name & H1 & H2 & H3 & H4 & H5) & H6 & H7). by exists name, pool, raw.
Qed.

(** Claim C34: the claims of the BGP pools are exact.  Whatever the order of
    the lists, and with pools of distinct names, this node claims a prefix as
    delivered here exactly when an advertisement for every node or for this
    one names a pool in BGP mode that lists it, and as delivered elsewhere
    exactly when it is claimed by none of these, and an advertisement for
    another node announces it, by its own prefix if it has one and by its
    pools otherwise.  Nothing else is claimed: addresses that do not parse,
    pools that are missing and pools of another mode claim nothing. *)
Theorem bgp_claims_exact pools advs k :
  NoDup (ap_Name <$> pools) ->
  let claims := (desiredClaims nodeName pools advs).1 in
  let here := exists adv, adv ∈ advs /\ for_this_node adv /\ serves pools adv k in
  (MkClaim k DeliveredHere ∈ claims <-> here) /\
  (MkClaim k DeliveredElsewhere ∈ claims <->
    ~ here /\ exists adv, adv ∈ advs /\ ~ for_this_node adv /\ announces pools adv k) /\
  (forall v, MkClaim k v ∈ claims -> v = DeliveredHere \/ v = DeliveredElsewhere).
Proof.
  intros Hd claims here.
  assert (Hhere : (exists adv, adv ∈ advs /\ deliveryOf nodeName adv = DeliveredHere /\ advertises pools adv k) <-> here).
  { unfold here. setoid_rewrite deliveryOf_here. setoid_rewrite (advertises_spec pools _ k Hd).
    split; intros (adv & Ha & Hf & Hs); exists adv; (split_and!; [done|done|]); by case_decide. }
  assert (Helse : (exists adv, adv ∈ advs /\ DeliveredElsewhere = deliveryOf nodeName adv /\ advertises pools adv k) <->
    exists adv, adv ∈ advs /\ ~ for_this_node adv /\ announces pools adv k).
  { setoid_rewrite (advertises_spec pools _ k Hd).
    split; intros (adv & Ha & Hf & Hs); exists adv; (split; [done|]).
    - symmetry in Hf. apply deliveryOf_elsewhere in Hf. split; [done|]. by case_decide.
    - split; [symmetry; by apply deliveryOf_elsewhere|]. by case_decide. }
  subst claims. split_and!.
  - rewrite claims_picked, Hhere. split; [intros [(adv & Ha & Hv & Hs) _]; apply Hhere; by exists adv|].
    intros Hh. split; [|by left]. apply Hhere in Hh as (adv & Ha & Hv & Hs). by exists adv.
  - rewrite claims_picked, Hhere, Helse. split; [|tauto]. intros [H1 [H2|H2]]; [done|tauto].
  - intros v. rewrite claims_picked. intros [(adv & _ & -> & _) _]. apply deliveryOf_valid.
Qed.
End Bgp.

(** Two advertisements of one pool: one of [n2] for a part of it, and one of
    every node.  On [n1] the pool is delivered here, the part elsewhere. *)
Definition ex_pools : list AddressPool :=
  [MkAddressPool "lab" "l2" ["192.0.2.0/24"%string]; MkAddressPool "edge" "bgp" ["203.0.113.0/24"; "nonsense"]%string].
Definition ex_advs : list BGPAdvertisement :=
  [MkBGPAdvertisement "part" ["edge"%string] "n2" "203.0.113.128/25"; MkBGPAdvertisement "all" [" edge "; "gone"; "lab"]%string "" ""].

Lemma bgp_claims_exact_witness :
  let claims := (desiredClaims "n1" ex_pools ex_advs).1 in
  claims = [MkClaim (MkKey 24 7405771) DeliveredHere; MkClaim (MkKey 25 2154889419) DeliveredElsewhere] /\
  (exists adv, adv ∈ ex_advs /\ for_this_node "n1" adv /\ serves ex_pools adv (MkKey 24 7405771)) /\
  (exists adv, adv ∈ ex_advs /\ ~ for_this_node "n1" adv /\ announces ex_pools adv (MkKey 25 2154889419)).
Proof.
  intros claims. assert (Hc : claims = [MkClaim (MkKey 24 7405771) DeliveredHere; MkClaim (MkKey 25 2154889419) DeliveredElsewhere])
    by (vm_compute; reflexivity).
  assert (Hd : NoDup (ap_Name <$> ex_pools)) by (apply (bool_decide_unpack _); vm_compute; reflexivity).
  split_and!; [exact Hc| |].
  - apply (bgp_claims_exact "n1" ex_pools ex_advs (MkKey 24 7405771) Hd). fold claims. rewrite Hc. left.
  - apply (bgp_claims_exact "n1" ex_pools ex_advs (MkKey 25 2154889419) Hd). fold claims. rewrite Hc. right. left.
Defined.
